(* ===== verification/_CoqProject ===== *)
-Q . S2P
Prelude.v
GoFloat.v
GoText.v
HllCodec.v
CompressedList.v
Beta.v
SketchSpec.v
Sketch.v
SketchBinary.v
Types.v
Bloom.v
Dedup.v
Config.v
GroupSize.v
Snapshot.v
Estimator.v
EstimatorInsert.v
GroupKey.v
EstimatorWindow.v
EstimatorLife.v
EstimatorSnapshot.v
EstimatorTyped.v
EstimatorConcurrent.v
EstimatorSnapshotConcurrent.v
Rotation.v
EstimatorExamples.v
Churn.v
ProtoReader.v
Snappy.v
XXHash.v
GoQuote.v
Metrics.v
Reload.v
Scrape.v
ScrapeRace.v
Proto.v
WriteHandler.v
DedupWindow.v
ReloadRace.v
ReloadSerial.v
DedupOvershoot.v
Server.v
EndToEnd.v
