(* ===== verification/Prelude.v ===== *)
(** * vmestimator: a verification of the cardinality estimator

    vmestimator receives Prometheus remote-write requests and reports, per
    stream of its configuration, how many distinct series it has seen lately.
    The path of the data through the program (sources under
    src/app/vmestimator/, vendored packages under src/vendor/):

    - main.go, [/api/v1/write]: protoparser/ decompresses and decodes the
      request and fingerprints every series and, if needed, every label value;
      the deduplicator drops series seen lately; the rest goes to every
      estimator;
    - estimator.go: an estimator filters and groups the series and records each
      fingerprint in one of its buckets, in the HyperLogLog sketch of its
      group, if the group limit allows the group; the buckets rotate in turn,
      each keeping a current and a previous set of sketches;
    - snapshot.go and [/clusternative/snapshot]: an estimator's sketches are
      sent as snapshots and merged by aggregating nodes; churn.go compares
      consecutive snapshots;
    - cardinality_metrics.go: a scrape writes the estimates of the local
      estimators, of the snapshots fetched from the storage nodes and the churn
      ratios as text, and keeps the text for a while;
    - config.go: streams are prepared, and on a reload matched against the
      running estimators.

    ** The files and what they model

    - Prelude: fixed-width integers ([wrap w], the notations [+[w]], [<<[w]]),
      panics ([option], [None] is a panic), slices that panic when out of range
      ([slice_from], [slice_to]), errors ([result]), loops whose body can panic
      ([for_each]) and map iteration in any order ([IterOrder]).
      GoFloat: [float64] as IEEE binary64.  GoText, GoQuote: the text
      formatting and quoting of the standard library in use.
    - HllCodec, CompressedList, Beta, Sketch, SketchBinary: the vendored
      package axiomhq/hyperloglog (utils.go and sparse.go; compressed.go;
      beta.go; hyperloglog.go; the binary form).  SketchSpec is the interface
      the rest of the program is verified against: the class [SketchOps] of the
      operations vmestimator calls and the class [SketchSpec] of their laws in
      terms of the set of hashes a sketch stands for; Sketch discharges it, so
      the theorems about estimators hold for this sketch and for any other with
      the same contract (witnesses use one that keeps the set itself).
    - XXHash: the vendored cespare/xxhash/v2 and the digest pools; it
      discharges the interface [Xxhash] of Types.
    - Types, ProtoReader, Proto: the time series; the field reader of vendored
      easyproto/reader.go; UnmarshalProtobuf and parseRequestBody of
      protoparser/write_request.go and streamparser.go, with the pools of
      buffers and unmarshalers they recycle.  Snappy: the block decoder of
      vendored golang/snappy, with a specification of its format.
    - Bloom, Dedup: deduplicator.go, the lock-free bloom filter as a step
      relation over its loads and compare-and-swaps.
    - Config: config.go up to loadConfig, and estimatorID.
    - GroupSize, Estimator: estimator.go; one [Record] per struct, one
      definition per method.  EstimatorInsert relates an estimator to its
      abstract state, a family of hash sets by group key for the current and
      the previous half of each bucket ([est_repr]); EstimatorWindow speaks
      about all buckets together, EstimatorLife about every estimator reachable
      from newEstimator, EstimatorSnapshot about toSnapshot, EstimatorTyped
      about the shape of the data ([est_typed], [snapshot_typed]),
      EstimatorConcurrent about interleaved batches, EstimatorSnapshotConcurrent
      about a snapshot taken while the estimator works (the maps of the buckets
      are in a store, to which the buckets and the snapshot refer), GroupKey
      about the texts that are hashed to the keys of groups; Rotation is the
      goroutine [runRotation] over readings of the clock;
      EstimatorExamples applies their theorems to concrete estimators.
    - Snapshot, Churn: snapshot.go and churn.go without the text output, which
      is Metrics: the lines of snapshot.go, churn.go and estimator.go as bytes.
    - Reload: readConfig, loadConfig and a round of startConfigReloader of
      config.go, invalidateCardinalityCache of cardinality_metrics.go and the
      [/reset] request of main.go over one record [world] of the package-level
      variables.  The stop channels of the estimators have an identity there
      ([chans]): newEstimator makes one, stop closes it, and closing a closed
      one is a panic.  WriteHandler: the callback of the [/api/v1/write] request over
      [world].  DedupWindow: that callback together with the turns of the
      deduplicator's and the estimators' goroutines, as events with times.
      Scrape: the rest of cardinality_metrics.go; ScrapeRace: a scrape that
      read the list of estimators before a reload and writes them after it.
    - ReloadRace: the same callback and [loadConfig], taken apart into their
      atomic steps (the loads and stores of the list [estimators] and of the
      pointers [bfs], the look-up, the reading of the size and the addition in
      a filter, one insert into one estimator), which any number of requests,
      a reload and the rotations take in any order; estimators and filters are
      objects in a memory, referred to by number; stopping the estimators is
      left to Reload.  ReloadSerial checks the steps of the callback against
      [write_callback]; DedupOvershoot counts what
      concurrent requests add to a filter.
    - Server: main.go, the composition of all of the above: the start, the
      shutdown, the routing of requests to the handlers, and the program as a
      step relation whose steps are requests, scrapes, rounds of the rotation
      goroutines (each with the division by its period), and wake-ups of the
      reloader.  EndToEnd follows the data from
      the bytes of write requests to the reply of a snapshot request.

    ** What the theorems show

    - Sketches (Sketch_merge_union, Sketch_insert_order, Sketch_binary_roundtrip
      and others): a sketch depends on the set of hashes only; merging is union;
      the binary form, the sparse codes and the compressed list lose nothing.
      Hashing in pieces is hashing at once (digest_streaming).
    - Estimators (insertMany_exact, insertMany_refines, concurrent_batches,
      concurrent_snapshot, estimator_lifetime, toSnapshot_spec, estimator_shape,
      group_key_values): inserting a batch is exact below the group limit, also
      when other batches are inserted at the same time, and implements the
      abstract inserts in any case; what is reported is what was recorded in the
      last two turns of the rotation, and a snapshot taken while batches,
      rotations and resets go on is still made of recorded hashes and misses
      none of a bucket that rotates at most once (of its current half) or not at
      all (of both); series with the same of the group-by labels share a key
      only if they share the values (up to collisions of the hash); nothing
      panics from creation on, with resets of a global estimator allowed once
      each of its buckets has rotated ([lifetime_ok]; a reset before that does
      panic, which is stated as a theorem, reset_spec); the group limit holds
      for one writer and is exceeded by less than the number of buckets for
      concurrent ones; every group has a value for every key and a sketch.  The
      snapshot under concurrency is that of a group estimator.
    - Time (runRotation_grid, runRotation_window): the buckets are rotated on a
      fixed grid; what the current halves hold is reported for the next [n]
      ticks, those of half an interval, and a series no longer than [2 n] ticks
      after it was last seen.
    - End to end (sent_series_reported, held_back_reported): without a
      deduplicator what clients send in write requests is what a snapshot
      request returns; with one, what was received lately enough, although it holds most of it back (no
      bloom filter giving a false positive, which is a hypothesis on the run).
    - Cluster (cluster_aggregation, scraped_cluster, snapshot_request_spec): the
      union of the nodes' windows is reported, in whatever order the snapshots
      arrive; a node that cannot be read leaves the churn state alone
      (failed_fetch_keeps_churn).
    - Text (snapshot_writeMetrics_spec, group_line_injective,
      writeCardinalityMetrics_spec): which groups have a line, that a line
      determines the values of its group whatever they hold (two groups can
      have the same values: [missing_and_empty]), and what a scrape writes,
      caches and leaves unchanged, if the storage nodes send well-formed
      snapshots or fail.
    - Deduplicator: no false negatives, also under interleaved [add]s; at most
      a quarter of the bits are ever set; a series is forgotten after one interval
      (rotation_forgets); which series of a batch are forwarded, which dropped
      and which remembered (deduplicator_filter_spec).
    - Requests during a reload (reload_loses_nothing, requests_deliver,
      filter_overshoot): with every interleaving of requests,
      a reload and the rotations nothing panics, the requests end, and what the
      deduplicator remembers, unless the reload is about to reset that filter,
      is in every estimator of the list or in the hands of a request that will
      insert it there (which is why [loadConfig] stores the list first and
      resets afterwards); each request beyond the first can add at most one
      series too many to a filter.
    - Requests (write_request_spec, snappy_Decode_exact,
      parseRequestBody_roundtrip, UnmarshalProtobuf_total): exactly the blocks
      of the snappy format are decompressed, to what they stand for; decoding
      inverts encoding whatever the recycled buffers hold, terminates on any
      bytes and allocates no more than half the body's size in series and
      labels; a write request is all or nothing and reaches every estimator
      once.
    - Configuration: prepared streams are well formed and have distinct ids;
      a reload keeps the running estimators equal to the active config, and a
      failed one changes nothing; filters match what their selector says.
    - Churn: what an update does to the baselines, and the range of the ratio.
    - The program (program_never_panics, program_stops_once,
      reload_needs_auth): from the start on no request, scrape, round of a
      goroutine or reload panics and the estimators are those of the active
      config, but for the [/reset] above, a deduplication interval of exactly
      30 seconds, stream intervals that leave a bucket no nanosecond
      ([tiny_interval_panics]) and malformed snapshots from storage nodes
      ([global_without_group]), where the program does panic; in every state
      the open stop channels are those of the active estimators, and each is
      closed once; and a reload by request needs the key.

    ** Fuel and bounds

    The loops over protobuf fields and over the elements of a snappy block have
    the number of bytes plus one as fuel; each takes at least one byte, and the
    totality theorems of Proto and Snappy prove the fuel is enough.  The same holds for the loops of the
    compressed list, of the hash and of quoting (bytes), of [chunks] (keys) and
    of [decodeSnapshots] (messages, each of which shortens the stream).
    Theorems carry the program's own bounds: batches below 2^31 series (implied
    for requests below 4 GiB), precisions in [4, 18], deduplicators below 2^53
    series, fewer than 2^31 streams.  Counters are unbounded integers where only
    metrics read them.

    ** Parameters

    The metricsql parser ([MetricsQL]), the YAML decoder and the file system
    ([ConfigSource]), the zstd decompressor ([Codecs]), the random numbers
    ([FastRand]), the transcendental functions of package math ([GoMath]), the
    table of printable runes ([UnicodeTables]), the HTTP client with the gob
    decoder ([Peers]), the HTTP library of the server ([HttpServer]), the order
    of Go maps ([IterOrder], [KeyOrder]) and of the fetching goroutines
    ([Interleaving]).  The laws assumed of them: a random number is below its
    bound, the orders are permutations, reading a message shortens the stream,
    and the documented values of [math.Log] and [math.Pow] that an estimate
    uses.  Theorems about scrapes of storage nodes assume besides that what is
    decoded of the configured nodes' answers are snapshots ([peers_honest]):
    their sketches are sketches, their groups have their values, a global one
    has its group; the code does not check that.

    ** Not modelled

    The metrics of the program about itself (counters and gauges of the metrics
    package) beyond those the handlers' code reads or returns; flag parsing,
    listening, TLS, log output and the push of metrics, which are calls of
    libraries; the blocking of the goroutines' select loops (their bodies are
    steps with the clock as an argument) and of mutexes (an operation under a
    lock is one step); the interleaving of whole requests in Server, whose
    steps are complete (ReloadRace interleaves the callbacks of write requests
    with a reload and the rotations, with an insert of a batch as one step;
    Bloom, GroupSize, EstimatorConcurrent and EstimatorSnapshotConcurrent
    interleave the operations within an estimator or a filter); the
    assembly versions of the hash and of the snappy decoder; the pools of the
    buffers that text is written in, which are emptied before use.  The strings
    of decoded labels share the memory of the request's buffer in the code; the
    estimator clones those it keeps, so the model's strings are values.  The
    third-party selector parser, zstd and gob are parameters; the function
    [hash] of estimator.go is used by tests only. *)
From stdpp Require Export base tactics numbers list gmap fin_sets option strings sorting.
From Stdlib Require Export ZArith Lia.

(** ** Go's fixed-width unsigned integers

    A [w]-bit unsigned integer is a [Z] in [0, 2^w); every operation that can
    leave the range is followed by an explicit [wrap]. *)
Definition wrap (w z : Z) : Z := z mod 2 ^ w.

Declare Scope go_scope.
Delimit Scope go_scope with go.
Notation "x +[ w ] y" := (wrap w (x + y)%Z) (at level 50, left associativity) : go_scope.
Notation "x -[ w ] y" := (wrap w (x - y)%Z) (at level 50, left associativity) : go_scope.
Notation "x *[ w ] y" := (wrap w (x * y)%Z) (at level 40, left associativity) : go_scope.
Notation "x <<[ w ] n" := (wrap w (Z.shiftl x n)) (at level 35, right associativity) : go_scope.
Notation "x >> n" := (Z.shiftr x n) (at level 35, right associativity) : go_scope.
Notation "x .& y" := (Z.land x y) (at level 40, left associativity) : go_scope.
Notation "x .| y" := (Z.lor x y) (at level 50, left associativity) : go_scope.
Open Scope Z_scope.
Open Scope go_scope.

(** The values a [w]-bit unsigned integer can hold. *)
Definition uint (w z : Z) : Prop := 0 <= z < 2 ^ w.

#[export] Instance uint_dec w z : Decision (uint w z).
Proof. unfold uint. apply _. Defined.

(** [math/bits.Len64] and [math/bits.LeadingZeros64]. *)
Definition Len64 (x : Z) : Z := if x =? 0 then 0 else Z.log2 x + 1.
Definition LeadingZeros64 (x : Z) : Z := 64 - Len64 x.

(** ** Panics and errors

    A computation that can panic has type [option]: [None] is the panic (an
    index out of range, a nil dereference, an explicit [panic] or
    [logger.Panicf]).  A computation that returns a Go [error] has type
    [result]. *)
Inductive result (A : Type) : Type :=
| Ok (a : A)
| Error (msg : string).
Arguments Ok {_} _.
Arguments Error {_} _.

(** [l[n:]] and [l[:n]], which panic on a bound out of range.  (Go lets the
    upper bound of a slice reach up to the capacity; here that is a panic too,
    since it reads what is not in the slice.) *)
Definition slice_from {A} (n : Z) (l : list A) : option (list A) :=
  if (0 <=? n) && (n <=? Z.of_nat (length l)) then Some (drop (Z.to_nat n) l) else None.
Definition slice_to {A} (n : Z) (l : list A) : option (list A) :=
  if (0 <=? n) && (n <=? Z.of_nat (length l)) then Some (take (Z.to_nat n) l) else None.

(** A [for] loop over a list whose body can panic. *)
Fixpoint for_each {A S} (body : S → A → option S) (l : list A) (s : S) : option S :=
  match l with
  | [] => Some s
  | a :: l' => s' ← body s a; for_each body l' s'
  end.

(** ** Go's unspecified map iteration order

    [range] over a Go map (and [ForEach] over an [intmap.Set]) visits the keys
    in an order the language leaves open.  Code that iterates is modelled over
    an arbitrary order; its theorems hold for every one. *)
Class IterOrder := { iter_keys : gset Z → list Z }.
Class IterOrderOk (O : IterOrder) : Prop := {
  iter_keys_perm : ∀ X, iter_keys X ≡ₚ elements X
}.

(** The order used by witnesses: stdpp's own enumeration. *)
#[export] Instance elements_order : IterOrder | 100 := { iter_keys := elements }.
#[export] Instance elements_order_ok : IterOrderOk elements_order | 100.
Proof. split. done. Qed.

Lemma slice_from_ok {A} n (l : list A) : 0 <= n <= Z.of_nat (length l) → slice_from n l = Some (drop (Z.to_nat n) l).
Proof. intros H. unfold slice_from. by rewrite (proj2 (Z.leb_le _ _)), (proj2 (Z.leb_le n _)) by lia. Qed.
Lemma slice_to_ok {A} n (l : list A) : 0 <= n <= Z.of_nat (length l) → slice_to n l = Some (take (Z.to_nat n) l).
Proof. intros H. unfold slice_to. by rewrite (proj2 (Z.leb_le _ _)), (proj2 (Z.leb_le n _)) by lia. Qed.
Lemma slice_from_app {A} (l1 l2 : list A) : slice_from (Z.of_nat (length l1)) (l1 ++ l2) = Some l2.
Proof. rewrite slice_from_ok by (rewrite length_app; lia). by rewrite Nat2Z.id, drop_app_length. Qed.
Lemma slice_to_app {A} (l1 l2 : list A) : slice_to (Z.of_nat (length l1)) (l1 ++ l2) = Some l1.
Proof. rewrite slice_to_ok by (rewrite length_app; lia). by rewrite Nat2Z.id, take_app_length. Qed.
Lemma slice_from_length {A} n (l l' : list A) : slice_from n l = Some l' → Z.of_nat (length l') = Z.of_nat (length l) - n.
Proof.
  unfold slice_from. destruct (Z.leb_spec 0 n), (Z.leb_spec n (Z.of_nat (length l))); try done. intros [= <-].
  rewrite length_drop. lia.
Qed.
Lemma slice_to_length {A} n (l l' : list A) : slice_to n l = Some l' → Z.of_nat (length l') = n.
Proof.
  unfold slice_to. destruct (Z.leb_spec 0 n), (Z.leb_spec n (Z.of_nat (length l))); try done. intros [= <-].
  rewrite length_take. lia.
Qed.

(** A loop whose body keeps an invariant that records what was processed. *)
Lemma for_each_inv {A S} (body : S → A → option S) (I : list A → S → Prop) l s :
  I [] s →
  (∀ done a s, I done s → a ∈ l → ∃ s', body s a = Some s' ∧ I (done ++ [a]) s') →
  ∃ s', for_each body l s = Some s' ∧ I l s'.
Proof.
  intros H0 Hstep.
  enough (∀ todo done s, done ++ todo = l → I done s →
            ∃ s', for_each body todo s = Some s' ∧ I l s') as H by by apply (H l []).
  clear H0 s. induction todo as [|a todo IH]; intros dn s E HI; simpl.
  - rewrite app_nil_r in E. subst. eauto.
  - destruct (Hstep dn a s HI) as (s' & -> & HI'); [subst; set_solver|].
    simpl. apply (IH (dn ++ [a])); [by rewrite <- app_assoc|done].
Qed.

(** The same over distinct elements. *)
Lemma for_each_inv_NoDup {A S} (body : S → A → option S) (I : list A → S → Prop) l s :
  NoDup l → I [] s →
  (∀ done a s, I done s → a ∈ l → a ∉ done → ∃ s', body s a = Some s' ∧ I (done ++ [a]) s') →
  ∃ s', for_each body l s = Some s' ∧ I l s'.
Proof.
  intros Hnd H0 Hstep.
  enough (∀ todo done s, done ++ todo = l → I done s →
            ∃ s', for_each body todo s = Some s' ∧ I l s') as H by by apply (H l []).
  clear H0 s. induction todo as [|a todo IH]; intros dn s E HI; simpl.
  - rewrite app_nil_r in E. subst. eauto.
  - destruct (Hstep dn a s HI) as (s' & -> & HI').
    + subst. apply elem_of_app. right. left.
    + subst. apply NoDup_app in Hnd as (_ & Hnd & _). intros Ha. apply (Hnd a Ha). left.
    + simpl. apply (IH (dn ++ [a])); [by rewrite <- app_assoc|done].
Qed.

Lemma for_each_keeps {A S} (body : S → A → option S) (I : S → Prop) l s s' :
  (∀ x s s', x ∈ l → body s x = Some s' → I s → I s') → for_each body l s = Some s' → I s → I s'.
Proof.
  revert s. induction l as [|x l IH]; intros s Hb E HI; simpl in E; [by injection E as <-|].
  destruct (body s x) as [s1|] eqn:E1; [|done]. simpl in E. apply (IH s1); [|done|].
  - intros y s2 s3 Hy. apply Hb. by right.
  - by apply (Hb x s); [left|..].
Qed.

Lemma for_each_app {A S} (body : S → A → option S) l1 l2 s :
  for_each body (l1 ++ l2) s = s' ← for_each body l1 s; for_each body l2 s'.
Proof. revert s. induction l1 as [|a l1 IH]; intros s; simpl; [done|]. destruct (body s a); simpl; [apply IH|done]. Qed.

Lemma for_each_map {A B S} (body : S → B → option S) (g : A → B) l s :
  for_each body (map g l) s = for_each (λ s a, body s (g a)) l s.
Proof. revert s. induction l as [|a l IH]; intros s; simpl; [done|]. destruct (body s (g a)); [apply IH|done]. Qed.

Lemma for_each_ext {A S} (body1 body2 : S → A → option S) (I : S → Prop) l s :
  I s →
  (∀ s a, I s → a ∈ l → body1 s a = body2 s a ∧ ∀ s', body1 s a = Some s' → I s') →
  for_each body1 l s = for_each body2 l s.
Proof.
  revert s. induction l as [|a l IH]; intros s HI H; simpl; [done|].
  destruct (H s a HI) as [<- HI']; [by left|].
  destruct (body1 s a) as [s'|]; [|done]. simpl. apply IH; [by apply HI'|].
  intros; apply H; [done|by right].
Qed.

(** A loop over the indices of a list is a loop over its elements. *)
Lemma for_each_index_from {A S} (f : S → A → option S) l1 l2 s :
  for_each (λ s j, a ← (l1 ++ l2) !! Z.to_nat j; f s a)
    (seqZ (Z.of_nat (length l1)) (Z.of_nat (length l2))) s = for_each f l2 s.
Proof.
  revert l1 s. induction l2 as [|a l2 IH]; intros l1 s; [done|].
  rewrite seqZ_cons by (simpl; lia). cbn [for_each].
  rewrite Nat2Z.id, list_lookup_middle by done. cbn [mbind option_bind].
  destruct (f s a) as [s'|]; [|done]. simpl. rewrite <- (IH (l1 ++ [a]) s').
  rewrite length_app. cbn [length].
  replace (Z.of_nat (length l1 + 1)) with (Z.succ (Z.of_nat (length l1))) by lia.
  replace (Z.pred (Z.of_nat (Datatypes.S (length l2)))) with (Z.of_nat (length l2)) by lia.
  f_equal. by rewrite <- app_assoc.
Qed.

Lemma for_each_index {A S} (f : S → A → option S) l s :
  for_each (λ s j, a ← l !! Z.to_nat j; f s a) (seqZ 0 (Z.of_nat (length l))) s = for_each f l s.
Proof. apply (for_each_index_from f [] l s). Qed.

Lemma for_each_ext_in {A S} (body1 body2 : S → A → option S) l s :
  (∀ s a, a ∈ l → body1 s a = body2 s a) → for_each body1 l s = for_each body2 l s.
Proof.
  revert s. induction l as [|a l IH]; intros s H; simpl; [done|].
  rewrite H by left. destruct (body2 s a); [|done]. simpl. apply IH. intros; apply H; by right.
Qed.

Lemma size_0_empty (X : gset Z) : size X = 0%nat → X = ∅.
Proof. intros H. by apply leibniz_equiv, size_empty_inv. Qed.

Lemma list_to_set_map `{Countable A, Countable B} (f : A → B) (l : list A) :
  list_to_set (map f l) = set_map f (list_to_set l : gset A) :> gset B.
Proof.
  apply set_eq. intros b. rewrite elem_of_list_to_set, elem_of_map, list_elem_of_fmap.
  by setoid_rewrite elem_of_list_to_set.
Qed.

Lemma size_list_to_set_le `{Countable A} (l : list A) :
  (size (list_to_set l : gset A) <= length l)%nat.
Proof.
  induction l as [|a l IH]; cbn [list_to_set length]; [by rewrite (size_empty (C:=gset A))|].
  rewrite size_union_alt, (size_singleton (C:=gset A)).
  assert (size ((list_to_set l : gset A) ∖ {[a]}) <= size (list_to_set l : gset A))%nat
    by (apply subseteq_size; set_solver). lia.
Qed.

Lemma size_union_le (X Y : gset Z) : (size (X ∪ Y) <= size X + size Y)%nat.
Proof.
  rewrite size_union_alt.
  assert (size (Y ∖ X) <= size Y)%nat by (apply subseteq_size; set_solver). lia.
Qed.

Lemma iter_keys_elem `{Ord : IterOrder, !IterOrderOk Ord} X k : k ∈ iter_keys X ↔ k ∈ X.
Proof. rewrite iter_keys_perm. apply elem_of_elements. Qed.

Lemma iter_keys_NoDup `{Ord : IterOrder, !IterOrderOk Ord} X : NoDup (iter_keys X).
Proof. rewrite iter_keys_perm. apply NoDup_elements. Qed.

Lemma iter_keys_length `{Ord : IterOrder, !IterOrderOk Ord} X : length (iter_keys X) = size X.
Proof. apply (Permutation_length (iter_keys_perm X)). Qed.

(** ** Arithmetic of [wrap] and of bit fields *)
Lemma wrap_small w z : uint w z → wrap w z = z.
Proof. apply Z.mod_small. Qed.

Lemma wrap_uint w z : 0 <= w → uint w (wrap w z).
Proof. intros. apply Z.mod_pos_bound, Z.pow_pos_nonneg; lia. Qed.

Lemma wrap_add_l w a b : 0 <= w → wrap w (wrap w a + b) = wrap w (a + b).
Proof. intros. unfold wrap. apply Z.add_mod_idemp_l. apply Z.pow_nonzero; lia. Qed.

Lemma wrap_add_r w a b : 0 <= w → wrap w (a + wrap w b) = wrap w (a + b).
Proof. intros. unfold wrap. apply Z.add_mod_idemp_r. apply Z.pow_nonzero; lia. Qed.

Lemma pow2_pos n : 0 <= n → 0 < 2 ^ n.
Proof. intros. apply Z.pow_pos_nonneg; lia. Qed.

Lemma pow2_split a b : 0 <= b <= a → 2 ^ a = 2 ^ (a - b) * 2 ^ b.
Proof. intros. rewrite <- Z.pow_add_r by lia. f_equal. lia. Qed.

Lemma shl_wrap w x n : 0 <= n <= w → x <<[w] n = (x mod 2 ^ (w - n)) * 2 ^ n.
Proof.
  intros. unfold wrap. rewrite Z.shiftl_mul_pow2 by lia.
  rewrite (pow2_split w n) by lia. rewrite Z.mul_mod_distr_r; [done| |];
  pose proof (pow2_pos (w - n)); pose proof (pow2_pos n); lia.
Qed.

Lemma land_mul_pow2_low a b n : 0 <= n → 0 <= b < 2 ^ n → Z.land (a * 2 ^ n) b = 0.
Proof.
  intros Hn Hb. apply Z.bits_inj_0. intros i.
  destruct (Z.lt_ge_cases i 0); [by rewrite Z.testbit_neg_r|].
  rewrite Z.land_spec. destruct (Z.lt_ge_cases i n).
  - by rewrite Z.mul_pow2_bits_low by lia.
  - rewrite <- (Z.mod_small b (2 ^ n)) by lia.
    rewrite Z.mod_pow2_bits_high by lia. apply andb_false_r.
Qed.

Lemma lor_low a b n : 0 <= n → 0 <= b < 2 ^ n → a * 2 ^ n .| b = a * 2 ^ n + b.
Proof.
  intros Hn Hb. pose proof (land_mul_pow2_low a b n Hn Hb) as H0.
  pose proof (Z.add_lor_land (a * 2 ^ n) b). lia.
Qed.

Lemma log2_mul_add a b n : 0 < a → 0 <= n → 0 <= b < 2 ^ n →
  Z.log2 (a * 2 ^ n + b) = Z.log2 a + n.
Proof.
  intros Ha Hn Hb. pose proof (Z.log2_spec a Ha) as [H1 H2].
  pose proof (Z.log2_nonneg a). apply Z.log2_unique; [lia|].
  rewrite <- Z.add_succ_l, !Z.pow_add_r by lia. nia.
Qed.

Lemma log2_lt_pow2 a n : 0 < a < 2 ^ n → Z.log2 a < n.
Proof. intros [? ?]. by apply Z.log2_lt_pow2. Qed.

Lemma shr_div x n : 0 <= n → x >> n = x / 2 ^ n.
Proof. apply Z.shiftr_div_pow2. Qed.

Lemma land_low x n : 0 <= n → x .& (2 ^ n - 1) = x mod 2 ^ n.
Proof. intros. rewrite <- Z.land_ones by lia. by rewrite Z.ones_equiv, <- Z.sub_1_r. Qed.

Lemma land_1 x : x .& 1 = x mod 2.
Proof. apply (land_low x 1). lia. Qed.

Lemma div_mul_add a b n : 0 < n → 0 <= b < n → (a * n + b) / n = a.
Proof. intros. rewrite Z.div_add_l, Z.div_small by lia. lia. Qed.

Lemma mod_mul_add a b n : 0 <= b < n → (a * n + b) mod n = b.
Proof. intros. rewrite Z.add_comm, Z_mod_plus_full. by apply Z.mod_small. Qed.

Lemma mod_div_split x n m : 0 <= n → 0 <= m →
  x mod 2 ^ (n + m) = (x / 2 ^ m) mod 2 ^ n * 2 ^ m + x mod 2 ^ m.
Proof.
  intros. rewrite Z.add_comm, Z.pow_add_r by lia.
  pose proof (pow2_pos n); pose proof (pow2_pos m).
  rewrite Z.rem_mul_r by lia. lia.
Qed.

Create HintDb golib.
#[export] Hint Resolve wrap_uint pow2_pos : golib.
#[export] Hint Extern 1 (_ <= _) => lia : golib.
#[export] Hint Extern 1 (_ < _) => lia : golib.

(** Takes a successful run apart into its steps. *)
Ltac run_inv :=
  repeat match goal with
  | _ => progress simplify_eq/=
  | H : (_ ≫= _) = Some _ |- _ => apply bind_Some in H as (? & ? & H)
  | x : (_ * _)%type |- _ => destruct x
  end.

(** [gowrap] removes, innermost first, the wrap-arounds whose argument
    provably fits. *)
Ltac gowrap :=
  repeat match goal with
  | |- context [wrap ?w ?z] =>
      lazymatch z with
      | context [wrap _ _] => fail
      | _ => rewrite (wrap_small w z) by (unfold uint; lia)
      end
  end.
Ltac gowrap_in H :=
  repeat match type of H with
  | context [wrap ?w ?z] =>
      lazymatch z with
      | context [wrap _ _] => fail
      | _ => rewrite (wrap_small w z) in H by (unfold uint; lia)
      end
  end.

(** ** Bit-level reasoning

    [gobits] proves an equation between integers bit by bit. *)
Lemma wrap_testbit w z i : 0 <= w → 0 <= i →
  Z.testbit (wrap w z) i = (i <? w) && Z.testbit z i.
Proof.
  intros. unfold wrap. destruct (Z.ltb_spec i w).
  - by rewrite Z.mod_pow2_bits_low.
  - by rewrite Z.mod_pow2_bits_high.
Qed.

Lemma pow2m1_testbit n i : 0 <= n → 0 <= i → Z.testbit (2 ^ n - 1) i = (i <? n).
Proof.
  intros. rewrite Z.sub_1_r, <- Z.ones_equiv, Z.testbit_ones_nonneg by lia. done.
Qed.

Create Rewrite HintDb gobits.
#[export] Hint Rewrite Z.land_spec Z.lor_spec : gobits.
#[export] Hint Rewrite Z.shiftl_spec Z.shiftr_spec wrap_testbit pow2m1_testbit using lia : gobits.

Ltac gobits_cases :=
  match goal with
  | |- context [?a <? ?b] => destruct (Z.ltb_spec a b)
  | |- context [Z.testbit ?x ?i] =>
      first [ rewrite (Z.testbit_neg_r x i) by lia
            | match goal with
              | H : 0 <= x < 2 ^ ?n |- _ =>
                  rewrite <- (Z.mod_small x (2 ^ n) H), Z.mod_pow2_bits_high by lia
              end
            | assert_fails (assert (0 <= i) by lia); destruct (Z.lt_ge_cases i 0) ]
  end.
Ltac gobits_simpl :=
  autorewrite with gobits;
  rewrite ?andb_false_r, ?andb_true_r, ?orb_false_r, ?orb_true_r,
    ?andb_false_l, ?andb_true_l, ?orb_false_l, ?orb_true_l.
Ltac gobits :=
  apply Z.bits_inj'; intros ?i ?; gobits_simpl; repeat (gobits_cases; gobits_simpl);
  try done; try (repeat f_equal; lia); try lia.

(** ** Go's signed integers: two's complement *)
Definition wrapS (w z : Z) : Z := (z + 2 ^ (w - 1)) mod 2 ^ w - 2 ^ (w - 1).
Definition sint (w z : Z) : Prop := - 2 ^ (w - 1) <= z < 2 ^ (w - 1).

Lemma wrapS_small w z : 0 < w → sint w z → wrapS w z = z.
Proof.
  intros Hw [? ?]. unfold wrapS. rewrite Z.mod_small; [lia|].
  pose proof (Z.pow_succ_r 2 (w - 1) ltac:(lia)) as E.
  replace (Z.succ (w - 1)) with w in E by lia. lia.
Qed.

(** ** Lists updated in place *)
Lemma map_lookup_Some {A B} (f : A → B) (l : list A) i x : l !! i = Some x → map f l !! i = Some (f x).
Proof. intros E. by rewrite list_lookup_fmap, E. Qed.

Lemma map_insert {A B} (f : A → B) (l : list A) i x : map f (<[i := x]> l) = <[i := f x]> (map f l).
Proof. apply list_fmap_insert. Qed.

Lemma map_insert_id {A B} (f : A → B) (l : list A) i x y : l !! i = Some y → f x = f y →
  map f (<[i := x]> l) = map f l.
Proof. intros E H. rewrite map_insert, H. apply list_insert_id. by apply map_lookup_Some. Qed.

Lemma alter_insert {A} (f : A → A) (l : list A) i x : l !! i = Some x → alter f i l = <[i := f x]> l.
Proof. revert i. induction l as [|y l IH]; intros [|i] E; simplify_eq/=; [done|]. f_equal. auto. Qed.

Lemma alter_none {A} (f : A → A) (l : list A) i : l !! i = None → alter f i l = l.
Proof. revert i. induction l as [|y l IH]; intros [|i] E; simplify_eq/=; [done|done|]. f_equal. auto. Qed.

(** ** Sums *)
Definition zsum (l : list Z) : Z := foldr Z.add 0 l.

Lemma zsum_insert l i x y : l !! i = Some x → zsum (<[i := y]> l) = zsum l - x + y.
Proof.
  revert i. induction l as [|z l IH]; intros [|i] E; simpl in *; try done.
  - injection E as <-. lia.
  - rewrite (IH i E). lia.
Qed.

Lemma zsum_replicate_0 n : zsum (replicate n 0) = 0.
Proof. induction n; simpl; [done|lia]. Qed.

Lemma zsum_nonneg l : Forall (Z.le 0) l → 0 <= zsum l.
Proof. induction 1; simpl; lia. Qed.

Lemma Forall_lookup_Z (P : Z → Prop) l i x : Forall P l → l !! i = Some x → P x.
Proof. intros H E. rewrite Forall_lookup in H. eauto. Qed.
