(* ===== verification/GoFloat.v ===== *)
(** * GoFloat: Go's [float64] as IEEE 754 binary64

    Floats are Rocq's [spec_float] at precision 53 and maximal exponent 1024,
    computed by the rounding functions of [SpecFloat]; nothing is axiomatised.
    The two transcendental functions of Go's [math] package, and the
    implementation-defined result of an out-of-range float-to-integer
    conversion, are parameters. *)
From S2P Require Import Prelude.
From Stdlib Require Export SpecFloat.

Notation float64 := spec_float.

Class GoMath := {
  math_Log : float64 → float64;
  math_Pow : float64 → float64 → float64;
  (** [uint64(f)] when the truncation of [f] is not a [uint64] *)
  uint64_out_of_range : float64 → Z
}.
Class GoMathOk (M : GoMath) : Prop := {
  (** "Log(1) = +0", from the function's symmetry around 1 *)
  math_Log_1 : math_Log (S754_finite false 4503599627370496 (-52)) = S754_zero false;
  uint64_out_of_range_uint : ∀ f, uint 64 (uint64_out_of_range f)
}.

Definition float_of_Z (z : Z) : float64 := binary_normalize 53 1024 z 0 false.
Definition fadd : float64 → float64 → float64 := SFadd 53 1024.
Definition fsub : float64 → float64 → float64 := SFsub 53 1024.
Definition fmul : float64 → float64 → float64 := SFmul 53 1024.
Definition fdiv : float64 → float64 → float64 := SFdiv 53 1024.
Definition flt : float64 → float64 → bool := SFltb.
Definition feq : float64 → float64 → bool := SFeqb.

(** The decimal constant [num / 10^k], correctly rounded as Go's compiler does. *)
Definition decimal (num : Z) (k : Z) : float64 :=
  match num with
  | Z0 => S754_zero false
  | Zpos m =>
      let '(q, e, l) := SFdiv_core_binary 53 1024 (Zpos m) 0 (10 ^ k) 0 in
      binary_round_aux 53 1024 false q e l
  | Zneg m =>
      let '(q, e, l) := SFdiv_core_binary 53 1024 (Zpos m) 0 (10 ^ k) 0 in
      binary_round_aux 53 1024 true q e l
  end.

(** The integer part of a finite float. *)
Definition ftrunc (f : float64) : option Z :=
  match f with
  | S754_zero _ => Some 0
  | S754_finite s m e =>
      let a := if 0 <=? e then Zpos m * 2 ^ e else Zpos m / 2 ^ (- e) in
      Some (if s then - a else a)
  | _ => None
  end.
Definition uint64_of_float `{GoMath} (f : float64) : Z :=
  match ftrunc f with
  | Some z => if bool_decide (uint 64 z) then z else uint64_out_of_range f
  | None => uint64_out_of_range f
  end.

Lemma uint64_of_float_uint `{M : GoMath, !GoMathOk M} f : uint 64 (uint64_of_float f).
Proof.
  unfold uint64_of_float. destruct (ftrunc f); [case_bool_decide; [done|]|];
    apply uint64_out_of_range_uint.
Qed.

(** A concrete instance for witnesses: exact at the arguments the laws name,
    and NaN or 0 elsewhere. *)
Definition demo_math : GoMath := {|
  math_Log f := if feq f (float_of_Z 1) then S754_zero false else S754_nan;
  math_Pow _ _ := S754_nan;
  uint64_out_of_range _ := 0
|}.
Lemma demo_math_ok : GoMathOk demo_math.
Proof. split; [reflexivity|intros; split; [reflexivity|reflexivity]]. Qed.
