(* ===== verification/GoText.v ===== *)
(** * GoText: the text formatting of Go the program uses

    [time.Duration.String], [strings.Join], [sort.Strings], and sorted map
    keys.  Strings are byte strings. *)
From stdpp Require Import pretty.
From Stdlib Require Import Ascii String.
From S2P Require Import Prelude.
Local Open Scope string_scope.
Local Open Scope Z_scope.

Definition NUL : string := String "000"%char EmptyString.

Definition dec (z : Z) : string := pretty z.
Definition digit (z : Z) : ascii := Ascii.ascii_of_N (48 + Z.to_N z).

(** [strings.Join]. *)
Definition Join (l : list string) (sep : string) : string := String.concat sep l.

(** [sort.Strings]; Go compares strings byte by byte. *)
Definition sort_Strings (l : list string) : list string := merge_sort String.le l.

(** The keys of a [map[string]string], sorted. *)
Definition sorted_keys (m : gmap string string) : list string :=
  sort_Strings (map fst (map_to_list m)).

(** ** [time.Duration.String]

    [fmtFrac] prints the last [prec] decimal digits of [v] as a fraction,
    without trailing zeros, and returns the rest of [v]. *)
Fixpoint fmtFrac_loop (n : nat) (v : Z) (print : bool) (acc : string) : string * Z * bool :=
  match n with
  | O => (acc, v, print)
  | S n' =>
      let d := v mod 10 in
      let print := print || negb (d =? 0) in
      fmtFrac_loop n' (v / 10) print (if (print : bool) then String (digit d) acc else acc)
  end.
Definition fmtFrac (v : Z) (prec : nat) (acc : string) : string * Z :=
  let '(acc, v, print) := fmtFrac_loop prec v false acc in
  (if (print : bool) then "." ++ acc else acc, v).

Definition micro_sign : string := String "194"%char (String "181"%char EmptyString).

Definition Duration_String (d : Z) : string :=
  let neg := d <? 0 in
  let u := if (neg : bool) then wrap 64 (- wrap 64 d) else wrap 64 d in
  let body :=
    if u <? 1000000000 then
      if u =? 0 then "0s"
      else
        let '(prec, suffix) :=
          if u <? 1000 then (0%nat, "ns")
          else if u <? 1000000 then (3%nat, micro_sign ++ "s")
          else (6%nat, "ms") in
        let '(acc, u) := fmtFrac u prec suffix in dec u ++ acc
    else
      let '(acc, u) := fmtFrac u 9 "s" in
      let acc := dec (u mod 60) ++ acc in
      let u := u / 60 in
      if 0 <? u then
        let acc := dec (u mod 60) ++ "m" ++ acc in
        let u := u / 60 in
        if 0 <? u then dec u ++ "h" ++ acc else acc
      else acc in
  if (neg : bool) then "-" ++ body else body.

Example Duration_String_5m : Duration_String (5 * 60 * 1000000000) = "5m0s".
Proof. reflexivity. Qed.
Example Duration_String_frac : Duration_String 1500000 = "1.5ms".
Proof. reflexivity. Qed.
Example Duration_String_neg : Duration_String (- 3723500000000) = "-1h2m3.5s".
Proof. reflexivity. Qed.

(** ** Sorting *)
Lemma sort_Strings_perm l : sort_Strings l ≡ₚ l.
Proof. apply merge_sort_Permutation. Qed.

Lemma sort_Strings_sorted l : StronglySorted String.le (sort_Strings l).
Proof. apply StronglySorted_merge_sort; apply _. Qed.

Lemma sort_Strings_id l : StronglySorted String.le l → sort_Strings l = l.
Proof.
  intros H. apply (StronglySorted_unique String.le); [apply sort_Strings_sorted|done|apply sort_Strings_perm].
Qed.

Lemma sort_Strings_ext l1 l2 : l1 ≡ₚ l2 → sort_Strings l1 = sort_Strings l2.
Proof.
  intros H. apply (StronglySorted_unique String.le); [apply sort_Strings_sorted..|].
  by rewrite !sort_Strings_perm.
Qed.

(** A sorted list without some of its elements is sorted. *)
Lemma StronglySorted_filter {A} (R : relation A) (P : A → Prop) `{∀ x, Decision (P x)} l :
  StronglySorted R l → StronglySorted R (filter P l).
Proof.
  induction 1 as [|x l Hs IH Hf]; [constructor|]. rewrite filter_cons.
  destruct (decide (P x)); [|done]. constructor; [done|].
  rewrite Forall_forall in *. intros y [_ Hy]%list_elem_of_filter. auto.
Qed.
