(* ===== verification/HllCodec.v ===== *)
(** * HllCodec: the hash codec of the HyperLogLog sketch

    Models [getPosVal], [bextr], [bextr32] (vendor/github.com/axiomhq/
    hyperloglog/utils.go) and [encodeHash], [decodeHash], [getIndex]
    (sparse.go).  The main theorem says that the 32-bit sparse code of a hash
    decodes to the very register index and value the dense representation
    would have used, for every 64-bit hash and every legal precision. *)
From S2P Require Import Prelude.

(** Precision of the sparse representation, and its number of registers. *)
Definition pp : Z := 25.
Definition mp : Z := 1 <<[32] pp.

Definition bextr (v start length : Z) : Z :=
  (v >> start) .& ((1 <<[64] length) -[64] 1).
Definition bextr32 (v start length : Z) : Z :=
  (v >> start) .& ((1 <<[32] length) -[32] 1).

(** Register index and value of hash [x] in the dense representation. *)
Definition getPosVal (x p : Z) : Z * Z :=
  let i := bextr x (64 -[8] p) p in
  let w := (x <<[64] p) .| (1 <<[64] (p -[8] 1)) in
  let rho := wrap 8 (LeadingZeros64 w) +[8] 1 in
  (i, rho).

Definition getIndex (k p pp : Z) : Z :=
  if k .& 1 =? 1 then bextr32 k (32 -[8] p) p
  else bextr32 k (pp -[8] p +[8] 1) p.

Definition encodeHash (x p pp : Z) : Z :=
  let idx := wrap 32 (bextr x (64 -[8] pp) pp) in
  if bextr x (64 -[8] pp) (pp -[8] p) =? 0 then
    let zeros := LeadingZeros64 ((bextr x 0 (64 -[8] pp) <<[64] pp)
                                 .| ((1 <<[64] pp) -[64] 1)) + 1 in
    (idx <<[32] 7) .| wrap 32 (zeros <<[64] 1) .| 1
  else idx <<[32] 1.

Definition decodeHash (k p pp : Z) : Z * Z :=
  let r :=
    if k .& 1 =? 1 then wrap 8 (bextr32 k 1 6) +[8] pp -[8] p
    else wrap 8 (LeadingZeros64 (k <<[32] (32 -[8] pp +[8] p -[8] 1)) - 31) in
  (getIndex k p pp, r).

Lemma bextr_spec v s l : 0 <= s → 0 <= l < 64 → bextr v s l = (v / 2 ^ s) mod 2 ^ l.
Proof.
  intros. unfold bextr. rewrite shr_div by lia.
  rewrite Z.shiftl_mul_pow2, Z.mul_1_l by lia.
  assert (0 < 2 ^ l < 2 ^ 64) by (split; [apply pow2_pos; lia|apply Z.pow_lt_mono_r; lia]).
  gowrap. apply land_low; lia.
Qed.

Lemma bextr32_spec v s l : 0 <= s → 0 <= l < 32 → bextr32 v s l = (v / 2 ^ s) mod 2 ^ l.
Proof.
  intros. unfold bextr32. rewrite shr_div by lia.
  rewrite Z.shiftl_mul_pow2, Z.mul_1_l by lia.
  assert (0 < 2 ^ l < 2 ^ 32) by (split; [apply pow2_pos; lia|apply Z.pow_lt_mono_r; lia]).
  gowrap. apply land_low; lia.
Qed.

(** The bit fields of a 64-bit hash under precision [p]: the register index,
    the bits that the sparse index adds to it, and the rest. *)
Section codec.
Context (x p : Z) (Hx : uint 64 x) (Hp : 4 <= p <= 18).

Let hi := x / 2 ^ (64 - p).
Let mid := (x / 2 ^ 39) mod 2 ^ (25 - p).
Let lo := x mod 2 ^ 39.

Lemma hash_idx_split : x / 2 ^ 39 = hi * 2 ^ (25 - p) + mid.
Proof.
  unfold hi, mid. replace (64 - p) with (39 + (25 - p)) by lia.
  rewrite Z.pow_add_r, <- Z.div_div by (try apply Z.pow_nonzero; try apply pow2_pos; lia).
  rewrite Z.mul_comm. apply Z.div_mod, Z.pow_nonzero; lia.
Qed.

Lemma hash_low_split : x mod 2 ^ (64 - p) = mid * 2 ^ 39 + lo.
Proof.
  replace (64 - p) with ((25 - p) + 39) by lia.
  apply mod_div_split; lia.
Qed.

Lemma hash_hi_range : 0 <= hi < 2 ^ p.
Proof.
  destruct Hx. unfold hi. split; [apply Z.div_pos; [lia|apply pow2_pos; lia]|].
  apply Z.div_lt_upper_bound; [apply pow2_pos; lia|].
  rewrite <- Z.pow_add_r by lia. replace (64 - p + p) with 64 by lia. lia.
Qed.

Lemma hash_mid_range : 0 <= mid < 2 ^ (25 - p).
Proof. apply Z.mod_pos_bound, pow2_pos. lia. Qed.

Lemma hash_lo_range : 0 <= lo < 2 ^ 39.
Proof. apply Z.mod_pos_bound. lia. Qed.

(** The value stored in the register: 65 - p when every remaining bit is 0. *)
Definition rho_spec : Z :=
  let rest := x mod 2 ^ (64 - p) in
  if rest =? 0 then 65 - p else 64 - p - Z.log2 rest.

Lemma hash_rest_range : 0 <= x mod 2 ^ (64 - p) < 2 ^ (64 - p).
Proof. apply Z.mod_pos_bound, pow2_pos. lia. Qed.

Lemma rho_spec_range : 1 <= rho_spec <= 65 - p.
Proof.
  unfold rho_spec. pose proof hash_rest_range. destruct (Z.eqb_spec (x mod 2 ^ (64 - p)) 0); [lia|].
  pose proof (log2_lt_pow2 (x mod 2 ^ (64 - p)) (64 - p)).
  pose proof (Z.log2_nonneg (x mod 2 ^ (64 - p))). lia.
Qed.

Lemma getPosVal_spec : getPosVal x p = (hi, rho_spec).
Proof.
  unfold getPosVal. pose proof hash_rest_range as Hr. pose proof rho_spec_range as Hrho.
  assert (0 < 2 ^ (p - 1) < 2 ^ p) as Hp1
    by (split; [apply pow2_pos; lia|apply Z.pow_lt_mono_r; lia]).
  assert (2 ^ p < 2 ^ 64) by (apply Z.pow_lt_mono_r; lia).
  rewrite shl_wrap by lia. gowrap. rewrite Z.shiftl_mul_pow2, Z.mul_1_l by lia. gowrap.
  rewrite lor_low, bextr_spec by lia. fold hi. rewrite (Z.mod_small hi) by apply hash_hi_range.
  enough (LeadingZeros64 (x mod 2 ^ (64 - p) * 2 ^ p + 2 ^ (p - 1)) + 1 = rho_spec) as E.
  { rewrite wrap_add_l, E by lia. by gowrap. }
  unfold LeadingZeros64, Len64, rho_spec.
  destruct (Z.eqb_spec (x mod 2 ^ (64 - p)) 0) as [E|E].
  - rewrite E, Z.mul_0_l, Z.add_0_l. rewrite (proj2 (Z.eqb_neq _ 0)) by lia.
    rewrite Z.log2_pow2; lia.
  - rewrite (proj2 (Z.eqb_neq _ 0)) by nia. rewrite log2_mul_add by lia. lia.
Qed.

(** The sparse code, in terms of the bit fields. *)
Definition zeros_spec : Z := if lo =? 0 then 40 else 39 - Z.log2 lo.

Lemma zeros_spec_range : 1 <= zeros_spec <= 40.
Proof.
  unfold zeros_spec. pose proof hash_lo_range. destruct (Z.eqb_spec lo 0); [lia|].
  pose proof (log2_lt_pow2 lo 39). pose proof (Z.log2_nonneg lo). lia.
Qed.

Lemma encodeHash_spec :
  encodeHash x p pp =
    if mid =? 0 then hi * 2 ^ (25 - p) * 2 ^ 7 + (zeros_spec * 2 + 1)
    else (hi * 2 ^ (25 - p) + mid) * 2.
Proof using Hx Hp.
  pose proof hash_lo_range as Hlo. pose proof hash_hi_range as Hhi.
  pose proof hash_mid_range as Hmid. pose proof zeros_spec_range as Hz.
  assert (0 <= x / 2 ^ 39 < 2 ^ 25) as Hidx.
  { destruct Hx. split; [apply Z.div_pos; lia|apply Z.div_lt_upper_bound; lia]. }
  unfold encodeHash, pp. gowrap. rewrite !bextr_spec by lia.
  change (64 - 25) with 39. rewrite (Z.mod_small (x / 2 ^ 39) (2 ^ 25)) by lia.
  fold mid. rewrite (wrap_small 32 (x / 2 ^ 39)) by (unfold uint; lia).
  change (2 ^ 0) with 1. rewrite Z.div_1_r. fold lo.
  destruct (Z.eqb_spec mid 0) as [E|E].
  - rewrite (shl_wrap 64 lo 25) by lia.
    rewrite (Z.mod_small lo) by (change (64 - 25) with 39; lia).
    change (1 <<[64] 25 -[64] 1) with (2 ^ 25 - 1).
    rewrite lor_low by lia.
    assert (LeadingZeros64 (lo * 2 ^ 25 + (2 ^ 25 - 1)) + 1 = zeros_spec) as ->.
    { unfold LeadingZeros64, Len64, zeros_spec. destruct (Z.eqb_spec lo 0) as [->|].
      - reflexivity.
      - rewrite (proj2 (Z.eqb_neq _ 0)) by lia. rewrite log2_mul_add by lia. lia. }
    rewrite !Z.shiftl_mul_pow2 by lia. gowrap.
    rewrite <- Z.lor_assoc. rewrite (lor_low zeros_spec 1 1) by lia.
    rewrite lor_low by lia. rewrite hash_idx_split, E. lia.
  - rewrite Z.shiftl_mul_pow2 by lia. gowrap. rewrite hash_idx_split. lia.
Qed.

Lemma decode_flagged :
  decodeHash (hi * 2 ^ (25 - p) * 2 ^ 7 + (zeros_spec * 2 + 1)) p pp
    = (hi, wrap 8 (zeros_spec + 25 - p)).
Proof using Hx Hp.
  pose proof hash_hi_range as Hhi. pose proof zeros_spec_range as Hz.
  set (a := hi * 2 ^ (25 - p)). set (k := a * 2 ^ 7 + (zeros_spec * 2 + 1)).
  unfold decodeHash, getIndex, pp.
  assert (k = (a * 2 ^ 6 + zeros_spec) * 2 ^ 1 + 1) as Hk by (unfold k; ring).
  assert (k .& 1 = 1) as -> by (rewrite land_1, Hk; by apply mod_mul_add).
  rewrite Z.eqb_refl. gowrap. rewrite !bextr32_spec by lia.
  assert ((k / 2 ^ 1) mod 2 ^ 6 = zeros_spec) as ->
    by (rewrite Hk, div_mul_add by lia; apply mod_mul_add; lia).
  assert (k / 2 ^ (32 - p) = hi) as ->.
  { unfold k, a. rewrite <- Z.mul_assoc, <- Z.pow_add_r by lia.
    replace (25 - p + 7) with (32 - p) by lia. apply div_mul_add; [apply pow2_pos; lia|].
    assert (2 ^ 7 <= 2 ^ (32 - p)) by (apply Z.pow_le_mono_r; lia). lia. }
  rewrite Z.mod_small by lia. by gowrap.
Qed.

Lemma decode_plain :
  mid ≠ 0 → decodeHash ((hi * 2 ^ (25 - p) + mid) * 2) p pp = (hi, 25 - p - Z.log2 mid).
Proof using Hx Hp.
  intros Hm. pose proof hash_hi_range as Hhi. pose proof hash_mid_range as Hmid.
  set (k := (hi * 2 ^ (25 - p) + mid) * 2).
  unfold decodeHash, getIndex, pp.
  assert (k .& 1 = 0) as ->
    by (rewrite land_1; unfold k; rewrite <- (Z.add_0_r (_ * 2)); by apply mod_mul_add).
  change (0 =? 1) with false. cbv iota. gowrap. rewrite bextr32_spec by lia.
  assert (k / 2 ^ (25 - p + 1) = hi) as ->.
  { unfold k. rewrite Z.pow_add_r by lia. change (2 ^ 1) with 2.
    rewrite Z.div_mul_cancel_r by lia. apply div_mul_add; lia. }
  rewrite Z.mod_small by lia. f_equal. rewrite shl_wrap by lia.
  replace (32 - (32 - 25 + p - 1)) with (25 - p + 1) by lia.
  assert (k mod 2 ^ (25 - p + 1) = mid * 2) as ->.
  { unfold k. rewrite Z.pow_add_r by lia. change (2 ^ 1) with 2.
    rewrite Z.mul_mod_distr_r by lia. f_equal. apply mod_mul_add; lia. }
  unfold LeadingZeros64, Len64.
  pose proof (log2_lt_pow2 mid (25 - p)). pose proof (Z.log2_nonneg mid).
  replace (mid * 2 * 2 ^ (32 - 25 + p - 1)) with (mid * 2 ^ (7 + p))
    by (rewrite <- Z.mul_assoc; f_equal; rewrite <- (Z.pow_succ_r 2) by lia; f_equal; lia).
  assert (0 < 2 ^ (7 + p)) by (apply pow2_pos; lia).
  rewrite (proj2 (Z.eqb_neq _ 0)), Z.log2_mul_pow2 by nia. gowrap. lia.
Qed.

(** The two ways the sparse code can go, in one equation. *)
Lemma decode_encode : decodeHash (encodeHash x p pp) p pp = (hi, rho_spec).
Proof using Hx Hp.
  rewrite encodeHash_spec. pose proof hash_lo_range as Hlo. pose proof hash_mid_range as Hmid.
  destruct (Z.eqb_spec mid 0) as [E|E].
  - rewrite decode_flagged. f_equal. unfold rho_spec, zeros_spec.
    rewrite hash_low_split, E, Z.mul_0_l, Z.add_0_l.
    destruct (Z.eqb_spec lo 0); [gowrap; lia|].
    pose proof (log2_lt_pow2 lo 39). pose proof (Z.log2_nonneg lo). gowrap. lia.
  - rewrite decode_plain by done. f_equal. unfold rho_spec. rewrite hash_low_split.
    rewrite (proj2 (Z.eqb_neq _ 0)) by lia. rewrite log2_mul_add by lia. lia.
Qed.

Lemma encodeHash_range : uint 32 (encodeHash x p pp).
Proof using Hx Hp.
  rewrite encodeHash_spec. pose proof hash_hi_range. pose proof hash_mid_range.
  pose proof zeros_spec_range.
  assert (2 ^ p * 2 ^ (25 - p) = 2 ^ 25) by (rewrite <- Z.pow_add_r by lia; f_equal; lia).
  assert (hi * 2 ^ (25 - p) + 2 ^ (25 - p) <= 2 ^ 25) by nia.
  assert (0 <= hi * 2 ^ (25 - p)) by nia. unfold uint.
  destruct (Z.eqb_spec mid 0); lia.
Qed.
End codec.

Lemma getPosVal_range x p i r : uint 64 x → 4 <= p <= 18 → getPosVal x p = (i, r) →
  0 <= i < 2 ^ p ∧ 1 <= r <= 65 - p.
Proof.
  intros Hx Hp. rewrite getPosVal_spec by done. intros [= <- <-].
  split; [by apply hash_hi_range|by apply rho_spec_range].
Qed.

Lemma decode_encode_getPosVal x p : uint 64 x → 4 <= p <= 18 →
  decodeHash (encodeHash x p pp) p pp = getPosVal x p.
Proof. intros. by rewrite decode_encode, getPosVal_spec. Qed.

(** The 32-bit sparse code of a hash loses nothing the sketch needs.  For
    every 64-bit hash and every legal precision, decoding the code gives the
    register index and value that [getPosVal] computes from the hash itself. *)
Theorem decodeHash_encodeHash x p : uint 64 x → 4 <= p <= 18 →
  decodeHash (encodeHash x p pp) p pp = getPosVal x p.
Proof. apply decode_encode_getPosVal. Qed.

Lemma decodeHash_encodeHash_witness :
  decodeHash (encodeHash 81985529216486895 14 pp) 14 pp = getPosVal 81985529216486895 14.
Proof. apply (decodeHash_encodeHash 81985529216486895 14); [vm_compute; split; congruence|lia]. Defined.
