(* ===== verification/CompressedList.v ===== *)
(** * CompressedList: the delta/varint list of the sparse sketch

    Models vendor/github.com/axiomhq/hyperloglog/compressed.go: the
    variable-length encoding of 32-bit integers, the [compressedList] built by
    [Append], its [iterator], and the binary form of both.  An iterator's
    position [i] in the byte list is kept as the suffix [v.b[i:]]; reading past
    the end is Go's index-out-of-range panic, [None]. *)
From S2P Require Import Prelude.

Definition byte_list := list Z.

(** [for x&0xffffff80 != 0 { v = append(v, ...); x >>= 7 }]; a 32-bit integer
    needs at most four rounds, so five units of fuel always suffice. *)
Fixpoint vll_Append_loop (fuel : nat) (v : byte_list) (x : Z) : byte_list :=
  match fuel with
  | O => v
  | S fuel' =>
      if x .& 0xffffff80 =? 0 then v ++ [wrap 8 (x .& 0x7f)]
      else vll_Append_loop fuel' (v ++ [wrap 8 ((x .& 0x7f) .| 0x80)]) (x >> 7)
  end.
Definition variableLengthList_Append (v : byte_list) (x : Z) : byte_list :=
  vll_Append_loop 5 v x.

Fixpoint vll_decode_loop (rest : byte_list) (shift x : Z) : option (Z * byte_list) :=
  match rest with
  | [] => None
  | b :: rest' =>
      if b .& 0x80 =? 0 then Some (x .| (b <<[32] shift), rest')
      else vll_decode_loop rest' (shift + 7) (x .| ((b .& 0x7f) <<[32] shift))
  end.
Definition variableLengthList_decode (rest : byte_list) : option (Z * byte_list) :=
  vll_decode_loop rest 0 0.

Record compressedList := mkCompressedList {
  cl_count : Z;
  cl_last : Z;
  cl_b : byte_list
}.

Definition newCompressedList : compressedList := mkCompressedList 0 0 [].
Definition compressedList_Len (v : compressedList) : Z := Z.of_nat (length (cl_b v)).
Definition compressedList_reset (v : compressedList) : compressedList :=
  mkCompressedList 0 0 [].
Definition compressedList_Append (v : compressedList) (x : Z) : compressedList :=
  {| cl_count := cl_count v +[32] 1;
     cl_last := x;
     cl_b := variableLengthList_Append (cl_b v) (x -[32] cl_last v) |}.
Definition compressedList_decode (rest : byte_list) (last : Z) : option (Z * byte_list) :=
  '(n, rest') ← variableLengthList_decode rest; Some (n +[32] last, rest').

Record iterator := mkIterator { it_last : Z; it_rest : byte_list }.

Definition compressedList_Iter (v : compressedList) : iterator := mkIterator 0 (cl_b v).
Definition iterator_HasNext (it : iterator) : bool := negb (Nat.eqb (length (it_rest it)) 0).
Definition iterator_Peek (it : iterator) : option (Z * byte_list) :=
  compressedList_decode (it_rest it) (it_last it).
Definition iterator_Advance (it : iterator) (last : Z) (rest : byte_list) : iterator :=
  mkIterator last rest.
Definition iterator_Next (it : iterator) : option (Z * iterator) :=
  '(n, rest) ← iterator_Peek it; Some (n, iterator_Advance it n rest).

(** [for iter := v.Iter(); iter.HasNext(); { ... iter.Next() ... }], collecting
    the values; every [Next] consumes at least one byte. *)
Fixpoint iterator_collect (fuel : nat) (it : iterator) : option (list Z) :=
  match fuel with
  | O => None
  | S fuel' =>
      if iterator_HasNext it then
        '(n, it') ← iterator_Next it; ns ← iterator_collect fuel' it'; Some (n :: ns)
      else Some []
  end.
Definition compressedList_values (v : compressedList) : option (list Z) :=
  iterator_collect (S (length (cl_b v))) (compressedList_Iter v).

(** ** Binary form *)
Definition be32 (x : Z) : byte_list :=
  [wrap 8 (x >> 24); wrap 8 (x >> 16); wrap 8 (x >> 8); wrap 8 x].
(** [binary.BigEndian.Uint32] of the first four bytes; panics on fewer. *)
Definition BigEndian_Uint32 (bs : byte_list) : option Z :=
  match bs with
  | b0 :: b1 :: b2 :: b3 :: _ =>
      Some (b3 .| (b2 <<[32] 8) .| (b1 <<[32] 16) .| (b0 <<[32] 24))
  | _ => None
  end.
Definition variableLengthList_AppendBinary (v data : byte_list) : byte_list :=
  data ++ be32 (Z.of_nat (length v)) ++ v.
Definition compressedList_AppendBinary (v : compressedList) (data : byte_list) : byte_list :=
  variableLengthList_AppendBinary (cl_b v) (data ++ be32 (cl_count v) ++ be32 (cl_last v)).

(** The error of [UnmarshalBinary] when the input is truncated; the receiver
    keeps the fields assigned before the check that failed. *)
Inductive unmarshal_error := ErrorTooShort | ErrPrecision.
Definition compressedList_UnmarshalBinary (v : compressedList) (data : byte_list)
    : option (compressedList * option unmarshal_error) :=
  if Nat.ltb (length data) 12 then Some (v, Some ErrorTooShort)
  else
    count ← BigEndian_Uint32 data;
    last ← BigEndian_Uint32 (drop 4 data);
    sz ← BigEndian_Uint32 (drop 8 data);
    let data := drop 12 data in
    if Z.of_nat (length data) <? sz then
      Some (mkCompressedList count last (replicate (Z.to_nat sz) 0), Some ErrorTooShort)
    else Some (mkCompressedList count last (take (Z.to_nat sz) data), None).

(** ** The varint round trip *)
Definition encode_uint32 (x : Z) : byte_list := variableLengthList_Append [] x.

Lemma vll_Append_loop_app fuel v x :
  vll_Append_loop fuel v x = v ++ vll_Append_loop fuel [] x.
Proof.
  revert v x. induction fuel as [|n IH]; intros v x; simpl; [by rewrite app_nil_r|].
  destruct (_ =? 0); [done|]. rewrite IH, (IH [_]). by rewrite app_assoc.
Qed.

Lemma variableLengthList_Append_app v x :
  variableLengthList_Append v x = v ++ encode_uint32 x.
Proof. apply vll_Append_loop_app. Qed.

Lemma land_high x : uint 32 x → (x .& 0xffffff80 =? 0) = (x <? 128).
Proof.
  intros Hx. replace (x .& 0xffffff80) with (x / 2 ^ 7 * 2 ^ 7).
  - pose proof (Z.div_mod x (2 ^ 7)). destruct Hx.
    pose proof (Z.mod_pos_bound x (2 ^ 7)).
    destruct (Z.eqb_spec (x / 2 ^ 7 * 2 ^ 7) 0), (Z.ltb_spec x 128); try done; lia.
  - change 0xffffff80 with (Z.shiftl (2 ^ 25 - 1) 7).
    rewrite <- Z.shiftr_div_pow2, <- Z.shiftl_mul_pow2 by lia. red in Hx.
    gobits.
Qed.

(** One byte of the encoding: its payload and its continuation bit. *)
Lemma varint_last_byte x : 0 <= x < 128 →
  let b := wrap 8 (x .& 0x7f) in b .& 0x80 = 0 ∧ b = x.
Proof.
  intros Hx. change 0x7f with (2 ^ 7 - 1). rewrite land_low, (Z.mod_small x) by lia.
  gowrap. split; [|done]. change 0x80 with (Z.shiftl 1 7).
  replace x with (0 * 2 ^ 8 + x) by lia. change 128 with (2 ^ 7) in Hx.
  rewrite Z.land_comm. rewrite Z.shiftl_mul_pow2 by lia.
  by apply land_mul_pow2_low.
Qed.

Lemma varint_cont_byte x : 0 <= x →
  let b := wrap 8 ((x .& 0x7f) .| 0x80) in b .& 0x80 ≠ 0 ∧ b .& 0x7f = x mod 128.
Proof.
  intros Hx. cbv zeta. change 0x7f with (2 ^ 7 - 1). rewrite !land_low by lia.
  change (2 ^ 7) with 128. pose proof (Z.mod_pos_bound x 128 ltac:(lia)).
  assert (x mod 128 .| 0x80 = 1 * 2 ^ 7 + x mod 128) as ->.
  { rewrite Z.lor_comm. apply (lor_low 1 (x mod 128) 7); lia. }
  gowrap. split; [|apply (mod_mul_add 1 (x mod 128) 128); lia].
  intros E. apply (f_equal (fun z => Z.testbit z 7)) in E.
  rewrite Z.land_spec, Z.bits_0 in E. change (Z.testbit 128 7) with true in E.
  rewrite andb_true_r in E. apply Z.testbit_false in E; [|lia].
  change (2 ^ 7) with 128 in E. rewrite div_mul_add in E by lia. done.
Qed.

Lemma varint_step s x acc : 0 <= s → 0 <= x →
  (acc .| ((x mod 128) <<[32] s)) .| ((x >> 7) <<[32] (s + 7)) = acc .| (x <<[32] s).
Proof.
  intros Hs Hx. change 128 with (2 ^ 7). rewrite <- land_low by lia.
  gobits.
Qed.

Lemma vll_decode_loop_encode fuel x rest s acc :
  0 <= x < 2 ^ 32 → x < 2 ^ (7 * Z.of_nat fuel) → (0 < fuel)%nat → 0 <= s →
  vll_decode_loop (vll_Append_loop fuel [] x ++ rest) s acc = Some (acc .| (x <<[32] s), rest).
Proof.
  revert x s acc. induction fuel as [|n IH]; intros x s acc Hx Hf Hn Hs; [lia|].
  cbn [vll_Append_loop]. rewrite land_high by done. destruct (Z.ltb_spec x 128) as [H|H].
  - destruct (varint_last_byte x) as [H1 H2]; [lia|]. cbn [app vll_decode_loop].
    by rewrite H1, H2.
  - rewrite vll_Append_loop_app. cbn [app vll_decode_loop].
    destruct (varint_cont_byte x) as [H1 H2]; [lia|].
    rewrite (proj2 (Z.eqb_neq _ _) H1), H2.
    destruct n as [|n]; [change (2 ^ (7 * Z.of_nat 1)) with 128 in Hf; lia|].
    assert (0 <= x >> 7 < 2 ^ 32) by (rewrite shr_div by lia; split;
      [apply Z.div_pos; lia|apply Z.div_lt_upper_bound; lia]).
    rewrite IH; [by rewrite varint_step by lia|done| |lia|lia].
    rewrite shr_div by lia. apply Z.div_lt_upper_bound; [lia|].
    rewrite <- Z.pow_add_r by lia. by replace (7 + 7 * Z.of_nat (S n)) with (7 * Z.of_nat (S (S n))) by lia.
Qed.

Lemma decode_encode_uint32 x rest : uint 32 x →
  variableLengthList_decode (encode_uint32 x ++ rest) = Some (x, rest).
Proof.
  intros Hx. unfold variableLengthList_decode, encode_uint32, variableLengthList_Append.
  rewrite vll_decode_loop_encode; [|by destruct Hx| |lia|lia].
  - rewrite Z.shiftl_0_r, Z.lor_0_l. by rewrite wrap_small.
  - destruct Hx. simpl. lia.
Qed.

Lemma vll_Append_loop_nonempty n x : vll_Append_loop (S n) [] x ≠ [].
Proof. simpl. destruct (_ =? 0); [done|]. by rewrite vll_Append_loop_app. Qed.

Lemma encode_uint32_nonempty x : encode_uint32 x ≠ [].
Proof. apply vll_Append_loop_nonempty. Qed.

(** ** The list as the sequence of keys it stores *)
Fixpoint encode_keys (last : Z) (ks : list Z) : byte_list :=
  match ks with
  | [] => []
  | k :: ks' => encode_uint32 (k -[32] last) ++ encode_keys k ks'
  end.

Definition list_of_keys (ks : list Z) : compressedList :=
  {| cl_count := wrap 32 (Z.of_nat (length ks));
     cl_last := default 0 (last ks);
     cl_b := encode_keys 0 ks |}.

Lemma encode_keys_app l0 ks k :
  encode_keys l0 (ks ++ [k]) = encode_keys l0 ks ++ encode_uint32 (k -[32] default l0 (last ks)).
Proof.
  revert l0. induction ks as [|k' ks IH]; intros l0; simpl; [by rewrite app_nil_r|].
  rewrite IH, <- app_assoc. do 2 f_equal.
  rewrite last_cons. by destruct (last ks).
Qed.

(** [Append] adds a key at the end, whatever it is. *)
Lemma compressedList_Append_keys ks k :
  compressedList_Append (list_of_keys ks) k = list_of_keys (ks ++ [k]).
Proof.
  unfold compressedList_Append, list_of_keys. simpl. f_equal.
  - rewrite length_app, wrap_add_l by lia. f_equal. simpl. lia.
  - by rewrite last_snoc.
  - by rewrite variableLengthList_Append_app, encode_keys_app.
Qed.

(** An iterator standing before the keys [ks]. *)
Definition iterator_at (it : iterator) (ks : list Z) : Prop :=
  it_rest it = encode_keys (it_last it) ks ∧ Forall (uint 32) ks.

Lemma Iter_at ks : Forall (uint 32) ks → iterator_at (compressedList_Iter (list_of_keys ks)) ks.
Proof. done. Qed.

Lemma HasNext_at it ks : iterator_at it ks → iterator_HasNext it = negb (bool_decide (ks = [])).
Proof.
  intros [E _]. unfold iterator_HasNext. rewrite E. destruct ks as [|k ks]; simpl; [done|].
  rewrite length_app. pose proof (encode_uint32_nonempty (k -[32] it_last it)).
  by destruct (encode_uint32 _).
Qed.

Lemma Peek_at it k ks : iterator_at it (k :: ks) →
  ∃ rest, iterator_Peek it = Some (k, rest) ∧ iterator_at (iterator_Advance it k rest) ks.
Proof.
  intros [E H]. apply Forall_cons in H as [Hk H]. exists (encode_keys k ks). split; [|done].
  unfold iterator_Peek, compressedList_decode. rewrite E. cbn [encode_keys].
  rewrite decode_encode_uint32 by auto with golib. simpl. do 2 f_equal.
  rewrite wrap_add_l by lia. rewrite Z.sub_add. by apply wrap_small.
Qed.

Lemma Next_at it k ks : iterator_at it (k :: ks) →
  ∃ it', iterator_Next it = Some (k, it') ∧ iterator_at it' ks.
Proof.
  intros H. destruct (Peek_at it k ks H) as (rest & E & H').
  exists (iterator_Advance it k rest). split; [|done]. unfold iterator_Next. by rewrite E.
Qed.

Lemma encode_keys_length l0 ks : (length ks <= length (encode_keys l0 ks))%nat.
Proof.
  revert l0. induction ks as [|k ks IH]; intros l0; simpl; [lia|].
  rewrite length_app. specialize (IH k). pose proof (encode_uint32_nonempty (k -[32] l0)).
  destruct (encode_uint32 _); [done|]. simpl. lia.
Qed.

Lemma iterator_collect_at fuel it ks : iterator_at it ks → (length ks < fuel)%nat →
  iterator_collect fuel it = Some ks.
Proof.
  revert it ks. induction fuel as [|n IH]; intros it ks H Hf; [lia|].
  simpl. rewrite (HasNext_at it ks H). destruct ks as [|k ks]; [done|].
  rewrite bool_decide_false by done. simpl.
  destruct (Next_at it k ks H) as (it' & -> & H'). simpl in *.
  rewrite (IH it' ks H') by lia. done.
Qed.

(** A compressed list gives back exactly the keys appended to it, in order:
    the delta coding, its wrap-around and the varints lose nothing, the
    iterator never reads out of range and stops after the last key. *)
Theorem compressedList_values_of_keys ks : Forall (uint 32) ks →
  compressedList_values (foldl compressedList_Append newCompressedList ks) = Some ks.
Proof.
  intros H.
  assert (∀ ks', foldl compressedList_Append (list_of_keys ks') ks = list_of_keys (ks' ++ ks)) as E.
  { clear. induction ks as [|k ks IH]; intros ks'; simpl; [by rewrite app_nil_r|].
    by rewrite compressedList_Append_keys, IH, <- app_assoc. }
  specialize (E []). change (list_of_keys []) with newCompressedList in E. rewrite E.
  apply iterator_collect_at; [by apply Iter_at|]. simpl.
  pose proof (encode_keys_length 0 ks). lia.
Qed.

Lemma compressedList_values_of_keys_witness :
  compressedList_values (foldl compressedList_Append newCompressedList [0; 5; 300; 4294967295])
    = Some [0; 5; 300; 4294967295].
Proof.
  apply (compressedList_values_of_keys [0; 5; 300; 4294967295]).
  repeat constructor; vm_compute; congruence.
Defined.

