(* ===== verification/Beta.v ===== *)
(** * Beta: bias constants of the HyperLogLog estimate

    Models [alpha], [linearCount] (vendor/github.com/axiomhq/hyperloglog/
    utils.go), the LogLog-Beta polynomials of beta.go with the coefficients of
    the source, and [sumAndZeros] of hyperloglog.go. *)
From S2P Require Import Prelude GoFloat.

Definition alpha (m : float64) : float64 :=
  if feq m (float_of_Z 16) then decimal 673 3
  else if feq m (float_of_Z 32) then decimal 697 3
  else if feq m (float_of_Z 64) then decimal 709 3
  else fdiv (decimal 7213 4) (fadd (float_of_Z 1) (fdiv (decimal 1079 3) m)).

Section beta.
Context `{GoMath}.

Definition linearCount (m v : Z) : float64 :=
  let fm := float_of_Z m in
  fmul fm (math_Log (fdiv fm (float_of_Z v))).

(** [c0*ez + c1*zl + c2*math.Pow(zl, 2) + ... + c7*math.Pow(zl, 7)] with
    [zl := math.Log(ez + 1)]. *)
Fixpoint beta_powers (acc zl : float64) (k : Z) (cs : list float64) : float64 :=
  match cs with
  | [] => acc
  | c :: cs' => beta_powers (fadd acc (fmul c (math_Pow zl (float_of_Z k)))) zl (k + 1) cs'
  end.
Definition beta_poly (cs : list float64) (ez : float64) : float64 :=
  let zl := math_Log (fadd ez (float_of_Z 1)) in
  match cs with
  | c0 :: c1 :: cs' => beta_powers (fadd (fmul c0 ez) (fmul c1 zl)) zl 2 cs'
  | _ => S754_nan
  end.

Definition beta4 : float64 → float64 := beta_poly
  [decimal (-582581413904517) 15;
   decimal (-1935300357560050) 15;
   decimal (11079323758035073) 15;
   decimal (-22131357446444323) 15;
   decimal (22505391846630037) 15;
   decimal (-12000723834917984) 15;
   decimal (3220579408194167) 15;
   decimal (-342225302271235) 15].

Definition beta5 : float64 → float64 := beta_poly
  [decimal (-7518999460733967) 16;
   decimal (-9590030077748760) 16;
   decimal (55997371322141607) 16;
   decimal (-82097636999765520) 16;
   decimal (65091254894472037) 16;
   decimal (-26830293734323729) 16;
   decimal (5612891113138221) 16;
   decimal (-463331622196545) 16].

Definition beta6 : float64 → float64 := beta_poly
  [decimal (298257900969619634) 16;
   decimal (-313287083337725925) 16;
   decimal (-105942523036582283) 16;
   decimal (-115720125689099618) 16;
   decimal (38188754373907492) 16;
   decimal (-24160130328530811) 16;
   decimal (4542208940970826) 16;
   decimal (-575155452020420) 16].

Definition beta7 : float64 → float64 := beta_poly
  [decimal (28102921290820060) 16;
   decimal (-39780498518175995) 16;
   decimal (13162680041351582) 16;
   decimal (-39252486335805901) 16;
   decimal (20080835753946471) 16;
   decimal (-7527151937556955) 16;
   decimal (1265569894242751) 16;
   decimal (-109946438726240) 16].

Definition beta8 : float64 → float64 := beta_poly
  [decimal (100633544887550519) 17;
   decimal (-200580666405112407) 17;
   decimal (164369749366514117) 17;
   decimal (-270560809940566172) 17;
   decimal (139209980244222598) 17;
   decimal (-46470374272183190) 17;
   decimal (7384282377269775) 17;
   decimal (-578554885254223) 17].

Definition beta9 : float64 → float64 := beta_poly
  [decimal (-9415657458167959) 17;
   decimal (-78130975924550528) 17;
   decimal (171514946750712460) 17;
   decimal (-173711250406516338) 17;
   decimal (86441508489048924) 17;
   decimal (-23819027465047218) 17;
   decimal (3343448400269076) 17;
   decimal (-207858528178157) 17].

Definition beta10 : float64 → float64 := beta_poly
  [decimal (-25935400670790054) 17;
   decimal (-52598301999805808) 17;
   decimal (148933034925876839) 17;
   decimal (-129642714084993571) 17;
   decimal (62284756217221615) 17;
   decimal (-15672326770251041) 17;
   decimal (2054415903878563) 17;
   decimal (-112488483925502) 17].

Definition beta11 : float64 → float64 := beta_poly
  [decimal (-432325553856025) 15;
   decimal (-108450736399632) 15;
   decimal (609156550741120) 15;
   decimal (-165687801845180) 16;
   decimal (-795829341087617) 16;
   decimal (471830602102918) 16;
   decimal (-781372902346934) 17;
   decimal (584268708489995) 18].

Definition beta12 : float64 → float64 := beta_poly
  [decimal (-384979202588598) 15;
   decimal (183162233114364) 15;
   decimal (130396688841854) 15;
   decimal (704838927629266) 16;
   decimal (-89589397146453) 16;
   decimal (113010036741605) 16;
   decimal (-194285569591290) 17;
   decimal (225435774024964) 18].

Definition beta13 : float64 → float64 := beta_poly
  [decimal (-41655270946462997) 17;
   decimal (-22146677040685156) 17;
   decimal (38862131236999947) 17;
   decimal (45340979746062371) 17;
   decimal (-36264738324476375) 17;
   decimal (12304650053558529) 17;
   decimal (-1701540384555510) 17;
   decimal (102750367080838) 17].

Definition beta14 : float64 → float64 := beta_poly
  [decimal (-371009760230692) 15;
   decimal (978811941207509) 17;
   decimal (185796293324165) 15;
   decimal (203015527328432) 15;
   decimal (-116710521803686) 15;
   decimal (431106699492820) 16;
   decimal (-599583540511831) 17;
   decimal (449704299509437) 18].

Definition beta15 : float64 → float64 := beta_poly
  [decimal (-38215145543875273) 17;
   decimal (-89069400536090837) 17;
   decimal (37602335774678869) 17;
   decimal (99335977440682377) 17;
   decimal (-65577441638318956) 17;
   decimal (18332342129703610) 17;
   decimal (-2241529633062872) 17;
   decimal (121399789330194) 17].

Definition beta16 : float64 → float64 := beta_poly
  [decimal (-37331876643753059) 17;
   decimal (-141704077448122989) 17;
   decimal (40729184796612533) 17;
   decimal (156152033906584164) 17;
   decimal (-99242233534286128) 17;
   decimal (26064681399483092) 17;
   decimal (-3053811369682807) 17;
   decimal (155770210179105) 17].

Definition beta17 : float64 → float64 := beta_poly
  [decimal (-36775502299404605) 17;
   decimal (53831422351377967) 17;
   decimal (76970289278767923) 17;
   decimal (55002583586450560) 17;
   decimal (-74575588261146941) 17;
   decimal (25711835785821952) 17;
   decimal (-3437902606864149) 17;
   decimal (185949146371616) 17].

Definition beta18 : float64 → float64 := beta_poly
  [decimal (-36479623325960542) 17;
   decimal (99730412328635032) 17;
   decimal (155354386230081221) 17;
   decimal (125932677198028919) 17;
   decimal (-153325948209110163) 17;
   decimal (47801042200056593) 17;
   decimal (-5951025172951174) 17;
   decimal (291076804642205) 17].

(** [betaMap]; a missing precision panics. *)
Definition beta (p : Z) (ez : float64) : option float64 :=
  f ← (match p with
       | 4 => Some beta4
       | 5 => Some beta5
       | 6 => Some beta6
       | 7 => Some beta7
       | 8 => Some beta8
       | 9 => Some beta9
       | 10 => Some beta10
       | 11 => Some beta11
       | 12 => Some beta12
       | 13 => Some beta13
       | 14 => Some beta14
       | 15 => Some beta15
       | 16 => Some beta16
       | 17 => Some beta17
       | 18 => Some beta18
       | _ => None
       end);
  Some (f ez).

(** [for _, v := range regs { if v == 0 { ez++ }; res += 1.0 / math.Pow(2.0, float64(v)) }] *)
Definition sumAndZeros (regs : list Z) : float64 * float64 :=
  foldl (λ '(res, ez) v,
    (fadd res (fdiv (float_of_Z 1) (math_Pow (float_of_Z 2) (float_of_Z v))),
     if v =? 0 then fadd ez (float_of_Z 1) else ez))
    (S754_zero false, S754_zero false) regs.
End beta.

Lemma beta_total `{GoMath} p ez : 4 <= p <= 18 → is_Some (beta p ez).
Proof.
  intros Hp. unfold beta.
  assert (p ∈ seqZ 4 15) as Hin by (apply elem_of_seqZ; lia).
  cbv [seqZ seq fmap list_fmap] in Hin; simpl in Hin.
  repeat (apply elem_of_cons in Hin as [->|Hin]; [eexists; reflexivity|]).
  by apply elem_of_nil in Hin.
Qed.
