(* ===== verification/SketchSpec.v ===== *)
(** * SketchSpec: what vmestimator relies on from a cardinality sketch

    [SketchOps] lists the operations of [*hyperloglog.Sketch] the program calls;
    [SketchSpec] is their contract, stated over the set of 64-bit hashes a
    sketch represents.  The estimator, snapshot and churn components are
    verified against this interface; Sketch.v discharges it for the vendored
    HyperLogLog implementation. *)
From S2P Require Import Prelude.

Class SketchOps := {
  sketch : Type;
  (** [hyperloglog.NewSketch(precision, sparse)] *)
  sk_new : Z → bool → result sketch;
  sk_InsertHash : sketch → Z → option sketch;
  (** the argument is a possibly nil pointer; [false] is a non-nil error *)
  sk_Merge : sketch → option sketch → option (sketch * bool);
  sk_Reset : sketch → sketch;
  sk_Sparse : sketch → bool;
  sk_Clone : sketch → sketch;
  (** the estimate, and the sketch, which [Estimate] may rearrange *)
  sk_Estimate : sketch → option (sketch * Z)
}.

Class SketchSpec (Ops : SketchOps) := {
  (** [represents p X sk]: [sk] has precision [p] and holds the hashes [X] *)
  represents : Z → gset Z → sketch → Prop;
  new_ok p b : 4 <= p <= 18 → ∃ sk, sk_new p b = Ok sk ∧ represents p ∅ sk;
  new_error p b : ¬ 4 <= p <= 18 → ∃ e, sk_new p b = Error e;
  InsertHash_ok p X sk x : represents p X sk → uint 64 x →
    ∃ sk', sk_InsertHash sk x = Some sk' ∧ represents p ({[x]} ∪ X) sk';
  Merge_ok p X Y sk other : represents p X sk → represents p Y other →
    ∃ sk', sk_Merge sk (Some other) = Some (sk', true) ∧ represents p (Y ∪ X) sk';
  Merge_nil sk : sk_Merge sk None = Some (sk, true);
  Merge_precision p q X Y sk other : represents p X sk → represents q Y other → p ≠ q →
    sk_Merge sk (Some other) = Some (sk, false);
  Reset_ok p X sk : represents p X sk → represents p ∅ (sk_Reset sk);
  Clone_ok p X sk : represents p X sk → represents p X (sk_Clone sk);
  Estimate_ok p X sk : represents p X sk →
    ∃ sk' n, sk_Estimate sk = Some (sk', n) ∧ represents p X sk' ∧ uint 64 n
}.

(** Inserting a list of hashes one after the other. *)
Lemma insert_all `{SketchSpec} p X sk l :
  represents p X sk → Forall (uint 64) l →
  ∃ sk', for_each sk_InsertHash l sk = Some sk' ∧ represents p (list_to_set l ∪ X) sk'.
Proof.
  intros HR Hl. revert X sk HR. induction Hl as [|x l Hx _ IH]; intros X sk HR; simpl.
  - exists sk. by rewrite union_empty_l_L.
  - destruct (InsertHash_ok p X sk x HR Hx) as (sk1 & -> & HR1). simpl.
    destruct (IH _ _ HR1) as (sk2 & -> & HR2). exists sk2. split; [done|].
    by rewrite (union_comm_L {[x]}), <- union_assoc_L.
Qed.
