(* ===== verification/Sketch.v ===== *)
(** * Sketch: the HyperLogLog sketch

    Models vendor/github.com/axiomhq/hyperloglog: the [set] of sparse.go and
    the [Sketch] of hyperloglog.go with its sparse form (a hash set [tmpSet] of
    codes waiting to be merged, and a sorted compressed list) and its dense
    form (one register per index).  [repr p X sk] says that [sk] is a sketch of
    precision [p] into which exactly the hashes of [X] were inserted, in
    whatever order and through whatever merges; every operation is specified
    by its effect on [X]. *)
From S2P Require Import Prelude GoFloat HllCodec CompressedList Beta SketchSpec.

(** ** [set]: an [*intmap.Set[uint32]], possibly nil *)
Definition set := option (gset Z).
Definition nilSet : set := None.
Definition makeSet : set := Some ∅.
Definition set_reset (s : set) : set := (λ _, ∅) <$> s.
Definition set_Len (s : set) : Z := Z.of_nat (size (default ∅ s)).
Definition set_ForEach `{IterOrder} (s : set) : list Z := iter_keys (default ∅ s).
Definition set_add (s : set) (v : Z) : option (set * bool) :=
  m ← s; Some (Some ({[v]} ∪ m), bool_decide (v ∉ m)).
Definition set_Merge `{IterOrder} (s other : set) : option set :=
  for_each (λ s v, fst <$> set_add s v) (set_ForEach other) s.
Definition set_Clone (s : set) : set := s.

(** ** [Sketch]

    [regs] is the empty list when the Go slice is nil. *)
Record Sketch := mkSketch {
  sk_p : Z;
  sk_m : Z;
  sk_createdSparse : bool;
  sk_tmpSet : set;
  sk_sparseList : option compressedList;
  sk_regs : list Z
}.

Definition NewSketch (precision : Z) (sparse : bool) : result Sketch :=
  if (precision <? 4) || (18 <? precision) then Error "p has to be >= 4 and <= 18"
  else
    let m := 1 <<[32] precision in
    if sparse then Ok (mkSketch precision m sparse makeSet (Some newCompressedList) [])
    else Ok (mkSketch precision m sparse nilSet None (replicate (Z.to_nat m) 0)).

Definition Sketch_Sparse (sk : Sketch) : bool := bool_decide (is_Some (sk_sparseList sk)).

Definition Sketch_Clone (sk : Sketch) : Sketch :=
  {| sk_p := sk_p sk; sk_m := sk_m sk; sk_createdSparse := sk_createdSparse sk;
     sk_tmpSet := set_Clone (sk_tmpSet sk); sk_sparseList := sk_sparseList sk;
     sk_regs := sk_regs sk |}.

Definition Sketch_Reset (sk : Sketch) : Sketch :=
  if Sketch_Sparse sk then
    mkSketch (sk_p sk) (sk_m sk) (sk_createdSparse sk) (set_reset (sk_tmpSet sk))
      (compressedList_reset <$> sk_sparseList sk) (sk_regs sk)
  else if sk_createdSparse sk then
    mkSketch (sk_p sk) (sk_m sk) (sk_createdSparse sk) makeSet (Some newCompressedList) []
  else
    mkSketch (sk_p sk) (sk_m sk) (sk_createdSparse sk) (sk_tmpSet sk) (sk_sparseList sk)
      (replicate (length (sk_regs sk)) 0).

(** [sk.regs[i] = max(r, sk.regs[i])] on a register array. *)
Definition regs_insert (regs : list Z) (ir : Z * Z) : option (list Z) :=
  let '(i, r) := ir in
  v ← regs !! Z.to_nat i; Some (<[Z.to_nat i := Z.max r v]> regs).
Definition set_regs (sk : Sketch) (regs : list Z) : Sketch :=
  mkSketch (sk_p sk) (sk_m sk) (sk_createdSparse sk) (sk_tmpSet sk) (sk_sparseList sk) regs.
Definition Sketch_insert (sk : Sketch) (ir : Z * Z) : option Sketch :=
  regs ← regs_insert (sk_regs sk) ir; Some (set_regs sk regs).
(** [if v > sk.regs[i] { sk.regs[i] = v }], the body of the dense merge. *)
Definition Sketch_raise (sk : Sketch) (iv : Z * Z) : option Sketch :=
  let '(i, v) := iv in
  cur ← sk_regs sk !! Z.to_nat i;
  if cur <? v then Some (set_regs sk (<[Z.to_nat i := v]> (sk_regs sk))) else Some sk.

Section ops.
Context `{IterOrder}.

(** The two-way merge of the compressed list with the sorted keys of [tmpSet];
    [keys] is the suffix [keys[i:]].  Every round consumes a key or an element
    of the list. *)
Fixpoint mergeSparse_loop (fuel : nat) (it : iterator) (keys : list Z)
    (newList : compressedList) : option compressedList :=
  match fuel with
  | O => None
  | S fuel' =>
      match iterator_HasNext it, keys with
      | false, [] => Some newList
      | false, k :: keys' =>
          mergeSparse_loop fuel' it keys' (compressedList_Append newList k)
      | true, [] =>
          '(x, it') ← iterator_Next it;
          mergeSparse_loop fuel' it' [] (compressedList_Append newList x)
      | true, x2 :: keys' =>
          '(x1, adv) ← iterator_Peek it;
          if x1 =? x2 then
            mergeSparse_loop fuel' (iterator_Advance it x1 adv) keys'
              (compressedList_Append newList x1)
          else if x2 <? x1 then
            mergeSparse_loop fuel' it keys' (compressedList_Append newList x2)
          else
            mergeSparse_loop fuel' (iterator_Advance it x1 adv) keys
              (compressedList_Append newList x1)
      end
  end.

Definition Sketch_mergeSparse (sk : Sketch) : option Sketch :=
  if set_Len (sk_tmpSet sk) =? 0 then Some sk
  else
    let keys := merge_sort Z.le (set_ForEach (sk_tmpSet sk)) in
    sl ← sk_sparseList sk;
    newList ← mergeSparse_loop (S (length keys + length (cl_b sl)))
                (compressedList_Iter sl) keys newCompressedList;
    Some (mkSketch (sk_p sk) (sk_m sk) (sk_createdSparse sk) (set_reset (sk_tmpSet sk))
            (Some newList) (sk_regs sk)).

Definition Sketch_toNormal (sk : Sketch) : option Sketch :=
  sk ← (if 0 <? set_Len (sk_tmpSet sk) then Sketch_mergeSparse sk else Some sk);
  let sk := set_regs sk (replicate (Z.to_nat (sk_m sk)) 0) in
  sl ← sk_sparseList sk;
  ks ← compressedList_values sl;
  sk ← for_each (λ sk k, Sketch_insert sk (decodeHash k (sk_p sk) pp)) ks sk;
  Some (mkSketch (sk_p sk) (sk_m sk) (sk_createdSparse sk) nilSet None (sk_regs sk)).

Definition Sketch_maybeToNormal (sk : Sketch) : option Sketch :=
  if sk_m sk <? wrap 32 (set_Len (sk_tmpSet sk)) *[32] 100 then
    sk ← Sketch_mergeSparse sk;
    sl ← sk_sparseList sk;
    if sk_m sk <? wrap 32 (compressedList_Len sl) then Sketch_toNormal sk else Some sk
  else Some sk.

Definition set_tmpSet (sk : Sketch) (s : set) : Sketch :=
  mkSketch (sk_p sk) (sk_m sk) (sk_createdSparse sk) s (sk_sparseList sk) (sk_regs sk).

Definition Sketch_InsertHash (sk : Sketch) (x : Z) : option Sketch :=
  if Sketch_Sparse sk then
    '(s, added) ← set_add (sk_tmpSet sk) (encodeHash x (sk_p sk) pp);
    if (added : bool) then Sketch_maybeToNormal (set_tmpSet sk s) else Some (set_tmpSet sk s)
  else
    let '(i, r) := getPosVal x (sk_p sk) in
    Sketch_insert sk (wrap 32 i, r).

Definition Sketch_mergeSparseSketch (sk other : Sketch) : option Sketch :=
  s ← set_Merge (sk_tmpSet sk) (sk_tmpSet other);
  sl ← sk_sparseList other;
  ks ← compressedList_values sl;
  s ← for_each (λ s k, fst <$> set_add s k) ks s;
  Sketch_maybeToNormal (set_tmpSet sk s).

Definition Sketch_mergeDenseSketch (sk other : Sketch) : option Sketch :=
  sk ← (if Sketch_Sparse sk then Sketch_toNormal sk else Some sk);
  if Sketch_Sparse other then
    let insert_code sk k := Sketch_insert sk (decodeHash k (sk_p other) pp) in
    sk ← for_each insert_code (set_ForEach (sk_tmpSet other)) sk;
    sl ← sk_sparseList other;
    ks ← compressedList_values sl;
    for_each insert_code ks sk
  else
    for_each Sketch_raise (imap (λ i v, (Z.of_nat i, v)) (sk_regs other)) sk.

(** The error of [Merge] leaves the receiver as it was. *)
Definition Sketch_Merge (sk : Sketch) (other : option Sketch) : option (Sketch * bool) :=
  match other with
  | None => Some (sk, true)
  | Some other =>
      if negb (sk_p sk =? sk_p other) then Some (sk, false)
      else
        sk ← (if Sketch_Sparse sk && Sketch_Sparse other
              then Sketch_mergeSparseSketch sk other
              else Sketch_mergeDenseSketch sk other);
        Some (sk, true)
  end.

(** The dense estimate reads [sk.alpha], which [NewSketch] sets to
    [alpha(float64(m))] and nothing else changes. *)
Definition Sketch_Estimate `{GoMath} (sk : Sketch) : option (Sketch * Z) :=
  if Sketch_Sparse sk then
    sk ← Sketch_mergeSparse sk;
    sl ← sk_sparseList sk;
    Some (sk, uint64_of_float (linearCount mp (mp -[32] cl_count sl)))
  else
    let '(sum, ez) := sumAndZeros (sk_regs sk) in
    let m := float_of_Z (sk_m sk) in
    b ← beta (sk_p sk) ez;
    let est := fdiv (fmul (fmul (alpha m) m) (fsub m ez)) (fadd sum b) in
    Some (sk, uint64_of_float (fadd est (decimal 5 1))).
End ops.

(** ** Merging sorted key lists *)
Fixpoint union_sorted (ks : list Z) : list Z → list Z :=
  fix aux keys :=
    match ks, keys with
    | [], _ => keys
    | _, [] => ks
    | k :: ks', x :: keys' =>
        if k =? x then k :: union_sorted ks' keys'
        else if x <? k then x :: aux keys'
        else k :: union_sorted ks' keys
    end.

Lemma union_sorted_nil_l keys : union_sorted [] keys = keys.
Proof. by destruct keys. Qed.

Lemma union_sorted_nil_r ks : union_sorted ks [] = ks.
Proof. by destruct ks. Qed.

Lemma union_sorted_cons k ks x keys :
  union_sorted (k :: ks) (x :: keys) =
    if k =? x then k :: union_sorted ks keys
    else if x <? k then x :: union_sorted (k :: ks) keys
    else k :: union_sorted ks (x :: keys).
Proof. done. Qed.

#[global] Arguments union_sorted : simpl never.

Lemma union_sorted_elem ks keys z : z ∈ union_sorted ks keys ↔ z ∈ ks ∨ z ∈ keys.
Proof.
  revert keys. induction ks as [|k ks IHk]; intros keys.
  { rewrite union_sorted_nil_l, elem_of_nil. tauto. }
  induction keys as [|x keys IHx]; [rewrite union_sorted_nil_r, elem_of_nil; tauto|].
  rewrite union_sorted_cons. destruct (Z.eqb_spec k x) as [->|].
  - rewrite !elem_of_cons, IHk. tauto.
  - destruct (_ <? _); rewrite elem_of_cons; [rewrite IHx|rewrite IHk];
      rewrite !elem_of_cons; tauto.
Qed.

Lemma union_sorted_sorted ks keys :
  StronglySorted Z.lt ks → StronglySorted Z.lt keys → StronglySorted Z.lt (union_sorted ks keys).
Proof.
  intros Hks. revert keys. induction Hks as [|k ks Hks IHk Hk]; intros keys Hkeys.
  { by rewrite union_sorted_nil_l. }
  induction Hkeys as [|x keys Hkeys IHx Hx]; [by constructor|].
  rewrite Forall_forall in Hk, Hx. rewrite union_sorted_cons.
  destruct (Z.eqb_spec k x) as [->|]; [|destruct (Z.ltb_spec x k)]; constructor; auto using SSorted_cons.
  - apply Forall_forall. intros z [Hz|Hz]%union_sorted_elem; auto.
  - apply Forall_forall. intros z [[->|Hz]%elem_of_cons|Hz]%union_sorted_elem; auto.
    specialize (Hk z Hz). lia.
  - apply IHk. constructor; [done|by apply Forall_forall].
  - apply Forall_forall. intros z [Hz|[->|Hz]%elem_of_cons]%union_sorted_elem; auto; [lia|].
    specialize (Hx z Hz). lia.
Qed.

Lemma mergeSparse_loop_spec fuel it ks keys acc :
  iterator_at it ks → (length ks + length keys < fuel)%nat →
  mergeSparse_loop fuel it keys (list_of_keys acc)
    = Some (list_of_keys (acc ++ union_sorted ks keys)).
Proof.
  revert it ks keys acc. induction fuel as [|n IH]; intros it ks keys acc Hit Hf; [lia|].
  simpl. rewrite (HasNext_at it ks Hit). destruct ks as [|k ks]; simpl in *.
  - destruct keys as [|x keys]; simpl in *; [by rewrite app_nil_r|].
    rewrite compressedList_Append_keys, (IH it []) by (done || simpl; lia).
    by rewrite union_sorted_nil_l, <- app_assoc.
  - destruct keys as [|x keys].
    + destruct (Next_at it k ks Hit) as (it' & -> & Hit'). simpl in *.
      rewrite compressedList_Append_keys, (IH it' ks) by (done || simpl; lia).
      by rewrite union_sorted_nil_r, <- app_assoc.
    + destruct (Peek_at it k ks Hit) as (rest & -> & Hit'). simpl in *.
      rewrite union_sorted_cons. rewrite !compressedList_Append_keys.
      destruct (k =? x); [|destruct (x <? k)].
      * rewrite (IH _ ks) by (done || lia). by rewrite <- app_assoc.
      * rewrite (IH _ (k :: ks)) by (done || simpl; lia). by rewrite <- app_assoc.
      * rewrite (IH _ ks) by (done || simpl; lia). by rewrite <- app_assoc.
Qed.

#[global] Arguments mergeSparse_loop : simpl never.

(** ** Registers as maxima

    [regs_max m P regs]: the array has [m] registers and register [i] holds
    the greatest [r] with [(i, r)] in [P], or 0. *)
Definition regs_max (m : nat) (P : gset (Z * Z)) (regs : list Z) : Prop :=
  length regs = m ∧
  ∀ i v, regs !! i = Some v →
    0 <= v ∧ ∀ t, 0 < t → t <= v ↔ ∃ r, (Z.of_nat i, r) ∈ P ∧ t <= r.

Lemma regs_max_zero m : regs_max m ∅ (replicate m 0).
Proof.
  split; [apply length_replicate|]. intros i v [-> _]%lookup_replicate. split; [lia|].
  intros t Ht. split; [lia|]. intros (r & Hr & _). by apply elem_of_empty in Hr.
Qed.

Lemma regs_max_unique m P regs1 regs2 :
  regs_max m P regs1 → regs_max m P regs2 → regs1 = regs2.
Proof.
  intros [L1 H1] [L2 H2]. apply list_eq. intros i.
  destruct (regs1 !! i) as [v1|] eqn:E1, (regs2 !! i) as [v2|] eqn:E2; try done.
  - destruct (H1 i v1 E1) as [? M1], (H2 i v2 E2) as [? M2]. f_equal.
    assert (∀ t, 0 < t → t <= v1 ↔ t <= v2) as Hiff by (intros; by rewrite M1, M2).
    destruct (Z.lt_trichotomy v1 v2) as [|[|]]; [|done|].
    + pose proof (proj2 (Hiff v2 ltac:(lia))). lia.
    + pose proof (proj1 (Hiff v1 ltac:(lia))). lia.
  - apply lookup_lt_Some in E1. apply lookup_ge_None in E2. lia.
  - apply lookup_lt_Some in E2. apply lookup_ge_None in E1. lia.
Qed.

Lemma regs_insert_max m P regs i r :
  regs_max m P regs → 0 <= i < Z.of_nat m → 0 <= r →
  ∃ regs', regs_insert regs (i, r) = Some regs' ∧ regs_max m ({[(i, r)]} ∪ P) regs'.
Proof.
  intros [L H] Hi Hr. unfold regs_insert.
  destruct (lookup_lt_is_Some_2 regs (Z.to_nat i)) as [cur E]; [lia|].
  rewrite E. eexists. split; [done|]. split; [by rewrite length_insert|].
  intros j v Hj. destruct (H (Z.to_nat i) cur E) as [Hcur Mcur].
  destruct (decide (j = Z.to_nat i)) as [->|Hne].
  - rewrite list_lookup_insert_eq in Hj by lia. simplify_eq. split; [lia|].
    intros t Ht. rewrite Z.max_le_iff, Mcur, Z2Nat.id by lia. split.
    + intros [?|(r' & ? & ?)]; [exists r|exists r'];
        by rewrite elem_of_union, elem_of_singleton; auto.
    + intros (r' & [E'%elem_of_singleton|Hin]%elem_of_union & ?); [simplify_eq; auto|].
      right. exists r'. done.
  - rewrite list_lookup_insert_ne in Hj by done. destruct (H j v Hj) as [Hv Mv].
    split; [done|]. intros t Ht. rewrite Mv by done. split; intros (r' & Hin & ?); exists r'.
    + by rewrite elem_of_union; auto.
    + apply elem_of_union in Hin as [E'%elem_of_singleton|]; [simplify_eq; lia|done].
Qed.

(** The pairs a register array can take. *)
Definition pairs_ok (m : nat) (l : list (Z * Z)) : Prop :=
  Forall (λ ir, 0 <= ir.1 < Z.of_nat m ∧ 0 <= ir.2) l.

Lemma Sketch_insert_all m P l sk :
  regs_max m P (sk_regs sk) → pairs_ok m l →
  ∃ regs', for_each Sketch_insert l sk = Some (set_regs sk regs') ∧
           regs_max m (list_to_set l ∪ P) regs'.
Proof.
  intros H Hok. revert P sk H. induction Hok as [|[i r] l [Hi Hr] _ IH]; intros P sk H.
  - exists (sk_regs sk). simpl. rewrite union_empty_l_L. by destruct sk.
  - destruct (regs_insert_max m P (sk_regs sk) i r H Hi Hr) as (regs' & E & H').
    destruct (IH ({[(i, r)]} ∪ P) (set_regs sk regs') H') as (regs'' & E'' & H'').
    exists regs''. split.
    + assert (Sketch_insert sk (i, r) = Some (set_regs sk regs')) as E1
        by (unfold Sketch_insert; by rewrite E).
      simpl. rewrite E1. simpl. by rewrite E''.
    + replace (list_to_set ((i, r) :: l) ∪ P) with (list_to_set l ∪ ({[(i, r)]} ∪ P) : gset _);
        [done|].
      cbn [list_to_set]. by rewrite union_assoc_L, (union_comm_L (list_to_set l)).
Qed.

Lemma Sketch_insert_p sk ir sk' : Sketch_insert sk ir = Some sk' → sk_p sk' = sk_p sk.
Proof. unfold Sketch_insert. destruct (regs_insert _ _); [|done]. by intros [= <-]. Qed.

Lemma Sketch_raise_insert sk iv : Sketch_raise sk iv = Sketch_insert sk iv.
Proof.
  destruct iv as [i v]. unfold Sketch_raise, Sketch_insert, regs_insert.
  destruct (sk_regs sk !! Z.to_nat i) as [cur|] eqn:E; [|done]. simpl.
  destruct (Z.ltb_spec cur v).
  - by rewrite Z.max_l by lia.
  - rewrite Z.max_r, list_insert_id by (done || lia). by destruct sk.
Qed.

(** Raising every register to another array's takes the union of the pairs. *)
Lemma regs_max_imap m P Q o regs :
  regs_max m Q o →
  regs_max m (list_to_set (imap (λ i v, (Z.of_nat i, v)) o) ∪ P) regs →
  regs_max m (Q ∪ P) regs.
Proof.
  intros [Lo Ho] [L H]. split; [done|]. intros i v E. destruct (H i v E) as [Hv M].
  split; [done|]. intros t Ht. rewrite M by done.
  assert ((∃ r, (Z.of_nat i, r) ∈ imap (λ i v, (Z.of_nat i, v)) o ∧ t <= r)
          ↔ ∃ r, (Z.of_nat i, r) ∈ Q ∧ t <= r) as Hiff.
  { destruct (lookup_lt_is_Some_2 o i) as [w Ew]; [apply lookup_lt_Some in E; lia|].
    destruct (Ho i w Ew) as [_ Mw]. rewrite <- Mw by done. split.
    - intros (r & (j & w' & E1 & E2)%elem_of_lookup_imap & ?). by simplify_eq.
    - intros. exists w. split; [|done]. apply elem_of_lookup_imap. eauto. }
  setoid_rewrite elem_of_union. setoid_rewrite elem_of_list_to_set. split.
  - intros (r & [Hr|Hr] & ?); [destruct (proj1 Hiff) as (r' & ? & ?); eauto|eauto].
  - intros (r & [Hr|Hr] & ?); [destruct (proj2 Hiff) as (r' & ? & ?); eauto|eauto].
Qed.

Lemma imap_pairs_ok m Q o : regs_max m Q o → pairs_ok m (imap (λ i v, (Z.of_nat i, v)) o).
Proof.
  intros [L H]. apply Forall_forall. intros [i v] (j & w & E1 & E2)%elem_of_lookup_imap.
  simplify_eq/=. apply lookup_lt_Some in E2 as ?. destruct (H j w E2). lia.
Qed.

(** ** What a sketch represents *)
Definition codes (p : Z) (X : gset Z) : gset Z := set_map (λ x, encodeHash x p pp) X.
Definition pairs (p : Z) (X : gset Z) : gset (Z * Z) := set_map (λ x, getPosVal x p) X.

Definition sparse_repr (p : Z) (X : gset Z) (sk : Sketch) : Prop :=
  ∃ (T : gset Z) ks,
    sk_tmpSet sk = Some T ∧ sk_sparseList sk = Some (list_of_keys ks) ∧
    StronglySorted Z.lt ks ∧ T ∪ list_to_set ks = codes p X ∧ sk_regs sk = [].
Definition dense_repr (p : Z) (X : gset Z) (sk : Sketch) : Prop :=
  sk_tmpSet sk = nilSet ∧ sk_sparseList sk = None ∧
  regs_max (Z.to_nat (2 ^ p)) (pairs p X) (sk_regs sk).

Record sketch_repr (p : Z) (X : gset Z) (sk : Sketch) : Prop := {
  repr_prec : 4 <= p <= 18;
  repr_hashes : ∀ x, x ∈ X → uint 64 x;
  repr_p : sk_p sk = p;
  repr_m : sk_m sk = 2 ^ p;
  repr_state : sparse_repr p X sk ∨ dense_repr p X sk
}.

Section sets.
Context (p : Z) (Hp : 4 <= p <= 18).

Lemma codes_union X Y : codes p (X ∪ Y) = codes p X ∪ codes p Y.
Proof. apply set_map_union_L. Qed.

Lemma pairs_union X Y : pairs p (X ∪ Y) = pairs p X ∪ pairs p Y.
Proof. apply set_map_union_L. Qed.

Lemma codes_empty : codes p ∅ = ∅.
Proof. apply set_map_empty. Qed.

Lemma pairs_empty : pairs p ∅ = ∅.
Proof. apply set_map_empty. Qed.

Lemma codes_singleton x : codes p {[x]} = {[encodeHash x p pp]}.
Proof. unfold codes, pairs. by rewrite set_map_singleton_L. Qed.

Lemma pairs_singleton x : pairs p {[x]} = {[getPosVal x p]}.
Proof. unfold codes, pairs. by rewrite set_map_singleton_L. Qed.

Lemma codes_uint X k : (∀ x, x ∈ X → uint 64 x) → k ∈ codes p X → uint 32 k.
Proof. intros HX (x & -> & Hx)%elem_of_map. by apply encodeHash_range; [apply HX|]. Qed.

Lemma decode_codes X : (∀ x, x ∈ X → uint 64 x) →
  set_map (λ k, decodeHash k p pp) (codes p X) = pairs p X.
Proof.
  intros HX. apply set_eq. intros ir. unfold pairs, codes. rewrite !elem_of_map. split.
  - intros (k & -> & (x & -> & Hx)%elem_of_map). exists x.
    rewrite decode_encode_getPosVal by auto. done.
  - intros (x & -> & Hx). exists (encodeHash x p pp).
    rewrite decode_encode_getPosVal by auto. split; [done|]. apply elem_of_map. eauto.
Qed.

Lemma pairs_range X : (∀ x, x ∈ X → uint 64 x) → ∀ l : list (Z * Z),
  (∀ ir, ir ∈ l → ir ∈ pairs p X) → pairs_ok (Z.to_nat (2 ^ p)) l.
Proof.
  intros HX l Hl. apply Forall_forall. intros [i r] H.
  apply Hl, elem_of_map in H as (x & E & Hx).
  destruct (getPosVal_range x p i r) as [? ?]; [auto..|]. simpl. lia.
Qed.
End sets.

Lemma merge_sort_strict (l : list Z) : NoDup l → StronglySorted Z.lt (merge_sort Z.le l).
Proof.
  intros H. pose proof (StronglySorted_merge_sort Z.le l) as Hs.
  rewrite <- (merge_sort_Permutation Z.le l) in H.
  induction Hs as [|x k Hs IH Hx]; constructor.
  - apply IH. by apply NoDup_cons in H as [_ ?].
  - apply NoDup_cons in H as [Hn _]. rewrite Forall_forall in Hx |- *.
    intros y Hy. specialize (Hx y Hy). assert (x ≠ y) by (intros ->; done). lia.
Qed.

(** ** The operations, by what they represent *)
Lemma compressedList_values_list_of_keys ks : Forall (uint 32) ks →
  compressedList_values (list_of_keys ks) = Some ks.
Proof.
  intros H. apply iterator_collect_at; [by apply Iter_at|].
  pose proof (encode_keys_length 0 ks). simpl. lia.
Qed.

Lemma set_Len_Some (T : gset Z) : set_Len (Some T) = Z.of_nat (size T).
Proof. done. Qed.

Section repr.
Context `{Ord : IterOrder, !IterOrderOk Ord}.

Lemma set_add_all l (T : gset Z) :
  for_each (λ s v, fst <$> set_add s v) l (Some T) = Some (Some (list_to_set l ∪ T)).
Proof.
  revert T. induction l as [|v l IH]; intros T; simpl; [by rewrite union_empty_l_L|].
  rewrite IH. do 2 f_equal. by rewrite union_assoc_L, (union_comm_L (list_to_set l)).
Qed.

Lemma list_to_set_iter_keys (T : gset Z) : list_to_set (iter_keys T) = T.
Proof. apply set_eq. intros z. by rewrite elem_of_list_to_set, iter_keys_elem. Qed.

Lemma set_Merge_Some (T U : gset Z) : set_Merge (Some T) (Some U) = Some (Some (U ∪ T)).
Proof. unfold set_Merge, set_ForEach. simpl. by rewrite set_add_all, list_to_set_iter_keys. Qed.

Lemma sparse_keys_uint p X T ks :
  4 <= p <= 18 → (∀ x, x ∈ X → uint 64 x) → T ∪ list_to_set ks = codes p X →
  Forall (uint 32) ks ∧ ∀ k, k ∈ T → uint 32 k.
Proof.
  intros Hp HX E. split.
  - apply Forall_forall. intros k Hk. eapply codes_uint; [done|apply HX|].
    rewrite <- E. apply elem_of_union_r. by apply elem_of_list_to_set.
  - intros k Hk. eapply codes_uint; [done|apply HX|]. rewrite <- E. by apply elem_of_union_l.
Qed.

(** [mergeSparse] empties [tmpSet] into the list. *)
Lemma mergeSparse_repr p X sk : sketch_repr p X sk → sparse_repr p X sk →
  ∃ ks, Sketch_mergeSparse sk = Some (mkSketch p (2 ^ p) (sk_createdSparse sk) (Some ∅)
          (Some (list_of_keys ks)) []) ∧
        StronglySorted Z.lt ks ∧ list_to_set ks = codes p X.
Proof.
  intros [Hp HX Ep Em _] (T & ks & ET & EL & Hs & EU & ER).
  destruct (sparse_keys_uint p X T ks Hp HX EU) as [Hks HT].
  unfold Sketch_mergeSparse. rewrite ET, set_Len_Some. destruct (Z.eqb_spec (Z.of_nat (size T)) 0).
  - assert (T = ∅) as -> by (apply size_0_empty; lia).
    exists ks. split; [|split; [done|by rewrite <- EU, union_empty_l_L]].
    destruct sk; simpl in *. by subst.
  - exists (union_sorted ks (merge_sort Z.le (iter_keys T))).
    rewrite EL. simpl. change newCompressedList with (list_of_keys []).
    rewrite (mergeSparse_loop_spec _ _ ks) by
      (apply Iter_at; done) || (pose proof (encode_keys_length 0 ks); simpl; lia).
    simpl. split; [by rewrite Ep, Em, ER|]. split.
    + apply union_sorted_sorted; [done|]. apply merge_sort_strict, iter_keys_NoDup.
    + apply set_eq. intros z. rewrite <- EU, elem_of_list_to_set, union_sorted_elem,
        merge_sort_Permutation, iter_keys_elem, elem_of_union, elem_of_list_to_set. tauto.
Qed.

Lemma toNormal_repr p X sk : sketch_repr p X sk → sparse_repr p X sk →
  ∃ sk', Sketch_toNormal sk = Some sk' ∧ sketch_repr p X sk' ∧ dense_repr p X sk' ∧
         sk_createdSparse sk' = sk_createdSparse sk.
Proof.
  intros HR HS. pose proof HR as [Hp HX Ep Em _].
  assert (∃ ks c, (if 0 <? set_Len (sk_tmpSet sk) then Sketch_mergeSparse sk else Some sk)
            = Some (mkSketch p (2 ^ p) (sk_createdSparse sk) c (Some (list_of_keys ks)) []) ∧
          list_to_set ks = codes p X) as (ks & c & E & EU).
  { destruct (Z.ltb_spec 0 (set_Len (sk_tmpSet sk))).
    - destruct (mergeSparse_repr p X sk HR HS) as (ks & -> & _ & EU). eauto.
    - destruct HS as (T & ks & ET & EL & _ & EU & ER). exists ks, (sk_tmpSet sk).
      rewrite ET, set_Len_Some in H. assert (T = ∅) as -> by (apply size_0_empty; lia).
      rewrite union_empty_l_L in EU. split; [|done]. destruct sk; simpl in *. by subst. }
  assert (Forall (uint 32) ks) as Hks.
  { apply Forall_forall. intros k Hk. eapply codes_uint; [done|apply HX|].
    rewrite <- EU. by apply elem_of_list_to_set. }
  unfold Sketch_toNormal. rewrite E. simpl.
  rewrite compressedList_values_list_of_keys by done. simpl.
  set (sk0 := set_regs _ _).
  assert (list_to_set (map (λ k, decodeHash k p pp) ks) = pairs p X) as Hpairs.
  { rewrite <- decode_codes, <- EU by done. apply list_to_set_map. }
  rewrite (for_each_ext _ (λ sk k, Sketch_insert sk (decodeHash k p pp)) (λ sk, sk_p sk = p));
    [|done|intros s k <- _; split; [done|apply Sketch_insert_p]].
  rewrite <- (for_each_map Sketch_insert (λ k, decodeHash k p pp)).
  destruct (Sketch_insert_all (Z.to_nat (2 ^ p)) ∅ (map (λ k, decodeHash k p pp) ks) sk0)
    as (regs' & Eins & Hmax).
  { apply regs_max_zero. }
  { apply (pairs_range p Hp X HX). intros ir Hir. rewrite <- Hpairs. by apply elem_of_list_to_set. }
  rewrite union_empty_r_L, Hpairs in Hmax.
  rewrite Eins. eexists. split; [done|]. simpl. split; [|done]. 
  split; simpl; try done. right. done.
Qed.

Lemma maybeToNormal_repr p X sk : sketch_repr p X sk → sparse_repr p X sk →
  ∃ sk', Sketch_maybeToNormal sk = Some sk' ∧ sketch_repr p X sk'.
Proof.
  intros HR HS. unfold Sketch_maybeToNormal. destruct (_ <? _); [|by eauto].
  destruct (mergeSparse_repr p X sk HR HS) as (ks & -> & Hs & EU). simpl.
  destruct HR as [Hp HX _ _ _].
  set (sk' := mkSketch _ _ _ _ _ _).
  assert (sparse_repr p X sk') as HS' by (exists ∅, ks; by rewrite union_empty_l_L).
  assert (sketch_repr p X sk') as HR' by (split; auto).
  destruct (_ <? _); [|by eauto].
  destruct (toNormal_repr p X sk' HR' HS') as (sk'' & ? & ? & _). eauto.
Qed.

Lemma sparse_repr_Sparse p X sk : sparse_repr p X sk → Sketch_Sparse sk = true.
Proof. intros (T & ks & _ & E & _). unfold Sketch_Sparse. by rewrite E. Qed.

Lemma dense_repr_Sparse p X sk : dense_repr p X sk → Sketch_Sparse sk = false.
Proof. intros (_ & E & _). unfold Sketch_Sparse. by rewrite E. Qed.

(** A sparse sketch whose [tmpSet] received the codes of [Y]. *)
Lemma sparse_repr_add p X Y sk (T : gset Z) :
  sketch_repr p X sk → sparse_repr p X sk → (∀ x, x ∈ Y → uint 64 x) →
  (∀ T0, sk_tmpSet sk = Some T0 → T = codes p Y ∪ T0) →
  sketch_repr p (Y ∪ X) (set_tmpSet sk (Some T)) ∧ sparse_repr p (Y ∪ X) (set_tmpSet sk (Some T)).
Proof.
  intros [Hp HX Ep Em _] (T0 & ks & ET & EL & Hs & EU & ER) HY HT.
  assert (sparse_repr p (Y ∪ X) (set_tmpSet sk (Some T))).
  { exists T, ks. rewrite (HT T0 ET), <- union_assoc_L, EU, codes_union. done. }
  split; [|done]. split; auto. intros x [?|?]%elem_of_union; auto.
Qed.

Lemma InsertHash_repr p X sk x : sketch_repr p X sk → uint 64 x →
  ∃ sk', Sketch_InsertHash sk x = Some sk' ∧ sketch_repr p ({[x]} ∪ X) sk'.
Proof.
  intros HR Hx. pose proof HR as [Hp HX Ep Em [HS|HD]]; unfold Sketch_InsertHash.
  - rewrite (sparse_repr_Sparse _ _ _ HS). pose proof HS as (T & ks & ET & _).
    rewrite ET, Ep. simpl.
    destruct (sparse_repr_add p X {[x]} sk ({[encodeHash x p pp]} ∪ T) HR HS) as [HR' HS'].
    { intros y ->%elem_of_singleton. done. }
    { intros T0 ET0. rewrite ET in ET0. simplify_eq. by rewrite codes_singleton. }
    destruct (bool_decide _); [|eauto].
    apply (maybeToNormal_repr p _ _ HR' HS').
  - rewrite (dense_repr_Sparse _ _ _ HD), Ep. destruct HD as (ET & EL & Hmax).
    destruct (getPosVal x p) as [i r] eqn:E.
    destruct (getPosVal_range x p i r Hx Hp E) as [Hi Hr].
    assert (2 ^ p <= 2 ^ 18) by (apply Z.pow_le_mono_r; lia).
    rewrite wrap_small by (unfold uint; lia).
    destruct (regs_insert_max _ _ _ i r Hmax) as (regs' & Eins & Hmax'); [lia|lia|].
    unfold Sketch_insert. rewrite Eins. eexists. split; [done|].
    split; simpl; auto. { intros y [->%elem_of_singleton|?]%elem_of_union; auto. }
    right. split; [done|]. split; [done|]. by rewrite pairs_union, pairs_singleton, E.
Qed.

Lemma mergeSparseSketch_repr p X Y sk other :
  sketch_repr p X sk → sparse_repr p X sk → sketch_repr p Y other → sparse_repr p Y other →
  ∃ sk', Sketch_mergeSparseSketch sk other = Some sk' ∧ sketch_repr p (Y ∪ X) sk'.
Proof.
  intros HR HS [Hp HY Ep Em _] (U & ks & ET & EL & Hs & EU & ER).
  pose proof HS as (T & ks0 & ET0 & _). unfold Sketch_mergeSparseSketch.
  destruct (sparse_keys_uint p Y U ks Hp HY EU) as [Hks _].
  rewrite ET0, ET, set_Merge_Some, EL. simpl.
  rewrite compressedList_values_list_of_keys by done. simpl. rewrite set_add_all. simpl.
  destruct (sparse_repr_add p X Y sk (list_to_set ks ∪ (U ∪ T)) HR HS HY) as [HR' HS'].
  { intros T0 E0. rewrite ET0 in E0. simplify_eq.
    by rewrite <- EU, union_assoc_L, (union_comm_L U). }
  apply (maybeToNormal_repr p _ _ HR' HS').
Qed.

(** The dense merge: [sk1] is [sk] made dense. *)
Lemma mergeDenseSketch_repr p X Y sk other :
  sketch_repr p X sk → sketch_repr p Y other →
  ∃ sk', Sketch_mergeDenseSketch sk other = Some sk' ∧ sketch_repr p (Y ∪ X) sk'.
Proof.
  intros HR HO. pose proof HO as [Hp HY Epo _ HOs].
  assert (∃ sk1, (if Sketch_Sparse sk then Sketch_toNormal sk else Some sk) = Some sk1 ∧
            sketch_repr p X sk1 ∧ dense_repr p X sk1) as (sk1 & E & HR1 & HD1).
  { pose proof HR as [_ _ _ _ [HS|HD]].
    - rewrite (sparse_repr_Sparse _ _ _ HS).
      destruct (toNormal_repr p X sk HR HS) as (sk1 & ? & ? & ? & _). eauto.
    - rewrite (dense_repr_Sparse _ _ _ HD). eauto. }
  unfold Sketch_mergeDenseSketch. rewrite E. simpl. clear E.
  destruct HR1 as [_ HX Ep1 Em1 _], HD1 as (ET1 & EL1 & Hmax1).
  assert (∀ regs', regs_max (Z.to_nat (2 ^ p)) (pairs p Y ∪ pairs p X) regs' →
            sketch_repr p (Y ∪ X) (set_regs sk1 regs')) as Hdone.
  { intros regs' Hmax. split; simpl; auto. { intros y [?|?]%elem_of_union; auto. }
    right. split; [done|]. split; [done|]. by rewrite pairs_union. }
  destruct HOs as [HS|HD].
  - rewrite (sparse_repr_Sparse _ _ _ HS). destruct HS as (U & ks & ET & EL & _ & EU & _).
    destruct (sparse_keys_uint p Y U ks Hp HY EU) as [Hks _].
    rewrite ET, EL, Epo. simpl. unfold set_ForEach. simpl.
    rewrite compressedList_values_list_of_keys by done. simpl.
    set (g := λ k, decodeHash k p pp).
    assert (list_to_set (map g (iter_keys U ++ ks)) = pairs p Y) as Hpairs.
    { rewrite <- decode_codes, <- EU, list_to_set_map by done. f_equal.
      by rewrite list_to_set_app_L, list_to_set_iter_keys. }
    destruct (Sketch_insert_all _ _ (map g (iter_keys U ++ ks)) sk1 Hmax1) as (regs' & Eall & Hmax).
    { apply (pairs_range p Hp Y HY). intros ir Hir. rewrite <- Hpairs. by apply elem_of_list_to_set. }
    rewrite Hpairs in Hmax. rewrite for_each_map, for_each_app in Eall. eauto.
  - rewrite (dense_repr_Sparse _ _ _ HD). destruct HD as (_ & _ & HmaxO).
    rewrite (for_each_ext _ Sketch_insert (λ _, True)) by (done || intros; by rewrite Sketch_raise_insert).
    destruct (Sketch_insert_all _ _ (imap (λ i v, (Z.of_nat i, v)) (sk_regs other)) sk1 Hmax1)
      as (regs' & Eall & Hmax).
    { by eapply imap_pairs_ok. }
    eauto using regs_max_imap.
Qed.
End repr.

Section repr_more.
Context `{Ord : IterOrder, !IterOrderOk Ord}.

Lemma shl_1_pow p : 0 <= p < 32 → 1 <<[32] p = 2 ^ p.
Proof.
  intros. rewrite shl_wrap by lia. rewrite Z.mod_small; [lia|].
  split; [lia|]. apply (Z.pow_gt_1 2); lia.
Qed.

(** Registers fit in a byte. *)
Lemma regs_bytes p X regs : 4 <= p <= 18 → (∀ x, x ∈ X → uint 64 x) →
  regs_max (Z.to_nat (2 ^ p)) (pairs p X) regs → map (wrap 8) regs = regs.
Proof.
  intros Hp HX [_ H]. rewrite <- (map_id regs) at 2. apply map_ext_in.
  intros v (i & Hi)%list_elem_of_In%list_elem_of_lookup. destruct (H i v Hi) as [Hv M].
  apply wrap_small. split; [lia|]. destruct (decide (v = 0)); [lia|].
  destruct (proj1 (M v ltac:(lia))) as (r & (x & E & Hx)%elem_of_map & Hr); [lia|].
  destruct (getPosVal_range x p (Z.of_nat i) r) as [_ ?]; auto. lia.
Qed.

Lemma NewSketch_ok p b : 4 <= p <= 18 → ∃ sk, NewSketch p b = Ok sk ∧ sketch_repr p ∅ sk.
Proof.
  intros Hp. unfold NewSketch.
  rewrite (proj2 (Z.ltb_ge p 4)), (proj2 (Z.ltb_ge 18 p)) by lia. simpl.
  rewrite shl_1_pow by lia.
  assert (sketch_repr p ∅ (mkSketch p (2 ^ p) b
            (if b then makeSet else nilSet) (if b then Some newCompressedList else None)
            (if b then [] else replicate (Z.to_nat (2 ^ p)) 0))) as HR.
  { split; simpl; [done|intros x Hx%elem_of_empty; done|done|done|]. destruct b.
    - left. exists ∅, []. split_and!; try done; constructor.
    - right. split_and!; try done. rewrite pairs_empty. apply regs_max_zero. }
  destruct b; eauto.
Qed.

Lemma NewSketch_error p b : ¬ 4 <= p <= 18 → ∃ e, NewSketch p b = Error e.
Proof.
  intros Hp. unfold NewSketch.
  destruct (Z.ltb_spec p 4), (Z.ltb_spec 18 p); simpl; eauto. lia.
Qed.

Lemma Merge_repr p X Y sk other : sketch_repr p X sk → sketch_repr p Y other →
  ∃ sk', Sketch_Merge sk (Some other) = Some (sk', true) ∧ sketch_repr p (Y ∪ X) sk'.
Proof.
  intros HR HO. unfold Sketch_Merge. pose proof HR as [_ _ -> _ HS]. pose proof HO as [_ _ -> _ HSo].
  rewrite Z.eqb_refl. simpl.
  destruct HS as [HS|HD]; [rewrite (sparse_repr_Sparse _ _ _ HS)|rewrite (dense_repr_Sparse _ _ _ HD)];
    [destruct HSo as [HSo|HDo];
      [rewrite (sparse_repr_Sparse _ _ _ HSo)|rewrite (dense_repr_Sparse _ _ _ HDo)]|]; simpl.
  - destruct (mergeSparseSketch_repr p X Y sk other) as (sk' & -> & ?); eauto.
  - destruct (mergeDenseSketch_repr p X Y sk other) as (sk' & -> & ?); eauto.
  - destruct (mergeDenseSketch_repr p X Y sk other) as (sk' & -> & ?); eauto.
Qed.

Lemma Merge_precision_error p q X Y sk other :
  sketch_repr p X sk → sketch_repr q Y other → p ≠ q →
  Sketch_Merge sk (Some other) = Some (sk, false).
Proof.
  intros [_ _ E1 _ _] [_ _ E2 _ _] Hne. unfold Sketch_Merge. rewrite E1, E2.
  by rewrite (proj2 (Z.eqb_neq p q)).
Qed.

Lemma Reset_repr p X sk : sketch_repr p X sk → sketch_repr p ∅ (Sketch_Reset sk).
Proof.
  intros [Hp HX Ep Em HS]. unfold Sketch_Reset.
  assert (∀ x : Z, x ∈ (∅ : gset Z) → uint 64 x) by (intros x Hx; by apply elem_of_empty in Hx).
  assert (∀ b, sparse_repr p ∅ (mkSketch (sk_p sk) (sk_m sk) b makeSet (Some newCompressedList) []))
    as Hempty.
  { intros b. exists ∅, []. split_and!; try done; constructor. }
  destruct HS as [HS|HD].
  - rewrite (sparse_repr_Sparse _ _ _ HS). destruct HS as (T & ks & -> & -> & _ & _ & ->).
    split; simpl; auto.
  - rewrite (dense_repr_Sparse _ _ _ HD). destruct HD as (ET & EL & [Hlen _]).
    destruct (sk_createdSparse sk); split; simpl; auto.
    right. split_and!; try done. simpl. rewrite Hlen, pairs_empty. apply regs_max_zero.
Qed.

Lemma Clone_repr p X sk : sketch_repr p X sk → sketch_repr p X (Sketch_Clone sk).
Proof. by destruct sk. Qed.

Lemma Estimate_repr `{M : GoMath, !GoMathOk M} p X sk : sketch_repr p X sk →
  ∃ sk' n, Sketch_Estimate sk = Some (sk', n) ∧ sketch_repr p X sk' ∧ uint 64 n.
Proof.
  intros HR. pose proof HR as [Hp HX Ep Em [HS|HD]]; unfold Sketch_Estimate.
  - rewrite (sparse_repr_Sparse _ _ _ HS).
    destruct (mergeSparse_repr p X sk HR HS) as (ks & -> & Hs & EU). simpl.
    do 2 eexists. split; [done|]. split; [|apply uint64_of_float_uint].
    split; auto. left. exists ∅, ks. split_and!; try done. by rewrite union_empty_l_L.
  - rewrite (dense_repr_Sparse _ _ _ HD). destruct (sumAndZeros _) as [sum ez].
    rewrite Ep. destruct (beta_total p ez Hp) as [b ->]. simpl.
    do 2 eexists. split; [done|]. split; [done|apply uint64_of_float_uint].
Qed.
End repr_more.

(** ** The implementation meets the interface *)
#[export] Instance hll_ops `{IterOrder, GoMath} : SketchOps := {|
  sketch := Sketch;
  sk_new := NewSketch;
  sk_InsertHash := Sketch_InsertHash;
  sk_Merge := Sketch_Merge;
  sk_Reset := Sketch_Reset;
  sk_Sparse := Sketch_Sparse;
  sk_Clone := Sketch_Clone;
  sk_Estimate := Sketch_Estimate
|}.
#[export] Instance hll_spec `{Ord : IterOrder, !IterOrderOk Ord, M : GoMath, !GoMathOk M} :
  SketchSpec hll_ops := {|
  represents := sketch_repr : Z → gset Z → @sketch hll_ops → Prop;
  new_ok := NewSketch_ok;
  new_error := NewSketch_error;
  InsertHash_ok := InsertHash_repr;
  Merge_ok := Merge_repr;
  Merge_nil _ := eq_refl;
  Merge_precision := Merge_precision_error;
  Reset_ok := Reset_repr;
  Clone_ok := Clone_repr;
  Estimate_ok := Estimate_repr
|}.

(** ** Theorems *)

(** The registers a sketch stands for: its own when dense, those of its
    conversion when sparse. *)
Definition Sketch_registers `{IterOrder} (sk : Sketch) : option (list Z) :=
  if Sketch_Sparse sk then sk_regs <$> Sketch_toNormal sk else Some (sk_regs sk).

(** A fresh sketch after the hashes [l]. *)
Definition Sketch_of_list `{IterOrder} (p : Z) (b : bool) (l : list Z) : option Sketch :=
  match NewSketch p b with
  | Ok sk => for_each Sketch_InsertHash l sk
  | Error _ => None
  end.

Section theorems.
Context `{Ord : IterOrder, !IterOrderOk Ord}.

Lemma registers_repr p X sk : sketch_repr p X sk →
  ∃ regs, Sketch_registers sk = Some regs ∧ regs_max (Z.to_nat (2 ^ p)) (pairs p X) regs.
Proof.
  intros HR. pose proof HR as [_ _ _ _ [HS|HD]]; unfold Sketch_registers.
  - rewrite (sparse_repr_Sparse _ _ _ HS).
    destruct (toNormal_repr p X sk HR HS) as (sk' & -> & _ & (_ & _ & H) & _). simpl. eauto.
  - rewrite (dense_repr_Sparse _ _ _ HD). destruct HD as (_ & _ & H). eauto.
Qed.

Lemma Sketch_of_list_repr p b l : 4 <= p <= 18 → Forall (uint 64) l →
  ∃ sk, Sketch_of_list p b l = Some sk ∧ sketch_repr p (list_to_set l) sk.
Proof.
  intros Hp Hl. unfold Sketch_of_list. destruct (NewSketch_ok p b Hp) as (sk & -> & HR).
  destruct (@insert_all (@hll_ops _ demo_math) (@hll_spec _ _ demo_math demo_math_ok)
              p ∅ sk l HR Hl) as (sk' & E & HR').
  rewrite union_empty_r_L in HR'. eauto.
Qed.

(** C21: a sketch is a function of the set of hashes it was given.  Inserting
    hashes never panics, and whatever the order, the repetitions and the
    initial form (sparse or dense), the resulting registers are the same:
    register [i] is the greatest [rho] among the hashes with index [i]. *)
Theorem Sketch_insert_order p b1 b2 l1 l2 :
  4 <= p <= 18 → Forall (uint 64) l1 → (∀ x, x ∈ l1 ↔ x ∈ l2) →
  ∃ sk1 sk2 regs,
    Sketch_of_list p b1 l1 = Some sk1 ∧ Sketch_of_list p b2 l2 = Some sk2 ∧
    Sketch_registers sk1 = Some regs ∧ Sketch_registers sk2 = Some regs ∧
    regs_max (Z.to_nat (2 ^ p)) (pairs p (list_to_set l1)) regs.
Proof.
  intros Hp Hl1 Heq.
  assert (list_to_set l2 = (list_to_set l1 : gset Z)) as E
    by (apply set_eq; intros x; by rewrite !elem_of_list_to_set, Heq).
  assert (Forall (uint 64) l2) as Hl2
    by (rewrite Forall_forall in Hl1 |- *; intros x Hx; by apply Hl1, Heq).
  destruct (Sketch_of_list_repr p b1 l1 Hp Hl1) as (sk1 & E1 & HR1).
  destruct (Sketch_of_list_repr p b2 l2 Hp Hl2) as (sk2 & E2 & HR2). rewrite E in HR2.
  destruct (registers_repr _ _ _ HR1) as (regs1 & Er1 & H1).
  destruct (registers_repr _ _ _ HR2) as (regs2 & Er2 & H2).
  rewrite <- (regs_max_unique _ _ _ _ H1 H2) in Er2. by exists sk1, sk2, regs1.
Qed.

(** C20: merging is union.  Merging a sketch of [l2] into a sketch of [l1], each
    sparse or dense, never panics or fails, and gives the registers of one
    sketch that saw all the hashes. *)
Theorem Sketch_merge_union p b1 b2 b3 l1 l2 :
  4 <= p <= 18 → Forall (uint 64) l1 → Forall (uint 64) l2 →
  ∃ sk1 sk2 sk3 sk' regs,
    Sketch_of_list p b1 l1 = Some sk1 ∧ Sketch_of_list p b2 l2 = Some sk2 ∧
    Sketch_of_list p b3 (l1 ++ l2) = Some sk3 ∧
    Sketch_Merge sk1 (Some sk2) = Some (sk', true) ∧
    Sketch_registers sk' = Some regs ∧ Sketch_registers sk3 = Some regs.
Proof.
  intros Hp Hl1 Hl2.
  destruct (Sketch_of_list_repr p b1 l1 Hp Hl1) as (sk1 & E1 & HR1).
  destruct (Sketch_of_list_repr p b2 l2 Hp Hl2) as (sk2 & E2 & HR2).
  destruct (Sketch_of_list_repr p b3 (l1 ++ l2) Hp) as (sk3 & E3 & HR3);
    [by apply Forall_app|].
  destruct (Merge_repr p _ _ _ _ HR1 HR2) as (sk' & E' & HR').
  rewrite union_comm_L, <- list_to_set_app_L in HR'.
  destruct (registers_repr _ _ _ HR') as (regs' & Er' & H').
  destruct (registers_repr _ _ _ HR3) as (regs3 & Er3 & H3).
  rewrite <- (regs_max_unique _ _ _ _ H' H3) in Er3.
  by exists sk1, sk2, sk3, sk', regs'.
Qed.

Lemma sorted_list_to_set ks : StronglySorted Z.lt ks →
  size (list_to_set ks : gset Z) = length ks.
Proof.
  intros H. apply size_list_to_set. induction H as [|k ks _ IH Hk]; constructor; [|done].
  intros Hin. rewrite Forall_forall in Hk. specialize (Hk k Hin). lia.
Qed.

Lemma Estimate_sparse_run `{M : GoMath, !GoMathOk M} p X sk :
  sketch_repr p X sk → Sketch_Sparse sk = true →
  ∃ sk', Sketch_Estimate sk =
           Some (sk', uint64_of_float
                        (linearCount mp (mp -[32] wrap 32 (Z.of_nat (size (codes p X)))))) ∧
         sketch_repr p X sk'.
Proof.
  intros HR Hsp. pose proof HR as [_ _ _ _ [HS|HD]];
    [|by rewrite (dense_repr_Sparse _ _ _ HD) in Hsp].
  destruct (Estimate_repr p X sk HR) as (sk' & n & E & HR' & _). exists sk'. split; [|done].
  rewrite E. unfold Sketch_Estimate in E. rewrite Hsp in E.
  destruct (mergeSparse_repr p X sk HR HS) as (ks & Em & Hs & EU).
  rewrite Em in E. simpl in E. injection E as <- <-.
  by rewrite <- EU, sorted_list_to_set by done.
Qed.

(** The estimate of a sparse sketch depends on nothing but the number of
    distinct 25-bit codes among its hashes: it is the linear count over the
    2^25 virtual registers.  [Estimate] leaves the represented set alone. *)
Theorem Estimate_sparse `{M : GoMath, !GoMathOk M} p X sk :
  sketch_repr p X sk → Sketch_Sparse sk = true →
  ∃ sk', Sketch_Estimate sk =
           Some (sk', uint64_of_float
                        (linearCount mp (mp -[32] wrap 32 (Z.of_nat (size (codes p X)))))) ∧
         sketch_repr p X sk'.
Proof. apply Estimate_sparse_run. Qed.

(** A sketch that saw no hash estimates 0, in particular the metric of a
    stream without traffic is 0 and not noise. *)
Lemma Estimate_empty `{M : GoMath, !GoMathOk M} p sk :
  NewSketch p true = Ok sk → ∃ sk', Sketch_Estimate sk = Some (sk', 0).
Proof.
  intros E. assert (4 <= p <= 18) as Hp.
  { destruct (decide (4 <= p <= 18)); [done|].
    destruct (NewSketch_error p true) as [e Ee]; [done|]. by rewrite Ee in E. }
  destruct (NewSketch_ok p true Hp) as (sk0 & E0 & HR). rewrite E in E0. injection E0 as <-.
  destruct (Estimate_sparse_run p ∅ sk HR) as (sk' & Ee & _).
  { unfold NewSketch in E. rewrite (proj2 (Z.ltb_ge p 4)), (proj2 (Z.ltb_ge 18 p)) in E by lia.
    by injection E as <-. }
  exists sk'. rewrite Ee. do 2 f_equal. rewrite codes_empty, size_empty.
  unfold linearCount.
  assert (fdiv (float_of_Z mp) (float_of_Z (mp -[32] wrap 32 (Z.of_nat 0)))
          = S754_finite false 4503599627370496 (-52)) as -> by (vm_compute; done).
  rewrite math_Log_1. vm_compute. done.
Qed.
End theorems.

Lemma Sketch_insert_order_witness :
  ∃ sk1 sk2 regs,
    Sketch_of_list 4 true [1; 2 ^ 63; 1] = Some sk1 ∧
    Sketch_of_list 4 false [2 ^ 63; 1] = Some sk2 ∧
    Sketch_registers sk1 = Some regs ∧ Sketch_registers sk2 = Some regs ∧
    regs_max (Z.to_nat (2 ^ 4)) (pairs 4 (list_to_set [1; 2 ^ 63; 1])) regs.
Proof.
  apply (Sketch_insert_order 4 true false [1; 2 ^ 63; 1] [2 ^ 63; 1]).
  - lia.
  - repeat constructor; vm_compute; congruence.
  - intros x. rewrite !elem_of_cons, elem_of_nil. tauto.
Defined.

Lemma Sketch_merge_union_witness :
  ∃ sk1 sk2 sk3 sk' regs,
    Sketch_of_list 4 true [1; 5] = Some sk1 ∧ Sketch_of_list 4 false [2 ^ 62] = Some sk2 ∧
    Sketch_of_list 4 true ([1; 5] ++ [2 ^ 62]) = Some sk3 ∧
    Sketch_Merge sk1 (Some sk2) = Some (sk', true) ∧
    Sketch_registers sk' = Some regs ∧ Sketch_registers sk3 = Some regs.
Proof.
  apply (Sketch_merge_union 4 true false true [1; 5] [2 ^ 62]); [lia|..];
    repeat constructor; vm_compute; congruence.
Defined.

Lemma Estimate_sparse_witness :
  ∃ sk sk', Sketch_of_list 14 true [7; 2 ^ 63] = Some sk ∧
    @Sketch_Estimate _ demo_math sk =
      Some (sk', @uint64_of_float demo_math (@linearCount demo_math mp
              (mp -[32] wrap 32 (Z.of_nat (size (codes 14 (list_to_set [7; 2 ^ 63]))))))).
Proof.
  destruct (Sketch_of_list_repr 14 true [7; 2 ^ 63]) as (sk & E & HR).
  - lia.
  - repeat constructor; vm_compute; congruence.
  - assert (Sketch_Sparse sk = true) as Hsp by (vm_compute in E; by injection E as <-).
    destruct (@Estimate_sparse _ _ demo_math demo_math_ok 14 _ sk HR Hsp) as (sk' & Ee & _).
    exists sk, sk'. by split.
Defined.

Lemma Estimate_empty_witness :
  ∃ sk sk', NewSketch 14 true = Ok sk ∧ @Sketch_Estimate _ demo_math sk = Some (sk', 0).
Proof.
  eexists (mkSketch 14 16384 true makeSet (Some newCompressedList) []).
  destruct (@Estimate_empty _ _ demo_math demo_math_ok 14
              (mkSketch 14 16384 true makeSet (Some newCompressedList) []) eq_refl) as (sk' & E).
  exists sk'. by split.
Defined.
