(* ===== verification/SketchBinary.v ===== *)
(** * SketchBinary: the wire form of a sketch

    Models [MarshalBinary]/[AppendBinary] and [UnmarshalBinary] of
    vendor/github.com/axiomhq/hyperloglog (hyperloglog.go, sparse.go), which
    encoding/gob calls when vmestimator nodes exchange snapshots. *)
From S2P Require Import Prelude GoFloat HllCodec CompressedList Sketch.

Definition version : Z := 2.

Section binary.
Context `{IterOrder}.

Definition set_AppendBinary (s : set) (data : byte_list) : byte_list :=
  data ++ be32 (set_Len s) ++ concat (map be32 (set_ForEach s)).

Definition Sketch_AppendBinary (sk : Sketch) (data : byte_list) : option byte_list :=
  let data := data ++ [version; sk_p sk; 0] in
  if Sketch_Sparse sk then
    let data := set_AppendBinary (sk_tmpSet sk) (data ++ [1]) in
    sl ← sk_sparseList sk;
    Some (compressedList_AppendBinary sl data)
  else
    let data := data ++ [0] in
    Some (data ++ be32 (Z.of_nat (length (sk_regs sk))) ++ map (wrap 8) (sk_regs sk)).
Definition Sketch_MarshalBinary (sk : Sketch) : option byte_list := Sketch_AppendBinary sk [].
End binary.

(** [for i := 8; i < tsLastByte; i += 4 { sk.tmpSet.add(Uint32(data[i:i+4])) }];
    [rest] is [data[i:]]. *)
Fixpoint read_tmpSet (n : nat) (rest : byte_list) (s : set) : option set :=
  match n with
  | O => Some s
  | S n' =>
      k ← BigEndian_Uint32 rest;
      '(s, _) ← set_add s k;
      read_tmpSet n' (drop 4 rest) s
  end.

Definition unmarshalBinaryV1 (data : byte_list) (b : Z) : list Z :=
  concat (map (λ v, [wrap 8 (v >> 4) +[8] b; ((v <<[8] 4) >> 4) +[8] b]) data).
Definition unmarshalBinaryV2 (data : byte_list) : list Z := drop 8 data.

(** [set_sparseList sk l] is [sk.sparseList = l]. *)
Definition set_sparseList (sk : Sketch) (l : option compressedList) : Sketch :=
  mkSketch (sk_p sk) (sk_m sk) (sk_createdSparse sk) (sk_tmpSet sk) l (sk_regs sk).

Definition Sketch_UnmarshalBinary (sk : Sketch) (data : byte_list)
    : option (Sketch * option unmarshal_error) :=
  if Nat.ltb (length data) 8 then Some (sk, Some ErrorTooShort)
  else
    v ← data !! 0%nat; p ← data !! 1%nat; b ← data !! 2%nat; flag ← data !! 3%nat;
    let sparse := flag =? 1 in
    let used := negb (sk_p sk =? p) || negb (bool_decide (sk_regs sk = []))
                || (0 <? set_Len (sk_tmpSet sk))
                || match sk_sparseList sk with
                   | Some sl => 0 <? compressedList_Len sl
                   | None => false
                   end in
    match (if used then NewSketch p sparse else Ok sk) with
    | Error _ => Some (sk, Some ErrPrecision)
    | Ok sk =>
        if sparse then
          tssz ← BigEndian_Uint32 (drop 4 data);
          let tsLastByte := (tssz *[32] 4) +[32] 8 in
          s ← read_tmpSet (Z.to_nat ((tsLastByte - 8) / 4)) (drop 8 data) makeSet;
          let sk := set_tmpSet sk s in
          if Z.of_nat (length data) <? tsLastByte then None
          else
            match sk_sparseList sk with
            | None =>
                if Nat.ltb (length (drop (Z.to_nat tsLastByte) data)) 12
                then Some (sk, Some ErrorTooShort) else None
            | Some sl =>
                '(sl, err) ← compressedList_UnmarshalBinary sl (drop (Z.to_nat tsLastByte) data);
                Some (set_sparseList sk (Some sl), err)
            end
        else
          let sk := set_sparseList (set_tmpSet sk nilSet) None in
          if v =? 1 then Some (set_regs sk (unmarshalBinaryV1 (drop 8 data) b), None)
          else Some (set_regs sk (unmarshalBinaryV2 data), None)
    end.

(** The zero value [Sketch{}] that encoding/gob unmarshals into. *)
Definition zero_Sketch : Sketch := mkSketch 0 0 false nilSet None [].

(** ** The wire round trip *)
Lemma be32_read x rest : uint 32 x → BigEndian_Uint32 (be32 x ++ rest) = Some x.
Proof. intros Hx. red in Hx. simpl. f_equal. gobits. Qed.

Lemma be32_drop4 x rest : drop 4 (be32 x ++ rest) = rest.
Proof. done. Qed.
Lemma be32_drop8 x y rest : drop 8 (be32 x ++ be32 y ++ rest) = rest.
Proof. done. Qed.
Lemma be32_drop12 x y z rest : drop 12 (be32 x ++ be32 y ++ be32 z ++ rest) = rest.
Proof. done. Qed.

Lemma be32_length x : length (be32 x) = 4%nat.
Proof. done. Qed.

Lemma read_tmpSet_all ks rest (T : gset Z) : Forall (uint 32) ks →
  read_tmpSet (length ks) (concat (map be32 ks) ++ rest) (Some T) = Some (Some (list_to_set ks ∪ T)).
Proof.
  intros H. revert T. induction H as [|k ks Hk _ IH]; intros T; [simpl; by rewrite union_empty_l_L|].
  cbn [read_tmpSet length map concat]. rewrite <- app_assoc, be32_read by done. simpl.
  rewrite drop_0. rewrite IH. do 2 f_equal.
  by rewrite union_assoc_L, (union_comm_L (list_to_set ks)).
Qed.

Lemma concat_be32_length ks : length (concat (map be32 ks)) = (4 * length ks)%nat.
Proof. induction ks as [|k ks IH]; [done|]. cbn [map concat]. rewrite length_app, be32_length, IH. simpl. lia. Qed.

Lemma compressedList_binary c data : uint 32 (cl_count c) → uint 32 (cl_last c) →
  Z.of_nat (length (cl_b c)) < 2 ^ 32 →
  compressedList_UnmarshalBinary data
    (be32 (cl_count c) ++ be32 (cl_last c) ++ be32 (Z.of_nat (length (cl_b c))) ++ cl_b c)
    = Some (c, None).
Proof.
  intros Hc Hl Hb. unfold compressedList_UnmarshalBinary.
  rewrite (proj2 (Nat.ltb_ge _ _)) by (rewrite !length_app, !be32_length; lia).
  rewrite be32_read by done. cbn [mbind option_bind].
  rewrite be32_drop4, be32_read by done. cbn [mbind option_bind].
  rewrite be32_drop8, be32_read by (unfold uint; lia). cbn [mbind option_bind].
  rewrite be32_drop12, Z.ltb_irrefl, Nat2Z.id, take_ge by lia. by destruct c.
Qed.

Section roundtrip.
Context `{Ord : IterOrder, !IterOrderOk Ord}.

Definition sparse_wire (p : Z) (l : list Z) (c : compressedList) : byte_list :=
  version :: p :: 0 :: 1 :: be32 (Z.of_nat (length l)) ++ concat (map be32 l) ++
  be32 (cl_count c) ++ be32 (cl_last c) ++ be32 (Z.of_nat (length (cl_b c))) ++ cl_b c.

Lemma Marshal_sparse p m b (T : gset Z) c :
  Sketch_MarshalBinary (mkSketch p m b (Some T) (Some c) []) = Some (sparse_wire p (iter_keys T) c).
Proof.
  unfold Sketch_MarshalBinary, Sketch_AppendBinary, set_AppendBinary, set_ForEach,
    compressedList_AppendBinary, variableLengthList_AppendBinary, sparse_wire.
  rewrite iter_keys_length. unfold set_Len. simpl. by rewrite <- !app_assoc.
Qed.

Lemma Unmarshal_sparse p l c :
  4 <= p <= 18 → Forall (uint 32) l → 4 * Z.of_nat (length l) + 8 < 2 ^ 32 →
  uint 32 (cl_count c) → uint 32 (cl_last c) → Z.of_nat (length (cl_b c)) < 2 ^ 32 →
  Sketch_UnmarshalBinary zero_Sketch (sparse_wire p l c) =
    Some (mkSketch p (1 <<[32] p) true (Some (list_to_set l)) (Some c) [], None).
Proof.
  intros Hp Hl Hn Hc1 Hc2 Hc3.
  set (tail := be32 (cl_count c) ++ be32 (cl_last c) ++ be32 (Z.of_nat (length (cl_b c))) ++ cl_b c).
  set (body := concat (map be32 l) ++ tail). set (n := Z.of_nat (length l)).
  assert (sparse_wire p l c = version :: p :: 0 :: 1 :: be32 n ++ body) as -> by done.
  assert (length body = 4 * length l + length tail)%nat as Hbody
    by (unfold body; by rewrite length_app, concat_be32_length).
  unfold Sketch_UnmarshalBinary. rewrite (proj2 (Nat.ltb_ge _ _)) by (simpl; lia).
  cbn [lookup list_lookup mbind option_bind zero_Sketch sk_p].
  rewrite (proj2 (Z.eqb_neq 0 p)) by lia. cbn [negb orb].
  unfold NewSketch. rewrite (proj2 (Z.ltb_ge p 4)), (proj2 (Z.ltb_ge 18 p)) by lia.
  cbn [orb Z.eqb Pos.eqb].
  change (drop 4 (version :: p :: 0 :: 1 :: be32 n ++ body)) with (be32 n ++ body).
  change (drop 8 (version :: p :: 0 :: 1 :: be32 n ++ body)) with body.
  rewrite be32_read by (unfold uint; lia). cbn [mbind option_bind].
  rewrite (wrap_small 32 (_ * 4)) by (unfold uint; lia).
  rewrite (wrap_small 32) by (unfold uint; lia).
  rewrite Z.add_simpl_r, Z.div_mul by lia. replace (Z.to_nat n) with (length l) by lia.
  assert (read_tmpSet (length l) body makeSet = Some (Some (list_to_set l))) as ->
    by (unfold body, makeSet; by rewrite read_tmpSet_all, union_empty_r_L by done).
  cbn [mbind option_bind].
  rewrite (proj2 (Z.ltb_ge _ _)) by (cbn [length]; rewrite length_app, Hbody, be32_length; lia).
  cbn [set_tmpSet sk_sparseList].
  replace (Z.to_nat (n * 4 + 8)) with (8 + 4 * length l)%nat by lia.
  rewrite <- drop_drop.
  change (drop 8 (version :: p :: 0 :: 1 :: be32 n ++ body)) with body.
  assert (drop (4 * length l) body = tail) as ->
    by (unfold body; by rewrite drop_app_length' by (by rewrite concat_be32_length)).
  unfold tail. rewrite compressedList_binary by done. done.
Qed.

Lemma Marshal_dense p m b regs :
  Sketch_MarshalBinary (mkSketch p m b nilSet None regs)
    = Some (version :: p :: 0 :: 0 :: be32 (Z.of_nat (length regs)) ++ map (wrap 8) regs).
Proof. done. Qed.

Lemma Unmarshal_dense p n regs : 4 <= p <= 18 →
  Sketch_UnmarshalBinary zero_Sketch (version :: p :: 0 :: 0 :: be32 n ++ regs)
    = Some (mkSketch p (1 <<[32] p) false nilSet None regs, None).
Proof.
  intros Hp. unfold Sketch_UnmarshalBinary. rewrite (proj2 (Nat.ltb_ge _ _)) by (simpl; lia).
  cbn [lookup list_lookup mbind option_bind zero_Sketch sk_p].
  rewrite (proj2 (Z.eqb_neq 0 p)) by lia. cbn [negb orb].
  unfold NewSketch. by rewrite (proj2 (Z.ltb_ge p 4)), (proj2 (Z.ltb_ge 18 p)) by lia.
Qed.

(** C31: a sketch survives the trip between vmestimator nodes.  Marshalling
    never panics, and unmarshalling the bytes into the fresh [Sketch{}] that gob
    allocates gives, without error, a sketch in the same (sparse or dense) form
    that represents the same hashes at the same precision. *)
Theorem Sketch_binary_roundtrip p X sk :
  sketch_repr p X sk →
  (∀ T : gset Z, sk_tmpSet sk = Some T → 4 * Z.of_nat (size T) + 8 < 2 ^ 32) →
  (∀ sl, sk_sparseList sk = Some sl → Z.of_nat (length (cl_b sl)) < 2 ^ 32) →
  ∃ bs sk', Sketch_MarshalBinary sk = Some bs ∧
            Sketch_UnmarshalBinary zero_Sketch bs = Some (sk', None) ∧
            sketch_repr p X sk' ∧ Sketch_Sparse sk' = Sketch_Sparse sk.
Proof.
  intros HR HT HL. pose proof HR as [Hp HX Ep Em HS]. destruct sk as [p' m b s sl regs].
  simpl in *. subst p' m. pose proof (shl_1_pow p ltac:(lia)) as Eshl.
  destruct HS as [(T & ks & ET & EL & Hs & EU & ER)|(ET & EL & Hmax)]; simpl in *; subst.
  - destruct (sparse_keys_uint p X T ks Hp HX EU) as [Hks HTk].
    rewrite Marshal_sparse. do 2 eexists. split; [done|].
    rewrite Unmarshal_sparse; [|done|..].
    + split; [done|]. split; [|done]. split; auto. left. exists T, ks.
      by rewrite list_to_set_iter_keys.
    + apply Forall_forall. intros k Hk. by apply HTk, iter_keys_elem.
    + rewrite iter_keys_length. by apply HT.
    + apply wrap_uint. lia.
    + simpl. destruct (last ks) as [k|] eqn:E; [|done].
      rewrite Forall_forall in Hks. by apply Hks, last_Some_elem_of.
    + by apply HL.
  - rewrite Marshal_dense. do 2 eexists. split; [done|]. rewrite Unmarshal_dense by done.
    split; [done|]. split; [|done]. split; auto. right. split_and!; try done. simpl.
    by rewrite (regs_bytes p X).
Qed.
End roundtrip.

Lemma Sketch_binary_roundtrip_witness :
  ∃ sk bs sk', Sketch_of_list 14 true [7; 2 ^ 63] = Some sk ∧
    Sketch_MarshalBinary sk = Some bs ∧ Sketch_UnmarshalBinary zero_Sketch bs = Some (sk', None) ∧
    sketch_repr 14 (list_to_set [7; 2 ^ 63]) sk'.
Proof.
  destruct (Sketch_of_list_repr 14 true [7; 2 ^ 63]) as (sk & E & HR).
  - lia.
  - repeat constructor; vm_compute; congruence.
  - destruct (Sketch_binary_roundtrip 14 _ sk HR) as (bs & sk' & E1 & E2 & HR' & _).
    + intros T ET. vm_compute in E. injection E as <-. injection ET as <-. vm_compute. congruence.
    + intros sl EL. vm_compute in E. injection E as <-. injection EL as <-. vm_compute. congruence.
    + exists sk, bs, sk'. exact (conj E (conj E1 (conj E2 HR'))).
Defined.
