(* ===== verification/Types.v ===== *)
(** * Types: the time series handed from the parser to the estimators

    The [Label] and [TimeSerie] of app/vmestimator/protoparser/write_request.go.
    Go strings are byte strings. *)
From S2P Require Import Prelude.

Record Label := mkLabel {
  Name : string;
  Value : string;
  (** the fingerprint of [Value], 0 when fingerprinting of labels is off *)
  LabelFingerprint : Z
}.

Record TimeSerie := mkTimeSerie {
  Labels : list Label;
  Fingerprint : Z
}.

#[export] Instance Label_eq_dec : EqDecision Label.
Proof. solve_decision. Defined.
#[export] Instance TimeSerie_eq_dec : EqDecision TimeSerie.
Proof. solve_decision. Defined.

(** The 64-bit xxHash of a byte string.  A digest is the string written to it
    so far; copying the digest copies that string. *)
Class Xxhash := { xxhash_Sum64 : string → Z }.
Class XxhashOk (X : Xxhash) : Prop := { xxhash_uint : ∀ s, uint 64 (xxhash_Sum64 s) }.
