(* ===== verification/Bloom.v ===== *)
(** * Bloom: the deduplicator's bloom filter

    Models [deduplicatorBloomFilter] of app/vmestimator/deduplicator.go: the
    bit array, [contains], [add] (first as one thread runs it, then as threads
    interleave their loads and compare-and-swaps), and [newBits]. *)
From S2P Require Import Prelude.

Definition hashesCount : Z := 4.
Definition bitsPerItem : Z := 16.

Record deduplicatorBloomFilter := mkBloom {
  bf_size : Z;
  bf_bits : list Z
}.

Definition newBits (maxItems : Z) : list Z :=
  let bitsCount := maxItems *[64] bitsPerItem in
  replicate (Z.to_nat ((bitsCount +[64] 63) / 64)) 0.
Definition newDeduplicatorBloomFilter (maxItems : Z) : deduplicatorBloomFilter :=
  mkBloom 0 (newBits (wrap 64 maxItems)).

Definition maxBits (bits : list Z) : Z := Z.of_nat (length bits) *[64] 64.

(** [idx := (h1 + i*h2) % maxBits]; the modulus by 0 panics. *)
Definition bloom_idx (bits : list Z) (h i : Z) : option Z :=
  if maxBits bits =? 0 then None
  else
    let h1 := h .& 0xFFFFFFFF in
    let h2 := h >> 32 in
    Some ((h1 +[64] (i *[64] h2)) mod maxBits bits).

(** [word := idx / 64; mask := uint64(1) << (idx % 64)]. *)
Definition bloom_word (idx : Z) : nat := Z.to_nat (idx / 64).
Definition bloom_mask (idx : Z) : Z := 1 <<[64] (idx mod 64).

Definition loop_indices : list Z := seqZ 0 hashesCount.

Fixpoint contains_loop (bits : list Z) (h : Z) (idxs : list Z) : option bool :=
  match idxs with
  | [] => Some true
  | i :: idxs' =>
      idx ← bloom_idx bits h i;
      w ← bits !! bloom_word idx;
      if w .& bloom_mask idx =? 0 then Some false else contains_loop bits h idxs'
  end.
Definition bloom_contains (f : deduplicatorBloomFilter) (h : Z) : option bool :=
  contains_loop (bf_bits f) h loop_indices.

(** One round of the loop of [add], without interference: the load sees the
    word the compare-and-swap then finds, so the swap succeeds. *)
Definition add_round (h : Z) (s : list Z * bool) (i : Z) : option (list Z * bool) :=
  let '(bits, isNew) := s in
  idx ← bloom_idx bits h i;
  w ← bits !! bloom_word idx;
  if w .& bloom_mask idx =? 0
  then Some (<[bloom_word idx := w .| bloom_mask idx]> bits, true)
  else Some (bits, isNew).
Definition bloom_add (f : deduplicatorBloomFilter) (h : Z)
    : option (deduplicatorBloomFilter * bool) :=
  '(bits, isNew) ← for_each (add_round h) loop_indices (bf_bits f, false);
  Some (mkBloom (if (isNew : bool) then bf_size f + 1 else bf_size f) bits, isNew).

(** ** Interleaved [add]s

    Each thread adds one hash; its program counter is in front of a load of
    round [i], between the load and the compare-and-swap, in front of
    [size.Add(1)], or at the end.  [add_step] is one atomic step. *)
Inductive add_pc :=
| AddLoad (i : Z)
| AddCas (i w : Z)
| AddSize
| AddDone.
Record add_thread := mkThread { th_hash : Z; th_pc : add_pc; th_isNew : bool }.

Definition set_pc (t : add_thread) (pc : add_pc) : add_thread :=
  mkThread (th_hash t) pc (th_isNew t).

Definition add_step (f : deduplicatorBloomFilter) (t : add_thread)
    : option (deduplicatorBloomFilter * add_thread) :=
  match th_pc t with
  | AddLoad i =>
      if i <? hashesCount then
        idx ← bloom_idx (bf_bits f) (th_hash t) i;
        w ← bf_bits f !! bloom_word idx;
        if w .& bloom_mask idx =? 0 then Some (f, set_pc t (AddCas i w))
        else Some (f, set_pc t (AddLoad (i + 1)))
      else Some (f, set_pc t (if th_isNew t then AddSize else AddDone))
  | AddCas i w =>
      idx ← bloom_idx (bf_bits f) (th_hash t) i;
      cur ← bf_bits f !! bloom_word idx;
      if cur =? w then
        Some (mkBloom (bf_size f) (<[bloom_word idx := w .| bloom_mask idx]> (bf_bits f)),
              mkThread (th_hash t) (AddLoad (i + 1)) true)
      else Some (f, set_pc t (AddLoad i))
  | AddSize => Some (mkBloom (bf_size f + 1) (bf_bits f), set_pc t AddDone)
  | AddDone => None
  end.

(** Any thread of the pool may take the next step. *)
Inductive pool_step : deduplicatorBloomFilter * list add_thread →
                      deduplicatorBloomFilter * list add_thread → Prop :=
| pool_step_one f ts j t f' t' :
    ts !! j = Some t → add_step f t = Some (f', t') →
    pool_step (f, ts) (f', <[j := t']> ts).

(** ** The array as a set of bits *)
Definition bits_ok (bits : list Z) : Prop :=
  0 < Z.of_nat (length bits) < 2 ^ 58 ∧ Forall (uint 64) bits.

Definition bit_at (bits : list Z) (idx : Z) : bool :=
  match bits !! bloom_word idx with
  | Some w => Z.testbit w (idx mod 64)
  | None => false
  end.

(** The index of round [i] for hash [h] in an array of [n] words. *)
Definition bidx (n : nat) (h i : Z) : Z :=
  (h mod 2 ^ 32 + i * (h / 2 ^ 32)) mod (Z.of_nat n * 64).

Definition all_set (bits : list Z) (h : Z) : Prop :=
  ∀ i, 0 <= i < hashesCount → bit_at bits (bidx (length bits) h i) = true.

Definition ones (bits : list Z) : gset Z :=
  list_to_set (filter (λ idx, bit_at bits idx = true) (seqZ 0 (Z.of_nat (length bits) * 64))).

Lemma bidx_range n h i : (0 < n)%nat → 0 <= bidx n h i < Z.of_nat n * 64.
Proof. intros. apply Z.mod_pos_bound. lia. Qed.

(** The double hashing never overflows 64 bits, and never divides by 0. *)
Lemma bloom_idx_spec bits h i : bits_ok bits → uint 64 h → 0 <= i < hashesCount →
  bloom_idx bits h i = Some (bidx (length bits) h i).
Proof.
  intros [Hlen _] Hh Hi. unfold hashesCount in Hi. destruct Hh.
  assert (maxBits bits = Z.of_nat (length bits) * 64) as E by (unfold maxBits; by gowrap).
  unfold bloom_idx, bidx. rewrite E, (proj2 (Z.eqb_neq _ 0)) by lia. do 2 f_equal.
  change 0xFFFFFFFF with (2 ^ 32 - 1). rewrite land_low, shr_div by lia.
  assert (0 <= h / 2 ^ 32 < 2 ^ 32)
    by (split; [apply Z.div_pos; lia|apply Z.div_lt_upper_bound; lia]).
  pose proof (Z.mod_pos_bound h (2 ^ 32) ltac:(lia)).
  assert (0 <= i * (h / 2 ^ 32) <= 3 * (h / 2 ^ 32)) by nia.
  by gowrap.
Qed.

Lemma bloom_word_lookup (bits : list Z) idx : 0 <= idx < Z.of_nat (length bits) * 64 →
  ∃ w, bits !! bloom_word idx = Some w.
Proof.
  intros. apply lookup_lt_is_Some_2. unfold bloom_word.
  assert (0 <= idx / 64 < Z.of_nat (length bits))
    by (split; [apply Z.div_pos; lia|apply Z.div_lt_upper_bound; lia]). lia.
Qed.

Lemma bloom_mask_pow2 idx : bloom_mask idx = 2 ^ (idx mod 64).
Proof.
  unfold bloom_mask. pose proof (Z.mod_pos_bound idx 64 ltac:(lia)).
  rewrite Z.shiftl_mul_pow2, Z.mul_1_l by lia.
  apply wrap_small. split; [apply Z.pow_nonneg; lia|apply Z.pow_lt_mono_r; lia].
Qed.

Lemma land_mask w idx : (w .& bloom_mask idx =? 0) = negb (Z.testbit w (idx mod 64)).
Proof.
  rewrite bloom_mask_pow2. pose proof (Z.mod_pos_bound idx 64 ltac:(lia)) as Hr.
  set (r := idx mod 64) in *. clearbody r. destruct (Z.testbit w r) eqn:E; simpl.
  - apply Z.eqb_neq. intros H. apply (f_equal (λ z, Z.testbit z r)) in H.
    rewrite Z.land_spec, Z.pow2_bits_true, E, Z.bits_0 in H by lia. done.
  - apply Z.eqb_eq, Z.bits_inj_0. intros i. rewrite Z.land_spec.
    destruct (decide (i = r)) as [->|]; [by rewrite E|].
    by rewrite Z.pow2_bits_false, andb_false_r by done.
Qed.

Lemma bit_at_lookup (bits : list Z) idx w : bits !! bloom_word idx = Some w →
  (w .& bloom_mask idx =? 0) = negb (bit_at bits idx).
Proof. intros E. unfold bit_at. by rewrite E, land_mask. Qed.

(** Setting a bit of a word of the array. *)
Lemma bit_at_set (bits : list Z) idx w idx' : 0 <= idx → 0 <= idx' →
  bits !! bloom_word idx = Some w →
  bit_at (<[bloom_word idx := w .| bloom_mask idx]> bits) idx' =
    (bit_at bits idx' || bool_decide (idx' = idx)).
Proof.
  intros H H' E. unfold bit_at. apply lookup_lt_Some in E as Hlt.
  assert (0 <= idx / 64 ∧ 0 <= idx' / 64) as [? ?] by (split; apply Z.div_pos; lia).
  pose proof (Z.div_mod idx 64 ltac:(lia)). pose proof (Z.div_mod idx' 64 ltac:(lia)).
  pose proof (Z.mod_pos_bound idx 64 ltac:(lia)). pose proof (Z.mod_pos_bound idx' 64 ltac:(lia)).
  destruct (decide (idx' / 64 = idx / 64)) as [Ew|Ew].
  - assert (bloom_word idx' = bloom_word idx) as -> by (unfold bloom_word; by rewrite Ew).
    rewrite list_lookup_insert_eq by done. rewrite E, Z.lor_spec, bloom_mask_pow2. f_equal.
    destruct (decide (idx' mod 64 = idx mod 64)) as [Er|Er].
    + rewrite Er, Z.pow2_bits_true by lia. by rewrite bool_decide_true by lia.
    + rewrite Z.pow2_bits_false by congruence. by rewrite bool_decide_false by congruence.
  - rewrite list_lookup_insert_ne by (unfold bloom_word; lia).
    by rewrite (bool_decide_false (idx' = idx)), orb_false_r by congruence.
Qed.

Lemma set_word_ok bits idx w : bits_ok bits → bits !! bloom_word idx = Some w →
  bits_ok (<[bloom_word idx := w .| bloom_mask idx]> bits).
Proof.
  intros [Hl Hf] E. split; [by rewrite length_insert|].
  apply Forall_insert; [done|]. rewrite Forall_forall in Hf.
  destruct (Hf w) as [? ?]; [by apply list_elem_of_lookup_2 in E|]. rewrite bloom_mask_pow2.
  pose proof (Z.mod_pos_bound idx 64 ltac:(lia)).
  assert (0 <= 2 ^ (idx mod 64) < 2 ^ 64)
    by (split; [apply Z.pow_nonneg; lia|apply Z.pow_lt_mono_r; lia]).
  split; [by apply Z.lor_nonneg; lia|].
  destruct (decide (w .| 2 ^ (idx mod 64) = 0)) as [->|Hne]; [lia|].
  apply Z.log2_lt_pow2; [assert (0 <= w .| 2 ^ (idx mod 64)) by (apply Z.lor_nonneg; lia); lia|].
  rewrite Z.log2_lor by lia. rewrite Z.log2_pow2 by lia.
  destruct (decide (w = 0)) as [->|]; [simpl; lia|]. apply Z.max_lub_lt; [|lia].
  apply Z.log2_lt_pow2; lia.
Qed.

Lemma elem_of_ones bits idx : idx ∈ ones bits ↔
  0 <= idx < Z.of_nat (length bits) * 64 ∧ bit_at bits idx = true.
Proof.
  unfold ones. rewrite elem_of_list_to_set, list_elem_of_filter, elem_of_seqZ. split; intros [? ?]; split; (done || lia).
Qed.

Lemma ones_set bits idx w : 0 <= idx < Z.of_nat (length bits) * 64 →
  bits !! bloom_word idx = Some w →
  ones (<[bloom_word idx := w .| bloom_mask idx]> bits) = {[idx]} ∪ ones bits.
Proof.
  intros H E. apply set_eq. intros idx'.
  rewrite elem_of_union, elem_of_singleton, !elem_of_ones, length_insert. split.
  - intros [Hr Hb]. rewrite (bit_at_set bits idx w idx') in Hb by (done || lia).
    apply orb_true_iff in Hb as [|Hb]; [by right|]. apply bool_decide_eq_true in Hb. by left.
  - intros [->|[Hr Hb]]; (split; [done|]); rewrite (bit_at_set bits idx w) by (done || lia).
    + rewrite bool_decide_true by done. apply orb_true_r.
    + by rewrite Hb.
Qed.

(** ** One thread *)
Definition bloom_ok (f : deduplicatorBloomFilter) : Prop := bits_ok (bf_bits f).

Definition positions (n : nat) (h : Z) (l : list Z) : gset Z := list_to_set (map (bidx n h) l).

Definition round_index (i : Z) : Prop := 0 <= i < hashesCount.

Lemma loop_indices_ok : Forall round_index loop_indices.
Proof. repeat constructor; vm_compute; congruence. Qed.

Lemma positions_all_set bits h : (0 < length bits)%nat →
  positions (length bits) h loop_indices ⊆ ones bits ↔ all_set bits h.
Proof.
  intros Hn. unfold positions, all_set. split.
  - intros H i Hi. apply (elem_of_ones bits (bidx (length bits) h i)), H.
    apply elem_of_list_to_set, list_elem_of_fmap. exists i. split; [done|]. by apply elem_of_seqZ.
  - intros H idx (i & -> & Hi%elem_of_seqZ)%elem_of_list_to_set%list_elem_of_fmap.
    apply elem_of_ones. split; [by apply bidx_range|apply H; lia].
Qed.

Lemma bits_ok_length bits : bits_ok bits → (0 < length bits)%nat.
Proof. intros [? _]. lia. Qed.

Lemma positions_nil n h (X : gset Z) : bool_decide (positions n h [] ⊆ X) = true.
Proof. apply bool_decide_eq_true. intros x Hx. by apply elem_of_empty in Hx. Qed.

Lemma contains_loop_spec bits h l : bits_ok bits → uint 64 h → Forall round_index l →
  contains_loop bits h l = Some (bool_decide (positions (length bits) h l ⊆ ones bits)).
Proof.
  intros Hb Hh Hl. pose proof (bits_ok_length bits Hb) as Hn.
  induction Hl as [|i l Hi _ IH]; [by rewrite positions_nil|].
  cbn [contains_loop]. rewrite bloom_idx_spec by done. cbn [mbind option_bind].
  pose proof (bidx_range (length bits) h i Hn) as Hr.
  destruct (bloom_word_lookup bits _ Hr) as [w E]. rewrite E. cbn [mbind option_bind].
  rewrite (bit_at_lookup bits _ w E). unfold positions. cbn [map list_to_set].
  assert (bidx (length bits) h i ∈ ones bits ↔ bit_at bits (bidx (length bits) h i) = true)
    as Hone by (rewrite elem_of_ones; tauto).
  destruct (bit_at bits _); simpl.
  - rewrite IH. f_equal. apply bool_decide_ext. unfold positions.
    rewrite union_subseteq, singleton_subseteq_l. tauto.
  - f_equal. symmetry. apply bool_decide_eq_false.
    rewrite union_subseteq, singleton_subseteq_l. intros [H _]. by apply Hone in H.
Qed.

Lemma add_rounds_spec h l bits b : bits_ok bits → uint 64 h → Forall round_index l →
  ∃ bits', for_each (add_round h) l (bits, b)
             = Some (bits', b || negb (bool_decide (positions (length bits) h l ⊆ ones bits))) ∧
    bits_ok bits' ∧ length bits' = length bits ∧
    ones bits' = positions (length bits) h l ∪ ones bits.
Proof.
  intros Hb Hh Hl. revert bits b Hb. induction Hl as [|i l Hi _ IH]; intros bits b Hb.
  { exists bits. rewrite positions_nil. simpl. rewrite orb_false_r. split_and!; try done.
    unfold positions. simpl. by rewrite union_empty_l_L. }
  pose proof (bits_ok_length bits Hb) as Hn. pose proof (bidx_range (length bits) h i Hn) as Hr.
  destruct (bloom_word_lookup bits _ Hr) as [w E].
  cbn [for_each add_round]. rewrite bloom_idx_spec by done. cbn [mbind option_bind].
  rewrite E. cbn [mbind option_bind]. rewrite (bit_at_lookup bits _ w E).
  assert (bidx (length bits) h i ∈ ones bits ↔ bit_at bits (bidx (length bits) h i) = true)
    as Hone by (rewrite elem_of_ones; tauto).
  assert (positions (length bits) h (i :: l) =
            {[bidx (length bits) h i]} ∪ positions (length bits) h l) as Hpos by done.
  destruct (bit_at bits _) eqn:Ebit; simpl.
  - destruct (IH bits b Hb) as (bits' & -> & Hb' & Hlen & Hones). exists bits'.
    split_and!; try done; rewrite Hpos.
    + do 4 f_equal. apply bool_decide_ext. rewrite union_subseteq, singleton_subseteq_l. tauto.
    + rewrite Hones. assert (bidx (length bits) h i ∈ ones bits) by tauto.
      rewrite <- union_assoc_L. symmetry. apply subseteq_union_1_L, singleton_subseteq_l.
      by apply elem_of_union_r.
  - set (bits1 := <[_ := _]> bits).
    assert (length bits1 = length bits) as Hlen1 by apply length_insert.
    destruct (IH bits1 true) as (bits' & E' & Hb' & Hlen & Hones); [by apply set_word_ok|].
    exists bits'. simpl in E'. rewrite E'. split_and!; [|done|congruence|].
    + do 3 f_equal. replace (bool_decide _) with false; [by rewrite orb_true_r|].
      symmetry. apply bool_decide_eq_false. rewrite Hpos, union_subseteq, singleton_subseteq_l.
      intros [H _]. by apply Hone in H.
    + rewrite Hones, Hlen1, Hpos. unfold bits1. rewrite (ones_set bits _ w) by done.
      by rewrite union_assoc_L, (union_comm_L (positions _ _ _)).
Qed.

Lemma bloom_contains_spec f h : bloom_ok f → uint 64 h →
  bloom_contains f h =
    Some (bool_decide (positions (length (bf_bits f)) h loop_indices ⊆ ones (bf_bits f))).
Proof. intros. by apply contains_loop_spec, loop_indices_ok. Qed.

Lemma bloom_add_positions f h : bloom_ok f → uint 64 h →
  ∃ f' isNew, bloom_add f h = Some (f', isNew) ∧ bloom_ok f' ∧
    length (bf_bits f') = length (bf_bits f) ∧
    ones (bf_bits f') = positions (length (bf_bits f)) h loop_indices ∪ ones (bf_bits f) ∧
    isNew = negb (bool_decide (positions (length (bf_bits f)) h loop_indices ⊆ ones (bf_bits f))) ∧
    bf_size f' = bf_size f + Z.b2z isNew.
Proof.
  intros Hf Hh. unfold bloom_add.
  destruct (add_rounds_spec h loop_indices (bf_bits f) false Hf Hh loop_indices_ok)
    as (bits' & -> & Hb' & Hlen & Hones). simpl.
  do 2 eexists. split; [done|]. split_and!; try done. simpl. destruct (bool_decide _); simpl; lia.
Qed.

(** The filter has no false negatives, and [add] reports novelty exactly.
    On a well-formed filter neither [contains] nor [add] panics; after
    [add h] the filter contains [h] and everything it contained before; [add]
    returns true, and the size grows by one, exactly when [h] was not
    contained before. *)
Theorem bloom_add_spec f h : bloom_ok f → uint 64 h →
  ∃ f' was, bloom_contains f h = Some was ∧ bloom_add f h = Some (f', negb was) ∧ bloom_ok f' ∧
    bf_size f' = bf_size f + Z.b2z (negb was) ∧
    bloom_contains f' h = Some true ∧
    ∀ g, uint 64 g → bloom_contains f g = Some true → bloom_contains f' g = Some true.
Proof.
  intros Hf Hh. destruct (bloom_add_positions f h Hf Hh) as (f' & isNew & E & Hf' & Hlen & Hones & Hn & Hs).
  exists f', (bool_decide (positions (length (bf_bits f)) h loop_indices ⊆ ones (bf_bits f))).
  subst isNew. split_and!; try done; [by apply bloom_contains_spec| |].
  - rewrite bloom_contains_spec by done. f_equal. apply bool_decide_eq_true.
    rewrite Hlen, Hones. apply union_subseteq_l.
  - intros g Hg. rewrite !bloom_contains_spec by done. intros [= H%bool_decide_eq_true]. f_equal.
    apply bool_decide_eq_true. rewrite Hlen, Hones. etrans; [done|apply union_subseteq_r].
Qed.

Lemma newBits_ok n : 0 < n < 2 ^ 50 → bits_ok (newBits n) ∧ Z.of_nat (length (newBits n)) * 64 >= n * 16.
Proof.
  intros Hn. unfold newBits, bits_ok, bitsPerItem. rewrite length_replicate. gowrap.
  assert ((n * 16 + 63) / 64 * 64 <= n * 16 + 63 < (n * 16 + 63) / 64 * 64 + 64).
  { pose proof (Z.div_mod (n * 16 + 63) 64). pose proof (Z.mod_pos_bound (n * 16 + 63) 64). lia. }
  rewrite Z2Nat.id by lia. split; [|lia]. split; [lia|].
  apply Forall_replicate. split; [lia|reflexivity].
Qed.

Lemma ones_replicate n : ones (replicate n 0) = ∅.
Proof.
  apply set_eq. intros idx. rewrite elem_of_ones. split; [|intros H; by apply elem_of_empty in H].
  intros [_ H]. unfold bit_at in H. destruct (replicate n 0 !! bloom_word idx) eqn:E; [|done].
  apply lookup_replicate in E as [-> _]. by rewrite Z.bits_0 in H.
Qed.

(** ** Many threads *)
Definition new_thread (h : Z) : add_thread := mkThread h (AddLoad 0) false.

(** What the thread at [pc] has already made sure of. *)
Definition rounds_done (pc : add_pc) : list Z :=
  match pc with
  | AddLoad i | AddCas i _ => seqZ 0 i
  | AddSize | AddDone => loop_indices
  end.
Definition pc_ok (pc : add_pc) : Prop :=
  match pc with
  | AddLoad i => 0 <= i <= hashesCount
  | AddCas i _ => 0 <= i < hashesCount
  | AddSize | AddDone => True
  end.
Definition thread_ok (f : deduplicatorBloomFilter) (t : add_thread) : Prop :=
  uint 64 (th_hash t) ∧ pc_ok (th_pc t) ∧
  positions (length (bf_bits f)) (th_hash t) (rounds_done (th_pc t)) ⊆ ones (bf_bits f).

Record bloom_le (f f' : deduplicatorBloomFilter) : Prop := {
  le_ok : bloom_ok f';
  le_len : length (bf_bits f') = length (bf_bits f);
  le_ones : ones (bf_bits f) ⊆ ones (bf_bits f')
}.

Lemma bloom_le_refl f : bloom_ok f → bloom_le f f.
Proof. by split. Qed.

Lemma bloom_le_trans f1 f2 f3 : bloom_le f1 f2 → bloom_le f2 f3 → bloom_le f1 f3.
Proof. intros [? ? ?] [? ? ?]. split; [done|congruence|by etrans]. Qed.

Lemma bloom_le_size f n : bloom_ok f → bloom_le f (mkBloom n (bf_bits f)).
Proof. by split. Qed.

Lemma thread_ok_le f f' t : bloom_le f f' → thread_ok f t → thread_ok f' t.
Proof. intros [_ Hl Ho] (? & ? & H). split_and!; try done. rewrite Hl. by etrans. Qed.

Lemma positions_snoc n h i : 0 <= i →
  positions n h (seqZ 0 (i + 1)) = {[bidx n h i]} ∪ positions n h (seqZ 0 i).
Proof.
  intros. unfold positions. rewrite seqZ_app by lia. simpl.
  rewrite map_app, list_to_set_app_L. simpl. by rewrite union_empty_r_L, union_comm_L.
Qed.

Lemma add_step_cas f h i w : bloom_ok f → uint 64 h → 0 <= i < hashesCount →
  let idx := bidx (length (bf_bits f)) h i in
  bloom_idx (bf_bits f) h i = Some idx ∧ is_Some (bf_bits f !! bloom_word idx) ∧
  (bf_bits f !! bloom_word idx = Some w →
   bloom_le f (mkBloom (bf_size f) (<[bloom_word idx := w .| bloom_mask idx]> (bf_bits f))) ∧
   ones (<[bloom_word idx := w .| bloom_mask idx]> (bf_bits f)) = {[idx]} ∪ ones (bf_bits f)).
Proof.
  intros Hf Hh Hi. cbv zeta. pose proof (bidx_range _ h i (bits_ok_length _ Hf)) as Hr.
  split; [by apply bloom_idx_spec|]. split; [by destruct (bloom_word_lookup _ _ Hr); eauto|].
  intros E. pose proof (ones_set _ _ w Hr E) as Ho. split; [|done].
  split; simpl; [by apply set_word_ok|apply length_insert|]. rewrite Ho. apply union_subseteq_r.
Qed.

(** One atomic step never panics before the thread is done, never clears a
    bit, and keeps what the thread has made sure of. *)
Lemma add_step_ok f t : bloom_ok f → thread_ok f t → th_pc t ≠ AddDone →
  ∃ f' t', add_step f t = Some (f', t') ∧ bloom_le f f' ∧ thread_ok f' t' ∧ th_hash t' = th_hash t.
Proof.
  intros Hf (Hh & Hpc & Hpos) Hd. destruct t as [h pc b]. simpl in *. unfold add_step. simpl.
  destruct pc as [i|i w| |]; simpl in *; [| | |done].
  - destruct (Z.ltb_spec i hashesCount) as [Hlt|Hge].
    + destruct (add_step_cas f h i 0 Hf Hh ltac:(lia)) as (-> & [w E] & _). simpl. rewrite E. simpl.
      rewrite (bit_at_lookup _ _ w E). destruct (bit_at _ _) eqn:Eb; simpl; do 2 eexists.
      * split; [done|]. split; [by apply bloom_le_refl|]. split; [|done]. split_and!; simpl; [done|lia|].
        rewrite positions_snoc by lia. apply union_subseteq. split; [|done].
        apply singleton_subseteq_l, elem_of_ones. split; [apply bidx_range, bits_ok_length, Hf|done].
      * split; [done|]. split; [by apply bloom_le_refl|]. split; [|done]. by split_and!; simpl; [|lia|].
    + assert (i = hashesCount) as -> by lia. do 2 eexists. split; [done|].
      split; [by apply bloom_le_refl|]. split; [|done]. by destruct b.
  - destruct (add_step_cas f h i w Hf Hh Hpc) as (-> & [cur E] & Hset). simpl. rewrite E. simpl.
    destruct (Z.eqb_spec cur w) as [->|].
    + destruct (Hset E) as [Hle Hones]. do 2 eexists. split; [done|]. split; [done|].
      split; [|done]. split_and!; simpl; [done|lia|].
      rewrite length_insert, Hones, positions_snoc by lia. by apply union_mono_l.
    + do 2 eexists. split; [done|]. split; [by apply bloom_le_refl|]. split; [|done].
      by split_and!; simpl; [|lia|].
  - do 2 eexists. split; [done|]. split; [by apply bloom_le_size|]. done.
Qed.

Definition pool_ok (hs : list Z) (f0 : deduplicatorBloomFilter)
    (s : deduplicatorBloomFilter * list add_thread) : Prop :=
  bloom_le f0 s.1 ∧ map th_hash s.2 = hs ∧ Forall (thread_ok s.1) s.2.

Lemma pool_step_ok hs f0 s s' : pool_ok hs f0 s → pool_step s s' → pool_ok hs f0 s'.
Proof.
  intros (Hle & Hhs & Hts) Hstep. destruct Hstep as [f ts j t f' t' Ej Es]. simpl in *.
  assert (thread_ok f t) as Ht by (rewrite Forall_forall in Hts; by eapply Hts, list_elem_of_lookup_2).
  assert (th_pc t ≠ AddDone) as Hd by (intros E; unfold add_step in Es; by rewrite E in Es).
  destruct (add_step_ok f t (le_ok _ _ Hle) Ht Hd) as (f1 & t1 & Es1 & Hle1 & Ht1 & Hh).
  rewrite Es in Es1. simplify_eq. split_and!; simpl.
  - by eapply bloom_le_trans.
  - rewrite list_fmap_insert. apply list_insert_id. rewrite list_lookup_fmap, Ej. simpl. by rewrite Hh.
  - apply Forall_insert; [|done]. eapply Forall_impl; [done|]. intros. by eapply thread_ok_le.
Qed.

(** C27: lock-free inserts lose nothing.  However the loads and
    compare-and-swaps of any number of concurrent [add]s interleave, no step
    panics, a thread that has not returned can always take its next step, a
    hash whose [add] has returned is contained, and so is everything that was
    contained before. *)
Theorem concurrent_add_no_false_negative f hs f' ts' :
  bloom_ok f → Forall (uint 64) hs →
  rtc pool_step (f, map new_thread hs) (f', ts') →
  map th_hash ts' = hs ∧
  (∀ t, t ∈ ts' → th_pc t ≠ AddDone → is_Some (add_step f' t)) ∧
  (∀ t, t ∈ ts' → th_pc t = AddDone → bloom_contains f' (th_hash t) = Some true) ∧
  (∀ g, uint 64 g → bloom_contains f g = Some true → bloom_contains f' g = Some true).
Proof.
  intros Hf Hhs Hrun.
  assert (pool_ok hs f (f', ts')) as (Hle & Hhs' & Hts).
  { assert (pool_ok hs f (f, map new_thread hs)) as H0.
    { split_and!; simpl; [by apply bloom_le_refl|by rewrite map_map, map_id|].
      apply Forall_map. eapply Forall_impl; [done|]. intros h Hh. split_and!; simpl; [done|done|].
      intros x Hx. by apply elem_of_empty in Hx. }
    remember (f, map new_thread hs) as s0 eqn:E. remember (f', ts') as s1 eqn:E1.
    clear E E1. induction Hrun; [done|]. eauto using pool_step_ok. }
  simpl in *. pose proof (le_ok _ _ Hle) as Hf'. rewrite Forall_forall in Hts. split_and!; [done|..].
  - intros t Ht Hd. destruct (add_step_ok f' t Hf' (Hts t Ht) Hd) as (? & ? & -> & _). eauto.
  - intros t Ht Hd. destruct (Hts t Ht) as (Hh & _ & Hpos). rewrite Hd in Hpos.
    rewrite bloom_contains_spec by done. f_equal. by apply bool_decide_eq_true.
  - intros g Hg. rewrite !bloom_contains_spec by done. intros [= H%bool_decide_eq_true]. f_equal.
    apply bool_decide_eq_true. rewrite (le_len _ _ Hle). etrans; [done|apply (le_ones _ _ Hle)].
Qed.

(** A schedule names the thread that takes each step. *)
Definition pool_run (sched : list nat) (s : deduplicatorBloomFilter * list add_thread)
    : option (deduplicatorBloomFilter * list add_thread) :=
  for_each (λ '(f, ts) j,
    t ← ts !! j; '(f', t') ← add_step f t; Some (f', <[j := t']> ts)) sched s.

Lemma pool_run_rtc sched s s' : pool_run sched s = Some s' → rtc pool_step s s'.
Proof.
  revert s. induction sched as [|j sched IH]; intros [f ts] E; [by injection E as <-|].
  unfold pool_run in E. simpl in E. destruct (ts !! j) as [t|] eqn:Ej; [|done]. simpl in E.
  destruct (add_step f t) as [[f1 t1]|] eqn:Es; [|done]. simpl in E.
  eapply rtc_l; [by econstructor|]. by apply IH.
Qed.

Lemma bloom_add_spec_witness :
  ∃ f' was, bloom_contains (newDeduplicatorBloomFilter 8) 77 = Some was ∧
    bloom_add (newDeduplicatorBloomFilter 8) 77 = Some (f', negb was) ∧
    bloom_contains f' 77 = Some true.
Proof.
  destruct (bloom_add_spec (newDeduplicatorBloomFilter 8) 77) as (f' & was & E1 & E2 & _ & _ & E3 & _).
  - split; [vm_compute; split; congruence|repeat constructor; vm_compute; congruence].
  - vm_compute. split; congruence.
  - exists f', was. exact (conj E1 (conj E2 E3)).
Defined.

(** Two threads race on the same word: the second one's first swap fails. *)
Lemma concurrent_add_no_false_negative_witness :
  ∃ f' ts', pool_run ([0; 1; 0; 1]%nat ++ replicate 5 0%nat ++ replicate 7 1%nat)
              (newDeduplicatorBloomFilter 4, map new_thread [5; 6]) = Some (f', ts') ∧
    (∀ t, t ∈ ts' → th_pc t = AddDone → bloom_contains f' (th_hash t) = Some true).
Proof.
  destruct (pool_run _ _) as [[f' ts']|] eqn:E; [|vm_compute in E; discriminate E].
  exists f', ts'. split; [done|].
  apply (concurrent_add_no_false_negative (newDeduplicatorBloomFilter 4) [5; 6] f' ts').
  - split; [vm_compute; split; congruence|repeat constructor; vm_compute; congruence].
  - repeat constructor; vm_compute; congruence.
  - by eapply pool_run_rtc.
Defined.
