(* ===== verification/Dedup.v ===== *)
(** * Dedup: the deduplicator

    Models app/vmestimator/deduplicator.go above the bloom filter: the sizing
    from flags, [newDeduplicator], [filter] (also in place, the way main.go
    calls it with [tss[:0]] as destination), [Reset], and the rotation that
    replaces one of the ten filters every tenth of the interval. *)
From Stdlib Require Import Ascii String.
From S2P Require Import Prelude GoFloat GoText Types Bloom.
Local Open Scope Z_scope.

Definition second : Z := 1000000000.
Definition deduplicationMinMaxSize : Z := 9999.
Definition deduplicationMinInterval : Z := 30 * second.

Definition convertDeduplicatorMaxSizeBytesToItems (bytes : Z) : Z :=
  Z.quot (wrapS 64 (bytes * 8)) bitsPerItem.

(** The flags [-deduplication.maxSizeBytes] and [-deduplication.maxSize], and
    [memory.Allowed()]. *)
Definition resolveDeduplicatorMaxSize (maxSizeBytes maxSize allowed : Z) : Z :=
  let fromBytes :=
    if 0 <? maxSizeBytes then convertDeduplicatorMaxSizeBytesToItems maxSizeBytes else 0 in
  let fromCount := maxSize in
  if (0 <? fromBytes) && (0 <? fromCount) then Z.min fromBytes fromCount
  else if 0 <? fromBytes then fromBytes
  else if 0 <? fromCount then fromCount
  else convertDeduplicatorMaxSizeBytesToItems
         (default 0 (ftrunc (fmul (float_of_Z allowed) (decimal 5 2)))).

(** The two global counters are kept next to the state they describe. *)
Record deduplicator := mkDeduplicator {
  dd_maxSize : Z;
  dd_interval : Z;
  dd_bucketMaxSize : Z;
  dd_bfs : list deduplicatorBloomFilter;
  dd_passedTotal : Z;
  dd_droppedTotal : Z
}.

Definition set_bfs (d : deduplicator) (bfs : list deduplicatorBloomFilter) : deduplicator :=
  mkDeduplicator (dd_maxSize d) (dd_interval d) (dd_bucketMaxSize d) bfs
    (dd_passedTotal d) (dd_droppedTotal d).

Definition newDeduplicator (maxSize interval : Z) : option deduplicator :=
  if maxSize <=? deduplicationMinMaxSize then None
  else if interval <=? deduplicationMinInterval then None
  else
    let bucketMaxSize := Z.quot maxSize 10 in
    Some (mkDeduplicator maxSize interval bucketMaxSize
            (replicate 10 (newDeduplicatorBloomFilter bucketMaxSize)) 0 0).

(** The part of [main] that starts the deduplicator: [Ok None] when it is
    disabled, an error for [logger.Fatalf], a panic for a panic. *)
Definition startDeduplicator (maxSize interval : Z) : option (result (option deduplicator)) :=
  if 0 <? interval then
    if maxSize <=? deduplicationMinMaxSize then
      Some (Error ("deduplicator maxSize must be greater than " +:+ dec maxSize +:+ "; got " +:+
        dec deduplicationMinMaxSize +:+ ". Set -deduplication.maxSize or -deduplication.maxSizeBytes")%string)
    else if interval <? deduplicationMinInterval then
      Some (Error ("deduplication interval must be greater than " +:+
        Duration_String deduplicationMinInterval +:+ "; got " +:+ Duration_String interval)%string)
    else d ← newDeduplicator maxSize interval; Some (Ok (Some d))
  else Some (Ok None).

(** One round of the loop of [filter]: is the series passed on? *)
Definition filter_one (d : deduplicator) (ts : TimeSerie) : option (deduplicator * bool) :=
  let h := Fingerprint ts in
  let k := Z.to_nat (h mod 10) in
  bf ← dd_bfs d !! k;
  contained ← bloom_contains bf h;
  if (contained : bool) then
    Some (mkDeduplicator (dd_maxSize d) (dd_interval d) (dd_bucketMaxSize d) (dd_bfs d)
            (dd_passedTotal d) (dd_droppedTotal d + 1), false)
  else
    bf ← (if bf_size bf <? dd_bucketMaxSize d then fst <$> bloom_add bf h else Some bf);
    Some (mkDeduplicator (dd_maxSize d) (dd_interval d) (dd_bucketMaxSize d)
            (<[k := bf]> (dd_bfs d)) (dd_passedTotal d + 1) (dd_droppedTotal d), true).

Definition deduplicator_filter (d : deduplicator) (src dst : list TimeSerie)
    : option (deduplicator * list TimeSerie) :=
  for_each (λ '(d, dst) ts,
    '(d, pass) ← filter_one d ts;
    Some (d, if (pass : bool) then dst ++ [ts] else dst)) src (d, dst).

(** [filter(tss, tss[:0])]: source and destination are one array, [n] is
    [len(dst)]; the element read in round [i] is the one in the array then. *)
Definition deduplicator_filter_inplace (d : deduplicator) (arr : list TimeSerie)
    : option (deduplicator * list TimeSerie) :=
  '(d, arr, n) ← for_each (λ '(d, arr, n) i,
      ts ← arr !! i;
      '(d, pass) ← filter_one d ts;
      Some (if (pass : bool) then (d, <[n := ts]> arr, S n) else (d, arr, n)))
    (seq 0 (length arr)) (d, arr, 0%nat);
  Some (d, take n arr).

Definition deduplicator_Reset (d : deduplicator) : deduplicator :=
  set_bfs d (replicate (length (dd_bfs d)) (newDeduplicatorBloomFilter (dd_bucketMaxSize d))).

(** ** Rotation

    Times are nanoseconds since the Unix epoch.  [Time.Truncate] rounds down to
    a multiple of the duration since the zero time, January 1 of year 1. *)
Definition zero_time_offset : Z := 62135596800 * second.
Definition Time_Truncate (t d : Z) : Z :=
  if d <=? 0 then t else t - (t + zero_time_offset) mod d.

(** The next boundary after [now], and the filter replaced at it. *)
Definition rotation_boundary (d : deduplicator) (now : Z) : Z :=
  let bucketDur := Z.quot (dd_interval d) 10 in Time_Truncate now bucketDur + bucketDur.
Definition rotation_idx (d : deduplicator) (boundary : Z) : Z :=
  Z.rem (Z.quot boundary (Z.quot (dd_interval d) 10)) 10.
Definition deduplicator_rotate (d : deduplicator) (now : Z) : option deduplicator :=
  let idx := rotation_idx d (rotation_boundary d now) in
  if idx <? 0 then None
  else
    _ ← dd_bfs d !! Z.to_nat idx;
    Some (set_bfs d (<[Z.to_nat idx := newDeduplicatorBloomFilter (dd_bucketMaxSize d)]> (dd_bfs d))).

(** What can happen to the deduplicator: a batch arrives, a rotation fires, a
    reload resets it. *)
Inductive dedup_step : deduplicator → deduplicator → Prop :=
| step_filter d src d' out :
    Forall (λ ts, uint 64 (Fingerprint ts)) src →
    deduplicator_filter d src [] = Some (d', out) → dedup_step d d'
| step_rotate d now d' :
    0 <= now → deduplicator_rotate d now = Some d' → dedup_step d d'
| step_reset d : dedup_step d (deduplicator_Reset d).

(** ** The filters stay well below saturation *)
Record bucket_ok (M : Z) (f : deduplicatorBloomFilter) : Prop := {
  bucket_bloom : bloom_ok f;
  bucket_len : M * bitsPerItem <= Z.of_nat (length (bf_bits f)) * 64;
  bucket_size : 0 <= bf_size f <= M;
  bucket_ones : Z.of_nat (size (ones (bf_bits f))) <= hashesCount * bf_size f
}.

Record dd_ok (d : deduplicator) : Prop := {
  dd_ten : length (dd_bfs d) = 10%nat;
  dd_M : 0 < dd_bucketMaxSize d < 2 ^ 50;
  dd_buckets : Forall (bucket_ok (dd_bucketMaxSize d)) (dd_bfs d)
}.

Lemma new_bucket_ok M : 0 < M < 2 ^ 50 → bucket_ok M (newDeduplicatorBloomFilter M).
Proof.
  intros HM. unfold newDeduplicatorBloomFilter. gowrap. destruct (newBits_ok M HM) as [Hb Hl].
  split; simpl; [done|unfold bitsPerItem; lia|lia|].
  unfold newBits. rewrite ones_replicate, size_empty. unfold hashesCount. lia.
Qed.

Lemma positions_size n h : Z.of_nat (size (positions n h loop_indices)) <= hashesCount.
Proof.
  unfold positions. etrans; [apply inj_le, size_list_to_set_le|]. by vm_compute.
Qed.

Lemma bucket_add M f h : bucket_ok M f → uint 64 h → bf_size f < M →
  bloom_contains f h = Some false →
  ∃ f', bloom_add f h = Some (f', true) ∧ bucket_ok M f' ∧ bf_size f' = bf_size f + 1 ∧
    bloom_contains f' h = Some true ∧
    ∀ g, uint 64 g → bloom_contains f g = Some true → bloom_contains f' g = Some true.
Proof.
  intros Hf Hh Hlt Hc. destruct Hf as [Hb Hl Hs Ho].
  destruct (bloom_add_positions f h Hb Hh) as (f' & isNew & E & Hf' & Hlen & Hones & Hn & Hsz).
  rewrite (bloom_contains_spec f h) in Hc by done. injection Hc as Hc. rewrite Hc in Hn.
  subst isNew. simpl in *. exists f'. split_and!; [done| |done| |].
  - split; [done|congruence|lia|]. rewrite Hones, Hsz.
    pose proof (positions_size (length (bf_bits f)) h).
    pose proof (size_union_le (positions (length (bf_bits f)) h loop_indices) (ones (bf_bits f))).
    unfold hashesCount in *. lia.
  - rewrite bloom_contains_spec by done. f_equal. apply bool_decide_eq_true.
    rewrite Hlen, Hones. apply union_subseteq_l.
  - intros g Hg. rewrite !bloom_contains_spec by done. intros [= H%bool_decide_eq_true]. f_equal.
    apply bool_decide_eq_true. rewrite Hlen, Hones. etrans; [done|apply union_subseteq_r].
Qed.

(** ** What the deduplicator remembers *)
Definition bucket_of (d : deduplicator) (h : Z) : option deduplicatorBloomFilter :=
  dd_bfs d !! Z.to_nat (h mod 10).
Definition seen (d : deduplicator) (h : Z) : Prop :=
  ∃ f, bucket_of d h = Some f ∧ bloom_contains f h = Some true.
Definition has_room (d : deduplicator) (h : Z) : Prop :=
  ∃ f, bucket_of d h = Some f ∧ bf_size f < dd_bucketMaxSize d.

Lemma dd_bucket_index h : (Z.to_nat (h mod 10) < 10)%nat.
Proof. pose proof (Z.mod_pos_bound h 10). lia. Qed.

Lemma dd_lookup d h : dd_ok d → ∃ f, bucket_of d h = Some f ∧ bucket_ok (dd_bucketMaxSize d) f.
Proof.
  intros [Hl _ Hf]. unfold bucket_of.
  destruct (lookup_lt_is_Some_2 (dd_bfs d) (Z.to_nat (h mod 10))) as [f E].
  { rewrite Hl. apply dd_bucket_index. }
  exists f. split; [done|]. rewrite Forall_lookup in Hf. eauto.
Qed.

#[export] Instance seen_dec d h : Decision (seen d h).
Proof.
  refine (match bucket_of d h as o return bucket_of d h = o → _ with
          | Some f => λ E, if decide (bloom_contains f h = Some true) then left _ else right _
          | None => λ E, right _
          end eq_refl).
  - by exists f.
  - intros (f' & E' & H). rewrite E in E'. by simplify_eq.
  - intros (f' & E' & H). by rewrite E in E'.
Defined.

(** [d'] remembers at least what [d] does, has the same configuration, and no
    more room. *)
Record dd_le (d d' : deduplicator) : Prop := {
  dd_le_ok : dd_ok d';
  dd_le_M : dd_bucketMaxSize d' = dd_bucketMaxSize d;
  dd_le_seen : ∀ g, uint 64 g → seen d g → seen d' g;
  dd_le_room : ∀ g, has_room d' g → has_room d g
}.

Lemma dd_le_refl d : dd_ok d → dd_le d d.
Proof. by split. Qed.

Lemma dd_le_trans d1 d2 d3 : dd_le d1 d2 → dd_le d2 d3 → dd_le d1 d3.
Proof. intros [? ? ? ?] [? ? ? ?]. split; [done|congruence|eauto|eauto]. Qed.

Lemma contains_total M f h : bucket_ok M f → uint 64 h → ∃ b, bloom_contains f h = Some b.
Proof. intros [Hb _ _ _] Hh. rewrite bloom_contains_spec by done. eauto. Qed.

(** One round of [filter]. *)
Lemma filter_one_ok d ts : dd_ok d → uint 64 (Fingerprint ts) →
  ∃ d', filter_one d ts = Some (d', negb (bool_decide (seen d (Fingerprint ts)))) ∧ dd_le d d' ∧
    dd_passedTotal d' = dd_passedTotal d + Z.b2z (negb (bool_decide (seen d (Fingerprint ts)))) ∧
    dd_droppedTotal d' = dd_droppedTotal d + Z.b2z (bool_decide (seen d (Fingerprint ts))) ∧
    (has_room d (Fingerprint ts) → seen d' (Fingerprint ts)).
Proof.
  set (h := Fingerprint ts). intros Hd Hh. destruct (dd_lookup d h Hd) as (f & E & Hf).
  destruct (contains_total _ f h Hf Hh) as [b Hb].
  unfold filter_one. fold h. unfold bucket_of in E. rewrite E. simpl. rewrite Hb. simpl.
  assert (b = bool_decide (seen d h)) as ->.
  { symmetry. destruct b; [apply bool_decide_eq_true; by exists f|].
    apply bool_decide_eq_false. intros (f' & E' & H'). unfold bucket_of in E'. simplify_eq. }
  destruct (decide (seen d h)) as [Hs|Hs].
  { rewrite bool_decide_true in * by done. eexists. split; [done|]. split_and!; simpl; [|lia|lia|done].
    destruct Hd. by split. }
  rewrite bool_decide_false in * by done. destruct Hd as [Hten HM Hall].
  destruct (Z.ltb_spec (bf_size f) (dd_bucketMaxSize d)) as [Hlt|Hge].
  - destruct (bucket_add _ f h Hf Hh Hlt Hb) as (f' & -> & Hf' & Hsz & Hc & Hmono). simpl.
    eexists. split; [done|].
    assert (∀ g, bucket_of (mkDeduplicator (dd_maxSize d) (dd_interval d) (dd_bucketMaxSize d)
              (<[Z.to_nat (h mod 10):=f']> (dd_bfs d)) (dd_passedTotal d + 1) (dd_droppedTotal d)) g
              = if decide (Z.to_nat (h mod 10) = Z.to_nat (g mod 10)) then Some f' else bucket_of d g) as Hlk.
    { intros g. unfold bucket_of. simpl. destruct (decide _) as [<-|].
      - apply list_lookup_insert_eq. by eapply lookup_lt_Some.
      - by apply list_lookup_insert_ne. }
    split_and!; simpl; [|lia|lia|].
    + split; [split; simpl; [by rewrite length_insert|done|by apply Forall_insert]|done|..].
      * intros g Hg (f0 & E0 & H0). unfold seen. rewrite Hlk. destruct (decide _) as [Eh|]; [|by exists f0].
        exists f'. split; [done|]. apply Hmono; [done|]. unfold bucket_of in E0. rewrite <- Eh, E in E0. by simplify_eq.
      * intros g (f0 & E0 & H0). rewrite Hlk in E0. unfold has_room. destruct (decide _) as [Eh|]; [|by exists f0].
        simplify_eq. exists f. unfold bucket_of. rewrite <- Eh. simpl in H0. split; [done|lia].
    + intros _. exists f'. rewrite Hlk, decide_True by done. done.
  - simpl. rewrite (list_insert_id _ _ _ E). eexists. split; [done|]. split_and!; simpl; [|lia|lia|].
    + by split.
    + intros (f0 & E0 & H0). unfold bucket_of in E0. simplify_eq. lia.
Qed.

(** The state of the loop after the series [done_]. *)
Record filter_inv (d0 : deduplicator) (done_ : list TimeSerie)
    (d : deduplicator) (out : list TimeSerie) : Prop := {
  fi_le : dd_le d0 d;
  fi_sub : out `sublist_of` done_;
  fi_passed : dd_passedTotal d = dd_passedTotal d0 + Z.of_nat (length out);
  fi_dropped : dd_droppedTotal d =
    dd_droppedTotal d0 + Z.of_nat (length done_) - Z.of_nat (length out);
  fi_fresh : ∀ ts, ts ∈ out → ¬ seen d0 (Fingerprint ts);
  fi_seen : ∀ ts, ts ∈ done_ → has_room d (Fingerprint ts) → seen d (Fingerprint ts);
  fi_once : ∀ out1 t1 out2 t2 out3, out = out1 ++ t1 :: out2 ++ t2 :: out3 →
    Fingerprint t1 = Fingerprint t2 → ¬ has_room d (Fingerprint t2);
  fi_all : ∀ ts, ts ∈ done_ → Fingerprint ts ∈ map Fingerprint out ∨ seen d (Fingerprint ts)
}.

Lemma app_snoc_inv {A} (l l1 l2 : list A) (x y : A) :
  l ++ [x] = l1 ++ y :: l2 → (l2 = [] ∧ l1 = l ∧ y = x) ∨ (∃ l2', l2 = l2' ++ [x] ∧ l = l1 ++ y :: l2').
Proof.
  intros E. destruct l2 as [|z l2' _] using rev_ind.
  - left. by apply app_inj_tail in E as [-> ->].
  - right. exists l2'. rewrite app_comm_cons, app_assoc in E. by apply app_inj_tail in E as [-> ->].
Qed.

Lemma filter_inv_step d0 dn d out ts :
  uint 64 (Fingerprint ts) → filter_inv d0 dn d out →
  Forall (λ t, uint 64 (Fingerprint t)) dn →
  ∃ d' pass, filter_one d ts = Some (d', pass) ∧
    filter_inv d0 (dn ++ [ts]) d' (if (pass : bool) then out ++ [ts] else out).
Proof.
  intros Hts [Hle Hsub Hp Hdr Hfresh Hseen Honce Hall] Hdn.
  destruct (filter_one_ok d ts (dd_le_ok _ _ Hle) Hts) as (d' & -> & Hle' & Hp' & Hdr' & Hroom).
  do 2 eexists. split; [done|]. pose proof (dd_le_trans _ _ _ Hle Hle') as Hle2.
  pose proof (dd_le_room _ _ Hle') as Hback.
  assert (∀ t, t ∈ dn ++ [ts] → has_room d' (Fingerprint t) → seen d' (Fingerprint t)) as Hseen'.
  { intros t [Ht| ->%list_elem_of_singleton]%elem_of_app Hr; [|auto].
    rewrite Forall_forall in Hdn. apply (dd_le_seen _ _ Hle'); auto. }
  destruct (decide (seen d (Fingerprint ts))) as [Hs|Hs].
  - rewrite bool_decide_true in * by done. simpl in *. split; [done|..].
    + by apply sublist_inserts_r.
    + lia.
    + rewrite length_app. simpl. lia.
    + done.
    + done.
    + intros out1 t1 out2 t2 out3 E Eh Hr. by eapply Honce, Hback.
    + intros t [Ht| ->%list_elem_of_singleton]%elem_of_app.
      * rewrite Forall_forall in Hdn. destruct (Hall t Ht) as [|]; [by left|right; apply (dd_le_seen _ _ Hle'); auto].
      * right. by apply (dd_le_seen _ _ Hle').
  - rewrite bool_decide_false in * by done. simpl in *. split; [done|..].
    + by apply sublist_app.
    + rewrite length_app. simpl. lia.
    + rewrite !length_app. simpl. lia.
    + intros t [Ht| ->%list_elem_of_singleton]%elem_of_app; [auto|].
      intros H. by apply Hs, (dd_le_seen _ _ Hle).
    + done.
    + intros out1 t1 out2 t2 out3 E Eh Hr. rewrite app_comm_cons, app_assoc in E.
      destruct (app_snoc_inv out (out1 ++ t1 :: out2) out3 ts t2) as [(-> & E1 & ->)|(l & -> & E1)].
      { by rewrite E, <- app_assoc. }
      * apply Hs. rewrite <- Eh. apply Hseen; [|rewrite Eh; auto].
        eapply (elem_of_sublist out); [|done]. rewrite <- E1. apply elem_of_app. right. left.
      * eapply (Honce out1 t1 out2 t2 l); [by rewrite E1, <- app_assoc|done|auto].
    + intros t [Ht| ->%list_elem_of_singleton]%elem_of_app; rewrite map_app, elem_of_app; [|by left; right; left].
      rewrite Forall_forall in Hdn. destruct (Hall t Ht); [by left; left|right; apply (dd_le_seen _ _ Hle'); auto].
Qed.

Lemma filter_run d src dst : dd_ok d → Forall (λ ts, uint 64 (Fingerprint ts)) src →
  ∃ d' out, deduplicator_filter d src dst = Some (d', dst ++ out) ∧ filter_inv d src d' out.
Proof.
  intros Hd Hsrc. unfold deduplicator_filter.
  set (body := λ '(d, dst) ts, _).
  destruct (for_each_inv body (λ dn '(d', l), ∃ out, l = dst ++ out ∧ filter_inv d dn d' out ∧
      Forall (λ ts, uint 64 (Fingerprint ts)) dn) src (d, dst)) as ([d' l] & E & out & -> & H & _).
  - exists []. rewrite app_nil_r. split_and!; [done| |done].
    split; simpl; [by apply dd_le_refl|done|lia|lia| |..].
    + intros ts H. by apply not_elem_of_nil in H.
    + intros ts H. by apply not_elem_of_nil in H.
    + intros out1 t1 out2 t2 out3 E. by destruct out1.
    + intros ts H. by apply not_elem_of_nil in H.
  - intros dn ts [d1 l] (out & -> & H & Hdn) Hin. rewrite Forall_forall in Hsrc.
    destruct (filter_inv_step d dn d1 out ts (Hsrc ts Hin) H Hdn) as (d2 & pass & E & H2).
    exists (d2, if pass then (dst ++ out) ++ [ts] else dst ++ out). unfold body. rewrite E. split; [done|].
    exists (if pass then out ++ [ts] else out).
    split; [destruct pass; by rewrite ?app_assoc|]. split; [done|].
    apply Forall_app. split; [done|]. apply Forall_singleton. auto.
  - by exists d', out.
Qed.

(** A series that is dropped, and one whose filter is full, leave the filters
    alone. *)
Lemma filter_one_keeps d ts d' pass : dd_ok d → uint 64 (Fingerprint ts) → filter_one d ts = Some (d', pass) →
  pass = false ∨ ¬ has_room d (Fingerprint ts) → dd_bfs d' = dd_bfs d.
Proof.
  intros Hd Hh E Hk. destruct (dd_lookup d (Fingerprint ts) Hd) as (f & Ef & Hf). unfold bucket_of in Ef.
  unfold filter_one in E. rewrite Ef in E. cbn [mbind option_bind] in E.
  destruct (bloom_contains f _) as [[]|]; cbn [mbind option_bind] in E; [by simplify_eq| |done].
  destruct Hk as [->|Hn]; [by destruct (if bf_size f <? _ then _ else _); simplify_eq|].
  destruct (Z.ltb_spec (bf_size f) (dd_bucketMaxSize d)); [by destruct Hn; exists f|].
  cbn [mbind option_bind] in E. simplify_eq. by apply list_insert_id.
Qed.

(** What becomes of the next series: dropped if it is remembered, otherwise
    forwarded, and remembered if its filter has room. *)
Definition series_outcome (d : deduplicator) (ts : TimeSerie) (d' : deduplicator) (fwd : list TimeSerie) : Prop :=
  if decide (seen d (Fingerprint ts)) then
    fwd = [] ∧ dd_bfs d' = dd_bfs d ∧
    dd_passedTotal d' = dd_passedTotal d ∧ dd_droppedTotal d' = dd_droppedTotal d + 1
  else
    fwd = [ts] ∧ dd_passedTotal d' = dd_passedTotal d + 1 ∧ dd_droppedTotal d' = dd_droppedTotal d ∧
    (has_room d (Fingerprint ts) → seen d' (Fingerprint ts)) ∧
    (¬ has_room d (Fingerprint ts) → dd_bfs d' = dd_bfs d).

Lemma filter_next d pre ts dst : dd_ok d → Forall (λ ts, uint 64 (Fingerprint ts)) (pre ++ [ts]) →
  ∃ d1 out1 d2 fwd, deduplicator_filter d pre dst = Some (d1, dst ++ out1) ∧
    deduplicator_filter d (pre ++ [ts]) dst = Some (d2, dst ++ out1 ++ fwd) ∧ series_outcome d1 ts d2 fwd.
Proof.
  intros Hd [Hpre [Hts _]%Forall_cons]%Forall_app. destruct (filter_run d pre dst Hd Hpre) as (d1 & out1 & E1 & H1).
  pose proof (dd_le_ok _ _ (fi_le _ _ _ _ H1)) as Hd1.
  destruct (filter_one_ok d1 ts Hd1 Hts) as (d2 & E2 & _ & Hp & Hdr & Hroom).
  pose proof (filter_one_keeps d1 ts d2 _ Hd1 Hts E2) as Hk.
  exists d1, out1, d2, (if bool_decide (seen d1 (Fingerprint ts)) then [] else [ts]). split; [exact E1|]. split.
  { unfold deduplicator_filter in *. rewrite for_each_app, E1. cbn [mbind option_bind for_each]. rewrite E2.
    cbn [mbind option_bind]. by destruct (bool_decide _); cbn [negb]; rewrite ?app_nil_r, <- ?app_assoc. }
  unfold series_outcome. destruct (decide (seen d1 (Fingerprint ts))) as [Hs|Hs].
  - rewrite bool_decide_true in * by done. cbn [negb Z.b2z] in *. split_and!; [done|auto|lia|lia].
  - rewrite bool_decide_false in * by done. cbn [negb Z.b2z] in *. split_and!; [done|lia|lia|done|auto].
Qed.

(** C22: what [filter] forwards.  On a well-formed deduplicator it never
    panics.  Each series of the batch is dropped and counted as dropped if the
    deduplicator remembers it when its turn comes, and otherwise forwarded and
    counted as passed; it is then remembered, unless its filter is full, which
    leaves the filters alone.  The forwarded series are a subsequence of the
    incoming ones appended to the destination; the two counters account for
    every incoming series; a series already remembered before the batch is
    dropped and stays remembered; and while its filter has room a series is
    forwarded once, so that no two forwarded series share its fingerprint. *)
Theorem deduplicator_filter_spec d src dst :
  dd_ok d → Forall (λ ts, uint 64 (Fingerprint ts)) src →
  ∃ d' out, deduplicator_filter d src dst = Some (d', dst ++ out) ∧ dd_ok d' ∧
    (∀ pre ts post, src = pre ++ ts :: post →
       ∃ d1 out1 d2 fwd, deduplicator_filter d pre dst = Some (d1, dst ++ out1) ∧
         deduplicator_filter d (pre ++ [ts]) dst = Some (d2, dst ++ out1 ++ fwd) ∧ series_outcome d1 ts d2 fwd) ∧
    out `sublist_of` src ∧
    dd_passedTotal d' = dd_passedTotal d + Z.of_nat (length out) ∧
    dd_droppedTotal d' = dd_droppedTotal d + Z.of_nat (length src) - Z.of_nat (length out) ∧
    (∀ ts, ts ∈ out → ¬ seen d (Fingerprint ts)) ∧
    (∀ g, uint 64 g → seen d g → seen d' g) ∧
    (∀ ts, ts ∈ src → has_room d' (Fingerprint ts) → seen d' (Fingerprint ts)) ∧
    (∀ out1 t1 out2 t2 out3, out = out1 ++ t1 :: out2 ++ t2 :: out3 →
       Fingerprint t1 = Fingerprint t2 → ¬ has_room d' (Fingerprint t2)).
Proof.
  intros Hd Hsrc. destruct (filter_run d src dst Hd Hsrc) as (d' & out & E & [[] ? ? ? ? ? ? _]).
  exists d', out. split; [done|]. split; [done|]. split; [|done]. intros pre ts post ->. apply filter_next; [done|].
  rewrite cons_middle, app_assoc in Hsrc. by apply Forall_app in Hsrc as [? _].
Qed.

(** ** In place *)
Lemma inplace_run d0 arr d l j : (j <= length arr)%nat →
  deduplicator_filter d0 (take j arr) [] = Some (d, l) →
  for_each (λ '(d, arr, n) i,
      ts ← arr !! i;
      '(d, pass) ← filter_one d ts;
      Some (if (pass : bool) then (d, <[n := ts]> arr, S n) else (d, arr, n)))
    (seq 0 j) (d0, arr, 0%nat) = Some (d, l ++ drop (length l) arr, length l) ∧ (length l <= j)%nat.
Proof.
  revert d l. induction j as [|j IH]; intros d l Hj E.
  { unfold deduplicator_filter in E. simpl in E. simplify_eq. simpl. by rewrite drop_0. }
  destruct (lookup_lt_is_Some_2 arr j ltac:(lia)) as [ts Ets].
  rewrite (take_S_r arr j ts Ets) in E. unfold deduplicator_filter in E. rewrite for_each_app in E.
  destruct (for_each _ (take j arr) _) as [[d1 l1]|] eqn:E1; [|done]. simpl in E.
  destruct (filter_one d1 ts) as [[d2 pass]|] eqn:E2; [|done]. simpl in E. simplify_eq.
  destruct (IH d1 l1 ltac:(lia) E1) as [IH1 Hlen]. rewrite seq_S, for_each_app, IH1. simpl.
  assert ((l1 ++ drop (length l1) arr) !! j = Some ts) as ->.
  { rewrite lookup_app_r, lookup_drop by lia. by replace (length l1 + (j - length l1))%nat with j by lia. }
  simpl. rewrite E2. simpl. destruct pass; [|split; [done|lia]]. rewrite length_app. simpl.
  split; [|lia]. do 2 f_equal; [f_equal|lia].
  rewrite insert_app_r_alt, Nat.sub_diag by lia.
  destruct (drop (length l1) arr) as [|x rest] eqn:Ed.
  { apply (f_equal length) in Ed. rewrite length_drop in Ed. simpl in Ed. lia. }
  simpl. rewrite <- app_assoc. simpl. do 2 f_equal.
  by rewrite <- (drop_drop arr), Ed.
Qed.

Lemma filter_inplace_run d arr : dd_ok d → Forall (λ ts, uint 64 (Fingerprint ts)) arr →
  ∃ d' out, deduplicator_filter d arr [] = Some (d', out) ∧
    deduplicator_filter_inplace d arr = Some (d', out) ∧ filter_inv d arr d' out.
Proof.
  intros Hd Harr. destruct (filter_run d arr [] Hd Harr) as (d' & out & E & H). exists d', out.
  split; [done|]. split; [|done]. unfold deduplicator_filter_inplace.
  destruct (inplace_run d arr d' out (length arr) (Nat.le_refl _)) as [-> Hl]; [by rewrite take_ge by done|].
  simpl. by rewrite take_app_length.
Qed.

(** Filtering in place is filtering.  [main] calls [filter(tss, tss[:0])],
    so the destination overwrites the batch while the loop still reads it; the
    forwarded series and the deduplicator afterwards are those of filtering
    into a fresh slice. *)
Theorem filter_inplace_eq d arr :
  dd_ok d → Forall (λ ts, uint 64 (Fingerprint ts)) arr →
  ∃ d' out, deduplicator_filter d arr [] = Some (d', out) ∧
    deduplicator_filter_inplace d arr = Some (d', out).
Proof.
  intros Hd Harr. destruct (filter_inplace_run d arr Hd Harr) as (d' & out & E1 & E2 & _). by exists d', out.
Qed.

(** ** Rotation and reset *)
Definition fresh_bucket (d : deduplicator) : deduplicatorBloomFilter :=
  newDeduplicatorBloomFilter (dd_bucketMaxSize d).
Definition bucketDur (d : deduplicator) : Z := Z.quot (dd_interval d) 10.

Lemma truncate_bounds t u : 0 < u →
  Time_Truncate t u <= t < Time_Truncate t u + u.
Proof.
  intros Hu. unfold Time_Truncate. destruct (Z.leb_spec u 0); [lia|].
  pose proof (Z.mod_pos_bound (t + zero_time_offset) u Hu). lia.
Qed.

Lemma truncate_unique t u b : 0 < u → (b + zero_time_offset) mod u = 0 → b <= t < b + u →
  Time_Truncate t u = b.
Proof.
  intros Hu Hb Ht. unfold Time_Truncate. destruct (Z.leb_spec u 0); [lia|].
  assert ((t + zero_time_offset) mod u = t - b) as ->; [|lia].
  apply Z.mod_divide in Hb as [k Hk]; [|lia].
  symmetry. apply (Z.mod_unique _ _ k); lia.
Qed.

Lemma truncate_aligned t u : 0 < u → (Time_Truncate t u + zero_time_offset) mod u = 0.
Proof.
  intros Hu. unfold Time_Truncate. destruct (Z.leb_spec u 0); [lia|].
  replace (t - (t + zero_time_offset) mod u + zero_time_offset)
    with ((t + zero_time_offset) / u * u) by (pose proof (Z.div_mod (t + zero_time_offset) u); lia).
  apply Z.mod_mul. lia.
Qed.

Lemma boundary_bounds d now : 0 < bucketDur d →
  now < rotation_boundary d now <= now + bucketDur d.
Proof. intros Hu. pose proof (truncate_bounds now (bucketDur d) Hu). unfold rotation_boundary. fold (bucketDur d). lia. Qed.

(** A timer that fires less than a tenth late meets the next boundary. *)
Lemma boundary_next d now now' : 0 < bucketDur d →
  rotation_boundary d now <= now' < rotation_boundary d now + bucketDur d →
  rotation_boundary d now' = rotation_boundary d now + bucketDur d.
Proof.
  intros Hu Hn. unfold rotation_boundary in *. fold (bucketDur d) in *.
  rewrite (truncate_unique now' (bucketDur d) (Time_Truncate now (bucketDur d) + bucketDur d)); [done|done| |lia].
  replace (_ + _ + zero_time_offset) with (Time_Truncate now (bucketDur d) + zero_time_offset + 1 * bucketDur d) by lia.
  rewrite Z.mod_add by lia. by apply truncate_aligned.
Qed.

Lemma rotation_idx_eq d b : 0 < bucketDur d → 0 <= b → rotation_idx d b = (b / bucketDur d) mod 10.
Proof.
  intros Hu Hb. unfold rotation_idx. fold (bucketDur d). rewrite Z.quot_div_nonneg by lia.
  apply Z.rem_mod_nonneg; [by apply Z.div_pos|lia].
Qed.

Lemma rotate_eq d now : dd_ok d → 0 < bucketDur d → 0 <= now →
  let k := Z.to_nat ((rotation_boundary d now / bucketDur d) mod 10) in
  deduplicator_rotate d now = Some (set_bfs d (<[k := fresh_bucket d]> (dd_bfs d))).
Proof.
  intros Hd Hu Hn k. pose proof (boundary_bounds d now Hu). unfold deduplicator_rotate.
  rewrite rotation_idx_eq by lia. fold k.
  pose proof (Z.mod_pos_bound (rotation_boundary d now / bucketDur d) 10 ltac:(lia)).
  destruct (Z.ltb_spec ((rotation_boundary d now / bucketDur d) mod 10) 0); [lia|].
  destruct (lookup_lt_is_Some_2 (dd_bfs d) k) as [f E].
  { rewrite (dd_ten d Hd). unfold k. lia. }
  by rewrite E.
Qed.

Lemma set_bfs_ok d bfs : dd_ok d → length bfs = 10%nat →
  Forall (bucket_ok (dd_bucketMaxSize d)) bfs → dd_ok (set_bfs d bfs).
Proof. intros [? ? ?] ? ?. by split. Qed.

Lemma rotate_ok d now d' : dd_ok d → 0 < bucketDur d → 0 <= now →
  deduplicator_rotate d now = Some d' → dd_ok d' ∧ dd_interval d' = dd_interval d ∧
    dd_bucketMaxSize d' = dd_bucketMaxSize d.
Proof.
  intros Hd Hu Hn. rewrite rotate_eq by done. intros [= <-]. split; [|done]. destruct Hd as [Ht HM Hall].
  apply set_bfs_ok; [done|by rewrite length_insert|]. apply Forall_insert; [done|by apply new_bucket_ok].
Qed.

Lemma reset_ok d : dd_ok d → dd_ok (deduplicator_Reset d).
Proof.
  intros Hd. destruct Hd as [Ht HM Hall]. apply set_bfs_ok; [done|by rewrite length_replicate|].
  apply Forall_replicate. by apply new_bucket_ok.
Qed.

Lemma filter_interval d src dst d' out :
  deduplicator_filter d src dst = Some (d', out) → dd_interval d' = dd_interval d.
Proof.
  unfold deduplicator_filter. revert d dst. induction src as [|ts src IH]; intros d dst E; simpl in E; [by simplify_eq|].
  destruct (filter_one d ts) as [[d1 pass]|] eqn:E1; [|done]. simpl in E.
  rewrite (IH _ _ E). unfold filter_one in E1.
  destruct (dd_bfs d !! _) as [f|]; [|done]. simpl in E1.
  destruct (bloom_contains f _) as [[]|]; simpl in E1; [by simplify_eq| |done].
  destruct (if bf_size f <? _ then _ else _); simpl in E1; [by simplify_eq|done].
Qed.

Lemma newDeduplicator_ok maxSize interval d :
  maxSize < 2 ^ 53 → newDeduplicator maxSize interval = Some d →
  dd_ok d ∧ 0 < bucketDur d ∧ deduplicationMinMaxSize < maxSize ∧ deduplicationMinInterval < interval.
Proof.
  intros Hm. unfold newDeduplicator.
  destruct (Z.leb_spec maxSize deduplicationMinMaxSize) as [|H1]; [done|].
  destruct (Z.leb_spec interval deduplicationMinInterval) as [|H2]; [done|]. intros [= <-].
  unfold bucketDur, deduplicationMinMaxSize, deduplicationMinInterval, second in *. simpl.
  rewrite !Z.quot_div_nonneg by lia.
  assert (0 < maxSize / 10 < 2 ^ 50).
  { split; [apply Z.div_str_pos; lia|apply Z.div_lt_upper_bound; lia]. }
  split_and!; [|apply Z.div_str_pos; lia|done|done].
  split; simpl; [done|done|]. repeat (apply Forall_cons; split); [..|by apply Forall_nil]; by apply new_bucket_ok.
Qed.

(** Bloom filters never saturate.  From a new deduplicator, whatever
    sequence of batches, rotations and resets follows, there are ten filters,
    none counts more than its share of the maximum size, and at most a quarter
    of the bits of each is set; and neither a batch nor a rotation can panic
    next. *)
Theorem dedup_never_saturates maxSize interval d0 d :
  maxSize < 2 ^ 53 → newDeduplicator maxSize interval = Some d0 → rtc dedup_step d0 d →
  length (dd_bfs d) = 10%nat ∧
  (∀ f, f ∈ dd_bfs d → bf_size f <= Z.quot maxSize 10 ∧
     4 * Z.of_nat (size (ones (bf_bits f))) <= Z.of_nat (length (bf_bits f)) * 64) ∧
  (∀ src, Forall (λ ts, uint 64 (Fingerprint ts)) src → is_Some (deduplicator_filter d src [])) ∧
  (∀ now, 0 <= now → is_Some (deduplicator_rotate d now)).
Proof.
  intros Hm Hnew Hrun. pose proof (newDeduplicator_ok _ _ _ Hm Hnew) as (Hd0 & Hu0 & _ & _).
  assert (dd_bucketMaxSize d0 = Z.quot maxSize 10) as HM.
  { unfold newDeduplicator in Hnew.
    destruct (maxSize <=? _); [done|]. destruct (interval <=? _); [done|]. by injection Hnew as <-. }
  assert (dd_ok d ∧ dd_interval d = dd_interval d0 ∧ dd_bucketMaxSize d = dd_bucketMaxSize d0) as (Hd & Hi & HM').
  { clear Hnew HM. induction Hrun as [|d0 d1 d Hs Hrun IH]; [done|].
    assert (dd_ok d1 ∧ dd_interval d1 = dd_interval d0 ∧ dd_bucketMaxSize d1 = dd_bucketMaxSize d0) as (? & Ei & EM).
    { destruct Hs as [d0 src d1 out Hsrc E|d0 now d1 Hn E|d0].
      - destruct (filter_run d0 src [] Hd0 Hsrc) as (d1' & out' & E' & [[] _ _ _ _ _ _]).
        rewrite E in E'. simplify_eq. split_and!; [done| |done]. by eapply filter_interval.
      - by apply (rotate_ok d0 now).
      - split; [by apply reset_ok|done]. }
    destruct IH as (? & ? & ?); [done|unfold bucketDur; by rewrite Ei|]. split_and!; [done|congruence|congruence]. }
  assert (0 < bucketDur d) as Hu by (unfold bucketDur in *; by rewrite Hi).
  split_and!; [apply Hd| |..].
  - intros f Hf. pose proof (dd_buckets d Hd) as Hall. rewrite Forall_forall in Hall.
    destruct (Hall f Hf) as [? ? ? ?]. unfold hashesCount, bitsPerItem in *. split; lia.
  - intros src Hsrc. destruct (filter_run d src [] Hd Hsrc) as (? & ? & -> & _). eauto.
  - intros now Hn. rewrite rotate_eq by done. eauto.
Qed.

(** ** A whole turn of the rotation *)
Definition rotations (d : deduplicator) (nows : list Z) : option deduplicator :=
  for_each deduplicator_rotate nows d.

(** The loop comes back for the next wait less than a tenth late. *)
Fixpoint on_time (d : deduplicator) (now : Z) (nows : list Z) : Prop :=
  match nows with
  | [] => True
  | now' :: nows' =>
      rotation_boundary d now <= now' < rotation_boundary d now + bucketDur d ∧ on_time d now' nows'
  end.

Definition rotation_slot (d : deduplicator) (now : Z) : Z := rotation_boundary d now / bucketDur d.

Lemma slot_next d now now' : 0 < bucketDur d →
  rotation_boundary d now <= now' < rotation_boundary d now + bucketDur d →
  rotation_slot d now' = rotation_slot d now + 1.
Proof.
  intros Hu Hn. unfold rotation_slot. rewrite (boundary_next d now now') by done.
  replace (_ + bucketDur d) with (rotation_boundary d now + 1 * bucketDur d) by lia.
  by rewrite Z.div_add by lia.
Qed.

Lemma on_time_set_bfs d bfs now nows : on_time d now nows → on_time (set_bfs d bfs) now nows.
Proof. revert now. induction nows as [|n nows IH]; intros now; simpl; [done|]. intros [? ?]. auto. Qed.

Lemma rotations_spec nows : ∀ d now, dd_ok d → 0 < bucketDur d → 0 <= now → on_time d now nows →
  ∃ d', rotations d (now :: nows) = Some d' ∧ dd_ok d' ∧
    (∀ i, dd_bfs d !! i = Some (fresh_bucket d) → dd_bfs d' !! i = Some (fresh_bucket d)) ∧
    ∀ j, 0 <= j <= Z.of_nat (length nows) →
      dd_bfs d' !! Z.to_nat ((rotation_slot d now + j) mod 10) = Some (fresh_bucket d).
Proof.
  induction nows as [|now' nows IH]; intros d now Hd Hu Hn Hot;
    set (k := Z.to_nat (rotation_slot d now mod 10));
    set (d1 := set_bfs d (<[k := fresh_bucket d]> (dd_bfs d)));
    assert (deduplicator_rotate d now = Some d1) as E1 by (by apply rotate_eq);
    destruct (rotate_ok d now d1 Hd Hu Hn E1) as (Hd1 & _ & _);
    assert (∀ i, dd_bfs d !! i = Some (fresh_bucket d) ∨ i = k → dd_bfs d1 !! i = Some (fresh_bucket d)) as Hk1.
  1, 3: intros i Hi; unfold d1; simpl; destruct (decide (i = k)) as [->|];
      [apply list_lookup_insert_eq; rewrite (dd_ten d Hd);
       pose proof (Z.mod_pos_bound (rotation_slot d now) 10); lia
      |rewrite list_lookup_insert_ne by done; tauto].
  - unfold rotations. simpl. rewrite E1. simpl. exists d1. split_and!; [done|done|auto|].
    intros j Hj. simpl in Hj. replace j with 0 by lia. rewrite Z.add_0_r. auto.
  - destruct Hot as [Ht Hot]. assert (0 <= now') as Hn' by (pose proof (boundary_bounds d now Hu); lia).
    pose proof (slot_next d now now' Hu Ht) as Hslot.
    destruct (IH d1 now' Hd1 Hu Hn' (on_time_set_bfs _ _ _ _ Hot)) as (d' & E & Hd' & Hkeep & Hfresh).
    change (fresh_bucket d1) with (fresh_bucket d) in *. exists d'. split_and!; [|done|auto|].
    { unfold rotations. cbn [for_each]. rewrite E1. exact E. }
    intros j Hj. destruct (decide (j = 0)) as [->|Hj0].
    { rewrite Z.add_0_r. auto. }
    replace (rotation_slot d now + j) with (rotation_slot d1 now' + (j - 1)) by (change (rotation_slot d1 now') with (rotation_slot d now'); lia).
    apply Hfresh. cbn [length] in Hj. lia.
Qed.

Lemma new_bucket_contains M h : 0 < M < 2 ^ 50 → uint 64 h →
  bloom_contains (newDeduplicatorBloomFilter M) h = Some false.
Proof.
  intros HM Hh. pose proof (new_bucket_ok M HM) as [Hb _ _ _].
  rewrite bloom_contains_spec by done. f_equal. apply bool_decide_eq_false. intros H.
  unfold newDeduplicatorBloomFilter, newBits in H. cbn [bf_bits] in H.
  rewrite ones_replicate, length_replicate in H.
  eapply (not_elem_of_empty (C := gset Z)), H, elem_of_list_to_set. left.
Qed.

(** C35: a series is forgotten after one interval.  Ten consecutive rotations,
    each of whose waits starts less than a tenth of the interval after the
    previous one ended, start every filter afresh: whatever was remembered, no
    series is afterwards, so the next one of each is forwarded. *)
Theorem rotation_forgets d now nows :
  dd_ok d → 0 < bucketDur d → 0 <= now → on_time d now nows → length nows = 9%nat →
  ∃ d', rotations d (now :: nows) = Some d' ∧ dd_bfs d' = dd_bfs (deduplicator_Reset d) ∧
    ∀ h, uint 64 h → ¬ seen d' h.
Proof.
  intros Hd Hu Hn Hot Hlen. destruct (rotations_spec nows d now Hd Hu Hn Hot) as (d' & E & Hd' & _ & Hfresh).
  exists d'. split; [done|].
  assert (∀ i, (i < 10)%nat → dd_bfs d' !! i = Some (fresh_bucket d)) as Hall.
  { intros i Hi. set (s := rotation_slot d now) in *.
    replace i with (Z.to_nat ((s + (Z.of_nat i - s) mod 10) mod 10)).
    - apply Hfresh. pose proof (Z.mod_pos_bound (Z.of_nat i - s) 10). lia.
    - rewrite Z.add_mod_idemp_r by lia. replace (s + (Z.of_nat i - s)) with (Z.of_nat i) by lia.
      rewrite Z.mod_small by lia. lia. }
  split.
  - apply list_eq. intros i. unfold deduplicator_Reset. simpl. rewrite (dd_ten d Hd).
    destruct (decide (i < 10)%nat) as [Hi|Hi].
    + rewrite Hall by done. symmetry. by apply lookup_replicate_2.
    + rewrite !lookup_ge_None_2; [done|rewrite length_replicate; lia|rewrite (dd_ten d' Hd'); lia].
  - intros h Hh (f & Ef & Ec). unfold bucket_of in Ef. rewrite Hall in Ef by apply dd_bucket_index.
    injection Ef as <-. unfold fresh_bucket in Ec. rewrite new_bucket_contains in Ec by (done || apply Hd).
    done.
Qed.

(** Starting the deduplicator.  [main] disables it for a non-positive
    interval, reports an error for a small maximum size or an interval below 30
    seconds, and otherwise starts one; the one exception is an interval of
    exactly 30 seconds, which passes the check of [main] and then panics in
    [newDeduplicator]. *)
Theorem startDeduplicator_spec maxSize interval :
  match startDeduplicator maxSize interval with
  | None => interval = deduplicationMinInterval ∧ deduplicationMinMaxSize < maxSize
  | Some (Error _) =>
      0 < interval ∧ (maxSize <= deduplicationMinMaxSize ∨ interval < deduplicationMinInterval)
  | Some (Ok None) => interval <= 0
  | Some (Ok (Some d)) =>
      newDeduplicator maxSize interval = Some d ∧
      deduplicationMinMaxSize < maxSize ∧ deduplicationMinInterval < interval
  end.
Proof.
  unfold startDeduplicator, newDeduplicator.
  destruct (Z.ltb_spec 0 interval); [|done].
  destruct (Z.leb_spec maxSize deduplicationMinMaxSize); [lia|].
  destruct (Z.ltb_spec interval deduplicationMinInterval); [lia|].
  destruct (Z.leb_spec interval deduplicationMinInterval); simpl; [lia|]. done.
Qed.

(** [main] passes the arguments of the message about the size in the wrong
    order. *)
Lemma size_message_swapped :
  startDeduplicator 5000 (60 * second) =
    Some (Error "deduplicator maxSize must be greater than 5000; got 9999. Set -deduplication.maxSize or -deduplication.maxSizeBytes"%string).
Proof. vm_compute. reflexivity. Qed.

(** ** No pass-through below the limit *)
Definition bucket_full (d : deduplicator) (h : Z) : Prop :=
  ∃ f, bucket_of d h = Some f ∧ bf_size f = dd_bucketMaxSize d.

(** Pass-through starts at the limit, not before.  A batch whose series'
    filter holds one item less than its share is still recorded, and the
    counter then reaches the share exactly; only a filter at its share passes
    an unknown series on without recording it. *)
Theorem pass_through_at_limit d ts : dd_ok d → uint 64 (Fingerprint ts) →
  ¬ seen d (Fingerprint ts) →
  ∃ d', deduplicator_filter d [ts] [] = Some (d', [ts]) ∧
    (bucket_full d (Fingerprint ts) → dd_bfs d' = dd_bfs d) ∧
    (¬ bucket_full d (Fingerprint ts) → seen d' (Fingerprint ts)).
Proof.
  intros Hd Hh Hs. destruct (dd_lookup d (Fingerprint ts) Hd) as (f & Ef & Hf). pose proof (bucket_size _ _ Hf).
  destruct (filter_one_ok d ts Hd Hh) as (d' & E & _ & _ & _ & Hroom).
  rewrite bool_decide_false in E by done. exists d'. split_and!.
  - unfold deduplicator_filter. simpl. by rewrite E.
  - intros (f' & Ef' & Hfull). simplify_eq.
    destruct (contains_total _ f _ Hf Hh) as [b Hb].
    destruct b; [by destruct Hs; exists f|]. unfold filter_one in E. unfold bucket_of in Ef.
    rewrite Ef in E. simpl in E. rewrite Hb in E. simpl in E.
    rewrite (proj2 (Z.ltb_ge _ _)) in E by lia. simpl in E. injection E as <-. simpl.
    by apply list_insert_id.
  - intros Hnf. apply Hroom. exists f. split; [done|].
    destruct (decide (bf_size f = dd_bucketMaxSize d)); [by destruct Hnf; exists f|lia].
Qed.

(** ** Concrete runs *)
Definition demo_dd : deduplicator :=
  mkDeduplicator 10000 (60 * second) 1000 (replicate 10 (newDeduplicatorBloomFilter 1000)) 0 0.

Lemma demo_dd_new : newDeduplicator 10000 (60 * second) = Some demo_dd.
Proof. reflexivity. Qed.

Lemma demo_dd_ok : dd_ok demo_dd ∧ 0 < bucketDur demo_dd.
Proof. destruct (newDeduplicator_ok 10000 (60 * second) demo_dd) as (? & ? & _); [lia|apply demo_dd_new|done]. Qed.

Definition demo_batch : list TimeSerie := map (mkTimeSerie []) [7; 17; 7; 2 ^ 63 + 5].

Lemma demo_batch_uint : Forall (λ ts, uint 64 (Fingerprint ts)) demo_batch.
Proof. repeat constructor; vm_compute; congruence. Qed.

Lemma deduplicator_filter_spec_witness :
  ∃ d' out, deduplicator_filter demo_dd demo_batch [] = Some (d', out) ∧ length out = 3%nat ∧
    dd_passedTotal d' = 3 ∧ dd_droppedTotal d' = 1 ∧ out `sublist_of` demo_batch.
Proof.
  destruct (deduplicator_filter_spec demo_dd demo_batch [] (proj1 demo_dd_ok) demo_batch_uint)
    as (d' & out & E & _ & _ & Hsub & Hp & Hdr & _).
  exists d', out. assert (length out = 3%nat) as Hl.
  { vm_compute in E. injection E as _ <-. reflexivity. }
  rewrite Hl in Hp, Hdr. exact (conj E (conj Hl (conj Hp (conj Hdr Hsub)))).
Defined.

Lemma filter_inplace_eq_witness :
  ∃ d' out, deduplicator_filter demo_dd demo_batch [] = Some (d', out) ∧
    deduplicator_filter_inplace demo_dd demo_batch = Some (d', out).
Proof. exact (filter_inplace_eq demo_dd demo_batch (proj1 demo_dd_ok) demo_batch_uint). Defined.

Lemma dedup_never_saturates_witness :
  ∃ d, rtc dedup_step demo_dd d ∧ length (dd_bfs d) = 10%nat ∧
    is_Some (deduplicator_rotate d (5 * second)).
Proof.
  destruct (filter_run demo_dd demo_batch [] (proj1 demo_dd_ok) demo_batch_uint) as (d' & out & E & _).
  exists (deduplicator_Reset d').
  assert (rtc dedup_step demo_dd (deduplicator_Reset d')) as Hrun.
  { eapply rtc_l; [by eapply step_filter, E; apply demo_batch_uint|]. apply rtc_once. constructor. }
  destruct (dedup_never_saturates 10000 (60 * second) demo_dd _ ltac:(lia) demo_dd_new Hrun)
    as (H1 & _ & _ & H2).
  split; [exact Hrun|]. split; [exact H1|]. apply H2. vm_compute. congruence.
Defined.

Lemma rotation_forgets_witness :
  ∃ d', rotations demo_dd (map (λ i, (6 * i + 1) * second) (seqZ 0 10)) = Some d' ∧ ¬ seen d' 7.
Proof.
  destruct (rotation_forgets demo_dd (1 * second) (map (λ i, (6 * i + 1) * second) (seqZ 1 9)))
    as (d' & E & _ & H).
  - apply demo_dd_ok.
  - apply demo_dd_ok.
  - vm_compute. congruence.
  - vm_compute. repeat (split; [split; congruence|]). exact I.
  - reflexivity.
  - exists d'. split; [exact E|]. apply H. vm_compute. split; congruence.
Defined.

Lemma pass_through_at_limit_witness :
  ∃ d', deduplicator_filter demo_dd [mkTimeSerie [] 7] [] = Some (d', [mkTimeSerie [] 7]) ∧
    (¬ bucket_full demo_dd 7 → seen d' 7).
Proof.
  destruct (pass_through_at_limit demo_dd (mkTimeSerie [] 7)) as (d' & E & _ & H).
  - apply demo_dd_ok.
  - vm_compute. split; congruence.
  - intros (f & Ef & Hc). vm_compute in Ef. injection Ef as <-. vm_compute in Hc. discriminate Hc.
  - exists d'. exact (conj E H).
Defined.
