(* ===== verification/Config.v ===== *)
(** * Config: stream configuration

    Models app/vmestimator/config.go up to [loadConfig] (see Reload.v): the
    stream settings with [applyDefaults] and [prepare], the series filters
    with [compileFilters] and [match], and [estimatorID] of estimator.go.  The
    YAML decoding in front of [prepare] and the metricsql parser are libraries
    the code calls; the parser is the interface [MetricsQL]. *)
From Stdlib Require Import Ascii String.
From S2P Require Import Prelude GoText Types.
Local Open Scope string_scope.
Local Open Scope Z_scope.

Definition labelKeyword : string := "__label__".
Definition minute : Z := 60 * 1000000000.

(** Label maps and booleans behind a pointer can be nil; a prepared [GroupBy]
    is never nil. *)
Record EstimatorConfig := mkConfig {
  Filter : string;
  GroupBy : list string;
  GroupLimit : Z;
  ec_Labels : option (gmap string string);
  Interval : Z;
  CalculateChurn : bool;
  Buckets : Z;
  HLLPrecision : Z;
  HLLSparse : option bool;
  MinCardinality : Z
}.

(** [reflect.DeepEqual] on two configs. *)
#[export] Instance EstimatorConfig_eq_dec : EqDecision EstimatorConfig.
Proof. solve_decision. Defined.

Definition labels_of (ls : option (gmap string string)) : gmap string string := default ∅ ls.

(** [cpus] is [cgroup.AvailableCPUs()]. *)
Definition applyDefaults (cpus : Z) (ec : EstimatorConfig) : EstimatorConfig :=
  mkConfig (Filter ec) (GroupBy ec)
    (if GroupLimit ec <=? 0 then 10000 else GroupLimit ec)
    (if decide (labels_of (ec_Labels ec) = ∅) then None else ec_Labels ec)
    (if Interval ec =? 0 then 5 * minute else Interval ec)
    (CalculateChurn ec)
    (if Buckets ec <=? 0 then Z.max 4 (Z.min 64 (2 * cpus)) else Buckets ec)
    (if HLLPrecision ec =? 0 then 14 else HLLPrecision ec)
    (match HLLSparse ec with None => Some true | Some b => Some b end)
    (MinCardinality ec).

Definition estimatorID (labels : option (gmap string string)) (groupBy : list string)
    (interval : Z) (filter : string) : string :=
  let groupByKey := match groupBy with [] => "__global__" | _ => Join groupBy "," end in
  let ls := labels_of labels in
  let labelsKey :=
    foldr (λ k acc, k ++ "=" ++ default EmptyString (ls !! k) ++ NUL ++ acc) EmptyString
      (sorted_keys ls) in
  NUL ++ "labels=" ++ labelsKey ++ NUL ++ "group_by=" ++ groupByKey ++
  NUL ++ "interval=" ++ Duration_String interval ++ NUL ++ "filter=" ++ filter.

Definition config_id (ec : EstimatorConfig) : string :=
  estimatorID (ec_Labels ec) (GroupBy ec) (Interval ec) (Filter ec).

Definition set_GroupBy (ec : EstimatorConfig) (g : list string) : EstimatorConfig :=
  mkConfig (Filter ec) g (GroupLimit ec) (ec_Labels ec) (Interval ec) (CalculateChurn ec)
    (Buckets ec) (HLLPrecision ec) (HLLSparse ec) (MinCardinality ec).

(** [prepare] moves [__label__] behind the sorted other keys. *)
Definition is_keyword (g : string) : Prop := g = labelKeyword.
Definition prepare_groupBy (groupBy : list string) : result (list string) :=
  let sorted := sort_Strings groupBy in
  let count := length (filter is_keyword sorted) in
  let newGroupBy := filter (λ g, ¬ is_keyword g) sorted in
  if decide (1 < count)%nat then Error "__label__ may appear at most once in group_by"
  else if decide (count = 1%nat) then Ok (newGroupBy ++ [labelKeyword])%list
  else Ok newGroupBy.

Definition prepare_stream (cpus : Z) (stream : EstimatorConfig) : result EstimatorConfig :=
  if negb (HLLPrecision stream =? 0) && ((HLLPrecision stream <? 4) || (18 <? HLLPrecision stream))
  then Error "invalid precision: must be in range [4, 18]"
  else
    match prepare_groupBy (GroupBy stream) with
    | Error e => Error e
    | Ok g => Ok (applyDefaults cpus (set_GroupBy stream g))
    end.

Fixpoint prepare_streams (cpus : Z) (streams : list EstimatorConfig) : result (list EstimatorConfig) :=
  match streams with
  | [] => Ok []
  | stream :: rest =>
      match prepare_stream cpus stream with
      | Error e => Error e
      | Ok stream =>
          match prepare_streams cpus rest with
          | Error e => Error e
          | Ok rest => Ok (stream :: rest)
          end
      end
  end.

Definition reservedLabels : list string := ["interval"; "filter"; "group_by_keys"; "group_by_values"].
Definition is_reserved (k : string) : bool :=
  bool_decide (k ∈ reservedLabels) || String.prefix "by_" k.

(** The second loop of [prepare], with the ids seen so far. *)
Fixpoint prepare_ids (ids : gset string) (streams : list EstimatorConfig) : result unit :=
  match streams with
  | [] => Ok tt
  | ec :: rest =>
      if existsb (λ kv, is_reserved (fst kv)) (map_to_list (labels_of (ec_Labels ec)))
      then Error "static label name is reserved and cannot be used in labels"
      else if decide (config_id ec ∈ ids)
      then Error "streams have the same labels, group_by, interval and filter"
      else prepare_ids ({[config_id ec]} ∪ ids) rest
  end.

Definition prepare (cpus : Z) (streams : list EstimatorConfig) : result (list EstimatorConfig) :=
  match prepare_streams cpus streams with
  | Error e => Error e
  | Ok streams =>
      match prepare_ids ∅ streams with
      | Error e => Error e
      | Ok _ => Ok streams
      end
  end.

(** ** Series filters *)
Record LabelFilter := mkLabelFilter {
  lf_Label : string; lf_Value : string; lf_IsNegative : bool; lf_IsRegexp : bool
}.

(** The metricsql library: [Parse] gives an error, an expression that is not
    a metric selector ([None]), or the selector's OR groups. *)
Class MetricsQL := {
  Regexp : Type;
  metricsql_Parse : string → result (option (list (list LabelFilter)));
  CompileRegexpAnchored : string → result Regexp;
  MatchString : Regexp → string → bool
}.

Section Filters.
Context `{MetricsQL}.

(** [re] is non-nil exactly for regexp filters. *)
Record labelFilter := mkFilter {
  f_label : string; f_value : string; f_isNegative : bool; f_isRegexp : bool; f_re : option Regexp
}.
Definition compiledFilter := list labelFilter.

Fixpoint compile_group (lfs : list LabelFilter) : result compiledFilter :=
  match lfs with
  | [] => Ok []
  | lf :: lfs' =>
      let f := mkFilter (lf_Label lf) (lf_Value lf) (lf_IsNegative lf) (lf_IsRegexp lf) in
      match (if lf_IsRegexp lf then
               match CompileRegexpAnchored (lf_Value lf) with
               | Ok re => Ok (f (Some re))
               | Error e => Error e
               end
             else Ok (f None)) with
      | Error e => Error e
      | Ok f =>
          match compile_group lfs' with
          | Error e => Error e
          | Ok fs => Ok (f :: fs)
          end
      end
  end.

Definition compileFilters (filter : string) : result compiledFilter :=
  if decide (filter = EmptyString) then Ok []
  else
    match metricsql_Parse filter with
    | Error e => Error e
    | Ok None => Error "filter must be a metric selector"
    | Ok (Some []) => Ok []
    | Ok (Some [lfs]) => compile_group lfs
    | Ok (Some _) => Error "filter must not contain OR groups"
    end.

(** The value of the first label called [name], or the empty string. *)
Fixpoint label_value (name : string) (labels : list Label) : string :=
  match labels with
  | [] => EmptyString
  | l :: labels' => if decide (Name l = name) then Value l else label_value name labels'
  end.

(** A nil [re] is a nil dereference. *)
Fixpoint filter_match (cf : compiledFilter) (labels : list Label) : option bool :=
  match cf with
  | [] => Some true
  | f :: cf' =>
      let val := label_value (f_label f) labels in
      matched ← (if f_isRegexp f then re ← f_re f; Some (MatchString re val)
                 else Some (bool_decide (val = f_value f)));
      let matched := if f_isNegative f then negb matched else matched in
      if negb matched then Some false else filter_match cf' labels
  end.
End Filters.

(** ** Prepared group-by keys *)
Lemma filter_keyword_replicate l :
  filter is_keyword l = replicate (length (filter is_keyword l)) labelKeyword.
Proof.
  induction l as [|g l IH]; [done|]. rewrite filter_cons. destruct (decide _) as [->|]; simpl; [by f_equal|done].
Qed.

Lemma filter_split_perm {A} (P : A → Prop) `{∀ x, Decision (P x)} (l : list A) :
  (filter (λ x, ¬ P x) l ++ filter P l)%list ≡ₚ l.
Proof.
  induction l as [|x l IH]; [done|]. rewrite !filter_cons.
  destruct (decide (P x)) as [Hx|Hx]; rewrite ?(decide_False (P := ¬ P x)), ?(decide_True (P := ¬ P x)) by auto.
  - rewrite <- Permutation_middle. by f_equiv.
  - simpl. by f_equiv.
Qed.

(** The shape of a prepared [group_by]: the sorted keys, then [__label__]. *)
Record groupBy_prepared (g : list string) (body : list string) : Prop := {
  gp_shape : g = body ∨ g = (body ++ [labelKeyword])%list;
  gp_sorted : StronglySorted String.le body;
  gp_body : labelKeyword ∉ body
}.

Lemma filter_not_keyword l : labelKeyword ∉ l → filter (λ g, ¬ is_keyword g) l = l ∧ filter is_keyword l = [].
Proof.
  induction l as [|g l IH]; [done|]. intros [Hg Hl]%not_elem_of_cons. destruct (IH Hl) as [E1 E2].
  assert (¬ is_keyword g) as Hk by (intros ->; done).
  by rewrite !filter_cons, (decide_True (P := ¬ is_keyword g)), (decide_False (P := is_keyword g)), E1, E2.
Qed.

Lemma prepare_groupBy_ok g g' : prepare_groupBy g = Ok g' →
  g' ≡ₚ g ∧ ∃ body, groupBy_prepared g' body.
Proof.
  unfold prepare_groupBy. set (s := sort_Strings g). pose proof (sort_Strings_perm g : s ≡ₚ g) as Hp.
  pose proof (filter_split_perm is_keyword s) as Hs.
  set (body := filter (λ g, ¬ is_keyword g) s) in *. rewrite (filter_keyword_replicate s) in Hs.
  assert (StronglySorted String.le body) as Hsort by apply StronglySorted_filter, sort_Strings_sorted.
  assert (labelKeyword ∉ body) as Hnot by (intros [H _]%list_elem_of_filter; by apply H).
  destruct (decide (1 < _)%nat) as [|H1]; [done|].
  destruct (decide (_ = 1%nat)) as [H2|H2]; intros [= <-].
  - rewrite H2 in Hs. simpl in Hs. rewrite Hs. split; [done|]. exists body. split; auto.
  - assert (length (filter is_keyword s) = 0%nat) as H0 by lia.
    rewrite H0 in Hs. simpl in Hs. rewrite app_nil_r in Hs. rewrite Hs. split; [done|]. exists body. split; auto.
Qed.

Lemma prepare_groupBy_perm g1 g2 : g1 ≡ₚ g2 → prepare_groupBy g1 = prepare_groupBy g2.
Proof. intros H. unfold prepare_groupBy. by rewrite (sort_Strings_ext g1 g2 H). Qed.

Lemma prepare_groupBy_fixed g body : groupBy_prepared g body → prepare_groupBy g = Ok g.
Proof.
  intros [Hshape Hsort Hnot]. unfold prepare_groupBy.
  pose proof (filter_not_keyword body Hnot) as [E1 E2].
  assert (filter (λ g, ¬ is_keyword g) (sort_Strings g) = body) as ->.
  { apply (StronglySorted_unique String.le); [apply StronglySorted_filter, sort_Strings_sorted|done|].
    rewrite sort_Strings_perm. destruct Hshape as [->| ->]; [by rewrite E1|].
    rewrite filter_app, E1. simpl. by rewrite app_nil_r. }
  assert (length (filter is_keyword (sort_Strings g)) = length (filter is_keyword g)) as ->.
  { apply Permutation_length, filter_Permutation, sort_Strings_perm. }
  destruct Hshape as [->| ->]; [by rewrite E2|]. by rewrite filter_app, E2.
Qed.

(** ** Prepared configs *)
Record config_wf (ec : EstimatorConfig) : Prop := {
  wf_groupBy : ∃ body, groupBy_prepared (GroupBy ec) body;
  wf_limit : 0 < GroupLimit ec;
  wf_labels : ec_Labels ec ≠ Some ∅;
  wf_interval : Interval ec ≠ 0;
  wf_buckets : 0 < Buckets ec;
  wf_precision : 4 <= HLLPrecision ec <= 18;
  wf_sparse : ∃ b, HLLSparse ec = Some b
}.

Lemma applyDefaults_wf cpus ec : (∃ body, groupBy_prepared (GroupBy ec) body) →
  HLLPrecision ec = 0 ∨ 4 <= HLLPrecision ec <= 18 → config_wf (applyDefaults cpus ec).
Proof.
  intros Hg Hp. unfold applyDefaults. split; simpl; [done|..].
  - destruct (Z.leb_spec (GroupLimit ec) 0); lia.
  - destruct (decide _); [done|]. intros E. by rewrite E in *.
  - destruct (Z.eqb_spec (Interval ec) 0); [done|lia].
  - destruct (Z.leb_spec (Buckets ec) 0); lia.
  - destruct (Z.eqb_spec (HLLPrecision ec) 0); lia.
  - destruct (HLLSparse ec); eauto.
Qed.

Lemma applyDefaults_fixed cpus ec : config_wf ec → applyDefaults cpus ec = ec.
Proof.
  intros [_ H1 H2 H3 H4 H5 [b H6]]. destruct ec; simpl in *. unfold applyDefaults; simpl. rewrite H6.
  rewrite (proj2 (Z.leb_gt _ _) H1), (proj2 (Z.leb_gt _ _) H4).
  rewrite (proj2 (Z.eqb_neq _ _) H3), (proj2 (Z.eqb_neq HLLPrecision0 0)) by lia. f_equal.
  destruct (decide _) as [E|]; [|done]. destruct ec_Labels0; simpl in E; [by subst|done].
Qed.

Lemma prepare_stream_ok cpus ec ec' : prepare_stream cpus ec = Ok ec' →
  0 <= HLLPrecision ec → config_wf ec' ∧ GroupBy ec' ≡ₚ GroupBy ec.
Proof.
  unfold prepare_stream. intros E Hp. destruct (negb _ && _) eqn:Eb; [done|].
  destruct (prepare_groupBy _) as [g|] eqn:Eg; [|done]. injection E as <-.
  apply prepare_groupBy_ok in Eg as [Hperm Hg]. split; [|done]. apply applyDefaults_wf; [done|]. simpl.
  destruct (Z.eqb_spec (HLLPrecision ec) 0); [by left|]. right. simpl in Eb.
  apply orb_false_iff in Eb as [?%Z.ltb_ge ?%Z.ltb_ge]. lia.
Qed.

Lemma prepare_stream_fixed cpus ec : config_wf ec → prepare_stream cpus ec = Ok ec.
Proof.
  intros Hwf. pose proof Hwf as [[body Hg] _ _ _ _ Hp _]. unfold prepare_stream.
  rewrite (proj2 (Z.ltb_ge _ _)), (proj2 (Z.ltb_ge 18 _)), andb_false_r by lia.
  rewrite (prepare_groupBy_fixed _ body Hg). f_equal.
  destruct ec. by apply applyDefaults_fixed.
Qed.

Lemma prepare_streams_ok cpus ss ss' : prepare_streams cpus ss = Ok ss' →
  Forall (λ ec, 0 <= HLLPrecision ec) ss →
  Forall2 (λ ec ec', config_wf ec' ∧ GroupBy ec' ≡ₚ GroupBy ec) ss ss'.
Proof.
  revert ss'. induction ss as [|ec ss IH]; intros ss' E Hp; simpl in E; [by injection E as <-|].
  destruct (prepare_stream cpus ec) eqn:E1; [|done]. destruct (prepare_streams cpus ss); [|done].
  injection E as <-. apply Forall_cons in Hp as [Hp Hps]. constructor; [|by apply IH].
  by apply (prepare_stream_ok cpus).
Qed.

Lemma prepare_streams_fixed cpus ss : Forall config_wf ss → prepare_streams cpus ss = Ok ss.
Proof. induction 1 as [|ec ss Hec _ IH]; simpl; [done|]. by rewrite prepare_stream_fixed, IH. Qed.

Definition labels_free (ec : EstimatorConfig) : Prop :=
  ∀ k, is_Some (labels_of (ec_Labels ec) !! k) → is_reserved k = false.

Lemma labels_free_existsb ec :
  existsb (λ kv, is_reserved (fst kv)) (map_to_list (labels_of (ec_Labels ec))) = false ↔ labels_free ec.
Proof.
  unfold labels_free. rewrite <- not_true_iff_false, existsb_exists. split.
  - intros H k [v Hk]. apply not_true_iff_false. intros Hr. apply H. exists (k, v). split; [|done].
    by apply list_elem_of_In, elem_of_map_to_list.
  - intros H ([k v] & Hin & Hr). apply list_elem_of_In, elem_of_map_to_list in Hin.
    simpl in Hr. rewrite H in Hr by eauto. done.
Qed.

Lemma prepare_ids_ok ids ss : prepare_ids ids ss = Ok tt ↔
  Forall labels_free ss ∧ NoDup (map config_id ss) ∧ (∀ ec, ec ∈ ss → config_id ec ∉ ids).
Proof.
  revert ids. induction ss as [|ec ss IH]; intros ids; simpl.
  { split; [|done]. intros _. split_and!; [constructor|constructor|]. intros ec H. by apply not_elem_of_nil in H. }
  destruct (existsb _ _) eqn:Ef.
  { split; [done|]. intros ([Hf _]%Forall_cons & _). apply labels_free_existsb in Hf. congruence. }
  apply labels_free_existsb in Ef. rewrite Forall_cons, NoDup_cons.
  destruct (decide (config_id ec ∈ ids)) as [Hin|Hin].
  { split; [done|]. intros (_ & _ & H). by destruct (H ec); [left|]. }
  rewrite IH. setoid_rewrite elem_of_cons. setoid_rewrite not_elem_of_union.
  setoid_rewrite not_elem_of_singleton. rewrite list_elem_of_fmap. split.
  - intros (Hf & Hn & Hi). split_and!; [done|done|..].
    + intros (ec' & E & Hec'). by destruct (Hi ec' Hec') as [? _].
    + done.
    + intros ec' [->|H']; [done|]. by apply Hi.
  - intros ([_ Hf] & [Hn Hnd] & Hi). split_and!; [done|done|]. intros ec' H'. split; [|auto].
    intros E. apply Hn. eauto.
Qed.

Lemma prepare_ok cpus ss ss' :
  Forall (λ ec, 0 <= HLLPrecision ec) ss → prepare cpus ss = Ok ss' →
  Forall2 (λ ec ec', GroupBy ec' ≡ₚ GroupBy ec) ss ss' ∧ Forall config_wf ss' ∧
  Forall labels_free ss' ∧ NoDup (map config_id ss') ∧ prepare cpus ss' = Ok ss'.
Proof.
  unfold prepare. intros Hp E. destruct (prepare_streams cpus ss) as [ss1|] eqn:E1; [|done].
  destruct (prepare_ids ∅ ss1) as [[]|] eqn:E2; [|done]. injection E as <-.
  pose proof (prepare_streams_ok cpus ss ss1 E1 Hp) as H.
  assert (Forall config_wf ss1) as Hwf by (eapply Forall2_Forall_r; [done|]; apply Forall_true; naive_solver).
  pose proof (proj1 (prepare_ids_ok ∅ ss1) E2) as (Hf & Hn & _). split_and!; [|done|done|done|].
  - eapply Forall2_impl; [done|]. by intros ?? [_ ?].
  - by rewrite prepare_streams_fixed, E2.
Qed.

(** C38: what [prepare] guarantees.  When it accepts the streams, it keeps
    their number and order and the keys each groups by; every stream is then
    well formed (keys sorted with [__label__] last, precision in [4, 18],
    positive limit and bucket count, an explicit sparse setting); no static
    label is reserved; no two streams have the same id; and preparing the
    result again changes nothing, so that reloading an unchanged file compares
    equal. *)
Theorem prepare_spec cpus ss ss' :
  Forall (λ ec, 0 <= HLLPrecision ec) ss → prepare cpus ss = Ok ss' →
  Forall2 (λ ec ec', GroupBy ec' ≡ₚ GroupBy ec) ss ss' ∧ Forall config_wf ss' ∧
  Forall labels_free ss' ∧ NoDup (map config_id ss') ∧ prepare cpus ss' = Ok ss'.
Proof. exact (prepare_ok cpus ss ss'). Qed.

(** The same stream with its [group_by] keys listed in another order. *)
Definition reordered (ec ec' : EstimatorConfig) : Prop :=
  ∃ g, GroupBy ec ≡ₚ g ∧ ec' = set_GroupBy ec g.

Lemma prepare_streams_reordered cpus ss ss' :
  Forall2 reordered ss ss' → prepare_streams cpus ss = prepare_streams cpus ss'.
Proof.
  induction 1 as [|ec ec' ss ss' (g & Hg & ->) _ IH]; simpl; [done|]. rewrite IH.
  unfold prepare_stream. simpl. by rewrite (prepare_groupBy_perm _ _ Hg).
Qed.

(** The order in which streams list their [group_by] keys is irrelevant:
    the prepared streams, hence the estimator ids, are the same. *)
Theorem prepare_group_by_order cpus ss ss' :
  Forall2 reordered ss ss' → prepare cpus ss = prepare cpus ss'.
Proof. intros H. unfold prepare. by rewrite (prepare_streams_reordered cpus ss ss' H). Qed.

(** ** What a compiled filter selects *)
Section FilterSpec.
Context `{MetricsQL}.

(** One matcher of a metric selector: equality or an anchored regexp, possibly
    negated; a missing label counts as empty. *)
Definition selects (labels : list Label) (lf : LabelFilter) : Prop :=
  let val := label_value (lf_Label lf) labels in
  let holds := if lf_IsRegexp lf
               then ∃ re, CompileRegexpAnchored (lf_Value lf) = Ok re ∧ MatchString re val = true
               else val = lf_Value lf in
  if lf_IsNegative lf then ¬ holds else holds.

Lemma compile_group_match lfs cf labels : compile_group lfs = Ok cf →
  ∃ b, filter_match cf labels = Some b ∧ (b = true ↔ Forall (selects labels) lfs).
Proof.
  revert cf. induction lfs as [|lf lfs IH]; intros cf E; simpl in E.
  { injection E as <-. exists true. done. }
  destruct (lf_IsRegexp lf) eqn:Er.
  - destruct (CompileRegexpAnchored _) as [re|] eqn:Ec; [|done].
    destruct (compile_group lfs) as [fs|]; [|done]. injection E as <-.
    destruct (IH fs eq_refl) as (b & Eb & Hb). simpl.
    set (v := MatchString re (label_value (lf_Label lf) labels)).
    exists (if (if lf_IsNegative lf then negb v else v) then b else false).
    split; [destruct (if lf_IsNegative lf then _ else _); done|].
    rewrite Forall_cons. assert (selects labels lf ↔ (if lf_IsNegative lf then negb v else v) = true) as ->.
    { unfold selects. rewrite Er, Ec. fold v. assert ((∃ re0, Ok re = Ok re0 ∧ MatchString re0 (label_value (lf_Label lf) labels) = true) ↔ v = true) as Hv.
      { split; [intros (? & [= <-] & ?); done|]. intros. by exists re. }
      destruct (lf_IsNegative lf); rewrite Hv; [|done]. destruct v; naive_solver. }
    destruct (if lf_IsNegative lf then negb v else v); naive_solver.
  - destruct (compile_group lfs) as [fs|]; [|done]. injection E as <-.
    destruct (IH fs eq_refl) as (b & Eb & Hb). simpl.
    set (v := bool_decide (label_value (lf_Label lf) labels = lf_Value lf)).
    exists (if (if lf_IsNegative lf then negb v else v) then b else false).
    split; [destruct (if lf_IsNegative lf then _ else _); done|].
    rewrite Forall_cons. assert (selects labels lf ↔ (if lf_IsNegative lf then negb v else v) = true) as ->.
    { unfold selects. rewrite Er. assert (label_value (lf_Label lf) labels = lf_Value lf ↔ v = true) as Hv
        by (unfold v; by rewrite bool_decide_eq_true).
      destruct (lf_IsNegative lf); rewrite Hv; [|done]. destruct v; naive_solver. }
    destruct (if lf_IsNegative lf then negb v else v); naive_solver.
Qed.

Lemma label_value_perm name ls ls' : NoDup (map Name ls) → ls ≡ₚ ls' →
  label_value name ls = label_value name ls'.
Proof.
  intros Hn Hp. induction Hp as [|l ls ls' _ IH|l1 l2 ls|ls1 ls2 ls3 H1 IH1 H2 IH2]; simpl in *.
  - done.
  - destruct (decide _); [done|]. apply IH. by apply NoDup_cons in Hn as [_ ?].
  - apply NoDup_cons in Hn as [Hn _]. destruct (decide (Name l1 = name)), (decide (Name l2 = name)); try done.
    destruct Hn. subst. rewrite e0. left.
  - rewrite IH1 by done. apply IH2. by rewrite <- H1.
Qed.

(** C39: a filter selects what its metric selector says.  A filter that
    compiles never dereferences a nil regexp when matched; it matches a series
    exactly when every matcher of the selector does (a missing label counting
    as empty); and the order of the series' labels is irrelevant when their
    names are distinct. *)
Theorem compileFilters_match filter lfs cf labels :
  filter ≠ EmptyString → metricsql_Parse filter = Ok (Some [lfs]) → compileFilters filter = Ok cf →
  (∃ b, filter_match cf labels = Some b ∧ (b = true ↔ Forall (selects labels) lfs)) ∧
  ∀ labels', NoDup (map Name labels) → labels ≡ₚ labels' →
    filter_match cf labels' = filter_match cf labels.
Proof.
  intros Hne Hp. unfold compileFilters. rewrite decide_False, Hp by done. intros E.
  split; [by apply compile_group_match|]. intros labels' Hn Hperm.
  destruct (compile_group_match lfs cf labels E) as (b & -> & Hb).
  destruct (compile_group_match lfs cf labels' E) as (b' & -> & Hb'). f_equal.
  apply eq_bool_prop_intro. rewrite !Is_true_true, Hb, Hb'.
  apply Forall_proper; [|done]. intros lf. unfold selects.
  by rewrite (label_value_perm (lf_Label lf) labels labels') by done.
Qed.

(** A filter that names no label matches every series. *)
Lemma compileFilters_empty labels cf : compileFilters EmptyString = Ok cf → filter_match cf labels = Some true.
Proof. unfold compileFilters. rewrite decide_True by done. by intros [= <-]. Qed.

Lemma compileFilters_total filter cf labels : compileFilters filter = Ok cf →
  ∃ b, filter_match cf labels = Some b.
Proof.
  unfold compileFilters. destruct (decide _); [intros [= <-]; by exists true|].
  destruct (metricsql_Parse filter) as [[[|lfs [|]]|]|]; try done.
  - intros [= <-]. by exists true.
  - intros E. destruct (compile_group_match lfs cf labels E) as (b & ? & _). eauto.
Qed.
End FilterSpec.

(** ** Concrete configs *)
Definition empty_config : EstimatorConfig :=
  mkConfig EmptyString [] 0 None 0 false 0 0 None 0.

Lemma prepare_spec_witness :
  ∃ ec', prepare 4 [set_GroupBy empty_config ["job"; labelKeyword; "__name__"]] = Ok [ec'] ∧
    GroupBy ec' = ["__name__"; "job"; labelKeyword] ∧ prepare 4 [ec'] = Ok [ec'].
Proof.
  eexists. assert (prepare 4 [set_GroupBy empty_config ["job"; labelKeyword; "__name__"]] =
    Ok [set_GroupBy (applyDefaults 4 empty_config) ["__name__"; "job"; labelKeyword]]) as E by reflexivity.
  split; [exact E|]. split; [reflexivity|].
  apply (prepare_spec 4 [set_GroupBy empty_config ["job"; labelKeyword; "__name__"]]); [|exact E].
  repeat constructor; vm_compute; congruence.
Defined.

Lemma prepare_group_by_order_witness :
  prepare 4 [set_GroupBy empty_config ["b"; "a"]] = prepare 4 [set_GroupBy empty_config ["a"; "b"]].
Proof.
  apply prepare_group_by_order. constructor; [|constructor].
  exists ["a"; "b"]. split; [apply Permutation_swap|reflexivity].
Defined.

(** A parser for one selector, with literal strings as regexps. *)
Definition demo_ql : MetricsQL := {|
  Regexp := string;
  metricsql_Parse f := Ok (Some [[mkLabelFilter "job" "x" true false; mkLabelFilter "env" f false true]]);
  CompileRegexpAnchored s := Ok s;
  MatchString re v := bool_decide (re = v)
|}.

Lemma compileFilters_match_witness :
  ∃ cf, @compileFilters demo_ql "prod" = Ok cf ∧
    (∃ b, @filter_match demo_ql cf [mkLabel "env" "prod" 0] = Some b ∧ b = true) ∧
    @filter_match demo_ql cf [mkLabel "env" "prod" 0; mkLabel "job" "x" 0] = Some false.
Proof.
  eexists. split; [reflexivity|]. split; [|reflexivity].
  destruct (@compileFilters_match demo_ql "prod" _ _ [mkLabel "env" "prod" 0] ltac:(done) eq_refl eq_refl)
    as ((b & Eb & _) & _).
  exists b. split; [exact Eb|]. vm_compute in Eb. congruence.
Defined.
