(* ===== verification/GroupSize.v ===== *)
(** * GroupSize: the group limit shared by an estimator's buckets

    Models [groupSize] of app/vmestimator/estimator.go: [allowInsertLocked]
    (also split at the point where another bucket can run between the load of
    [size] and the addition to it), [rotateLocked], [totalSize],
    [totalRejected] and [avgBucketSize]. *)
From S2P Require Import Prelude GoFloat SketchSpec.

Section Defs.
Context `{Ops : SketchOps}.

Record groupSize := mkGroupSize {
  gs_limit : Z;
  gs_size : Z;
  gs_bucketSizes : list Z;
  gs_rejectSketches : list (option sketch)
}.

Definition newGroupSize (limit buckets : Z) : groupSize :=
  mkGroupSize limit 0 (replicate (Z.to_nat buckets) 0) (replicate (Z.to_nat buckets) None).

(** A panic when the sketch cannot be created. *)
Definition mustNewSketch (precision : Z) (sparse : bool) : option sketch :=
  match sk_new precision sparse with Ok sk => Some sk | Error _ => None end.
Definition mustNewGroupRejectSketch : option sketch := mustNewSketch 10 true.

Definition set_reject (gs : groupSize) (idx : nat) (sk : option sketch) : groupSize :=
  mkGroupSize (gs_limit gs) (gs_size gs) (gs_bucketSizes gs) (<[idx := sk]> (gs_rejectSketches gs)).

(** [gs.size.Load() >= gs.limit]. *)
Definition limit_reached (gs : groupSize) : bool := gs_limit gs <=? gs_size gs.

(** The key of a group over the limit is counted in the bucket's sketch. *)
Definition reject_group (gs : groupSize) (idx : nat) (key : Z) : option groupSize :=
  slot ← gs_rejectSketches gs !! idx;
  sk ← match slot with Some sk => Some sk | None => mustNewGroupRejectSketch end;
  sk ← sk_InsertHash sk key;
  Some (set_reject gs idx (Some sk)).

(** [gs.bucketSizes[bucketIdx]++; gs.size.Add(1)]. *)
Definition admit_group (gs : groupSize) (idx : nat) : option groupSize :=
  n ← gs_bucketSizes gs !! idx;
  Some (mkGroupSize (gs_limit gs) (gs_size gs + 1) (<[idx := n + 1]> (gs_bucketSizes gs))
          (gs_rejectSketches gs)).

Definition allowInsertLocked (gs : groupSize) (idx : nat) (key : Z) : option (groupSize * bool) :=
  if limit_reached gs then gs ← reject_group gs idx key; Some (gs, false)
  else gs ← admit_group gs idx; Some (gs, true).

Definition rotateLocked (gs : groupSize) (idx : nat) (size : Z) : option groupSize :=
  n ← gs_bucketSizes gs !! idx;
  _ ← gs_rejectSketches gs !! idx;
  let diff := n - size in
  let gs :=
    if 0 <? diff then
      mkGroupSize (gs_limit gs) (gs_size gs - diff) (<[idx := n - diff]> (gs_bucketSizes gs))
        (gs_rejectSketches gs)
    else gs in
  Some (set_reject gs idx None).

(** The sum of the estimates; [Estimate] may rearrange each sketch. *)
Fixpoint sum_rejected (sks : list (option sketch)) (sum : Z) : option (list (option sketch) * Z) :=
  match sks with
  | [] => Some ([], sum)
  | None :: sks => '(sks, sum) ← sum_rejected sks sum; Some (None :: sks, sum)
  | Some sk :: sks =>
      '(sk, n) ← sk_Estimate sk;
      '(sks, sum) ← sum_rejected sks (sum +[64] n);
      Some (Some sk :: sks, sum)
  end.
Definition totalRejected (gs : groupSize) : option (groupSize * Z) :=
  '(sks, n) ← sum_rejected (gs_rejectSketches gs) 0;
  Some (mkGroupSize (gs_limit gs) (gs_size gs) (gs_bucketSizes gs) sks, n).

(** [int64(float64(gs.limit)*0.8)]. *)
Definition reject_threshold (limit : Z) : Z :=
  default (- 2 ^ 63) (ftrunc (fmul (float_of_Z limit) (decimal 8 1))).
Definition totalSize (gs : groupSize) : option (groupSize * Z) :=
  if reject_threshold (gs_limit gs) <=? gs_size gs then
    '(gs, n) ← totalRejected gs; Some (gs, wrapS 64 (gs_size gs + wrapS 64 n))
  else Some (gs, gs_size gs).

Definition avgBucketSize (gs : groupSize) : option Z :=
  match gs_bucketSizes gs with
  | [] => None
  | sizes => Some (Z.quot (gs_size gs) (Z.of_nat (length sizes)))
  end.

(** ** Interleaved buckets

    A bucket's operations run under its lock, the counter is shared.  The flag
    of a bucket says that an insert of it has passed the check and has not yet
    added to the counter; meanwhile other buckets may run. *)
Inductive gs_step : groupSize * list bool → groupSize * list bool → Prop :=
| gs_check gs pcs b :
    pcs !! b = Some false → limit_reached gs = false →
    gs_step (gs, pcs) (gs, <[b := true]> pcs)
| gs_reject gs pcs b key gs' :
    uint 64 key → pcs !! b = Some false → limit_reached gs = true → reject_group gs b key = Some gs' →
    gs_step (gs, pcs) (gs', pcs)
| gs_admit gs pcs b gs' :
    pcs !! b = Some true → admit_group gs b = Some gs' →
    gs_step (gs, pcs) (gs', <[b := false]> pcs)
| gs_rotate gs pcs b n gs' :
    pcs !! b = Some false → 0 <= n → rotateLocked gs b n = Some gs' →
    gs_step (gs, pcs) (gs', pcs).
End Defs.

(** ** What the buckets keep true of it *)
Section Proofs.
Context `{Spec : SketchSpec}.

(** The keys a reject sketch counts; none before the first rejection. *)
Definition reject_repr (X : gset Z) (slot : option sketch) : Prop :=
  match slot with None => X = ∅ | Some sk => represents 10 X sk end.

Record gs_ok (gs : groupSize) : Prop := {
  gs_len : length (gs_rejectSketches gs) = length (gs_bucketSizes gs);
  gs_sum : gs_size gs = zsum (gs_bucketSizes gs);
  gs_nonneg : Forall (Z.le 0) (gs_bucketSizes gs);
  gs_rejects : Forall (λ slot, ∃ X, reject_repr X slot) (gs_rejectSketches gs)
}.

Lemma newGroupSize_ok limit buckets : gs_ok (newGroupSize limit buckets).
Proof.
  split; simpl; [by rewrite !length_replicate|by rewrite zsum_replicate_0|..].
  - by apply Forall_replicate.
  - apply Forall_replicate. by exists ∅.
Qed.

Lemma set_reject_ok gs idx slot X : gs_ok gs → reject_repr X slot → gs_ok (set_reject gs idx slot).
Proof.
  intros [H1 H2 H3 H4] HX. split; simpl; [by rewrite length_insert|done|done|].
  apply Forall_insert; [done|]. by exists X.
Qed.

Lemma reject_group_ok gs idx key : gs_ok gs → (idx < length (gs_bucketSizes gs))%nat → uint 64 key →
  ∃ sk X, reject_group gs idx key = Some (set_reject gs idx (Some sk)) ∧
    (∃ slot, gs_rejectSketches gs !! idx = Some slot ∧ reject_repr X slot) ∧
    represents 10 ({[key]} ∪ X) sk ∧ gs_ok (set_reject gs idx (Some sk)).
Proof.
  intros Hgs Hi Hk. unfold reject_group.
  destruct (lookup_lt_is_Some_2 (gs_rejectSketches gs) idx) as [slot E].
  { by rewrite (gs_len gs Hgs). }
  rewrite E. simpl. pose proof (gs_rejects gs Hgs) as Hr. rewrite Forall_lookup in Hr.
  destruct (Hr idx slot E) as [X HX].
  assert (∃ sk0, match slot with Some sk => Some sk | None => mustNewGroupRejectSketch end = Some sk0 ∧
            represents 10 X sk0) as (sk0 & -> & H0).
  { destruct slot as [sk|]; simpl in HX; [by exists sk|]. subst.
    destruct (new_ok 10 true ltac:(lia)) as (sk & Enew & Hsk). exists sk.
    unfold mustNewGroupRejectSketch, mustNewSketch. by rewrite Enew. }
  simpl. destruct (InsertHash_ok 10 X sk0 key H0 Hk) as (sk & -> & Hsk). simpl.
  exists sk, X. split_and!; [done|by exists slot|done|]. by eapply set_reject_ok.
Qed.

Lemma admit_group_ok gs idx n : gs_ok gs → gs_bucketSizes gs !! idx = Some n →
  ∃ gs', admit_group gs idx = Some gs' ∧ gs_ok gs' ∧ gs_limit gs' = gs_limit gs ∧
    gs_size gs' = gs_size gs + 1 ∧ gs_bucketSizes gs' = <[idx := n + 1]> (gs_bucketSizes gs) ∧
    gs_rejectSketches gs' = gs_rejectSketches gs.
Proof.
  intros [H1 H2 H3 H4] E. unfold admit_group. rewrite E. simpl. eexists. split; [done|].
  split_and!; try done. split; simpl; [by rewrite length_insert| |..].
  - rewrite (zsum_insert _ _ n) by done. lia.
  - apply Forall_insert; [done|]. pose proof (Forall_lookup_Z _ _ _ _ H3 E). simpl in *. lia.
  - done.
Qed.

Lemma rotateLocked_ok gs idx n size : gs_ok gs → gs_bucketSizes gs !! idx = Some n → 0 <= size →
  ∃ gs', rotateLocked gs idx size = Some gs' ∧ gs_ok gs' ∧ gs_limit gs' = gs_limit gs ∧
    gs_size gs' = gs_size gs - n + Z.min n size ∧
    gs_bucketSizes gs' = <[idx := Z.min n size]> (gs_bucketSizes gs) ∧
    gs_rejectSketches gs' = <[idx := None]> (gs_rejectSketches gs).
Proof.
  intros Hgs E Hs. pose proof Hgs as [H1 H2 H3 H4]. unfold rotateLocked. rewrite E. simpl.
  pose proof (Forall_lookup_Z _ _ _ _ H3 E) as Hn. simpl in Hn.
  destruct (lookup_lt_is_Some_2 (gs_rejectSketches gs) idx) as [slot Er].
  { rewrite H1. by eapply lookup_lt_Some. }
  rewrite Er. simpl. eexists. split; [done|].
  destruct (Z.ltb_spec 0 (n - size)).
  - rewrite Z.min_r by lia. replace (n - (n - size)) with size by lia.
    split_and!; simpl; try done; [|lia].
    apply (set_reject_ok _ _ None ∅); [|done]. split; simpl; [by rewrite length_insert| |by apply Forall_insert|done].
    rewrite (zsum_insert _ _ n) by done. lia.
  - rewrite Z.min_l by lia. split_and!; simpl; try done; [by apply (set_reject_ok _ _ None ∅)|lia|].
    by rewrite list_insert_id.
Qed.

(** Admission, as the buckets use it. *)
Lemma allowInsertLocked_ok gs idx n key :
  gs_ok gs → gs_bucketSizes gs !! idx = Some n → uint 64 key →
  ∃ gs', allowInsertLocked gs idx key = Some (gs', bool_decide (gs_size gs < gs_limit gs)) ∧ gs_ok gs' ∧
    gs_limit gs' = gs_limit gs ∧
    gs_bucketSizes gs' = <[idx := n + Z.b2z (bool_decide (gs_size gs < gs_limit gs))]> (gs_bucketSizes gs).
Proof.
  intros Hgs E Hk. unfold allowInsertLocked, limit_reached.
  destruct (Z.leb_spec (gs_limit gs) (gs_size gs)).
  - destruct (reject_group_ok gs idx key Hgs) as (sk & X & -> & _ & _ & Hok);
      [by eapply lookup_lt_Some|done|].
    simpl. rewrite bool_decide_false by lia. eexists. split_and!; [done|done|done|].
    simpl. by rewrite Z.add_0_r, list_insert_id.
  - destruct (admit_group_ok gs idx n Hgs E) as (gs' & -> & Hok & ? & ? & ? & ?).
    simpl. rewrite bool_decide_true by lia. by eexists.
Qed.

(** Admission to the group limit.  For a known bucket [allowInsertLocked]
    never panics: below the limit it admits the group and adds it to the
    bucket's count and to the shared size; at the limit it refuses it, leaves
    both unchanged and counts the key in the bucket's reject sketch; and the
    shared size stays the sum of the buckets' counts. *)
Theorem allowInsertLocked_spec gs idx n key :
  gs_ok gs → gs_bucketSizes gs !! idx = Some n → uint 64 key →
  ∃ gs' allowed, allowInsertLocked gs idx key = Some (gs', allowed) ∧ gs_ok gs' ∧
    allowed = bool_decide (gs_size gs < gs_limit gs) ∧
    gs_limit gs' = gs_limit gs ∧
    gs_size gs' = gs_size gs + Z.b2z allowed ∧
    gs_bucketSizes gs' = <[idx := n + Z.b2z allowed]> (gs_bucketSizes gs) ∧
    if allowed then gs_rejectSketches gs' = gs_rejectSketches gs
    else ∃ sk slot X, gs_rejectSketches gs' = <[idx := Some sk]> (gs_rejectSketches gs) ∧
           gs_rejectSketches gs !! idx = Some slot ∧ reject_repr X slot ∧
           represents 10 ({[key]} ∪ X) sk.
Proof.
  intros Hgs E Hk. unfold allowInsertLocked, limit_reached.
  destruct (Z.leb_spec (gs_limit gs) (gs_size gs)).
  - destruct (reject_group_ok gs idx key Hgs) as (sk & X & -> & (slot & Es & HX) & Hsk & Hok);
      [by eapply lookup_lt_Some|done|].
    simpl. do 2 eexists. split; [done|]. rewrite bool_decide_false by lia. simpl.
    split_and!; try done; [lia| |by exists sk, slot, X]. rewrite Z.add_0_r. by rewrite list_insert_id.
  - destruct (admit_group_ok gs idx n Hgs E) as (gs' & -> & Hok & ? & ? & ? & ?).
    simpl. do 2 eexists. split; [done|]. by rewrite bool_decide_true by lia.
Qed.

(** ** Interleavings *)
Definition pending (pcs : list bool) : Z := zsum (map Z.b2z pcs).

Lemma pending_insert pcs b x y : pcs !! b = Some x →
  pending (<[b := y]> pcs) = pending pcs - Z.b2z x + Z.b2z y.
Proof.
  intros E. unfold pending. rewrite list_fmap_insert. apply zsum_insert. by rewrite list_lookup_fmap, E.
Qed.

Lemma pending_le pcs : pending pcs <= Z.of_nat (length pcs).
Proof. unfold pending. induction pcs as [|[] pcs IH]; simpl; lia. Qed.

Definition gs_inv (limit : Z) (s : groupSize * list bool) : Prop :=
  gs_ok s.1 ∧ gs_limit s.1 = limit ∧ length s.2 = length (gs_bucketSizes s.1) ∧
  gs_size s.1 + pending s.2 <= limit + Z.of_nat (length s.2) - 1.

Lemma gs_step_inv limit s s' : gs_inv limit s → gs_step s s' → gs_inv limit s'.
Proof.
  intros (Hok & Hlim & Hlen & Hsz) Hstep. simpl in *. destruct Hstep as
    [gs pcs b Hb Hl|gs pcs b key gs' Hk Hb Hl E|gs pcs b gs' Hb E|gs pcs b n gs' Hb Hn E]; simpl in *.
  - unfold limit_reached in Hl. apply Z.leb_gt in Hl. unfold gs_inv. simpl. rewrite length_insert.
    split_and!; [done..|]. rewrite (pending_insert pcs b false) by done.
    assert (pending pcs + 1 <= Z.of_nat (length pcs)) as Hp.
    { pose proof (pending_le (<[b := true]> pcs)) as Hle.
      rewrite (pending_insert pcs b false), length_insert in Hle by done. simpl in Hle. lia. }
    simpl. lia.
  - apply lookup_lt_Some in Hb as Hlt. rewrite Hlen in Hlt.
    destruct (reject_group_ok gs b key Hok Hlt Hk) as (sk & X & E' & _ & _ & Hok').
    rewrite E in E'. injection E' as ->. by split_and!.
  - apply lookup_lt_Some in Hb as Hlt. rewrite Hlen in Hlt.
    destruct (lookup_lt_is_Some_2 _ _ Hlt) as [n En].
    destruct (admit_group_ok gs b n Hok En) as (gs1 & E' & Hok' & ? & Hs & Hbs & _).
    rewrite E in E'. injection E' as ->. unfold gs_inv. simpl. rewrite length_insert.
    split_and!; [done|congruence|by rewrite Hbs, length_insert|].
    rewrite (pending_insert pcs b true) by done. simpl. lia.
  - apply lookup_lt_Some in Hb as Hlt. rewrite Hlen in Hlt.
    destruct (lookup_lt_is_Some_2 _ _ Hlt) as [m Em].
    destruct (rotateLocked_ok gs b m n Hok Em Hn) as (gs1 & E' & Hok' & ? & Hs & Hbs & _).
    rewrite E in E'. injection E' as ->. unfold gs_inv. simpl.
    split_and!; [done|congruence|by rewrite Hbs, length_insert|]. lia.
Qed.

(** C36: how far concurrent inserts can overshoot the group limit.  The check
    and the addition are two separate atomic operations, so buckets working at
    the same time can all pass the check below the limit; whatever the
    interleaving of inserts and rotations, the shared size stays the sum of the
    buckets' counts and exceeds the limit by less than the number of buckets. *)
Theorem concurrent_group_limit limit buckets gs pcs :
  0 < limit → 0 < buckets →
  rtc gs_step (newGroupSize limit buckets, replicate (Z.to_nat buckets) false) (gs, pcs) →
  gs_size gs = zsum (gs_bucketSizes gs) ∧ 0 <= gs_size gs <= limit + buckets - 1.
Proof.
  intros Hl Hb Hrun.
  assert (gs_inv limit (gs, pcs) ∧ length pcs = Z.to_nat buckets) as [(Hok & _ & _ & Hsz) Hlen].
  { assert (gs_inv limit (newGroupSize limit buckets, replicate (Z.to_nat buckets) false)) as H0.
    { split_and!; simpl; [apply newGroupSize_ok|done|by rewrite !length_replicate|].
      assert (pending (replicate (Z.to_nat buckets) false) = 0) as ->.
      { rewrite <- (zsum_replicate_0 (Z.to_nat buckets)). unfold pending. f_equal. apply fmap_replicate. }
      rewrite length_replicate. lia. }
    assert (∀ s s', gs_step s s' → length s'.2 = length s.2) as Hstep.
    { intros ?? []; simpl; by rewrite ?length_insert. }
    remember (newGroupSize limit buckets, replicate (Z.to_nat buckets) false) as s0 eqn:E.
    assert (length s0.2 = Z.to_nat buckets) as Hl0 by (subst; apply length_replicate).
    remember (gs, pcs) as s1 eqn:E1. replace pcs with (s1.2) by (by subst). clear E E1.
    induction Hrun as [|s0 s1 s2 Hs _ IH]; [done|]. apply IH; [by eapply gs_step_inv|].
    by rewrite (Hstep _ _ Hs). }
  simpl in *. pose proof (gs_sum gs Hok) as Hsum.
  pose proof (zsum_nonneg _ (gs_nonneg gs Hok)).
  assert (0 <= pending pcs) by (apply zsum_nonneg, Forall_map, Forall_true; by intros []).
  rewrite Hlen in Hsz. lia.
Qed.
End Proofs.

(** Two buckets pass the check of a limit of 1 together: both groups are
    admitted. *)
Lemma group_limit_overshoot `{Ops : SketchOps} :
  rtc gs_step (newGroupSize 1 2, [false; false])
    (mkGroupSize 1 2 [1; 1] [None; None], [false; false]).
Proof.
  set (gs n := mkGroupSize 1 n).
  eapply rtc_l; [exact (gs_check (gs 0 [0; 0] [None; None]) [false; false] 0 eq_refl eq_refl)|].
  eapply rtc_l; [exact (gs_check (gs 0 [0; 0] [None; None]) [true; false] 1 eq_refl eq_refl)|].
  eapply rtc_l; [exact (gs_admit (gs 0 [0; 0] [None; None]) [true; true] 0 (gs 1 [1; 0] [None; None]) eq_refl eq_refl)|].
  apply rtc_once.
  exact (gs_admit (gs 1 [1; 0] [None; None]) [false; true] 1 (gs 2 [1; 1] [None; None]) eq_refl eq_refl).
Qed.

(** ** Concrete runs

    Witnesses use a sketch that is the set of its hashes: the simplest
    implementation of the interface. *)
Definition set_sketch_ops : SketchOps := {|
  sketch := Z * gset Z;
  sk_new p _ := if bool_decide (4 <= p <= 18) then Ok (p, ∅) else Error "invalid precision";
  sk_InsertHash sk h := Some (sk.1, {[h]} ∪ sk.2);
  sk_Merge sk other :=
    match other with
    | None => Some (sk, true)
    | Some o => Some (if sk.1 =? o.1 then ((sk.1, o.2 ∪ sk.2), true) else (sk, false))
    end;
  sk_Reset sk := (sk.1, ∅);
  sk_Sparse _ := true;
  sk_Clone sk := sk;
  sk_Estimate sk := Some (sk, wrap 64 (Z.of_nat (size sk.2)))
|}.

#[export] Instance set_sketch_spec : SketchSpec set_sketch_ops.
Proof.
  refine {| represents p X (sk : @sketch set_sketch_ops) := sk = (p, X) |}; simpl.
  - intros p b Hp. exists (p, ∅). by rewrite bool_decide_true.
  - intros p b Hp. rewrite bool_decide_false by done. eauto.
  - intros p X sk x -> Hx. eauto.
  - intros p X Y sk o -> ->. simpl. rewrite Z.eqb_refl. eauto.
  - done.
  - intros p q X Y sk o -> -> Hne. simpl. by rewrite (proj2 (Z.eqb_neq p q)).
  - by intros p X sk ->.
  - by intros p X sk ->.
  - intros p X sk ->. do 2 eexists. split_and!; [done|done|]. by apply wrap_uint.
Defined.

Lemma allowInsertLocked_spec_witness :
  ∃ gs' allowed, @allowInsertLocked set_sketch_ops (newGroupSize 1 2) 1 9 = Some (gs', allowed) ∧
    allowed = true ∧ gs_size gs' = 1.
Proof.
  destruct (allowInsertLocked_spec (Spec := set_sketch_spec) (newGroupSize 1 2) 1 0 9
    (newGroupSize_ok 1 2) eq_refl) as (gs' & allowed & E & _ & Ha & _ & Hs & _).
  - vm_compute. split; congruence.
  - exists gs', allowed. rewrite bool_decide_true in Ha by (vm_compute; reflexivity).
    rewrite Ha in Hs. exact (conj E (conj Ha Hs)).
Defined.

Lemma concurrent_group_limit_witness :
  let gs := @mkGroupSize set_sketch_ops 1 2 [1; 1] [None; None] in
  gs_limit gs < gs_size gs ∧ 0 <= gs_size gs <= 1 + 2 - 1.
Proof.
  intros gs. split; [reflexivity|].
  apply (concurrent_group_limit (Spec := set_sketch_spec) 1 2 gs [false; false]).
  - reflexivity.
  - reflexivity.
  - exact group_limit_overshoot.
Defined.
