(* ===== verification/Snapshot.v ===== *)
(** * Snapshot: estimator state on the wire and its merging

    Models app/vmestimator/snapshot.go without the metrics text: the [snapshot]
    an estimator emits, [merge] and [reset], the collection [snapshots] that a
    scrape of several nodes fills with [add], the stream decoder around them,
    and the pool of sketches [toSnapshot] recycles. *)
From Stdlib Require Import Ascii String.
From S2P Require Import Prelude GoText Config SketchSpec GroupSize.
Local Open Scope Z_scope.

Section Defs.
Context `{Ops : SketchOps} `{Ord : IterOrder}.

Record SnapshotSketch := mkSSK { ss_Values : list string; ss_Sketch : sketch }.

Record snapshot := mkSnapshot {
  s_ID : string;
  s_Interval : Z;
  s_CalculateChurn : bool;
  s_Labels : gmap string string;
  s_Filter : string;
  s_GroupBy : list string;
  s_GroupLimit : Z;
  s_GroupRejectSize : Z;
  s_MinCardinality : Z;
  s_Sketches : gmap Z SnapshotSketch
}.

Definition newSnapshot : snapshot :=
  mkSnapshot EmptyString 0 false ∅ EmptyString [] 0 0 0 ∅.

Definition set_Sketches (s : snapshot) (m : gmap Z SnapshotSketch) : snapshot :=
  mkSnapshot (s_ID s) (s_Interval s) (s_CalculateChurn s) (s_Labels s) (s_Filter s) (s_GroupBy s)
    (s_GroupLimit s) (s_GroupRejectSize s) (s_MinCardinality s) m.

(** One round of the loop of [merge] over the other snapshot's groups; an
    error of [Merge] is ignored. *)
Definition merge_group (other : gmap Z SnapshotSketch) (m : gmap Z SnapshotSketch) (key : Z)
    : option (gmap Z SnapshotSketch) :=
  otherSSK ← other !! key;
  match m !! key with
  | Some existing =>
      '(sk, _) ← sk_Merge (ss_Sketch existing) (Some (ss_Sketch otherSSK));
      Some (<[key := mkSSK (ss_Values existing) sk]> m)
  | None => Some (<[key := mkSSK (ss_Values otherSSK) (sk_Clone (ss_Sketch otherSSK))]> m)
  end.

(** [None] when the ids differ. *)
Definition snapshot_merge (s other : snapshot) : option snapshot :=
  if bool_decide (s_ID s ≠ EmptyString ∧ s_ID s ≠ s_ID other) then None
  else
    m ← for_each (merge_group (s_Sketches other)) (iter_keys (dom (s_Sketches other))) (s_Sketches s);
    Some (mkSnapshot (s_ID other) (s_Interval other)
      (s_CalculateChurn s || s_CalculateChurn other)
      (s_Labels other ∪ s_Labels s)
      (s_Filter other) (s_GroupBy other) (s_GroupLimit other)
      (wrapS 64 (s_GroupRejectSize s + s_GroupRejectSize other))
      (if (s_MinCardinality s <? 0) || (s_MinCardinality other <? 0) then -1
       else Z.max (s_MinCardinality s) (s_MinCardinality other))
      m).

(** [reset], for reuse by the decoder. *)
Definition snapshot_reset (s : snapshot) : snapshot :=
  mkSnapshot EmptyString 0 false ∅ EmptyString [] 0 0 0 ∅.

(** ** Snapshots by id *)
Definition set_ID (s : snapshot) (id : string) : snapshot :=
  mkSnapshot id (s_Interval s) (s_CalculateChurn s) (s_Labels s) (s_Filter s) (s_GroupBy s)
    (s_GroupLimit s) (s_GroupRejectSize s) (s_MinCardinality s) (s_Sketches s).

(** Old versions send no id. *)
Definition snapshot_id (s : snapshot) : string :=
  if decide (s_ID s = EmptyString)
  then estimatorID (Some (s_Labels s)) (s_GroupBy s) (s_Interval s) (s_Filter s)
  else s_ID s.

Definition newSnapshots : gmap string snapshot := ∅.
Definition snapshots_add (ss : gmap string snapshot) (newS : snapshot)
    : option (gmap string snapshot) :=
  let newS := set_ID newS (snapshot_id newS) in
  match ss !! s_ID newS with
  | Some s => s ← snapshot_merge s newS; Some (<[s_ID newS := s]> ss)
  | None => s ← snapshot_merge newSnapshot newS; Some (<[s_ID s := s]> ss)
  end.

(** ** Decoding a stream of snapshots

    The gob decoder is a library: [decode] reads the next message into the
    snapshot given, leaving the fields the message omits (zero values) as they
    are; [Ok None] is the end of the stream.  The callback's state is returned
    with an error too: what was delivered before it stays delivered. *)
Fixpoint decodeSnapshots {Stream St} (decode : Stream → snapshot → result (option (Stream * snapshot)))
    (cb : St → snapshot → option St) (fuel : nat) (r : Stream) (s : snapshot) (st : St)
    : option (St * result unit) :=
  match fuel with
  | O => None
  | S fuel' =>
      let s := snapshot_reset s in
      match decode r s with
      | Error e => Some (st, Error e)
      | Ok None => Some (st, Ok tt)
      | Ok (Some (r, s)) => st ← cb st s; decodeSnapshots decode cb fuel' r s st
      end
  end.

(** ** The pool *)
Record sketchesPool := mkPool {
  sp_precision : Z;
  sp_sparseSKs : list sketch;
  sp_denseSKs : list sketch
}.

Definition newSketchesPool (precision : Z) (size : Z) : option sketchesPool :=
  sks ← for_each (λ sks (_ : nat), sk ← mustNewSketch precision true; Some (sks ++ [sk]))
          (seq 0 (Z.to_nat size)) [];
  Some (mkPool precision sks []).

Definition getSparse (p : sketchesPool) : option (sketchesPool * sketch) :=
  match last (sp_sparseSKs p) with
  | None => sk ← mustNewSketch (sp_precision p) true; Some (p, sk)
  | Some sk =>
      Some (mkPool (sp_precision p) (take (length (sp_sparseSKs p) - 1) (sp_sparseSKs p))
              (sp_denseSKs p), sk)
  end.
Definition getDense (p : sketchesPool) : option (sketchesPool * sketch) :=
  match last (sp_denseSKs p) with
  | None => sk ← mustNewSketch (sp_precision p) false; Some (p, sk)
  | Some sk =>
      Some (mkPool (sp_precision p) (sp_sparseSKs p)
              (take (length (sp_denseSKs p) - 1) (sp_denseSKs p)), sk)
  end.
Definition getForMerge (p : sketchesPool) (other : sketch) : option (sketchesPool * sketch) :=
  if sk_Sparse other then getSparse p else getDense p.
Definition pool_put (p : sketchesPool) (sk : sketch) : sketchesPool :=
  let sk := sk_Reset sk in
  if sk_Sparse sk then mkPool (sp_precision p) (sp_sparseSKs p ++ [sk]) (sp_denseSKs p)
  else mkPool (sp_precision p) (sp_sparseSKs p) (sp_denseSKs p ++ [sk]).
End Defs.

(** ** What a snapshot stands for *)
Section Proofs.
Context `{Spec : SketchSpec} `{IterOrderOk}.

(** Group by group, the hashes its sketch represents. *)
Definition groups_repr (p : Z) (X : gmap Z (gset Z)) (m : gmap Z SnapshotSketch) : Prop :=
  ∀ k, match X !! k, m !! k with
       | Some Xk, Some ssk => represents p Xk (ss_Sketch ssk)
       | None, None => True
       | _, _ => False
       end.

(** The union of two families of hash sets. *)
Definition groups_union (X Y : gmap Z (gset Z)) : gmap Z (gset Z) :=
  union_with (λ a b, Some (b ∪ a)) X Y.

Lemma groups_repr_Some p X m k ssk : groups_repr p X m → m !! k = Some ssk →
  ∃ Xk, X !! k = Some Xk ∧ represents p Xk (ss_Sketch ssk).
Proof. intros HX E. specialize (HX k). rewrite E in HX. destruct (X !! k); [eauto|done]. Qed.

Lemma groups_repr_None p X m k : groups_repr p X m → m !! k = None → X !! k = None.
Proof. intros HX E. specialize (HX k). rewrite E in HX. by destruct (X !! k). Qed.

Lemma groups_repr_dom p X m : groups_repr p X m → dom m = dom X.
Proof.
  intros HX. apply set_eq. intros k. rewrite !elem_of_dom. specialize (HX k).
  destruct (X !! k), (m !! k); (done || (split; intros []; done)).
Qed.

Lemma groups_repr_empty p : groups_repr p ∅ ∅.
Proof. intros k. by rewrite !lookup_empty. Qed.

Lemma groups_repr_insert p X m k Xk ssk : groups_repr p X m → represents p Xk (ss_Sketch ssk) →
  groups_repr p (<[k := Xk]> X) (<[k := ssk]> m).
Proof.
  intros HX Hk k'. destruct (decide (k = k')) as [->|]; [by rewrite !lookup_insert_eq|].
  rewrite !lookup_insert_ne by done. apply HX.
Qed.

(** Every sketch stands for a set of hashes, with some precision. *)
Definition sketch_sound (sk : sketch) : Prop := ∃ p X, represents p X sk.
Definition groups_sound (m : gmap Z SnapshotSketch) : Prop := map_Forall (λ _ ssk, sketch_sound (ss_Sketch ssk)) m.

Lemma groups_repr_sound p X m : groups_repr p X m → groups_sound m.
Proof. intros Hm k ssk E. destruct (groups_repr_Some p X m k ssk Hm E) as (Xk & _ & Hk). by exists p, Xk. Qed.

(** Sketches of different precision do not merge; that is an error, not a panic. *)
Lemma Merge_sound sk other : sketch_sound sk → sketch_sound other →
  ∃ sk' ok, sk_Merge sk (Some other) = Some (sk', ok) ∧ sketch_sound sk'.
Proof.
  intros (p & X & HX) (q & Y & HY). destruct (decide (p = q)) as [<-|Hne].
  - destruct (Merge_ok p X Y sk other HX HY) as (sk' & E & H'). exists sk', true. split; [done|]. by exists p, (Y ∪ X).
  - exists sk, false. split; [by eapply (Merge_precision p q)|]. by exists p, X.
Qed.

Lemma Clone_sound sk : sketch_sound sk → sketch_sound (sk_Clone sk).
Proof. intros (p & X & Hx). exists p, X. by apply Clone_ok. Qed.

Lemma Estimate_sound sk : sketch_sound sk → ∃ sk' n, sk_Estimate sk = Some (sk', n) ∧ sketch_sound sk'.
Proof.
  intros (p & X & Hx). destruct (Estimate_ok p X sk Hx) as (sk' & n & E & H' & _). exists sk', n.
  split; [done|]. by exists p, X.
Qed.

(** The keys of [Y] that the loop has visited. *)
Definition visited (done_ : list Z) (Y : gmap Z (gset Z)) : gmap Z (gset Z) :=
  filter (λ kv, kv.1 ∈ done_) Y.

Lemma visited_lookup dn Y k : visited dn Y !! k = if decide (k ∈ dn) then Y !! k else None.
Proof.
  unfold visited. destruct (decide (k ∈ dn)) as [Hk|Hk].
  - destruct (Y !! k) as [y|] eqn:E; [by apply map_lookup_filter_Some_2|].
    apply map_lookup_filter_None_2. by left.
  - apply map_lookup_filter_None_2. right. by intros.
Qed.

Lemma groups_union_lookup X Y k :
  groups_union X Y !! k = match X !! k, Y !! k with
                          | Some a, Some b => Some (b ∪ a)
                          | Some a, None => Some a
                          | None, o => o
                          end.
Proof. unfold groups_union. rewrite lookup_union_with. by destruct (X !! k), (Y !! k). Qed.

Lemma merge_group_ok p X Y m other dn k : groups_repr p Y other → k ∈ dom other → k ∉ dn →
  groups_repr p (groups_union X (visited dn Y)) m →
  ∃ m', merge_group other m k = Some m' ∧
    groups_repr p (groups_union X (visited (dn ++ [k]) Y)) m'.
Proof.
  intros HY Hk Hdn Hm. apply elem_of_dom in Hk as [ossk Eo]. unfold merge_group. rewrite Eo. simpl.
  destruct (groups_repr_Some p Y other k ossk HY Eo) as (Yk & EY & HYk).
  assert (∀ Z0, groups_union X (visited dn Y) !! k = X !! k ∧
     (Z0 = match X !! k with Some Xk => Yk ∪ Xk | None => Yk end →
      groups_union X (visited (dn ++ [k]) Y) = <[k := Z0]> (groups_union X (visited dn Y)))) as Hstep.
  { intros Z0. split.
    - rewrite groups_union_lookup, visited_lookup, decide_False by done. by destruct (X !! k).
    - intros ->. apply map_eq. intros k'. destruct (decide (k = k')) as [<-|Hne].
      + rewrite lookup_insert_eq, groups_union_lookup, visited_lookup, decide_True, EY
          by (apply elem_of_app; right; by left). by destruct (X !! k).
      + rewrite lookup_insert_ne, !groups_union_lookup, !visited_lookup by done.
        destruct (decide (k' ∈ dn)) as [H1|H1].
        * by rewrite decide_True by (apply elem_of_app; by left).
        * rewrite decide_False; [done|]. intros [?|?%list_elem_of_singleton]%elem_of_app; by subst. }
  destruct (m !! k) as [ssk|] eqn:Em.
  - destruct (groups_repr_Some p (groups_union X (visited dn Y)) m k ssk Hm Em) as (Xk & EX & HXk).
    destruct (Merge_ok p Xk Yk _ _ HXk HYk) as (sk & -> & Hsk). simpl.
    destruct (Hstep (Yk ∪ Xk)) as [E1 E2]. rewrite EX in E1. eexists. split; [done|].
    rewrite E2 by (by rewrite <- E1). by apply groups_repr_insert.
  - apply (groups_repr_None p (groups_union X (visited dn Y)) m k Hm) in Em. destruct (Hstep Yk) as [E1 E2].
    rewrite Em in E1. eexists. split; [done|]. rewrite E2 by (by rewrite <- E1).
    apply groups_repr_insert; [done|]. by apply Clone_ok.
Qed.

Lemma merge_groups_ok p X Y m other : groups_repr p X m → groups_repr p Y other →
  ∃ m', for_each (merge_group other) (iter_keys (dom other)) m = Some m' ∧
    groups_repr p (groups_union X Y) m'.
Proof.
  intros HX HY. assert (groups_union X Y = groups_union X (visited (iter_keys (dom other)) Y)) as ->.
  { f_equal. symmetry. apply map_eq. intros k. rewrite visited_lookup.
    destruct (decide (k ∈ iter_keys (dom other))) as [|Hk]; [done|].
    rewrite iter_keys_elem, (groups_repr_dom p Y other HY), not_elem_of_dom in Hk. by rewrite Hk. }
  destruct (for_each_inv_NoDup (merge_group other)
    (λ dn m', groups_repr p (groups_union X (visited dn Y)) m')
    (iter_keys (dom other)) m) as (m' & E & HR).
  - apply iter_keys_NoDup.
  - assert (groups_union X (visited [] Y) = X) as ->; [|done].
    apply map_eq. intros k. rewrite groups_union_lookup, visited_lookup, decide_False by apply not_elem_of_nil.
    by destruct (X !! k).
  - intros dn k m1 Hm1 Hk Hdn. rewrite iter_keys_elem in Hk. by apply merge_group_ok.
  - eauto.
Qed.

(** The run of [merge], shared by the theorems about it. *)
Lemma snapshot_merge_run p X Y s other :
  groups_repr p X (s_Sketches s) → groups_repr p Y (s_Sketches other) →
  if decide (s_ID s = EmptyString ∨ s_ID s = s_ID other) then
    ∃ s', snapshot_merge s other = Some s' ∧
      groups_repr p (groups_union X Y) (s_Sketches s') ∧ s_ID s' = s_ID other ∧
      s_GroupRejectSize s' = wrapS 64 (s_GroupRejectSize s + s_GroupRejectSize other) ∧
      (s_CalculateChurn s' = true ↔ s_CalculateChurn s = true ∨ s_CalculateChurn other = true) ∧
      (s_MinCardinality s' < 0 ↔ s_MinCardinality s < 0 ∨ s_MinCardinality other < 0)
  else snapshot_merge s other = None.
Proof.
  intros HX HY. unfold snapshot_merge. destruct (decide _) as [Hid|Hid].
  - rewrite bool_decide_false by tauto.
    destruct (merge_groups_ok p X Y _ _ HX HY) as (m & -> & Hm). simpl. eexists. split; [done|]. simpl.
    split_and!; [done|done|done|by rewrite orb_true_iff|].
    destruct (Z.ltb_spec (s_MinCardinality s) 0), (Z.ltb_spec (s_MinCardinality other) 0); simpl; lia.
  - by rewrite bool_decide_true by tauto.
Qed.

(** Merging a snapshot.  Snapshots with different ids are refused by a
    panic; otherwise [merge] does not panic and, group by group, the sketch
    afterwards represents the union of the hashes of both, a group of only one
    of them being kept as it is; reject counts add up, churn is calculated if
    either asks for it, and a negative minimum cardinality wins. *)
Theorem snapshot_merge_spec p X Y s other :
  groups_repr p X (s_Sketches s) → groups_repr p Y (s_Sketches other) →
  if decide (s_ID s = EmptyString ∨ s_ID s = s_ID other) then
    ∃ s', snapshot_merge s other = Some s' ∧
      groups_repr p (groups_union X Y) (s_Sketches s') ∧ s_ID s' = s_ID other ∧
      s_GroupRejectSize s' = wrapS 64 (s_GroupRejectSize s + s_GroupRejectSize other) ∧
      (s_CalculateChurn s' = true ↔ s_CalculateChurn s = true ∨ s_CalculateChurn other = true) ∧
      (s_MinCardinality s' < 0 ↔ s_MinCardinality s < 0 ∨ s_MinCardinality other < 0)
  else snapshot_merge s other = None.
Proof. apply snapshot_merge_run. Qed.

(** ** The families [add] collects *)
Lemma groups_union_comm X Y : groups_union X Y = groups_union Y X.
Proof.
  apply map_eq. intros k. rewrite !groups_union_lookup. destruct (X !! k), (Y !! k); try done.
  f_equal. apply union_comm_L.
Qed.

Lemma groups_union_assoc X Y W : groups_union X (groups_union Y W) = groups_union (groups_union X Y) W.
Proof.
  apply map_eq. intros k. rewrite !groups_union_lookup. destruct (X !! k), (Y !! k), (W !! k); try done.
  f_equal. by rewrite union_assoc_L.
Qed.

Lemma groups_union_empty X : groups_union ∅ X = X.
Proof. apply map_eq. intros k. by rewrite groups_union_lookup, lookup_empty. Qed.

(** The union of what the received snapshots with id [id] stand for. *)
Definition family (id : string) (l : list (snapshot * gmap Z (gset Z))) : gmap Z (gset Z) :=
  foldr (λ sX acc, if decide (snapshot_id sX.1 = id) then groups_union sX.2 acc else acc) ∅ l.

Lemma family_perm id l l' : l ≡ₚ l' → family id l = family id l'.
Proof.
  intros Hp. unfold family. apply (foldr_permutation (=) _ ∅); [|done].
  intros j1 [s1 X1] j2 [s2 X2] acc _ _ _. simpl. do 2 destruct (decide _); try done.
  by rewrite !groups_union_assoc, (groups_union_comm X1).
Qed.

Lemma family_snoc id l s X :
  family id (l ++ [(s, X)]) = if decide (snapshot_id s = id) then groups_union (family id l) X else family id l.
Proof.
  rewrite (family_perm id (l ++ [(s, X)]) ((s, X) :: l)).
  - simpl. destruct (decide _); [apply groups_union_comm|done].
  - by rewrite <- Permutation_cons_append.
Qed.

Definition received_ok (p : Z) (l : list (snapshot * gmap Z (gset Z))) : Prop :=
  Forall (λ sX, groups_repr p sX.2 (s_Sketches sX.1)) l.

Definition collected (p : Z) (l : list (snapshot * gmap Z (gset Z))) (ss : gmap string snapshot) : Prop :=
  ∀ id, match ss !! id with
        | Some s => s_ID s = id ∧ groups_repr p (family id l) (s_Sketches s) ∧ id ∈ map (λ sX, snapshot_id sX.1) l
        | None => id ∉ map (λ sX, snapshot_id sX.1) l
        end.

Lemma family_absent id l : id ∉ map (λ sX, snapshot_id sX.1) l → family id l = ∅.
Proof.
  induction l as [|[s X] l IH]; simpl; [done|]. intros [Hne Hl]%not_elem_of_cons.
  rewrite decide_False by congruence. auto.
Qed.

Lemma snapshots_add_ok p l ss s X : collected p l ss →
  groups_repr p X (s_Sketches s) →
  ∃ ss', snapshots_add ss s = Some ss' ∧ collected p (l ++ [(s, X)]) ss'.
Proof.
  intros Hc HX. unfold snapshots_add. simpl. set (id := snapshot_id s) in *.
  assert (∀ s', s_ID s' = id → groups_repr p (groups_union (family id l) X) (s_Sketches s') →
            collected p (l ++ [(s, X)]) (<[id := s']> ss)) as Hins.
  { intros s' Eid HR id'. destruct (decide (id' = id)) as [->|Hid].
    - rewrite lookup_insert_eq, family_snoc, decide_True by done. split_and!; [done|done|].
      rewrite map_app. apply elem_of_app. right. by left.
    - rewrite lookup_insert_ne, family_snoc, decide_False by done. specialize (Hc id').
      rewrite map_app. destruct (ss !! id') as [s0|]; [|apply not_elem_of_app; split; [done|]].
      + destruct Hc as (? & ? & ?). split_and!; [done|done|]. apply elem_of_app. by left.
      + by intros ?%list_elem_of_singleton. }
  pose proof (Hc id) as Hid. destruct (ss !! id) as [s0|].
  - destruct Hid as (E0 & H0 & _).
    pose proof (snapshot_merge_run p (family id l) X s0 (set_ID s id) H0 HX) as Hm.
    rewrite decide_True in Hm by (right; done). destruct Hm as (s' & -> & HR & Eid & _). simpl. eauto.
  - rewrite family_absent, groups_union_empty in Hins by done.
    pose proof (snapshot_merge_run p ∅ X newSnapshot (set_ID s id) (groups_repr_empty p) HX) as Hm.
    rewrite decide_True in Hm by (left; done). destruct Hm as (s' & -> & HR & Eid & _). simpl.
    rewrite groups_union_empty in HR. rewrite Eid. simpl. eauto.
Qed.

(** The run of [add] over a list, shared by the theorems about it. *)
Lemma snapshots_add_run p l l' :
  received_ok p l → l' ≡ₚ l →
  ∃ ss, for_each snapshots_add (map fst l') ∅ = Some ss ∧ collected p l ss.
Proof.
  intros Hl Hp.
  assert (received_ok p l') as Hl' by (unfold received_ok; by rewrite Hp).
  rewrite for_each_map.
  destruct (for_each_inv (λ ss sX, snapshots_add ss sX.1) (λ dn ss, collected p dn ss) l' ∅)
    as (ss & E & Hc).
  - intros id. rewrite lookup_empty. apply not_elem_of_nil.
  - intros dn [s X] ss Hc Hin. unfold received_ok in Hl'. rewrite Forall_forall in Hl'.
    apply snapshots_add_ok; [done|]. apply (Hl' (s, X) Hin).
  - exists ss. split; [done|]. intros id. specialize (Hc id). rewrite <- (family_perm id l' l Hp).
    assert (id ∈ map (λ sX : snapshot * gmap Z (gset Z), snapshot_id sX.1) l' ↔
            id ∈ map (λ sX : snapshot * gmap Z (gset Z), snapshot_id sX.1) l) as Hiff.
    { by apply elem_of_Permutation_proper, fmap_Permutation. }
    destruct (ss !! id); [destruct Hc as (? & ? & ?); split_and!|]; tauto.
Qed.

(** Aggregating a cluster.  Whatever the order in which the nodes'
    snapshots arrive (each message any number of times), [add] never panics,
    keeps one snapshot per id, and each group of it represents the union of
    the hashes of that group over all snapshots received with that id. *)
Theorem snapshots_add_spec p l l' :
  received_ok p l → l' ≡ₚ l →
  ∃ ss, for_each snapshots_add (map fst l') ∅ = Some ss ∧ collected p l ss.
Proof. apply snapshots_add_run. Qed.

(** ** The pool hands out empty sketches *)
Definition skpool_ok (p : Z) (pool : sketchesPool) : Prop :=
  4 <= p <= 18 ∧ sp_precision pool = p ∧
  Forall (represents p ∅) (sp_sparseSKs pool) ∧ Forall (represents p ∅) (sp_denseSKs pool).

Lemma mustNewSketch_ok p b : 4 <= p <= 18 → ∃ sk, mustNewSketch p b = Some sk ∧ represents p ∅ sk.
Proof. intros Hp. destruct (new_ok p b Hp) as (sk & E & Hsk). exists sk. unfold mustNewSketch. by rewrite E. Qed.

Lemma newSketchesPool_ok p n : 4 <= p <= 18 → ∃ pool, newSketchesPool p n = Some pool ∧ skpool_ok p pool.
Proof.
  intros Hp. unfold newSketchesPool.
  destruct (for_each_inv (λ sks (_ : nat), sk ← mustNewSketch p true; Some (sks ++ [sk])%list)
    (λ _ sks, Forall (represents p ∅) sks) (seq 0 (Z.to_nat n)) []) as (sks & -> & Hs).
  - done.
  - intros _ _ sks Hs _. destruct (mustNewSketch_ok p true Hp) as (sk & -> & Hsk). simpl.
    eexists. split; [done|]. apply Forall_app. split; [done|by apply Forall_singleton].
  - simpl. eexists. split; [done|]. split; [done|]. split_and!; [done|done|by apply Forall_nil].
Qed.

Lemma getForMerge_ok p pool other : skpool_ok p pool →
  ∃ pool' sk, getForMerge pool other = Some (pool', sk) ∧ skpool_ok p pool' ∧ represents p ∅ sk.
Proof.
  intros (Hp & E & Hs & Hd). unfold getForMerge. destruct (sk_Sparse other).
  - unfold getSparse. destruct (last (sp_sparseSKs pool)) as [sk|] eqn:El.
    + do 2 eexists. split; [done|]. split; [split_and!; simpl; (done || lia || by apply Forall_take)|].
      apply last_Some in El as [l' El]. rewrite El in Hs. apply Forall_app in Hs as [_ Hs].
      by inversion Hs.
    + rewrite E. destruct (mustNewSketch_ok p true Hp) as (sk & -> & Hsk). simpl. do 2 eexists. split; [done|]. split; [split_and!; (done || lia)|done].
  - unfold getDense. destruct (last (sp_denseSKs pool)) as [sk|] eqn:El.
    + do 2 eexists. split; [done|]. split; [split_and!; simpl; (done || lia || by apply Forall_take)|].
      apply last_Some in El as [l' El]. rewrite El in Hd. apply Forall_app in Hd as [_ Hd].
      by inversion Hd.
    + rewrite E. destruct (mustNewSketch_ok p false Hp) as (sk & -> & Hsk). simpl. do 2 eexists. split; [done|]. split; [split_and!; (done || lia)|done].
Qed.

Lemma pool_put_ok p pool X sk : skpool_ok p pool → represents p X sk → skpool_ok p (pool_put pool sk).
Proof.
  intros (Hp & E & Hs & Hd) Hsk. apply Reset_ok in Hsk. unfold pool_put.
  destruct (sk_Sparse _); split_and!; simpl; try (done || lia); apply Forall_app; (split; [done|by apply Forall_singleton]).
Qed.
End Proofs.

(** ** A stream of messages *)
Section Stream.
Context `{Ops : SketchOps}.

(** A message overwrites the fields it carries. *)
Definition message := snapshot → snapshot.
Definition decode_message (r : list message) (s : snapshot) : result (option (list message * snapshot)) :=
  match r with [] => Ok None | m :: r' => Ok (Some (r', m s)) end.

(** No field leaks from one message of a snapshot stream into the next.
    Although the decoder reuses one snapshot, and a message leaves the fields
    it omits untouched, the callback sees each message as decoded into a new
    snapshot, in order, until the end of the stream. *)
Theorem decodeSnapshots_isolated {St} (cb : St → snapshot → option St) ms s st :
  decodeSnapshots decode_message cb (S (length ms)) ms s st =
    (λ st, (st, Ok tt)) <$> for_each cb (map (λ m : message, m newSnapshot) ms) st.
Proof.
  revert s st. induction ms as [|m ms IH]; intros s st; [done|].
  cbn [decodeSnapshots decode_message length map for_each]. cbv zeta.
  change (snapshot_reset s) with newSnapshot.
  destruct (cb st (m newSnapshot)) as [st'|]; [|done]. apply IH.
Qed.
End Stream.

(** ** Concrete runs *)
Definition demo_snapshot (id : string) (k h : Z) : @snapshot set_sketch_ops :=
  @mkSnapshot set_sketch_ops id 60 false ∅ EmptyString ["job"%string] 10 0 0
    {[ k := @mkSSK set_sketch_ops ["x"%string] (14, {[h]}) ]}.

Lemma demo_snapshot_repr id k h :
  groups_repr (Spec := set_sketch_spec) 14 {[ k := {[h]} ]} (s_Sketches (demo_snapshot id k h)).
Proof.
  simpl. apply (groups_repr_insert (Spec := set_sketch_spec) 14 ∅ ∅ k {[h]} (@mkSSK set_sketch_ops ["x"%string] (14, {[h]})));
    [apply groups_repr_empty|done].
Qed.

Lemma snapshot_merge_spec_witness :
  ∃ s', snapshot_merge (demo_snapshot "a" 1 5) (demo_snapshot "a" 1 6) = Some s' ∧
    groups_repr (Spec := set_sketch_spec) 14 (groups_union {[ 1 := {[5]} ]} {[ 1 := {[6]} ]}) (s_Sketches s').
Proof.
  destruct (snapshot_merge_spec (Spec := set_sketch_spec) 14 _ _ (demo_snapshot "a" 1 5) (demo_snapshot "a" 1 6)
    (demo_snapshot_repr "a" 1 5) (demo_snapshot_repr "a" 1 6)) as (s' & E & HR & _).
  exists s'. exact (conj E HR).
Defined.

Lemma snapshots_add_spec_witness :
  ∃ ss, for_each snapshots_add [demo_snapshot "b" 1 6; demo_snapshot "a" 1 5] ∅ = Some ss ∧
    is_Some (ss !! "a"%string).
Proof.
  destruct (snapshots_add_spec (Spec := set_sketch_spec) 14
    [(demo_snapshot "a" 1 5, {[ 1 := {[5]} ]}); (demo_snapshot "b" 1 6, {[ 1 := {[6]} ]})]
    [(demo_snapshot "b" 1 6, {[ 1 := {[6]} ]}); (demo_snapshot "a" 1 5, {[ 1 := {[5]} ]})])
    as (ss & E & Hc).
  - constructor; [apply demo_snapshot_repr|]. constructor; [apply demo_snapshot_repr|constructor].
  - apply Permutation_swap.
  - exists ss. split; [exact E|]. specialize (Hc "a"%string). destruct (ss !! "a"%string); [eauto|].
    destruct Hc. left.
Defined.
