(* ===== verification/Estimator.v ===== *)
(** * Estimator: cardinality estimators and their buckets

    Models app/vmestimator/estimator.go, but for [writeMetrics] (Metrics): the buckets
    with [insert], [rotate], [reset] and [mergeSketches]; [newEstimator];
    [insertMany] with the grouping of series and the expansion of
    [__label__]; [toSnapshot]; and the times at which [runRotation] rotates
    which bucket.  A bucket's operations run under its lock, so each is one
    step. *)
From Stdlib Require Import Ascii String.
From S2P Require Import Prelude GoText Types Config SketchSpec GroupSize Snapshot.
Local Open Scope Z_scope.

Section Defs.
Context `{Ops : SketchOps} `{Ord : IterOrder} `{Xx : Xxhash} `{Ql : MetricsQL}.

Record groupSketch := mkGSK { gsk_Sketch : sketch; gsk_values : list string }.

(** [eb_sketch] and [eb_prevSketch] are possibly nil pointers. *)
Record estimatorBucket := mkBucket {
  eb_idx : nat;
  eb_groupBy : list string;
  eb_interval : Z;
  eb_calculateChurn : bool;
  eb_filter : string;
  eb_precision : Z;
  eb_sparse : bool;
  eb_labels : option (gmap string string);
  eb_hasLabelKeyword : bool;
  eb_sketch : option sketch;
  eb_prevSketch : option sketch;
  eb_groups : gmap Z groupSketch;
  eb_prevGroups : gmap Z groupSketch
}.

Definition set_bucket (eb : estimatorBucket) (sk prev : option sketch)
    (groups prevGroups : gmap Z groupSketch) : estimatorBucket :=
  mkBucket (eb_idx eb) (eb_groupBy eb) (eb_interval eb) (eb_calculateChurn eb) (eb_filter eb)
    (eb_precision eb) (eb_sparse eb) (eb_labels eb) (eb_hasLabelKeyword eb)
    sk prev groups prevGroups.
Definition set_groups (eb : estimatorBucket) : gmap Z groupSketch → gmap Z groupSketch → estimatorBucket :=
  set_bucket eb (eb_sketch eb) (eb_prevSketch eb).

Definition bucket_newSketch (eb : estimatorBucket) : option sketch :=
  mustNewSketch (eb_precision eb) (eb_sparse eb).

(** The current group of [key], created when missing if the limit admits it;
    [None] as the group when it does not. *)
Definition bucket_group (eb : estimatorBucket) (gs : groupSize) (key : Z) (values : list string)
    : option (option groupSketch * groupSize) :=
  match eb_groups eb !! key with
  | Some gsk => Some (Some gsk, gs)
  | None =>
      '(vals, gs) ← match eb_prevGroups eb !! key with
                    | Some prev => Some (Some (gsk_values prev), gs)
                    | None =>
                        '(gs, allowed) ← allowInsertLocked gs (eb_idx eb) key;
                        Some (if (allowed : bool) then Some values else None, gs)
                    end;
      match vals with
      | None => Some (None, gs)
      | Some vals => sk ← bucket_newSketch eb; Some (Some (mkGSK sk vals), gs)
      end
  end.

Definition bucket_insert (eb : estimatorBucket) (gs : groupSize) (fp key : Z) (values : list string)
    : option (estimatorBucket * groupSize) :=
  match eb_groupBy eb with
  | [] =>
      sk ← eb_sketch eb;
      sk ← sk_InsertHash sk fp;
      Some (set_bucket eb (Some sk) (eb_prevSketch eb) (eb_groups eb) (eb_prevGroups eb), gs)
  | _ =>
      '(gsk, gs) ← bucket_group eb gs key values;
      match gsk with
      | None => Some (eb, gs)
      | Some gsk =>
          sk ← sk_InsertHash (gsk_Sketch gsk) fp;
          Some (set_groups eb (<[key := mkGSK sk (gsk_values gsk)]> (eb_groups eb)) (eb_prevGroups eb), gs)
      end
  end.

Definition bucket_rotate (eb : estimatorBucket) (gs : groupSize) : option (estimatorBucket * groupSize) :=
  match eb_groupBy eb with
  | [] =>
      sk ← bucket_newSketch eb;
      Some (set_bucket eb (Some sk) (eb_sketch eb) (eb_groups eb) (eb_prevGroups eb), gs)
  | _ =>
      gs ← rotateLocked gs (eb_idx eb) (Z.of_nat (size (eb_groups eb)));
      Some (set_groups eb ∅ (eb_groups eb), gs)
  end.

(** Resetting a nil sketch panics. *)
Definition bucket_reset (eb : estimatorBucket) (gs : groupSize) : option (estimatorBucket * groupSize) :=
  match eb_groupBy eb with
  | [] =>
      prev ← eb_prevSketch eb;
      sk ← eb_sketch eb;
      Some (set_bucket eb (Some (sk_Reset sk)) (Some (sk_Reset prev)) (eb_groups eb) (eb_prevGroups eb), gs)
  | _ =>
      gs ← rotateLocked gs (eb_idx eb) 0;
      Some (set_groups eb ∅ ∅, gs)
  end.

(** A failing [Merge] panics. *)
Definition must_merge (res : sketch) (other : option sketch) : option sketch :=
  '(res, ok) ← sk_Merge res other; if (ok : bool) then Some res else None.
Definition mergeSketches (cur prev : option sketch) (res : sketch) : option sketch :=
  res ← must_merge res cur;
  match prev with Some _ => must_merge res prev | None => Some res end.

(** ** The estimator

    [e_stopCh] is the reference to the channel that [stop] closes. *)
Record estimator := mkEstimator {
  e_id : string;
  e_cfg : EstimatorConfig;
  e_groupBy : list string;
  e_groupSize : groupSize;
  e_compiledFilter : compiledFilter;
  e_hasLabelKeyword : bool;
  e_minCardinality : Z;
  e_buckets : list estimatorBucket;
  e_insertTotal : Z;
  e_stopCh : nat
}.

Definition set_buckets (e : estimator) (ebs : list estimatorBucket) (gs : groupSize) : estimator :=
  mkEstimator (e_id e) (e_cfg e) (e_groupBy e) gs (e_compiledFilter e) (e_hasLabelKeyword e)
    (e_minCardinality e) ebs (e_insertTotal e) (e_stopCh e).
Definition add_insertTotal (e : estimator) (cnt : Z) : estimator :=
  mkEstimator (e_id e) (e_cfg e) (e_groupBy e) (e_groupSize e) (e_compiledFilter e) (e_hasLabelKeyword e)
    (e_minCardinality e) (e_buckets e) (e_insertTotal e + cnt) (e_stopCh e).

Definition reserved_groupBy (k : string) : bool :=
  bool_decide (k = "__global__"%string) || bool_decide (k = "__group__"%string).

Definition has_label_keyword (groupBy : list string) : bool := bool_decide (last groupBy = Some labelKeyword).

(** [ch] is the channel that [make] returns.  [None] is a panic: [__label__] not in the last place, a nil [HLLSparse],
    a sketch that cannot be created, or a negative number of buckets. *)
Definition newEstimator (cpus : Z) (ch : nat) (cfg : EstimatorConfig) : option (result estimator) :=
  let cfg := applyDefaults cpus cfg in
  if (5 <? length (GroupBy cfg))%nat then Some (Error "group by must not be bigger than 5 elements")
  else if existsb reserved_groupBy (GroupBy cfg) then
    Some (Error "group by is not allowed. __global__, __group__ are reserved keywords")
  else
    match compileFilters (Filter cfg) with
    | Error e => Some (Error e)
    | Ok cf =>
        if existsb (λ k, bool_decide (k = labelKeyword)) (take (length (GroupBy cfg) - 1) (GroupBy cfg))
        then None
        else
          let gs := newGroupSize (GroupLimit cfg) (Buckets cfg) in
          let hasLabelKeyword := has_label_keyword (GroupBy cfg) in
          sparse ← HLLSparse cfg;
          ebs ← for_each (λ ebs i,
            sk ← match GroupBy cfg with
                 | [] => sk ← mustNewSketch (HLLPrecision cfg) sparse; Some (Some sk)
                 | _ => Some None
                 end;
            Some (ebs ++ [mkBucket i (GroupBy cfg) (Interval cfg) (CalculateChurn cfg) (Filter cfg)
                            (HLLPrecision cfg) sparse (ec_Labels cfg) hasLabelKeyword sk None ∅ ∅]))
            (seq 0 (Z.to_nat (Buckets cfg))) [];
          Some (Ok (mkEstimator (config_id cfg) cfg (GroupBy cfg) gs cf hasLabelKeyword
                      (MinCardinality cfg) ebs 0 ch))
    end.

(** [e.buckets[bi].insert(fp, key, values)], for [bi = h % len(e.buckets)]. *)
Definition insert_bucket (e : estimator) (h fp key : Z) (values : list string) : option estimator :=
  let bucketsNum := Z.of_nat (length (e_buckets e)) in
  if bucketsNum =? 0 then None
  else
    let bi := Z.to_nat (h mod bucketsNum) in
    eb ← e_buckets e !! bi;
    '(eb, gs) ← bucket_insert eb (e_groupSize e) fp key values;
    Some (set_buckets e (<[bi := eb]> (e_buckets e)) gs).

(** The loop over the explicit keys: the digest, the values (from index [i]
    on) and whether any label was found. *)
Fixpoint group_values (keys : list string) (labels : list Label) (d : string) (hasNames : bool)
    : string * list string * bool :=
  match keys with
  | [] => (d, [], hasNames)
  | k :: keys' =>
      match list_find (λ l, Name l = k) labels with
      | Some (_, l) =>
          let '(d, vs, b) := group_values keys' labels (d ++ NUL ++ Value l)%string true in
          (d, Value l :: vs, b)
      | None =>
          let '(d, vs, b) := group_values keys' labels d hasNames in (d, EmptyString :: vs, b)
      end
  end.

(** The loop over a series' labels for [__label__]. *)
Definition insert_label (groupByKeys : list string) (d : string) (values : list string)
    (s : estimator * Z) (label : Label) : option (estimator * Z) :=
  let '(e, cnt) := s in
  let ld := if bool_decide (groupByKeys = []) then d else (d ++ NUL)%string in
  if LabelFingerprint label =? 0 then Some (e, cnt)
  else
    let ld := (ld ++ Name label)%string in
    let key := xxhash_Sum64 ld in
    e ← insert_bucket e key (LabelFingerprint label) key (values ++ [Name label]);
    Some (e, cnt + 1).

(** One series of [insertMany]. *)
Definition insert_serie (s : estimator * Z) (ts : TimeSerie) : option (estimator * Z) :=
  let '(e, cnt) := s in
  matched ← filter_match (e_compiledFilter e) (Labels ts);
  if negb matched then Some (e, cnt)
  else
    match e_groupBy e with
    | [] => e ← insert_bucket e (Fingerprint ts) (Fingerprint ts) 0 []; Some (e, cnt + 1)
    | _ =>
        let groupByKeys :=
          if e_hasLabelKeyword e then take (length (e_groupBy e) - 1) (e_groupBy e) else e_groupBy e in
        let '(d, values, hasNames) :=
          group_values groupByKeys (Labels ts) EmptyString (bool_decide (groupByKeys = [])) in
        if negb hasNames then Some (e, cnt)
        else if negb (e_hasLabelKeyword e) then
          let key := xxhash_Sum64 d in
          e ← insert_bucket e key (Fingerprint ts) key values;
          Some (e, cnt + 1)
        else for_each (insert_label groupByKeys d values) (Labels ts) (e, cnt)
    end.

(** The series in the order [insertMany] visits them from a random start. *)
Definition visit_index (start tssLen j : Z) : Z := (start +[32] j) mod tssLen.
Definition insertMany (e : estimator) (tss : list TimeSerie) (start : Z) : option estimator :=
  let tssLen := wrap 32 (Z.of_nat (length tss)) in
  '(e, cnt) ← for_each (λ s j, ts ← tss !! Z.to_nat (visit_index start tssLen j); insert_serie s ts)
                (seqZ 0 tssLen) (e, 0);
  Some (add_insertTotal e cnt).

(** A loop over all buckets, with the shared group size. *)
Definition over_buckets (f : estimatorBucket → groupSize → option (estimatorBucket * groupSize))
    (e : estimator) : option estimator :=
  '(ebs, gs) ← for_each (λ '(ebs, gs) eb, '(eb, gs) ← f eb gs; Some (ebs ++ [eb], gs))
                 (e_buckets e) ([], e_groupSize e);
  Some (set_buckets e ebs gs).
Definition estimator_reset : estimator → option estimator := over_buckets bucket_reset.

Definition estimator_rotate_bucket (e : estimator) (i : nat) : option estimator :=
  eb ← e_buckets e !! i;
  '(eb, gs) ← bucket_rotate eb (e_groupSize e);
  Some (set_buckets e (<[i := eb]> (e_buckets e)) gs).

(** ** [toSnapshot] *)
Definition batchSize : Z := 1000.

Fixpoint chunks {A} (fuel n : nat) (l : list A) : list (list A) :=
  match fuel, l with
  | O, _ | _, [] => []
  | S fuel', _ => take n l :: chunks fuel' n (drop n l)
  end.

(** One key of a batch: the merged sketch of the current and the previous
    group, in a sketch of the pool. *)
Definition snapshot_key (eb : estimatorBucket) (st : sketchesPool * gmap Z SnapshotSketch) (key : Z)
    : option (sketchesPool * gmap Z SnapshotSketch) :=
  let '(skp, m) := st in
  let gsk := eb_groups eb !! key in
  let prev := eb_prevGroups eb !! key in
  '(skp, res, values) ←
    match gsk, prev with
    | Some g, _ | None, Some g =>
        '(skp, res) ← getForMerge skp (gsk_Sketch g); Some (skp, res, gsk_values g)
    | None, None => None
    end;
  res ← mergeSketches (gsk_Sketch <$> gsk) (gsk_Sketch <$> prev) res;
  Some (skp, <[key := mkSSK values res]> m).

(** The sketches go back to the pool after the callback. *)
Definition recycle (skp : sketchesPool) (m : gmap Z SnapshotSketch) : sketchesPool :=
  foldl (λ skp k, match m !! k with Some ssk => pool_put skp (ss_Sketch ssk) | None => skp end)
    skp (iter_keys (dom m)).

Section ToSnapshot.
Context {St : Type} (cb : St → snapshot → option (St * bool)).

Definition meta_snapshot (e : estimator) (eb0 : estimatorBucket) (limit : Z) : snapshot :=
  mkSnapshot (e_id e) (eb_interval eb0) (eb_calculateChurn eb0) (labels_of (eb_labels eb0))
    (eb_filter eb0) (eb_groupBy eb0) limit 0 (e_minCardinality e) ∅.

(** One batch of keys of a bucket: [false] when the callback has failed. *)
Definition snapshot_batch (meta : snapshot) (eb : estimatorBucket) (st : St * sketchesPool * bool)
    (batch : list Z) : option (St * sketchesPool * bool) :=
  let '(st, skp, go) := st in
  if negb go then Some (st, skp, false)
  else
    '(skp, m) ← for_each (snapshot_key eb) batch (skp, ∅);
    '(st, ok) ← cb st (set_Sketches meta m);
    if (ok : bool) then Some (st, recycle skp m, true) else Some (st, skp, false).

Definition bucket_keys (eb : estimatorBucket) : list Z :=
  iter_keys (dom (eb_groups eb)) ++
  filter (λ k, k ∉ dom (eb_groups eb)) (iter_keys (dom (eb_prevGroups eb))).

Definition snapshot_bucket (meta : snapshot) (st : St * sketchesPool * bool) (eb : estimatorBucket)
    : option (St * sketchesPool * bool) :=
  let keys := bucket_keys eb in
  for_each (snapshot_batch meta eb) (chunks (length keys) (Z.to_nat batchSize) keys) st.

(** Returns the callback's state, whether it never failed, and the estimator,
    whose reject sketches [Estimate] may have rearranged. *)
Definition toSnapshot (e : estimator) (st : St) : option (St * bool * estimator) :=
  eb0 ← e_buckets e !! 0%nat;
  match e_groupBy e with
  | [] =>
      resSK ← bucket_newSketch eb0;
      resSK ← for_each (λ res eb, mergeSketches (eb_sketch eb) (eb_prevSketch eb) res)
                (e_buckets e) resSK;
      let meta := meta_snapshot e eb0 0 in
      let s := mkSnapshot (s_ID meta) (s_Interval meta) (s_CalculateChurn meta) (s_Labels meta)
                 (s_Filter meta) [] 0 0 (s_MinCardinality meta) {[ 0 := mkSSK [] resSK ]} in
      '(st, ok) ← cb st s;
      Some (st, ok, e)
  | _ =>
      let meta := meta_snapshot e eb0 (gs_limit (e_groupSize e)) in
      avg ← avgBucketSize (e_groupSize e);
      skp ← newSketchesPool (eb_precision eb0) (Z.min batchSize avg);
      '(st, _, go) ← for_each (snapshot_bucket meta) (e_buckets e) (st, skp, true);
      if negb go then Some (st, false, e)
      else
        '(gs, rejected) ← totalRejected (e_groupSize e);
        let s := mkSnapshot (s_ID meta) (s_Interval meta) (s_CalculateChurn meta) (s_Labels meta)
                   (s_Filter meta) (s_GroupBy meta) (s_GroupLimit meta) (wrapS 64 rejected)
                   (s_MinCardinality meta) ∅ in
        '(st, ok) ← cb st s;
        Some (st, ok, set_buckets e (e_buckets e) gs)
  end.
End ToSnapshot.

(** ** [runRotation]

    Times are nanoseconds since the Unix epoch.  [None]: an integer division
    by zero panics. *)
Definition bucketInterval (interval : Z) (buckets : nat) : option Z :=
  if Nat.eqb buckets 0 then None else Some (Z.quot (Z.quot interval 2) (Z.of_nat buckets)).
Definition rotation_wait (period now : Z) : option Z :=
  if period =? 0 then None
  else
    let waitNs := period - Z.rem now period in
    Some (if waitNs =? period then 0 else waitNs).
End Defs.
