(* ===== verification/EstimatorInsert.v ===== *)
(** * EstimatorInsert: inserting refines an abstract estimator

    The abstract estimator keeps, per bucket, the current and the previous
    family of hash sets by group key.  [est_repr] relates it to the concrete
    one; inserting a batch is shown to apply the abstract inserts of its
    series, in some order. *)
From Stdlib Require Import Ascii String.
From S2P Require Import Prelude GoText Types Config SketchSpec GroupSize Snapshot Estimator.
Local Open Scope Z_scope.

(** ** The abstract estimator

    Per bucket, the current and the previous family of hash sets, by group
    key; a global estimator has the one key 0. *)
Definition bucket_state : Type := gmap Z (gset Z) * gmap Z (gset Z).
Definition known_keys (CP : bucket_state) : gset Z := dom CP.1 ∪ dom CP.2.
Definition groups_count (CP : bucket_state) : Z := Z.of_nat (size (known_keys CP)).
Definition total_groups (A : list bucket_state) : Z := zsum (map groups_count A).

Definition add_hash (C : gmap Z (gset Z)) (key fp : Z) : gmap Z (gset Z) :=
  <[key := {[fp]} ∪ default ∅ (C !! key)]> C.

(** An insert goes to bucket [h mod n]; with a limit, it is dropped when it
    would start a group beyond it. *)
Record insert_op := mkOp { op_h : Z; op_fp : Z; op_key : Z }.
Definition admits (limit : option Z) (A : list bucket_state) (CP : bucket_state) (key : Z) : Prop :=
  match limit with None => True | Some l => key ∈ known_keys CP ∨ total_groups A < l end.
#[export] Instance admits_dec limit A CP key : Decision (admits limit A CP key).
Proof. destruct limit; simpl; apply _. Defined.

Definition bucket_index {A} (l : list A) (h : Z) : nat := Z.to_nat (h mod Z.of_nat (length l)).
Definition abs_insert (limit : option Z) (A : list bucket_state) (o : insert_op) : list bucket_state :=
  match A !! bucket_index A (op_h o) with
  | Some CP =>
      if decide (admits limit A CP (op_key o))
      then <[bucket_index A (op_h o) := (add_hash CP.1 (op_key o) (op_fp o), CP.2)]> A
      else A
  | None => A
  end.
Definition abs_rotate (A : list bucket_state) (i : nat) : list bucket_state :=
  alter (λ CP : bucket_state, (∅, CP.1)) i A.
(** Rotating the bucket of a global estimator leaves an empty current set. *)
Definition abs_rotate_global (A : list bucket_state) (i : nat) : list bucket_state :=
  alter (λ CP : bucket_state, ({[0 := ∅]}, CP.1)) i A.

(** The keys a bucket knows are those that go to it. *)
Definition abs_placed (A : list bucket_state) : Prop :=
  ∀ i CP key, A !! i = Some CP → key ∈ known_keys CP → i = bucket_index A key.

Lemma bucket_index_lt {A} (l : list A) h : (0 < length l)%nat → (bucket_index l h < length l)%nat.
Proof. intros Hl. unfold bucket_index. pose proof (Z.mod_pos_bound h (Z.of_nat (length l))). lia. Qed.

Lemma known_keys_add CP key fp :
  known_keys (add_hash CP.1 key fp, CP.2) = {[key]} ∪ known_keys CP.
Proof. unfold known_keys, add_hash. simpl. by rewrite dom_insert_L, union_assoc_L. Qed.

Lemma groups_count_add CP key fp :
  groups_count (add_hash CP.1 key fp, CP.2) =
    groups_count CP + (if decide (key ∈ known_keys CP) then 0 else 1).
Proof.
  unfold groups_count. rewrite known_keys_add. destruct (decide _) as [Hk|Hk].
  - rewrite subseteq_union_1_L by by apply singleton_subseteq_l. lia.
  - rewrite size_union by by apply disjoint_singleton_l. rewrite size_singleton. lia.
Qed.

Lemma abs_placed_insert A i CP CP' : abs_placed A → A !! i = Some CP →
  (∀ key, key ∈ known_keys CP' → key ∈ known_keys CP ∨ i = bucket_index A key) →
  abs_placed (<[i := CP']> A).
Proof.
  intros HA E Hk j CPj key Ej Hkey. unfold bucket_index. rewrite length_insert. fold (bucket_index A key).
  apply list_lookup_insert_Some in Ej as [(<- & <- & _)|[_ Ej]]; [|by eapply HA].
  destruct (Hk key Hkey); [by eapply HA|done].
Qed.

Section Refinement.
Context `{Spec : SketchSpec} `{Ord : IterOrder, !IterOrderOk Ord} `{Xx : Xxhash, !XxhashOk Xx} `{Ql : MetricsQL}.

Definition gsk_ssk (g : groupSketch) : SnapshotSketch := mkSSK (gsk_values g) (gsk_Sketch g).

Definition prev_repr (p : Z) (P : gmap Z (gset Z)) (prev : option sketch) : Prop :=
  match prev with
  | None => P = ∅
  | Some sk => ∃ Y, represents p Y sk ∧ P = {[ 0 := Y ]}
  end.

Record bucket_repr (p : Z) (g : list string) (i : nat) (eb : estimatorBucket) (CP : bucket_state) : Prop := {
  br_idx : eb_idx eb = i;
  br_groupBy : eb_groupBy eb = g;
  br_precision : eb_precision eb = p;
  br_state :
    match g with
    | [] => (∃ sk X, eb_sketch eb = Some sk ∧ represents p X sk ∧ CP.1 = {[ 0 := X ]}) ∧
            prev_repr p CP.2 (eb_prevSketch eb)
    | _ => groups_repr p CP.1 (gsk_ssk <$> eb_groups eb) ∧
           groups_repr p CP.2 (gsk_ssk <$> eb_prevGroups eb)
    end
}.

Definition limit_of (e : estimator) : option Z :=
  match e_groupBy e with [] => None | _ => Some (gs_limit (e_groupSize e)) end.

Record est_repr (p : Z) (e : estimator) (A : list bucket_state) : Prop := {
  er_precision : 4 <= p <= 18;
  er_nonempty : (0 < length A)%nat;
  er_len : length (e_buckets e) = length A;
  er_buckets : ∀ i eb CP, e_buckets e !! i = Some eb → A !! i = Some CP →
                 bucket_repr p (e_groupBy e) i eb CP;
  er_gs : gs_ok (e_groupSize e);
  er_gs_len : length (gs_bucketSizes (e_groupSize e)) = length A;
  er_sizes : e_groupBy e ≠ [] → gs_bucketSizes (e_groupSize e) = map groups_count A;
  er_placed : e_groupBy e ≠ [] → abs_placed A
}.

Lemma er_lookup p e A i : est_repr p e A → (i < length A)%nat →
  ∃ eb CP, e_buckets e !! i = Some eb ∧ A !! i = Some CP ∧ bucket_repr p (e_groupBy e) i eb CP.
Proof.
  intros H Hi. destruct (lookup_lt_is_Some_2 A i Hi) as [CP E].
  destruct (lookup_lt_is_Some_2 (e_buckets e) i) as [eb Eb]; [by rewrite (er_len p e A H)|].
  exists eb, CP. split_and!; [done|done|by eapply er_buckets].
Qed.

(** Replacing one bucket. *)
Lemma er_update p e A i eb CP gs :
  est_repr p e A → bucket_repr p (e_groupBy e) i eb CP → gs_ok gs →
  length (gs_bucketSizes gs) = length A →
  (e_groupBy e ≠ [] → gs_bucketSizes gs = map groups_count (<[i := CP]> A)) →
  (e_groupBy e ≠ [] → abs_placed (<[i := CP]> A)) →
  est_repr p (set_buckets e (<[i := eb]> (e_buckets e)) gs) (<[i := CP]> A).
Proof.
  intros [Hp Hne Hl Hb Hgs Hgl Hsz Hpl] Hbr Hgs' Hgl' Hsz' Hpl'. split; simpl; rewrite ?length_insert; try done.
  intros j ebj CPj. destruct (decide (i = j)) as [<-|Hj].
  - intros [(_ & <- & _)|[? _]]%list_lookup_insert_Some [(_ & <- & _)|[? _]]%list_lookup_insert_Some; done.
  - rewrite !list_lookup_insert_ne by done. apply Hb.
Qed.

Lemma total_groups_gs p e A : est_repr p e A → e_groupBy e ≠ [] →
  gs_size (e_groupSize e) = total_groups A.
Proof. intros H Hg. by rewrite (gs_sum _ (er_gs p e A H)), (er_sizes p e A H Hg). Qed.

(** ** Inserting *)
Lemma gsk_lookup (m : gmap Z groupSketch) key : (gsk_ssk <$> m) !! key = gsk_ssk <$> m !! key.
Proof. apply lookup_fmap. Qed.

Lemma bucket_insert_global p i eb CP gs fp :
  4 <= p <= 18 → bucket_repr p [] i eb CP → uint 64 fp →
  ∃ eb', bucket_insert eb gs fp 0 [] = Some (eb', gs) ∧ bucket_repr p [] i eb' (add_hash CP.1 0 fp, CP.2).
Proof.
  intros Hp [Hi Hg Hpr [(sk & X & Esk & HX & EC) Hprev]] Hfp. unfold bucket_insert. rewrite Hg, Esk. simpl.
  destruct (InsertHash_ok p X sk fp HX Hfp) as (sk' & -> & HX'). simpl. eexists. split; [done|].
  split; [done|done|done|]. simpl. split; [|done]. eexists _, _. split_and!; [done|done|].
  unfold add_hash. rewrite EC, lookup_singleton_eq. simpl. by rewrite insert_singleton_eq.
Qed.

Lemma bucket_known p g i eb CP key : g ≠ [] → bucket_repr p g i eb CP →
  (eb_groups eb !! key = None ↔ key ∉ dom CP.1) ∧ (eb_prevGroups eb !! key = None ↔ key ∉ dom CP.2).
Proof.
  intros Hg [_ _ _ Hst]. destruct g; [done|]. destruct Hst as [H1 H2].
  rewrite <- (groups_repr_dom _ _ _ H1), <- (groups_repr_dom _ _ _ H2), !not_elem_of_dom, !gsk_lookup, !fmap_None.
  done.
Qed.

(** The group of a key that is admitted: what it represents before the hash
    is inserted, and the effect on the shared size. *)
Lemma bucket_group_ok p g i eb CP gs key values :
  4 <= p <= 18 → g ≠ [] → bucket_repr p g i eb CP → gs_ok gs → uint 64 key →
  gs_bucketSizes gs !! i = Some (groups_count CP) →
  ∃ gs', gs_ok gs' ∧ gs_limit gs' = gs_limit gs ∧
    if decide (key ∈ known_keys CP ∨ gs_size gs < gs_limit gs) then
      ∃ gsk, bucket_group eb gs key values = Some (Some gsk, gs') ∧
        represents p (default ∅ (CP.1 !! key)) (gsk_Sketch gsk) ∧
        gs_bucketSizes gs' = <[i := groups_count CP + (if decide (key ∈ known_keys CP) then 0 else 1)]> (gs_bucketSizes gs)
    else bucket_group eb gs key values = Some (None, gs') ∧ gs_bucketSizes gs' = gs_bucketSizes gs.
Proof.
  intros Hp Hg Hbr Hgs Hk En. pose proof (bucket_known p g i eb CP key Hg Hbr) as [Hd1 Hd2].
  pose proof Hbr as [Hi _ Hpr Hst]. destruct g as [|g0 g']; [done|]. destruct Hst as [H1 H2].
  unfold bucket_group, known_keys.
  assert (∀ gs', gs_bucketSizes gs' = gs_bucketSizes gs →
    gs_bucketSizes gs' = <[i := groups_count CP + 0]> (gs_bucketSizes gs)) as Hsame.
  { intros gs' ->. by rewrite Z.add_0_r, list_insert_id. }
  destruct (eb_groups eb !! key) as [gsk|] eqn:E1.
  { assert (key ∈ dom CP.1) as Hin by (apply dec_stable; rewrite <- Hd1; done).
    exists gs. rewrite !decide_True by set_solver. split_and!; [done|done|]. exists gsk.
    split_and!; [done| |by apply Hsame].
    destruct (groups_repr_Some p CP.1 (gsk_ssk <$> eb_groups eb) key (gsk_ssk gsk)) as (X & -> & HX);
      [done|by rewrite gsk_lookup, E1|done]. }
  assert (key ∉ dom CP.1) as Hn1 by tauto.
  assert (CP.1 !! key = None) as EC by by apply not_elem_of_dom.
  destruct (mustNewSketch_ok p (eb_sparse eb) Hp) as (sk & Enew & Hsk).
  destruct (eb_prevGroups eb !! key) as [prev|] eqn:E2.
  { assert (key ∈ dom CP.2) as Hin by (apply dec_stable; rewrite <- Hd2; done).
    exists gs. rewrite !decide_True by set_solver. split_and!; [done|done|]. simpl.
    unfold bucket_newSketch. rewrite Hpr, Enew. simpl. eexists.
    split_and!; [done|by rewrite EC|by apply Hsame]. }
  assert (key ∉ dom CP.2) as Hn2 by tauto.
  destruct (allowInsertLocked_ok gs i (groups_count CP) key Hgs En Hk) as (gs' & Ea & Hgs' & Hlim & Hsz).
  rewrite Hi, Ea. cbn [mbind option_bind]. exists gs'. split_and!; [done|done|].
  assert (key ∉ dom CP.1 ∪ dom CP.2) as Hnk by set_solver.
  rewrite (decide_False (P := key ∈ dom CP.1 ∪ dom CP.2)) by done.
  destruct (decide (gs_size gs < gs_limit gs)) as [Hlt|Hge].
  - rewrite decide_True by by right. rewrite bool_decide_true in * by done. simpl.
    unfold bucket_newSketch. rewrite Hpr, Enew. simpl. eexists. split_and!; [done|by rewrite EC|done].
  - rewrite decide_False by tauto. rewrite bool_decide_false in * by done. simpl. split; [done|].
    rewrite Hsz. simpl. by rewrite Z.add_0_r, list_insert_id.
Qed.

Lemma bucket_insert_group p g i eb CP gs fp key values :
  4 <= p <= 18 → g ≠ [] → bucket_repr p g i eb CP → gs_ok gs → uint 64 key → uint 64 fp →
  gs_bucketSizes gs !! i = Some (groups_count CP) →
  ∃ eb' gs', bucket_insert eb gs fp key values = Some (eb', gs') ∧ gs_ok gs' ∧ gs_limit gs' = gs_limit gs ∧
    if decide (key ∈ known_keys CP ∨ gs_size gs < gs_limit gs) then
      bucket_repr p g i eb' (add_hash CP.1 key fp, CP.2) ∧
      gs_bucketSizes gs' = <[i := groups_count (add_hash CP.1 key fp, CP.2)]> (gs_bucketSizes gs)
    else eb' = eb ∧ gs_bucketSizes gs' = gs_bucketSizes gs.
Proof.
  intros Hp Hg Hbr Hgs Hk Hfp En.
  destruct (bucket_group_ok p g i eb CP gs key values Hp Hg Hbr Hgs Hk En) as (gs' & Hgs' & Hlim & Hcase).
  unfold bucket_insert. pose proof Hbr as [Hi Hgb Hpr Hst]. rewrite Hgb. destruct g as [|g0 g']; [done|].
  destruct (decide _) as [Hadm|Hadm].
  - destruct Hcase as (gsk & -> & Hgsk & Hsz). simpl.
    destruct (InsertHash_ok p _ _ fp Hgsk Hfp) as (sk' & -> & Hsk'). simpl.
    do 2 eexists. split_and!; [done|done|done|..].
    + split; simpl; [done|done|done|]. destruct Hst as [H1 H2]. split; [|done].
      rewrite fmap_insert. by apply groups_repr_insert.
    + by rewrite groups_count_add.
  - destruct Hcase as [-> Hsz]. simpl. do 2 eexists. by split_and!.
Qed.

(** The operations an estimator accepts: those of a global one have key 0 and
    go to the bucket of the hash, the others to the bucket of the key. *)
Definition op_ok (e : estimator) (o : insert_op) : Prop :=
  uint 64 (op_fp o) ∧ uint 64 (op_key o) ∧
  match e_groupBy e with [] => op_key o = 0 | _ => op_h o = op_key o end.

Lemma insert_bucket_refines p e A o values :
  est_repr p e A → op_ok e o → (e_groupBy e = [] → values = []) →
  ∃ ebs gs, insert_bucket e (op_h o) (op_fp o) (op_key o) values = Some (set_buckets e ebs gs) ∧
    gs_limit gs = gs_limit (e_groupSize e) ∧
    est_repr p (set_buckets e ebs gs) (abs_insert (limit_of e) A o).
Proof.
  intros H (Hfp & Hk & Hshape) Hv. unfold insert_bucket, abs_insert, bucket_index.
  pose proof (er_len p e A H) as Hl. pose proof (er_nonempty p e A H). rewrite <- Hl.
  rewrite (proj2 (Z.eqb_neq _ _)) by lia. set (i := Z.to_nat (op_h o mod Z.of_nat (length (e_buckets e)))).
  destruct (er_lookup p e A i H) as (eb & CP & Eb & EA & Hbr).
  { subst i. pose proof (Z.mod_pos_bound (op_h o) (Z.of_nat (length (e_buckets e)))). lia. }
  rewrite Eb, EA. cbn [mbind option_bind]. pose proof H as [Hp _ _ _ Hgs Hgl Hsz Hpl].
  destruct (decide (e_groupBy e = [])) as [Hg|Hg].
  - unfold limit_of. rewrite Hg in *. rewrite decide_True by done. rewrite Hshape, (Hv eq_refl).
    destruct (bucket_insert_global p i eb CP (e_groupSize e) (op_fp o) Hp Hbr Hfp) as (eb' & -> & Hbr').
    simpl. do 2 eexists. split_and!; [done|done|]. by apply er_update; rewrite ?Hg.
  - assert (op_h o = op_key o) as Hh by by destruct (e_groupBy e).
    assert (gs_bucketSizes (e_groupSize e) !! i = Some (groups_count CP)) as En.
    { rewrite Hsz, list_lookup_fmap, EA by done. done. }
    assert (limit_of e = Some (gs_limit (e_groupSize e))) as Hlim by (unfold limit_of; by destruct (e_groupBy e)).
    rewrite Hlim. destruct (bucket_insert_group p (e_groupBy e) i eb CP (e_groupSize e) (op_fp o) (op_key o) values
      Hp Hg Hbr Hgs Hk Hfp En) as (eb' & gs' & -> & Hgs' & Hlim' & Hcase). cbn [mbind option_bind].
    do 2 eexists. split_and!; [done|done|]. rewrite (total_groups_gs p e A H Hg) in Hcase.
    destruct (decide (admits _ _ _ _)) as [Hadm|Hadm].
    + rewrite decide_True in Hcase by exact Hadm. destruct Hcase as [Hbr' Hsz'].
      apply er_update; [done|done|done|by rewrite Hsz', length_insert|..].
      * intros _. rewrite Hsz', Hsz by done. symmetry. apply list_fmap_insert.
      * intros _. apply (abs_placed_insert A i CP); [auto|done|]. intros key. rewrite known_keys_add.
        intros [->%elem_of_singleton|?]%elem_of_union; [right|by left].
        unfold bucket_index. by rewrite <- Hl, <- Hh.
    + rewrite decide_False in Hcase by exact Hadm. destruct Hcase as [-> Hsz'].
      rewrite <- (list_insert_id A i CP EA) at 1.
      apply er_update; [done|done|done|by rewrite Hsz'|..].
      all: intros _; rewrite ?Hsz', (list_insert_id A i CP EA); auto.
Qed.

(** ** The inserts a series causes *)
Definition label_op (groupByKeys : list string) (d : string) (values : list string) (l : Label)
    : insert_op * list string :=
  let ld := if bool_decide (groupByKeys = []) then d else (d ++ NUL)%string in
  let key := xxhash_Sum64 (ld ++ Name l) in
  (mkOp key (LabelFingerprint l) key, values ++ [Name l]).
Definition serie_ops (groupBy : list string) (kw : bool) (ts : TimeSerie) : list (insert_op * list string) :=
  match groupBy with
  | [] => [(mkOp (Fingerprint ts) (Fingerprint ts) 0, [])]
  | _ =>
      let groupByKeys := if kw then take (length groupBy - 1) groupBy else groupBy in
      let '(d, values, hasNames) :=
        group_values groupByKeys (Labels ts) EmptyString (bool_decide (groupByKeys = [])) in
      if negb hasNames then []
      else if negb kw then
        [(mkOp (xxhash_Sum64 d) (Fingerprint ts) (xxhash_Sum64 d), values)]
      else
        map (label_op groupByKeys d values) (filter (λ l, LabelFingerprint l ≠ 0) (Labels ts))
  end.
Definition matched_ops (e : estimator) (ts : TimeSerie) : list (insert_op * list string) :=
  match filter_match (e_compiledFilter e) (Labels ts) with
  | Some true => serie_ops (e_groupBy e) (e_hasLabelKeyword e) ts
  | _ => []
  end.

Definition insert_ops (e : estimator) (ops : list (insert_op * list string)) : option estimator :=
  for_each (λ e ov, insert_bucket e (op_h ov.1) (op_fp ov.1) (op_key ov.1) ov.2) ops e.

(** A filter that compiled; its matching never panics. *)
Definition filter_total (e : estimator) : Prop :=
  ∀ labels, ∃ b, filter_match (e_compiledFilter e) labels = Some b.

Lemma insert_ops_cons e o v ops :
  insert_ops e ((o, v) :: ops) =
    e1 ← insert_bucket e (op_h o) (op_fp o) (op_key o) v; insert_ops e1 ops.
Proof. done. Qed.

Lemma insert_label_eq groupByKeys d values e cnt l :
  insert_label groupByKeys d values (e, cnt) l =
    if decide (LabelFingerprint l ≠ 0) then
      e1 ← insert_ops e [label_op groupByKeys d values l]; Some (e1, cnt + 1)
    else Some (e, cnt).
Proof.
  unfold insert_label. destruct (Z.eqb_spec (LabelFingerprint l) 0) as [Hz|Hz].
  - by rewrite decide_False by tauto.
  - rewrite decide_True by done. unfold label_op. rewrite insert_ops_cons. cbn [op_h op_fp op_key].
    by destruct (insert_bucket e _ _ _ _).
Qed.

Lemma insert_ops_app e ops1 ops2 :
  insert_ops e (ops1 ++ ops2) = e1 ← insert_ops e ops1; insert_ops e1 ops2.
Proof. apply for_each_app. Qed.

Lemma insert_labels_ops groupByKeys d values ls e cnt :
  for_each (insert_label groupByKeys d values) ls (e, cnt) =
    let ops := map (label_op groupByKeys d values) (filter (λ l, LabelFingerprint l ≠ 0) ls) in
    e' ← insert_ops e ops; Some (e', cnt + Z.of_nat (length ops)).
Proof.
  cbv zeta. revert e cnt. induction ls as [|l ls IH]; intros e cnt; [simpl; by rewrite Z.add_0_r|].
  rewrite filter_cons. cbn [for_each]. rewrite insert_label_eq.
  destruct (decide _); [|cbn [mbind option_bind]; apply IH]. cbn [map].
  pose proof (insert_ops_app e [label_op groupByKeys d values l]
    (map (label_op groupByKeys d values) (filter (λ l, LabelFingerprint l ≠ 0) ls))) as E.
  cbn [app] in E. rewrite E. destruct (insert_ops e [_]) as [e1|]; [|done].
  cbn [mbind option_bind]. rewrite IH. destruct (insert_ops e1 _); [|done].
  cbn [mbind option_bind length]. do 2 f_equal. lia.
Qed.

Lemma insert_serie_ops e cnt ts : filter_total e →
  insert_serie (e, cnt) ts =
    e' ← insert_ops e (matched_ops e ts); Some (e', cnt + Z.of_nat (length (matched_ops e ts))).
Proof.
  intros Hf. unfold insert_serie, matched_ops. destruct (Hf (Labels ts)) as [b ->]. cbn [mbind option_bind].
  destruct b; [|simpl; by rewrite Z.add_0_r]. cbn [negb]. unfold serie_ops.
  assert (∀ h fp key v, (e' ← insert_bucket e h fp key v; Some (e', cnt + 1)) =
            (e' ← insert_ops e [(mkOp h fp key, v)]; Some (e', cnt + 1))) as H1.
  { intros. unfold insert_ops. simpl. by destruct (insert_bucket e h fp key v). }
  destruct (e_groupBy e) as [|g0 g'] eqn:Eg; [apply H1|].
  destruct (group_values _ _ _ _) as [[d values] hasNames].
  destruct hasNames; [|simpl; by rewrite Z.add_0_r]. cbn [negb].
  destruct (e_hasLabelKeyword e); [|apply H1]. cbn [negb]. apply insert_labels_ops.
Qed.

(** ** A sequence of inserts refines the abstract one *)
Definition abs_inserts (limit : option Z) (A : list bucket_state) (ops : list insert_op) : list bucket_state :=
  foldl (abs_insert limit) A ops.

Definition opv_ok (e : estimator) (ov : insert_op * list string) : Prop :=
  op_ok e ov.1 ∧ (e_groupBy e = [] → ov.2 = []).

Lemma limit_of_set e ebs gs : gs_limit gs = gs_limit (e_groupSize e) →
  limit_of (set_buckets e ebs gs) = limit_of e.
Proof. intros H. unfold limit_of. simpl. by rewrite H. Qed.

Lemma insert_ops_refines p ops : ∀ e A, est_repr p e A → Forall (opv_ok e) ops →
  ∃ ebs gs, insert_ops e ops = Some (set_buckets e ebs gs) ∧
    gs_limit gs = gs_limit (e_groupSize e) ∧
    est_repr p (set_buckets e ebs gs) (abs_inserts (limit_of e) A (map fst ops)).
Proof.
  induction ops as [|[o v] ops IH]; intros e A H Hops.
  { exists (e_buckets e), (e_groupSize e). destruct e. by split_and!. }
  apply Forall_cons in Hops as [[Ho Hv] Hops]. rewrite insert_ops_cons.
  destruct (insert_bucket_refines p e A o v H Ho Hv) as (ebs & gs & -> & Hl & H1). cbn [mbind option_bind].
  destruct (IH (set_buckets e ebs gs) _ H1 Hops) as (ebs' & gs' & E & Hl' & H2).
  exists ebs', gs'. split_and!; [exact E|simpl in Hl'; congruence|].
  rewrite limit_of_set in H2 by done. exact H2.
Qed.

Lemma serie_ops_ok e ts : uint 64 (Fingerprint ts) → Forall (λ l, uint 64 (LabelFingerprint l)) (Labels ts) →
  Forall (opv_ok e) (matched_ops e ts).
Proof.
  intros Hfp Hls. unfold matched_ops. destruct (filter_match _ _) as [[]|]; [|constructor..].
  unfold serie_ops, opv_ok, op_ok. destruct (e_groupBy e) as [|g0 g'] eqn:Eg.
  { constructor; [|constructor]. by split_and!. }
  destruct (group_values _ _ _ _) as [[d values] b]. destruct b; [|constructor]. cbn [negb].
  destruct (e_hasLabelKeyword e); cbn [negb].
  - apply Forall_map, Forall_forall. intros l [_ Hl]%list_elem_of_filter.
    rewrite Forall_forall in Hls. split; [|done]. split_and!; simpl; [apply (Hls l Hl)..| |done]; apply xxhash_uint.
  - constructor; [|constructor]. split; [|done]. split_and!; simpl; [apply Hfp..| |done]; apply xxhash_uint.
Qed.

(** The order of the visits: a rotation of the batch. *)
Definition rotated (tss : list TimeSerie) (start : Z) : list TimeSerie :=
  drop (Z.to_nat start) tss ++ take (Z.to_nat start) tss.

Lemma visit_rotated tss start j : Z.of_nat (length tss) < 2 ^ 31 → 0 <= start < Z.of_nat (length tss) →
  0 <= j < Z.of_nat (length tss) →
  tss !! Z.to_nat (visit_index start (Z.of_nat (length tss)) j) = rotated tss start !! Z.to_nat j.
Proof.
  intros Hl Hs Hj. unfold visit_index, rotated. gowrap.
  destruct (Z.lt_ge_cases (start + j) (Z.of_nat (length tss))) as [H|H].
  - rewrite Z.mod_small, lookup_app_l, lookup_drop by (rewrite ?length_drop; lia). f_equal. lia.
  - rewrite <- (Z.mod_unique (start + j) (Z.of_nat (length tss)) 1 (start + j - Z.of_nat (length tss))) by lia.
    rewrite lookup_app_r, length_drop, lookup_take by (rewrite length_drop; lia).
    rewrite decide_True by lia. f_equal. lia.
Qed.

Definition batch_ok (tss : list TimeSerie) : Prop :=
  Z.of_nat (length tss) < 2 ^ 31 ∧
  Forall (λ ts, uint 64 (Fingerprint ts) ∧ Forall (λ l, uint 64 (LabelFingerprint l)) (Labels ts)) tss.
(** [fastrand.Uint32n(n)] is below [n], and 0 for 0. *)
Definition start_ok (tss : list TimeSerie) (start : Z) : Prop := 0 <= start < Z.max 1 (Z.of_nat (length tss)).

Definition batch_ops (e : estimator) (tss : list TimeSerie) : list (insert_op * list string) :=
  mjoin (map (matched_ops e) tss).

Lemma insertMany_loop e tss start : batch_ok tss → start_ok tss start →
  insertMany e tss start =
    '(e, cnt) ← for_each insert_serie (rotated tss start) (e, 0); Some (add_insertTotal e cnt).
Proof.
  intros [Hl _] Hs. unfold insertMany, start_ok in *. gowrap. f_equal.
  destruct (decide (tss = [])) as [->|Hne].
  { unfold rotated. simpl. by rewrite drop_nil, take_nil. }
  assert (0 < Z.of_nat (length tss)) by (destruct tss; simpl; [done|lia]).
  rewrite <- (for_each_index insert_serie (rotated tss start)).
  assert (length (rotated tss start) = length tss) as ->.
  { unfold rotated. rewrite length_app, length_drop, length_take. lia. }
  apply for_each_ext_in. intros s j Hj%elem_of_seqZ. by rewrite visit_rotated by lia.
Qed.

(** Inserting changes only the buckets and the group size. *)
Lemma insert_ops_static ops : ∀ e e', insert_ops e ops = Some e' → ∃ ebs gs, e' = set_buckets e ebs gs.
Proof.
  induction ops as [|[o v] ops IH]; intros e e' E.
  { injection E as <-. exists (e_buckets e), (e_groupSize e). by destruct e. }
  rewrite insert_ops_cons in E. unfold insert_bucket in E. cbv zeta in E.
  destruct (_ =? 0); [done|]. destruct (e_buckets e !! _) as [eb|]; [|done]. simpl in E.
  destruct (bucket_insert _ _ _ _ _) as [[eb' gs']|]; [|done]. simpl in E.
  destruct (IH _ _ E) as (ebs & gs & ->). by exists ebs, gs.
Qed.

Lemma insert_series_ops tss : ∀ e cnt, filter_total e →
  for_each insert_serie tss (e, cnt) =
    e' ← insert_ops e (batch_ops e tss); Some (e', cnt + Z.of_nat (length (batch_ops e tss))).
Proof.
  induction tss as [|ts tss IH]; intros e cnt Hf; [simpl; by rewrite Z.add_0_r|].
  cbn [for_each]. rewrite insert_serie_ops by done. unfold batch_ops. cbn [map mjoin list_join].
  rewrite insert_ops_app, length_app. destruct (insert_ops e (matched_ops e ts)) as [e1|] eqn:E; [|done].
  cbn [mbind option_bind]. destruct (insert_ops_static _ _ _ E) as (ebs & gs & ->).
  rewrite IH by exact Hf. change (batch_ops (set_buckets e ebs gs) tss) with (batch_ops e tss).
  change (mjoin (map (matched_ops e) tss)) with (batch_ops e tss).
  destruct (insert_ops (set_buckets e ebs gs) (batch_ops e tss)); [|done].
  cbn [mbind option_bind]. do 2 f_equal. lia.
Qed.

Lemma est_repr_total p e A n : est_repr p e A → est_repr p (add_insertTotal e n) A.
Proof. by intros [? ? ? ? ? ? ? ?]. Qed.

Lemma batch_ops_ok e tss : batch_ok tss → Forall (opv_ok e) (batch_ops e tss).
Proof.
  intros [_ H]. unfold batch_ops. apply Forall_join, Forall_map. eapply Forall_impl; [done|].
  intros ts [Hfp Hls]. by apply serie_ops_ok.
Qed.

Lemma batch_ok_rotated tss start : batch_ok tss → batch_ok (rotated tss start).
Proof.
  assert (rotated tss start ≡ₚ tss) as Hp.
  { unfold rotated. by rewrite (Permutation_app_comm (drop _ _)), take_drop. }
  intros [Hl Hf]. split; [by rewrite Hp|by rewrite Hp].
Qed.

Lemma batch_ops_perm e tss tss' : tss ≡ₚ tss' → batch_ops e tss ≡ₚ batch_ops e tss'.
Proof.
  unfold batch_ops. induction 1 as [|ts l l' _ IH|ts1 ts2 l|l1 l2 l3 _ IH1 _ IH2]; simpl.
  - done.
  - by f_equiv.
  - rewrite !app_assoc. f_equiv. apply Permutation_app_comm.
  - by etrans.
Qed.

Definition same_static (e e' : estimator) : Prop :=
  e_id e' = e_id e ∧ e_cfg e' = e_cfg e ∧ e_groupBy e' = e_groupBy e ∧
  e_compiledFilter e' = e_compiledFilter e ∧ e_hasLabelKeyword e' = e_hasLabelKeyword e ∧
  e_minCardinality e' = e_minCardinality e ∧ e_stopCh e' = e_stopCh e ∧
  gs_limit (e_groupSize e') = gs_limit (e_groupSize e).

Lemma same_static_batch_ops e e' tss : same_static e e' → batch_ops e' tss = batch_ops e tss.
Proof. intros (_ & _ & Eg & Ef & Ek & _). unfold batch_ops, matched_ops. by rewrite Eg, Ef, Ek. Qed.

(** The run of a batch, shared by the theorems about it. *)
Lemma insertMany_run p e A tss start :
  est_repr p e A → filter_total e → batch_ok tss → start_ok tss start →
  ∃ e', insertMany e tss start = Some e' ∧ same_static e e' ∧
    est_repr p e' (abs_inserts (limit_of e) A (map fst (batch_ops e (rotated tss start)))) ∧
    batch_ops e (rotated tss start) ≡ₚ batch_ops e tss ∧
    e_insertTotal e' = e_insertTotal e + Z.of_nat (length (batch_ops e tss)).
Proof.
  intros H Hf Hb Hs. rewrite insertMany_loop, insert_series_ops by done.
  destruct (insert_ops_refines p (batch_ops e (rotated tss start)) e A H) as (ebs & gs & -> & Hl & H').
  { by apply batch_ops_ok, batch_ok_rotated. }
  assert (batch_ops e (rotated tss start) ≡ₚ batch_ops e tss) as Hp.
  { apply batch_ops_perm. unfold rotated. by rewrite (Permutation_app_comm (drop _ _)), take_drop. }
  cbn [mbind option_bind]. eexists. split; [done|]. split; [by split_and!|].
  split; [by apply est_repr_total|]. split; [done|]. simpl. by rewrite Hp.
Qed.

(** C2: [insertMany] implements the abstract insert sequence.  For a batch of
    fewer than 2^31 series and any random start it does not panic, visits
    every series exactly once, and the estimator afterwards represents the
    state before with the inserts of the visited series applied one by one,
    the inserts of a series being those its labels, the group-by keys, the
    filter and [__label__] determine; the insert counter grows by their number
    and the configuration is unchanged. *)
Theorem insertMany_refines p e A tss start :
  est_repr p e A → filter_total e → batch_ok tss → start_ok tss start →
  ∃ e', insertMany e tss start = Some e' ∧ same_static e e' ∧
    est_repr p e' (abs_inserts (limit_of e) A (map fst (batch_ops e (rotated tss start)))) ∧
    batch_ops e (rotated tss start) ≡ₚ batch_ops e tss ∧
    e_insertTotal e' = e_insertTotal e + Z.of_nat (length (batch_ops e tss)).
Proof. apply insertMany_run. Qed.
End Refinement.
