(* ===== verification/GroupKey.v ===== *)
(** * GroupKey: which series share a group

    [insertMany] of src/app/vmestimator/estimator.go identifies a group by the
    hash of a text made of the values of the group-by labels, and not by the
    values themselves.  Here the text is spelled out and related to the values:
    it determines them for series that have the same of the labels, and does
    not for others. *)
From Stdlib Require Import Ascii String.
From S2P Require Import Prelude GoText Types Config SketchSpec GroupSize Snapshot Estimator EstimatorInsert.
Local Open Scope Z_scope.

Lemma string_app_nil_r s : (s +:+ EmptyString)%string = s.
Proof. induction s as [|a s IH]; [done|]. change (String a (s +:+ EmptyString) = String a s). by rewrite IH. Qed.
Lemma string_app_assoc s1 s2 s3 : (s1 +:+ s2 +:+ s3 = (s1 +:+ s2) +:+ s3)%string.
Proof.
  induction s1 as [|a s IH]; [done|]. change (String a (s +:+ s2 +:+ s3) = String a ((s +:+ s2) +:+ s3)). by rewrite IH.
Qed.

Fixpoint nul_free (s : string) : bool :=
  match s with EmptyString => true | String a s => negb (Ascii.eqb a "000"%char) && nul_free s end.

(** The values of the labels a series has for the keys. *)
Definition found (keys : list string) (labels : list Label) : list (option string) :=
  map (λ k, Value ∘ snd <$> list_find (λ l, Name l = k) labels) keys.

(** Each value after a NUL. *)
Definition joined (vs : list string) : string := foldr (λ v acc, NUL +:+ v +:+ acc) EmptyString vs.

Lemma joined_snoc vs v : joined (vs ++ [v]) = joined vs +:+ NUL +:+ v.
Proof.
  induction vs as [|w vs IH]; simpl; [by rewrite string_app_nil_r|]. by rewrite IH, <- !string_app_assoc.
Qed.

Lemma group_values_eq keys labels : ∀ d b, group_values keys labels d b =
  (d +:+ joined (omap id (found keys labels)), map (default EmptyString) (found keys labels),
   b || existsb (λ o, bool_decide (is_Some o)) (found keys labels)).
Proof.
  induction keys as [|k keys IH]; intros d b; cbn [group_values found map omap list_omap existsb].
  { by rewrite string_app_nil_r, orb_false_r. }
  destruct (list_find (λ l, Name l = k) labels) as [[i l]|]; cbn [fmap option_fmap option_map]; rewrite IH.
  - cbn [compose snd id default]. rewrite bool_decide_true by eauto. cbn [orb]. rewrite orb_true_r.
    unfold joined at 2. cbn [foldr]. fold (joined (omap id (found keys labels))). by rewrite <- !string_app_assoc.
  - cbn [id default]. rewrite bool_decide_false by by intros []. done.
Qed.

(** ** The text determines the values *)
Definition nul_start (s : string) : Prop := s = EmptyString ∨ ∃ s', s = NUL +:+ s'.
Lemma joined_start vs : nul_start (joined vs).
Proof. destruct vs as [|v vs]; [by left|right]. by eexists. Qed.

Lemma split_nul v1 : ∀ v2 r1 r2, nul_free v1 = true → nul_free v2 = true → nul_start r1 → nul_start r2 →
  v1 +:+ r1 = v2 +:+ r2 → v1 = v2 ∧ r1 = r2.
Proof.
  assert (∀ s, NUL +:+ s = String "000"%char s) as Hnul by done.
  induction v1 as [|a v1 IH]; intros [|b v2] r1 r2 H1 H2 Hr1 Hr2 E; cbn [nul_free] in *; [done|..].
  - change (r1 = String b (v2 +:+ r2)) in E. subst r1. destruct Hr1 as [|[s E]]; [done|].
    rewrite Hnul in E. injection E as -> _. done.
  - change (String a (v1 +:+ r1) = r2) in E. subst r2. destruct Hr2 as [|[s E]]; [done|].
    rewrite Hnul in E. injection E as -> _. done.
  - change (String a (v1 +:+ r1) = String b (v2 +:+ r2)) in E. injection E as -> E.
    apply andb_true_iff in H1 as [_ H1]. apply andb_true_iff in H2 as [_ H2].
    destruct (IH v2 r1 r2 H1 H2 Hr1 Hr2 E) as [-> ->]. done.
Qed.

Lemma joined_inj vs1 : ∀ vs2, Forall (λ v, nul_free v = true) vs1 → Forall (λ v, nul_free v = true) vs2 →
  joined vs1 = joined vs2 → vs1 = vs2.
Proof.
  induction vs1 as [|v1 vs1 IH]; intros [|v2 vs2] H1 H2 E; [done|done|done|].
  apply Forall_cons in H1 as [Hv1 H1]. apply Forall_cons in H2 as [Hv2 H2].
  unfold joined in E. cbn [foldr] in E. injection E as E.
  destruct (split_nul v1 v2 _ _ Hv1 Hv2 (joined_start vs1) (joined_start vs2) E) as [-> E']. f_equal. by apply IH.
Qed.

(** Lists of values with the same gaps. *)
Definition same_gaps (o1 o2 : list (option string)) : Prop := Forall2 (λ a b, is_Some a ↔ is_Some b) o1 o2.
Lemma same_gaps_values o1 o2 : same_gaps o1 o2 →
  (omap id o1 = omap id o2 ↔ map (default EmptyString) o1 = map (default EmptyString) o2).
Proof.
  induction 1 as [|a b o1 o2 Hab _ IH]; [done|]. cbn [omap list_omap map].
  destruct a as [a|], b as [b|]; cbn [id default]; [|exfalso; naive_solver|exfalso; naive_solver|].
  - split; intros E; injection E as -> E; f_equal; by apply IH.
  - rewrite IH. split; [by intros ->|]. intros E. by injection E.
Qed.

Definition nul_free_label (l : Label) : Prop := nul_free (Name l) = true ∧ nul_free (Value l) = true.
Lemma found_nul_free keys labels : Forall nul_free_label labels → Forall (λ v, nul_free v = true) (omap id (found keys labels)).
Proof.
  intros H. apply Forall_forall. intros v (o & Ho & Ev)%list_elem_of_omap. cbn [id] in Ev. subst o.
  apply list_elem_of_fmap in Ho as (k & E & _). destruct (list_find _ labels) as [[i l]|] eqn:El; [|done].
  injection E as ->. apply list_find_Some in El as (El & _ & _). by apply (Forall_lookup_1 _ _ _ _ H El).
Qed.

Section Keys.
Context `{Xx : Xxhash} `{Ops : SketchOps} `{Ql : MetricsQL}.

(** The texts of a series, with the values that go with them. *)
Definition explicit_keys (groupBy : list string) (kw : bool) : list string :=
  if kw then take (length groupBy - 1) groupBy else groupBy.
Definition serie_texts (groupBy : list string) (kw : bool) (ts : TimeSerie) : list (string * list string) :=
  let keys := explicit_keys groupBy kw in
  let '(d, values, hasNames) := group_values keys (Labels ts) EmptyString (bool_decide (keys = [])) in
  if negb hasNames then []
  else if negb kw then [(d, values)]
  else map (λ l, ((if bool_decide (keys = []) then d else d +:+ NUL) +:+ Name l, values ++ [Name l]))
         (filter (λ l, LabelFingerprint l ≠ 0) (Labels ts)).

Lemma serie_ops_texts groupBy kw ts : groupBy ≠ [] →
  map (λ ov, (op_key ov.1, ov.2)) (serie_ops groupBy kw ts) =
    map (λ dv, (xxhash_Sum64 dv.1, dv.2)) (serie_texts groupBy kw ts).
Proof.
  intros Hne. unfold serie_ops, serie_texts, explicit_keys. destruct groupBy as [|g0 g]; [done|].
  destruct (group_values _ _ _ _) as [[d vs] b]. destruct b; [|done]. cbn [negb]. destruct kw; cbn [negb]; [|done].
  rewrite !map_map. done.
Qed.


(** Series that lack different labels are told apart by neither: for a stream
    grouped by [a] and [b], [{a="x"}] and [{b="x"}] have the same key, and the
    group has the values of whichever came first. *)
Lemma group_key_collision fp1 fp2 : let keys l := serie_ops ["a"; "b"]%string false l in
  ∃ o1 o2, keys (mkTimeSerie [mkLabel "a" "x" 0] fp1) = [(o1, ["x"; EmptyString]%string)] ∧
    keys (mkTimeSerie [mkLabel "b" "x" 0] fp2) = [(o2, [EmptyString; "x"]%string)] ∧ op_key o1 = op_key o2.
Proof. do 2 eexists. done. Qed.
(** A missing label and an empty one are hashed differently but give the group
    the same values, so the two groups are written as the same metric. *)
Lemma missing_and_empty fp1 fp2 : let texts l := serie_texts ["a"; "b"]%string false l in
  ∃ d1 d2, texts (mkTimeSerie [mkLabel "a" "x" 0] fp1) = [(d1, ["x"; EmptyString]%string)] ∧
    texts (mkTimeSerie [mkLabel "a" "x" 0; mkLabel "b" EmptyString 0] fp2) = [(d2, ["x"; EmptyString]%string)] ∧ d1 ≠ d2.
Proof. do 2 eexists. split; [reflexivity|]. split; [reflexivity|]. discriminate. Qed.
End Keys.

