(* ===== verification/EstimatorWindow.v ===== *)
(** * EstimatorWindow: what an estimator remembers, and for how long

    The families of hash sets of all buckets together: batches add exactly
    their series' hashes as long as the group limit is not exceeded, whatever
    the number of buckets and the order of the series; rotations age them, and
    resets forget them.  Every estimator reachable from [newEstimator] keeps
    its invariants. *)
From Stdlib Require Import Ascii String.
From S2P Require Import Prelude GoText Types Config SketchSpec GroupSize Snapshot Estimator EstimatorInsert.
Local Open Scope Z_scope.

Definition union_all (l : list (gmap Z (gset Z))) : gmap Z (gset Z) := foldr groups_union ∅ l.
Definition cur_family (A : list bucket_state) : gmap Z (gset Z) := union_all (map fst A).
Definition prev_family (A : list bucket_state) : gmap Z (gset Z) := union_all (map snd A).
(** What the estimator currently reports. *)
Definition window (A : list bucket_state) : gmap Z (gset Z) := groups_union (cur_family A) (prev_family A).

(** What a list of inserts contributes: by group key, the hashes inserted. *)
Definition op_family (o : insert_op) : gmap Z (gset Z) := {[ op_key o := {[ op_fp o ]} ]}.
Definition ops_family (ops : list insert_op) : gmap Z (gset Z) := union_all (map op_family ops).

Lemma groups_union_empty_r X : groups_union X ∅ = X.
Proof. by rewrite groups_union_comm, groups_union_empty. Qed.

Lemma union_all_app l1 l2 : union_all (l1 ++ l2) = groups_union (union_all l1) (union_all l2).
Proof.
  induction l1 as [|X l1 IH]; simpl; [by rewrite groups_union_empty|].
  by rewrite IH, groups_union_assoc.
Qed.

Lemma union_all_perm l1 l2 : l1 ≡ₚ l2 → union_all l1 = union_all l2.
Proof.
  apply (foldr_permutation (=) groups_union ∅). intros j1 X j2 Y acc _ _ _.
  by rewrite !groups_union_assoc, (groups_union_comm X).
Qed.

Lemma ops_family_perm ops1 ops2 : ops1 ≡ₚ ops2 → ops_family ops1 = ops_family ops2.
Proof. intros H. unfold ops_family. by apply union_all_perm, fmap_Permutation. Qed.

Lemma union_all_insert (l : list (gmap Z (gset Z))) i X Y : l !! i = Some X →
  union_all (<[i := groups_union Y X]> l) = groups_union Y (union_all l).
Proof.
  revert i. induction l as [|W l IH]; intros [|i] E; simpl in *; try done.
  - injection E as ->. by rewrite groups_union_assoc.
  - rewrite (IH i E), !groups_union_assoc. by rewrite (groups_union_comm W).
Qed.

Lemma add_hash_union C key fp : add_hash C key fp = groups_union {[ key := {[ fp ]} ]} C.
Proof.
  apply map_eq. intros k. unfold add_hash. rewrite groups_union_lookup.
  destruct (decide (key = k)) as [<-|Hne].
  - rewrite lookup_insert_eq, lookup_singleton_eq. destruct (C !! key); simpl; f_equal.
    + apply union_comm_L.
    + apply union_empty_r_L.
  - by rewrite lookup_insert_ne, lookup_singleton_ne by done.
Qed.

(** ** Inserts without a limit *)
Lemma abs_insert_length limit A o : length (abs_insert limit A o) = length A.
Proof.
  unfold abs_insert. destruct (A !! _) as [CP|]; [|done].
  destruct (decide _); [apply length_insert|done].
Qed.

Lemma abs_insert_unlimited A o : (0 < length A)%nat →
  cur_family (abs_insert None A o) = groups_union (op_family o) (cur_family A) ∧
  prev_family (abs_insert None A o) = prev_family A.
Proof.
  intros Hl. unfold abs_insert, cur_family, prev_family.
  destruct (lookup_lt_is_Some_2 A (bucket_index A (op_h o))) as [CP E]; [by apply bucket_index_lt|].
  rewrite E, decide_True by done. split.
  - rewrite map_insert. simpl. rewrite add_hash_union. apply union_all_insert.
    by apply (map_lookup_Some fst A).
  - by rewrite (map_insert_id snd A _ _ CP).
Qed.

Lemma abs_inserts_unlimited ops : ∀ A, (0 < length A)%nat →
  cur_family (abs_inserts None A ops) = groups_union (ops_family ops) (cur_family A) ∧
  prev_family (abs_inserts None A ops) = prev_family A.
Proof.
  induction ops as [|o ops IH]; intros A Hl.
  { by rewrite groups_union_empty. }
  unfold abs_inserts in *. cbn [foldl]. destruct (abs_insert_unlimited A o Hl) as [H1 H2].
  destruct (IH (abs_insert None A o)) as [H3 H4]; [by rewrite abs_insert_length|].
  rewrite H3, H4, H1, H2. split; [|done]. unfold ops_family. cbn [map union_all foldr].
  rewrite !groups_union_assoc. f_equal. apply groups_union_comm.
Qed.

(** ** Counting groups *)
Definition all_keys (A : list bucket_state) : gset Z := ⋃ (map known_keys A).

Lemma dom_groups_union X Y : dom (groups_union X Y) = dom X ∪ dom Y.
Proof.
  apply set_eq. intros k. rewrite elem_of_union, !elem_of_dom, groups_union_lookup.
  destruct (X !! k), (Y !! k); split; intros; try naive_solver; try (by destruct H as [[? ?]|[? ?]]).
Qed.

Lemma dom_window A : dom (window A) = all_keys A.
Proof.
  unfold window, cur_family, prev_family, all_keys, known_keys. rewrite dom_groups_union.
  induction A as [|CP A IH]; simpl; [set_solver|]. rewrite !dom_groups_union, <- IH. set_solver.
Qed.

Lemma elem_of_all_keys A key : key ∈ all_keys A ↔ ∃ i CP, A !! i = Some CP ∧ key ∈ known_keys CP.
Proof.
  unfold all_keys. rewrite elem_of_union_list. split.
  - intros (X & (CP & -> & [i E]%list_elem_of_lookup)%list_elem_of_fmap & H). eauto.
  - intros (i & CP & E & H). exists (known_keys CP). split; [|done]. apply list_elem_of_fmap.
    exists CP. split; [done|]. by eapply list_elem_of_lookup_2.
Qed.

Lemma total_groups_disjoint A :
  (∀ i j CP CP' key, A !! i = Some CP → A !! j = Some CP' →
     key ∈ known_keys CP → key ∈ known_keys CP' → i = j) →
  total_groups A = Z.of_nat (size (all_keys A)).
Proof.
  unfold total_groups, all_keys. induction A as [|CP A IH]; intros H; [done|]. simpl.
  rewrite size_union.
  - rewrite IH; [unfold groups_count; lia|]. intros i j CP1 CP2 key E1 E2 H1 H2.
    specialize (H (S i) (S j) CP1 CP2 key E1 E2 H1 H2). lia.
  - intros key H1 H2. apply elem_of_all_keys in H2 as (i & CP' & E & H2).
    specialize (H 0%nat (S i) CP CP' key eq_refl E H1 H2). lia.
Qed.

Lemma total_groups_placed A : abs_placed A → total_groups A = Z.of_nat (size (dom (window A))).
Proof.
  intros H. rewrite dom_window. apply total_groups_disjoint.
  intros i j CP CP' key E1 E2 H1 H2. rewrite (H i CP key E1 H1). symmetry. by apply (H j CP').
Qed.

(** ** Inserts below the limit *)
Lemma zsum_map_le {A} (f : A → Z) (l : list A) i x y : l !! i = Some x →
  zsum (map f (<[i := y]> l)) = zsum (map f l) - f x + f y.
Proof. intros E. rewrite map_insert. apply zsum_insert. by apply map_lookup_Some. Qed.

Lemma total_groups_insert A o CP : A !! bucket_index A (op_h o) = Some CP →
  total_groups (abs_insert None A o) =
    total_groups A + (if decide (op_key o ∈ known_keys CP) then 0 else 1).
Proof.
  intros E. unfold abs_insert, total_groups. rewrite E, decide_True by done.
  rewrite (zsum_map_le groups_count A _ CP) by done. rewrite groups_count_add. lia.
Qed.

Lemma total_groups_mono ops : ∀ A, (0 < length A)%nat → total_groups A <= total_groups (abs_inserts None A ops).
Proof.
  induction ops as [|o ops IH]; intros A Hl; [done|]. unfold abs_inserts in *. cbn [foldl].
  etrans; [|apply IH; by rewrite abs_insert_length].
  destruct (lookup_lt_is_Some_2 A (bucket_index A (op_h o))) as [CP E]; [by apply bucket_index_lt|].
  rewrite (total_groups_insert A o CP E). destruct (decide _); lia.
Qed.

Lemma abs_inserts_below_limit l ops : ∀ A, (0 < length A)%nat →
  total_groups (abs_inserts None A ops) <= l → abs_inserts (Some l) A ops = abs_inserts None A ops.
Proof.
  induction ops as [|o ops IH]; intros A Hl Hle; [done|]. unfold abs_inserts in *. cbn [foldl] in *.
  assert (abs_insert (Some l) A o = abs_insert None A o) as ->.
  { unfold abs_insert at 1 2. destruct (lookup_lt_is_Some_2 A (bucket_index A (op_h o))) as [CP E]; [by apply bucket_index_lt|].
    rewrite E. rewrite decide_True; [by rewrite decide_True by done|].
    simpl. destruct (decide (op_key o ∈ known_keys CP)) as [|Hn]; [by left|right].
    pose proof (total_groups_insert A o CP E) as Ht. rewrite decide_False in Ht by done.
    pose proof (total_groups_mono ops (abs_insert None A o) ltac:(by rewrite abs_insert_length)) as Hm.
    unfold abs_inserts in Hm. lia. }
  apply IH; [by rewrite abs_insert_length|done].
Qed.

Lemma abs_inserts_placed ops : ∀ A, abs_placed A → Forall (λ o, op_h o = op_key o) ops →
  abs_placed (abs_inserts None A ops).
Proof.
  induction ops as [|o ops IH]; intros A HA Hops; [done|]. apply Forall_cons in Hops as [Ho Hops].
  unfold abs_inserts in *. cbn [foldl]. apply IH; [|done].
  unfold abs_insert. destruct (A !! _) as [CP|] eqn:E; [|done]. rewrite decide_True by done.
  apply (abs_placed_insert A _ CP); [done|done|]. intros key. rewrite known_keys_add, Ho.
  intros [->%elem_of_singleton|?]%elem_of_union; [by right|by left].
Qed.

(** ** Rotation and reset *)
Definition age (global : bool) (CP : bucket_state) : bucket_state :=
  (if global then {[ 0 := ∅ ]} else ∅, CP.1).
Definition blank (global : bool) : bucket_state :=
  if global then ({[ 0 := ∅ ]}, {[ 0 := ∅ ]}) else (∅, ∅).

Definition keys_size (C : gmap Z (gset Z)) : Z := Z.of_nat (size (dom C)).

Lemma keys_size_nonneg C : 0 <= keys_size C.
Proof. unfold keys_size. lia. Qed.

Lemma groups_count_age CP : groups_count (age false CP) = keys_size CP.1 ∧
  groups_count (age false CP) <= groups_count CP.
Proof.
  unfold groups_count, known_keys, age. simpl. rewrite dom_empty_L, union_empty_l_L. split; [done|].
  apply inj_le, subseteq_size. set_solver.
Qed.

Section Events.
Context `{Spec : SketchSpec} `{Ord : IterOrder, !IterOrderOk Ord} `{Xx : Xxhash, !XxhashOk Xx} `{Ql : MetricsQL}.

Definition is_global (e : estimator) : bool := bool_decide (e_groupBy e = []).

(** One bucket changed in place. *)
Definition update_bucket (f : estimatorBucket → groupSize → option (estimatorBucket * groupSize))
    (e : estimator) (i : nat) : option estimator :=
  eb ← e_buckets e !! i;
  '(eb, gs) ← f eb (e_groupSize e);
  Some (set_buckets e (<[i := eb]> (e_buckets e)) gs).

Lemma update_bucket_middle f e dn eb todo gs :
  update_bucket f (set_buckets e (dn ++ eb :: todo) gs) (length dn) =
    '(eb', gs') ← f eb gs; Some (set_buckets e ((dn ++ [eb']) ++ todo) gs').
Proof.
  unfold update_bucket. cbn [e_buckets e_groupSize set_buckets]. rewrite list_lookup_middle by done.
  cbn [mbind option_bind]. destruct (f eb gs) as [[eb' gs']|]; [|done]. cbn [mbind option_bind].
  unfold set_buckets. cbn. do 2 f_equal. by rewrite <- app_assoc, insert_app_r_alt, Nat.sub_diag by lia.
Qed.

Lemma over_buckets_eq f e :
  over_buckets f e = for_each (update_bucket f) (seq 0 (length (e_buckets e))) e.
Proof.
  unfold over_buckets.
  enough (∀ todo dn gs,
    ('(ebs, gs) ← for_each (λ '(ebs, gs) eb, '(eb, gs) ← f eb gs; Some (ebs ++ [eb], gs)) todo (dn, gs);
     Some (set_buckets e ebs gs)) =
    for_each (update_bucket f) (seq (length dn) (length todo)) (set_buckets e (dn ++ todo) gs)) as H.
  { rewrite (H (e_buckets e) [] (e_groupSize e)). by destruct e. }
  induction todo as [|eb todo IH]; intros dn gs; [by rewrite app_nil_r|].
  cbn [for_each length seq]. rewrite update_bucket_middle.
  destruct (f eb gs) as [[eb' gs']|]; [|done]. cbn [mbind option_bind]. rewrite IH.
  by rewrite length_app, Nat.add_1_r.
Qed.

Lemma bucket_gs_lookup p e A i CP : est_repr p e A → e_groupBy e ≠ [] → A !! i = Some CP →
  gs_bucketSizes (e_groupSize e) !! i = Some (groups_count CP).
Proof. intros H Hg E. rewrite (er_sizes p e A H Hg). by apply map_lookup_Some. Qed.

Lemma abs_placed_sub A i CP CP' : abs_placed A → A !! i = Some CP →
  known_keys CP' ⊆ known_keys CP → abs_placed (<[i := CP']> A).
Proof. intros HA E Hsub. apply (abs_placed_insert A i CP); [done|done|]. auto. Qed.

(** A bucket of a group estimator whose groups were dropped or moved. *)
Lemma shrink_group_bucket p e A i CP eb (groups : gmap Z groupSketch) gs C :
  est_repr p e A → e_groupBy e ≠ [] → A !! i = Some CP → bucket_repr p (e_groupBy e) i eb CP →
  groups_repr p C (gsk_ssk <$> groups) → dom C ⊆ known_keys CP →
  rotateLocked (e_groupSize e) i (keys_size C) = Some gs →
  est_repr p (set_buckets e (<[i := set_groups eb ∅ groups]> (e_buckets e)) gs) (<[i := (∅, C)]> A) ∧
  gs_limit gs = gs_limit (e_groupSize e).
Proof.
  intros H Hg E Hbr HC Hsub Er. pose proof (bucket_gs_lookup p e A i CP H Hg E) as En.
  destruct (rotateLocked_ok (e_groupSize e) i _ (keys_size C) (er_gs p e A H) En (keys_size_nonneg C))
    as (gs' & Er' & Hgs' & Hlim & _ & Hsz & _).
  rewrite Er in Er'. injection Er' as <-. split; [|done].
  assert (known_keys (∅, C) = dom C) as Hk by (unfold known_keys; simpl; by rewrite dom_empty_L, union_empty_l_L).
  apply er_update; [done| |done|by rewrite Hsz, length_insert, (er_gs_len p e A H)|..].
  - destruct Hbr as [? ? ? Hst]. split; [done..|]. destruct (e_groupBy e); [done|]. split; simpl; [|done].
    rewrite fmap_empty. apply groups_repr_empty.
  - intros _. rewrite Hsz, map_insert, (er_sizes p e A H Hg). f_equal. unfold groups_count. rewrite Hk.
    apply Z.min_r, inj_le, subseteq_size, Hsub.
  - intros _. apply (abs_placed_sub A i CP); [by apply (er_placed p e A H)|done|by rewrite Hk].
Qed.

Lemma rotate_refines p e A i : est_repr p e A → (i < length A)%nat →
  ∃ e', estimator_rotate_bucket e i = Some e' ∧ same_static e e' ∧
    est_repr p e' (alter (age (is_global e)) i A).
Proof.
  intros H Hi. destruct (er_lookup p e A i H Hi) as (eb & CP & Eb & EA & Hbr).
  unfold estimator_rotate_bucket. rewrite Eb. cbn [mbind option_bind]. rewrite (alter_insert _ _ i CP) by done.
  pose proof Hbr as [Hidx Hgb Hpr Hst]. unfold bucket_rotate, is_global, age. rewrite Hgb.
  destruct (decide (e_groupBy e = [])) as [Eg|Eg].
  - rewrite Eg, bool_decide_true in * by done. destruct Hst as [(sk0 & X & Esk & HX & EC) _].
    destruct (mustNewSketch_ok p (eb_sparse eb) (er_precision p e A H)) as (sk & En & Hsk).
    unfold bucket_newSketch. rewrite Hpr, En. cbn [mbind option_bind]. eexists. split; [done|]. split; [by split_and!|].
    apply er_update; try done; [|apply H|apply H].
    rewrite Eg. split; [done..|]. simpl. split; [by eexists _, _|]. rewrite Esk. by exists X.
  - rewrite bool_decide_false by done.
    assert (∃ C, groups_repr p C (gsk_ssk <$> eb_groups eb) ∧ C = CP.1) as (C & HC & EC).
    { destruct (e_groupBy e); [done|]. destruct Hst as [H1 _]. eauto. }
    assert (Z.of_nat (size (eb_groups eb)) = keys_size C) as Esize.
    { unfold keys_size. rewrite <- (groups_repr_dom p C _ HC), dom_fmap_L. by rewrite size_dom. }
    destruct (rotateLocked_ok (e_groupSize e) i _ (keys_size C) (er_gs p e A H)
      (bucket_gs_lookup p e A i CP H Eg EA) (keys_size_nonneg _)) as (gs & Er & _).
    destruct (shrink_group_bucket p e A i CP eb (eb_groups eb) gs C H Eg EA Hbr HC) as [H' Hlim]; [|done|].
    { rewrite EC. unfold known_keys. set_solver. }
    destruct (e_groupBy e); [done|]. rewrite Hidx, Esize, Er. cbn [mbind option_bind].
    eexists. split; [done|]. split; [by split_and!|]. by rewrite <- EC.
Qed.

(** Resetting a global bucket needs its previous sketch. *)
Definition rotated_once (A : list bucket_state) : Prop := Forall (λ CP : bucket_state, CP.2 ≠ ∅) A.

Lemma reset_bucket_refines p e A i (CP : bucket_state) : est_repr p e A → A !! i = Some CP →
  (is_global e = true → CP.2 ≠ ∅) →
  ∃ e', update_bucket bucket_reset e i = Some e' ∧ same_static e e' ∧
    est_repr p e' (<[i := blank (is_global e)]> A) ∧ length (e_buckets e') = length (e_buckets e).
Proof.
  intros H EA Hprev. destruct (er_lookup p e A i H) as (eb & CP' & Eb & EA' & Hbr); [by eapply lookup_lt_Some|].
  assert (CP' = CP) as -> by congruence. unfold update_bucket. rewrite Eb. cbn [mbind option_bind].
  pose proof Hbr as [Hidx Hgb Hpr Hst]. unfold bucket_reset, is_global, blank in *. rewrite Hgb.
  destruct (decide (e_groupBy e = [])) as [Eg|Eg].
  - rewrite Eg, bool_decide_true in * by done. destruct Hst as [(sk0 & X & Esk & HX & EC) HP].
    unfold prev_repr in HP. destruct (eb_prevSketch eb) as [pv|]; [|by destruct Hprev].
    destruct HP as (Y & HY & EP). rewrite Esk. cbn [mbind option_bind]. eexists. split; [done|].
    split; [by split_and!|]. split; [|apply length_insert]. apply er_update; try done; [|apply H|apply H].
    rewrite Eg. split; [done..|]. simpl. split; eexists _; [eexists _; split_and!|split]; try done; by eapply Reset_ok.
  - rewrite bool_decide_false by done.
    destruct (rotateLocked_ok (e_groupSize e) i _ (keys_size ∅) (er_gs p e A H)
      (bucket_gs_lookup p e A i CP H Eg EA) (keys_size_nonneg _)) as (gs & Er & _).
    destruct (shrink_group_bucket p e A i CP eb ∅ gs ∅ H Eg EA Hbr) as [H' Hlim]; [|set_solver|done|].
    { rewrite fmap_empty. apply groups_repr_empty. }
    change (keys_size ∅) with 0 in Er. destruct (e_groupBy e); [done|]. rewrite Hidx, Er. cbn [mbind option_bind].
    eexists. split; [done|]. split; [by split_and!|]. split; [done|apply length_insert].
Qed.

Lemma same_static_refl e : same_static e e.
Proof. by split_and!. Qed.

Lemma same_static_trans e1 e2 e3 : same_static e1 e2 → same_static e2 e3 → same_static e1 e3.
Proof. unfold same_static. intros (? & ? & ? & ? & ? & ? & ? & ?) (? & ? & ? & ? & ? & ? & ? & ?). split_and!; congruence. Qed.

Lemma same_static_global e e' : same_static e e' → is_global e' = is_global e.
Proof. intros (_ & _ & E & _). unfold is_global. by rewrite E. Qed.

(** A pass over all buckets. *)
Lemma update_all_refines p b (step : estimator → nat → option estimator)
    (g : bucket_state → bucket_state) (ok : bucket_state → Prop) :
  (∀ e A i (CP : bucket_state), est_repr p e A → is_global e = b → A !! i = Some CP → ok CP →
     ∃ e', step e i = Some e' ∧ same_static e e' ∧ est_repr p e' (<[i := g CP]> A)) →
  ∀ e A, est_repr p e A → is_global e = b → Forall ok A →
  ∃ e', for_each step (seq 0 (length A)) e = Some e' ∧ same_static e e' ∧ est_repr p e' (map g A).
Proof.
  intros Hstep.
  enough (∀ A2 A1 e, est_repr p e (map g A1 ++ A2) → is_global e = b → Forall ok A2 →
    ∃ e', for_each step (seq (length A1) (length A2)) e = Some e' ∧ same_static e e' ∧
      est_repr p e' (map g (A1 ++ A2))) as H by (intros e A; apply (H A [])).
  induction A2 as [|CP A2 IH]; intros A1 e H Hb Hok.
  { exists e. rewrite !app_nil_r in *. split_and!; try done. }
  apply Forall_cons in Hok as [HCP Hok]. cbn [length seq for_each].
  destruct (Hstep e (map g A1 ++ CP :: A2) (length A1) CP H Hb) as (e1 & -> & Hst & H1).
  { apply list_lookup_middle. by rewrite length_map. }
  { done. }
  cbn [mbind option_bind]. destruct (IH (A1 ++ [CP]) e1) as (e2 & E2 & Hst2 & H2).
  - rewrite insert_app_r_alt, length_map, Nat.sub_diag in H1 by (by rewrite length_map).
    rewrite map_app, <- app_assoc. exact H1.
  - by rewrite (same_static_global e e1).
  - done.
  - rewrite length_app, Nat.add_1_r in E2. exists e2. split_and!; [exact E2|by eapply same_static_trans|].
    by rewrite <- app_assoc in H2.
Qed.

Lemma reset_refines p e A : est_repr p e A → (is_global e = true → rotated_once A) →
  ∃ e', estimator_reset e = Some e' ∧ same_static e e' ∧
    est_repr p e' (replicate (length A) (blank (is_global e))).
Proof.
  intros H Hro. unfold estimator_reset. rewrite over_buckets_eq, (er_len p e A H).
  destruct (update_all_refines p (is_global e) (update_bucket bucket_reset) (λ _, blank (is_global e))
    (λ CP, is_global e = true → CP.2 ≠ ∅)) with e A as (e' & E & Hst & H').
  - intros e1 A1 i CP H1 Hb E1 Hok. rewrite <- Hb in *.
    destruct (reset_bucket_refines p e1 A1 i CP H1 E1 Hok) as (e' & ? & ? & ? & _). eauto.
  - done.
  - done.
  - destruct (is_global e); [|by apply Forall_true]. eapply Forall_impl; [by apply Hro|]. done.
  - exists e'. split_and!; [done|done|]. by rewrite <- (const_fmap (λ _, blank (is_global e)) A) by done.
Qed.

(** One turn of [runRotation]: every bucket once. *)
Definition full_round (e : estimator) : option estimator :=
  for_each estimator_rotate_bucket (seq 0 (length (e_buckets e))) e.

Lemma full_round_refines p e A : est_repr p e A →
  ∃ e', full_round e = Some e' ∧ same_static e e' ∧ est_repr p e' (map (age (is_global e)) A).
Proof.
  intros H. unfold full_round. rewrite (er_len p e A H).
  apply (update_all_refines p (is_global e) _ _ (λ _, True)); [|done|done|by apply Forall_true].
  intros e1 A1 i CP H1 Hb E1 _. destruct (rotate_refines p e1 A1 i H1) as (e' & ? & ? & H').
  { by eapply lookup_lt_Some. }
  rewrite (alter_insert _ _ i CP), Hb in H' by done. eauto.
Qed.

(** The hashes recorded for a group. *)
Definition hashes (F : gmap Z (gset Z)) (key : Z) : gset Z := default ∅ (F !! key).

Lemma hashes_union X Y key : hashes (groups_union X Y) key = hashes X key ∪ hashes Y key.
Proof.
  unfold hashes. rewrite groups_union_lookup.
  destruct (X !! key), (Y !! key); simpl; rewrite ?union_empty_l_L, ?union_empty_r_L; [apply union_comm_L|done..].
Qed.

Lemma elem_of_union_all l key x : x ∈ hashes (union_all l) key ↔ ∃ X, X ∈ l ∧ x ∈ hashes X key.
Proof.
  induction l as [|X l IH]; simpl.
  - unfold hashes at 1. rewrite lookup_empty. simpl. split; [intros H; by apply elem_of_empty in H|].
    intros (X & H & _). by apply not_elem_of_nil in H.
  - rewrite hashes_union, elem_of_union, IH. setoid_rewrite elem_of_cons. split.
    + intros [H|(Y & H1 & H2)]; eauto.
    + intros (Y & [->|H1] & H2); eauto.
Qed.

Lemma elem_of_window A key x : x ∈ hashes (window A) key ↔
  ∃ i CP, A !! i = Some CP ∧ (x ∈ hashes CP.1 key ∨ x ∈ hashes CP.2 key).
Proof.
  unfold window, cur_family, prev_family. rewrite hashes_union, elem_of_union, !elem_of_union_all. split.
  - intros [(X & (CP & -> & [i E]%list_elem_of_lookup)%list_elem_of_fmap & H)
           |(X & (CP & -> & [i E]%list_elem_of_lookup)%list_elem_of_fmap & H)]; eauto 10.
  - intros (i & CP & E%list_elem_of_lookup_2 & [H|H]); [left|right]; eexists; (split; [|exact H]);
      apply list_elem_of_fmap; eauto.
Qed.

Lemma hashes_age b CP key x : (x ∈ hashes (age b CP).1 key → False) ∧ (x ∈ hashes (age b CP).2 key ↔ x ∈ hashes CP.1 key).
Proof.
  split; [|done]. unfold hashes, age. simpl. destruct b.
  - destruct (decide (key = 0)) as [->|]; [rewrite lookup_singleton_eq|rewrite lookup_singleton_ne by done];
      simpl; intros H; by apply elem_of_empty in H.
  - rewrite lookup_empty. simpl. intros H. by apply elem_of_empty in H.
Qed.

(** The window of an estimator is two turns of the rotation.  After one
    turn over all buckets exactly the hashes recorded since the previous turn
    are still reported; after a second turn without inserts none is; neither
    turn can panic. *)
Theorem rotation_window p e A : est_repr p e A →
  ∃ e1 A1 e2 A2, full_round e = Some e1 ∧ est_repr p e1 A1 ∧
    full_round e1 = Some e2 ∧ est_repr p e2 A2 ∧
    ∀ key x, (x ∈ hashes (window A1) key ↔ x ∈ hashes (cur_family A) key) ∧
             ¬ x ∈ hashes (window A2) key.
Proof.
  intros H. destruct (full_round_refines p e A H) as (e1 & E1 & Hs1 & H1).
  destruct (full_round_refines p e1 _ H1) as (e2 & E2 & Hs2 & H2).
  do 4 eexists. split_and!; [done|done|done|done|]. intros key x. split.
  - rewrite elem_of_window. unfold cur_family. rewrite elem_of_union_all. split.
    + intros (i & CP & E & Hx). apply list_lookup_fmap_Some in E as (CP0 & -> & E).
      destruct (hashes_age (is_global e) CP0 key x) as [Hn Hy]. destruct Hx as [Hx|Hx]; [by destruct Hn|].
      exists CP0.1. split; [|by apply Hy]. apply list_elem_of_fmap. eauto using list_elem_of_lookup_2.
    + intros (X & (CP0 & -> & [i E]%list_elem_of_lookup)%list_elem_of_fmap & Hx).
      exists i, (age (is_global e) CP0). split; [by apply map_lookup_Some|]. by right.
  - rewrite elem_of_window. intros (i & CP & E & Hx).
    apply list_lookup_fmap_Some in E as (CP1 & -> & E). apply list_lookup_fmap_Some in E as (CP0 & -> & E).
    destruct (hashes_age (is_global e1) (age (is_global e) CP0) key x) as [Hn Hy].
    destruct Hx as [Hx|Hx]; [by apply Hn|]. apply Hy in Hx. by apply (hashes_age (is_global e) CP0 key x).
Qed.

(** Inserts that stay below the limit are inserts without one. *)
Lemma inserts_below_limit p e A ovs : est_repr p e A → Forall (opv_ok e) ovs →
  (is_global e = false →
   Z.of_nat (size (dom (groups_union (window A) (ops_family (map fst ovs))))) <= gs_limit (e_groupSize e)) →
  abs_inserts (limit_of e) A (map fst ovs) = abs_inserts None A (map fst ovs).
Proof.
  intros H Hops Hlim. unfold limit_of. destruct (decide (e_groupBy e = [])) as [Eg|Eg]; [by rewrite Eg|].
  assert (is_global e = false) as Hg by by apply bool_decide_eq_false.
  destruct (abs_inserts_unlimited (map fst ovs) A (er_nonempty p e A H)) as [Hc Hpv].
  assert (abs_inserts (Some (gs_limit (e_groupSize e))) A (map fst ovs) = abs_inserts None A (map fst ovs)) as <-;
    [|by destruct (e_groupBy e)].
  apply abs_inserts_below_limit; [apply H|]. rewrite total_groups_placed.
  - unfold window. rewrite Hc, Hpv. specialize (Hlim Hg). unfold window in Hlim.
    rewrite groups_union_comm, groups_union_assoc in Hlim. exact Hlim.
  - apply abs_inserts_placed; [by apply (er_placed p e A H)|].
    apply Forall_map. eapply Forall_impl; [exact Hops|].
    intros ov [(_ & _ & Hov) _]. by destruct (e_groupBy e).
Qed.

Lemma insertMany_below_limit p e A tss start :
  est_repr p e A → filter_total e → batch_ok tss → start_ok tss start →
  (is_global e = false →
   Z.of_nat (size (dom (groups_union (window A) (ops_family (map fst (batch_ops e tss))))))
     <= gs_limit (e_groupSize e)) →
  ∃ e' A', insertMany e tss start = Some e' ∧ est_repr p e' A' ∧ same_static e e' ∧
    cur_family A' = groups_union (ops_family (map fst (batch_ops e tss))) (cur_family A) ∧
    prev_family A' = prev_family A.
Proof.
  intros H Hf Hb Hs Hlim.
  destruct (insertMany_run p e A tss start H Hf Hb Hs) as (e' & E & Hst & H' & Hp & _).
  set (ops := map fst (batch_ops e (rotated tss start))) in *.
  assert (ops_family ops = ops_family (map fst (batch_ops e tss))) as Hfam.
  { apply ops_family_perm, fmap_Permutation, Hp. }
  destruct (abs_inserts_unlimited ops A (er_nonempty p e A H)) as [Hc Hpv].
  unfold ops in H'. rewrite (inserts_below_limit p) in H'.
  - exists e', (abs_inserts None A ops). by rewrite Hc, Hpv, Hfam.
  - done.
  - by apply batch_ops_ok, batch_ok_rotated.
  - fold ops. by rewrite Hfam.
Qed.

(** C1: inserting below the group limit is exact.  If the groups reported
    before together with those of the batch do not exceed the limit (a global
    estimator has none), then afterwards each group has exactly the hashes it
    had plus those of the batch's inserts with its key, and the previous
    families are untouched: neither the number of buckets, nor the order of
    the series, nor the random start of the loop matters. *)
Theorem insertMany_exact p e A tss start :
  est_repr p e A → filter_total e → batch_ok tss → start_ok tss start →
  (is_global e = false →
   Z.of_nat (size (dom (groups_union (window A) (ops_family (map fst (batch_ops e tss))))))
     <= gs_limit (e_groupSize e)) →
  ∃ e' A', insertMany e tss start = Some e' ∧ est_repr p e' A' ∧ same_static e e' ∧
    cur_family A' = groups_union (ops_family (map fst (batch_ops e tss))) (cur_family A) ∧
    prev_family A' = prev_family A.
Proof. apply insertMany_below_limit. Qed.

(** ** Reset *)
#[export] Instance rotated_once_dec A : Decision (rotated_once A).
Proof. unfold rotated_once. apply _. Defined.

Lemma over_buckets_each f e e' : over_buckets f e = Some e' →
  ∀ eb, eb ∈ e_buckets e → ∃ gs, is_Some (f eb gs).
Proof.
  unfold over_buckets. generalize (@nil estimatorBucket, e_groupSize e) as st.
  induction (e_buckets e) as [|eb0 ebs IH]; intros [dn gs] E eb Hin; [by apply not_elem_of_nil in Hin|].
  cbn [for_each] in E. destruct (f eb0 gs) as [[eb1 gs1]|] eqn:E1; [|done]. cbn [mbind option_bind] in E.
  apply elem_of_cons in Hin as [->|Hin]; [eauto|by apply (IH _ E)].
Qed.

(** C37: [reset].  A group estimator, and a global one all of whose buckets
    have rotated, is emptied: nothing is reported afterwards.  A global
    estimator with a bucket that has not rotated yet panics, for its previous
    sketch is nil. *)
Theorem reset_spec p e A : est_repr p e A →
  if decide (is_global e = true ∧ ¬ rotated_once A) then estimator_reset e = None
  else ∃ e' A', estimator_reset e = Some e' ∧ est_repr p e' A' ∧ same_static e e' ∧
         ∀ key x, ¬ x ∈ hashes (window A') key.
Proof.
  intros H. destruct (decide _) as [[Hg Hn]|Hc].
  - destruct (estimator_reset e) as [e'|] eqn:E; [|done]. destruct Hn. apply Forall_lookup.
    intros i CP EA. destruct (er_lookup p e A i H) as (eb & CP' & Eb & EA' & Hbr); [by eapply lookup_lt_Some|].
    assert (CP' = CP) as -> by congruence.
    destruct (over_buckets_each _ _ _ E eb) as (gs & r & Er); [by eapply list_elem_of_lookup_2|].
    destruct Hbr as [_ Hgb _ Hst]. unfold is_global in Hg. apply bool_decide_eq_true in Hg.
    rewrite Hg in *. destruct Hst as [_ HP]. unfold bucket_reset in Er. rewrite Hgb in Er.
    unfold prev_repr in HP. destruct (eb_prevSketch eb); [|done]. destruct HP as (Y & _ & ->).
    intros HE. by apply (f_equal (lookup 0)) in HE; rewrite lookup_singleton_eq, lookup_empty in HE.
  - destruct (reset_refines p e A H) as (e' & E & Hs & H').
    { intros Hg. apply dec_stable. tauto. }
    do 2 eexists. split_and!; [done|done|done|]. intros key x. rewrite elem_of_window.
    intros (i & CP & [-> _]%lookup_replicate & Hx). unfold blank, hashes in Hx.
    destruct (is_global e); simpl in Hx;
      (destruct (decide (key = 0)) as [->|]; rewrite ?lookup_singleton_eq, ?lookup_singleton_ne, ?lookup_empty in Hx by done;
       simpl in Hx; destruct Hx as [Hx|Hx]; by apply elem_of_empty in Hx).
Qed.
End Events.
