(* ===== verification/EstimatorLife.v ===== *)
(** * EstimatorLife: from creation on

    [newEstimator] establishes the invariant of [EstimatorInsert] for every
    prepared stream; batches, rotations and resets keep it.  Consequences: no
    panic (but for one, stated), the group limit, and how long a hash is
    reported. *)
From Stdlib Require Import Ascii String.
From S2P Require Import Prelude GoText Types Config SketchSpec GroupSize Snapshot Estimator EstimatorInsert.
From S2P Require Import EstimatorWindow.
Local Open Scope Z_scope.

Definition init_state (global : bool) : bucket_state := (if global then {[ 0 := ∅ ]} else ∅, ∅).

(** What can happen to an estimator. *)
Inductive est_event :=
| EvInsert (tss : list TimeSerie) (start : Z)
| EvRotate (i : nat)
| EvReset.

Section Life.
Context `{Spec : SketchSpec} `{Ord : IterOrder, !IterOrderOk Ord} `{Xx : Xxhash, !XxhashOk Xx} `{Ql : MetricsQL}.

Definition est_do (e : estimator) (ev : est_event) : option estimator :=
  match ev with
  | EvInsert tss start => insertMany e tss start
  | EvRotate i => estimator_rotate_bucket e i
  | EvReset => estimator_reset e
  end.
Definition est_run (e : estimator) (evs : list est_event) : option estimator := for_each est_do evs e.

(** ** Creation *)
Definition mk_bucket (cfg : EstimatorConfig) (sparse : bool) (i : nat) (sk : option sketch) : estimatorBucket :=
  mkBucket i (GroupBy cfg) (Interval cfg) (CalculateChurn cfg) (Filter cfg)
    (HLLPrecision cfg) sparse (ec_Labels cfg) (has_label_keyword (GroupBy cfg)) sk None ∅ ∅.

Definition first_sketch (cfg : EstimatorConfig) (sparse : bool) : option (option sketch) :=
  match GroupBy cfg with
  | [] => sk ← mustNewSketch (HLLPrecision cfg) sparse; Some (Some sk)
  | _ => Some None
  end.

Lemma first_sketch_ok cfg sparse : 4 <= HLLPrecision cfg <= 18 →
  ∃ sk, first_sketch cfg sparse = Some sk ∧ ∀ i,
    bucket_repr (HLLPrecision cfg) (GroupBy cfg) i (mk_bucket cfg sparse i sk)
      (init_state (bool_decide (GroupBy cfg = []))).
Proof.
  intros Hp. unfold first_sketch. destruct (GroupBy cfg) as [|g0 g'] eqn:Eg.
  - destruct (mustNewSketch_ok (HLLPrecision cfg) sparse Hp) as (sk & -> & Hsk). simpl.
    eexists. split; [done|]. intros i. split; simpl; [done|done|done|]. split; [|done]. by eexists _, _.
  - eexists. split; [done|]. intros i. split; simpl; [done|done|done|].
    split; rewrite fmap_empty; apply groups_repr_empty.
Qed.

Lemma build_buckets cfg sparse n k ebs : 4 <= HLLPrecision cfg <= 18 → length ebs = k →
  (∀ i eb, ebs !! i = Some eb → bucket_repr (HLLPrecision cfg) (GroupBy cfg) i eb
             (init_state (bool_decide (GroupBy cfg = [])))) →
  ∃ ebs', for_each (λ ebs i, sk ← first_sketch cfg sparse; Some (ebs ++ [mk_bucket cfg sparse i sk]))
            (seq k n) ebs = Some ebs' ∧ length ebs' = (k + n)%nat ∧
    ∀ i eb, ebs' !! i = Some eb → bucket_repr (HLLPrecision cfg) (GroupBy cfg) i eb
              (init_state (bool_decide (GroupBy cfg = []))).
Proof.
  intros Hp. revert k ebs. induction n as [|n IH]; intros k ebs Hl Hb.
  { exists ebs. split_and!; [done|lia|done]. }
  cbn [seq for_each]. destruct (first_sketch_ok cfg sparse Hp) as (sk & E0 & Hsk).
  rewrite E0 in IH |- *. cbn [mbind option_bind] in IH |- *.
  destruct (IH (S k) (ebs ++ [mk_bucket cfg sparse k sk])) as (ebs' & E & Hl' & Hb').
  - rewrite length_app. simpl. lia.
  - intros i eb [E|[Hi E]]%lookup_app_Some; [by apply Hb|].
    apply list_lookup_singleton_Some in E as [Ei <-]. replace i with k by lia. apply Hsk.
  - exists ebs'. split_and!; [exact E|lia|done].
Qed.

Lemma keyword_last g body : groupBy_prepared g body →
  existsb (λ k, bool_decide (k = labelKeyword)) (take (length g - 1) g) = false.
Proof.
  intros [Hshape _ Hnot]. apply not_true_iff_false. rewrite existsb_exists.
  intros (k & Hin & ->%bool_decide_eq_true). apply list_elem_of_In in Hin.
  destruct Hshape as [->| ->].
  - apply Hnot. eapply elem_of_sublist; [exact Hin|apply sublist_take].
  - rewrite length_app, Nat.add_sub, take_app_length in Hin. done.
Qed.

(** Creation, shared by the theorems about it. *)
Lemma newEstimator_run cpus ch cfg : config_wf cfg →
  ∃ r, newEstimator cpus ch cfg = Some r ∧
    match r with
    | Error _ => (5 < length (GroupBy cfg))%nat ∨ existsb reserved_groupBy (GroupBy cfg) = true ∨
                 ∃ msg, compileFilters (Filter cfg) = Error msg
    | Ok e => e_id e = config_id cfg ∧ e_cfg e = cfg ∧ gs_limit (e_groupSize e) = GroupLimit cfg ∧
              filter_total e ∧ length (e_buckets e) = Z.to_nat (Buckets cfg) ∧
              est_repr (HLLPrecision cfg) e (replicate (Z.to_nat (Buckets cfg)) (init_state (is_global e)))
    end.
Proof.
  intros Hwf. unfold newEstimator. rewrite applyDefaults_fixed by done. cbv zeta.
  pose proof Hwf as [[body Hg] Hlim _ _ Hbk Hp [sparse Hsp]].
  destruct (Nat.ltb_spec 5 (length (GroupBy cfg))) as [H5|H5]; [eexists; split; [done|]; by left|].
  destruct (existsb reserved_groupBy (GroupBy cfg)) eqn:Er; [eexists; split; [done|]; simpl; auto|].
  destruct (compileFilters (Filter cfg)) as [cf|msg] eqn:Ef; [|eexists; split; [done|]; simpl; eauto].
  rewrite (keyword_last _ body Hg), Hsp. cbn [mbind option_bind].
  destruct (build_buckets cfg sparse (Z.to_nat (Buckets cfg)) 0 [] Hp eq_refl ltac:(done))
    as (ebs & Eb & Hl & Hb).
  unfold first_sketch, mk_bucket in Eb. rewrite Eb. cbn [mbind option_bind].
  eexists. split; [done|]. simpl. split_and!; [done|done|done| |lia|].
  { intros labels. by apply (compileFilters_total (Filter cfg)). }
  unfold is_global. simpl. pose proof (newGroupSize_ok (GroupLimit cfg) (Buckets cfg)) as Hgs.
  split; simpl; rewrite ?length_replicate; try done; try lia.
  - intros i eb CP Ei [-> _]%lookup_replicate. by apply Hb.
  - intros Hne. rewrite bool_decide_false by done.
    transitivity (fmap groups_count (replicate (Z.to_nat (Buckets cfg)) (init_state false))); [|done].
    by rewrite fmap_replicate.
  - intros Hne i CP key [-> _]%lookup_replicate. rewrite bool_decide_false by done.
    intros [H|H]%elem_of_union; simpl in H; rewrite dom_empty_L in H; by apply elem_of_empty in H.
Qed.

(** Creating an estimator for a prepared stream.  [newEstimator] does not
    panic: the [__label__] check, the sketch sizes and the bucket count all
    hold by [prepare].  It reports an error only for more than five keys, a
    reserved key, or a filter that does not compile; otherwise the estimator
    has the stream's id, limit and configuration, its filter never panics, and
    its buckets are empty. *)
Theorem newEstimator_spec cpus ch cfg : config_wf cfg →
  ∃ r, newEstimator cpus ch cfg = Some r ∧
    match r with
    | Error _ => (5 < length (GroupBy cfg))%nat ∨ existsb reserved_groupBy (GroupBy cfg) = true ∨
                 ∃ msg, compileFilters (Filter cfg) = Error msg
    | Ok e => e_id e = config_id cfg ∧ e_cfg e = cfg ∧ gs_limit (e_groupSize e) = GroupLimit cfg ∧
              filter_total e ∧ length (e_buckets e) = Z.to_nat (Buckets cfg) ∧
              est_repr (HLLPrecision cfg) e (replicate (Z.to_nat (Buckets cfg)) (init_state (is_global e)))
    end.
Proof. apply newEstimator_run. Qed.

(** ** Every event keeps the invariant *)
Definition event_ok (A : list bucket_state) (global : bool) (ev : est_event) : Prop :=
  match ev with
  | EvInsert tss start => batch_ok tss ∧ start_ok tss start
  | EvRotate i => (i < length A)%nat
  | EvReset => global = true → rotated_once A
  end.

Definition abs_do (e : estimator) (A : list bucket_state) (ev : est_event) : list bucket_state :=
  match ev with
  | EvInsert tss start => abs_inserts (limit_of e) A (map fst (batch_ops e (rotated tss start)))
  | EvRotate i => alter (age (is_global e)) i A
  | EvReset => replicate (length A) (blank (is_global e))
  end.

Lemma est_do_refines p e A ev : est_repr p e A → filter_total e → event_ok A (is_global e) ev →
  ∃ e', est_do e ev = Some e' ∧ same_static e e' ∧ est_repr p e' (abs_do e A ev).
Proof.
  intros H Hf Hev. destruct ev as [tss start|i|]; simpl in *.
  - destruct Hev as [Hb Hs]. destruct (insertMany_run p e A tss start H Hf Hb Hs) as (e' & ? & ? & ? & _). eauto.
  - by apply rotate_refines.
  - by apply reset_refines.
Qed.

Lemma same_static_filter e e' : same_static e e' → filter_total e → filter_total e'.
Proof. intros (_ & _ & _ & E & _) Hf labels. rewrite E. apply Hf. Qed.

(** A group estimator, or a global one that is not reset. *)
Definition events_ok (n : nat) (global : bool) (evs : list est_event) : Prop :=
  Forall (λ ev, match ev with
                | EvInsert tss start => batch_ok tss ∧ start_ok tss start
                | EvRotate i => (i < n)%nat
                | EvReset => global = false
                end) evs.

Lemma abs_inserts_length limit ops : ∀ A, length (abs_inserts limit A ops) = length A.
Proof.
  induction ops as [|o ops IH]; intros A; [done|]. unfold abs_inserts in *. cbn [foldl].
  by rewrite IH, abs_insert_length.
Qed.

Lemma abs_do_length e A ev : length (abs_do e A ev) = length A.
Proof.
  destruct ev; simpl; [apply abs_inserts_length|apply length_alter|apply length_replicate].
Qed.

(** What may happen in a lifetime: anything, except that a global estimator is
    only reset once each of its [n] buckets is among the [turned] ones. *)
Fixpoint lifetime_ok (n : nat) (global : bool) (turned : gset nat) (evs : list est_event) : Prop :=
  match evs with
  | [] => True
  | EvInsert tss start :: evs => batch_ok tss ∧ start_ok tss start ∧ lifetime_ok n global turned evs
  | EvRotate i :: evs => (i < n)%nat ∧ lifetime_ok n global ({[ i ]} ∪ turned) evs
  | EvReset :: evs => (global = true → ∀ i, (i < n)%nat → i ∈ turned) ∧ lifetime_ok n global turned evs
  end.

Lemma events_lifetime n global evs : ∀ turned, events_ok n global evs → lifetime_ok n global turned evs.
Proof.
  induction evs as [|ev evs IH]; intros turned H; [done|]. apply Forall_cons in H as [Hev H].
  destruct ev; simpl; [destruct Hev; auto..|]. split; [congruence|auto].
Qed.

(** The buckets in [turned] have a previous family. *)
Definition turned_in (A : list bucket_state) (turned : gset nat) : Prop :=
  ∀ i (CP : bucket_state), A !! i = Some CP → i ∈ turned → CP.2 ≠ ∅.

Lemma turned_rotated A turned : turned_in A turned → (∀ i, (i < length A)%nat → i ∈ turned) → rotated_once A.
Proof.
  intros H Hall. apply Forall_lookup. intros i CP E. apply (H i CP E), Hall. by eapply lookup_lt_Some.
Qed.

Lemma abs_inserts_prev limit ops i : ∀ A (CP' : bucket_state), abs_inserts limit A ops !! i = Some CP' →
  ∃ CP : bucket_state, A !! i = Some CP ∧ CP'.2 = CP.2.
Proof.
  induction ops as [|o ops IH]; intros A CP' E; [by exists CP'|]. unfold abs_inserts in *. cbn [foldl] in E.
  apply IH in E as (CP & E & ->). unfold abs_insert in E.
  destruct (A !! bucket_index A (op_h o)) as [CP0|] eqn:E0; [|by exists CP]. destruct (decide _); [|by exists CP].
  apply list_lookup_insert_Some in E as [(<- & <- & _)|[_ E]]; [by exists CP0|by exists CP].
Qed.

Lemma global_cur p e A i (CP : bucket_state) : est_repr p e A → is_global e = true → A !! i = Some CP → CP.1 ≠ ∅.
Proof.
  intros H Hg EA. destruct (er_lookup p e A i H) as (eb & CP' & Eb & EA' & Hbr); [by eapply lookup_lt_Some|].
  assert (CP' = CP) as -> by congruence. apply bool_decide_eq_true in Hg. destruct Hbr as [_ _ _ Hst]. rewrite Hg in Hst.
  destruct Hst as [(sk & X & _ & _ & ->) _]. apply map_non_empty_singleton.
Qed.

(** The buckets that have turned after an event. *)
Definition turned_after (turned : gset nat) (ev : est_event) : gset nat :=
  match ev with EvRotate i => {[ i ]} ∪ turned | _ => turned end.

Lemma lifetime_cons n global turned ev evs : lifetime_ok n global turned (ev :: evs) →
  lifetime_ok n global (turned_after turned ev) evs.
Proof. destruct ev; simpl; tauto. Qed.

Lemma turned_do p e A turned ev : est_repr p e A → is_global e = true → turned_in A turned →
  turned_in (abs_do e A ev) (turned_after turned ev).
Proof.
  intros H Hg Ht i CP E Hin. destruct ev as [tss start|j|]; simpl in *.
  - apply abs_inserts_prev in E as (CP0 & E & ->). by apply (Ht i).
  - destruct (decide (j = i)) as [->|Hne].
    + rewrite list_lookup_alter_eq in E. apply fmap_Some in E as (CP0 & E & ->). by apply (global_cur p e A i).
    + rewrite list_lookup_alter_ne in E by done. apply (Ht i CP E). set_solver.
  - apply lookup_replicate in E as [-> _]. rewrite Hg. apply map_non_empty_singleton.
Qed.

Lemma lifetime_event p e A turned ev evs : est_repr p e A → (is_global e = true → turned_in A turned) →
  lifetime_ok (length A) (is_global e) turned (ev :: evs) → event_ok A (is_global e) ev.
Proof.
  intros H Ht Hok. destruct ev as [tss start|i|]; simpl in *; [tauto..|].
  intros Hg. apply (turned_rotated A turned); [auto|]. by apply Hok.
Qed.

(** Invariants carry over to every lifetime. *)
Lemma est_run_life p evs (I : estimator → list bucket_state → Prop) : ∀ e A turned,
  est_repr p e A → filter_total e → (is_global e = true → turned_in A turned) →
  lifetime_ok (length A) (is_global e) turned evs → I e A →
  (∀ e1 A1 ev e2, same_static e e1 → est_repr p e1 A1 → length A1 = length A → filter_total e1 → ev ∈ evs →
     event_ok A1 (is_global e1) ev → est_do e1 ev = Some e2 → I e1 A1 → I e2 (abs_do e1 A1 ev)) →
  ∃ e' A', est_run e evs = Some e' ∧ same_static e e' ∧ est_repr p e' A' ∧ length A' = length A ∧ I e' A'.
Proof.
  induction evs as [|ev evs IH]; intros e A turned H Hf Ht Hok HI Hstep.
  { exists e, A. by split_and!. }
  pose proof (lifetime_event p e A turned ev evs H Ht Hok) as Hev. apply lifetime_cons in Hok.
  destruct (est_do_refines p e A ev H Hf Hev) as (e1 & E1 & Hs1 & H1).
  destruct (IH e1 (abs_do e A ev) (turned_after turned ev)) as (e' & A' & E' & Hs' & H' & Hl' & HI').
  - done.
  - by eapply same_static_filter.
  - rewrite (same_static_global e e1) by done. intros Hg. by eapply turned_do; [..|apply Ht].
  - by rewrite abs_do_length, (same_static_global e e1).
  - apply Hstep; [by split_and!|done..|left|done|done|done].
  - intros e2 A2 ev2 e3 Hs2 H2 Hl2 Hf2 Hin. rewrite abs_do_length in Hl2.
    apply Hstep; [by eapply same_static_trans|done|done|done|by right].
  - exists e', A'. unfold est_run. cbn [for_each]. rewrite E1. cbn [mbind option_bind].
    rewrite abs_do_length in Hl'. split_and!; [exact E'|by eapply same_static_trans|done..].
Qed.

(** Invariants of the abstract states carry over to every run. *)
Lemma est_run_inv p evs (I : list bucket_state → Prop) e A :
  est_repr p e A → filter_total e → events_ok (length A) (is_global e) evs → I A →
  (∀ e1 A1 ev, same_static e e1 → est_repr p e1 A1 → length A1 = length A → ev ∈ evs →
     I A1 → I (abs_do e1 A1 ev)) →
  ∃ e' A', est_run e evs = Some e' ∧ same_static e e' ∧ est_repr p e' A' ∧ length A' = length A ∧ I A'.
Proof.
  intros H Hf Hok HI Hstep. apply (est_run_life p evs (λ _, I) e A ∅ H Hf); [|by apply events_lifetime|done|].
  - by intros _ i CP _ Hin%not_elem_of_empty.
  - intros e1 A1 ev e2 Hs1 H1 Hl1 _ Hin _ _. by apply Hstep.
Qed.

Lemma total_groups_update A i CP CP' : A !! i = Some CP → groups_count CP' <= groups_count CP →
  total_groups (<[i := CP']> A) <= total_groups A.
Proof. intros E Hle. unfold total_groups. rewrite (zsum_map_le groups_count A i CP) by done. lia. Qed.

Lemma abs_inserts_limit l ops : ∀ A, total_groups A <= l → total_groups (abs_inserts (Some l) A ops) <= l.
Proof.
  induction ops as [|o ops IH]; intros A HA; [done|]. unfold abs_inserts in *. cbn [foldl]. apply IH.
  unfold abs_insert. destruct (A !! _) as [CP|] eqn:E; [|done]. destruct (decide _) as [Hadm|]; [|done].
  unfold total_groups in *. rewrite (zsum_map_le groups_count A _ CP), groups_count_add by done.
  destruct Hadm as [Hk|Hlt]; [rewrite decide_True by done; lia|]. unfold total_groups in Hlt.
  destruct (decide _); lia.
Qed.

Lemma abs_do_limit e A ev : is_global e = false → 0 <= gs_limit (e_groupSize e) →
  total_groups A <= gs_limit (e_groupSize e) → total_groups (abs_do e A ev) <= gs_limit (e_groupSize e).
Proof.
  intros Hg Hl HA. destruct ev as [tss start|i|]; simpl; rewrite ?Hg.
  - unfold limit_of. unfold is_global in Hg. apply bool_decide_eq_false in Hg.
    assert (match e_groupBy e with [] => None | _ => Some (gs_limit (e_groupSize e)) end
              = Some (gs_limit (e_groupSize e))) as -> by by destruct (e_groupBy e).
    by apply abs_inserts_limit.
  - destruct (A !! i) as [CP|] eqn:E.
    + rewrite (alter_insert _ _ i CP) by done. etrans; [|exact HA].
      apply (total_groups_update A i CP); [done|apply groups_count_age].
    + by rewrite alter_none.
  - assert (total_groups (replicate (length A) (blank false)) = 0) as ->; [|done].
    unfold total_groups. transitivity (zsum (replicate (length A) 0)); [|apply zsum_replicate_0].
    f_equal. apply (fmap_replicate groups_count).
Qed.

(** C7: an estimator never panics and respects its limit.  From the creation
    for a prepared stream on, every sequence of batches, bucket rotations and
    resets runs without a panic, provided that a global estimator is reset only
    after each of its buckets has rotated at least once (before that a reset
    does panic); the id stays the stream's; and a group estimator never reports
    more groups than its limit, its shared size being the number of groups it
    holds. *)
Theorem estimator_lifetime cpus ch cfg e evs :
  config_wf cfg → newEstimator cpus ch cfg = Some (Ok e) →
  lifetime_ok (Z.to_nat (Buckets cfg)) (is_global e) ∅ evs →
  ∃ e' A', est_run e evs = Some e' ∧ est_repr (HLLPrecision cfg) e' A' ∧ e_id e' = config_id cfg ∧
    (is_global e = false →
     gs_size (e_groupSize e') = Z.of_nat (size (dom (window A'))) ∧
     Z.of_nat (size (dom (window A'))) <= GroupLimit cfg).
Proof.
  intros Hwf Hnew Hok. destruct (newEstimator_run cpus ch cfg Hwf) as (r & Enew & Hr).
  rewrite Hnew in Enew. injection Enew as <-. destruct Hr as (Hid & _ & Hlim & Hf & _ & H).
  pose proof (wf_limit cfg Hwf) as Hpos.
  destruct (est_run_life (HLLPrecision cfg) evs
    (λ _ A, is_global e = false → total_groups A <= GroupLimit cfg) e _ ∅ H Hf) as (e' & A' & E & Hs & H' & _ & HI).
  - by intros _ i CP _ Hin%not_elem_of_empty.
  - by rewrite length_replicate.
  - intros Hg. rewrite Hg. unfold init_state, total_groups.
    transitivity (zsum (replicate (Z.to_nat (Buckets cfg)) 0)); [|rewrite zsum_replicate_0; lia].
    apply Z.eq_le_incl. f_equal. apply (fmap_replicate groups_count).
  - intros e1 A1 ev e2 Hs1 _ _ _ _ _ _ HI Hg. pose proof Hs1 as (_ & _ & _ & _ & _ & _ & _ & Hl1). rewrite Hlim in Hl1.
    rewrite <- Hl1. apply abs_do_limit; [by rewrite (same_static_global e e1)|lia|]. rewrite Hl1. auto.
  - exists e', A'. split_and!; [done|done|by destruct Hs as [-> _]|]. intros Hg. specialize (HI Hg).
    assert (e_groupBy e' ≠ []) as Hne.
    { destruct Hs as (_ & _ & -> & _). by apply bool_decide_eq_false in Hg. }
    rewrite (total_groups_gs _ e' A' H' Hne).
    rewrite (total_groups_placed A' (er_placed _ e' A' H' Hne)) in HI |- *. done.
Qed.

(** ** Retention *)
Lemma hashes_add C key fp key' : hashes C key' ⊆ hashes (add_hash C key fp) key'.
Proof. rewrite add_hash_union, hashes_union. apply union_subseteq_r. Qed.

Lemma abs_inserts_keep limit ops b key : ∀ A (CP : bucket_state), A !! b = Some CP →
  ∃ CP' : bucket_state, abs_inserts limit A ops !! b = Some CP' ∧ hashes CP.1 key ⊆ hashes CP'.1 key ∧ CP'.2 = CP.2.
Proof.
  induction ops as [|o ops IH]; intros A CP E; [by exists CP|]. unfold abs_inserts in *. cbn [foldl].
  assert (∃ CP1 : bucket_state, abs_insert limit A o !! b = Some CP1 ∧ hashes CP.1 key ⊆ hashes CP1.1 key ∧ CP1.2 = CP.2)
    as (CP1 & E1 & Hs1 & Hp1).
  { unfold abs_insert. destruct (A !! bucket_index A (op_h o)) as [CP0|] eqn:E0; [|by exists CP].
    destruct (decide _); [|by exists CP]. destruct (decide (bucket_index A (op_h o) = b)) as [<-|Hne].
    - rewrite E in E0. injection E0 as <-.
      rewrite list_lookup_insert_eq by by eapply lookup_lt_Some. eexists. split_and!; [done| |done]. apply hashes_add.
    - rewrite list_lookup_insert_ne by done. by exists CP. }
  destruct (IH _ CP1 E1) as (CP' & E' & Hs' & Hp'). exists CP'. split_and!; [done|by etrans|congruence].
Qed.

(** No rotation of bucket [b] and no reset. *)
Definition quiet (b : nat) (evs : list est_event) : Prop :=
  Forall (λ ev, ev ≠ EvRotate b ∧ ev ≠ EvReset) evs.

Lemma quiet_keeps p e A b (CP : bucket_state) key x evs :
  est_repr p e A → filter_total e → events_ok (length A) (is_global e) evs → quiet b evs →
  A !! b = Some CP →
  ∃ e' A' (CP' : bucket_state), est_run e evs = Some e' ∧ same_static e e' ∧ est_repr p e' A' ∧ length A' = length A ∧
    A' !! b = Some CP' ∧ (x ∈ hashes CP.1 key → x ∈ hashes CP'.1 key) ∧
    (x ∈ hashes CP.2 key → x ∈ hashes CP'.2 key).
Proof.
  intros H Hf Hok Hq E.
  destruct (est_run_inv p evs (λ A, ∃ CP' : bucket_state, A !! b = Some CP' ∧ (x ∈ hashes CP.1 key → x ∈ hashes CP'.1 key) ∧
    (x ∈ hashes CP.2 key → x ∈ hashes CP'.2 key)) e A H Hf Hok) as (e' & A' & ? & ? & ? & ? & CP' & ? & ? & ?).
  - by exists CP.
  - intros e1 A1 ev _ _ _ Hin (CP1 & E1 & Hc & Hp). unfold quiet in Hq. rewrite Forall_forall in Hq.
    destruct (Hq ev Hin) as [Hr Hre]. destruct ev as [tss start|i|]; simpl; [..|done].
    + destruct (abs_inserts_keep (limit_of e1) (map fst (batch_ops e1 (rotated tss start))) b key A1 CP1 E1)
        as (CP' & E' & Hs' & Hp'). exists CP'. split_and!; [done|by auto|by rewrite Hp'].
    + exists CP1. split; [|done]. rewrite list_lookup_alter_ne by congruence. done.
  - by exists e', A', CP'.
Qed.

(** How long a hash is reported.  A hash in the current family of its
    bucket is still reported after any batches and any rotations of other
    buckets, and also after one rotation of its own bucket, before and after
    which anything but a reset may happen: it is lost only at the second
    rotation of its bucket. *)
Theorem hash_retained p e A b (CP : bucket_state) key x evs1 evs2 :
  est_repr p e A → filter_total e → A !! b = Some CP → x ∈ hashes CP.1 key →
  events_ok (length A) (is_global e) (evs1 ++ EvRotate b :: evs2) → quiet b evs1 → quiet b evs2 →
  ∃ e1 A1 e2 A2, est_run e evs1 = Some e1 ∧ est_repr p e1 A1 ∧ x ∈ hashes (window A1) key ∧
    est_run e (evs1 ++ EvRotate b :: evs2) = Some e2 ∧ est_repr p e2 A2 ∧ x ∈ hashes (window A2) key.
Proof.
  intros H Hf E Hx Hok Hq1 Hq2. apply Forall_app in Hok as [Hok1 Hok2].
  apply Forall_cons in Hok2 as [Hb Hok2].
  destruct (quiet_keeps p e A b CP key x evs1 H Hf Hok1 Hq1 E)
    as (e1 & A1 & CP1 & R1 & Hs1 & H1 & Hl1 & E1 & Hc1 & _).
  destruct (rotate_refines p e1 A1 b H1) as (er & Rr & Hsr & Hr); [lia|].
  assert (alter (age (is_global e1)) b A1 !! b = Some (age (is_global e1) CP1)) as Er
    by (rewrite list_lookup_alter_eq, E1; done).
  pose proof (same_static_trans _ _ _ Hs1 Hsr) as Hs.
  assert (events_ok (length (alter (age (is_global e1)) b A1)) (is_global er) evs2) as Hokr
    by (rewrite length_alter, Hl1, (same_static_global e er); done).
  destruct (quiet_keeps p er _ b _ key x evs2 Hr (same_static_filter _ _ Hs Hf) Hokr Hq2 Er)
    as (e2 & A2 & CP2 & R2 & _ & H2 & _ & E2 & _ & Hp2).
  exists e1, A1, e2, A2. split_and!; [done|done| | |done|].
  - apply elem_of_window. exists b, CP1. auto.
  - unfold est_run in *. rewrite for_each_app, R1. cbn [mbind option_bind for_each est_do]. rewrite Rr. exact R2.
  - apply elem_of_window. exists b, CP2. split; [done|]. right. apply Hp2, hashes_age. auto.
Qed.

End Life.
