(* ===== verification/EstimatorSnapshot.v ===== *)
(** * EstimatorSnapshot: what an estimator hands out

    [toSnapshot] is shown to emit, in batches with recycled sketches, exactly
    the estimator's window; collected by an aggregator (Snapshot.v) the
    emitted snapshots stand for that window again. *)
From Stdlib Require Import Ascii String.
From S2P Require Import Prelude GoText Types Config SketchSpec GroupSize Snapshot Estimator EstimatorInsert.
From S2P Require Import EstimatorWindow.
Local Open Scope Z_scope.

Section Emit.
Context `{Spec : SketchSpec} `{Ord : IterOrder, !IterOrderOk Ord} `{Xx : Xxhash, !XxhashOk Xx} `{Ql : MetricsQL}.

(** The callback of the encoder and of the churn calculation: keep each
    snapshot, never fail. *)
Definition collect (out : list snapshot) (s : snapshot) : option (list snapshot * bool) :=
  Some (out ++ [s], true).

(** ** One key *)
Lemma must_merge_ok p X Y res other : represents p X res →
  (match other with None => Y = ∅ | Some sk => represents p Y sk end) →
  ∃ res', must_merge res other = Some res' ∧ represents p (Y ∪ X) res'.
Proof.
  intros HX HY. unfold must_merge. destruct other as [sk|].
  - destruct (Merge_ok p X Y res sk HX HY) as (res' & -> & H). simpl. eauto.
  - rewrite Merge_nil. simpl. exists res. subst. by rewrite union_empty_l_L.
Qed.

Lemma mergeSketches_ok p X Y W res cur prev : represents p X res →
  (match cur with None => Y = ∅ | Some sk => represents p Y sk end) →
  (match prev with None => W = ∅ | Some sk => represents p W sk end) →
  ∃ res', mergeSketches cur prev res = Some res' ∧ represents p (W ∪ (Y ∪ X)) res'.
Proof.
  intros HX HY HW. unfold mergeSketches.
  destruct (must_merge_ok p X Y res cur HX HY) as (res1 & -> & H1). simpl. destruct prev as [sk|].
  - by apply must_merge_ok.
  - exists res1. subst. by rewrite union_empty_l_L.
Qed.

Lemma group_repr_hashes p C (m : gmap Z groupSketch) key : groups_repr p C (gsk_ssk <$> m) →
  match gsk_Sketch <$> m !! key with
  | None => hashes C key = ∅
  | Some sk => represents p (hashes C key) sk
  end.
Proof.
  intros H. unfold hashes. destruct (m !! key) as [g|] eqn:E; simpl.
  - destruct (groups_repr_Some p C (gsk_ssk <$> m) key (gsk_ssk g) H) as (X & -> & HX);
      [by rewrite gsk_lookup, E|done].
  - rewrite (groups_repr_None p C (gsk_ssk <$> m) key H); [done|by rewrite gsk_lookup, E].
Qed.

Definition family_of (CP : bucket_state) : gmap Z (gset Z) := groups_union CP.1 CP.2.

Lemma family_of_lookup CP key : key ∈ known_keys CP →
  family_of CP !! key = Some (hashes CP.2 key ∪ hashes CP.1 key).
Proof.
  unfold known_keys, family_of, hashes. rewrite elem_of_union, !elem_of_dom, groups_union_lookup.
  destruct (CP.1 !! key), (CP.2 !! key); simpl; intros [[? ?]|[? ?]]; try done; f_equal;
    by rewrite ?union_empty_l_L, ?union_empty_r_L.
Qed.

Lemma visited_snoc dn W key X : W !! key = Some X → visited (dn ++ [key]) W = <[key := X]> (visited dn W).
Proof.
  intros E. apply map_eq. intros k. rewrite visited_lookup. destruct (decide (key = k)) as [<-|Hne].
  - rewrite lookup_insert_eq, decide_True; [done|]. apply elem_of_app. right. by left.
  - rewrite lookup_insert_ne, visited_lookup by done. destruct (decide (k ∈ dn)) as [H|H].
    + rewrite decide_True; [done|]. apply elem_of_app. by left.
    + rewrite decide_False; [done|]. intros [?|?%list_elem_of_singleton]%elem_of_app; [done|congruence].
Qed.

Lemma snapshot_key_ok p g i eb CP skp m F key : g ≠ [] → bucket_repr p g i eb CP → skpool_ok p skp →
  groups_repr p F m → key ∈ known_keys CP →
  ∃ skp' ssk, snapshot_key eb (skp, m) key = Some (skp', <[key := ssk]> m) ∧ skpool_ok p skp' ∧
    groups_repr p (<[key := hashes CP.2 key ∪ hashes CP.1 key]> F) (<[key := ssk]> m).
Proof.
  intros Hg Hbr Hpool HF Hk. pose proof (bucket_known p g i eb CP key Hg Hbr) as [Hd1 Hd2].
  destruct Hbr as [_ _ _ Hst]. destruct g as [|g0 g']; [done|]. destruct Hst as [H1 H2].
  pose proof (group_repr_hashes p _ _ key H1) as Hc. pose proof (group_repr_hashes p _ _ key H2) as Hp.
  unfold snapshot_key.
  assert (∃ sk0 vals, match eb_groups eb !! key, eb_prevGroups eb !! key with
            | Some g, _ | None, Some g =>
                '(skp, res) ← getForMerge skp (gsk_Sketch g); Some (skp, res, gsk_values g)
            | None, None => None
            end = '(skp, res) ← getForMerge skp sk0; Some (skp, res, vals)) as (sk0 & vals & ->).
  { destruct (eb_groups eb !! key); [eauto|]. destruct (eb_prevGroups eb !! key); [eauto|].
    exfalso. unfold known_keys in Hk. apply elem_of_union in Hk as [Hk|Hk]; tauto. }
  destruct (getForMerge_ok p skp sk0 Hpool) as (skp' & res & -> & Hpool' & Hres). cbn [mbind option_bind].
  destruct (mergeSketches_ok p ∅ (hashes CP.1 key) (hashes CP.2 key) res
    (gsk_Sketch <$> eb_groups eb !! key) (gsk_Sketch <$> eb_prevGroups eb !! key) Hres Hc Hp) as (res' & -> & Hr).
  cbn [mbind option_bind]. do 2 eexists. split_and!; [done|done|]. apply groups_repr_insert; [done|].
  by rewrite union_empty_r_L in Hr.
Qed.

(** ** Batches *)
Lemma recycle_ok p F skp m : skpool_ok p skp → groups_repr p F m → skpool_ok p (recycle skp m).
Proof.
  intros Hpool HF. unfold recycle. revert skp Hpool.
  induction (iter_keys (dom m)) as [|k l IH]; intros skp Hpool; [done|]. cbn [foldl]. apply IH.
  destruct (m !! k) as [ssk|] eqn:E; [|done].
  destruct (groups_repr_Some p F m k ssk HF E) as (X & _ & HX). by eapply pool_put_ok.
Qed.

(** The snapshots emitted so far stand for [F], carry the id of [meta] and no
    reject count. *)
Record emitted (p : Z) (meta : snapshot) (out : list snapshot) (F : gmap Z (gset Z)) : Prop := {
  em_families : ∃ Xs, Forall2 (λ X s, groups_repr p X (s_Sketches s)) Xs out ∧ union_all Xs = F;
  em_meta : Forall (λ s, s = set_Sketches meta (s_Sketches s)) out
}.

Lemma emitted_snoc p meta out F X m : emitted p meta out F → groups_repr p X m →
  emitted p meta (out ++ [set_Sketches meta m]) (groups_union F X).
Proof.
  intros [(Xs & HXs & <-) Hm] HX. split.
  - exists (Xs ++ [X]). split; [apply Forall2_app; [done|by constructor]|].
    rewrite union_all_app. simpl. by rewrite groups_union_empty_r.
  - apply Forall_app. split; [done|]. by constructor.
Qed.

Lemma snapshot_batch_ok p g i eb CP meta out skp F batch : g ≠ [] → bucket_repr p g i eb CP →
  skpool_ok p skp → emitted p meta out F → (∀ k, k ∈ batch → k ∈ known_keys CP) →
  ∃ out' skp', snapshot_batch collect meta eb (out, skp, true) batch = Some (out', skp', true) ∧
    skpool_ok p skp' ∧ emitted p meta out' (groups_union F (visited batch (family_of CP))).
Proof.
  intros Hg Hbr Hpool Hem Hk. unfold snapshot_batch. cbn [negb].
  destruct (for_each_inv (snapshot_key eb) (λ dn '(skp, m), skpool_ok p skp ∧
     groups_repr p (visited dn (family_of CP)) m) batch (skp, ∅)) as ([skp' m] & -> & Hpool' & Hm).
  - split; [done|]. intros k. by rewrite visited_lookup, decide_False, lookup_empty by apply not_elem_of_nil.
  - intros dn key [skp1 m1] [Hpool1 Hm1] Hin.
    destruct (snapshot_key_ok p g i eb CP skp1 m1 _ key Hg Hbr Hpool1 Hm1 (Hk key Hin)) as (skp2 & ssk & E & Hp2 & Hm2).
    eexists. split; [exact E|]. split; [done|].
    by rewrite (visited_snoc dn (family_of CP) key _ (family_of_lookup CP key (Hk key Hin))).
  - cbn [mbind option_bind collect]. do 2 eexists. split; [done|]. split; [by eapply recycle_ok|].
    by apply emitted_snoc.
Qed.

Lemma chunks_join {A} fuel n (l : list A) : (0 < n)%nat → (length l <= fuel)%nat → mjoin (chunks fuel n l) = l.
Proof.
  revert l. induction fuel as [|fuel IH]; intros l Hn Hl.
  { destruct l; [done|simpl in Hl; lia]. }
  destruct l as [|a l]; [done|]. cbn [chunks mjoin list_join]. rewrite IH.
  - apply (take_drop n (a :: l)).
  - done.
  - rewrite length_drop. simpl in *. lia.
Qed.

Lemma visited_app dn1 dn2 W : visited (dn1 ++ dn2) W = groups_union (visited dn1 W) (visited dn2 W).
Proof.
  apply map_eq. intros k. rewrite groups_union_lookup, !visited_lookup.
  destruct (decide (k ∈ dn1)) as [H1|H1], (decide (k ∈ dn2)) as [H2|H2].
  - rewrite decide_True by (apply elem_of_app; auto). destruct (W !! k); [|done]. by rewrite union_idemp_L.
  - rewrite decide_True by (apply elem_of_app; auto). by destruct (W !! k).
  - rewrite decide_True by (apply elem_of_app; auto). done.
  - rewrite decide_False; [done|]. intros [?|?]%elem_of_app; done.
Qed.

Lemma snapshot_batches_ok p g i eb CP meta batches : g ≠ [] → bucket_repr p g i eb CP →
  (∀ k, k ∈ mjoin batches → k ∈ known_keys CP) → ∀ out skp F, skpool_ok p skp → emitted p meta out F →
  ∃ out' skp', for_each (snapshot_batch collect meta eb) batches (out, skp, true) = Some (out', skp', true) ∧
    skpool_ok p skp' ∧ emitted p meta out' (groups_union F (visited (mjoin batches) (family_of CP))).
Proof.
  intros Hg Hbr. induction batches as [|b batches IH]; intros Hk out skp F Hpool Hem.
  { exists out, skp. split_and!; [done|done|]. assert (visited (mjoin []) (family_of CP) = ∅) as ->.
    { apply map_eq. intros k. by rewrite visited_lookup, decide_False, lookup_empty by apply not_elem_of_nil. }
    by rewrite groups_union_empty_r. }
  cbn [mjoin list_join] in Hk |- *.
  destruct (snapshot_batch_ok p g i eb CP meta out skp F b Hg Hbr Hpool Hem) as (out1 & skp1 & E1 & Hp1 & Hem1).
  { intros k Hin. apply Hk, elem_of_app. by left. }
  cbn [for_each]. rewrite E1. cbn [mbind option_bind].
  destruct (IH (λ k Hin, Hk k (proj2 (elem_of_app _ _ _) (or_intror Hin))) out1 skp1 _ Hp1 Hem1) as (out2 & skp2 & E2 & Hp2 & Hem2).
  exists out2, skp2. split_and!; [done|done|]. rewrite visited_app, groups_union_assoc. exact Hem2.
Qed.

Lemma bucket_keys_known p g i eb CP key : g ≠ [] → bucket_repr p g i eb CP →
  key ∈ bucket_keys eb ↔ key ∈ known_keys CP.
Proof.
  intros Hg Hbr. pose proof (bucket_known p g i eb CP key Hg Hbr) as [Hd1 Hd2].
  unfold bucket_keys, known_keys.
  rewrite elem_of_app, list_elem_of_filter, !iter_keys_elem, elem_of_union.
  rewrite <- !not_elem_of_dom in Hd1, Hd2.
  destruct (decide (key ∈ dom (eb_groups eb))), (decide (key ∈ dom (eb_prevGroups eb))),
    (decide (key ∈ dom CP.1)), (decide (key ∈ dom CP.2)); tauto.
Qed.

Lemma snapshot_bucket_ok p g i eb CP meta out skp F : g ≠ [] → bucket_repr p g i eb CP →
  skpool_ok p skp → emitted p meta out F →
  ∃ out' skp', snapshot_bucket collect meta (out, skp, true) eb = Some (out', skp', true) ∧
    skpool_ok p skp' ∧ emitted p meta out' (groups_union F (family_of CP)).
Proof.
  intros Hg Hbr Hpool Hem. unfold snapshot_bucket. set (keys := bucket_keys eb).
  assert (mjoin (chunks (length keys) (Z.to_nat batchSize) keys) = keys) as Hj
    by (apply chunks_join; [unfold batchSize; lia|done]).
  destruct (snapshot_batches_ok p g i eb CP meta (chunks (length keys) (Z.to_nat batchSize) keys) Hg Hbr)
    with (out := out) (skp := skp) (F := F) as (out' & skp' & E & Hp & He); [|done|done|].
  - intros k. rewrite Hj. by apply (bucket_keys_known p g i).
  - exists out', skp'. split_and!; [done|done|]. rewrite Hj in He.
    assert (visited keys (family_of CP) = family_of CP) as <-; [|done].
    apply map_eq. intros k. rewrite visited_lookup. destruct (decide (k ∈ keys)) as [|Hk]; [done|].
    symmetry. apply not_elem_of_dom. unfold family_of. rewrite dom_groups_union.
    intros Hin. by apply Hk, (bucket_keys_known p g i eb CP).
Qed.

(** ** All buckets *)
Lemma union_all_families A : union_all (map family_of A) = window A.
Proof.
  unfold window, cur_family, prev_family. induction A as [|CP A IH]; simpl.
  - by rewrite groups_union_empty.
  - rewrite IH. unfold family_of. rewrite !groups_union_assoc. f_equal.
    by rewrite <- !groups_union_assoc, (groups_union_comm CP.2).
Qed.

Lemma snapshot_buckets_ok p e A meta skp : e_groupBy e ≠ [] → est_repr p e A → skpool_ok p skp →
  ∃ out skp', for_each (snapshot_bucket collect meta) (e_buckets e) ([], skp, true) = Some (out, skp', true) ∧
    emitted p meta out (window A).
Proof.
  intros Hg H Hpool. rewrite <- union_all_families.
  assert (∀ todo TA dn out skp F, e_buckets e = dn ++ todo → length dn + length TA = length A →
    length todo = length TA →
    (∀ i eb CP, todo !! i = Some eb → TA !! i = Some CP → ∃ j, bucket_repr p (e_groupBy e) j eb CP) →
    skpool_ok p skp → emitted p meta out F →
    ∃ out' skp', for_each (snapshot_bucket collect meta) todo (out, skp, true) = Some (out', skp', true) ∧
      emitted p meta out' (groups_union F (union_all (map family_of TA))))%nat as Hloop.
  { induction todo as [|eb todo IH]; intros [|CP TA] dn out skp1 F Ed Hl Hlt Hb Hp1 He1; try done.
    - do 2 eexists. split; [done|]. simpl. by rewrite groups_union_empty_r.
    - destruct (Hb 0%nat eb CP eq_refl eq_refl) as [j Hbr].
      destruct (snapshot_bucket_ok p _ j eb CP meta out skp1 F Hg Hbr Hp1 He1) as (out2 & skp2 & E2 & Hp2 & He2).
      cbn [for_each]. rewrite E2. cbn [mbind option_bind].
      destruct (IH TA (dn ++ [eb]) out2 skp2 (groups_union F (family_of CP))) as (out3 & skp3 & E3 & He3).
      + by rewrite <- app_assoc.
      + rewrite length_app. simpl in *. lia.
      + simpl in Hlt. lia.
      + intros i eb' CP' E1 E1'. by apply (Hb (S i)).
      + done.
      + done.
      + exists out3, skp3. split; [done|]. simpl. by rewrite groups_union_assoc. }
  destruct (Hloop (e_buckets e) A [] [] skp ∅) as (out & skp' & E & He); try done.
  - apply (er_len p e A H).
  - intros i eb CP E1 E2. exists i. by eapply er_buckets.
  - split; [by exists []|by constructor].
  - exists out, skp'. split; [done|]. by rewrite groups_union_empty in He.
Qed.

(** ** The global sketch *)
Lemma merge_buckets_ok p e A res : e_groupBy e = [] → est_repr p e A → represents p ∅ res →
  ∃ res', for_each (λ res eb, mergeSketches (eb_sketch eb) (eb_prevSketch eb) res) (e_buckets e) res = Some res' ∧
    represents p (hashes (window A) 0) res'.
Proof.
  intros Hg H Hres. rewrite <- union_all_families.
  assert (∀ todo TA res X, length todo = length TA →
    (∀ i eb CP, todo !! i = Some eb → TA !! i = Some CP → ∃ j, bucket_repr p [] j eb CP) →
    represents p X res →
    ∃ res', for_each (λ res eb, mergeSketches (eb_sketch eb) (eb_prevSketch eb) res) todo res = Some res' ∧
      represents p (hashes (union_all (map family_of TA)) 0 ∪ X) res') as Hloop.
  { induction todo as [|eb todo IH]; intros [|CP TA] res1 X Hl Hb HX; try done.
    - exists res1. split; [done|]. unfold hashes. simpl. rewrite lookup_empty. simpl. by rewrite union_empty_l_L.
    - destruct (Hb 0%nat eb CP eq_refl eq_refl) as (j & [_ _ _ [(sk & Y & Esk & HY & EC) HP]]).
      destruct (mergeSketches_ok p X (hashes CP.1 0) (hashes CP.2 0) res1 (eb_sketch eb) (eb_prevSketch eb))
        as (res2 & E2 & H2).
      + done.
      + rewrite Esk, EC. unfold hashes. by rewrite lookup_singleton_eq.
      + unfold prev_repr in HP. destruct (eb_prevSketch eb) as [pv|].
        * destruct HP as (W & HW & ->). unfold hashes. by rewrite lookup_singleton_eq.
        * rewrite HP. unfold hashes. by rewrite lookup_empty.
      + cbn [for_each]. rewrite E2. cbn [mbind option_bind].
        destruct (IH TA res2 _ ltac:(simpl in Hl; lia) (λ i, Hb (S i)) H2) as (res3 & E3 & H3).
        exists res3. split; [done|]. simpl. rewrite hashes_union. unfold family_of. rewrite hashes_union.
        replace (hashes CP.1 0 ∪ hashes CP.2 0 ∪ hashes (union_all (map family_of TA)) 0 ∪ X)
          with (hashes (union_all (map family_of TA)) 0 ∪ (hashes CP.2 0 ∪ (hashes CP.1 0 ∪ X))); [done|].
        apply set_eq. intros x. rewrite !elem_of_union. tauto. }
  destruct (Hloop (e_buckets e) A res ∅ (er_len p e A H)) as (res' & E & Hr).
  - intros i eb CP E1 E2. exists i. rewrite <- Hg. by eapply er_buckets.
  - done.
  - exists res'. split; [done|]. by rewrite union_empty_r_L in Hr.
Qed.

Lemma window_global p e A : e_groupBy e = [] → est_repr p e A → window A = {[ 0 := hashes (window A) 0 ]}.
Proof.
  intros Hg H.
  assert (dom (window A) = {[ 0 ]}) as Hdom.
  { rewrite dom_window. apply set_eq. intros k. rewrite elem_of_all_keys, elem_of_singleton. split.
    - intros (i & CP & E & Hk). destruct (er_lookup p e A i H) as (eb & CP' & Eb & EA & Hbr); [by eapply lookup_lt_Some|].
      assert (CP' = CP) as -> by congruence. destruct Hbr as [_ _ _ Hst]. rewrite Hg in Hst.
      destruct Hst as [(sk & X & _ & _ & EC) HP]. unfold known_keys in Hk. rewrite EC, dom_singleton_L in Hk.
      apply elem_of_union in Hk as [Hk|Hk]; [by apply elem_of_singleton in Hk|]. unfold prev_repr in HP.
      destruct (eb_prevSketch eb).
      + destruct HP as (Y & _ & EP). rewrite EP, dom_singleton_L in Hk. by apply elem_of_singleton in Hk.
      + rewrite HP, dom_empty_L in Hk. by apply elem_of_empty in Hk.
    - intros ->. destruct (er_lookup p e A 0 H (er_nonempty p e A H)) as (eb & CP & Eb & EA & Hbr).
      exists 0%nat, CP. split; [done|]. destruct Hbr as [_ _ _ Hst]. rewrite Hg in Hst.
      destruct Hst as [(sk & X & _ & _ & EC) _]. unfold known_keys. rewrite EC, dom_singleton_L.
      apply elem_of_union. left. by apply elem_of_singleton. }
  apply map_eq. intros k. destruct (decide (k = 0)) as [->|Hk].
  - rewrite lookup_singleton_eq. unfold hashes. assert (0 ∈ dom (window A)) as [X E]%elem_of_dom.
    + rewrite Hdom. by apply elem_of_singleton.
    + by rewrite E.
  - rewrite lookup_singleton_ne by done. apply not_elem_of_dom. rewrite Hdom. by rewrite elem_of_singleton.
Qed.

(** ** Reject counts *)
Lemma sum_rejected_ok sks sum : Forall (λ slot, ∃ X, reject_repr X slot) sks →
  ∃ sks' n, sum_rejected sks sum = Some (sks', n) ∧ length sks' = length sks ∧
    Forall (λ slot, ∃ X, reject_repr X slot) sks'.
Proof.
  intros H. revert sum. induction H as [|slot sks [X HX] _ IH]; intros sum; [by exists [], sum|].
  destruct slot as [sk|]; simpl in *.
  - destruct (Estimate_ok 10 X sk HX) as (sk' & n & -> & HX' & _). cbn [mbind option_bind].
    destruct (IH (sum +[64] n)) as (sks' & n' & -> & Hl & Hf). cbn [mbind option_bind].
    do 2 eexists. split_and!; [done|simpl; lia|]. constructor; [by exists X|done].
  - destruct (IH sum) as (sks' & n' & -> & Hl & Hf). cbn [mbind option_bind].
    do 2 eexists. split_and!; [done|simpl; lia|]. constructor; [by exists X|done].
Qed.

Lemma totalRejected_ok gs : gs_ok gs →
  ∃ gs' n, totalRejected gs = Some (gs', n) ∧ gs_ok gs' ∧ gs_limit gs' = gs_limit gs ∧
    gs_bucketSizes gs' = gs_bucketSizes gs.
Proof.
  intros [H1 H2 H3 H4]. unfold totalRejected. destruct (sum_rejected_ok _ 0 H4) as (sks & n & -> & Hl & Hf).
  cbn [mbind option_bind]. do 2 eexists. split_and!; [done| |done|done]. split; simpl; (done || congruence).
Qed.

(** The run of [toSnapshot], shared by the theorems about it. *)
Lemma toSnapshot_run p e A : est_repr p e A →
  ∃ out fin e', toSnapshot collect e [] = Some (out ++ [fin], true, e') ∧
    est_repr p e' A ∧ same_static e e' ∧
    (∃ Xs, Forall2 (λ X s, groups_repr p X (s_Sketches s)) Xs (out ++ [fin]) ∧ union_all Xs = window A) ∧
    Forall (λ s, s_ID s = e_id e) (out ++ [fin]) ∧ Forall (λ s, s_GroupRejectSize s = 0) out.
Proof.
  intros H. destruct (er_lookup p e A 0 H (er_nonempty p e A H)) as (eb0 & CP0 & Eb0 & EA0 & Hbr0).
  unfold toSnapshot. rewrite Eb0. cbn [mbind option_bind]. pose proof (br_precision _ _ _ _ _ Hbr0) as Hpr.
  destruct (decide (e_groupBy e = [])) as [Hg|Hg].
  - rewrite Hg. unfold bucket_newSketch. rewrite Hpr.
    destruct (mustNewSketch_ok p (eb_sparse eb0) (er_precision p e A H)) as (res & -> & Hres).
    cbn [mbind option_bind]. destruct (merge_buckets_ok p e A res Hg H Hres) as (res' & -> & Hr).
    cbn [mbind option_bind collect]. exists []. do 2 eexists. split; [done|]. split_and!; [done| |..].
    + by split_and!.
    + exists [window A]. split; [|simpl; by rewrite groups_union_empty_r].
      constructor; [|constructor]. simpl. rewrite (window_global p e A Hg H).
      intros k. destruct (decide (0 = k)) as [<-|]; [by rewrite !lookup_singleton_eq|by rewrite !lookup_singleton_ne].
    + by constructor.
    + constructor.
  - destruct (newSketchesPool_ok p (Z.min batchSize (default 0 (avgBucketSize (e_groupSize e))))
      (er_precision p e A H)) as (skp & Epool & Hpool).
    assert (is_Some (avgBucketSize (e_groupSize e))) as [avg Eavg].
    { unfold avgBucketSize. pose proof (er_gs_len p e A H) as Hl. pose proof (er_nonempty p e A H).
      destruct (gs_bucketSizes (e_groupSize e)); [simpl in Hl; lia|eauto]. }
    rewrite Eavg in Epool. simpl in Epool. set (meta := meta_snapshot e eb0 (gs_limit (e_groupSize e))).
    destruct (snapshot_buckets_ok p e A meta skp Hg H Hpool) as (out & skp' & Eout & [(Xs & HXs & HU) Hm]).
    destruct (totalRejected_ok (e_groupSize e) (er_gs p e A H)) as (gs' & n & Er & Hgs' & Hlim & Hsz).
    destruct (e_groupBy e) eqn:Egb; [done|]. fold meta. rewrite Eavg. cbn [mbind option_bind].
    rewrite Hpr, Epool. cbn [mbind option_bind]. rewrite Eout. cbn [mbind option_bind negb].
    rewrite Er. cbn [mbind option_bind collect]. do 3 eexists. split; [done|]. split_and!.
    + destruct H. split; simpl; rewrite ?Hsz; done.
    + by split_and!.
    + exists (Xs ++ [∅]). split; [apply Forall2_app; [done|]|].
      * constructor; [apply groups_repr_empty|constructor].
      * rewrite union_all_app, HU. simpl. by rewrite !groups_union_empty_r.
    + apply Forall_app. split; [|by constructor]. eapply Forall_impl; [exact Hm|]. intros s' Es. by rewrite Es.
    + eapply Forall_impl; [exact Hm|]. intros s' Es. by rewrite Es.
Qed.


(** ** A cluster *)
Lemma family_app id l1 l2 : family id (l1 ++ l2) = groups_union (family id l1) (family id l2).
Proof.
  induction l1 as [|[s X] l1 IH]; simpl; [by rewrite groups_union_empty|].
  rewrite IH. destruct (decide _); [apply groups_union_assoc|done].
Qed.

Lemma family_zip p id out Xs : id ≠ EmptyString → Forall2 (λ X s, groups_repr p X (s_Sketches s)) Xs out →
  Forall (λ s, s_ID s = id) out →
  family id (zip out Xs) = union_all Xs ∧ received_ok p (zip out Xs) ∧ map fst (zip out Xs) = out.
Proof.
  intros Hid H. induction H as [|X s Xs out HX H IH]; intros Hf; [by split_and!; [done|constructor|done]|].
  apply Forall_cons in Hf as [Es Hf]. destruct (IH Hf) as (E1 & E2 & E3). simpl.
  assert (snapshot_id s = id) as Esid by (unfold snapshot_id; rewrite decide_False by congruence; done).
  rewrite decide_True, E1, E3 by done. split_and!; [done| |done]. by constructor.
Qed.

Definition node_ok (p : Z) (id : string) (node : estimator * list bucket_state) : Prop :=
  est_repr p node.1 node.2 ∧ e_id node.1 = id.

(** The run of a cluster, shared by the theorems about it. *)
Lemma cluster_run p id nodes :
  id ≠ EmptyString → nodes ≠ [] → Forall (node_ok p id) nodes →
  ∃ outs, Forall2 (λ node out, ∃ e', toSnapshot collect node.1 [] = Some (out, true, e')) nodes outs ∧
    ∀ arrival, arrival ≡ₚ mjoin outs →
      ∃ ss s, for_each snapshots_add arrival ∅ = Some ss ∧ ss !! id = Some s ∧
        groups_repr p (union_all (map (λ node, window node.2) nodes)) (s_Sketches s).
Proof.
  intros Hid Hne Hnodes.
  assert (∃ outs l, Forall2 (λ node out, ∃ e', toSnapshot collect node.1 [] = Some (out, true, e')) nodes outs ∧
    map fst l = mjoin outs ∧ received_ok p l ∧ family id l = union_all (map (λ node, window node.2) nodes) ∧
    (nodes ≠ [] → l ≠ []) ∧ Forall (λ sX, snapshot_id sX.1 = id) l) as (outs & l & Houts & El & Hl & Hfam & Hln & Hids).
  { clear Hne. induction Hnodes as [|[e A] nodes [H Eid] _ IH].
    { exists [], []. split_and!; [constructor|done|constructor|done|done|constructor]. }
    destruct IH as (outs & l & Houts & El & Hl & Hfam & _ & Hids). simpl in *.
    destruct (toSnapshot_run p e A H) as (out & fin & e' & E & _ & _ & (Xs & HXs & HU) & Hout & _).
    rewrite Eid in Hout. destruct (family_zip p id _ Xs Hid HXs Hout) as (E1 & E2 & E3).
    exists ((out ++ [fin]) :: outs), (zip (out ++ [fin]) Xs ++ l). split_and!.
    - constructor; [by exists e'|done].
    - rewrite map_app, E3, El. done.
    - by apply Forall_app.
    - simpl. by rewrite family_app, E1, HU, Hfam.
    - intros _ Hnil. apply app_eq_nil in Hnil as [Hnil _]. rewrite Hnil in E3. by destruct out.
    - apply Forall_app. split; [|done]. rewrite <- E3 in Hout. apply Forall_map in Hout.
      eapply Forall_impl; [exact Hout|]. intros sX Es. simpl in Es. unfold snapshot_id.
      by rewrite decide_False by congruence. }
  exists outs. split; [done|]. intros arrival Hp. rewrite <- El in Hp.
  apply Permutation_map_inv in Hp as (l' & -> & Hp).
  destruct (snapshots_add_run p l l' Hl) as (ss & E & Hc); [by symmetry|].
  specialize (Hc id). destruct (ss !! id) as [s|] eqn:Es.
  - exists ss, s. split_and!; [done|done|]. rewrite <- Hfam. apply Hc.
  - destruct Hc. specialize (Hln Hne). destruct l as [|sX l]; [done|].
    apply Forall_cons in Hids as [Esx _]. rewrite <- Esx. left.
Qed.

(** C14: a cluster reports what one node would.  The snapshots of any number
    of nodes running the same stream (same id and precision) are collected
    without a panic, in whatever order they arrive; the aggregated snapshot
    stands, group by group, for the union of the nodes' windows, so splitting
    the series over the nodes does not change what is reported. *)
Theorem cluster_aggregation p id nodes :
  id ≠ EmptyString → nodes ≠ [] → Forall (node_ok p id) nodes →
  ∃ outs, Forall2 (λ node out, ∃ e', toSnapshot collect node.1 [] = Some (out, true, e')) nodes outs ∧
    ∀ arrival, arrival ≡ₚ mjoin outs →
      ∃ ss s, for_each snapshots_add arrival ∅ = Some ss ∧ ss !! id = Some s ∧
        groups_repr p (union_all (map (λ node, window node.2) nodes)) (s_Sketches s).
Proof. apply cluster_run. Qed.
End Emit.
