(* ===== verification/EstimatorTyped.v ===== *)
(** * EstimatorTyped: the shape of an estimator's data

    What the metrics of an estimator are built from: every bucket carries the
    stream's configuration and every group one value per group-by key.  The
    operations keep it, and the snapshots [toSnapshot] emits have it.  Also,
    [toSnapshot] with any callback is the fold of that callback over the
    snapshots emitted. *)
From Stdlib Require Import Ascii String.
From S2P Require Import Prelude GoText Types Config SketchSpec GroupSize Snapshot Estimator EstimatorInsert.
From S2P Require Import EstimatorWindow EstimatorLife EstimatorSnapshot.
Local Open Scope Z_scope.

Section Typed.
Context `{Spec : SketchSpec} `{Ord : IterOrder, !IterOrderOk Ord} `{Xx : Xxhash, !XxhashOk Xx} `{Ql : MetricsQL}.

Definition groups_typed (g : list string) (m : gmap Z groupSketch) : Prop :=
  map_Forall (λ _ gsk, length (gsk_values gsk) = length g) m.

Record bucket_typed (cfg : EstimatorConfig) (eb : estimatorBucket) : Prop := {
  bt_groupBy : eb_groupBy eb = GroupBy cfg;
  bt_interval : eb_interval eb = Interval cfg;
  bt_churn : eb_calculateChurn eb = CalculateChurn cfg;
  bt_filter : eb_filter eb = Filter cfg;
  bt_labels : eb_labels eb = ec_Labels cfg;
  bt_groups : groups_typed (GroupBy cfg) (eb_groups eb);
  bt_prevGroups : groups_typed (GroupBy cfg) (eb_prevGroups eb)
}.

Record est_typed (e : estimator) : Prop := {
  et_groupBy : e_groupBy e = GroupBy (e_cfg e);
  et_keyword : e_hasLabelKeyword e = has_label_keyword (e_groupBy e);
  et_minCardinality : e_minCardinality e = MinCardinality (e_cfg e);
  et_buckets : Forall (bucket_typed (e_cfg e)) (e_buckets e)
}.

(** ** Buckets *)
Lemma groups_typed_insert g m k gsk : groups_typed g m → length (gsk_values gsk) = length g →
  groups_typed g (<[k := gsk]> m).
Proof. intros Hm Hg. by apply map_Forall_insert_2. Qed.

Lemma groups_typed_empty g : groups_typed g ∅.
Proof. apply map_Forall_empty. Qed.

Lemma bucket_typed_groups cfg eb sk prev groups prevGroups : bucket_typed cfg eb →
  groups_typed (GroupBy cfg) groups → groups_typed (GroupBy cfg) prevGroups →
  bucket_typed cfg (set_bucket eb sk prev groups prevGroups).
Proof. intros [? ? ? ? ? _ _] ? ?. by split. Qed.

Lemma bucket_group_typed cfg eb gs key values gsk gs' : bucket_typed cfg eb →
  length values = length (GroupBy cfg) →
  bucket_group eb gs key values = Some (Some gsk, gs') → length (gsk_values gsk) = length (GroupBy cfg).
Proof.
  intros Hb Hv E. unfold bucket_group in E. destruct (eb_groups eb !! key) as [g|] eqn:E1.
  { injection E as -> _. by apply (bt_groups _ _ Hb key). }
  destruct (eb_prevGroups eb !! key) as [g|] eqn:E2.
  - run_inv. simpl. by apply (bt_prevGroups _ _ Hb key).
  - run_inv. by destruct (_ : bool); run_inv.
Qed.

Lemma bucket_insert_typed cfg eb gs fp key values eb' gs' : bucket_typed cfg eb →
  (GroupBy cfg ≠ [] → length values = length (GroupBy cfg)) →
  bucket_insert eb gs fp key values = Some (eb', gs') → bucket_typed cfg eb'.
Proof.
  intros Hb Hv E. pose proof Hb as [Hg _ _ _ _ H1 H2]. unfold bucket_insert in E. rewrite Hg in E.
  destruct (GroupBy cfg) as [|g0 g] eqn:Eg.
  { run_inv. apply bucket_typed_groups; rewrite ?Eg; done. }
  rewrite <- Eg in *. run_inv. destruct o as [gsk|]; run_inv; [|done].
  apply bucket_typed_groups; [done| |done]. apply groups_typed_insert; [done|].
  apply (bucket_group_typed cfg eb gs key values gsk gs'); [done| |done]. apply Hv. congruence.
Qed.

Lemma bucket_rotate_typed cfg eb gs eb' gs' : bucket_typed cfg eb →
  bucket_rotate eb gs = Some (eb', gs') → bucket_typed cfg eb'.
Proof.
  intros Hb E. pose proof Hb as [_ _ _ _ _ H1 H2]. unfold bucket_rotate in E.
  destruct (eb_groupBy eb); run_inv; apply bucket_typed_groups; try apply groups_typed_empty; done.
Qed.

Lemma bucket_reset_typed cfg eb gs eb' gs' : bucket_typed cfg eb →
  bucket_reset eb gs = Some (eb', gs') → bucket_typed cfg eb'.
Proof.
  intros Hb E. pose proof Hb as [_ _ _ _ _ H1 H2]. unfold bucket_reset in E.
  destruct (eb_groupBy eb); run_inv; apply bucket_typed_groups; try apply groups_typed_empty; done.
Qed.

(** ** Estimators *)
Lemma est_typed_buckets e ebs gs : est_typed e → Forall (bucket_typed (e_cfg e)) ebs →
  est_typed (set_buckets e ebs gs).
Proof. intros [? ? ? _] ?. by split. Qed.

Lemma insert_bucket_typed e h fp key values e' : est_typed e →
  (e_groupBy e ≠ [] → length values = length (e_groupBy e)) →
  insert_bucket e h fp key values = Some e' → est_typed e' ∧ e_cfg e' = e_cfg e.
Proof.
  intros He Hv E. unfold insert_bucket in E. destruct (_ =? _); [done|]. run_inv.
  split; [|done]. apply est_typed_buckets; [done|]. apply Forall_insert; [apply He|].
  rewrite (et_groupBy e He) in Hv. eapply (bucket_insert_typed _ _ _ _ _ values); [|done|done].
  eapply Forall_lookup_1; [apply He|done].
Qed.

Lemma group_values_length keys labels : ∀ d b d' vs b', group_values keys labels d b = (d', vs, b') →
  length vs = length keys.
Proof.
  induction keys as [|k keys IH]; intros d b d' vs b' E; simpl in E; [by simplify_eq|].
  destruct (list_find _ _) as [[i l]|].
  - destruct (group_values keys labels _ true) as [[d1 vs1] b1] eqn:E1. simplify_eq/=. f_equal. by eapply IH.
  - destruct (group_values keys labels d b) as [[d1 vs1] b1] eqn:E1. simplify_eq/=. f_equal. by eapply IH.
Qed.

(** Every insert of a series carries a value per key. *)
Lemma serie_ops_values groupBy kw ts ov : ov ∈ serie_ops groupBy kw ts → kw = has_label_keyword groupBy →
  groupBy ≠ [] → length ov.2 = length groupBy.
Proof.
  intros Hin -> Hne. unfold serie_ops in Hin. destruct groupBy as [|g0 g']; [done|].
  set (keys := if has_label_keyword (g0 :: g') then _ else _) in Hin.
  destruct (group_values keys _ _ _) as [[d vs] b] eqn:E. apply group_values_length in E. unfold keys in E.
  destruct b; [|by apply elem_of_nil in Hin]. cbn [negb] in Hin.
  destruct (has_label_keyword (g0 :: g')); cbn [negb] in Hin.
  - apply list_elem_of_fmap in Hin as (l & -> & _). unfold label_op. cbn [snd].
    rewrite length_app, E, length_take. simpl. lia.
  - apply list_elem_of_singleton in Hin as ->. done.
Qed.

Lemma insertMany_typed e tss start e' : filter_total e → est_typed e → batch_ok tss → start_ok tss start →
  insertMany e tss start = Some e' → est_typed e'.
Proof.
  intros Hf He Hb Hs E. rewrite insertMany_loop, insert_series_ops in E by done.
  destruct (insert_ops e _) as [ei|] eqn:Ei; [|done]. run_inv. enough (est_typed ei) as [? ? ? ?] by by split.
  apply (for_each_keeps _ (λ e1, est_typed e1 ∧ e_cfg e1 = e_cfg e) _ _ _) in Ei; [tauto| |done].
  intros [o v] e1 e2 Hin E2 [He1 Hc1].
  destruct (insert_bucket_typed e1 (op_h o) (op_fp o) (op_key o) v e2) as [He2 Hc2]; [done| |done|split; congruence].
  intros Hne. rewrite (et_groupBy e1 He1), Hc1, <- (et_groupBy e He) in *.
  unfold batch_ops in Hin. apply list_elem_of_join in Hin as (l & Hin & (ts & -> & _)%list_elem_of_fmap).
  unfold matched_ops in Hin. destruct (filter_match _ _) as [[]|]; try by apply elem_of_nil in Hin.
  apply (serie_ops_values _ _ ts (o, v) Hin (et_keyword e He) Hne).
Qed.

Lemma update_bucket_typed f e i e' :
  (∀ cfg eb gs eb' gs', bucket_typed cfg eb → f eb gs = Some (eb', gs') → bucket_typed cfg eb') →
  update_bucket f e i = Some e' → est_typed e → est_typed e'.
Proof.
  intros Hf E He. unfold update_bucket in E. run_inv. apply est_typed_buckets; [done|].
  apply Forall_insert; [apply He|]. eapply Hf; [|done]. eapply Forall_lookup_1; [apply He|done].
Qed.

Lemma est_do_typed e A ev e' : filter_total e → est_typed e → event_ok A (is_global e) ev →
  est_do e ev = Some e' → est_typed e'.
Proof.
  intros Hf He Hev E. destruct ev as [tss start|i|]; simpl in E, Hev.
  - destruct Hev. by apply (insertMany_typed e tss start).
  - by apply (update_bucket_typed bucket_rotate e i); [apply bucket_rotate_typed|..].
  - unfold estimator_reset in E. rewrite over_buckets_eq in E. revert E He. apply for_each_keeps.
    intros j e1 e2 _ E1. by apply (update_bucket_typed bucket_reset e1 j); [apply bucket_reset_typed|].
Qed.

Lemma newEstimator_typed cpus ch cfg e : config_wf cfg → newEstimator cpus ch cfg = Some (Ok e) → est_typed e.
Proof.
  intros Hwf E. unfold newEstimator in E. rewrite applyDefaults_fixed in E by done. cbv zeta in E.
  destruct (5 <? _)%nat; [done|]. destruct (existsb _ _); [done|]. destruct (compileFilters _); [|done].
  destruct (existsb _ _); [done|]. destruct (HLLSparse cfg); [|done]. cbn [mbind option_bind] in E.
  apply bind_Some in E as (ebs & Eb & E). run_inv. split; simpl; [done|done|done|].
  apply (for_each_keeps _ (Forall (bucket_typed cfg)) _ _ _) in Eb; [done| |constructor].
  intros i ebs1 ebs2 _ E1 Hebs. run_inv. apply Forall_app. split; [done|]. constructor; [|constructor].
  split; simpl; try apply groups_typed_empty; done.
Qed.

(** ** What [toSnapshot] emits *)

(** Every group has a value for each key. *)
Definition sketches_typed (g : list string) (m : gmap Z SnapshotSketch) : Prop :=
  map_Forall (λ _ ssk, length (ss_Values ssk) = length g) m.
Definition values_ok (s : snapshot) : Prop := sketches_typed (s_GroupBy s) (s_Sketches s).

Record snapshot_typed (e : estimator) (s : snapshot) : Prop := {
  st_id : s_ID s = e_id e;
  st_interval : s_Interval s = Interval (e_cfg e);
  st_churn : s_CalculateChurn s = CalculateChurn (e_cfg e);
  st_labels : s_Labels s = labels_of (ec_Labels (e_cfg e));
  st_filter : s_Filter s = Filter (e_cfg e);
  st_groupBy : s_GroupBy s = GroupBy (e_cfg e);
  st_minCardinality : s_MinCardinality s = MinCardinality (e_cfg e);
  st_values : values_ok s;
  st_global : s_GroupBy s = [] → 0 ∈ dom (s_Sketches s)
}.

Lemma meta_typed e eb0 limit m : est_typed e → bucket_typed (e_cfg e) eb0 → GroupBy (e_cfg e) ≠ [] →
  sketches_typed (GroupBy (e_cfg e)) m → snapshot_typed e (set_Sketches (meta_snapshot e eb0 limit) m).
Proof.
  intros [_ _ Hm _] [Hg Hi Hc Hf Hl _ _] Hne Hv. split; simpl; try congruence.
  unfold values_ok. simpl. by rewrite Hg.
Qed.

Lemma snapshot_key_typed cfg eb skp m key skp' m' : bucket_typed cfg eb →
  snapshot_key eb (skp, m) key = Some (skp', m') →
  sketches_typed (GroupBy cfg) m → sketches_typed (GroupBy cfg) m'.
Proof.
  intros Hb E Hm. unfold snapshot_key in E.
  destruct (eb_groups eb !! key) as [g|] eqn:E1, (eb_prevGroups eb !! key) as [pg|] eqn:E2; run_inv;
    apply map_Forall_insert_2; try done; simpl.
  all: first [by apply (bt_groups _ _ Hb key)|by apply (bt_prevGroups _ _ Hb key)].
Qed.

Lemma snapshot_bucket_typed e meta eb st st' :
  (∀ m, sketches_typed (GroupBy (e_cfg e)) m → snapshot_typed e (set_Sketches meta m)) →
  bucket_typed (e_cfg e) eb → snapshot_bucket collect meta st eb = Some st' →
  Forall (snapshot_typed e) st.1.1 → Forall (snapshot_typed e) st'.1.1.
Proof.
  intros Hmeta Hb. unfold snapshot_bucket. apply (for_each_keeps _ (λ st, Forall (snapshot_typed e) st.1.1)).
  intros b [[out skp] go] [[out' skp'] go'] _ E Hout. unfold snapshot_batch in E. destruct go; [|by run_inv].
  cbn [negb] in E. apply bind_Some in E as ([skp1 m] & Em & E). run_inv. apply Forall_app. split; [done|].
  constructor; [|constructor]. apply Hmeta.
  apply (for_each_keeps _ (λ st : sketchesPool * gmap Z SnapshotSketch, sketches_typed (GroupBy (e_cfg e)) st.2) _ _ _)
    in Em; [done| |by apply map_Forall_empty].
  intros key [skp2 m2] [skp3 m3] _ E3 Hm2. by apply (snapshot_key_typed (e_cfg e) eb skp2 m2 key skp3).
Qed.

Lemma toSnapshot_typed e out ok e' : est_typed e → toSnapshot collect e [] = Some (out, ok, e') →
  Forall (snapshot_typed e) out.
Proof.
  intros He E. unfold toSnapshot in E. destruct (e_buckets e !! 0%nat) as [eb0|] eqn:E0; [|done].
  cbn [mbind option_bind] in E. pose proof He as [Hg _ Hmin Hbs].
  pose proof (Forall_lookup_1 _ _ _ _ Hbs E0) as Hb. destruct (e_groupBy e) as [|g0 g] eqn:Eg.
  - run_inv. constructor; [|constructor]. destruct Hb as [Hg0 Hi Hc Hf Hl _ _].
    split; simpl; try congruence; [|intros _; rewrite dom_singleton_L; by apply elem_of_singleton].
    intros k ssk. simpl. by intros [<- <-]%lookup_singleton_Some.
  - assert (GroupBy (e_cfg e) ≠ []) as Hne by by rewrite <- Hg.
    destruct (avgBucketSize _); [|done]. cbn [mbind option_bind] in E.
    destruct (newSketchesPool _ _) as [skp|]; [|done]. cbn [mbind option_bind] in E.
    apply bind_Some in E as ([[out1 skp1] go] & E1 & E).
    apply (for_each_keeps _ (λ st, Forall (snapshot_typed e) st.1.1) _ _ _) in E1; [| |constructor].
    2: { intros eb st st' Hin. apply snapshot_bucket_typed.
         - intros m Hm. by apply meta_typed.
         - by apply (proj1 (Forall_forall _ _) Hbs). }
    simpl in E1. destruct go; cbn [negb] in E; run_inv; [|done].
    apply Forall_app. split; [done|]. constructor; [|constructor]. destruct Hb as [Hg0 Hi Hc Hf Hl _ _].
    split; simpl; try congruence. intros k ssk. simpl. by rewrite lookup_empty.
Qed.

(** ** Any callback

    The callback of [toSnapshot] sees the snapshots one after the other. *)
Section Fold.
Context {St : Type} (cb : St → snapshot → option (St * bool)).

Definition cb_next (st : St) (s : snapshot) : option St :=
  '(st, ok) ← cb st s; if (ok : bool) then Some st else None.

(** A loop body that appends snapshots when collecting, and feeds the same
    snapshots to the callback otherwise. *)
Definition feeds {X} (bc : list snapshot * sketchesPool * bool → X → option (list snapshot * sketchesPool * bool))
    (b : St * sketchesPool * bool → X → option (St * sketchesPool * bool)) : Prop :=
  ∀ out skp x out' skp' go, bc (out, skp, true) x = Some (out', skp', go) →
    go = true ∧ ∃ new, out' = out ++ new ∧
      ∀ st st', for_each cb_next new st = Some st' → b (st, skp, true) x = Some (st', skp', true).

Lemma feeds_loop {X} bc (b : _ → X → _) l : feeds bc b →
  feeds (λ st (_ : unit), for_each bc l st) (λ st _, for_each b l st).
Proof.
  intros Hb out skp _. revert out skp. induction l as [|x l IH]; intros out skp out' skp' go E; simpl in E.
  { simplify_eq. split; [done|]. exists []. rewrite app_nil_r. split; [done|]. intros st st' E. simpl in E. by simplify_eq. }
  destruct (bc (out, skp, true) x) as [[[out1 skp1] go1]|] eqn:E1; [|done]. cbn [mbind option_bind] in E.
  destruct (Hb _ _ _ _ _ _ E1) as (-> & new1 & -> & H1).
  destruct (IH _ _ _ _ _ E) as (-> & new2 & -> & H2). split; [done|]. exists (new1 ++ new2).
  split; [by rewrite app_assoc|]. intros st st' Ef. rewrite for_each_app in Ef.
  destruct (for_each cb_next new1 st) as [st1|] eqn:Ef1; [|done]. cbn [mbind option_bind] in Ef.
  cbn [for_each]. rewrite (H1 st st1 Ef1). by apply H2.
Qed.

Lemma snapshot_batch_feeds meta eb : feeds (snapshot_batch collect meta eb) (snapshot_batch cb meta eb).
Proof.
  intros out skp b out' skp' go E. unfold snapshot_batch in *. cbn [negb] in *.
  destruct (for_each (snapshot_key eb) b (skp, ∅)) as [[skp1 m]|]; [|done]. cbn [mbind option_bind collect] in *.
  simplify_eq. split; [done|]. eexists. split; [done|]. intros st st' Ef. cbn [for_each] in Ef. unfold cb_next in Ef.
  destruct (cb st _) as [[st1 ok]|]; [|done]. cbn [mbind option_bind] in *. by destruct ok; simplify_eq/=.
Qed.

Lemma snapshot_bucket_feeds meta : feeds (snapshot_bucket collect meta) (snapshot_bucket cb meta).
Proof.
  intros out skp eb out' skp' go E.
  by apply (feeds_loop _ _ _ (snapshot_batch_feeds meta eb) out skp ()).
Qed.

Lemma toSnapshot_fold e out e' st st' : toSnapshot collect e [] = Some (out, true, e') →
  for_each cb_next out st = Some st' → toSnapshot cb e st = Some (st', true, e').
Proof.
  unfold toSnapshot. intros E Ef. destruct (e_buckets e !! 0%nat) as [eb0|]; [|done]. cbn [mbind option_bind] in *.
  destruct (e_groupBy e) as [|g0 g].
  - destruct (bucket_newSketch eb0) as [sk|]; [|done]. cbn [mbind option_bind] in *.
    destruct (for_each _ _ sk) as [res|]; [|done]. cbn [mbind option_bind collect] in *. simplify_eq.
    cbn [app for_each] in Ef. unfold cb_next in Ef.
    destruct (cb st _) as [[st1 ok]|]; [|done]. cbn [mbind option_bind] in *. by destruct ok; simplify_eq/=.
  - destruct (avgBucketSize _) as [avg|]; [|done]. cbn [mbind option_bind] in *.
    destruct (newSketchesPool _ _) as [skp|]; [|done]. cbn [mbind option_bind] in *.
    destruct (for_each _ (e_buckets e) ([], skp, true)) as [[[out1 skp1] go]|] eqn:E1; [|done].
    destruct (feeds_loop _ _ _ (snapshot_bucket_feeds _) [] skp () _ _ _ E1) as (-> & new & -> & H).
    cbn [mbind option_bind negb app] in E. destruct (totalRejected _) as [[gs n]|]; [|done].
    cbn [mbind option_bind collect] in E. simplify_eq. rewrite for_each_app in Ef.
    destruct (for_each cb_next new st) as [st1|] eqn:Ef1; [|done]. cbn [mbind option_bind for_each] in Ef.
    rewrite (H st st1 Ef1). cbn [mbind option_bind negb]. unfold cb_next in Ef.
    destruct (cb st1 _) as [[st2 ok]|]; [|done]. cbn [mbind option_bind] in *. by destruct ok; simplify_eq/=.
Qed.

(** A callback that may fail, at any snapshot: the rest is skipped. *)
Definition feeds_any {X} (bc : list snapshot * sketchesPool * bool → X → option (list snapshot * sketchesPool * bool))
    (b : St * sketchesPool * bool → X → option (St * sketchesPool * bool)) : Prop :=
  (∀ st skp x, b (st, skp, false) x = Some (st, skp, false)) ∧
  ∀ out skp x out' skp' go st, bc (out, skp, true) x = Some (out', skp', go) →
    go = true ∧ ∃ st' skp1 go1, b (st, skp, true) x = Some (st', skp1, go1) ∧ (go1 = true → skp1 = skp').

Lemma stopped_loop {X} (b : _ → X → _) l : (∀ st skp x, b (st, skp, false) x = Some (st, skp, false)) →
  ∀ (st : St) (skp : sketchesPool), for_each b l (st, skp, false) = Some (st, skp, false).
Proof. intros Hb. induction l as [|x l IH]; intros st skp; [done|]. cbn [for_each]. rewrite Hb. apply IH. Qed.

Lemma feeds_any_loop {X} bc (b : _ → X → _) l : feeds_any bc b →
  feeds_any (λ st (_ : unit), for_each bc l st) (λ st _, for_each b l st).
Proof.
  intros [Hstop Hb]. split; [intros st skp _; by apply stopped_loop|].
  intros out skp _. revert out skp. induction l as [|x l IH]; intros out skp out' skp' go st E; simpl in E.
  { simplify_eq. split; [done|]. by exists st, skp', true. }
  destruct (bc (out, skp, true) x) as [[[out1 skp1] go1]|] eqn:E1; [|done]. cbn [mbind option_bind] in E.
  destruct (Hb _ _ _ _ _ _ st E1) as (-> & st1 & skp2 & go2 & E2 & Hg). cbn [for_each]. rewrite E2. cbn [mbind option_bind].
  destruct (IH _ _ _ _ _ st1 E) as (-> & st3 & skp3 & go3 & E3 & Hg3). split; [done|].
  destruct go2; [rewrite (Hg eq_refl); by exists st3, skp3, go3|].
  rewrite stopped_loop by done. by exists st1, skp2, false.
Qed.

Lemma snapshot_batch_feeds_any meta eb : (∀ st s, is_Some (cb st s)) →
  feeds_any (snapshot_batch collect meta eb) (snapshot_batch cb meta eb).
Proof.
  intros Hcb. split; [done|]. intros out skp b out' skp' go st E. unfold snapshot_batch in *. cbn [negb] in *.
  destruct (for_each (snapshot_key eb) b (skp, ∅)) as [[skp1 m]|]; [|done]. cbn [mbind option_bind collect] in *.
  simplify_eq. split; [done|]. destruct (Hcb st (set_Sketches meta m)) as [[st1 ok] ->]. cbn [mbind option_bind].
  destruct ok; by do 3 eexists.
Qed.

Lemma toSnapshot_any e out e1 st : (∀ st s, is_Some (cb st s)) → toSnapshot collect e [] = Some (out, true, e1) →
  ∃ st' ok e', toSnapshot cb e st = Some (st', ok, e') ∧ (e' = e ∨ e' = e1).
Proof.
  intros Hcb. unfold toSnapshot. intros E. destruct (e_buckets e !! 0%nat) as [eb0|]; [|done]. cbn [mbind option_bind] in *.
  destruct (e_groupBy e) as [|g0 g].
  - destruct (bucket_newSketch eb0) as [sk|]; [|done]. cbn [mbind option_bind] in *.
    destruct (for_each _ _ sk) as [res|]; [|done]. cbn [mbind option_bind collect] in *. simplify_eq.
    set (s := mkSnapshot _ _ _ _ _ _ _ _ _ _). destruct (Hcb st s) as [[st1 ok] ->]. cbn [mbind option_bind].
    do 3 eexists. split; [done|by left].
  - destruct (avgBucketSize _) as [avg|]; [|done]. cbn [mbind option_bind] in *.
    destruct (newSketchesPool _ _) as [skp|]; [|done]. cbn [mbind option_bind] in *.
    set (meta := meta_snapshot e eb0 _) in *.
    assert (feeds_any (snapshot_bucket collect meta) (snapshot_bucket cb meta)) as Hf.
    { split.
      - intros st0 skp0 eb. by apply (feeds_any_loop _ _ _ (snapshot_batch_feeds_any meta eb Hcb)) with (x := ()).
      - intros o sp eb. by apply (feeds_any_loop _ _ _ (snapshot_batch_feeds_any meta eb Hcb)) with (x := ()). }
    destruct (for_each _ (e_buckets e) ([], skp, true)) as [[[out1 skp1] go]|] eqn:E1; [|done].
    destruct (feeds_any_loop _ _ (e_buckets e) Hf) as [_ Hl]. destruct (Hl [] skp () _ _ _ st E1) as (-> & st1 & skp2 & go2 & E2 & _).
    rewrite E2. cbn [mbind option_bind negb] in *. destruct go2; cbn [negb]; [|do 3 eexists; split; [done|by left]].
    destruct (totalRejected _) as [[gs n]|]; [|done]. cbn [mbind option_bind collect] in *. simplify_eq.
    set (s := mkSnapshot _ _ _ _ _ _ _ _ _ _). destruct (Hcb st1 s) as [[st2 ok] ->]. cbn [mbind option_bind].
    do 3 eexists. split; [done|by right].
Qed.
End Fold.

(** ** From creation on *)

(** An estimator in a state it can be in. *)
Definition est_sound (e : estimator) : Prop := filter_total e ∧ ∃ p A, est_repr p e A.
Record est_ok (e : estimator) : Prop := {
  eo_sound : est_sound e;
  eo_typed : est_typed e;
  eo_config : config_wf (e_cfg e);
  eo_length : Z.of_nat (length (e_buckets e)) = Buckets (e_cfg e)
}.

Lemma est_ok_same e e' p A : est_ok e → est_repr p e' A → same_static e e' → est_typed e' →
  length (e_buckets e') = length (e_buckets e) → est_ok e'.
Proof.
  intros [[Hf _] _ Hc Hl] H Hs Ht Hb. split; [split; [|eauto]|done|..].
  - intros labels. pose proof Hs as (_ & _ & _ & E & _). rewrite E. apply Hf.
  - by destruct Hs as (_ & -> & _).
  - destruct Hs as (_ & -> & _). by rewrite Hb.
Qed.

(** The snapshots of an estimator in a sound state, for any callback. *)
Lemma toSnapshot_emits p e A : est_repr p e A → est_typed e →
  ∃ out e', toSnapshot collect e [] = Some (out, true, e') ∧ est_repr p e' A ∧ same_static e e' ∧
    e_buckets e' = e_buckets e ∧ est_typed e' ∧ Forall (snapshot_typed e) out ∧
    ∃ Xs, Forall2 (λ X s, groups_repr p X (s_Sketches s)) Xs out ∧ union_all Xs = window A.
Proof.
  intros H He. destruct (toSnapshot_run p e A H) as (out & fin & e' & E & H' & Hs & HX & _).
  exists (out ++ [fin]), e'. pose proof (toSnapshot_typed e _ _ _ He E) as Ht.
  assert (e_buckets e' = e_buckets e) as Hb.
  { unfold toSnapshot in E. destruct (e_groupBy e); run_inv; [done|]. destruct (negb _); by run_inv. }
  split_and!; try done. destruct He as [? ? ? Hbs], Hs as (_ & Ec & Eg & _ & Ek & Em & _).
  split; rewrite ?Ec, ?Eg, ?Ek, ?Em, ?Hb; done.
Qed.

Lemma newEstimator_est_ok cpus ch cfg e : config_wf cfg → newEstimator cpus ch cfg = Some (Ok e) → est_ok e.
Proof.
  intros Hwf E. destruct (newEstimator_run cpus ch cfg Hwf) as (r & E' & Hr). rewrite E in E'. injection E' as <-.
  destruct Hr as (_ & Hc & _ & Hf & Hl & H). split; [|by eapply newEstimator_typed|by rewrite Hc|].
  - split; [done|]. eauto.
  - rewrite Hc. pose proof (wf_buckets cfg Hwf). lia.
Qed.

Lemma est_ok_do e A p ev e' : est_repr p e A → est_ok e → event_ok A (is_global e) ev →
  est_do e ev = Some e' → est_ok e' ∧ same_static e e'.
Proof.
  intros H Hok Hev E. pose proof Hok as [[Hf _] Ht _ _]. destruct (est_do_refines p e A ev H Hf Hev) as (e1 & E1 & Hs & H1).
  assert (e1 = e') as -> by congruence. split; [|done]. apply (est_ok_same e e' p (abs_do e A ev)); try done.
  - by apply (est_do_typed e A ev).
  - by rewrite (er_len p e' _ H1), abs_do_length, (er_len p e A H).
Qed.

(** C26: the data of an estimator is well shaped.  From the creation for a
    prepared stream on, whatever batches, rotations and resets (a global
    estimator's resets after each bucket has rotated): every bucket has the
    stream's group-by keys, interval, filter and labels, every group a value
    for each key and a sketch that represents a set of hashes, and the
    estimator emits snapshots with the stream's id, keys and metadata, a value
    for each key and sketches that represent sets of hashes, a global one its
    one group; so no metric line lacks a label. *)
Theorem estimator_shape cpus ch cfg e evs :
  config_wf cfg → newEstimator cpus ch cfg = Some (Ok e) →
  lifetime_ok (Z.to_nat (Buckets cfg)) (is_global e) ∅ evs →
  ∃ e' A' out e'' Xs, est_run e evs = Some e' ∧ est_typed e' ∧ e_cfg e' = cfg ∧
    est_repr (HLLPrecision cfg) e' A' ∧
    toSnapshot collect e' [] = Some (out, true, e'') ∧ Forall (snapshot_typed e') out ∧
    Forall2 (λ X s, groups_repr (HLLPrecision cfg) X (s_Sketches s)) Xs out.
Proof.
  intros Hwf Hnew Hok. destruct (newEstimator_run cpus ch cfg Hwf) as (r & Enew & Hr).
  rewrite Hnew in Enew. injection Enew as <-. destruct Hr as (Hid & Hcfg & Hlim & Hf & _ & H).
  pose proof (newEstimator_typed cpus ch cfg e Hwf Hnew) as He.
  destruct (est_run_life (HLLPrecision cfg) evs (λ e _, est_typed e) e _ ∅ H Hf) as (e' & A' & E & Hs & H' & _ & He').
  - by intros _ i CP _ Hin%not_elem_of_empty.
  - by rewrite length_replicate.
  - done.
  - intros e1 A1 ev e2 _ _ _ Hf1 _ Hev E He1. by apply (est_do_typed e1 A1 ev).
  - destruct (toSnapshot_emits _ e' A' H' He') as (out & e'' & Eo & _ & _ & _ & _ & Ho & Xs & HX & _).
    exists e', A', out, e'', Xs. destruct Hs as (_ & Ec & _). rewrite Hcfg in Ec.
    by split_and!.
Qed.
End Typed.
