(* ===== verification/EstimatorConcurrent.v ===== *)
(** * EstimatorConcurrent: batches inserted by several requests at once

    [insertMany] of src/app/vmestimator/estimator.go takes no lock of its own:
    concurrent requests interleave insert by insert, each under the lock of its
    bucket.  A thread is the list of the inserts its batch has left; the filter,
    the grouping and the hashes depend only on fields that never change.  One
    step is one locked insert of some thread, the check of the group limit
    included (GroupSize treats the check and the addition as two steps). *)
From S2P Require Import Prelude GoText Types Config SketchSpec GroupSize Snapshot Estimator EstimatorInsert.
From S2P Require Import EstimatorWindow.
Local Open Scope Z_scope.

Section Concurrent.
Context `{Spec : SketchSpec} `{Ord : IterOrder, !IterOrderOk Ord} `{Xx : Xxhash, !XxhashOk Xx} `{Ql : MetricsQL}.

(** A batch and its random start; the inserts it makes, in order. *)
Definition thread_ops (e : estimator) (b : list TimeSerie * Z) : list (insert_op * list string) :=
  batch_ops e (rotated b.1 b.2).

Inductive insert_step : estimator * list (list (insert_op * list string)) →
    estimator * list (list (insert_op * list string)) → Prop :=
| insert_step_do e pool i o values rest e' :
    pool !! i = Some ((o, values) :: rest) →
    insert_bucket e (op_h o) (op_fp o) (op_key o) values = Some e' →
    insert_step (e, pool) (e', <[i := rest]> pool).

(** A thread that runs alone is [insertMany], up to its counter. *)
Lemma thread_alone e b : filter_total e → batch_ok b.1 → start_ok b.1 b.2 →
  insertMany e b.1 b.2 =
    e' ← insert_ops e (thread_ops e b); Some (add_insertTotal e' (Z.of_nat (length (thread_ops e b)))).
Proof.
  intros Hf Hb Hs. rewrite insertMany_loop, insert_series_ops by done. unfold thread_ops.
  by destruct (insert_ops e (batch_ops e (rotated b.1 b.2))).
Qed.

Lemma thread_perm (pool : list (list (insert_op * list string))) i ov rest : pool !! i = Some (ov :: rest) →
  mjoin pool ≡ₚ ov :: mjoin (<[i := rest]> pool).
Proof.
  revert i. induction pool as [|l pool IH]; intros [|i] E; simpl in *; [done|done| |].
  - injection E as ->. done.
  - rewrite (IH i E). by rewrite Permutation_middle.
Qed.

(** What a run has done so far. *)
Lemma insert_steps_done e pool e' pool' : rtc insert_step (e, pool) (e', pool') →
  ∃ ops, insert_ops e ops = Some e' ∧ mjoin pool ≡ₚ ops ++ mjoin pool'.
Proof.
  intros H. enough (∀ s, rtc insert_step (e, pool) s →
    ∃ ops, insert_ops e ops = Some s.1 ∧ mjoin pool ≡ₚ ops ++ mjoin s.2) as Hs by apply (Hs _ H).
  clear H. apply rtc_ind_r; [by exists []|].
  intros s s' _ [e1 pool1 i o values rest e2 Ei Eb] (ops & Eops & HP). cbn [fst snd] in *.
  exists (ops ++ [(o, values)]). split.
  - rewrite insert_ops_app, Eops. cbn [mbind option_bind]. rewrite insert_ops_cons. by rewrite Eb.
  - rewrite HP, (thread_perm pool1 i _ rest Ei), <- app_assoc. done.
Qed.

Lemma pool_ops_ok e batches : Forall (λ b, batch_ok b.1 ∧ start_ok b.1 b.2) batches →
  Forall (opv_ok e) (mjoin (map (thread_ops e) batches)).
Proof.
  intros H. apply Forall_join, Forall_map. eapply Forall_impl; [exact H|]. intros b [Hb Hs].
  by apply batch_ops_ok, batch_ok_rotated.
Qed.

Lemma pool_ops_perm e batches :
  mjoin (map (thread_ops e) batches) ≡ₚ mjoin (map (λ b, batch_ops e b.1) batches).
Proof.
  induction batches as [|b batches IH]; simpl; [done|]. rewrite IH. apply Permutation_app_tail.
  apply batch_ops_perm. unfold rotated. by rewrite (Permutation_app_comm (drop _ _)), take_drop.
Qed.

(** C8: concurrent batches.  However the inserts of any number of batches
    interleave: no insert panics, whatever the others have done; and when all
    are through, and the groups of the estimator and of all the batches together
    do not exceed the group limit, each group has exactly the hashes it had and
    those of the batches, as if the batches had been inserted one after the
    other. *)
Theorem concurrent_batches p e A batches e' pool' :
  est_repr p e A → Forall (λ b, batch_ok b.1 ∧ start_ok b.1 b.2) batches →
  (is_global e = false →
   Z.of_nat (size (dom (groups_union (window A)
     (ops_family (map fst (mjoin (map (λ b, batch_ops e b.1) batches))))))) <= gs_limit (e_groupSize e)) →
  rtc insert_step (e, map (thread_ops e) batches) (e', pool') →
  (∀ i ov rest, pool' !! i = Some (ov :: rest) → ∃ e'', insert_step (e', pool') (e'', <[i := rest]> pool')) ∧
  (mjoin pool' = [] → ∃ A', est_repr p e' A' ∧
    cur_family A' = groups_union (ops_family (map fst (mjoin (map (λ b, batch_ops e b.1) batches)))) (cur_family A) ∧
    prev_family A' = prev_family A).
Proof.
  intros H Hb Hlim Hrun. pose proof (pool_ops_ok e batches Hb) as Hops.
  destruct (insert_steps_done _ _ _ _ Hrun) as (ops & Eops & HP).
  pose proof Hops as Hall. rewrite HP in Hall. apply Forall_app in Hall as [Hdone Hrest].
  destruct (insert_ops_refines p ops e A H Hdone) as (ebs & gs & E & _ & H').
  rewrite Eops in E. injection E as ->. split.
  - intros i [o v] rest Ei.
    assert (opv_ok e (o, v)) as [Ho Hv].
    { rewrite (thread_perm pool' i _ rest Ei) in Hrest. by apply Forall_cons in Hrest as [? _]. }
    destruct (insert_bucket_refines p (set_buckets e ebs gs) _ o v H' Ho Hv) as (ebs' & gs' & E' & _).
    eexists. by eapply insert_step_do.
  - intros Hnil. rewrite Hnil, app_nil_r in HP. exists (abs_inserts (limit_of e) A (map fst ops)). split; [exact H'|].
    assert (ops_family (map fst ops) = ops_family (map fst (mjoin (map (λ b, batch_ops e b.1) batches)))) as Hfam.
    { apply ops_family_perm, fmap_Permutation. by rewrite <- HP, pool_ops_perm. }
    rewrite (inserts_below_limit p) by (try done; by rewrite Hfam). rewrite <- Hfam.
    apply (abs_inserts_unlimited (map fst ops) A (er_nonempty p e A H)).
Qed.
End Concurrent.
