(* ===== verification/EstimatorSnapshotConcurrent.v ===== *)
(** * EstimatorSnapshotConcurrent: a snapshot taken while the estimator works

    [toSnapshot] of src/app/vmestimator/estimator.go does not hold a bucket's
    lock for all of the bucket: under a first lock it copies the references to
    the bucket's two maps and lists their keys, and then takes the lock again
    for every batch of keys.  In between, inserts change the maps it refers to,
    and rotations and resets make the bucket refer to others.  Here the maps are
    in a store and the buckets hold references; one step is what runs under one
    lock. *)
From S2P Require Import Prelude GoText Types Config SketchSpec GroupSize Snapshot Estimator EstimatorInsert.
From S2P Require Import EstimatorWindow EstimatorSnapshot.
Local Open Scope Z_scope.

(** Pairs stored at consecutive places. *)
Definition slots {V} (l : list (V * V)) : gmap nat V :=
  list_to_map (mjoin (imap (λ i xy, [(2 * i, xy.1); (2 * i + 1, xy.2)])%nat l)).

Lemma slots_lookup {V} (l : list (V * V)) k v : slots l !! k = Some v ↔
  ∃ i xy, l !! i = Some xy ∧ ((k = 2 * i ∧ v = xy.1) ∨ (k = 2 * i + 1 ∧ v = xy.2))%nat.
Proof.
  unfold slots. set (kvs := mjoin _).
  assert (∀ k v, (k, v) ∈ kvs ↔ ∃ i xy, l !! i = Some xy ∧ ((k = 2 * i ∧ v = xy.1) ∨ (k = 2 * i + 1 ∧ v = xy.2))%nat) as Hin.
  { intros k' v'. unfold kvs. rewrite list_elem_of_join. setoid_rewrite elem_of_lookup_imap. split.
    - intros (ys & Hy & i & xy & -> & E). exists i, xy. split; [done|].
      apply elem_of_cons in Hy as [[= -> ->]|[[= -> ->]|H]%elem_of_cons]; [auto|auto|by apply elem_of_nil in H].
    - intros (i & xy & E & H). eexists. split; [|by exists i, xy]. rewrite !elem_of_cons.
      destruct H as [[-> ->]|[-> ->]]; auto. }
  rewrite <- Hin. split; [apply elem_of_list_to_map_2|]. intros H. apply elem_of_list_to_map_1'; [|done].
  intros v' H'. apply Hin in H as (i & xy & E & H). apply Hin in H' as (i' & xy' & E' & H').
  assert (i = i') as <- by lia. replace xy' with xy in * by congruence. destruct H as [[? ->]|[? ->]], H' as [[? ->]|[? ->]]; (done || lia).
Qed.

Section Defs.
Context `{Ops : SketchOps} `{Ord : IterOrder} `{Xx : Xxhash} `{Ql : MetricsQL}.

(** An estimator whose buckets refer to the maps [groups] and [prevGroups];
    the maps in the buckets of [sh_est] are not used. *)
Record shared := mkShared {
  sh_est : estimator;
  sh_refs : list (nat * nat);
  sh_maps : gmap nat (gmap Z groupSketch)
}.

Definition deref_bucket (maps : gmap nat (gmap Z groupSketch)) (eb : estimatorBucket) (gq : nat * nat) : estimatorBucket :=
  set_groups eb (default ∅ (maps !! gq.1)) (default ∅ (maps !! gq.2)).
Definition deref (sh : shared) : estimator :=
  set_buckets (sh_est sh) (zip_with (deref_bucket (sh_maps sh)) (e_buckets (sh_est sh)) (sh_refs sh)) (e_groupSize (sh_est sh)).

(** The maps of an estimator in a store of their own. *)
Definition share (e : estimator) : shared :=
  mkShared e (imap (λ i _, (2 * i, 2 * i + 1)%nat) (e_buckets e))
    (slots (map (λ eb, (eb_groups eb, eb_prevGroups eb)) (e_buckets e))).

(** What others do: an insert into a bucket's current map, a rotation, which
    moves the current map and makes a new one, and a reset of a bucket, which
    makes two new ones. *)
Inductive env_event :=
| EnvInsert (o : insert_op) (values : list string)
| EnvRotate (i : nat)
| EnvReset (i : nat).

Definition sh_insert (sh : shared) (o : insert_op) (values : list string) : option shared :=
  e ← insert_bucket (deref sh) (op_h o) (op_fp o) (op_key o) values;
  let bi := bucket_index (e_buckets e) (op_h o) in
  '(g, _) ← sh_refs sh !! bi;
  eb ← e_buckets e !! bi;
  Some (mkShared e (sh_refs sh) (<[g := eb_groups eb]> (sh_maps sh))).
Definition sh_rotate (sh : shared) (i : nat) : option shared :=
  e ← estimator_rotate_bucket (deref sh) i;
  '(g, _) ← sh_refs sh !! i;
  eb ← e_buckets e !! i;
  let new := fresh (dom (sh_maps sh)) in
  Some (mkShared e (<[i := (new, g)]> (sh_refs sh)) (<[new := eb_groups eb]> (sh_maps sh))).
Definition sh_reset (sh : shared) (i : nat) : option shared :=
  e ← update_bucket bucket_reset (deref sh) i;
  eb ← e_buckets e !! i;
  let new1 := fresh (dom (sh_maps sh)) in
  let maps := <[new1 := eb_groups eb]> (sh_maps sh) in
  let new2 := fresh (dom maps) in
  Some (mkShared e (<[i := (new1, new2)]> (sh_refs sh)) (<[new2 := eb_prevGroups eb]> maps)).
Definition env_do (sh : shared) (ev : env_event) : option shared :=
  match ev with
  | EnvInsert o values => sh_insert sh o values
  | EnvRotate i => sh_rotate sh i
  | EnvReset i => sh_reset sh i
  end.

(** Where [toSnapshot] is: before the lock of bucket [i]; in bucket [i] with
    the references it copied and the batches left; or at its end. *)
Inductive position :=
| AtBucket (i : nat)
| InBucket (i g q : nat) (batches : list (list Z))
| Finished.
Record snapper := mkSnapper { sn_pos : position; sn_pool : sketchesPool; sn_out : list snapshot }.

(** The start of [toSnapshot] for a group estimator. *)
Definition snap_start (sh : shared) : option (snapshot * snapper) :=
  let e := deref sh in
  eb0 ← e_buckets e !! 0%nat;
  avg ← avgBucketSize (e_groupSize e);
  skp ← newSketchesPool (eb_precision eb0) (Z.min batchSize avg);
  Some (meta_snapshot e eb0 (gs_limit (e_groupSize e)), mkSnapper (AtBucket 0) skp []).

(** What it does next; at the end of the buckets it sends the last snapshot. *)
Definition snap_do (meta : snapshot) (sh : shared) (sn : snapper) : option (shared * snapper) :=
  match sn_pos sn with
  | AtBucket i =>
      match sh_refs sh !! i with
      | Some (g, q) =>
          eb ← e_buckets (deref sh) !! i;
          let keys := bucket_keys eb in
          Some (sh, mkSnapper (InBucket i g q (chunks (length keys) (Z.to_nat batchSize) keys)) (sn_pool sn) (sn_out sn))
      | None =>
          '(gs, rejected) ← totalRejected (e_groupSize (sh_est sh));
          let s := mkSnapshot (s_ID meta) (s_Interval meta) (s_CalculateChurn meta) (s_Labels meta)
                     (s_Filter meta) (s_GroupBy meta) (s_GroupLimit meta) (wrapS 64 rejected)
                     (s_MinCardinality meta) ∅ in
          Some (mkShared (set_buckets (sh_est sh) (e_buckets (sh_est sh)) gs) (sh_refs sh) (sh_maps sh),
                mkSnapper Finished (sn_pool sn) (sn_out sn ++ [s]))
      end
  | InBucket i g q [] => Some (sh, mkSnapper (AtBucket (S i)) (sn_pool sn) (sn_out sn))
  | InBucket i g q (batch :: batches) =>
      eb ← e_buckets (sh_est sh) !! i;
      '(out, skp, _) ← snapshot_batch collect meta (deref_bucket (sh_maps sh) eb (g, q)) (sn_out sn, sn_pool sn, true) batch;
      Some (sh, mkSnapper (InBucket i g q batches) skp out)
  | Finished => None
  end.

(** A run from [s0], with what the others did in it. *)
Inductive snap_run (meta : snapshot) (s0 : shared * snapper) : list env_event → shared * snapper → Prop :=
| snap_run_nil : snap_run meta s0 [] s0
| snap_run_env evs sh sn ev sh' : snap_run meta s0 evs (sh, sn) → env_do sh ev = Some sh' →
    snap_run meta s0 (evs ++ [ev]) (sh', sn)
| snap_run_snap evs sh sn s' : snap_run meta s0 evs (sh, sn) → snap_do meta sh sn = Some s' →
    snap_run meta s0 evs s'.
End Defs.

Section Proofs.
Context `{Spec : SketchSpec} `{Ord : IterOrder, !IterOrderOk Ord} `{Xx : Xxhash, !XxhashOk Xx} `{Ql : MetricsQL}.

Lemma set_groups_id eb : set_groups eb (eb_groups eb) (eb_prevGroups eb) = eb.
Proof. by destruct eb. Qed.
Lemma set_buckets_id e : set_buckets e (e_buckets e) (e_groupSize e) = e.
Proof. by destruct e. Qed.

(** The store agrees with the buckets. *)
Lemma deref_eq e refs maps : length refs = length (e_buckets e) →
  (∀ i eb g q, e_buckets e !! i = Some eb → refs !! i = Some (g, q) →
     default ∅ (maps !! g) = eb_groups eb ∧ default ∅ (maps !! q) = eb_prevGroups eb) →
  deref (mkShared e refs maps) = e.
Proof.
  intros Hl H. unfold deref. cbn [sh_est sh_maps sh_refs]. transitivity (set_buckets e (e_buckets e) (e_groupSize e)); [|apply set_buckets_id].
  f_equal. apply list_eq_same_length with (length (e_buckets e)); [done|rewrite length_zip_with; lia|].
  intros i eb eb' _ Eb Eb'. apply lookup_zip_with_Some in Eb as (eb1 & [g q] & -> & E1 & E2).
  replace eb' with eb1 by congruence. unfold deref_bucket. cbn [fst snd].
  destruct (H i eb1 g q E1 E2) as [-> ->]. apply set_groups_id.
Qed.

Lemma deref_share e : deref (share e) = e.
Proof.
  apply deref_eq; [apply length_imap|]. intros i eb g q Eb Er.
  rewrite list_lookup_imap, Eb in Er. injection Er as <- <-.
  assert (map (λ eb, (eb_groups eb, eb_prevGroups eb)) (e_buckets e) !! i = Some (eb_groups eb, eb_prevGroups eb)) as E
    by (by apply map_lookup_Some with (f := λ eb, (eb_groups eb, eb_prevGroups eb))).
  split; [rewrite (proj2 (slots_lookup _ _ (eb_groups eb)))|rewrite (proj2 (slots_lookup _ _ (eb_prevGroups eb)))]; try done;
    exists i, (eb_groups eb, eb_prevGroups eb); (split; [exact E|auto]).
Qed.

(** ** What the store holds

    [AH] gives the family of hash sets each map stands for, also of the maps no
    bucket refers to any more. *)
Definition heap_repr (p : Z) (maps : gmap nat (gmap Z groupSketch)) (AH : gmap nat (gmap Z (gset Z))) : Prop :=
  ∀ l, match maps !! l, AH !! l with
       | Some m, Some F => groups_repr p F (gsk_ssk <$> m)
       | None, None => True
       | _, _ => False
       end.
Record shared_ok (p : Z) (sh : shared) (A : list bucket_state) (AH : gmap nat (gmap Z (gset Z))) : Prop := {
  so_est : est_repr p (deref sh) A;
  so_group : e_groupBy (sh_est sh) ≠ [];
  so_len : length (sh_refs sh) = length (e_buckets (sh_est sh));
  so_refs : ∀ i g q, sh_refs sh !! i = Some (g, q) → g ≠ q ∧
    ∀ j g' q', sh_refs sh !! j = Some (g', q') → i ≠ j → g ≠ g' ∧ g ≠ q' ∧ q ≠ q';
  so_cur : ∀ i g q CP, sh_refs sh !! i = Some (g, q) → A !! i = Some CP → AH !! g = Some CP.1 ∧ AH !! q = Some CP.2;
  so_maps : heap_repr p (sh_maps sh) AH
}.

Lemma so_map p sh A AH l F : shared_ok p sh A AH → AH !! l = Some F →
  ∃ m, sh_maps sh !! l = Some m ∧ groups_repr p F (gsk_ssk <$> m).
Proof. intros H E. pose proof (so_maps _ _ _ _ H l) as Hl. rewrite E in Hl. destruct (sh_maps sh !! l); [eauto|done]. Qed.

Lemma so_lookup p sh A AH i : shared_ok p sh A AH → (i < length A)%nat →
  ∃ g q eb CP, sh_refs sh !! i = Some (g, q) ∧ A !! i = Some CP ∧ e_buckets (sh_est sh) !! i = Some eb ∧
    e_buckets (deref sh) !! i = Some (deref_bucket (sh_maps sh) eb (g, q)) ∧
    bucket_repr p (e_groupBy (sh_est sh)) i (deref_bucket (sh_maps sh) eb (g, q)) CP.
Proof.
  intros H Hi. destruct (er_lookup p (deref sh) A i (so_est _ _ _ _ H) Hi) as (eb & CP & Eb & EA & Hbr).
  pose proof Eb as Eb'. cbn [deref set_buckets e_buckets] in Eb'. apply lookup_zip_with_Some in Eb' as (eb0 & [g q] & -> & E1 & E2).
  exists g, q, eb0, CP. by split_and!.
Qed.

Lemma bucket_groups_repr p g i eb CP : g ≠ [] → bucket_repr p g i eb CP →
  groups_repr p CP.1 (gsk_ssk <$> eb_groups eb) ∧ groups_repr p CP.2 (gsk_ssk <$> eb_prevGroups eb).
Proof. intros Hg [_ _ _ Hst]. by destruct g. Qed.

Lemma shared_ok_share p e A : est_repr p e A → e_groupBy e ≠ [] → shared_ok p (share e) A (slots A).
Proof.
  intros H Hg. assert (∀ i g q, sh_refs (share e) !! i = Some (g, q) → g = (2 * i)%nat ∧ q = (2 * i + 1)%nat) as Hr.
  { intros i g q E. cbn [share sh_refs] in E. rewrite list_lookup_imap in E. destruct (e_buckets e !! i); [|done].
    by injection E as <- <-. }
  split; [by rewrite deref_share|done|apply length_imap|..].
  - intros i g q [-> ->]%Hr. split; [lia|]. intros j g' q' [-> ->]%Hr. lia.
  - intros i g q CP [-> ->]%Hr EA. split; apply slots_lookup; exists i, CP; auto.
  - assert (∀ i xy, map (λ eb, (eb_groups eb, eb_prevGroups eb)) (e_buckets e) !! i = Some xy →
      ∃ CP, A !! i = Some CP ∧ groups_repr p CP.1 (gsk_ssk <$> xy.1) ∧ groups_repr p CP.2 (gsk_ssk <$> xy.2)) as Hb.
    { intros i xy E. rewrite list_lookup_fmap in E. destruct (e_buckets e !! i) as [eb|] eqn:Eb; [|done].
      injection E as <-. destruct (er_lookup p e A i H) as (eb' & CP & Eb' & EA & Hbr).
      { rewrite <- (er_len p e A H). by eapply lookup_lt_Some. }
      exists CP. replace eb with eb' by congruence. split; [done|]. by apply (bucket_groups_repr p (e_groupBy e) i). }
    intros l. cbn [share sh_maps]. set (l1 := map _ _) in *.
    assert (length l1 = length A) as Hlen by (unfold l1; by rewrite length_map, (er_len p e A H)).
    destruct (slots l1 !! l) as [m|] eqn:Em; [|destruct (slots A !! l) as [F|] eqn:EF; [|done]].
    + apply slots_lookup in Em as (i & xy & Exy & Hv). destruct (Hb i xy Exy) as (CP & EA & H1 & H2).
      destruct Hv as [[-> ->]|[-> ->]].
      * by rewrite (proj2 (slots_lookup A (2 * i) CP.1)) by (exists i, CP; auto).
      * by rewrite (proj2 (slots_lookup A (2 * i + 1) CP.2)) by (exists i, CP; auto).
    + apply slots_lookup in EF as (i & CP & EA & Hv).
      destruct (lookup_lt_is_Some_2 l1 i) as [xy Exy]; [rewrite Hlen; by eapply lookup_lt_Some|].
      destruct Hv as [[-> _]|[-> _]].
      * by rewrite (proj2 (slots_lookup l1 (2 * i) xy.1)) in Em by (exists i, xy; auto).
      * by rewrite (proj2 (slots_lookup l1 (2 * i + 1) xy.2)) in Em by (exists i, xy; auto).
Qed.

(** ** What the others do *)
Definition family_le (F F' : gmap Z (gset Z)) : Prop := dom F ⊆ dom F' ∧ ∀ key, hashes F key ⊆ hashes F' key.
Lemma family_le_refl F : family_le F F.
Proof. by split. Qed.
Lemma family_le_trans F1 F2 F3 : family_le F1 F2 → family_le F2 F3 → family_le F1 F3.
Proof. intros [H1 H2] [H3 H4]. split; [set_solver|]. intros key. specialize (H2 key). specialize (H4 key). set_solver. Qed.

(** How far an event makes bucket [i] forget: not at all, its previous half,
    or everything. *)
Definition weight (i : nat) (ev : env_event) : nat :=
  match ev with EnvInsert _ _ => 0 | EnvRotate j => if decide (i = j) then 1 else 0 | EnvReset j => if decide (i = j) then 2 else 0 end.
Definition stays (n : nat) (CP CP' : bucket_state) : Prop :=
  match n with
  | 0 => family_le CP.1 CP'.1 ∧ family_le CP.2 CP'.2
  | 1 => family_le CP.1 CP'.2
  | _ => True
  end%nat.
Lemma stays_trans n m CP1 CP2 CP3 : stays n CP1 CP2 → stays m CP2 CP3 → stays (n + m) CP1 CP3.
Proof.
  destruct n as [|[|n]], m as [|[|m]]; simpl; try done; intros; destruct_and?; split_and?; eauto using family_le_trans.
Qed.

Definition ev_family (ev : env_event) : gmap Z (gset Z) :=
  match ev with EnvInsert o _ => op_family o | _ => ∅ end.

Record evolves (ev : env_event) (A A' : list bucket_state) (AH AH' : gmap nat (gmap Z (gset Z))) : Prop := {
  ev_len : length A' = length A;
  ev_keep : ∀ i CP CP', A !! i = Some CP → A' !! i = Some CP' → stays (weight i ev) CP CP';
  ev_grow : ∀ l F, AH !! l = Some F → ∃ F', AH' !! l = Some F' ∧ family_le F F';
  ev_new : ∀ l F' key x, AH' !! l = Some F' → x ∈ hashes F' key →
    (∃ l0 F, AH !! l0 = Some F ∧ x ∈ hashes F key) ∨ x ∈ hashes (ev_family ev) key
}.

(** Bucket [i] changes and refers to the maps [g] and [q]. *)
Lemma shared_update p sh A AH i eb CP e gq maps AH' :
  shared_ok p sh A AH → (i < length A)%nat → est_repr p e (<[i := CP]> A) → e_groupBy e = e_groupBy (sh_est sh) →
  e_buckets e = <[i := eb]> (e_buckets (deref sh)) →
  maps !! gq.1 = Some (eb_groups eb) → maps !! gq.2 = Some (eb_prevGroups eb) →
  AH' !! gq.1 = Some CP.1 → AH' !! gq.2 = Some CP.2 → gq.1 ≠ gq.2 →
  (∀ j g' q', sh_refs sh !! j = Some (g', q') → i ≠ j →
     gq.1 ≠ g' ∧ gq.1 ≠ q' ∧ gq.2 ≠ g' ∧ gq.2 ≠ q' ∧
     maps !! g' = sh_maps sh !! g' ∧ maps !! q' = sh_maps sh !! q' ∧ AH' !! g' = AH !! g' ∧ AH' !! q' = AH !! q') →
  heap_repr p maps AH' →
  let sh' := mkShared e (<[i := gq]> (sh_refs sh)) maps in
  deref sh' = e ∧ shared_ok p sh' (<[i := CP]> A) AH'.
Proof.
  intros H Hi He Hgb Eb Em1 Em2 EA1 EA2 Hne Hframe Hmaps sh'.
  assert (length (e_buckets (deref sh)) = length (sh_refs sh)) as Hl.
  { cbn [deref set_buckets e_buckets]. rewrite length_zip_with, (so_len _ _ _ _ H). lia. }
  assert (deref sh' = e) as Ed.
  { apply deref_eq; [by rewrite Eb, !length_insert|]. intros j ebj g q Ej Er. rewrite Eb in Ej.
    apply list_lookup_insert_Some in Er as [(<- & -> & _)|[Hij Er]].
    - apply list_lookup_insert_Some in Ej as [(_ & <- & _)|[? _]]; [|done]. cbn [fst snd] in *. by rewrite Em1, Em2.
    - rewrite list_lookup_insert_ne in Ej by done. cbn [deref set_buckets e_buckets] in Ej.
      apply lookup_zip_with_Some in Ej as (eb0 & gq0 & -> & _ & Er0). rewrite Er in Er0. injection Er0 as <-.
      destruct (Hframe j g q Er Hij) as (_ & _ & _ & _ & -> & -> & _). done. }
  split; [exact Ed|]. split; [by rewrite Ed|cbn [sh' sh_est]; rewrite Hgb; apply H|cbn [sh' sh_refs sh_est]; by rewrite Eb, !length_insert| | |done].
  - intros j g q Er. cbn [sh' sh_refs] in Er. apply list_lookup_insert_Some in Er as [(<- & -> & _)|[Hij Er]].
    + split; [done|]. intros j g' q' Er Hij. cbn [sh' sh_refs] in Er. rewrite list_lookup_insert_ne in Er by done.
      destruct (Hframe j g' q' Er Hij) as (? & ? & ? & ? & _). done.
    + destruct (so_refs _ _ _ _ H j g q Er) as [Hgq Hj]. split; [done|]. intros j' g' q' Er' Hjj. cbn [sh' sh_refs] in Er'.
      apply list_lookup_insert_Some in Er' as [(<- & -> & _)|[_ Er']]; [|by apply (Hj j')].
      destruct (Hframe j g q Er Hij) as (? & ? & ? & ? & _). cbn [fst snd] in *. split_and!; congruence.
  - intros j g q CPj Er EA. cbn [sh' sh_refs] in Er. apply list_lookup_insert_Some in Er as [(<- & -> & _)|[Hij Er]].
    + apply list_lookup_insert_Some in EA as [(_ & <- & _)|[? _]]; done.
    + rewrite list_lookup_insert_ne in EA by done. destruct (Hframe j g q Er Hij) as (_ & _ & _ & _ & _ & _ & -> & ->).
      by apply (so_cur _ _ _ _ H j).
Qed.

Lemma heap_insert p maps AH l m F : heap_repr p maps AH → groups_repr p F (gsk_ssk <$> m) →
  heap_repr p (<[l := m]> maps) (<[l := F]> AH).
Proof.
  intros H Hm l'. destruct (decide (l = l')) as [<-|Hne]; [by rewrite !lookup_insert_eq|].
  rewrite !lookup_insert_ne by done. apply H.
Qed.

Lemma bucket_insert_prev eb gs fp key values eb' gs' : bucket_insert eb gs fp key values = Some (eb', gs') →
  eb_prevGroups eb' = eb_prevGroups eb.
Proof.
  unfold bucket_insert. destruct (eb_groupBy eb); intros E; run_inv; try done.
  match goal with H : match ?g with _ => _ end = Some _ |- _ => destruct g end; run_inv; done.
Qed.

Lemma family_le_add C key fp : family_le C (add_hash C key fp).
Proof.
  rewrite add_hash_union. split; [rewrite dom_groups_union; set_solver|]. intros k. rewrite hashes_union. set_solver.
Qed.

(** The references of other buckets are in the store, and not these. *)
Lemma frame_in_place p sh A AH i g q (m : gmap Z groupSketch) F : shared_ok p sh A AH → sh_refs sh !! i = Some (g, q) →
  ∀ j g' q', sh_refs sh !! j = Some (g', q') → i ≠ j →
    g ≠ g' ∧ g ≠ q' ∧ q ≠ g' ∧ q ≠ q' ∧
    <[g := m]> (sh_maps sh) !! g' = sh_maps sh !! g' ∧ <[g := m]> (sh_maps sh) !! q' = sh_maps sh !! q' ∧
    <[g := F]> AH !! g' = AH !! g' ∧ <[g := F]> AH !! q' = AH !! q'.
Proof.
  intros H E j g' q' E' Hij. destruct (so_refs _ _ _ _ H i g q E) as [_ H1]. destruct (so_refs _ _ _ _ H j g' q' E') as [_ H2].
  destruct (H1 j g' q' E' Hij) as (? & ? & ?). destruct (H2 i g q E ltac:(done)) as (_ & ? & _).
  rewrite !lookup_insert_ne by done. by split_and!.
Qed.

Lemma bucket_index_eq {V W} (l : list V) (l' : list W) h : length l = length l' → bucket_index l h = bucket_index l' h.
Proof. intros E. unfold bucket_index. by rewrite E. Qed.

Lemma evolves_insert o values A AH i g (CP CP' : bucket_state) : A !! i = Some CP → AH !! g = Some CP.1 → CP'.2 = CP.2 →
  (CP'.1 = CP.1 ∨ CP'.1 = add_hash CP.1 (op_key o) (op_fp o)) →
  evolves (EnvInsert o values) A (<[i := CP']> A) AH (<[g := CP'.1]> AH).
Proof.
  intros EA Eg E2 E1.
  assert (family_le CP.1 CP'.1) as Hle by (destruct E1 as [-> | ->]; [apply family_le_refl|apply family_le_add]).
  split; [apply length_insert| | |].
  - intros j CPj CPj' Ej Ej'. simpl. apply list_lookup_insert_Some in Ej' as [(<- & <- & _)|[Hij Ej']].
    + replace CPj with CP by congruence. split; [done|]. rewrite E2. apply family_le_refl.
    + replace CPj' with CPj by congruence. split; apply family_le_refl.
  - intros l F El. destruct (decide (g = l)) as [<-|Hl].
    + exists CP'.1. rewrite lookup_insert_eq. split; [done|]. by replace F with CP.1 by congruence.
    + exists F. rewrite lookup_insert_ne by done. split; [done|apply family_le_refl].
  - intros l F' key x El Hx. destruct (decide (g = l)) as [<-|Hl].
    + rewrite lookup_insert_eq in El. injection El as <-. destruct E1 as [E1|E1]; rewrite E1 in Hx; [by left; eauto|].
      rewrite add_hash_union, hashes_union in Hx. apply elem_of_union in Hx as [Hx|Hx]; [by right|left; eauto].
    + rewrite lookup_insert_ne in El by done. left. eauto.
Qed.

Lemma env_insert_ok p sh A AH o values : shared_ok p sh A AH → opv_ok (deref sh) (o, values) →
  ∃ sh' A' AH', sh_insert sh o values = Some sh' ∧ shared_ok p sh' A' AH' ∧
    evolves (EnvInsert o values) A A' AH AH' ∧ same_static (deref sh) (deref sh').
Proof.
  intros H [Ho Hv]. cbn [fst snd] in *. pose proof (so_est _ _ _ _ H) as He.
  destruct (insert_bucket_refines p (deref sh) A o values He Ho Hv) as (ebs & gs & E & Hlim & He').
  pose proof (er_len _ _ _ He) as Hlen. set (i := bucket_index A (op_h o)).
  assert (i < length A)%nat as Hi by apply bucket_index_lt, (er_nonempty _ _ _ He).
  destruct (so_lookup p sh A AH i H Hi) as (g & q & eb0 & CP & Er & EA & _ & Eb & Hbr).
  set (eb := deref_bucket (sh_maps sh) eb0 (g, q)) in *.
  pose proof E as Ei. unfold insert_bucket in Ei. destruct (_ =? 0); [done|].
  change (Z.to_nat (op_h o mod _)) with (bucket_index (e_buckets (deref sh)) (op_h o)) in Ei.
  rewrite (bucket_index_eq _ A) in Ei by done. fold i in Ei. rewrite Eb in Ei. cbn [mbind option_bind] in Ei.
  destruct (bucket_insert eb (e_groupSize (deref sh)) (op_fp o) (op_key o) values) as [[eb' gs']|] eqn:Ebi; [|done].
  injection Ei as Egs Eebs. symmetry in Eebs. pose proof (bucket_insert_prev _ _ _ _ _ _ _ Ebi) as Eprev.
  assert (∃ CP', abs_insert (limit_of (deref sh)) A o = <[i := CP']> A ∧ CP'.2 = CP.2 ∧
    (CP'.1 = CP.1 ∨ CP'.1 = add_hash CP.1 (op_key o) (op_fp o))) as (CP' & EA' & E2 & E1).
  { unfold abs_insert. fold i. rewrite EA. destruct (decide _).
    - eexists. split; [done|]. by split; [|right].
    - exists CP. rewrite list_insert_id by done. by split_and!; [| |left]. }
  rewrite EA' in He'.
  assert (ebs !! i = Some eb') as Eeb'.
  { rewrite Eebs. apply list_lookup_insert_eq. rewrite length_zip_with. rewrite <- Hlen in Hi. cbn [deref set_buckets e_buckets] in Hi. by rewrite length_zip_with in Hi. }
  assert (groups_repr p CP'.1 (gsk_ssk <$> eb_groups eb')) as Hg'.
  { apply (bucket_groups_repr p (e_groupBy (sh_est sh)) i); [apply H|].
    apply (er_buckets _ _ _ He' i eb' CP'); [done|by rewrite list_lookup_insert_eq]. }
  destruct (so_cur _ _ _ _ H i g q CP Er EA) as [Eg Eq]. destruct (so_refs _ _ _ _ H i g q Er) as [Hgq _].
  destruct (so_map p sh A AH q CP.2 H Eq) as (mq & Emq & _).
  destruct (shared_update p sh A AH i eb' CP' (set_buckets (deref sh) ebs gs) (g, q) (<[g := eb_groups eb']> (sh_maps sh)) (<[g := CP'.1]> AH))
    as [Ed Hok]; try done.
  - apply lookup_insert_eq.
  - cbn [fst snd]. rewrite lookup_insert_ne, Emq, Eprev by done. unfold eb, deref_bucket. cbn. by rewrite Emq.
  - apply lookup_insert_eq.
  - cbn [fst snd]. by rewrite lookup_insert_ne, E2.
  - cbn [fst snd]. by eapply frame_in_place.
  - apply heap_insert; [apply H|done].
  - rewrite list_insert_id in Ed, Hok by done. do 3 eexists. split.
    { unfold sh_insert. rewrite E. cbn [mbind option_bind set_buckets e_buckets].
      rewrite (bucket_index_eq _ A) by (rewrite Eebs, length_insert; exact Hlen). fold i. rewrite Er, Eeb'. done. }
    split; [exact Hok|]. split; [|rewrite Ed; by split_and!].
    by apply evolves_insert with CP.
Qed.

Lemma bucket_rotate_shape eb gs eb' gs' : eb_groupBy eb ≠ [] → bucket_rotate eb gs = Some (eb', gs') →
  eb' = set_groups eb ∅ (eb_groups eb).
Proof. unfold bucket_rotate. destruct (eb_groupBy eb); [done|]. intros _ E. run_inv. done. Qed.
Lemma bucket_reset_shape eb gs eb' gs' : eb_groupBy eb ≠ [] → bucket_reset eb gs = Some (eb', gs') →
  eb' = set_groups eb ∅ ∅.
Proof. unfold bucket_reset. destruct (eb_groupBy eb); [done|]. intros _ E. run_inv. done. Qed.

Lemma so_dom p sh A AH i g q : shared_ok p sh A AH → sh_refs sh !! i = Some (g, q) →
  g ∈ dom (sh_maps sh) ∧ q ∈ dom (sh_maps sh).
Proof.
  intros H E. assert (i < length A)%nat as Hi.
  { rewrite <- (er_len _ _ _ (so_est _ _ _ _ H)). cbn [deref set_buckets e_buckets]. rewrite length_zip_with, <- (so_len _ _ _ _ H), Nat.min_id.
    by eapply lookup_lt_Some. }
  destruct (lookup_lt_is_Some_2 A i Hi) as [CP EA]. destruct (so_cur _ _ _ _ H i g q CP E EA) as [E1 E2].
  destruct (so_map p sh A AH g _ H E1) as (? & ? & _). destruct (so_map p sh A AH q _ H E2) as (? & ? & _).
  split; apply elem_of_dom; eauto.
Qed.

(** A new map changes none that exists. *)
Lemma grow_fresh p (maps : gmap nat (gmap Z groupSketch)) AH new : heap_repr p maps AH → new ∉ dom maps →
  heap_repr p (<[new := ∅]> maps) (<[new := ∅]> AH) ∧ ∀ l F, AH !! l = Some F → <[new := ∅]> AH !! l = Some F.
Proof.
  intros H Hn. split.
  - apply heap_insert; [done|]. rewrite fmap_empty. apply groups_repr_empty.
  - intros l F E. rewrite lookup_insert_ne; [done|]. intros ->. apply not_elem_of_dom in Hn. specialize (H l).
    by rewrite Hn, E in H.
Qed.

Lemma evolves_fresh ev A A' AH AH' : length A' = length A →
  (∀ i CP CP', A !! i = Some CP → A' !! i = Some CP' → stays (weight i ev) CP CP') →
  (∀ l F, AH !! l = Some F → AH' !! l = Some F) →
  (∀ l F', AH' !! l = Some F' → AH !! l = Some F' ∨ F' = ∅) → evolves ev A A' AH AH'.
Proof.
  intros Hl Hk Hg Hn. split; [done|done| |].
  - intros l F E. exists F. split; [by apply Hg|apply family_le_refl].
  - intros l F' key x E Hx. destruct (Hn l F' E) as [?| ->]; [left; eauto|].
    unfold hashes in Hx. rewrite lookup_empty in Hx. by apply elem_of_empty in Hx.
Qed.

Lemma group_not_global p sh A AH : shared_ok p sh A AH → is_global (deref sh) = false.
Proof. intros H. apply bool_decide_false. apply H. Qed.

Lemma env_rotate_ok p sh A AH i : shared_ok p sh A AH → (i < length A)%nat →
  ∃ sh' A' AH', sh_rotate sh i = Some sh' ∧ shared_ok p sh' A' AH' ∧
    evolves (EnvRotate i) A A' AH AH' ∧ same_static (deref sh) (deref sh').
Proof.
  intros H Hi. pose proof (so_est _ _ _ _ H) as He.
  destruct (so_lookup p sh A AH i H Hi) as (g & q & eb0 & CP & Er & EA & _ & Eb & Hbr).
  set (eb := deref_bucket (sh_maps sh) eb0 (g, q)) in *.
  destruct (rotate_refines p (deref sh) A i He Hi) as (e' & E & Hst & He'). rewrite (group_not_global p sh A AH H) in He'.
  rewrite (alter_insert _ _ i CP EA) in He'. unfold age in He'.
  pose proof E as E0. unfold estimator_rotate_bucket in E0. rewrite Eb in E0. cbn [mbind option_bind] in E0.
  destruct (bucket_rotate eb (e_groupSize (deref sh))) as [[eb' gs']|] eqn:Ebr; [|done]. injection E0 as <-.
  apply bucket_rotate_shape in Ebr; [|rewrite (br_groupBy _ _ _ _ _ Hbr); apply H]. subst eb'.
  destruct (so_cur _ _ _ _ H i g q CP Er EA) as [Eg Eq]. destruct (so_map p sh A AH g CP.1 H Eg) as (mg & Emg & Hmg).
  set (new := fresh (dom (sh_maps sh))). pose proof (is_fresh (dom (sh_maps sh))) as Hnew. fold new in Hnew.
  destruct (grow_fresh p (sh_maps sh) AH new (so_maps _ _ _ _ H) Hnew) as [Hheap Hgrow].
  destruct (so_dom p sh A AH i g q H Er) as [Hdg Hdq].
  assert (∀ l, l ∈ dom (sh_maps sh) → new ≠ l) as Hne by (intros l Hl ->; done).
  assert (i < length (e_buckets (deref sh)))%nat as Hi' by by rewrite (er_len _ _ _ He).
  destruct (shared_update p sh A AH i (set_groups eb ∅ (eb_groups eb)) (∅, CP.1) _ (new, g)
    (<[new := ∅]> (sh_maps sh)) (<[new := ∅]> AH) H Hi He') as [Ed Hok]; try done.
  - apply lookup_insert_eq.
  - cbn [fst snd]. rewrite lookup_insert_ne, Emg by (by apply Hne). unfold eb, deref_bucket. cbn. by rewrite Emg.
  - apply lookup_insert_eq.
  - cbn [fst snd]. by rewrite lookup_insert_ne by (by apply Hne).
  - cbn [fst snd]. by apply Hne.
  - intros j g' q' Ej Hij. cbn [fst snd]. destruct (so_dom p sh A AH j g' q' H Ej) as [Hg' Hq'].
    destruct (so_refs _ _ _ _ H i g q Er) as [_ H1]. destruct (H1 j g' q' Ej Hij) as (? & ? & _).
    rewrite !lookup_insert_ne by (by apply Hne). split_and!; try done; by apply Hne.
  - refine (ex_intro _ _ (ex_intro _ _ (ex_intro _ _ (conj _ (conj Hok _))))).
    { unfold sh_rotate. rewrite E. cbn [mbind option_bind]. rewrite Er. cbn [e_buckets set_buckets].
      rewrite list_lookup_insert_eq by exact Hi'. cbn [mbind option_bind]. reflexivity. }
    split; [|by rewrite Ed].
    apply evolves_fresh; [apply length_insert| |done|].
    + intros j CPj CPj' Ej Ej'. simpl. apply list_lookup_insert_Some in Ej' as [(<- & <- & _)|[Hij Ej']].
      * rewrite decide_True by done. replace CPj with CP by congruence. apply family_le_refl.
      * rewrite decide_False by congruence. replace CPj' with CPj by congruence. split; apply family_le_refl.
    + intros l F' El. apply lookup_insert_Some in El as [[_ <-]|[_ El]]; auto.
Qed.

Lemma env_reset_ok p sh A AH i : shared_ok p sh A AH → (i < length A)%nat →
  ∃ sh' A' AH', sh_reset sh i = Some sh' ∧ shared_ok p sh' A' AH' ∧
    evolves (EnvReset i) A A' AH AH' ∧ same_static (deref sh) (deref sh').
Proof.
  intros H Hi. pose proof (so_est _ _ _ _ H) as He.
  destruct (so_lookup p sh A AH i H Hi) as (g & q & eb0 & CP & Er & EA & _ & Eb & Hbr).
  set (eb := deref_bucket (sh_maps sh) eb0 (g, q)) in *.
  destruct (reset_bucket_refines p (deref sh) A i CP He EA) as (e' & E & Hst & He' & _).
  { by rewrite (group_not_global p sh A AH H). }
  rewrite (group_not_global p sh A AH H) in He'. cbn [blank] in He'.
  pose proof E as E0. unfold update_bucket in E0. rewrite Eb in E0. cbn [mbind option_bind] in E0.
  destruct (bucket_reset eb (e_groupSize (deref sh))) as [[eb' gs']|] eqn:Ebr; [|done]. injection E0 as <-.
  apply bucket_reset_shape in Ebr; [|rewrite (br_groupBy _ _ _ _ _ Hbr); apply H]. subst eb'.
  set (new := fresh (dom (sh_maps sh))). pose proof (is_fresh (dom (sh_maps sh))) as Hnew. fold new in Hnew.
  destruct (grow_fresh p (sh_maps sh) AH new (so_maps _ _ _ _ H) Hnew) as [Hheap1 Hgrow1].
  set (maps1 := <[new := ∅]> (sh_maps sh)) in *. set (new2 := fresh (dom maps1)).
  pose proof (is_fresh (dom maps1)) as Hnew2. fold new2 in Hnew2.
  destruct (grow_fresh p maps1 _ new2 Hheap1 Hnew2) as [Hheap2 Hgrow2].
  assert (new ≠ new2) as Hnn by (intros E1; apply Hnew2; rewrite <- E1; unfold maps1; rewrite dom_insert_L; set_solver).
  assert (∀ l, l ∈ dom (sh_maps sh) → new ≠ l ∧ new2 ≠ l) as Hne.
  { intros l Hl. split; intros ->; [done|]. apply Hnew2. unfold maps1. rewrite dom_insert_L. set_solver. }
  assert (i < length (e_buckets (deref sh)))%nat as Hi' by by rewrite (er_len _ _ _ He).
  destruct (shared_update p sh A AH i (set_groups eb ∅ ∅) (∅, ∅) _ (new, new2)
    (<[new2 := ∅]> maps1) (<[new2 := ∅]> (<[new := ∅]> AH)) H Hi He') as [Ed Hok]; try done.
  - cbn [fst snd]. rewrite lookup_insert_ne by done. apply lookup_insert_eq.
  - apply lookup_insert_eq.
  - cbn [fst snd]. rewrite lookup_insert_ne by done. apply lookup_insert_eq.
  - apply lookup_insert_eq.
  - intros j g' q' Ej Hij. cbn [fst snd]. destruct (so_dom p sh A AH j g' q' H Ej) as [[? ?]%Hne [? ?]%Hne].
    unfold maps1. rewrite !lookup_insert_ne by done. by split_and!.
  - refine (ex_intro _ _ (ex_intro _ _ (ex_intro _ _ (conj _ (conj Hok _))))).
    { unfold sh_reset. rewrite E. cbn [mbind option_bind]. cbn [e_buckets set_buckets].
      rewrite list_lookup_insert_eq by exact Hi'. cbn [mbind option_bind]. reflexivity. }
    split; [|by rewrite Ed].
    apply evolves_fresh; [apply length_insert| |auto|].
    + intros j CPj CPj' Ej Ej'. simpl. apply list_lookup_insert_Some in Ej' as [(<- & <- & _)|[Hij Ej']].
      * by rewrite decide_True by done.
      * rewrite decide_False by congruence. replace CPj' with CPj by congruence. split; apply family_le_refl.
    + intros l F' El. apply lookup_insert_Some in El as [[_ <-]|[_ El]]; [auto|].
      apply lookup_insert_Some in El as [[_ <-]|[_ El]]; auto.
Qed.

(** The events others can cause: inserts of requests, and any rotation or
    reset of a bucket. *)
Definition event_fine (e : estimator) (ev : env_event) : Prop :=
  match ev with
  | EnvInsert o values => opv_ok e (o, values)
  | EnvRotate i | EnvReset i => (i < length (e_buckets e))%nat
  end.

Lemma env_do_ok p sh A AH ev : shared_ok p sh A AH → event_fine (deref sh) ev →
  ∃ sh' A' AH', env_do sh ev = Some sh' ∧ shared_ok p sh' A' AH' ∧
    evolves ev A A' AH AH' ∧ same_static (deref sh) (deref sh').
Proof.
  intros H Hev. pose proof (er_len _ _ _ (so_est _ _ _ _ H)) as Hl.
  destruct ev as [o v|i|i]; cbn [event_fine env_do] in *.
  - by apply env_insert_ok.
  - apply env_rotate_ok; [done|lia].
  - apply env_reset_ok; [done|lia].
Qed.

(** ** The snapshot *)
Definition count (i : nat) (evs : list env_event) : nat := sum_list_with (weight i) evs.
Definition owed (n : nat) (CP : bucket_state) (key x : Z) : Prop :=
  match n with
  | 0 => x ∈ hashes CP.1 key ∨ x ∈ hashes CP.2 key
  | 1 => x ∈ hashes CP.1 key
  | _ => False
  end%nat.
(** What was recorded at the start or is inserted meanwhile. *)
Definition known (A0 : list bucket_state) (evs : list env_event) (key x : Z) : Prop :=
  x ∈ hashes (window A0) key ∨ x ∈ hashes (union_all (map ev_family evs)) key.

Lemma count_snoc i evs ev : count i (evs ++ [ev]) = (count i evs + weight i ev)%nat.
Proof. unfold count. rewrite sum_list_with_app. simpl. lia. Qed.
Lemma owed_add n m CP key x : owed (n + m) CP key x → owed n CP key x.
Proof. destruct n as [|[|n]]; simpl; [|destruct m as [|m]; simpl; tauto|done]. destruct m as [|[|m]]; simpl; tauto. Qed.
Lemma owed_stays n CP0 CP key x : stays n CP0 CP → owed n CP0 key x → x ∈ hashes CP.1 key ∨ x ∈ hashes CP.2 key.
Proof. destruct n as [|[|n]]; simpl; [intros [[_ H1] [_ H2]] [H|H]|intros [_ H1] H|done]; specialize (H1 key); set_solver. Qed.
Lemma known_snoc A0 evs ev key x : known A0 evs key x → known A0 (evs ++ [ev]) key x.
Proof. intros [H|H]; [by left|right]. rewrite map_app, union_all_app, hashes_union. set_solver. Qed.

Section Run.
Context (p : Z) (e0 : estimator) (A0 : list bucket_state) (meta : snapshot).

Definition covered (evs : list env_event) (n : nat) (F : gmap Z (gset Z)) : Prop :=
  ∀ i CP key x, (i < n)%nat → A0 !! i = Some CP → owed (count i evs) CP key x → x ∈ hashes F key.

Definition position_ok (evs : list env_event) (AH : gmap nat (gmap Z (gset Z))) (F : gmap Z (gset Z)) (pos : position) : Prop :=
  match pos with
  | AtBucket i => covered evs i F
  | InBucket i g q batches =>
      (i < length A0)%nat ∧ covered evs i F ∧ ∃ G Q, AH !! g = Some G ∧ AH !! q = Some Q ∧
        (∀ key, key ∈ mjoin batches → key ∈ known_keys (G, Q)) ∧
        ∀ CP key x, A0 !! i = Some CP → owed (count i evs) CP key x →
          x ∈ hashes F key ∨ key ∈ mjoin batches ∧ (x ∈ hashes G key ∨ x ∈ hashes Q key)
  | Finished => covered evs (length A0) F
  end.

Record snap_inv (evs : list env_event) (sh : shared) (sn : snapper)
    (A : list bucket_state) (AH : gmap nat (gmap Z (gset Z))) (F : gmap Z (gset Z)) : Prop := {
  si_ok : shared_ok p sh A AH;
  si_static : same_static e0 (deref sh);
  si_len : length A = length A0;
  si_keep : ∀ i CP0 CP, A0 !! i = Some CP0 → A !! i = Some CP → stays (count i evs) CP0 CP;
  si_known : ∀ l G key x, AH !! l = Some G → x ∈ hashes G key → known A0 evs key x;
  si_pool : skpool_ok p (sn_pool sn);
  si_sound : ∀ key x, x ∈ hashes F key → known A0 evs key x;
  si_out : ∃ Xs, Forall2 (λ X s, groups_repr p X (s_Sketches s)) Xs (sn_out sn) ∧ union_all Xs = F;
  si_meta : sn_pos sn ≠ Finished → emitted p meta (sn_out sn) F;
  si_pos : position_ok evs AH F (sn_pos sn)
}.

(** The others' steps keep the invariant. *)
Lemma covered_snoc evs ev n F : covered evs n F → covered (evs ++ [ev]) n F.
Proof. intros H i CP key x Hi E Ho. rewrite count_snoc in Ho. apply (H i CP); [done|done|by eapply owed_add]. Qed.

Lemma position_ok_env evs ev A A' AH AH' F pos : evolves ev A A' AH AH' →
  position_ok evs AH F pos → position_ok (evs ++ [ev]) AH' F pos.
Proof.
  intros Hev. destruct pos as [i|i g q bs|]; simpl; [apply covered_snoc| |apply covered_snoc].
  intros (Hi & Hc & G & Q & EG & EQ & Hk & Ho). split; [done|]. split; [by apply covered_snoc|].
  destruct (ev_grow _ _ _ _ _ Hev g G EG) as (G' & EG' & HG & HG'). destruct (ev_grow _ _ _ _ _ Hev q Q EQ) as (Q' & EQ' & HQ & HQ').
  exists G', Q'. split; [done|]. split; [done|]. split.
  - intros key Hin. specialize (Hk key Hin). unfold known_keys in *. simpl in *. set_solver.
  - intros CP key x E How. rewrite count_snoc in How.
    destruct (Ho CP key x E (owed_add _ _ _ _ _ How)) as [?|[? Hx]]; [by left|right].
    split; [done|]. specialize (HG' key). specialize (HQ' key). set_solver.
Qed.

Lemma event_fine_static e ev : same_static e0 e → length (e_buckets e) = length (e_buckets e0) →
  event_fine e0 ev → event_fine e ev.
Proof.
  intros (_ & _ & Hg & _) Hl. destruct ev as [o v|i|i]; simpl; [|lia|lia]. unfold opv_ok, op_ok. by rewrite Hg.
Qed.

Lemma snap_inv_env evs sh sn A AH F ev : length (e_buckets e0) = length A0 →
  snap_inv evs sh sn A AH F → event_fine e0 ev →
  ∃ sh' A' AH', env_do sh ev = Some sh' ∧ snap_inv (evs ++ [ev]) sh' sn A' AH' F.
Proof.
  intros Hl0 [Hok Hst Hl Hk Hkn Hp Hs Ho Hm Hpos] Hev.
  destruct (env_do_ok p sh A AH ev Hok) as (sh' & A' & AH' & E & Hok' & Hv & Hst').
  { apply event_fine_static; [done| |done]. rewrite (er_len _ _ _ (so_est _ _ _ _ Hok)). lia. }
  exists sh', A', AH'. split; [done|]. split; [done|by eapply same_static_trans|by rewrite (ev_len _ _ _ _ _ Hv)| | |done| |done|done|].
  - intros i CP0 CP' E0 E'. destruct (lookup_lt_is_Some_2 A i) as [CP EA].
    { rewrite <- (ev_len _ _ _ _ _ Hv). by eapply lookup_lt_Some. }
    rewrite count_snoc. eapply stays_trans; [by apply (Hk i CP0 CP)|by apply (ev_keep _ _ _ _ _ Hv i)].
  - intros l G key x EG Hx. destruct (ev_new _ _ _ _ _ Hv l G key x EG Hx) as [(l0 & G0 & E0 & Hx0)|Hx0].
    + by apply known_snoc, (Hkn l0 G0).
    + right. rewrite map_app, union_all_app, hashes_union. simpl. rewrite groups_union_empty_r. set_solver.
  - intros key x Hx. by apply known_snoc, Hs.
  - by eapply position_ok_env.
Qed.

(** The snapshot's own steps. *)
Lemma visited_hashes b W key : hashes (visited b W) key = if decide (key ∈ b) then hashes W key else ∅.
Proof. unfold hashes. rewrite visited_lookup. by destruct (decide (key ∈ b)). Qed.
Lemma family_of_hashes CP key : hashes (family_of CP) key = hashes CP.1 key ∪ hashes CP.2 key.
Proof. apply hashes_union. Qed.

Lemma snap_batch_ok evs sh A AH F i g q b bs skp out :
  snap_inv evs sh (mkSnapper (InBucket i g q (b :: bs)) skp out) A AH F →
  ∃ sn' F', snap_do meta sh (mkSnapper (InBucket i g q (b :: bs)) skp out) = Some (sh, sn') ∧ snap_inv evs sh sn' A AH F'.
Proof.
  intros [Hok Hst Hl Hk Hkn Hp Hs Ho Hm Hpos]. cbn [sn_pos sn_out sn_pool position_ok] in *.
  destruct Hpos as (Hi & Hc & G & Q & EG & EQ & Hkeys & How).
  destruct (so_lookup p sh A AH i Hok) as (g1 & q1 & eb & CP & Er & EA & Ebs & _ & Hbr); [lia|].
  destruct (so_map p sh A AH g G Hok EG) as (mg & Emg & Hmg). destruct (so_map p sh A AH q Q Hok EQ) as (mq & Emq & Hmq).
  pose proof (so_group _ _ _ _ Hok) as Hg.
  assert (bucket_repr p (e_groupBy (sh_est sh)) i (deref_bucket (sh_maps sh) eb (g, q)) (G, Q)) as Hcap.
  { destruct Hbr as [H1 H2 H3 _]. split; [exact H1|exact H2|exact H3|]. destruct (e_groupBy (sh_est sh)); [done|].
    unfold deref_bucket. cbn. by rewrite Emg, Emq. }
  destruct (snapshot_batch_ok p _ i _ (G, Q) meta out skp F b Hg Hcap Hp (Hm ltac:(done))) as (out' & skp' & E & Hp' & Hem').
  { intros k Hin. apply Hkeys. cbn [mjoin list_join]. apply elem_of_app. by left. }
  exists (mkSnapper (InBucket i g q bs) skp' out'), (groups_union F (visited b (family_of (G, Q)))).
  split. { unfold snap_do. cbn [sn_pos sn_out sn_pool]. rewrite Ebs. cbn [mbind option_bind]. by rewrite E. }
  split; try done.
  - intros key x. rewrite hashes_union, visited_hashes, family_of_hashes. cbn [fst snd]. intros [Hx|Hx]%elem_of_union; [by apply Hs|].
    destruct (decide _); [|by apply elem_of_empty in Hx]. apply elem_of_union in Hx as [Hx|Hx]; [by apply (Hkn g G)|by apply (Hkn q Q)].
  - apply (em_families _ _ _ _ Hem').
  - split; [done|]. split; [intros j CPj key x Hj Ej Hoj; rewrite hashes_union; apply elem_of_union; left; by apply (Hc j CPj)|].
    exists G, Q. split; [done|]. split; [done|]. split.
    + intros key Hin. apply Hkeys. cbn [mjoin list_join]. apply elem_of_app. by right.
    + intros CP0 key x E0 How0. rewrite hashes_union, visited_hashes, family_of_hashes, elem_of_union.
      destruct (How CP0 key x E0 How0) as [?|[Hin Hx]]; [by left; left|]. cbn [mjoin list_join] in Hin.
      apply elem_of_app in Hin as [Hin|Hin]; [left; right|by right]. rewrite decide_True by done. cbn [fst snd]. set_solver.
Qed.

Lemma chunks_keys (l : list Z) : mjoin (chunks (length l) (Z.to_nat batchSize) l) = l.
Proof. apply chunks_join; [unfold batchSize; lia|done]. Qed.

Lemma known_hashes (CP : bucket_state) key x : x ∈ hashes CP.1 key ∨ x ∈ hashes CP.2 key → key ∈ known_keys CP.
Proof.
  unfold hashes, known_keys. rewrite elem_of_union, !elem_of_dom.
  destruct (CP.1 !! key), (CP.2 !! key); simpl; intros [H|H]; try (by apply elem_of_empty in H); eauto.
Qed.

Lemma snap_capture_ok evs sh A AH F i skp out : (i < length A0)%nat →
  snap_inv evs sh (mkSnapper (AtBucket i) skp out) A AH F →
  ∃ g q bs, snap_do meta sh (mkSnapper (AtBucket i) skp out) = Some (sh, mkSnapper (InBucket i g q bs) skp out) ∧
    snap_inv evs sh (mkSnapper (InBucket i g q bs) skp out) A AH F.
Proof.
  intros Hi [Hok Hst Hl Hk Hkn Hp Hs Ho Hm Hpos]. cbn [sn_pos sn_out sn_pool position_ok] in *.
  destruct (so_lookup p sh A AH i Hok) as (g & q & eb & CP & Er & EA & _ & Eb & Hbr); [lia|].
  set (keys := bucket_keys (deref_bucket (sh_maps sh) eb (g, q))).
  exists g, q, (chunks (length keys) (Z.to_nat batchSize) keys). split.
  { unfold snap_do. cbn [sn_pos sn_out sn_pool]. rewrite Er, Eb. done. }
  destruct (so_cur _ _ _ _ Hok i g q CP Er EA) as [EG EQ].
  assert (∀ key, key ∈ keys ↔ key ∈ known_keys CP) as Hkeys.
  { intros key. apply (bucket_keys_known p (e_groupBy (sh_est sh)) i); [apply Hok|done]. }
  split; try done; [by intros _; apply Hm|]. cbn [sn_pos position_ok]. split; [done|]. split; [done|]. exists CP.1, CP.2.
  split; [done|]. split; [done|]. rewrite chunks_keys. split; [intros key; rewrite Hkeys; by destruct CP|].
  intros CP0 key x E0 How. right. pose proof (owed_stays _ _ _ _ _ (Hk i CP0 CP E0 EA) How) as Hx.
  split; [|done]. apply Hkeys. by apply (known_hashes CP key x).
Qed.

Lemma snap_next_ok evs sh A AH F i g q skp out :
  snap_inv evs sh (mkSnapper (InBucket i g q []) skp out) A AH F →
  (i < length A0)%nat ∧ snap_inv evs sh (mkSnapper (AtBucket (S i)) skp out) A AH F.
Proof.
  intros [Hok Hst Hl Hk Hkn Hp Hs Ho Hm Hpos]. cbn [sn_pos sn_out sn_pool position_ok] in *.
  destruct Hpos as (Hi & Hc & G & Q & _ & _ & _ & How). split; [done|]. split; try done; [by intros _; apply Hm|].
  intros j CP key x Hj E Hoj. destruct (decide (j = i)) as [Eji|Hji].
  - rewrite Eji in E, Hoj. destruct (How CP key x E Hoj) as [?|[Hin _]]; [done|]. by apply elem_of_nil in Hin.
  - apply (Hc j CP); (done || lia).
Qed.

Lemma snap_finish_ok evs sh A AH F i skp out : (length A0 <= i)%nat →
  snap_inv evs sh (mkSnapper (AtBucket i) skp out) A AH F →
  ∃ sh' s, snap_do meta sh (mkSnapper (AtBucket i) skp out) = Some (sh', mkSnapper Finished skp (out ++ [s])) ∧
    snap_inv evs sh' (mkSnapper Finished skp (out ++ [s])) A AH F.
Proof.
  intros Hi [Hok Hst Hl Hk Hkn Hp Hs Ho Hm Hpos]. cbn [sn_pos sn_out sn_pool position_ok] in *.
  pose proof Hok as [He Hg Hlen Hrefs Hcur Hmaps].
  assert (sh_refs sh !! i = None) as En.
  { apply lookup_ge_None. pose proof (er_len _ _ _ He) as Hle. cbn [deref set_buckets e_buckets] in Hle.
    rewrite length_zip_with in Hle. lia. }
  destruct (totalRejected_ok (e_groupSize (sh_est sh)) (er_gs _ _ _ He)) as (gs & n & Er & Hgs & Hlim & Hsz).
  eexists _, _. split. { unfold snap_do. cbn [sn_pos sn_out sn_pool]. rewrite En, Er. reflexivity. }
  set (sh' := mkShared _ _ _).
  assert (est_repr p (deref sh') A) as He'.
  { destruct He as [H1 H2 H3 H4 H5 H6 H7 H8]. split; try done; unfold sh', deref; cbn [set_buckets e_groupSize sh_est e_groupBy]; rewrite ?Hsz; done. }
  split; try done.
  - destruct Hst as (S1 & S2 & S3 & S4 & S5 & S6 & S7 & S8). split_and!; try done.
    rewrite <- S8. exact Hlim.
  - cbn [sn_out]. destruct Ho as (Xs & HXs & HU). exists (Xs ++ [∅]). split.
    + apply Forall2_app; [done|]. constructor; [apply groups_repr_empty|constructor].
    + rewrite union_all_app, HU. simpl. by rewrite !groups_union_empty_r.
  - intros j CP key x Hj E. apply (Hpos j CP); [lia|done].
Qed.

(** The invariant holds along every run, and the snapshot can always finish. *)
Definition inv (evs : list env_event) (s : shared * snapper) : Prop := ∃ A AH F, snap_inv evs s.1 s.2 A AH F.

Lemma inv_snap evs sh sn s' : inv evs (sh, sn) → snap_do meta sh sn = Some s' → inv evs s'.
Proof.
  intros (A & AH & F & H) E. cbn [fst snd] in H. destruct sn as [[i|i g q [|b bs]|] skp out].
  - destruct (decide (i < length A0)%nat) as [Hi|Hi].
    + destruct (snap_capture_ok evs sh A AH F i skp out Hi H) as (g & q & bs & E' & H'). rewrite E in E'. injection E' as ->. by exists A, AH, F.
    + destruct (snap_finish_ok evs sh A AH F i skp out ltac:(lia) H) as (sh' & s & E' & H'). rewrite E in E'. injection E' as ->. by exists A, AH, F.
  - injection E as <-. exists A, AH, F. by apply snap_next_ok in H as [_ H].
  - destruct (snap_batch_ok evs sh A AH F i g q b bs skp out H) as (sn' & F' & E' & H'). rewrite E in E'. injection E' as ->. by exists A, AH, F'.
  - done.
Qed.

Lemma run_inv_ok s0 evs s : length (e_buckets e0) = length A0 → inv [] s0 → snap_run meta s0 evs s →
  Forall (event_fine e0) evs → inv evs s.
Proof.
  intros Hl H0 Hrun. induction Hrun as [|evs sh sn ev sh' _ IH E|evs sh sn s' _ IH E]; [done| |].
  - intros [Hevs Hev]%Forall_app. apply Forall_cons in Hev as [Hev _]. destruct (IH Hevs) as (A & AH & F & H).
    destruct (snap_inv_env evs sh sn A AH F ev Hl H Hev) as (sh1 & A' & AH' & E' & H'). rewrite E in E'. injection E' as ->.
    by exists A', AH', F.
  - intros Hevs. by eapply inv_snap; [apply IH|].
Qed.

Lemma finish_batches s0 evs sh i g q bs : ∀ skp out, snap_run meta s0 evs (sh, mkSnapper (InBucket i g q bs) skp out) →
  inv evs (sh, mkSnapper (InBucket i g q bs) skp out) →
  ∃ skp' out', snap_run meta s0 evs (sh, mkSnapper (InBucket i g q []) skp' out') ∧ inv evs (sh, mkSnapper (InBucket i g q []) skp' out').
Proof.
  induction bs as [|b bs IH]; intros skp out Hrun Hinv; [eauto|]. pose proof Hinv as (A & AH & F & H).
  destruct (snap_batch_ok evs sh A AH F i g q b bs skp out H) as (sn' & F' & E & H').
  assert (∃ skp' out', sn' = mkSnapper (InBucket i g q bs) skp' out') as (skp' & out' & ->).
  { unfold snap_do in E. cbn [sn_pos] in E. run_inv. simplify_eq. eauto. }
  apply (IH skp' out'); [by eapply snap_run_snap|by exists A, AH, F'].
Qed.

Lemma finish_buckets s0 evs sh k : ∀ i skp out, (length A0 - i <= k)%nat →
  snap_run meta s0 evs (sh, mkSnapper (AtBucket i) skp out) → inv evs (sh, mkSnapper (AtBucket i) skp out) →
  ∃ sh' sn', snap_run meta s0 evs (sh', sn') ∧ sn_pos sn' = Finished.
Proof.
  induction k as [|k IH]; intros i skp out Hk Hrun Hinv; pose proof Hinv as (A & AH & F & H).
  all: destruct (decide (i < length A0)%nat) as [Hi|Hi]; try lia.
  2: { destruct (snap_capture_ok evs sh A AH F i skp out Hi H) as (g & q & bs & E & H').
       destruct (finish_batches s0 evs sh i g q bs skp out) as (skp' & out' & Hrun' & (A' & AH' & F' & Hin')); [by eapply snap_run_snap|by exists A, AH, F|].
       apply snap_next_ok in Hin' as [_ Hin']. apply (IH (S i) skp' out'); [lia| |by exists A', AH', F'].
       by eapply snap_run_snap; [exact Hrun'|]. }
  all: destruct (snap_finish_ok evs sh A AH F i skp out ltac:(lia) H) as (sh' & s & E & _);
    exists sh', (mkSnapper Finished skp (out ++ [s])); (split; [|done]); by eapply snap_run_snap.
Qed.

Lemma run_finishes s0 evs sh sn : snap_run meta s0 evs (sh, sn) → inv evs (sh, sn) →
  ∃ sh' sn', snap_run meta s0 evs (sh', sn') ∧ sn_pos sn' = Finished.
Proof.
  intros Hrun Hinv. destruct sn as [[i|i g q bs|] skp out].
  - by eapply finish_buckets.
  - destruct (finish_batches s0 evs sh i g q bs skp out Hrun Hinv) as (skp' & out' & Hrun' & (A & AH & F & H)).
    apply snap_next_ok in H as [_ H]. apply (finish_buckets s0 evs sh (length A0 - S i) (S i) skp' out'); [done| |by exists A, AH, F].
    by eapply snap_run_snap; [exact Hrun'|].
  - by exists sh, (mkSnapper Finished skp out).
Qed.
End Run.

Lemma snap_start_ok p e A : est_repr p e A → e_groupBy e ≠ [] →
  ∃ meta sn0, snap_start (share e) = Some (meta, sn0) ∧ inv p e A meta [] (share e, sn0).
Proof.
  intros H Hg. unfold snap_start. cbv zeta. rewrite deref_share.
  destruct (er_lookup p e A 0 H (er_nonempty p e A H)) as (eb0 & CP0 & Eb0 & EA0 & Hbr0). rewrite Eb0. cbn [mbind option_bind].
  assert (is_Some (avgBucketSize (e_groupSize e))) as [avg ->].
  { unfold avgBucketSize. pose proof (er_gs_len p e A H) as Hl. pose proof (er_nonempty p e A H).
    destruct (gs_bucketSizes (e_groupSize e)); [simpl in Hl; lia|eauto]. }
  cbn [mbind option_bind]. destruct (newSketchesPool_ok p (Z.min batchSize avg) (er_precision p e A H)) as (skp & Epool & Hpool).
  rewrite (br_precision _ _ _ _ _ Hbr0), Epool. cbn [mbind option_bind]. do 2 eexists. split; [done|].
  exists A, (slots A), ∅. assert (∀ key x, x ∈ hashes (∅ : gmap Z (gset Z)) key → False) as Hempty.
  { intros key x Hx. unfold hashes in Hx. rewrite lookup_empty in Hx. by apply elem_of_empty in Hx. }
  cbn [fst snd]. split; cbn [sn_pool sn_out sn_pos position_ok].
  - by apply shared_ok_share.
  - rewrite deref_share. apply same_static_refl.
  - done.
  - intros i CP CP' E E'. replace CP' with CP by congruence. split; apply family_le_refl.
  - intros l G key x EG Hx. left. apply slots_lookup in EG as (i & CP & EA & Hv). apply elem_of_window.
    exists i, CP. split; [done|]. destruct Hv as [[_ ->]|[_ ->]]; auto.
  - done.
  - intros key x Hx. by destruct (Hempty key x).
  - exists []. split; [constructor|done].
  - intros _. split; [by exists []|constructor].
  - intros i CP key x Hi. lia.
Qed.

(** A snapshot that nothing interrupts is [toSnapshot]. *)
Lemma batch_goes_on meta eb out skp b out' skp' go :
  snapshot_batch collect meta eb (out, skp, true) b = Some (out', skp', go) → go = true.
Proof. unfold snapshot_batch, collect. cbn [negb]. intros E. run_inv. by simplify_eq. Qed.

Lemma alone_batches meta s0 sh i g q eb bs : e_buckets (sh_est sh) !! i = Some eb → ∀ skp out skp' out' go,
  for_each (snapshot_batch collect meta (deref_bucket (sh_maps sh) eb (g, q))) bs (out, skp, true) = Some (out', skp', go) →
  snap_run meta s0 [] (sh, mkSnapper (InBucket i g q bs) skp out) →
  go = true ∧ snap_run meta s0 [] (sh, mkSnapper (InBucket i g q []) skp' out').
Proof.
  intros Eb. induction bs as [|b bs IH]; intros skp out skp' out' go E Hrun; [by injection E as <- <- <-|].
  cbn [for_each] in E. apply bind_Some in E as ([[out1 skp1] go1] & E1 & E).
  pose proof (batch_goes_on _ _ _ _ _ _ _ _ E1) as ->. apply (IH skp1 out1 _ _ _ E).
  eapply snap_run_snap; [exact Hrun|]. unfold snap_do. cbn [sn_pos sn_out sn_pool]. rewrite Eb. cbn [mbind option_bind]. by rewrite E1.
Qed.

Lemma alone_buckets meta s0 e todo : ∀ i skp out skp' out' go, drop i (e_buckets e) = todo → (i <= length (e_buckets e))%nat →
  for_each (snapshot_bucket collect meta) todo (out, skp, true) = Some (out', skp', go) →
  snap_run meta s0 [] (share e, mkSnapper (AtBucket i) skp out) →
  go = true ∧ snap_run meta s0 [] (share e, mkSnapper (AtBucket (length (e_buckets e))) skp' out').
Proof.
  induction todo as [|eb todo IH]; intros i skp out skp' out' go Ed Hi E Hrun.
  { injection E as <- <- <-. split; [done|].
    assert (length (drop i (e_buckets e)) = 0%nat) as Hl by (by rewrite Ed). rewrite length_drop in Hl.
    replace (length (e_buckets e)) with i by lia. done. }
  assert (e_buckets e !! i = Some eb) as Eb by (rewrite <- (Nat.add_0_r i), <- lookup_drop, Ed; done).
  cbn [for_each] in E. apply bind_Some in E as ([[out1 skp1] go1] & E1 & E).
  assert (sh_refs (share e) !! i = Some (2 * i, 2 * i + 1)%nat) as Er by (cbn [share sh_refs]; by rewrite list_lookup_imap, Eb).
  assert (deref_bucket (sh_maps (share e)) eb (2 * i, 2 * i + 1)%nat = eb) as Edb.
  { pose proof Eb as Eb'. rewrite <- (deref_share e) in Eb'. cbn [deref set_buckets e_buckets] in Eb'.
    apply lookup_zip_with_Some in Eb' as (eb1 & gq & -> & E3 & E4). rewrite Er in E4. injection E4 as <-.
    cbn [share sh_est] in E3. rewrite Eb in E3. by injection E3 as <-. }
  unfold snapshot_bucket in E1. cbv zeta in E1. rewrite <- Edb in E1 at 1.
  destruct (alone_batches meta s0 (share e) i (2 * i) (2 * i + 1) eb _ Eb skp out skp1 out1 go1 E1) as [-> Hrun1].
  { eapply snap_run_snap; [exact Hrun|]. unfold snap_do. cbn [sn_pos sn_out sn_pool]. rewrite Er, deref_share, Eb. done. }
  apply (IH (S i) skp1 out1 skp' out' go); [by rewrite <- Nat.add_1_r, <- drop_drop, Ed|apply lookup_lt_Some in Eb; lia|done|].
  by eapply snap_run_snap; [exact Hrun1|].
Qed.

Lemma snapshot_alone e out e' meta sn0 : e_groupBy e ≠ [] → toSnapshot collect e [] = Some (out, true, e') →
  snap_start (share e) = Some (meta, sn0) →
  ∃ sh skp, snap_run meta (share e, sn0) [] (sh, mkSnapper Finished skp out) ∧ deref sh = e'.
Proof.
  intros Hg E Es. unfold snap_start in Es. cbv zeta in Es. rewrite deref_share in Es. unfold toSnapshot in E.
  apply bind_Some in Es as (eb0 & Eb0 & Es). rewrite Eb0 in E. cbn [mbind option_bind] in E.
  apply bind_Some in Es as (avg & Eavg & Es). apply bind_Some in Es as (skp & Eskp & Es). injection Es as <- <-.
  destruct (e_groupBy e) eqn:Eg; [done|]. rewrite Eavg in E. cbn [mbind option_bind] in E. rewrite Eskp in E. cbn [mbind option_bind] in E.
  apply bind_Some in E as ([[out1 skp1] go] & E1 & E). set (meta := meta_snapshot _ _ _) in *.
  destruct (alone_buckets meta (share e, mkSnapper (AtBucket 0) skp []) e _ 0 skp [] skp1 out1 go eq_refl ltac:(lia) E1
    ltac:(apply snap_run_nil)) as [-> Hrun].
  cbn [negb] in E. apply bind_Some in E as ([gs rejected] & Er & E). cbn [collect mbind option_bind] in E. injection E as <- <-.
  eexists _, skp1. split.
  - eapply snap_run_snap; [exact Hrun|]. unfold snap_do. cbn [sn_pos sn_out sn_pool].
    assert (sh_refs (share e) !! length (e_buckets e) = None) as -> by (apply lookup_ge_None; cbn [share sh_refs]; by rewrite length_imap).
    cbn [share sh_est]. rewrite Er. reflexivity.
  - pose proof (deref_share e) as Ed. unfold deref in *. cbn [share sh_est sh_refs sh_maps] in *.
    apply (f_equal e_buckets) in Ed. cbn [set_buckets e_buckets] in Ed. cbn [set_buckets e_buckets e_groupSize]. rewrite Ed. done.
Qed.

End Proofs.
