(* ===== verification/Rotation.v ===== *)
(** * Rotation: the goroutine that rotates an estimator's buckets

    [runRotation] of src/app/vmestimator/estimator.go: at every point of a
    grid of [bucketInterval] nanoseconds since the Unix epoch one bucket is
    rotated, in turn.  The clock is an argument: one reading per turn of the
    loop, and the batches inserted while the goroutine waits are part of the
    turn.  The theorems say at which times which buckets are rotated, and for
    how long an estimator that is rotated this way reports a series. *)
From S2P Require Import Prelude GoText Types Config SketchSpec GroupSize Snapshot Estimator EstimatorInsert.
From S2P Require Import EstimatorWindow EstimatorLife.
Local Open Scope Z_scope.

(** A turn of the loop: [time.Now().UnixNano()] and what is inserted between
    that and the rotation. *)
Record turn := mkTurn { t_now : Z; t_batches : list (list TimeSerie * Z) }.

(** ** The grid *)
Section Grid.
Context (period : Z) (Hp : 0 < period).

Definition due (now : Z) : Z := now + (period - now mod period) mod period.

Lemma rotation_wait_spec now : 0 <= now →
  rotation_wait period now = Some ((period - now mod period) mod period).
Proof.
  intros Hn. unfold rotation_wait. rewrite (proj2 (Z.eqb_neq _ _)), Z.rem_mod_nonneg by lia.
  pose proof (Z.mod_pos_bound now period Hp). destruct (Z.eqb_spec (period - now mod period) period) as [E|E].
  - by rewrite E, Z_mod_same_full.
  - by rewrite (Z.mod_small (period - now mod period)) by lia.
Qed.

Lemma due_bounds now : now <= due now < now + period.
Proof. unfold due. pose proof (Z.mod_pos_bound (period - now mod period) period Hp). lia. Qed.

Lemma due_on_grid now : due now mod period = 0.
Proof.
  unfold due. pose proof (Z.div_mod now period ltac:(lia)) as E. rewrite Z.add_mod_idemp_r by lia.
  rewrite E at 1. rewrite <- (Z.mul_comm (now / period)).
  replace (now / period * period + now mod period + _) with ((now / period + 1) * period) by lia.
  apply Z.mod_mul. lia.
Qed.

(** The only grid point that is at most a period away. *)
Lemma due_unique now t : t mod period = 0 → now <= t < now + period → due now = t.
Proof.
  intros Ht Hb. pose proof (due_bounds now). pose proof (due_on_grid now) as Hd.
  apply Z.mod_divide in Ht as [a Ha]; [|lia]. apply Z.mod_divide in Hd as [b Hbb]; [|lia].
  destruct (Z.lt_trichotomy a b) as [E|[->|E]]; nia.
Qed.

(** The next reading comes after the timer has fired, and less than a period
    after it: the rotation itself takes less than that. *)
Fixpoint timely (last : Z) (turns : list turn) : Prop :=
  match turns with
  | [] => True
  | t :: turns' => last < t_now t < last + period ∧ timely (last + period) turns'
  end.
Definition timely_turns (turns : list turn) : Prop :=
  match turns with [] => True | t :: turns' => 0 <= t_now t ∧ timely (due (t_now t)) turns' end.

(** The timer's firings form an arithmetic progression. *)
Lemma timely_due last turns : last mod period = 0 → 0 <= last → timely last turns →
  ∀ k t, turns !! k = Some t → 0 <= t_now t ∧ due (t_now t) = last + (1 + Z.of_nat k) * period.
Proof.
  revert last. induction turns as [|t0 turns IH]; intros last Hl H0 Ht0 k t E; [done|].
  destruct Ht0 as [Hb Ht]. assert ((last + period) mod period = 0) as Hl' by by rewrite <- Z.add_mod_idemp_r, Z_mod_same_full, Z.add_0_r by lia.
  destruct k as [|k]; simpl in E.
  - injection E as <-. split; [lia|]. rewrite (due_unique (t_now t0) (last + period)); [lia|done|lia].
  - destruct (IH (last + period) Hl' ltac:(lia) Ht k t E) as [? ->]. split; [done|]. lia.
Qed.

Lemma timely_turns_due turns : timely_turns turns → ∀ k t, turns !! k = Some t →
  0 <= t_now t ∧ ∃ t0, turns !! 0%nat = Some t0 ∧ due (t_now t) = due (t_now t0) + Z.of_nat k * period.
Proof.
  destruct turns as [|t0 turns]; [done|]. intros [H0 Ht] k t E. destruct k as [|k].
  { injection E as <-. split; [done|]. exists t0. split; [done|lia]. }
  pose proof (due_bounds (t_now t0)). pose proof (due_on_grid (t_now t0)) as Hg.
  destruct (timely_due _ turns Hg ltac:(lia) Ht k t E) as [? ->]. split; [done|]. exists t0. split; [done|lia].
Qed.
End Grid.

(** The distance of the grid points: half the interval split over the buckets,
    up to rounding. *)
Lemma bucketInterval_bounds interval n : 0 < Z.of_nat n → 2 * Z.of_nat n <= interval →
  ∃ period, bucketInterval interval n = Some period ∧ 0 < period ∧
    interval - 2 * Z.of_nat n <= 2 * (Z.of_nat n * period) <= interval.
Proof.
  intros Hn Hi. unfold bucketInterval. destruct (Nat.eqb_spec n 0); [lia|]. eexists. split; [done|].
  rewrite !Z.quot_div_nonneg by (try apply Z.quot_pos; lia).
  pose proof (Z.div_mod interval 2 ltac:(lia)). pose proof (Z.mod_pos_bound interval 2 ltac:(lia)).
  pose proof (Z.div_mod (interval / 2) (Z.of_nat n) ltac:(lia)).
  pose proof (Z.mod_pos_bound (interval / 2) (Z.of_nat n) ltac:(lia)).
  split; [apply Z.div_str_pos; lia|]. lia.
Qed.

(** ** The loop *)
Section Loop.
Context `{Spec : SketchSpec} `{Ord : IterOrder, !IterOrderOk Ord} `{Xx : Xxhash, !XxhashOk Xx} `{Ql : MetricsQL}.

Record rotation := mkRotation { r_est : estimator; r_bucketIdx : nat; r_fired : list Z }.

(** One turn: read the clock, wait for the timer, rotate the bucket.  The list
    records when the timer fires. *)
Definition rotation_turn (period : Z) (r : rotation) (t : turn) : option rotation :=
  waitNs ← rotation_wait period (t_now t);
  e ← for_each (λ e b, insertMany e b.1 b.2) (t_batches t) (r_est r);
  e ← estimator_rotate_bucket e (r_bucketIdx r);
  Some (mkRotation e ((r_bucketIdx r + 1) mod length (e_buckets e)) (r_fired r ++ [t_now t + waitNs])).

Definition runRotation (interval : Z) (e : estimator) (turns : list turn) : option rotation :=
  period ← bucketInterval interval (length (e_buckets e));
  for_each (rotation_turn period) turns (mkRotation e 0 []).

Definition batches_ok (turns : list turn) : Prop :=
  Forall (λ t, Forall (λ b, batch_ok b.1 ∧ start_ok b.1 b.2) (t_batches t)) turns.

(** No batch of these turns inserts hash [x] into group [key]. *)
Definition not_inserted (e : estimator) (key x : Z) (turns : list turn) : Prop :=
  Forall (λ t, Forall (λ b, Forall (λ ov, ¬ (op_key ov.1 = key ∧ op_fp ov.1 = x)) (batch_ops e b.1)) (t_batches t)) turns.

(** ** The loop over the abstract states *)
(** What inserts add: every new hash is one of theirs. *)
Lemma abs_inserts_only limit ops i key x : ∀ A (CP' : bucket_state), abs_inserts limit A ops !! i = Some CP' →
  ∃ CP : bucket_state, A !! i = Some CP ∧ CP'.2 = CP.2 ∧
    (x ∈ hashes CP'.1 key → x ∈ hashes CP.1 key ∨ ∃ o, o ∈ ops ∧ op_key o = key ∧ op_fp o = x).
Proof.
  induction ops as [|o ops IH]; intros A CP' E; [exists CP'; auto|].
  unfold abs_inserts in *. cbn [foldl] in E. apply IH in E as (CP1 & E1 & Hp1 & Hc1). clear IH.
  unfold abs_insert in E1. destruct (A !! bucket_index A (op_h o)) as [CP0|] eqn:E0.
  2: { exists CP1. set_solver. }
  destruct (decide _); [|exists CP1; set_solver].
  destruct (decide (bucket_index A (op_h o) = i)) as [<-|Hne].
  2: { rewrite list_lookup_insert_ne in E1 by done. exists CP1. set_solver. }
  rewrite list_lookup_insert_eq in E1 by by eapply lookup_lt_Some. injection E1 as <-.
  exists CP0. split_and!; [done|done|]. simpl in *. intros Hx. apply Hc1 in Hx as [Hx|Hx]; [|set_solver].
  rewrite add_hash_union, hashes_union in Hx. apply elem_of_union in Hx as [Hx|Hx]; [|by left]. right.
  exists o. split; [left|]. unfold hashes in Hx. destruct (decide (op_key o = key)) as [Hk|Hk].
  - rewrite Hk, lookup_singleton_eq in Hx. split; [done|]. simpl in Hx. by apply elem_of_singleton in Hx.
  - rewrite lookup_singleton_ne in Hx by done. by apply elem_of_empty in Hx.
Qed.

(** A property [J] of every bucket, by the number of turns done. *)
Definition everywhere (J : nat → bucket_state → Prop) (A : list bucket_state) : Prop :=
  ∀ i CP, A !! i = Some CP → J i CP.

Lemma batches_run p e A (J : nat → bucket_state → Prop) bs : est_repr p e A → filter_total e →
  Forall (λ b, batch_ok b.1 ∧ start_ok b.1 b.2) bs →
  (∀ e1 A1 b, same_static e e1 → b ∈ bs → everywhere J A1 → everywhere J (abs_do e1 A1 (EvInsert b.1 b.2))) →
  everywhere J A →
  ∃ e' A', for_each (λ e b, insertMany e b.1 b.2) bs e = Some e' ∧ same_static e e' ∧ est_repr p e' A' ∧
    length A' = length A ∧ everywhere J A'.
Proof.
  intros H Hf Hb HJ H0.
  destruct (est_run_inv p (map (λ b, EvInsert b.1 b.2) bs) (everywhere J) e A H Hf) as (e' & A' & E & ? & ? & ? & ?).
  - apply Forall_map. eapply Forall_impl; [exact Hb|done].
  - done.
  - intros e1 A1 ev Hs1 _ _ (b & -> & Hin)%list_elem_of_fmap HA1. by apply HJ.
  - exists e', A'. unfold est_run in E. rewrite for_each_map in E. by split_and!.
Qed.

Lemma rotation_turn_run period r t e1 e2 : 0 < period → 0 <= t_now t →
  for_each (λ e b, insertMany e b.1 b.2) (t_batches t) (r_est r) = Some e1 →
  estimator_rotate_bucket e1 (r_bucketIdx r) = Some e2 →
  rotation_turn period r t = Some (mkRotation e2 ((r_bucketIdx r + 1) mod length (e_buckets e2))
    (r_fired r ++ [due period (t_now t)])).
Proof. intros Hp Hn E1 E2. unfold rotation_turn. by rewrite rotation_wait_spec, E1; simpl; rewrite ?E2. Qed.

Lemma turns_run p e A n period (J : nat → nat → bucket_state → Prop) turns :
  0 < period → (∀ t, t ∈ turns → 0 <= t_now t) →
  est_repr p e A → filter_total e → length A = n → batches_ok turns →
  (∀ k e1 A1 t b, same_static e e1 → t ∈ turns → b ∈ t_batches t →
     everywhere (J k) A1 → everywhere (J k) (abs_do e1 A1 (EvInsert b.1 b.2))) →
  (∀ k i CP, (k < length turns)%nat → (i < n)%nat → J k i CP →
     J (S k) i (if decide (k mod n = i)%nat then age (is_global e) CP else CP)) →
  everywhere (J 0%nat) A →
  ∃ e' A', for_each (rotation_turn period) turns (mkRotation e 0 []) =
      Some (mkRotation e' (length turns mod n) (map (λ t, due period (t_now t)) turns)) ∧
    est_repr p e' A' ∧ length A' = n ∧ everywhere (J (length turns)) A'.
Proof.
  intros Hp Hnow H Hf Hn Hb Hins Hrot H0. pose proof (er_nonempty p e A H) as Hpos. rewrite Hn in Hpos.
  set (I dn r := ∃ e1 A1, r = mkRotation e1 (length dn mod n) (map (λ t, due period (t_now t)) dn) ∧
    dn `prefix_of` turns ∧ same_static e e1 ∧ est_repr p e1 A1 ∧ length A1 = n ∧ everywhere (J (length dn)) A1).
  assert (∀ todo dn r, dn ++ todo = turns → I dn r →
    ∃ r', for_each (rotation_turn period) todo r = Some r' ∧ I turns r') as Hloop.
  2: { destruct (Hloop turns [] (mkRotation e 0 [])) as (r' & E & e' & A' & -> & _ & _ & H' & Hl' & HJ'); [done| |].
       - exists e, A. simpl. rewrite Nat.mod_0_l by lia. split_and!; [done|apply prefix_nil|apply same_static_refl|done..].
       - by exists e', A'. }
  induction todo as [|t todo IH]; intros dn r E HI.
  { rewrite app_nil_r in E. subst. by exists r. }
  destruct HI as (e1 & A1 & -> & Hpre & Hs1 & H1 & Hl1 & HJ1).
  assert (t ∈ turns) as Hin by (rewrite <- E; set_solver).
  destruct (batches_run p e1 A1 (J (length dn)) (t_batches t) H1) as (e2 & A2 & E2 & Hs2 & H2 & Hl2 & HJ2).
  - by eapply same_static_filter.
  - unfold batches_ok in Hb. rewrite Forall_forall in Hb. by apply Hb.
  - intros e3 A3 b Hs3 Hbin HA3. apply (Hins _ e3 A3 t b); [by eapply same_static_trans|done..].
  - done.
  - assert (length dn mod n < length A2)%nat as Hidx by (rewrite Hl2, Hl1; apply Nat.mod_upper_bound; lia).
    destruct (rotate_refines p e2 A2 _ H2 Hidx) as (e3 & E3 & Hs3 & H3).
    cbn [for_each]. erewrite rotation_turn_run by (simpl; auto; done). cbn [mbind option_bind r_fired r_bucketIdx].
    apply (IH (dn ++ [t])); [by rewrite <- app_assoc|]. clear IH.
    eexists e3, _. split; [|split_and!; [by exists todo; rewrite <- app_assoc| |exact H3|by rewrite length_alter, Hl2|]].
    + f_equal; [|by rewrite map_app].
      rewrite (er_len p e3 _ H3), length_alter, Hl2, Hl1, length_app, Nat.Div0.add_mod_idemp_l. done.
    + eapply same_static_trans; [exact Hs1|]. by eapply same_static_trans.
    + intros i CP Ei. rewrite length_app, Nat.add_1_r.
      pose proof (lookup_lt_Some _ _ _ Ei) as Hi. rewrite length_alter, Hl2, Hl1 in Hi.
      assert (length dn < length turns)%nat as Hk by (rewrite <- E, length_app; simpl; lia).
      rewrite (same_static_global e e2) in Ei by by eapply same_static_trans.
      destruct (lookup_lt_is_Some_2 A2 i) as [CP2 EA2]; [lia|].
      pose proof (Hrot (length dn) i CP2 Hk Hi (HJ2 i CP2 EA2)) as HR.
      destruct (decide _) as [<-|Hne].
      * rewrite list_lookup_alter_eq, EA2 in Ei. by injection Ei as <-.
      * rewrite list_lookup_alter_ne, EA2 in Ei by done. by injection Ei as <-.
Qed.

(** C32: when the buckets are rotated.  With an interval of at least two
    nanoseconds per bucket and a goroutine that is not delayed by a whole
    period, the loop does not panic and the k-th turn rotates bucket [k mod n]
    at the k-th point of a grid of [period] nanoseconds: the points are
    multiples of the period, whenever the process started, the first one less
    than a period after the first reading of the clock.  A full turn through
    the buckets takes half the interval, less at most a nanosecond per bucket. *)
Theorem runRotation_grid p e A interval turns period :
  est_repr p e A → filter_total e → 2 * Z.of_nat (length A) <= interval →
  bucketInterval interval (length (e_buckets e)) = Some period →
  timely_turns period turns → batches_ok turns →
  interval - 2 * Z.of_nat (length A) <= 2 * (Z.of_nat (length A) * period) <= interval ∧
  ∃ r, runRotation interval e turns = Some r ∧
    r_bucketIdx r = (length turns mod length A)%nat ∧ length (r_fired r) = length turns ∧
    ∀ k t, turns !! k = Some t → ∃ t0, turns !! 0%nat = Some t0 ∧ ∃ first,
      r_fired r !! k = Some (first + Z.of_nat k * period) ∧
      first mod period = 0 ∧ t_now t0 <= first < t_now t0 + period.
Proof.
  intros H Hf Hi Hper Ht Hb. pose proof (er_nonempty p e A H). rewrite (er_len p e A H) in Hper.
  destruct (bucketInterval_bounds interval (length A)) as (period' & E & Hp & Hbd); [lia|done|].
  rewrite E in Hper. injection Hper as ->. split; [done|].
  assert (∀ t, t ∈ turns → 0 <= t_now t) as Hnow.
  { intros t [k Ek]%list_elem_of_lookup. by apply (timely_turns_due period Hp turns Ht k t). }
  destruct (turns_run p e A (length A) period (λ _ _ _, True) turns Hp Hnow H Hf eq_refl Hb) as (e' & A' & E' & _); [done..|].
  eexists. split_and!.
  - unfold runRotation. rewrite (er_len p e A H), E. exact E'.
  - done.
  - apply length_map.
  - intros k t Ek. destruct (timely_turns_due period Hp turns Ht k t Ek) as (_ & t0 & E0 & Ed).
    exists t0. split; [done|]. exists (due period (t_now t0)). split_and!.
    + simpl. change (map ?f turns) with (f <$> turns). by rewrite list_lookup_fmap, Ek, <- Ed.
    + by apply due_on_grid.
    + by apply due_bounds.
    + by apply due_bounds.
Qed.

(** What the loop does to the hashes, by turns done: [n] buckets, bucket [i]
    rotated first at turn [i]. *)
Definition aged (e : estimator) (A : list bucket_state) (turns : list turn) (n k i : nat) (CP : bucket_state) : Prop :=
  ∀ key x,
    (∀ CP0 : bucket_state, A !! i = Some CP0 → x ∈ hashes CP0.1 key →
       ((k <= i)%nat → x ∈ hashes CP.1 key) ∧ ((i < k <= n)%nat → x ∈ hashes CP.2 key)) ∧
    (not_inserted e key x turns →
       ((i < k)%nat → x ∉ hashes CP.1 key) ∧ ((n + i < k)%nat → x ∉ hashes CP.2 key)).

Lemma aged_insert e A turns n k e1 A1 t b : same_static e e1 → t ∈ turns → b ∈ t_batches t →
  everywhere (aged e A turns n k) A1 → everywhere (aged e A turns n k) (abs_do e1 A1 (EvInsert b.1 b.2)).
Proof.
  intros Hs Ht Hb HA i CP E key x. cbn [abs_do] in E. set (ops := map fst _) in E.
  assert (∃ CP1 : bucket_state, A1 !! i = Some CP1 ∧ CP.2 = CP1.2 ∧ hashes CP1.1 key ⊆ hashes CP.1 key) as (CP1 & E1 & Hp & Hsub).
  { destruct (lookup_lt_is_Some_2 A1 i) as [CP1 E1].
    { apply lookup_lt_Some in E. by rewrite abs_inserts_length in E. }
    destruct (abs_inserts_keep (limit_of e1) ops i key A1 CP1 E1) as (CP' & E' & ? & ?).
    rewrite E in E'. injection E' as <-. by exists CP1. }
  destruct (HA i CP1 E1 key x) as [Hk Hg]. split.
  - intros CP0 E0 Hx. destruct (Hk CP0 E0 Hx) as [H1 H2]. rewrite Hp. split; [|done].
    intros Hki. by apply Hsub, H1.
  - intros Hn. destruct (Hg Hn) as [H1 H2]. rewrite Hp. split; [|done]. intros Hki Hx.
    destruct (abs_inserts_only (limit_of e1) ops i key x A1 CP E) as (CP2 & E2 & _ & Honly).
    rewrite E1 in E2. injection E2 as <-. destruct (Honly Hx) as [Hx1|(o & Hin & Hok)]; [by apply H1|].
    apply list_elem_of_fmap in Hin as (ov & -> & Hin).
    assert (batch_ops e1 (rotated b.1 b.2) ≡ₚ batch_ops e b.1) as Hperm.
    { rewrite (same_static_batch_ops e e1) by done. apply batch_ops_perm. unfold rotated.
      by rewrite (Permutation_app_comm (drop _ _)), take_drop. }
    rewrite Hperm in Hin. unfold not_inserted in Hn. rewrite Forall_forall in Hn.
    specialize (Hn t Ht). rewrite Forall_forall in Hn. specialize (Hn b Hb). rewrite Forall_forall in Hn.
    by apply (Hn ov Hin).
Qed.

Lemma aged_rotate e A turns n k i CP : (i < n)%nat → aged e A turns n k i CP →
  aged e A turns n (S k) i (if decide (k mod n = i)%nat then age (is_global e) CP else CP).
Proof.
  intros Hi HA key x. destruct (HA key x) as [Hk Hg]. clear HA.
  destruct (hashes_age (is_global e) CP key x) as [Hc Hp].
  assert (∀ j, (j < n)%nat → (j mod n = j)%nat) as Hsmall by (intros; by apply Nat.mod_small).
  assert ((n + i) mod n = i)%nat as Hni.
  { rewrite <- Nat.Div0.add_mod_idemp_l, Nat.Div0.mod_same. by apply Hsmall. }
  split.
  - intros CP0 E0 Hx. destruct (Hk CP0 E0 Hx) as [H1 H2].
    destruct (decide _) as [E|E]; [|split; intros; [apply H1; lia|]].
    + split; intros H.
      * rewrite Hsmall in E by lia. lia.
      * apply Hp, H1. rewrite Hsmall in E by lia. lia.
    + apply H2. split; [|lia]. assert (k ≠ i) by (intros ->; by apply E, Hsmall). lia.
  - intros Hn. destruct (Hg Hn) as [H1 H2]. destruct (decide _) as [E|E].
    + split; intros H; [exact Hc|]. intros Hx. apply Hp in Hx. revert Hx. apply H1. lia.
    + split; intros H; [apply H1|apply H2].
      * assert (k ≠ i) by (intros ->; by apply E, Hsmall). lia.
      * assert (k ≠ n + i)%nat by (intros ->; by apply E). lia.
Qed.

(** C6: how long a series is reported, in turns of the rotation.  Whatever
    batches arrive meanwhile: what the current halves of the buckets hold when
    the loop starts (not what only the previous halves do) is still reported after each of the first [n] turns, [n] points of
    the grid, which half the interval holds; and what is not inserted again is
    no longer reported after [2 n] turns or more, those of a whole interval. *)
Theorem runRotation_window p e A interval turns :
  est_repr p e A → filter_total e → 2 * Z.of_nat (length A) <= interval →
  (∀ t, t ∈ turns → 0 <= t_now t) → batches_ok turns →
  ∃ r A', runRotation interval e turns = Some r ∧ est_repr p (r_est r) A' ∧ ∀ key x,
    ((length turns <= length A)%nat → x ∈ hashes (cur_family A) key → x ∈ hashes (window A') key) ∧
    ((2 * length A <= length turns)%nat → not_inserted e key x turns → x ∉ hashes (window A') key).
Proof.
  intros H Hf Hi Hnow Hb. pose proof (er_nonempty p e A H) as Hpos.
  destruct (bucketInterval_bounds interval (length A)) as (period & E & Hp & _); [lia|done|].
  destruct (turns_run p e A (length A) period (aged e A turns (length A)) turns Hp Hnow H Hf eq_refl Hb)
    as (e' & A' & E' & H' & Hl' & HJ).
  - intros k e1 A1 t b. apply aged_insert.
  - intros k i CP _ Hin. by apply aged_rotate.
  - intros i CP Ei key x. split; [|intros _; split; lia]. intros CP0 E0 Hx. rewrite Ei in E0. injection E0 as <-.
    split; [done|lia].
  - eexists _, A'. split; [unfold runRotation; rewrite (er_len p e A H), E; exact E'|]. split; [exact H'|].
    intros key x. split.
    + intros Hlen Hx. unfold cur_family in Hx. apply elem_of_union_all in Hx as (X & HX & Hx).
      apply list_elem_of_fmap in HX as (CP0 & -> & [i E0]%list_elem_of_lookup).
      destruct (lookup_lt_is_Some_2 A' i) as [CP' EA']; [rewrite Hl'; by eapply lookup_lt_Some|].
      destruct (HJ i CP' EA' key x) as [Hk _]. destruct (Hk CP0 E0 Hx) as [H1 H2].
      apply elem_of_window. exists i, CP'. split; [done|].
      destruct (Nat.le_gt_cases (length turns) i); [left; auto|right; auto].
    + intros Hlen Hn (i & CP' & EA' & Hx)%elem_of_window.
      destruct (HJ i CP' EA' key x) as [_ Hg]. destruct (Hg Hn) as [H1 H2].
      assert (i < length A)%nat by (rewrite <- Hl'; by eapply lookup_lt_Some). destruct Hx as [Hx|Hx]; [revert Hx; apply H1; lia|revert Hx; apply H2; lia].
Qed.
End Loop.
