(* ===== verification/EstimatorExamples.v ===== *)
(** * EstimatorExamples: the estimator's theorems at concrete inputs

    A group estimator by [job] and [__label__] and a global one, over the
    exact sketch of GroupSize.v, with the theorems of the Estimator files
    applied to them. *)
From Stdlib Require Import Ascii String.
From S2P Require Import Prelude GoText Types Config SketchSpec GroupSize Snapshot Estimator EstimatorInsert.
From S2P Require Import EstimatorWindow EstimatorLife EstimatorSnapshot EstimatorTyped EstimatorConcurrent EstimatorSnapshotConcurrent Rotation.
Local Open Scope Z_scope.

Definition demo_hash : Xxhash := {| xxhash_Sum64 s := wrap 64 (foldr (λ a acc, 31 * acc + Z.of_N (Ascii.N_of_ascii a)) 7 (String.list_ascii_of_string s)) |}.
Lemma demo_hash_ok : XxhashOk demo_hash.
Proof. split. intros s. by apply wrap_uint. Qed.

Definition demo_stream (groupBy : list string) : EstimatorConfig :=
  applyDefaults 1 (set_GroupBy empty_config groupBy).

Lemma demo_stream_wf groupBy body : groupBy_prepared groupBy body → config_wf (demo_stream groupBy).
Proof. intros H. apply applyDefaults_wf; [by exists body|by left]. Qed.

Lemma demo_job_prepared : groupBy_prepared ["job"%string; labelKeyword] ["job"%string].
Proof. split; [by right|by repeat constructor|]. intros [H|H]%elem_of_cons; [done|by apply not_elem_of_nil in H]. Qed.

Lemma demo_global_prepared : groupBy_prepared [] [].
Proof. split; [by left|constructor|apply not_elem_of_nil]. Qed.

Lemma demo_created groupBy body : groupBy_prepared groupBy body →
  (length groupBy <= 5)%nat → existsb reserved_groupBy groupBy = false →
  ∃ e, @newEstimator set_sketch_ops demo_ql 1 0 (demo_stream groupBy) = Some (Ok e) ∧ e_id e = config_id (demo_stream groupBy) ∧
    filter_total e ∧ e_groupBy e = groupBy ∧ gs_limit (e_groupSize e) = 10000 ∧ length (e_buckets e) = 4%nat ∧
    e_compiledFilter e = [] ∧ est_repr (Spec := set_sketch_spec) 14 e (replicate 4 (init_state (is_global e))).
Proof.
  intros Hg H5 Hres. destruct (newEstimator_run (Spec := set_sketch_spec) (Ql := demo_ql) 1 0 (demo_stream groupBy))
    as (r & He & Hr); [by apply (demo_stream_wf _ body)|].
  destruct r as [e|msg].
  2: { destruct Hr as [Hr|[Hr|[m Hr]]]; [simpl in Hr; lia|simpl in Hr; congruence|discriminate Hr]. }
  exists e. destruct Hr as (Hid & Hc & Hl & Hf & Hb & H).
  assert (e_groupBy e = groupBy ∧ e_compiledFilter e = []) as [Egb Ecf]; [|by split_and!].
  unfold newEstimator in He. cbv zeta in He.
  destruct (5 <? _)%nat; [done|]. destruct (existsb _ _); [done|]. destruct (compileFilters _) as [cf|] eqn:Ec; [|done].
  injection Ec as <-.
  destruct (existsb _ _); [done|]. destruct (HLLSparse _); [|done]. cbn [mbind option_bind] in He.
  destruct (for_each _ _ _); [|done]. simpl in He. by injection He as <-.
Qed.

Lemma demo_group :
  ∃ e, @newEstimator set_sketch_ops demo_ql 1 0 (demo_stream ["job"%string; labelKeyword]) = Some (Ok e) ∧
    e_id e = config_id (demo_stream ["job"%string; labelKeyword]) ∧
    filter_total e ∧ e_groupBy e = ["job"%string; labelKeyword] ∧ gs_limit (e_groupSize e) = 10000 ∧ length (e_buckets e) = 4%nat ∧
    e_compiledFilter e = [] ∧ est_repr (Spec := set_sketch_spec) 14 e (replicate 4 (init_state (is_global e))).
Proof. apply (demo_created _ _ demo_job_prepared); [simpl; lia|reflexivity]. Qed.

Lemma demo_global :
  ∃ e, @newEstimator set_sketch_ops demo_ql 1 0 (demo_stream []) = Some (Ok e) ∧
    e_id e = config_id (demo_stream []) ∧
    filter_total e ∧ e_groupBy e = [] ∧ gs_limit (e_groupSize e) = 10000 ∧ length (e_buckets e) = 4%nat ∧
    e_compiledFilter e = [] ∧ est_repr (Spec := set_sketch_spec) 14 e (replicate 4 (init_state (is_global e))).
Proof. apply (demo_created _ _ demo_global_prepared); [simpl; lia|reflexivity]. Qed.

Definition demo_tss : list TimeSerie :=
  [mkTimeSerie [mkLabel "job" "a" 11; mkLabel "env" "prod" 12] 101;
   mkTimeSerie [mkLabel "job" "b" 13] 102].

Lemma demo_tss_ok : batch_ok demo_tss ∧ start_ok demo_tss 1.
Proof. split; [|vm_compute; split; congruence]. split; [reflexivity|]. repeat constructor; vm_compute; congruence. Qed.

Lemma newEstimator_spec_witness :
  ∃ e, @newEstimator set_sketch_ops demo_ql 1 0 (demo_stream ["job"%string; labelKeyword]) = Some (Ok e) ∧
    gs_limit (e_groupSize e) = 10000 ∧ length (e_buckets e) = 4%nat.
Proof.
  destruct (newEstimator_spec (Spec := set_sketch_spec) (Ql := demo_ql) 1 0 (demo_stream ["job"%string; labelKeyword])
    (demo_stream_wf _ _ demo_job_prepared)) as (r & E & Hr).
  destruct r as [e|msg].
  2: { exfalso. destruct Hr as [Hr|[Hr|[m Hr]]]; [simpl in Hr; lia|discriminate Hr|discriminate Hr]. }
  exists e. destruct Hr as (_ & _ & Hl & _ & Hb & _). exact (conj E (conj Hl Hb)).
Defined.

Lemma insertMany_refines_witness :
  ∃ e e', @newEstimator set_sketch_ops demo_ql 1 0 (demo_stream ["job"%string; labelKeyword]) = Some (Ok e) ∧
    insertMany (Xx := demo_hash) e demo_tss 1 = Some e' ∧
    e_insertTotal e' = e_insertTotal e + Z.of_nat (length (batch_ops (Xx := demo_hash) e demo_tss)).
Proof.
  destruct demo_group as (e & He & _ & Hf & _ & _ & _ & _ & H).
  destruct (insertMany_refines (Xx := demo_hash) (XxhashOk0 := demo_hash_ok) 14 e _ demo_tss 1 H Hf
    (proj1 demo_tss_ok) (proj2 demo_tss_ok)) as (e' & E & _ & _ & _ & Hn).
  exists e, e'. exact (conj He (conj E Hn)).
Defined.

Lemma insertMany_exact_witness :
  ∃ e e' A', @newEstimator set_sketch_ops demo_ql 1 0 (demo_stream []) = Some (Ok e) ∧
    insertMany (Xx := demo_hash) e demo_tss 1 = Some e' ∧
    est_repr (Spec := set_sketch_spec) 14 e' A' ∧
    prev_family A' = prev_family (replicate 4 (init_state (is_global e))).
Proof.
  destruct demo_global as (e & He & _ & Hf & Hg & _ & _ & Hcf & H).
  destruct (insertMany_exact (Xx := demo_hash) (XxhashOk0 := demo_hash_ok) 14 e _ demo_tss 1 H Hf
    (proj1 demo_tss_ok) (proj2 demo_tss_ok)) as (e' & A' & E & H' & _ & _ & Hp).
  - intros Hn. unfold is_global in Hn. rewrite Hg in Hn. discriminate Hn.
  - exists e, e', A'. exact (conj He (conj E (conj H' Hp))).
Defined.

Lemma rotation_window_witness :
  ∃ e e1, @newEstimator set_sketch_ops demo_ql 1 0 (demo_stream []) = Some (Ok e) ∧ full_round e = Some e1.
Proof.
  destruct demo_global as (e & He & _ & _ & _ & _ & _ & _ & H).
  destruct (rotation_window (Xx := demo_hash) (XxhashOk0 := demo_hash_ok) 14 e _ H) as (e1 & A1 & e2 & A2 & E1 & _). exists e, e1. exact (conj He E1).
Defined.

Definition demo_events : list est_event := [EvInsert demo_tss 1; EvRotate 2; EvReset; EvInsert demo_tss 0].

Lemma estimator_lifetime_witness :
  ∃ e e', @newEstimator set_sketch_ops demo_ql 1 0 (demo_stream ["job"%string; labelKeyword]) = Some (Ok e) ∧
    est_run (Xx := demo_hash) e demo_events = Some e'.
Proof.
  destruct demo_group as (e & He & _ & _ & Hg & _).
  destruct (estimator_lifetime (Spec := set_sketch_spec) (Xx := demo_hash) (XxhashOk0 := demo_hash_ok) 1 0
    (demo_stream ["job"%string; labelKeyword]) e demo_events (demo_stream_wf _ _ demo_job_prepared) He)
    as (e' & A' & E & _).
  - destruct demo_tss_ok as [Hb Hs]. unfold is_global. rewrite Hg. repeat constructor; try apply Hb; vm_compute; congruence.
  - exists e, e'. exact (conj He E).
Defined.

Lemma estimator_shape_witness :
  ∃ e e' out e'', @newEstimator set_sketch_ops demo_ql 1 0 (demo_stream ["job"%string; labelKeyword]) = Some (Ok e) ∧
    est_run (Xx := demo_hash) e demo_events = Some e' ∧ toSnapshot collect e' [] = Some (out, true, e'').
Proof.
  destruct demo_group as (e & He & _ & _ & Hg & _).
  destruct (estimator_shape (Spec := set_sketch_spec) (Xx := demo_hash) (XxhashOk0 := demo_hash_ok) 1 0
    (demo_stream ["job"%string; labelKeyword]) e demo_events (demo_stream_wf _ _ demo_job_prepared) He)
    as (e' & A' & out & e'' & Xs & E & _ & _ & _ & Eo & _).
  - destruct demo_tss_ok as [Hb Hs]. unfold is_global. rewrite Hg. repeat constructor; try apply Hb; vm_compute; congruence.
  - exists e, e', out, e''. exact (conj He (conj E Eo)).
Defined.

Lemma hash_retained_witness :
  ∃ e e0 e2, @newEstimator set_sketch_ops demo_ql 1 0 (demo_stream []) = Some (Ok e) ∧
    insertMany (Xx := demo_hash) e demo_tss 0 = Some e0 ∧
    est_run (Xx := demo_hash) e0 [EvRotate 0; EvRotate 1; EvInsert demo_tss 1] = Some e2.
Proof.
  destruct demo_global as (e & He & _ & Hf & Hg & _ & _ & Hcf & H).
  destruct (insertMany_run (Xx := demo_hash) (XxhashOk0 := demo_hash_ok) 14 e _ demo_tss 0 H Hf
    (proj1 demo_tss_ok) ltac:(vm_compute; split; congruence)) as (e0 & E0 & Hs & H0 & _ & _).
  assert (filter_total e0) as Hf0 by by eapply same_static_filter.
  set (A0 := abs_inserts _ _ _) in H0.
  assert (∃ CP : bucket_state, A0 !! 1%nat = Some CP ∧ 101 ∈ hashes CP.1 0) as (CP & ECP & Hin).
  { unfold A0, limit_of, is_global, batch_ops, matched_ops. rewrite Hg.
    rewrite Hcf.
    exists ({[ 0 := {[ 101 ]} ]}, ∅). split; [vm_cast_no_check (@eq_refl (option bucket_state) (Some ({[ 0 := {[ 101 ]} ]}, ∅)))|]. apply (bool_decide_eq_true_1 _). vm_compute. reflexivity. }
  destruct (hash_retained (Xx := demo_hash) (XxhashOk0 := demo_hash_ok) 14 e0 A0 1 CP 0 101
    [EvRotate 0] [EvInsert demo_tss 1] H0 Hf0 ECP Hin) as (e1 & A1 & e2 & A2 & _ & _ & _ & E2 & _).
  - assert (length A0 = 4%nat) as -> by (unfold A0; rewrite abs_inserts_length; reflexivity).
    destruct demo_tss_ok as [Hb _]. repeat constructor; try apply Hb; vm_compute; congruence.
  - repeat constructor; discriminate.
  - repeat constructor; discriminate.
  - exists e, e0, e2. exact (conj He (conj E0 E2)).
Defined.

Lemma concurrent_batches_witness :
  ∃ e e'', @newEstimator set_sketch_ops demo_ql 1 0 (demo_stream []) = Some (Ok e) ∧
    insert_step (Ops := set_sketch_ops) (Ql := demo_ql)
      (e, map (thread_ops (Xx := demo_hash) e) [(demo_tss, 1); (demo_tss, 0)])
      (e'', <[1%nat := drop 1 (thread_ops (Xx := demo_hash) e (demo_tss, 0))]>
             (map (thread_ops (Xx := demo_hash) e) [(demo_tss, 1); (demo_tss, 0)])).
Proof.
  destruct demo_global as (e & He & _ & Hf & Hg & _ & _ & Hcf & H).
  destruct (concurrent_batches (Xx := demo_hash) (XxhashOk0 := demo_hash_ok) 14 e _ [(demo_tss, 1); (demo_tss, 0)] e
    (map (thread_ops (Xx := demo_hash) e) [(demo_tss, 1); (demo_tss, 0)]) H) as [Hstep _].
  - destruct demo_tss_ok as [Hb Hs]. repeat constructor; try apply Hb; vm_compute; congruence.
  - intros Hn. unfold is_global in Hn. rewrite Hg in Hn. discriminate Hn.
  - apply rtc_refl.
  - destruct (thread_ops (Xx := demo_hash) e (demo_tss, 0)) as [|ov rest] eqn:E.
    { unfold thread_ops, batch_ops, matched_ops in E. rewrite Hcf, Hg in E. discriminate E. }
    destruct (Hstep 1%nat ov rest) as (e'' & Hs); [simpl; by rewrite E|]. exists e, e''. split; [exact He|].
    rewrite E. exact Hs.
Defined.


Definition demo_turns : list turn :=
  [mkTurn 3 []; mkTurn 11 [(demo_tss, 1)]; mkTurn 21 []; mkTurn 35 []; mkTurn 41 [(demo_tss, 0)];
   mkTurn 51 []; mkTurn 69 []; mkTurn 71 []].

Lemma demo_turns_ok : batches_ok demo_turns.
Proof.
  destruct demo_tss_ok as [Hb Hs]. unfold batches_ok, demo_turns. repeat constructor; try apply Hb; vm_compute; congruence.
Qed.

Lemma runRotation_grid_witness :
  ∃ e r, @newEstimator set_sketch_ops demo_ql 1 0 (demo_stream []) = Some (Ok e) ∧
    runRotation (Xx := demo_hash) 80 e demo_turns = Some r ∧ r_bucketIdx r = 0%nat.
Proof.
  destruct demo_global as (e & He & _ & Hf & _ & _ & Hl & _ & H).
  destruct (runRotation_grid (Xx := demo_hash) (XxhashOk0 := demo_hash_ok) 14 e _ 80 demo_turns 10 H Hf)
    as (_ & r & E & Ei & _).
  - rewrite length_replicate. lia.
  - by rewrite Hl.
  - vm_compute. repeat split; congruence.
  - exact demo_turns_ok.
  - exists e, r. split; [exact He|]. split; [exact E|]. rewrite Ei, length_replicate. reflexivity.
Defined.

Lemma runRotation_window_witness :
  ∃ e r, @newEstimator set_sketch_ops demo_ql 1 0 (demo_stream []) = Some (Ok e) ∧
    runRotation (Xx := demo_hash) 80 e demo_turns = Some r.
Proof.
  destruct demo_global as (e & He & _ & Hf & _ & _ & Hl & _ & H).
  destruct (runRotation_window (Xx := demo_hash) (XxhashOk0 := demo_hash_ok) 14 e _ 80 demo_turns H Hf)
    as (r & A' & E & _).
  - rewrite length_replicate. lia.
  - intros t Ht. repeat (apply elem_of_cons in Ht as [->|Ht]; [vm_compute; congruence|]). by apply elem_of_nil in Ht.
  - exact demo_turns_ok.
  - exists e, r. exact (conj He E).
Defined.

Lemma reset_spec_witness :
  ∃ e, @newEstimator set_sketch_ops demo_ql 1 0 (demo_stream []) = Some (Ok e) ∧ estimator_reset e = None.
Proof.
  destruct demo_global as (e & He & _ & _ & Hg & _ & _ & _ & H). exists e. split; [exact He|].
  pose proof (reset_spec (Xx := demo_hash) (XxhashOk0 := demo_hash_ok) 14 e _ H) as Hr. rewrite decide_True in Hr; [exact Hr|].
  unfold is_global. rewrite Hg. split; [reflexivity|]. intros Hro. inversion Hro as [|? ? Hx]. by apply Hx.
Defined.


Lemma cluster_aggregation_witness :
  ∃ e outs, @newEstimator set_sketch_ops demo_ql 1 0 (demo_stream ["job"%string; labelKeyword]) = Some (Ok e) ∧
    Forall2 (λ node out, ∃ e', toSnapshot collect node.1 [] = Some (out, true, e'))
      [(e, replicate 4 (init_state (is_global e))); (e, replicate 4 (init_state (is_global e)))] outs ∧
    ∃ ss, for_each snapshots_add (mjoin outs) ∅ = Some ss.
Proof.
  destruct demo_group as (e & He & Hid & _ & _ & _ & _ & _ & H).
  destruct (cluster_aggregation (Spec := set_sketch_spec) 14 (e_id e)
    [(e, replicate 4 (init_state (is_global e))); (e, replicate 4 (init_state (is_global e)))])
    as (outs & Houts & Hagg).
  - rewrite Hid. discriminate.
  - discriminate.
  - assert (node_ok 14 (e_id e) (e, replicate 4 (init_state (is_global e)))) as Hn by (split; [exact H|reflexivity]).
    apply Forall_cons; split; [exact Hn|]. apply Forall_cons; split; [exact Hn|constructor].
  - destruct (Hagg (mjoin outs) ltac:(reflexivity)) as (ss & s & E & _).
    exists e, outs. exact (conj He (conj Houts (ex_intro _ ss E))).
Defined.
