(* ===== verification/Churn.v ===== *)
(** * Churn: how much of a group is replaced per interval

    Models app/vmestimator/churn.go without the metrics text: per snapshot id
    and group, a current sketch and the baseline it is compared with; [update],
    [cleanup] and [churnRatio].  Times are nanoseconds. *)
From Stdlib Require Import Ascii String.
From S2P Require Import Prelude GoFloat GoText Config SketchSpec GroupSize Snapshot.
Local Open Scope Z_scope.

(** The snapshot id and the group key. *)
Notation churnKey := (string * Z)%type.

Section Defs.
Context `{Ops : SketchOps} `{Ord : IterOrder}.

Record churnSketch := mkChurnSketch { cs_addedAt : Z; cs_sketch : option sketch }.

Record churnEntry := mkChurnEntry {
  ce_interval : Z;
  ce_filter : string;
  ce_labels : option (gmap string string);
  ce_groupBy : list string;
  ce_values : list string;
  ce_prev : option churnSketch;
  ce_curr : option churnSketch
}.

Definition set_sketches (e : churnEntry) (prev curr : option churnSketch) : churnEntry :=
  mkChurnEntry (ce_interval e) (ce_filter e) (ce_labels e) (ce_groupBy e) (ce_values e) prev curr.

Definition newChurnEntry (s : snapshot) (ssk : SnapshotSketch) : churnEntry :=
  mkChurnEntry (s_Interval s) (s_Filter s)
    (if decide (s_Labels s = ∅) then None else Some (s_Labels s))
    (s_GroupBy s) (ss_Values ssk) None None.

(** [t.Before(now.Add(-d))]. *)
Definition older_than (t now d : Z) : bool := t <? now - d.

(** The entry after the sketch [sk] of its group has been seen at [now]. *)
Definition advance_entry (s : snapshot) (now : Z) (e : churnEntry) (sk : sketch) : option churnEntry :=
  let newSK := mkChurnSketch now (Some (sk_Clone sk)) in
  match ce_curr e with
  | None => Some (set_sketches e (Some (mkChurnSketch now None)) (Some newSK))
  | Some curr =>
      prev ← ce_prev e;
      if older_than (cs_addedAt prev) now (s_Interval s)
      then Some (set_sketches e (Some (mkChurnSketch now (cs_sketch curr))) (Some newSK))
      else Some (set_sketches e (Some prev) (Some newSK))
  end.

Definition update_group (s : snapshot) (now : Z) (entries : gmap churnKey churnEntry) (groupKey : Z)
    : option (gmap churnKey churnEntry) :=
  ssk ← s_Sketches s !! groupKey;
  let k := (s_ID s, groupKey) in
  let e := default (newChurnEntry s ssk) (entries !! k) in
  e ← advance_entry s now e (ss_Sketch ssk);
  Some (<[k := e]> entries).

Definition newChurnSnapshots : gmap churnKey churnEntry := ∅.
Definition churn_update (entries : gmap churnKey churnEntry) (s : snapshot) (now : Z)
    : option (gmap churnKey churnEntry) :=
  if negb (s_CalculateChurn s) then None
  else if s_Interval s =? 0 then None
  else for_each (update_group s now) (iter_keys (dom (s_Sketches s))) entries.

(** [-e.interval * 2] is computed on 64 bits; an entry always has a current
    sketch. *)
Definition entry_stale (now : Z) (e : churnEntry) : Prop :=
  match ce_curr e with
  | Some curr => cs_addedAt curr < now + wrapS 64 (- ce_interval e * 2)
  | None => False
  end.
#[export] Instance entry_stale_dec now e : Decision (entry_stale now e).
Proof. unfold entry_stale. destruct (ce_curr e); apply _. Defined.
Definition churn_cleanup (entries : gmap churnKey churnEntry) (now : Z)
    : option (gmap churnKey churnEntry) :=
  if decide (map_Forall (λ _ e, is_Some (ce_curr e)) entries)
  then Some (filter (λ ke, ¬ entry_stale now ke.2) entries)
  else None.

(** Estimating may rearrange a sketch, so the entry is returned too. *)
Definition churnRatio (e : churnEntry) : option (churnEntry * float64) :=
  prev ← ce_prev e;
  match cs_sketch prev with
  | None => Some (e, float_of_Z 0)
  | Some psk =>
      curr ← ce_curr e;
      csk ← cs_sketch curr;
      '(union, ok) ← sk_Merge (sk_Clone csk) (Some psk);
      if negb ok then Some (e, float_of_Z 0)
      else
        '(_, unionEst) ← sk_Estimate union;
        if unionEst =? 0 then Some (e, float_of_Z 0)
        else
          '(psk, pEst) ← sk_Estimate psk;
          '(csk, cEst) ← sk_Estimate csk;
          let churn := fsub (fsub (float_of_Z (wrap 64 (2 * unionEst))) (float_of_Z pEst)) (float_of_Z cEst) in
          let rate := fdiv churn (float_of_Z unionEst) in
          let e := set_sketches e (Some (mkChurnSketch (cs_addedAt prev) (Some psk)))
                     (Some (mkChurnSketch (cs_addedAt curr) (Some csk))) in
          Some (e, if flt rate (float_of_Z 0) then float_of_Z 0
                   else if flt (float_of_Z 1) rate then float_of_Z 1
                   else rate)
  end.
End Defs.

(** ** The abstract entry

    When the baseline was taken and what it holds (nothing before the first
    replacement), and what is current. *)
Record churn_state := mkChurn { ch_prevAt : Z; ch_prev : option (gset Z); ch_currAt : Z; ch_curr : gset Z }.

Definition churn_next (interval now : Z) (X : gset Z) (st : option churn_state) : churn_state :=
  match st with
  | None => mkChurn now None now X
  | Some st =>
      if older_than (ch_prevAt st) now interval then mkChurn now (Some (ch_curr st)) now X
      else mkChurn (ch_prevAt st) (ch_prev st) now X
  end.

Section Proofs.
Context `{Spec : SketchSpec} `{IterOrderOk}.

Definition entry_repr (p : Z) (st : churn_state) (e : churnEntry) : Prop :=
  ∃ prev curr csk, ce_prev e = Some prev ∧ ce_curr e = Some curr ∧
    cs_addedAt prev = ch_prevAt st ∧ cs_addedAt curr = ch_currAt st ∧
    cs_sketch curr = Some csk ∧ represents p (ch_curr st) csk ∧
    match cs_sketch prev, ch_prev st with
    | None, None => True
    | Some psk, Some P => represents p P psk
    | _, _ => False
    end.

Definition entries_repr (p : Z) (S : gmap churnKey churn_state) (m : gmap churnKey churnEntry) : Prop :=
  ∀ k, match S !! k, m !! k with
       | Some st, Some e => entry_repr p st e
       | None, None => True
       | _, _ => False
       end.

Lemma entries_repr_insert p S m k st e : entries_repr p S m → entry_repr p st e →
  entries_repr p (<[k := st]> S) (<[k := e]> m).
Proof.
  intros HS He k'. destruct (decide (k = k')) as [<-|]; [by rewrite !lookup_insert_eq|].
  rewrite !lookup_insert_ne by done. apply HS.
Qed.

Lemma advance_entry_ok p s now e sk X st :
  (match st with None => ce_curr e = None | Some st => entry_repr p st e end) → represents p X sk →
  ∃ e', advance_entry s now e sk = Some e' ∧ entry_repr p (churn_next (s_Interval s) now X st) e'.
Proof.
  intros He HX. apply Clone_ok in HX. unfold advance_entry. destruct st as [st|]; simpl.
  - destruct He as (prev & curr & csk & Ep & -> & Hpa & Hca & Ecs & Hc & Hp). rewrite Ep. cbn [mbind option_bind].
    rewrite <- Hpa. destruct (older_than _ _ _); (eexists; split; [done|]).
    + eexists _, _, _. split_and!; [done|done|done|done|done|done|]. simpl. by rewrite Ecs.
    + by eexists _, _, _.
  - rewrite He. eexists. split; [done|]. by eexists _, _, _.
Qed.

(** What [update] does to the abstract entries. *)
Definition churn_step (p interval now : Z) (id : string) (F : gmap Z (gset Z))
    (S S' : gmap churnKey churn_state) : Prop :=
  ∀ id' k, S' !! (id', k) =
    match F !! k with
    | Some X => if decide (id' = id) then Some (churn_next interval now X (S !! (id', k))) else S !! (id', k)
    | None => S !! (id', k)
    end.

Lemma update_group_ok p s now F S m k X : groups_repr p F (s_Sketches s) → F !! k = Some X →
  entries_repr p S m →
  ∃ m', update_group s now m k = Some m' ∧
    entries_repr p (<[(s_ID s, k) := churn_next (s_Interval s) now X (S !! (s_ID s, k))]> S) m'.
Proof.
  intros HF E HS. unfold update_group. pose proof (HF k) as Hk. rewrite E in Hk.
  destruct (s_Sketches s !! k) as [ssk|]; [|done]. cbn [mbind option_bind].
  destruct (advance_entry_ok p s now (default (newChurnEntry s ssk) (m !! (s_ID s, k))) (ss_Sketch ssk) X
    (S !! (s_ID s, k))) as (e' & -> & He').
  - specialize (HS (s_ID s, k)). by destruct (S !! _), (m !! _).
  - done.
  - cbn [mbind option_bind]. eexists. split; [done|]. by apply entries_repr_insert.
Qed.

Lemma churn_update_run p s now F S m :
  groups_repr p F (s_Sketches s) → entries_repr p S m → s_CalculateChurn s = true → s_Interval s ≠ 0 →
  ∃ m' S', churn_update m s now = Some m' ∧ entries_repr p S' m' ∧
    churn_step p (s_Interval s) now (s_ID s) F S S'.
Proof.
  intros HF HS Hc Hi. unfold churn_update. rewrite Hc. cbn [negb]. rewrite (proj2 (Z.eqb_neq _ _)) by done.
  destruct (for_each_inv_NoDup (update_group s now)
    (λ dn m', ∃ S', entries_repr p S' m' ∧ churn_step p (s_Interval s) now (s_ID s) (visited dn F) S S')
    (iter_keys (dom (s_Sketches s))) m) as (m' & E & S' & HS' & Hst).
  - apply iter_keys_NoDup.
  - exists S. split; [done|]. intros id' k. by rewrite visited_lookup, decide_False by apply not_elem_of_nil.
  - intros dn k m1 (S1 & HS1 & Hst1) Hk Hdn.
    rewrite iter_keys_elem, (groups_repr_dom p F _ HF), elem_of_dom in Hk. destruct Hk as [X EX].
    destruct (update_group_ok p s now F S1 m1 k X HF EX HS1) as (m2 & E2 & HS2).
    eexists. split; [exact E2|]. eexists. split; [exact HS2|]. intros id' k'. rewrite visited_lookup.
    pose proof (Hst1 id' k') as H1. rewrite visited_lookup in H1.
    destruct (decide ((s_ID s, k) = (id', k'))) as [[= <- <-]|Hne].
    + rewrite lookup_insert_eq, (decide_True (P := k ∈ dn ++ [k])), EX, decide_True
        by (done || (apply elem_of_app; right; by left)).
      rewrite decide_False in H1 by done. by rewrite H1.
    + rewrite lookup_insert_ne, H1 by done. destruct (decide (k' ∈ dn)) as [Hd|Hd].
      { by rewrite (decide_True (P := k' ∈ dn ++ [k])) by (apply elem_of_app; by left). }
      destruct (decide (k' ∈ dn ++ [k])) as [Hd'|]; [|done].
      apply elem_of_app in Hd' as [|Hd'%list_elem_of_singleton]; [done|]. subst k'.
      rewrite EX, decide_False; [done|]. intros ->. by destruct Hne.
  - exists m', S'. split_and!; [done|done|]. intros id' k. rewrite Hst, visited_lookup.
    destruct (decide (k ∈ iter_keys (dom (s_Sketches s)))) as [|Hk]; [done|].
    rewrite iter_keys_elem, (groups_repr_dom p F _ HF), not_elem_of_dom in Hk. by rewrite Hk.
Qed.

(** C40: [update] records each group once.  For a snapshot that asks for churn
    and has an interval it does not panic, and for every group of it the new
    sketch becomes current, while the baseline is replaced by the previous
    current sketch exactly when it is older than the interval (on the first
    sight of a group there is no baseline yet); all other entries are kept.
    Without churn or interval it panics. *)
Theorem churn_update_spec p s now F S m :
  groups_repr p F (s_Sketches s) → entries_repr p S m →
  if decide (s_CalculateChurn s = true ∧ s_Interval s ≠ 0) then
    ∃ m' S', churn_update m s now = Some m' ∧ entries_repr p S' m' ∧
      churn_step p (s_Interval s) now (s_ID s) F S S'
  else churn_update m s now = None.
Proof.
  intros HF HS. destruct (decide _) as [[Hc Hi]|Hn]; [by apply churn_update_run|].
  unfold churn_update. destruct (s_CalculateChurn s); [|done]. cbn [negb].
  destruct (Z.eqb_spec (s_Interval s) 0); [done|]. by destruct Hn.
Qed.

(** A baseline is never older than the interval.  Right after an update at
    time [now] every group of the snapshot has a baseline taken within the
    interval before [now] (if earlier updates were not in the future), and its
    current sketch is the snapshot's. *)
Theorem churn_baseline_age p s now F S m :
  groups_repr p F (s_Sketches s) → entries_repr p S m →
  s_CalculateChurn s = true → 0 < s_Interval s →
  (∀ k st, S !! k = Some st → ch_prevAt st <= now) →
  ∃ m', churn_update m s now = Some m' ∧
    ∀ k X, F !! k = Some X → ∃ e st, m' !! (s_ID s, k) = Some e ∧ entry_repr p st e ∧
      now - s_Interval s <= ch_prevAt st <= now ∧ ch_currAt st = now ∧ ch_curr st = X.
Proof.
  intros HF HS Hc Hi Hpast.
  destruct (churn_update_run p s now F S m HF HS Hc ltac:(lia)) as (m' & S' & E & HS' & Hst).
  exists m'. split; [done|]. intros k X EX. pose proof (Hst (s_ID s) k) as Hk.
  rewrite EX, decide_True in Hk by done. pose proof (HS' (s_ID s, k)) as He. rewrite Hk in He.
  destruct (m' !! (s_ID s, k)) as [e|]; [|done]. eexists e, _. split_and!; [done|exact He|..];
    unfold churn_next, older_than; destruct (S !! (s_ID s, k)) as [st|] eqn:Es; simpl; try lia; try done.
  all: pose proof (Hpast _ _ Es); destruct (Z.ltb_spec (ch_prevAt st) (now - s_Interval s)); simpl; try lia; done.
Qed.

(** [cleanup] keeps exactly the groups updated within twice their
    interval; it does not panic, for every entry has a current sketch. *)
Theorem churn_cleanup_spec p S m now :
  entries_repr p S m → (∀ k e, m !! k = Some e → 0 <= ce_interval e < 2 ^ 62) →
  ∃ m', churn_cleanup m now = Some m' ∧
    ∀ k, m' !! k = match m !! k, S !! k with
                   | Some e, Some st =>
                       if decide (now - 2 * ce_interval e <= ch_currAt st) then Some e else None
                   | _, _ => None
                   end.
Proof.
  intros HS Hint. unfold churn_cleanup. rewrite decide_True.
  2: { intros k e E. specialize (HS k). rewrite E in HS. destruct (S !! k); [|done].
       destruct HS as (? & curr & ? & _ & -> & _). eauto. }
  eexists. split; [done|]. intros k. specialize (HS k). rewrite map_lookup_filter.
  destruct (m !! k) as [e|] eqn:E, (S !! k) as [st|]; try done. simpl.
  destruct HS as (prev & curr & csk & _ & Ec & _ & Hca & _).
  assert (¬ entry_stale now e ↔ now - 2 * ce_interval e <= ch_currAt st) as Hiff.
  { unfold entry_stale. rewrite Ec, Hca. specialize (Hint k e E).
    rewrite wrapS_small by (unfold sint; lia). lia. }
  destruct (decide (now - 2 * ce_interval e <= ch_currAt st)) as [Hk|Hk].
  - rewrite option_guard_True by (by apply Hiff). done.
  - rewrite option_guard_False by (intros Hn; by apply Hk, Hiff). done.
Qed.

(** The churn ratio is well defined.  For an entry that [update] has seen,
    [churnRatio] does not panic, leaves what the entry stands for unchanged,
    and is neither below 0 nor above 1; it is 0 while there is no baseline. *)
Theorem churnRatio_spec p st e : entry_repr p st e →
  ∃ e' r, churnRatio e = Some (e', r) ∧ entry_repr p st e' ∧
    flt r (float_of_Z 0) = false ∧ flt (float_of_Z 1) r = false ∧
    (ch_prev st = None → r = float_of_Z 0).
Proof.
  intros He. pose proof He as (prev & curr & csk & Ep & Ec & Hpa & Hca & Ecs & Hc & Hp).
  unfold churnRatio. rewrite Ep. cbn [mbind option_bind].
  destruct (cs_sketch prev) as [psk|] eqn:Eps; [|by exists e, (float_of_Z 0)].
  destruct (ch_prev st) as [P|] eqn:Ech; [|done]. rewrite Ec. cbn [mbind option_bind]. rewrite Ecs. cbn [mbind option_bind].
  destruct (Merge_ok p _ _ _ psk (Clone_ok p _ csk Hc) Hp) as (un & -> & Hun). cbn [mbind option_bind negb].
  destruct (Estimate_ok p _ un Hun) as (un' & nu & -> & _ & _). cbn [mbind option_bind].
  destruct (nu =? 0); [by exists e, (float_of_Z 0)|].
  destruct (Estimate_ok p _ psk Hp) as (psk' & np & -> & Hp' & _). cbn [mbind option_bind].
  destruct (Estimate_ok p _ csk Hc) as (csk' & nc & -> & Hc' & _). cbn [mbind option_bind].
  set (rate := fdiv _ _). do 2 eexists. split; [done|]. split.
  - eexists _, _, _. split_and!; simpl; [done|done|done|done|done|done|]. by rewrite Ech.
  - destruct (flt rate (float_of_Z 0)) eqn:E0; [done|]. destruct (flt (float_of_Z 1) rate) eqn:E1; done.
Qed.

(** ** Entries of any origin

    Entries of different streams have different precisions, and a peer may
    send a stream with another precision than before; nothing of that panics. *)
Record entry_sound (e : churnEntry) : Prop := {
  es_prev : ∃ prev, ce_prev e = Some prev ∧ ∀ sk, cs_sketch prev = Some sk → sketch_sound sk;
  es_curr : ∃ curr sk, ce_curr e = Some curr ∧ cs_sketch curr = Some sk ∧ sketch_sound sk;
  es_values : length (ce_values e) = length (ce_groupBy e)
}.
Definition entries_sound (m : gmap churnKey churnEntry) : Prop := map_Forall (λ _, entry_sound) m.

Lemma entries_sound_insert m k e : entries_sound m → entry_sound e → entries_sound (<[k := e]> m).
Proof. intros Hm He. by apply map_Forall_insert_2. Qed.

Lemma advance_entry_sound s now e sk : sketch_sound sk → length (ce_values e) = length (ce_groupBy e) →
  entry_sound e ∨ ce_curr e = None →
  ∃ e', advance_entry s now e sk = Some e' ∧ entry_sound e'.
Proof.
  intros Hsk Hv He. apply Clone_sound in Hsk. unfold advance_entry. destruct He as [[(prev & Ep & Hp) (curr & csk & Ec & Ecs & Hc) _]| ->].
  - rewrite Ec, Ep. cbn [mbind option_bind]. destruct (older_than _ _ _); (eexists; split; [done|]); split; simpl; eauto 6.
    eexists. split; [done|]. simpl. rewrite Ecs. by intros ? [= <-].
  - eexists. split; [done|]. split; simpl; [|eauto 6|done]. eexists. split; [done|]. by simpl.
Qed.

Lemma churn_update_sound m s now : entries_sound m → groups_sound (s_Sketches s) →
  map_Forall (λ _ ssk, length (ss_Values ssk) = length (s_GroupBy s)) (s_Sketches s) →
  s_CalculateChurn s = true → s_Interval s ≠ 0 →
  ∃ m', churn_update m s now = Some m' ∧ entries_sound m'.
Proof.
  intros Hm Hs Hv Hc Hi. unfold churn_update. rewrite Hc, (proj2 (Z.eqb_neq _ _)) by done. cbn [negb].
  apply (for_each_inv (update_group s now) (λ _, entries_sound)); [done|].
  intros _ k m1 Hm1 Hk. rewrite iter_keys_elem in Hk. apply elem_of_dom in Hk as [ssk E].
  unfold update_group. rewrite E. cbn [mbind option_bind].
  destruct (advance_entry_sound s now (default (newChurnEntry s ssk) (m1 !! (s_ID s, k))) (ss_Sketch ssk)) as (e' & -> & He').
  - by apply (Hs k).
  - destruct (m1 !! (s_ID s, k)) as [e|] eqn:Ee; simpl; [by apply (Hm1 _ _ Ee)|by apply (Hv k)].
  - destruct (m1 !! (s_ID s, k)) as [e|] eqn:Ee; simpl; [left; by apply (Hm1 _ _ Ee)|by right].
  - cbn [mbind option_bind]. eexists. split; [done|]. by apply entries_sound_insert.
Qed.

Lemma churn_cleanup_sound m now : entries_sound m →
  ∃ m', churn_cleanup m now = Some m' ∧ entries_sound m' ∧ m' ⊆ m.
Proof.
  intros Hm. unfold churn_cleanup. rewrite decide_True.
  - eexists. split; [done|]. split; [|apply map_filter_subseteq]. intros k e [Hk _]%map_lookup_filter_Some. by apply (Hm k).
  - intros k e Hk. destruct (Hm k e Hk) as [_ (curr & ? & -> & _) _]. eauto.
Qed.

Lemma churnRatio_sound e : entry_sound e →
  ∃ e' r, churnRatio e = Some (e', r) ∧ entry_sound e' ∧ flt r (float_of_Z 0) = false ∧ flt (float_of_Z 1) r = false.
Proof.
  intros He. pose proof He as [(prev & Ep & Hp) (curr & csk & Ec & Ecs & Hc) Hv].
  unfold churnRatio. rewrite Ep. cbn [mbind option_bind].
  destruct (cs_sketch prev) as [psk|] eqn:Eps; [|by exists e, (float_of_Z 0)]. specialize (Hp psk eq_refl).
  rewrite Ec. cbn [mbind option_bind]. rewrite Ecs. cbn [mbind option_bind].
  destruct (Merge_sound _ psk (Clone_sound csk Hc) Hp) as (un & ok & -> & Hun). cbn [mbind option_bind].
  destruct ok; [|by exists e, (float_of_Z 0)]. cbn [negb].
  destruct (Estimate_sound un Hun) as (un' & nu & -> & _). cbn [mbind option_bind].
  destruct (nu =? 0); [by exists e, (float_of_Z 0)|].
  destruct (Estimate_sound psk Hp) as (psk' & np & -> & Hp'). cbn [mbind option_bind].
  destruct (Estimate_sound csk Hc) as (csk' & nc & -> & Hc'). cbn [mbind option_bind].
  set (rate := fdiv _ _). do 2 eexists. split; [done|]. split.
  - split; simpl; [|eauto 6|done]. eexists. split; [done|]. simpl. by intros ? [= <-].
  - destruct (flt rate (float_of_Z 0)) eqn:E0; [done|]. destruct (flt (float_of_Z 1) rate) eqn:E1; done.
Qed.
End Proofs.

(** ** Concrete runs *)
Definition demo_churn (id : string) (h : Z) : @snapshot set_sketch_ops :=
  @mkSnapshot set_sketch_ops id 60 true ∅ EmptyString [] 0 0 0 {[ 0 := @mkSSK set_sketch_ops [] (14, {[h]}) ]}.

Lemma demo_churn_repr id h :
  groups_repr (Spec := set_sketch_spec) 14 {[ 0 := {[h]} ]} (s_Sketches (demo_churn id h)).
Proof.
  apply (groups_repr_insert (Spec := set_sketch_spec) 14 ∅ ∅ 0 {[h]} (@mkSSK set_sketch_ops [] (14, {[h]})));
    [apply groups_repr_empty|done].
Qed.

Lemma entries_repr_empty : entries_repr (Spec := set_sketch_spec) 14 ∅ ∅.
Proof. intros k. by rewrite !lookup_empty. Qed.

Lemma churn_update_spec_witness :
  ∃ m', churn_update ∅ (demo_churn "g" 5) 1000 = Some m' ∧ is_Some (m' !! ("g"%string, 0)).
Proof.
  pose proof (churn_update_spec (Spec := set_sketch_spec) 14 (demo_churn "g" 5) 1000 {[ 0 := {[5]} ]} ∅ ∅
    (demo_churn_repr "g" 5) entries_repr_empty) as H.
  rewrite decide_True in H by (split; [reflexivity|discriminate]).
  destruct H as (m' & S' & E & HS' & Hst). exists m'. split; [exact E|].
  specialize (Hst "g"%string 0). rewrite lookup_singleton_eq, decide_True in Hst by reflexivity.
  specialize (HS' ("g"%string, 0)). rewrite Hst in HS'. destruct (m' !! _); [eauto|destruct HS'].
Defined.

Lemma churn_baseline_age_witness :
  ∃ m' e, churn_update ∅ (demo_churn "g" 5) 1000 = Some m' ∧ m' !! ("g"%string, 0) = Some e.
Proof.
  destruct (churn_baseline_age (Spec := set_sketch_spec) 14 (demo_churn "g" 5) 1000 {[ 0 := {[5]} ]} ∅ ∅
    (demo_churn_repr "g" 5) entries_repr_empty) as (m' & E & H).
  - reflexivity.
  - reflexivity.
  - intros k st Hk. rewrite lookup_empty in Hk. discriminate Hk.
  - destruct (H 0 {[5]} (lookup_singleton_eq 0 {[5]})) as (e & st & Ee & _). exists m', e. exact (conj E Ee).
Defined.

Definition demo_entry : @churnEntry set_sketch_ops :=
  @mkChurnEntry set_sketch_ops 60 EmptyString None [] []
    (Some (@mkChurnSketch set_sketch_ops 900 (Some (14, {[5; 6]}))))
    (Some (@mkChurnSketch set_sketch_ops 1000 (Some (14, {[6; 7]})))).

Definition demo_state : churn_state := mkChurn 900 (Some {[5; 6]}) 1000 {[6; 7]}.

Lemma demo_entry_repr : entry_repr (Spec := set_sketch_spec) 14 demo_state demo_entry.
Proof. eexists _, _, _. split_and!; reflexivity. Qed.

Lemma churn_cleanup_spec_witness :
  ∃ m', churn_cleanup {[ ("g"%string, 0) := demo_entry ]} 1100 = Some m' ∧ m' !! ("g"%string, 0) = Some demo_entry.
Proof.
  destruct (churn_cleanup_spec (Spec := set_sketch_spec) 14 {[ ("g"%string, 0) := demo_state ]}
    {[ ("g"%string, 0) := demo_entry ]} 1100) as (m' & E & H).
  - intros k. destruct (decide (("g"%string, 0) = k)) as [<-|Hne].
    + rewrite !lookup_singleton_eq. exact demo_entry_repr.
    + rewrite !lookup_singleton_ne by exact Hne. exact I.
  - intros k e [_ <-]%lookup_singleton_Some. vm_compute. split; congruence.
  - exists m'. split; [exact E|]. rewrite H, !lookup_singleton_eq. rewrite decide_True by (vm_compute; congruence). reflexivity.
Defined.

(** Half of the union of [{5, 6}] and [{6, 7}] has changed: 2 of 3. *)
Lemma churnRatio_spec_witness :
  ∃ e' r, churnRatio demo_entry = Some (e', r) ∧ flt (float_of_Z 1) r = false ∧
    r = fdiv (float_of_Z 2) (float_of_Z 3).
Proof.
  destruct (churnRatio_spec (Spec := set_sketch_spec) 14 demo_state demo_entry demo_entry_repr)
    as (e' & r & E & _ & _ & H1 & _).
  exists e', r. split; [exact E|]. split; [exact H1|]. 
  assert (snd <$> churnRatio demo_entry = Some (fdiv (float_of_Z 2) (float_of_Z 3))) as E2
    by vm_cast_no_check (@eq_refl (option float64) (Some (fdiv (float_of_Z 2) (float_of_Z 3)))).
  rewrite E in E2. exact (f_equal (default r) E2).
Defined.
