(* ===== verification/ProtoReader.v ===== *)
(** * ProtoReader: reading protobuf fields

    Models [Uvarint] of encoding/binary and [NextField], [MessageData] and
    [Bytes] of vendor/github.com/VictoriaMetrics/easyproto/reader.go, and shows
    that [NextField] inverts the protobuf encoding of a field. *)
From Stdlib Require Import Ascii String.
From S2P Require Import Prelude CompressedList.
Local Open Scope Z_scope.

(** The bytes of a string value, as [bytesutil.ToUnsafeString] reads them. *)
Definition ToUnsafeString (bs : byte_list) : string :=
  String.string_of_list_ascii (map (λ b, Ascii.ascii_of_N (Z.to_N b)) bs).

(** [binary.Uvarint]: the value and the bytes read; 0 bytes when the buffer is
    too short, a negative number on overflow. *)
Fixpoint Uvarint_loop (buf : byte_list) (i x s : Z) : Z * Z :=
  match buf with
  | [] => (0, 0)
  | b :: buf' =>
      if i =? 10 then (0, - (i + 1))
      else if b <? 0x80 then
        if (i =? 9) && (1 <? b) then (0, - (i + 1)) else (x .| (b <<[64] s), i + 1)
      else Uvarint_loop buf' (i + 1) (x .| ((b .& 0x7f) <<[64] s)) (s + 7)
  end.
Definition Uvarint (buf : byte_list) : Z * Z := Uvarint_loop buf 0 0 0.

(** The little-endian number of some bytes. *)
Definition LittleEndian (bs : byte_list) : Z := foldr (λ b acc, b .| Z.shiftl acc 8) 0 bs.

(** [copy(mem[k:], b)]: the memory afterwards and the bytes copied. *)
Definition copy_at (k : nat) (mem b : byte_list) : byte_list * nat :=
  let c := Nat.min (length mem - k) (length b) in
  (take k mem ++ take c b ++ drop (k + c) mem, c).

Definition wireTypeVarint : Z := 0.
Definition wireTypeI64 : Z := 1.
Definition wireTypeLen : Z := 2.
Definition wireTypeI32 : Z := 5.

Record FieldContext := mkFC {
  fc_FieldNum : Z;
  fc_wireType : Z;
  fc_data : byte_list;
  fc_intValue : Z
}.
Definition zero_FieldContext : FieldContext := mkFC 0 0 [] 0.

(** The first [n] bytes of a buffer known to be that long. *)
Definition upto (n : Z) (src : byte_list) : byte_list := take (Z.to_nat n) src.
Definition zlength (src : byte_list) : Z := Z.of_nat (length src).

(** The condition of the fast path on [n = src[0]<<8 | src[1]]. *)
Definition short_message (n : Z) : bool :=
  (n .& 0x8080 =? 0) && (n .& 0x0700 =? Z.shiftl wireTypeLen 8).

Definition NextField_short (fc : FieldContext) (n : Z) (src : byte_list)
    : option (result (FieldContext * byte_list)) :=
  let msgLen := n .& 0xff in
  if zlength src <? msgLen then Some (Error "cannot read field")
  else
    data ← slice_to msgLen src;
    src ← slice_from msgLen src;
    Some (Ok (mkFC (n >> 11) wireTypeLen data (fc_intValue fc), src)).

(** The field tag: the field number, the wire type and the tail. *)
Definition read_tag (src : byte_list) : option (result (Z * Z * byte_list)) :=
  if zlength src =? 0 then Some (Error "cannot unmarshal field from empty message")
  else
    tag ← src !! 0%nat;
    if tag <? 0x80 then
      src ← slice_from 1 src;
      Some (Ok (tag >> 3, tag .& 0x07, src))
    else
      let '(tag, offset) := Uvarint src in
      if offset <=? 0 then Some (Error "cannot unmarshal field tag from uvarint")
      else
        src ← slice_from offset src;
        if 2 ^ 32 - 1 <? tag >> 3 then Some (Error "fieldNum is bigger than uint32max")
        else Some (Ok (tag >> 3, tag .& 0x07, src)).

(** [binary.LittleEndian.Uint64] (8 bytes) and [Uint32] (4), which panic on a
    shorter slice. *)
Definition LittleEndian_Uint (n : Z) (src : byte_list) : option Z := LittleEndian <$> slice_to n src.

(** The value after a tag. *)
Definition read_value (fc : FieldContext) (fieldNum wt : Z) (src : byte_list)
    : option (result (FieldContext * byte_list)) :=
  if wt =? wireTypeLen then
    let '(u64, offset) := Uvarint src in
    if offset <=? 0 then Some (Error "cannot read message length")
    else
      src ← slice_from offset src;
      if zlength src <? u64 then Some (Error "cannot read data for field")
      else
        data ← slice_to u64 src;
        src ← slice_from u64 src;
        Some (Ok (mkFC fieldNum wt data (fc_intValue fc), src))
  else if wt =? wireTypeVarint then
    let '(u64, offset) := Uvarint src in
    if offset <=? 0 then Some (Error "cannot read varint after field tag")
    else
      src ← slice_from offset src;
      Some (Ok (mkFC fieldNum wt (fc_data fc) u64, src))
  else if wt =? wireTypeI64 then
    if zlength src <? 8 then Some (Error "cannot read i64")
    else
      u64 ← LittleEndian_Uint 8 src;
      src ← slice_from 8 src;
      Some (Ok (mkFC fieldNum wt (fc_data fc) u64, src))
  else if wt =? wireTypeI32 then
    if zlength src <? 4 then Some (Error "cannot read i32")
    else
      u32 ← LittleEndian_Uint 4 src;
      src ← slice_from 4 src;
      Some (Ok (mkFC fieldNum wt (fc_data fc) u32, src))
  else Some (Error "unknown wireType").

Definition NextField_slow (fc : FieldContext) (src : byte_list) : option (result (FieldContext * byte_list)) :=
  r ← read_tag src;
  match r with
  | Error e => Some (Error e)
  | Ok (fieldNum, wt, src) => read_value fc fieldNum wt src
  end.

(** [None] is an index or a slice out of range. *)
Definition NextField (fc : FieldContext) (src : byte_list) : option (result (FieldContext * byte_list)) :=
  if 2 <=? zlength src then
    b0 ← src !! 0%nat;
    b1 ← src !! 1%nat;
    let n := (b0 <<[16] 8) .| b1 in
    if short_message n then
      src ← slice_from 2 src;
      NextField_short fc n src
    else NextField_slow fc src
  else NextField_slow fc src.

(** [Bytes] and [MessageData]: [None] is the second result [false]. *)
Definition fc_Bytes (fc : FieldContext) : option byte_list :=
  if fc_wireType fc =? wireTypeLen then Some (fc_data fc) else None.
Definition fc_MessageData (fc : FieldContext) : option byte_list := fc_Bytes fc.

(** ** The protobuf encoding *)
Fixpoint put_uvarint (fuel : nat) (v : Z) : byte_list :=
  match fuel with
  | O => []
  | S fuel => if v <? 128 then [v] else (v mod 128 + 128) :: put_uvarint fuel (v / 128)
  end.
Definition encode_uvarint (v : Z) : byte_list := put_uvarint 10 v.

Fixpoint le_bytes (n : nat) (v : Z) : byte_list :=
  match n with O => [] | S n => v mod 256 :: le_bytes n (v / 256) end.

Inductive payload := PVarint (v : Z) | PI64 (v : Z) | PLen (data : byte_list) | PI32 (v : Z).

Definition wire_type (pl : payload) : Z :=
  match pl with PVarint _ => 0 | PI64 _ => 1 | PLen _ => 2 | PI32 _ => 5 end.
Definition encode_payload (pl : payload) : byte_list :=
  match pl with
  | PVarint v => encode_uvarint v
  | PI64 v => le_bytes 8 v
  | PLen data => encode_uvarint (zlength data) ++ data
  | PI32 v => le_bytes 4 v
  end.
Definition payload_ok (pl : payload) : Prop :=
  match pl with
  | PVarint v => uint 64 v
  | PI64 v => uint 64 v
  | PLen data => uint 64 (zlength data)
  | PI32 v => uint 32 v
  end.
Definition encode_field (num : Z) (pl : payload) : byte_list :=
  encode_uvarint (num * 8 + wire_type pl) ++ encode_payload pl.

Lemma Uvarint_step s v x : 0 <= s → 0 <= v →
  (x .| ((v mod 128) <<[64] s)) .| ((v / 128) <<[64] (s + 7)) = x .| (v <<[64] s).
Proof.
  intros Hs Hv. change 128 with (2 ^ 7). rewrite <- land_low, <- shr_div by lia. gobits.
Qed.

Lemma Uvarint_loop_put fuel v rest i x s : s = 7 * i → 0 <= i <= 9 → 0 <= v < 2 ^ (64 - s) →
  v < 2 ^ (7 * Z.of_nat fuel) → (0 < fuel)%nat →
  Uvarint_loop (put_uvarint fuel v ++ rest) i x s = (x .| (v <<[64] s), i + zlength (put_uvarint fuel v)).
Proof.
  revert v i x s. induction fuel as [|n IH]; intros v i x s Es Hi Hv Hf Hn; [lia|].
  cbn [put_uvarint]. destruct (Z.ltb_spec v 128) as [H|H]; cbn [app Uvarint_loop];
    (rewrite (proj2 (Z.eqb_neq i 10)) by lia).
  - rewrite (proj2 (Z.ltb_lt v _)) by lia.
    assert ((i =? 9) && (1 <? v) = false) as ->; [|done].
    destruct (Z.eqb_spec i 9) as [->|]; [|done]. subst s. simpl. apply Z.ltb_ge. simpl in Hv. lia.
  - rewrite (proj2 (Z.ltb_ge _ _)) by (pose proof (Z.mod_pos_bound v 128); lia).
    assert (i <= 8) as Hi8.
    { destruct (decide (i = 9)) as [->|]; [|lia]. subst s. simpl in Hv. lia. }
    replace (2 ^ (64 - s)) with (2 ^ (64 - (s + 7)) * 128) in Hv.
    2: { change 128 with (2 ^ 7). rewrite <- Z.pow_add_r by lia. f_equal. lia. }
    destruct n as [|n]; [simpl in Hf; lia|].
    assert ((v mod 128 + 128) .& 0x7f = v mod 128) as ->.
    { change 0x7f with (2 ^ 7 - 1). rewrite land_low by lia. change (2 ^ 7) with 128.
      rewrite Z.add_mod, Z.mod_same, Z.add_0_r by lia. by rewrite !Z.mod_mod by lia. }
    rewrite IH; [|lia|lia|split; [apply Z.div_pos; lia|apply Z.div_lt_upper_bound; lia]| |lia].
    + rewrite Uvarint_step by lia. f_equal. unfold zlength. simpl length. lia.
    + replace (7 * Z.of_nat (S (S n))) with (7 + 7 * Z.of_nat (S n)) in Hf by lia.
      rewrite Z.pow_add_r in Hf by lia. apply Z.div_lt_upper_bound; [lia|]. done.
Qed.

Lemma Uvarint_encode v rest : uint 64 v → Uvarint (encode_uvarint v ++ rest) = (v, zlength (encode_uvarint v)).
Proof.
  intros Hv. unfold Uvarint, encode_uvarint. rewrite Uvarint_loop_put; try lia.
  - by rewrite Z.shiftl_0_r, Z.lor_0_l, wrap_small.
  - done.
  - destruct Hv. simpl. lia.
Qed.

Lemma put_uvarint_pos n v : (0 < length (put_uvarint (S n) v))%nat.
Proof. simpl. destruct (_ <? _); simpl; lia. Qed.
Lemma encode_uvarint_pos v : 0 < zlength (encode_uvarint v).
Proof. pose proof (put_uvarint_pos 9 v). unfold zlength, encode_uvarint. lia. Qed.

Lemma zlength_app a b : zlength (a ++ b) = zlength a + zlength b.
Proof. unfold zlength. rewrite length_app. lia. Qed.
Lemma le_bytes_length n v : zlength (le_bytes n v) = Z.of_nat n.
Proof. unfold zlength. f_equal. revert v. induction n; intros v; simpl; auto. Qed.
Lemma from_le_bytes n m v rest : Z.of_nat n = m → slice_from m (le_bytes n v ++ rest) = Some rest.
Proof. intros <-. rewrite <- (le_bytes_length n v) at 1. apply slice_from_app. Qed.
Lemma to_le_bytes n m v rest : Z.of_nat n = m → slice_to m (le_bytes n v ++ rest) = Some (le_bytes n v).
Proof. intros <-. rewrite <- (le_bytes_length n v) at 1. apply slice_to_app. Qed.
Lemma from_varint v rest : slice_from (zlength (encode_uvarint v)) (encode_uvarint v ++ rest) = Some rest.
Proof. apply slice_from_app. Qed.

(** Little-endian numbers and their bytes. *)
Lemma LittleEndian_cons b bs : uint 8 b → LittleEndian (b :: bs) = LittleEndian bs * 256 + b.
Proof.
  intros Hb. unfold LittleEndian. cbn [foldr]. rewrite Z.lor_comm, Z.shiftl_mul_pow2 by lia.
  by rewrite (lor_low _ _ 8) by (done || lia).
Qed.
Lemma LittleEndian_range bs : Forall (uint 8) bs → 0 <= LittleEndian bs < 2 ^ (8 * zlength bs).
Proof.
  induction 1 as [|b bs Hb _ IH]; [unfold zlength; simpl; lia|]. rewrite LittleEndian_cons by done.
  replace (8 * zlength (b :: bs)) with (8 + 8 * zlength bs) by (unfold zlength; simpl length; lia).
  rewrite Z.pow_add_r by (unfold zlength; lia). unfold uint in Hb. lia.
Qed.
Lemma le_bytes_LittleEndian bs : Forall (uint 8) bs → le_bytes (length bs) (LittleEndian bs) = bs.
Proof.
  induction 1 as [|b bs Hb _ IH]; [done|]. rewrite LittleEndian_cons by done. cbn [length le_bytes].
  rewrite mod_mul_add, div_mul_add by (done || lia). by rewrite IH.
Qed.
Lemma LittleEndian_le_bytes n v : 0 <= v < 2 ^ (8 * Z.of_nat n) → LittleEndian (le_bytes n v) = v.
Proof.
  revert v. induction n as [|n IH]; intros v Hv; [simpl in *; lia|]. cbn [le_bytes].
  rewrite LittleEndian_cons by (apply Z.mod_pos_bound; lia). rewrite IH; [pose proof (Z.div_mod v 256); lia|].
  replace (8 * Z.of_nat (S n)) with (8 * Z.of_nat n + 8) in Hv by lia. rewrite Z.pow_add_r in Hv by lia.
  split; [apply Z.div_pos; lia|apply Z.div_lt_upper_bound; lia].
Qed.

(** What a field reads as; the integer values are not used by the parser. *)
Definition reads_as (num : Z) (pl : payload) (fc : FieldContext) : Prop :=
  fc_FieldNum fc = num ∧ fc_wireType fc = wire_type pl ∧
  match pl with PLen data => fc_data fc = data | _ => True end.

Lemma read_value_encode fc num pl rest : payload_ok pl →
  ∃ fc', read_value fc num (wire_type pl) (encode_payload pl ++ rest) = Some (Ok (fc', rest)) ∧ reads_as num pl fc'.
Proof.
  intros Hok. unfold read_value, reads_as. destruct pl as [v|v|data|v]; simpl in Hok; unfold wireTypeLen, wireTypeVarint, wireTypeI64, wireTypeI32;
    cbn [wire_type encode_payload Z.eqb Pos.eqb].
  - change (0 =? wireTypeLen) with false. change (0 =? wireTypeVarint) with true. cbv iota.
    rewrite Uvarint_encode by done. pose proof (encode_uvarint_pos v).
    rewrite (proj2 (Z.leb_gt _ 0)) by done. rewrite from_varint. eexists. split; [done|]. done.
  - rewrite zlength_app, le_bytes_length, (proj2 (Z.ltb_ge _ _)) by (unfold zlength; lia).
    unfold LittleEndian_Uint. rewrite to_le_bytes, from_le_bytes by done. eexists. split; [done|]. done.
  - rewrite <- !app_assoc, Uvarint_encode by done.
    pose proof (encode_uvarint_pos (zlength data)). rewrite (proj2 (Z.leb_gt _ 0)) by done.
    rewrite from_varint. cbn [mbind option_bind]. rewrite zlength_app, (proj2 (Z.ltb_ge _ _)) by (unfold zlength; lia).
    unfold zlength. rewrite slice_to_app, slice_from_app. eexists. split; [done|]. done.
  - rewrite zlength_app, le_bytes_length, (proj2 (Z.ltb_ge _ _)) by (unfold zlength; lia).
    unfold LittleEndian_Uint. rewrite to_le_bytes, from_le_bytes by done. eexists. split; [done|]. done.
Qed.

(** The tag of a message that starts with a byte, and the two paths. *)
Lemma read_tag_cons b src : read_tag (b :: src) =
  if b <? 0x80 then Some (Ok (b >> 3, b .& 0x07, src))
  else let '(tag, offset) := Uvarint (b :: src) in
    if offset <=? 0 then Some (Error "cannot unmarshal field tag from uvarint")
    else src ← slice_from offset (b :: src);
      if 2 ^ 32 - 1 <? tag >> 3 then Some (Error "fieldNum is bigger than uint32max")
      else Some (Ok (tag >> 3, tag .& 0x07, src)).
Proof.
  unfold read_tag. rewrite (proj2 (Z.eqb_neq _ 0)) by (unfold zlength; simpl; lia). cbn [lookup list_lookup mbind option_bind].
  destruct (b <? 0x80); [|done]. by rewrite slice_from_ok by (simpl; lia).
Qed.

Lemma NextField_long fc b0 b1 src : NextField fc (b0 :: b1 :: src) =
  let n := (b0 <<[16] 8) .| b1 in
  if short_message n then NextField_short fc n src else NextField_slow fc (b0 :: b1 :: src).
Proof.
  unfold NextField. rewrite (proj2 (Z.leb_le _ _)) by (unfold zlength; simpl; lia). cbn [lookup list_lookup mbind option_bind].
  cbv zeta. destruct (short_message _); [|done]. by rewrite slice_from_ok by (simpl; lia).
Qed.

Lemma NextField_small fc src : (length src < 2)%nat → NextField fc src = NextField_slow fc src.
Proof. intros H. unfold NextField. by rewrite (proj2 (Z.leb_gt _ _)) by (unfold zlength; lia). Qed.

Lemma wire_type_range pl : 0 <= wire_type pl < 8.
Proof. destruct pl; simpl; lia. Qed.

Lemma tag_parts num wt : 0 <= num → 0 <= wt < 8 → (num * 8 + wt) >> 3 = num ∧ (num * 8 + wt) .& 0x07 = wt.
Proof.
  intros Hn Hw. change 0x07 with (2 ^ 3 - 1). rewrite shr_div, land_low by lia. change (2 ^ 3) with 8.
  split; [by apply div_mul_add; lia|by apply mod_mul_add].
Qed.

Lemma read_tag_encode num wt rest : 0 <= num < 2 ^ 32 → 0 <= wt < 8 →
  read_tag (encode_uvarint (num * 8 + wt) ++ rest) = Some (Ok (num, wt, rest)).
Proof.
  intros Hn Hw. destruct (tag_parts num wt) as [E1 E2]; [lia|done|].
  pose proof (Uvarint_encode (num * 8 + wt) rest ltac:(unfold uint; lia)) as HU.
  pose proof (encode_uvarint_pos (num * 8 + wt)) as Hpos.
  pose proof (from_varint (num * 8 + wt) rest) as Hfrom.
  assert (encode_uvarint (num * 8 + wt) = if num * 8 + wt <? 128 then [num * 8 + wt] else
    ((num * 8 + wt) mod 128 + 128) :: put_uvarint 9 ((num * 8 + wt) / 128)) as Eenc by reflexivity.
  destruct (Z.ltb_spec (num * 8 + wt) 128) as [H|H].
  - rewrite Eenc. cbn [app]. rewrite read_tag_cons, (proj2 (Z.ltb_lt _ _)) by done. by rewrite E1, E2.
  - rewrite Eenc in *. cbn [app] in *. rewrite read_tag_cons. set (b := _ mod _ + _) in *.
    rewrite (proj2 (Z.ltb_ge b 0x80)) by (subst b; pose proof (Z.mod_pos_bound (num * 8 + wt) 128); lia).
    rewrite HU, (proj2 (Z.leb_gt _ 0)) by done. rewrite Hfrom. cbn [mbind option_bind].
    by rewrite E1, E2, (proj2 (Z.ltb_ge _ _)) by lia.
Qed.

(** ** The fast path agrees *)
Definition byte_pairs : list (Z * Z) :=
  mjoin (map (λ a, map (λ b, (Z.of_nat a, Z.of_nat b)) (seq 0 256)) (seq 0 256)).
Lemma short_message_table :
  forallb (λ '(a, b), let n := (a <<[16] 8) .| b in
    Bool.eqb (short_message n) ((a <? 128) && (b <? 128) && (a .& 0x07 =? 2)) &&
    (n >> 11 =? a >> 3) && (n .& 0xff =? b)) byte_pairs = true.
Proof. vm_compute. reflexivity. Qed.

Lemma byte_pairs_elem a b : uint 8 a → uint 8 b → (a, b) ∈ byte_pairs.
Proof.
  unfold uint. change (2 ^ 8) with 256. intros Ha Hb. unfold byte_pairs. apply list_elem_of_join.
  exists (map (λ k, (a, Z.of_nat k)) (seq 0 256)). split.
  - apply list_elem_of_fmap. exists (Z.to_nat b). rewrite elem_of_seq. split; [f_equal; lia|lia].
  - apply list_elem_of_fmap. exists (Z.to_nat a). rewrite elem_of_seq, Z2Nat.id by lia. split; [done|lia].
Qed.

Lemma short_message_spec a b : uint 8 a → uint 8 b → let n := (a <<[16] 8) .| b in
  short_message n = (a <? 128) && (b <? 128) && (a .& 0x07 =? 2) ∧ n >> 11 = a >> 3 ∧ n .& 0xff = b.
Proof.
  intros Ha Hb. pose proof short_message_table as H. rewrite forallb_forall in H.
  specialize (H (a, b) (proj1 (list_elem_of_In _ _) (byte_pairs_elem a b Ha Hb))). cbv beta iota zeta in H.
  apply andb_prop in H as [[H1 H2]%andb_prop H3].
  split; [by apply Bool.eqb_prop|]. split; by apply Z.eqb_eq.
Qed.

Lemma NextField_slow_encode fc num pl rest : 0 <= num < 2 ^ 32 → payload_ok pl →
  ∃ fc', NextField_slow fc (encode_field num pl ++ rest) = Some (Ok (fc', rest)) ∧ reads_as num pl fc'.
Proof.
  intros Hn Hp. unfold NextField_slow, encode_field. rewrite <- app_assoc, read_tag_encode by (done || apply wire_type_range).
  by apply read_value_encode.
Qed.

(** [NextField] inverts the encoding of a field, on either path. *)
Lemma NextField_encode fc num pl rest : 0 <= num < 2 ^ 32 → payload_ok pl →
  Forall (uint 8) (encode_field num pl ++ rest) →
  ∃ fc', NextField fc (encode_field num pl ++ rest) = Some (Ok (fc', rest)) ∧ reads_as num pl fc'.
Proof.
  intros Hn Hp Hb. pose proof (NextField_slow_encode fc num pl rest Hn Hp) as Hslow.
  assert (read_tag (encode_field num pl ++ rest) = Some (Ok (num, wire_type pl, encode_payload pl ++ rest))) as Htag.
  { unfold encode_field. rewrite <- app_assoc. apply read_tag_encode; [done|apply wire_type_range]. }
  destruct (encode_field num pl ++ rest) as [|b0 [|b1 src2]]; [by rewrite NextField_small by (simpl; lia)..|].
  rewrite NextField_long. cbv zeta. apply Forall_cons in Hb as [Hb0 [Hb1 Hb2]%Forall_cons].
  destruct (short_message_spec b0 b1 Hb0 Hb1) as (-> & E11 & Eff). cbv zeta in *.
  destruct (Z.ltb_spec b0 128) as [H0|]; [|done]. destruct (Z.ltb_spec b1 128) as [H1|]; [|done].
  destruct (Z.eqb_spec (b0 .& 0x07) 2) as [H2|]; [|done]. cbn [andb].
  rewrite read_tag_cons, (proj2 (Z.ltb_lt _ _)) in Htag by done. injection Htag as Enum Ewt Esrc.
  rewrite H2 in Ewt. destruct pl as [|?|data|]; try done. cbn [encode_payload] in Esrc.
  pose proof (Uvarint_encode (zlength data) (data ++ rest) Hp) as HU.
  pose proof (from_varint (zlength data) (data ++ rest)) as Hfrom.
  rewrite <- app_assoc in Esrc. rewrite <- Esrc in HU, Hfrom. unfold Uvarint in HU. cbn [Uvarint_loop] in HU.
  rewrite (proj2 (Z.ltb_lt b1 _)) in HU by done. cbn [Z.eqb andb] in HU.
  rewrite Z.shiftl_0_r, Z.lor_0_l, (wrap_small 64) in HU by (unfold uint in *; lia).
  injection HU as Hlen Hoff. rewrite <- Hoff, slice_from_ok in Hfrom by (simpl; lia).
  change (Some src2 = Some (data ++ rest)) in Hfrom. injection Hfrom as Hfrom.
  unfold NextField_short. rewrite E11, Eff, Enum, Hfrom, Hlen, zlength_app,
    (proj2 (Z.ltb_ge _ _)) by (unfold zlength; lia).
  unfold zlength. rewrite slice_to_app, slice_from_app. eexists. split; [done|]. done.
Qed.

(** ** Every field read is shorter than what it was read from *)
Lemma Uvarint_loop_bound buf : ∀ i x s, 0 <= i → (Uvarint_loop buf i x s).2 <= i + zlength buf.
Proof.
  induction buf as [|b buf IH]; intros i x s Hi; cbn [Uvarint_loop]; unfold zlength in *; simpl length; [simpl; lia|].
  repeat (case_match; simpl; try lia). specialize (IH (i + 1) (x .| ((b .& 0x7f) <<[64] s)) (s + 7)). lia.
Qed.
Lemma Uvarint_bound buf v o : Uvarint buf = (v, o) → o <= zlength buf.
Proof. intros E. pose proof (Uvarint_loop_bound buf 0 0 0). unfold Uvarint in E. rewrite E in H. simpl in H. lia. Qed.

Lemma Uvarint_loop_nonneg buf : ∀ i x s, 0 <= x → 0 <= (Uvarint_loop buf i x s).1.
Proof.
  induction buf as [|b buf IH]; intros i x s Hx; cbn [Uvarint_loop]; [simpl; lia|].
  assert (∀ y, 0 <= y <<[64] s) as Hw by (intros; unfold wrap; apply Z.mod_pos_bound; lia).
  repeat (case_match; simpl; try lia); [by apply Z.lor_nonneg|]. apply IH. by apply Z.lor_nonneg.
Qed.

Lemma Uvarint_nonneg buf v o : Uvarint buf = (v, o) → 0 <= v.
Proof. intros E. pose proof (Uvarint_loop_nonneg buf 0 0 0 ltac:(lia)) as H. unfold Uvarint in E. by rewrite E in H. Qed.

Definition field_size (fc : FieldContext) : Z :=
  if fc_wireType fc =? wireTypeLen then zlength (fc_data fc) + 1 else 0.

(** No index or slice is out of range, and what is read is shorter. *)
Lemma read_tag_run src : ∃ r, read_tag src = Some r ∧
  match r with Ok (_, _, rest) => zlength rest + 1 <= zlength src | Error _ => True end.
Proof.
  destruct src as [|b src]; [by eexists|]. rewrite read_tag_cons.
  destruct (b <? 0x80); [eexists; split; [done|]; unfold zlength; simpl length; lia|].
  destruct (Uvarint (b :: src)) as [tag o] eqn:E. destruct (Z.leb_spec o 0); [by eexists|].
  pose proof (Uvarint_bound _ _ _ E) as Ho. rewrite slice_from_ok by (unfold zlength in *; lia). cbn [mbind option_bind].
  case_match; [by eexists|]. eexists. split; [done|]. unfold zlength in *. rewrite length_drop. lia.
Qed.

Lemma read_fixed_run n (src : byte_list) : 0 <= n → zlength src <? n = false →
  ∃ v, LittleEndian_Uint n src = Some v ∧ slice_from n src = Some (drop (Z.to_nat n) src).
Proof.
  intros Hn Hl%Z.ltb_ge. unfold LittleEndian_Uint. unfold zlength in Hl.
  rewrite slice_to_ok, slice_from_ok by lia. by eexists.
Qed.

Lemma read_value_run fc num wt src : ∃ r, read_value fc num wt src = Some r ∧
  match r with Ok (fc', rest) => zlength rest + field_size fc' <= zlength src | Error _ => True end.
Proof.
  unfold read_value. destruct (Z.eqb_spec wt wireTypeLen) as [->|Hw].
  { destruct (Uvarint src) as [u o] eqn:E. destruct (Z.leb_spec o 0); [by eexists|].
    pose proof (Uvarint_bound _ _ _ E). pose proof (Uvarint_nonneg _ _ _ E).
    rewrite slice_from_ok by (unfold zlength in *; lia). cbn [mbind option_bind]. set (tl := drop _ src).
    assert (zlength tl = zlength src - o) as Htl by (unfold tl, zlength in *; rewrite length_drop; lia).
    destruct (Z.ltb_spec (zlength tl) u); [by eexists|].
    rewrite slice_to_ok, slice_from_ok by (unfold zlength in *; lia). cbn [mbind option_bind]. eexists. split; [done|].
    unfold field_size. cbn [fc_wireType fc_data]. rewrite Z.eqb_refl. unfold zlength in *.
    rewrite length_take, length_drop. lia. }
  assert (∀ d v l, field_size (mkFC num wt d v) = 0 ∧ zlength (drop l src) <= zlength src) as Hz.
  { intros d v l. unfold field_size. cbn. rewrite (proj2 (Z.eqb_neq _ _)) by done. unfold zlength. rewrite length_drop. lia. }
  destruct (wt =? wireTypeVarint).
  { destruct (Uvarint src) as [u o] eqn:E. destruct (Z.leb_spec o 0); [by eexists|]. pose proof (Uvarint_bound _ _ _ E).
    rewrite slice_from_ok by (unfold zlength in *; lia). cbn [mbind option_bind]. eexists. split; [done|].
    destruct (Hz (fc_data fc) u (Z.to_nat o)). lia. }
  destruct (wt =? wireTypeI64); [|destruct (wt =? wireTypeI32); [|by eexists]].
  - destruct (zlength src <? 8) eqn:El; [by eexists|]. destruct (read_fixed_run 8 src ltac:(lia) El) as (v & -> & ->).
    cbn [mbind option_bind]. eexists. split; [done|]. destruct (Hz (fc_data fc) v (Z.to_nat 8)). lia.
  - destruct (zlength src <? 4) eqn:El; [by eexists|]. destruct (read_fixed_run 4 src ltac:(lia) El) as (v & -> & ->).
    cbn [mbind option_bind]. eexists. split; [done|]. destruct (Hz (fc_data fc) v (Z.to_nat 4)). lia.
Qed.

Lemma NextField_run fc src : ∃ r, NextField fc src = Some r ∧
  match r with Ok (fc', rest) => zlength rest + field_size fc' + 1 <= zlength src | Error _ => True end.
Proof.
  assert (∃ r, NextField_slow fc src = Some r ∧
    match r with Ok (fc', rest) => zlength rest + field_size fc' + 1 <= zlength src | Error _ => True end) as Hslow.
  { unfold NextField_slow. destruct (read_tag_run src) as (r & -> & Hr). cbn [mbind option_bind].
    destruct r as [[[num wt] src']|]; [|by eexists]. destruct (read_value_run fc num wt src') as (r & -> & Hr').
    eexists. split; [done|]. destruct r as [[fc' rest]|]; [lia|done]. }
  destruct src as [|b0 [|b1 src]]; [by rewrite NextField_small by (simpl; lia)..|]. rewrite NextField_long. cbv zeta.
  destruct (short_message _); [|done]. unfold NextField_short. set (m := _ .& 0xff).
  assert (0 <= m) by (subst m; apply Z.land_nonneg; right; lia).
  destruct (Z.ltb_spec (zlength src) m); [by eexists|]. unfold zlength in *.
  rewrite slice_to_ok, slice_from_ok by lia. cbn [mbind option_bind]. eexists. split; [done|].
  unfold field_size. cbn [fc_wireType fc_data]. rewrite Z.eqb_refl. unfold zlength. rewrite length_take, length_drop. simpl length. lia.
Qed.

Lemma NextField_shrinks fc src fc' rest : NextField fc src = Some (Ok (fc', rest)) →
  zlength rest + field_size fc' + 1 <= zlength src.
Proof. destruct (NextField_run fc src) as (r & -> & Hr). by intros [= ->]. Qed.
