(* ===== verification/Snappy.v ===== *)
(** * Snappy: decompressing a request body

    Models the block decoder of vendor/github.com/golang/snappy (decode.go and
    the portable decode_other.go), the size check of
    vendor/github.com/VictoriaMetrics/VictoriaMetrics/lib/encoding/snappy and
    [IsZstd] of lib/encoding/util.go.  The decoder writes into a buffer that an
    earlier request used; it is shown to accept exactly the blocks of the snappy
    format and to return what they stand for, whatever the buffer held. *)
From Stdlib Require Import String.
From S2P Require Import Prelude CompressedList ProtoReader.
Local Open Scope Z_scope.

(** [encoding.IsZstd]. *)
Definition encoding_IsZstd (data : byte_list) : bool :=
  (4 <=? length data)%nat && (LittleEndian (take 4 data) =? 0xFD2FB528).

Definition tagLiteral : Z := 0x00.
Definition tagCopy1 : Z := 0x01.
Definition tagCopy2 : Z := 0x02.
Definition tagCopy4 : Z := 0x03.

(** What [decode] returns: 0 or an error code. *)
Inductive decode_code := decodeOk | decodeErrCodeCorrupt | decodeErrCodeUnsupportedLiteralLength.

(** One element of a block: a literal of a length, or a copy of a length from
    an offset back in the output. *)
Inductive element := ELiteral (length : Z) | ECopy (length offset : Z).

(** The bytes [src[s-n]], ..., [src[s-1]] as a little-endian number, after
    [s += k] and the check of [s] against the end; [None] is an index out of
    range, [Some None] the corrupt block. *)
Definition take_le (src : byte_list) (s k n : nat) : option (option (nat * Z)) :=
  let s := (s + k)%nat in
  if (length src <? s)%nat then Some None
  else
    bs ← mapM (λ i, src !! i) (seq (s - n) n);
    Some (Some (s, LittleEndian bs)).

(** The tag at [s] with its length and offset: the position after it. *)
Definition read_element (src : byte_list) (s : nat) : option (option (nat * element)) :=
  tag ← src !! s;
  if tag .& 0x03 =? tagLiteral then
    let x := tag >> 2 in
    let literal r := r ← r; Some ('(s, x) ← r; Some (s : nat, ELiteral (x + 1))) in
    if x <? 60 then Some (Some ((s + 1)%nat, ELiteral (x + 1)))
    else if x =? 60 then literal (take_le src s 2 1)
    else if x =? 61 then literal (take_le src s 3 2)
    else if x =? 62 then literal (take_le src s 4 3)
    else literal (take_le src s 5 4)
  else if tag .& 0x03 =? tagCopy1 then
    r ← take_le src s 2 1;
    Some ('(s, b) ← r; Some (s, ECopy (4 + ((tag >> 2) .& 0x7)) (((tag .& 0xe0) <<[32] 3) .| b)))
  else if tag .& 0x03 =? tagCopy2 then
    r ← take_le src s 3 2;
    Some ('(s, offset) ← r; Some (s, ECopy (1 + (tag >> 2)) offset))
  else
    r ← take_le src s 5 4;
    Some ('(s, offset) ← r; Some (s, ECopy (1 + (tag >> 2)) offset)).

(** [b[lo:hi]]. *)
Definition slice (b : byte_list) (lo hi : nat) : option byte_list :=
  if (lo <=? hi)%nat && (hi <=? length b)%nat then Some (take (hi - lo) (drop lo b)) else None.

(** [copy(dst[lo:hi], b)]. *)
Definition copy_slice (dst : byte_list) (lo hi : nat) (b : byte_list) : option byte_list :=
  a ← slice dst lo hi;
  Some (take lo dst ++ (copy_at 0 a b).1 ++ drop hi dst).

(** The copy that always runs forwards: [a] and [b] are two parts of [dst],
    which may overlap. *)
Definition forward_copy (dst : byte_list) (d offset length : nat) : option byte_list :=
  _ ← slice dst d (d + length);
  _ ← slice dst (d - offset) (d - offset + length);
  for_each (λ (dst : list Z) i, x ← dst !! (d - offset + i)%nat; Some (<[(d + i)%nat := x]> dst)) (seq 0 length) dst.

(** The loop of [decode]: the code it returns and [dst] afterwards. *)
Fixpoint decode_loop (fuel : nat) (dst src : byte_list) (d s : nat) : option (decode_code * byte_list) :=
  match fuel with
  | O => None
  | S fuel =>
      if (s <? length src)%nat then
        e ← read_element src s;
        match e with
        | None => Some (decodeErrCodeCorrupt, dst)
        | Some (s, ELiteral len) =>
            if len <=? 0 then Some (decodeErrCodeUnsupportedLiteralLength, dst)
            else if (zlength dst - Z.of_nat d <? len) || (zlength src - Z.of_nat s <? len) then
              Some (decodeErrCodeCorrupt, dst)
            else
              let len := Z.to_nat len in
              bs ← slice src s (s + len);
              dst ← copy_slice dst d (length dst) bs;
              decode_loop fuel dst src (d + len) (s + len)
        | Some (s, ECopy len offset) =>
            if (offset <=? 0) || (Z.of_nat d <? offset) || (zlength dst - Z.of_nat d <? len) then
              Some (decodeErrCodeCorrupt, dst)
            else if len <=? offset then
              bs ← slice dst (d - Z.to_nat offset) (length dst);
              dst ← copy_slice dst d (d + Z.to_nat len) bs;
              decode_loop fuel dst src (d + Z.to_nat len) s
            else
              dst ← forward_copy dst d (Z.to_nat offset) (Z.to_nat len);
              decode_loop fuel dst src (d + Z.to_nat len) s
        end
      else Some (if (d =? length dst)%nat then decodeOk else decodeErrCodeCorrupt, dst)
  end.
Definition decode (dst src : byte_list) : option (decode_code * byte_list) :=
  decode_loop (S (length src)) dst src 0 0.

(** [decodedLen]: the length of the block and of its header. *)
Definition decodedLen (src : byte_list) : result (Z * Z) :=
  let '(v, n) := Uvarint src in
  if (n <=? 0) || (0xffffffff <? v) then Error "snappy: corrupt input" else Ok (v, n).

(** [snappy.Decode] of golang/snappy; [dst] is the buffer up to its capacity. *)
Definition block_Decode (dst src : byte_list) : option (result byte_list) :=
  match decodedLen src with
  | Error e => Some (Error e)
  | Ok (dLen, s) =>
      let dst := if dLen <=? zlength dst then upto dLen dst else replicate (Z.to_nat dLen) 0 in
      src ← slice src (Z.to_nat s) (length src);
      '(code, dst) ← decode dst src;
      Some (match code with
            | decodeOk => Ok dst
            | decodeErrCodeUnsupportedLiteralLength => Error "snappy: unsupported literal length"
            | decodeErrCodeCorrupt => Error "snappy: corrupt input"
            end)
  end.

(** [snappy.Decode] of lib/encoding/snappy. *)
Definition snappy_Decode (dst src : byte_list) (maxDataSizeBytes : Z) : option (result byte_list) :=
  match decodedLen src with
  | Error e => Some (Error ("cannot read snappy header: " +:+ e))
  | Ok (dstLen, _) =>
      if (0 <? maxDataSizeBytes) && (maxDataSizeBytes <? dstLen) then Some (Error "too big data size")
      else block_Decode dst src
  end.

(** ** The block format, as the comment of snappy.go describes it

    A literal can have its length in the tag or in up to four bytes after it; a
    copy has its offset in eleven bits, two bytes or four bytes. *)
Inductive chunk :=
| CLiteral (width : nat) (bs : byte_list)
| CCopy1 (length offset : Z)
| CCopy2 (length offset : Z)
| CCopy4 (length offset : Z).

Definition chunk_head (c : chunk) : byte_list :=
  match c with
  | CLiteral 0 bs => [(zlength bs - 1) * 4]
  | CLiteral n bs => (59 + Z.of_nat n) * 4 :: le_bytes n (zlength bs - 1)
  | CCopy1 len offset => [offset / 256 * 32 + (len - 4) * 4 + 1; offset mod 256]
  | CCopy2 len offset => (len - 1) * 4 + 2 :: le_bytes 2 offset
  | CCopy4 len offset => (len - 1) * 4 + 3 :: le_bytes 4 offset
  end.
Definition chunk_data (c : chunk) : byte_list := match c with CLiteral _ bs => bs | _ => [] end.
Definition encode_chunk (c : chunk) : byte_list := chunk_head c ++ chunk_data c.

Definition chunk_ok (c : chunk) : Prop :=
  match c with
  | CLiteral 0 bs => 1 <= zlength bs <= 60
  | CLiteral n bs => (n <= 4)%nat ∧ 1 <= zlength bs <= 2 ^ (8 * Z.of_nat n)
  | CCopy1 len offset => 4 <= len < 12 ∧ 0 <= offset < 2 ^ 11
  | CCopy2 len offset => 1 <= len <= 64 ∧ 0 <= offset < 2 ^ 16
  | CCopy4 len offset => 1 <= len <= 64 ∧ 0 <= offset < 2 ^ 32
  end.

(** What a chunk adds to the output: a literal its bytes; a copy the last
    [offset] bytes, repeated up to the length. *)
Definition lz (out : byte_list) (len offset : Z) : option byte_list :=
  if (0 <? offset) && (offset <=? zlength out) then
    let period := drop (length out - Z.to_nat offset) out in
    Some (out ++ map (λ i, nth (i mod Z.to_nat offset) period 0) (seq 0 (Z.to_nat len)))
  else None.
Definition expand_chunk (out : byte_list) (c : chunk) : option byte_list :=
  match c with
  | CLiteral _ bs => Some (out ++ bs)
  | CCopy1 len offset | CCopy2 len offset | CCopy4 len offset => lz out len offset
  end.
Definition expand (out : byte_list) (cs : list chunk) : option byte_list := for_each expand_chunk cs out.

Definition encode_chunks (cs : list chunk) : byte_list := mjoin (map encode_chunk cs).

(** A block: the length as an unsigned varint, and the chunks. *)
Definition is_block (src : byte_list) (out : byte_list) : Prop :=
  ∃ h cs, src = h ++ encode_chunks cs ∧ Uvarint src = (zlength out, zlength h) ∧ h ≠ [] ∧
    zlength out < 2 ^ 32 ∧ Forall chunk_ok cs ∧ expand [] cs = Some out.
Definition encode_block (cs : list chunk) (out : byte_list) : byte_list :=
  encode_uvarint (zlength out) ++ encode_chunks cs.

(** ** Reading an element *)
Lemma le_bytes_len n v : length (le_bytes n v) = n.
Proof. pose proof (le_bytes_length n v) as H. unfold zlength in H. lia. Qed.

Lemma mapM_lookup_seq (l : byte_list) i n : (i + n <= length l)%nat →
  mapM (λ j, l !! j) (seq i n) = Some (take n (drop i l)).
Proof.
  revert i. induction n as [|n IH]; intros i Hn; [done|]. cbn [seq mapM].
  destruct (l !! i) as [x|] eqn:Hx; [|apply lookup_ge_None in Hx; lia]. cbn [mbind option_bind].
  rewrite IH by lia. cbn [mbind option_bind]. by rewrite (drop_S l x i Hx).
Qed.

Lemma take_le_eq (src : byte_list) s n : (s < length src)%nat →
  take_le src s (S n) n = Some (if (length (drop (S s) src) <? n)%nat then None
                                else Some ((s + S n)%nat, LittleEndian (take n (drop (S s) src)))).
Proof.
  intros Hs. unfold take_le. rewrite length_drop.
  destruct (Nat.ltb_spec (length src) (s + S n)); destruct (Nat.ltb_spec (length src - S s) n); try lia; [done|].
  replace (s + S n - n)%nat with (S s) by lia. by rewrite mapM_lookup_seq by lia.
Qed.

(** The element at the front of some bytes, and the length of its head. *)
Definition parse_element (bs : byte_list) : option (nat * element) :=
  match bs with
  | [] => None
  | tag :: rest =>
      let field n (e : Z → element) :=
        if (length rest <? n)%nat then None else Some (S n, e (LittleEndian (take n rest))) in
      if tag .& 0x03 =? 0 then
        if tag >> 2 <? 60 then Some (1%nat, ELiteral ((tag >> 2) + 1))
        else field (if tag >> 2 =? 60 then 1%nat else if tag >> 2 =? 61 then 2%nat else if tag >> 2 =? 62 then 3%nat else 4%nat)
          (λ x, ELiteral (x + 1))
      else if tag .& 0x03 =? 1 then
        field 1%nat (λ b, ECopy (4 + ((tag >> 2) .& 0x7)) (((tag .& 0xe0) <<[32] 3) .| b))
      else field (if tag .& 0x03 =? 2 then 2%nat else 4%nat) (ECopy (1 + (tag >> 2)))
  end.

Lemma read_element_eq (src : byte_list) s : (s < length src)%nat →
  read_element src s = Some ('(k, e) ← parse_element (drop s src); Some ((s + k)%nat, e)).
Proof.
  intros Hs. unfold read_element. destruct (src !! s) as [tag|] eqn:Ht; [|apply lookup_ge_None in Ht; lia].
  cbn [mbind option_bind]. rewrite (drop_S src tag s Ht). unfold parse_element, tagLiteral, tagCopy1, tagCopy2.
  rewrite !take_le_eq by done. cbn [mbind option_bind].
  repeat match goal with |- context [if ?b then _ else _] => destruct b; cbn [mbind option_bind]; try done end.
Qed.

(** A fact about all bytes by going through them. *)
Lemma all_bytes (P : Z → bool) : forallb P (seqZ 0 256) = true → ∀ b, uint 8 b → P b = true.
Proof. intros H b Hb. rewrite forallb_forall in H. apply H, list_elem_of_In, elem_of_seqZ. unfold uint in Hb. lia. Qed.

Lemma tag_split tag : uint 8 tag → tag = (tag >> 2) * 4 + (tag .& 0x03) ∧ 0 <= tag >> 2 < 64 ∧ 0 <= tag .& 0x03 < 4.
Proof.
  intros Hb. change 0x03 with (2 ^ 2 - 1). rewrite shr_div, land_low by lia. change (2 ^ 2) with 4.
  unfold uint in Hb. pose proof (Z.div_mod tag 4). pose proof (Z.mod_pos_bound tag 4).
  split_and!; lia.
Qed.
Lemma copy1_parts tag : uint 8 tag →
  (tag .& 0xe0) <<[32] 3 = tag / 32 * 2 ^ 8 ∧ (tag >> 2) .& 0x7 = (tag / 4) mod 8.
Proof.
  intros Hb. pose proof (all_bytes (λ tag, ((tag .& 0xe0) <<[32] 3 =? tag / 32 * 2 ^ 8) &&
    ((tag >> 2) .& 0x7 =? (tag / 4) mod 8)) ltac:(vm_compute; reflexivity) tag Hb) as [H1 H2]%andb_true_iff.
  split; by apply Z.eqb_eq.
Qed.

(** ** Elements and chunks *)
Definition element_of (c : chunk) : element :=
  match c with
  | CLiteral _ bs => ELiteral (zlength bs)
  | CCopy1 len offset | CCopy2 len offset | CCopy4 len offset => ECopy len offset
  end.

Lemma small_tag x r : 0 <= x < 64 → 0 <= r < 4 → (x * 4 + r) .& 0x03 = r ∧ (x * 4 + r) >> 2 = x ∧ uint 8 (x * 4 + r).
Proof.
  intros Hx Hr. change 0x03 with (2 ^ 2 - 1). rewrite land_low, shr_div by lia. change (2 ^ 2) with 4.
  rewrite mod_mul_add, div_mul_add by lia. unfold uint. lia.
Qed.

Lemma parse_field (tag : Z) n v rest (e : Z → element) : 0 <= v < 2 ^ (8 * Z.of_nat n) →
  (if (length (le_bytes n v ++ rest) <? n)%nat then None
   else Some (S n, e (LittleEndian (take n (le_bytes n v ++ rest))))) =
    Some (length (tag :: le_bytes n v), e v).
Proof.
  intros Hv. rewrite length_app. cbn [length]. rewrite le_bytes_len. destruct (Nat.ltb_spec (n + length rest) n); [lia|].
  replace (take n (le_bytes n v ++ rest)) with (le_bytes n v); [by rewrite LittleEndian_le_bytes|].
  rewrite take_app_le by (rewrite le_bytes_len; lia). symmetry. apply take_ge. by rewrite le_bytes_len.
Qed.

Lemma parse_chunk c rest : chunk_ok c →
  parse_element (encode_chunk c ++ rest) = Some (length (chunk_head c), element_of c).
Proof.
  unfold encode_chunk. rewrite <- app_assoc. generalize (chunk_data c ++ rest). clear rest. intros rest.
  destruct c as [[|n] bs|len off|len off|len off]; cbn [chunk_ok chunk_head app element_of]; unfold parse_element; cbv zeta.
  - intros Hl. destruct (small_tag (zlength bs - 1) 0) as (E1 & E2 & _); [lia|lia|]. rewrite Z.add_0_r in E1, E2.
    rewrite E1, E2, (proj2 (Z.ltb_lt _ 60)) by lia. cbn [Z.eqb length]. do 3 f_equal. lia.
  - intros [Hn Hl]. destruct (small_tag (59 + Z.of_nat (S n)) 0) as (E1 & E2 & _); [lia|lia|]. rewrite Z.add_0_r in E1, E2.
    rewrite E1, E2, (proj2 (Z.ltb_ge _ 60)) by lia. cbn [Z.eqb].
    replace (if _ =? 60 then 1%nat else _) with (S n).
    + rewrite (parse_field ((59 + Z.of_nat (S n)) * 4) (S n) (zlength bs - 1) rest (λ x, ELiteral (x + 1))) by lia. do 2 f_equal. f_equal. lia.
    + clear -Hn. do 4 (destruct n as [|n]; [reflexivity|]). lia.
  - intros [Hl Ho]. set (tag := off / 256 * 32 + (len - 4) * 4 + 1).
    assert (0 <= off / 256 < 8) as Hh by (split; [apply Z.div_pos; lia|apply Z.div_lt_upper_bound; lia]).
    destruct (small_tag (off / 256 * 8 + (len - 4)) 1) as (E1 & E2 & E3); [lia|lia|].
    replace ((off / 256 * 8 + (len - 4)) * 4 + 1) with tag in * by (unfold tag; lia).
    destruct (copy1_parts tag E3) as [E4 E5]. rewrite E1, E4, E5. cbn [Z.eqb Pos.eqb length Nat.ltb Nat.leb take].
    assert (tag / 32 = off / 256) as ->.
    { unfold tag. replace (off / 256 * 32 + _ + 1) with (off / 256 * 32 + ((len - 4) * 4 + 1)) by lia. apply div_mul_add; lia. }
    assert (tag / 4 = off / 256 * 8 + (len - 4)) as ->.
    { unfold tag. replace (off / 256 * 32 + _ + 1) with ((off / 256 * 8 + (len - 4)) * 4 + 1) by lia. apply div_mul_add; lia. }
    rewrite mod_mul_add by lia. rewrite LittleEndian_cons by (apply Z.mod_pos_bound; lia).
    change (LittleEndian (take 0 rest)) with 0. rewrite Z.mul_0_l, Z.add_0_l, lor_low by (try apply Z.mod_pos_bound; lia).
    pose proof (Z.div_mod off 256). do 3 f_equal; lia.
  - intros [Hl Ho]. destruct (small_tag (len - 1) 2) as (E1 & E2 & _); [lia|lia|]. rewrite E1, E2. cbn [Z.eqb Pos.eqb].
    rewrite (parse_field ((len - 1) * 4 + 2) 2 off rest (ECopy (1 + (len - 1)))) by lia. do 3 f_equal; lia.
  - intros [Hl Ho]. destruct (small_tag (len - 1) 3) as (E1 & E2 & _); [lia|lia|]. rewrite E1, E2. cbn [Z.eqb Pos.eqb].
    rewrite (parse_field ((len - 1) * 4 + 3) 4 off rest (ECopy (1 + (len - 1)))) by lia. do 3 f_equal; lia.
Qed.

(** What the head of an element says about the chunk it starts. *)
Definition head_of (head : byte_list) (e : element) : Prop :=
  match e with
  | ELiteral len => 1 <= len ∧ ∀ bs, zlength bs = len → ∃ n, chunk_ok (CLiteral n bs) ∧ chunk_head (CLiteral n bs) = head
  | ECopy len offset => 1 <= len ∧ ∃ c, chunk_ok c ∧ chunk_head c = head ∧ chunk_data c = [] ∧ element_of c = ECopy len offset
  end.

Lemma read_field (rest : byte_list) n : Forall (uint 8) rest → (n <= length rest)%nat →
  take n rest = le_bytes n (LittleEndian (take n rest)) ∧ 0 <= LittleEndian (take n rest) < 2 ^ (8 * Z.of_nat n).
Proof.
  intros Hb Hn. assert (Forall (uint 8) (take n rest)) as Ht by by apply Forall_take.
  assert (length (take n rest) = n) as El by (rewrite length_take; lia). split.
  - rewrite <- El at 2. by rewrite le_bytes_LittleEndian.
  - pose proof (LittleEndian_range _ Ht) as H. unfold zlength in H. by rewrite El in H.
Qed.

Lemma parse_inv (tag : Z) (rest : byte_list) k e : Forall (uint 8) (tag :: rest) →
  parse_element (tag :: rest) = Some (k, e) → (k <= length (tag :: rest))%nat ∧ (1 <= k)%nat ∧ head_of (take k (tag :: rest)) e.
Proof.
  intros [Ht Hr]%Forall_cons. destruct (tag_split tag Ht) as (Et & Hx & Hm). unfold parse_element. cbv zeta.
  destruct (Z.eqb_spec (tag .& 0x03) 0) as [E0|E0]; [|destruct (Z.eqb_spec (tag .& 0x03) 1) as [E1|E1]].
  - destruct (Z.ltb_spec (tag >> 2) 60) as [H60|H60].
    + intros [= <- <-]. simpl. split; [lia|]. split; [lia|]. split; [lia|]. intros bs Hbs. exists 0%nat.
      simpl. split; [lia|]. f_equal. lia.
    + set (n := if tag >> 2 =? 60 then _ else _).
      assert (Z.of_nat n = (tag >> 2) - 59 ∧ (1 <= n <= 4)%nat) as [En Hn].
      { subst n. destruct (Z.eqb_spec (tag >> 2) 60); [lia|]. destruct (Z.eqb_spec (tag >> 2) 61); [lia|].
        destruct (Z.eqb_spec (tag >> 2) 62); lia. }
      destruct (Nat.ltb_spec (length rest) n) as [|Hl]; [done|]. intros [= <- <-].
      destruct (read_field rest n Hr Hl) as [El Hv]. split; [simpl; lia|]. split; [lia|]. split; [lia|].
      intros bs Hbs. exists n. destruct n as [|n]; [lia|]. split; [split; lia|]. cbn [chunk_head take]. f_equal; [lia|].
      replace (zlength bs - 1) with (LittleEndian (take (S n) rest)) by lia. by rewrite <- El.
  - destruct (Nat.ltb_spec (length rest) 1) as [|Hl]; [done|]. intros [= <- <-].
    destruct (copy1_parts tag Ht) as [-> ->]. destruct rest as [|b rest]; [simpl in Hl; lia|].
    apply Forall_cons in Hr as [Hb _]. cbn [take]. rewrite LittleEndian_cons by done.
    change (LittleEndian (take 0 rest)) with 0. rewrite Z.mul_0_l, Z.add_0_l, lor_low by (done || lia).
    unfold uint in Ht, Hb. change (2 ^ 8) with 256 in *.
    pose proof (Z.mod_pos_bound (tag / 4) 8 ltac:(lia)). assert (0 <= tag / 32 < 8) by (split; [apply Z.div_pos; lia|apply Z.div_lt_upper_bound; lia]).
    split; [simpl; lia|]. split; [lia|]. split; [lia|]. exists (CCopy1 (4 + (tag / 4) mod 8) (tag / 32 * 256 + b)).
    cbn [chunk_ok chunk_head chunk_data element_of]. split; [split; lia|]. split; [|done].
    rewrite div_mul_add, mod_mul_add by lia. f_equal.
    assert (tag / 32 = tag / 4 / 8) as -> by (rewrite Z.div_div by lia; done).
    change 0x03 with (2 ^ 2 - 1) in E1. rewrite land_low in E1 by lia. change (2 ^ 2) with 4 in E1.
    pose proof (Z.div_mod tag 4). pose proof (Z.div_mod (tag / 4) 8). lia.
  - set (n := if tag .& 0x03 =? 2 then _ else _).
    destruct (Nat.ltb_spec (length rest) n) as [|Hl]; [done|]. intros [= <- <-].
    destruct (read_field rest n Hr Hl) as [El Hv]. split; [simpl; lia|]. split; [lia|]. split; [lia|]. subst n.
    destruct (Z.eqb_spec (tag .& 0x03) 2) as [E2|E2]; [exists (CCopy2 (1 + (tag >> 2)) (LittleEndian (take 2 rest)))|
      exists (CCopy4 (1 + (tag >> 2)) (LittleEndian (take 4 rest)))]; cbn [chunk_ok chunk_head chunk_data element_of];
      (split; [lia|]; split; [|done]); rewrite <- El; cbn [take]; f_equal; lia.
Qed.

(** ** Copying within the output *)
Lemma copy_slice_app (out junk b : byte_list) hi : (length out <= hi <= length (out ++ junk))%nat →
  let c := Nat.min (hi - length out) (length b) in
  copy_slice (out ++ junk) (length out) hi b = Some (out ++ take c b ++ drop c junk).
Proof.
  rewrite length_app. intros Hhi c. unfold copy_slice, slice. rewrite length_app.
  rewrite (proj2 (Nat.leb_le _ hi)), (proj2 (Nat.leb_le hi _)) by lia. cbn [andb mbind option_bind].
  rewrite drop_app_length, take_app_length. unfold copy_at. cbn [fst take app Nat.add].
  rewrite Nat.sub_0_r, length_take. replace (Nat.min _ (length b)) with c by (subst c; lia).
  change (take 0 (take (hi - length out) junk)) with (@nil Z). cbn [app]. do 2 f_equal. rewrite <- app_assoc. f_equal.
  rewrite drop_app_ge, skipn_firstn_comm by lia.
  replace (drop (hi - length out) junk) with (drop (hi - length out - c) (drop c junk)); [apply take_drop|].
  rewrite drop_drop. f_equal. subst c. lia.
Qed.

(** The bytes a copy repeats. *)
Definition repeated (out : list Z) (offset n : nat) : list Z :=
  map (λ i, nth (i mod offset) (drop (length out - offset) out) 0) (seq 0 n).
Lemma repeated_S out offset n :
  repeated out offset (S n) = repeated out offset n ++ [nth (n mod offset) (drop (length out - offset) out) 0].
Proof. unfold repeated. by rewrite seq_S, map_app. Qed.
Lemma repeated_length out offset n : length (repeated out offset n) = n.
Proof. unfold repeated. by rewrite length_map, length_seq. Qed.
Lemma repeated_lookup out offset n i : (i < n)%nat →
  repeated out offset n !! i = Some (nth (i mod offset) (drop (length out - offset) out) 0).
Proof. intros Hi. unfold repeated. rewrite list_lookup_fmap, lookup_seq_lt by done. done. Qed.

(** No overlap: the part copied is in the output already. *)
Lemma repeated_short out offset n : (n <= offset)%nat → (offset <= length out)%nat →
  repeated out offset n = take n (drop (length out - offset) out).
Proof.
  intros Hn Ho. apply list_eq. intros i. destruct (decide (i < n)%nat) as [Hi|Hi].
  - rewrite repeated_lookup, lookup_take_lt, Nat.mod_small by lia. symmetry.
    destruct (nth_lookup_or_length (drop (length out - offset) out) i 0) as [E|E]; [done|]. rewrite length_drop in E. lia.
  - rewrite !(proj2 (lookup_ge_None _ _)); [done|rewrite length_take; lia|rewrite repeated_length; lia].
Qed.

(** Overlap: every byte copied is read before it can be overwritten. *)
Lemma forward_copy_eq (out junk : list Z) offset n :
  (0 < offset)%nat → (offset <= length out)%nat → (n <= length junk)%nat →
  forward_copy (out ++ junk) (length out) offset n = Some (out ++ repeated out offset n ++ drop n junk).
Proof.
  intros H0 Ho Hn. unfold forward_copy, slice. rewrite length_app.
  rewrite !(proj2 (Nat.leb_le _ _)) by lia. cbn [andb mbind option_bind].
  induction n as [|n IH]; [done|]. rewrite seq_S, for_each_app, IH by lia. cbn [mbind option_bind for_each Nat.add].
  destruct (lookup_lt_is_Some_2 junk n) as [x Hx]; [lia|]. rewrite (drop_S junk x n Hx), repeated_S.
  set (b := nth _ _ _). assert ((out ++ repeated out offset n ++ x :: drop (S n) junk) !! (length out - offset + n)%nat = Some b) as ->.
  { destruct (Nat.lt_ge_cases n offset) as [Hlt|Hge].
    - rewrite lookup_app_l by lia. subst b. rewrite Nat.mod_small by done. rewrite <- lookup_drop.
      destruct (nth_lookup_or_length (drop (length out - offset) out) n 0) as [E|E]; [done|]. rewrite length_drop in E. lia.
    - rewrite lookup_app_r by lia. replace (length out - offset + n - length out)%nat with (n - offset)%nat by lia.
      rewrite lookup_app_l by (rewrite repeated_length; lia). rewrite repeated_lookup by lia. subst b. do 2 f_equal.
      replace n with (n - offset + 1 * offset)%nat at 2 by lia. by rewrite Nat.Div0.mod_add. }
  cbn [mbind option_bind]. f_equal. rewrite insert_app_r, <- app_assoc. f_equal. cbn [app].
  rewrite insert_app_r_alt by (rewrite repeated_length; lia). by rewrite repeated_length, Nat.sub_diag.
Qed.

Lemma lz_repeated out len offset : 0 < offset → offset <= zlength out →
  lz out len offset = Some (out ++ repeated out (Z.to_nat offset) (Z.to_nat len)).
Proof. intros H1 H2. unfold lz. by rewrite (proj2 (Z.ltb_lt _ _)), (proj2 (Z.leb_le _ _)) by done. Qed.

(** ** The loop *)
Lemma zlength_drop (l : byte_list) n : (n <= length l)%nat → zlength (drop n l) = zlength l - Z.of_nat n.
Proof. intros Hn. unfold zlength. rewrite length_drop. lia. Qed.

Lemma decode_step fuel (src : byte_list) s (out junk : byte_list) k e :
  parse_element (drop s src) = Some (k, e) → (s < length src)%nat → (s + k <= length src)%nat →
  decode_loop (S fuel) (out ++ junk) src (length out) s =
    match e with
    | ELiteral len =>
        if len <=? 0 then Some (decodeErrCodeUnsupportedLiteralLength, out ++ junk)
        else if (zlength junk <? len) || (zlength (drop (s + k) src) <? len) then Some (decodeErrCodeCorrupt, out ++ junk)
        else
          let data := take (Z.to_nat len) (drop (s + k) src) in
          decode_loop fuel ((out ++ data) ++ drop (Z.to_nat len) junk) src (length (out ++ data)) (s + k + Z.to_nat len)
    | ECopy len offset =>
        match lz out len offset with
        | None => Some (decodeErrCodeCorrupt, out ++ junk)
        | Some out' =>
            if zlength junk <? len then Some (decodeErrCodeCorrupt, out ++ junk)
            else decode_loop fuel (out' ++ drop (Z.to_nat len) junk) src (length out') (s + k)
        end
    end.
Proof.
  intros Hp Hs Hk. cbn [decode_loop]. rewrite (proj2 (Nat.ltb_lt _ _) Hs), read_element_eq, Hp by done.
  cbn [mbind option_bind]. rewrite zlength_app. replace (zlength out + zlength junk - Z.of_nat (length out)) with (zlength junk) by (unfold zlength; lia).
  destruct e as [len|len off].
  - destruct (Z.leb_spec len 0); [done|]. rewrite zlength_drop by done.
    destruct (Z.ltb_spec (zlength junk) len) as [|Hj]; [done|].
    destruct (Z.ltb_spec (zlength src - Z.of_nat (s + k)) len) as [|Hl]; [done|]. cbn [orb].
    unfold zlength in Hj, Hl. unfold slice. rewrite !(proj2 (Nat.leb_le _ _)) by lia. cbn [andb mbind option_bind].
    replace (s + k + Z.to_nat len - (s + k))%nat with (Z.to_nat len) by lia.
    rewrite copy_slice_app by (rewrite length_app; lia). cbv zeta. cbn [mbind option_bind].
    assert (length (take (Z.to_nat len) (drop (s + k) src)) = Z.to_nat len) as El by (rewrite length_take, length_drop; lia).
    rewrite El, length_app. replace (Nat.min _ _) with (Z.to_nat len) by lia.
    rewrite take_take, Nat.min_id, length_app, El, <- app_assoc. done.
  - unfold lz. destruct (Z.leb_spec off 0); destruct (Z.ltb_spec 0 off); try lia; [done|].
    fold (zlength out). destruct (Z.ltb_spec (zlength out) off); destruct (Z.leb_spec off (zlength out)); try lia; [done|].
    cbn [andb orb]. fold (repeated out (Z.to_nat off) (Z.to_nat len)). set (r := repeated _ _ _).
    destruct (Z.ltb_spec (zlength junk) len) as [|Hj]; [done|]. unfold zlength in *.
    assert (length r = Z.to_nat len) as El by apply repeated_length. rewrite (length_app out r), El, <- app_assoc.
    destruct (Z.leb_spec len off) as [Hlo|Hlo].
    + unfold slice. rewrite length_app. rewrite !(proj2 (Nat.leb_le _ _)) by lia. cbn [andb mbind option_bind].
      rewrite copy_slice_app by (rewrite length_app; lia). cbv zeta. cbn [mbind option_bind].
      rewrite length_take, length_drop, length_app. replace (Nat.min _ (Nat.min _ _)) with (Z.to_nat len) by lia.
      rewrite take_take. replace (Nat.min _ _) with (Z.to_nat len) by lia.
      rewrite drop_app_le, take_app_le by (rewrite ?length_drop; lia).
      subst r. rewrite repeated_short by lia. done.
    + rewrite forward_copy_eq by lia. done.
Qed.

Lemma expand_chunk_prefix out c out' : expand_chunk out c = Some out' → ∃ more, out' = out ++ more.
Proof.
  assert (∀ len off, lz out len off = Some out' → ∃ more, out' = out ++ more) as Hlz.
  { intros len off. unfold lz. destruct (_ && _); [|done]. intros [= <-]. by eexists. }
  destruct c; simpl; [intros [= <-]; by eexists|apply Hlz..].
Qed.
Lemma expand_prefix cs : ∀ out fin, expand out cs = Some fin → ∃ more, fin = out ++ more.
Proof.
  induction cs as [|c cs IH]; intros out fin; [intros [= <-]; exists []; by rewrite app_nil_r|].
  unfold expand. cbn [for_each]. intros (out' & E1 & E2)%bind_Some.
  destruct (expand_chunk_prefix _ _ _ E1) as [m1 ->]. destruct (IH _ _ E2) as [m2 ->].
  exists (m1 ++ m2). by rewrite app_assoc.
Qed.

Lemma encode_chunks_cons c cs : encode_chunks (c :: cs) = chunk_head c ++ chunk_data c ++ encode_chunks cs.
Proof. unfold encode_chunks. cbn [map]. by rewrite app_assoc. Qed.

(** A block that is accepted is a sequence of chunks, and the output what they
    stand for; nothing that was in the buffer is left. *)
Lemma decode_loop_sound (src : byte_list) fuel : Forall (uint 8) src → ∀ out junk s,
  (s <= length src)%nat → (length src - s < fuel)%nat →
  ∃ code dst', decode_loop fuel (out ++ junk) src (length out) s = Some (code, dst') ∧
    (code = decodeOk → length dst' = (length out + length junk)%nat ∧
      ∃ cs, drop s src = encode_chunks cs ∧ Forall chunk_ok cs ∧ expand out cs = Some dst').
Proof.
  intros Hb. induction fuel as [|fuel IH]; intros out junk s Hs Hf; [lia|].
  destruct (decide (s < length src)%nat) as [Hlt|Hge].
  2: { cbn [decode_loop]. rewrite (proj2 (Nat.ltb_ge _ _)) by lia. do 2 eexists. split; [done|].
       destruct (Nat.eqb_spec (length out) (length (out ++ junk))) as [E|]; [|done]. intros _. rewrite length_app in E.
       rewrite length_app. split; [lia|]. exists []. rewrite drop_ge by lia. split; [done|]. split; [constructor|].
       assert (junk = []) as -> by (apply nil_length_inv; lia). by rewrite app_nil_r. }
  assert (Forall (uint 8) (drop s src)) as Hbd by by apply Forall_drop.
  assert (length (drop s src) = length src - s)%nat as Hld by apply length_drop.
  assert (∃ tag rest, drop s src = tag :: rest) as (tag & rest & Ed).
  { destruct (drop s src); [simpl in Hld; lia|by do 2 eexists]. }
  destruct (parse_element (drop s src)) as [[k e]|] eqn:Ep.
  2: { cbn [decode_loop]. rewrite (proj2 (Nat.ltb_lt _ _) Hlt), read_element_eq, Ep by done. cbn [mbind option_bind].
       do 2 eexists. by split. }
  pose proof Ep as Hpi. rewrite Ed in Hpi, Hbd, Hld. apply parse_inv in Hpi as (Hk & Hk1 & Hh); [|done]. rewrite <- Ed in Hh.
  assert (drop s src = take k (drop s src) ++ drop (s + k) src) as Esplit by (by rewrite <- drop_drop, take_drop).
  rewrite (decode_step fuel src s out junk k e Ep Hlt) by lia.
  destruct e as [len|len off]; cbn [head_of] in Hh.
  - destruct Hh as [Hlen Hc]. rewrite (proj2 (Z.leb_gt _ _)) by lia. destruct (_ || _) eqn:Eor; [do 2 eexists; by split|].
    apply orb_false_iff in Eor as [Hj%Z.ltb_ge Hd%Z.ltb_ge]. set (data := take _ _).
    unfold zlength in Hj, Hd. rewrite length_drop in Hd.
    assert (length data = Z.to_nat len) as El by (unfold data; rewrite length_take, length_drop; lia).
    destruct (Hc data) as (n & Hok & Ehead); [unfold zlength; lia|].
    destruct (IH (out ++ data) (drop (Z.to_nat len) junk) (s + k + Z.to_nat len)%nat) as (code & dst' & E & Hok'); [lia|lia|].
    exists code, dst'. split; [exact E|]. intros Hcode. destruct (Hok' Hcode) as (HL & cs & Ecs & Hcs & Hx).
    rewrite length_app, length_drop in HL. split; [lia|]. exists (CLiteral n data :: cs). split; [|by split; [constructor|]].
    rewrite Esplit, encode_chunks_cons, <- Ehead, <- Ecs, <- (drop_drop src _ (s + k)). cbn [chunk_data].
    f_equal. symmetry. apply take_drop.
  - destruct Hh as (Hlen & c & Hok & Ehead & Edata & Eel). destruct (lz out len off) as [out'|] eqn:Elz; [|do 2 eexists; by split].
    destruct (Z.ltb_spec (zlength junk) len) as [|Hj]; [do 2 eexists; by split|].
    assert (expand_chunk out c = Some out') as Ec by (destruct c; simpl in Eel; simplify_eq; done).
    destruct (IH out' (drop (Z.to_nat len) junk) (s + k)%nat) as (code & dst' & E & Hok'); [lia|lia|].
    exists code, dst'. split; [exact E|]. intros Hcode. destruct (Hok' Hcode) as (HL & cs & Ecs & Hcs & Hx).
    assert (length out' = length out + Z.to_nat len)%nat as El.
    { unfold lz in Elz. destruct (_ && _); [|done]. injection Elz as <-. by rewrite length_app, length_map, length_seq. }
    rewrite length_drop in HL. unfold zlength in Hj. split; [lia|]. exists (c :: cs). split.
    + by rewrite Esplit, encode_chunks_cons, <- Ehead, Ecs, Edata.
    + split; [by constructor|]. unfold expand. cbn [for_each]. by rewrite Ec.
Qed.

(** A sequence of chunks that fits the buffer exactly is accepted. *)
Lemma decode_loop_complete (src : byte_list) fin cs : ∀ fuel out junk s,
  drop s src = encode_chunks cs → (s <= length src)%nat → (length src - s < fuel)%nat → Forall chunk_ok cs →
  expand out cs = Some fin → length fin = (length out + length junk)%nat →
  decode_loop fuel (out ++ junk) src (length out) s = Some (decodeOk, fin).
Proof.
  induction cs as [|c cs IH]; intros fuel out junk s Ed Hs Hf Hok Hx Hl; (destruct fuel as [|fuel]; [lia|]).
  { assert (length (drop s src) = 0%nat) as Hd by (by rewrite Ed). rewrite length_drop in Hd. cbn [decode_loop].
    rewrite (proj2 (Nat.ltb_ge _ _)) by lia. injection Hx as <-. assert (junk = []) as -> by (apply nil_length_inv; lia).
    by rewrite app_nil_r, Nat.eqb_refl. }
  apply Forall_cons in Hok as [Hc Hok]. unfold expand in Hx. cbn [for_each] in Hx.
  apply bind_Some in Hx as (out' & Ec & Hx). destruct (expand_prefix cs out' fin Hx) as [more Em].
  pose proof (parse_chunk c (encode_chunks cs) Hc) as Ep. unfold encode_chunk in Ep.
  rewrite <- app_assoc, <- encode_chunks_cons, <- Ed in Ep. rewrite encode_chunks_cons in Ed.
  assert (0 < length (chunk_head c))%nat as Hh0 by (destruct c as [[|n] ?| | |]; simpl; lia).
  assert (length src - s = length (chunk_head c) + length (chunk_data c) + length (encode_chunks cs))%nat as Hlen.
  { rewrite <- length_drop, Ed, !length_app. lia. }
  rewrite (decode_step fuel src s out junk _ _ Ep) by lia.
  assert (drop (s + length (chunk_head c)) src = chunk_data c ++ encode_chunks cs) as Ed'.
  { by rewrite <- drop_drop, Ed, drop_app_length. }
  assert (∀ len off, element_of c = ECopy len off → chunk_data c = [] ∧ lz out len off = Some out') as Hcopy.
  { intros len off E. destruct c; simpl in E; simplify_eq; done. }
  assert (length out' <= length fin)%nat as Hle by (rewrite Em, length_app; lia).
  destruct (element_of c) as [len|len off] eqn:Eel.
  - destruct c as [n bs| | |]; try discriminate. injection Eel as <-. cbn [chunk_data expand_chunk] in *. injection Ec as <-.
    assert (1 <= zlength bs) as Hpos by (destruct n; simpl in Hc; lia). rewrite (proj2 (Z.leb_gt _ _)) by lia.
    rewrite length_app in Hle. rewrite Ed', zlength_app. unfold zlength in *.
    rewrite !(proj2 (Z.ltb_ge _ _)) by lia. cbn [orb]. cbv zeta. rewrite Nat2Z.id, take_app_length.
    apply IH; [|lia|lia|done|done|rewrite length_app, length_drop; lia].
    by rewrite <- drop_drop, Ed', drop_app_length.
  - destruct (Hcopy len off eq_refl) as [Edata ->]. rewrite Edata in Ed'.
    assert (length out' = length out + Z.to_nat len)%nat as El.
    { destruct (Hcopy len off eq_refl) as [_ Elz]. unfold lz in Elz. destruct (_ && _); [|done]. injection Elz as <-.
      by rewrite length_app, length_map, length_seq. }
    assert (1 <= len) as Hpos by (destruct c as [n ?| | |]; simpl in Eel, Hc; simplify_eq; lia).
    unfold zlength. rewrite (proj2 (Z.ltb_ge _ _)) by lia. apply IH; [done|lia|lia|done|done|rewrite length_drop; lia].
Qed.

(** ** Decoding a block *)
Lemma decode_exact (dst src : byte_list) : Forall (uint 8) src →
  ∃ code dst', decode dst src = Some (code, dst') ∧
    ∀ out, (code = decodeOk ∧ dst' = out) ↔
      (∃ cs, src = encode_chunks cs ∧ Forall chunk_ok cs ∧ expand [] cs = Some out ∧ length out = length dst).
Proof.
  intros Hb. destruct (decode_loop_sound src (S (length src)) Hb [] dst 0) as (code & dst' & E & Hs); [lia|lia|].
  exists code, dst'. split; [exact E|]. intros out. split.
  - intros [Hc <-]. destruct (Hs Hc) as (Hl & cs & Ecs & Hok & Hx). exists cs. by split_and!.
  - intros (cs & Ecs & Hok & Hx & Hl).
    pose proof (decode_loop_complete src out cs (S (length src)) [] dst 0 Ecs ltac:(lia) ltac:(lia) Hok Hx Hl) as E'.
    simpl app in E, E'. simpl length in E, E'. rewrite E in E'. by injection E'.
Qed.

Lemma decodedLen_inv src v n : decodedLen src = Ok (v, n) →
  Uvarint src = (v, n) ∧ 0 < n <= zlength src ∧ 0 <= v < 2 ^ 32.
Proof.
  unfold decodedLen. destruct (Uvarint src) as [v' n'] eqn:E. destruct (Z.leb_spec n' 0) as [|Hn]; [done|].
  destruct (Z.ltb_spec 0xffffffff v') as [|Hv]; [done|]. intros [= <- <-]. split; [done|].
  pose proof (Uvarint_bound _ _ _ E). pose proof (Uvarint_loop_nonneg src 0 0 0 ltac:(lia)) as H0.
  unfold Uvarint in E. rewrite E in H0. simpl in H0. lia.
Qed.

Lemma is_block_header src out : is_block src out → ∃ n, decodedLen src = Ok (zlength out, n).
Proof.
  intros (h & cs & -> & E & Hh & Hl & _ & _). exists (zlength h). unfold decodedLen. rewrite E.
  assert (0 < zlength h) by (unfold zlength; destruct h; [done|simpl; lia]).
  rewrite (proj2 (Z.leb_gt _ _)), (proj2 (Z.ltb_ge _ _)) by lia. done.
Qed.

Lemma block_Decode_exact (dst src : byte_list) : Forall (uint 8) src →
  ∃ r, block_Decode dst src = Some r ∧ ∀ out, r = Ok out ↔ is_block src out.
Proof.
  intros Hb. unfold block_Decode. destruct (decodedLen src) as [[v n]|e] eqn:E.
  2: { exists (Error e). split; [done|]. intros out. split; [done|]. intros [n E']%is_block_header. congruence. }
  destruct (decodedLen_inv _ _ _ E) as (EU & Hn & Hv). set (buf := if v <=? zlength dst then _ else _).
  assert (length buf = Z.to_nat v) as Hbuf.
  { unfold buf. destruct (Z.leb_spec v (zlength dst)) as [H|]; [|apply length_replicate].
    unfold upto. rewrite length_take. unfold zlength in H. lia. }
  unfold zlength in Hn. unfold slice. rewrite !(proj2 (Nat.leb_le _ _)) by lia. cbn [andb mbind option_bind].
  rewrite take_ge by (rewrite length_drop; lia). set (body := drop (Z.to_nat n) src).
  destruct (decode_exact buf body) as (code & dst' & -> & Hex); [by apply Forall_drop|]. cbn [mbind option_bind].
  eexists. split; [done|]. intros out.
  transitivity (code = decodeOk ∧ dst' = out); [destruct code; naive_solver|]. rewrite Hex. split.
  - intros (cs & Ecs & Hok & Hx & Hl). exists (take (Z.to_nat n) src), cs. rewrite <- Ecs. unfold body.
    rewrite take_drop. split; [done|]. assert (zlength out = v) as Eout by (unfold zlength; lia).
    assert (length (take (Z.to_nat n) src) = Z.to_nat n) as El by (rewrite length_take; lia).
    split; [rewrite EU, Eout; f_equal; unfold zlength; lia|]. split; [intros E0; rewrite E0 in El; simpl in El; lia|].
    split; [lia|by split].
  - intros (h & cs & Es & EU' & _ & Hl & Hok & Hx). rewrite EU in EU'. injection EU' as -> ->. exists cs.
    unfold body. rewrite Es. unfold zlength. rewrite Nat2Z.id, drop_app_length. split_and!; try done.
    rewrite Hbuf. unfold zlength. lia.
Qed.

(** It returns on anything. *)
Lemma parse_bounds bs k e : parse_element bs = Some (k, e) → (1 <= k <= length bs)%nat.
Proof.
  destruct bs as [|tag rest]; [done|]. unfold parse_element. cbv zeta. cbn [length].
  repeat match goal with |- context [if ?b then _ else _] => destruct b eqn:? end; intros; simplify_eq;
    repeat match goal with H : (_ <? _)%nat = false |- _ => apply Nat.ltb_ge in H end; lia.
Qed.
Lemma decode_loop_total (src : byte_list) fuel : ∀ out junk s,
  (s <= length src)%nat → (length src - s < fuel)%nat → is_Some (decode_loop fuel (out ++ junk) src (length out) s).
Proof.
  induction fuel as [|fuel IH]; intros out junk s Hs Hf; [lia|].
  destruct (decide (s < length src)%nat) as [Hlt|Hge].
  2: { cbn [decode_loop]. rewrite (proj2 (Nat.ltb_ge _ _)) by lia. eauto. }
  destruct (parse_element (drop s src)) as [[k e]|] eqn:Ep.
  2: { cbn [decode_loop]. rewrite (proj2 (Nat.ltb_lt _ _) Hlt), read_element_eq, Ep by done. cbn [mbind option_bind]. eauto. }
  pose proof (parse_bounds _ _ _ Ep) as Hk. rewrite length_drop in Hk. rewrite (decode_step fuel src s out junk k e Ep Hlt) by lia.
  destruct e as [len|len off].
  - destruct (len <=? 0); [eauto|]. destruct (_ || _) eqn:Eor; [eauto|].
    apply orb_false_iff in Eor as [_ Hd%Z.ltb_ge]. unfold zlength in Hd. rewrite length_drop in Hd. apply IH; lia.
  - destruct (lz out len off); [|eauto]. destruct (_ <? _); [eauto|]. apply IH; lia.
Qed.
Lemma snappy_Decode_total dst src max : is_Some (snappy_Decode dst src max).
Proof.
  unfold snappy_Decode, block_Decode. destruct (decodedLen src) as [[v n]|e] eqn:E; [|eauto].
  destruct (_ && _); [eauto|]. destruct (decodedLen_inv _ _ _ E) as (_ & Hn & _). unfold zlength in Hn. unfold slice.
  rewrite !(proj2 (Nat.leb_le _ _)) by lia. cbn [andb mbind option_bind]. set (body := take _ _). set (buf := if _ : bool then _ else _).
  destruct (decode_loop_total body (S (length body)) [] buf 0) as [[code dst'] E']; [lia|lia|].
  unfold decode. simpl app in E'. simpl length in E'. rewrite E'. cbn [mbind option_bind]. eauto.
Qed.

Lemma snappy_Decode_iff (dst src : byte_list) max : Forall (uint 8) src →
  ∃ r, snappy_Decode dst src max = Some r ∧
    ∀ out, r = Ok out ↔ is_block src out ∧ (0 < max → zlength out <= max).
Proof.
  intros Hb. unfold snappy_Decode. destruct (decodedLen src) as [[v n]|e] eqn:E.
  2: { eexists. split; [done|]. intros out. split; [done|]. intros [[n E']%is_block_header _]. congruence. }
  assert (∀ out, is_block src out → zlength out = v) as Hv.
  { intros out [n' E']%is_block_header. congruence. }
  destruct ((0 <? max) && (max <? v)) eqn:Emax.
  - eexists. split; [done|]. intros out. split; [done|]. intros [Hblk Hle]. rewrite (Hv out Hblk) in Hle.
    apply andb_true_iff in Emax as [H1%Z.ltb_lt H2%Z.ltb_lt]. lia.
  - destruct (block_Decode_exact dst src Hb) as (r & -> & Hr). exists r. split; [done|]. intros out. rewrite Hr.
    split; [|tauto]. intros Hblk. split; [done|]. rewrite (Hv out Hblk). intros H.
    apply andb_false_iff in Emax as [H1%Z.ltb_ge|H1%Z.ltb_ge]; lia.
Qed.

Lemma snappy_Decode_block dst src max out : Forall (uint 8) src → is_block src out → (0 < max → zlength out <= max) →
  snappy_Decode dst src max = Some (Ok out).
Proof. intros Hb Hblk Hmax. destruct (snappy_Decode_iff dst src max Hb) as (r & -> & Hr). by rewrite (proj2 (Hr out)). Qed.

(** C25: the decompressor of write requests returns on any bytes, whatever a
    recycled buffer holds, without an access out of range.  It accepts exactly
    the blocks of the snappy format, a length header and chunks that are
    literals and back references in any of their wire forms, whose data is
    within the limit, and returns exactly the data they stand for; so no byte
    of an earlier request in the buffer can appear in the result. *)
Theorem snappy_Decode_exact (dst src : byte_list) max : Forall (uint 8) src →
  ∃ r, snappy_Decode dst src max = Some r ∧
    ∀ out, r = Ok out ↔ is_block src out ∧ (0 < max → zlength out <= max).
Proof. apply snappy_Decode_iff. Qed.

(** A block is never taken for zstd data: the first four bytes of zstd data
    would be a header and a back reference to before the start. *)
Lemma block_not_zstd src out : Forall (uint 8) src → is_block src out → encoding_IsZstd src = false.
Proof.
  intros Hb (h & cs & Es & EU & _ & _ & Hok & Hx). unfold encoding_IsZstd.
  destruct (Nat.leb_spec 4 (length src)) as [Hl|]; [|done]. apply Z.eqb_neq. intros Hz.
  assert (length (take 4 src) = 4%nat) as El by (rewrite length_take; lia).
  pose proof (le_bytes_LittleEndian (take 4 src) ltac:(by apply Forall_take)) as Ele. rewrite El, Hz in Ele.
  assert (src = 0x28 :: 0xb5 :: drop 2 src) as E2.
  { rewrite <- (take_drop 4 src) at 1. rewrite <- Ele. cbn [le_bytes app]. do 2 f_equal. rewrite <- (take_drop 4 src) at 2. rewrite <- Ele. done. }
  rewrite E2 in EU. change (Uvarint _) with (0x28, 1) in EU. injection EU as _ Eh.
  destruct h as [|x [|y h]]; [discriminate| |unfold zlength in Eh; simpl in Eh; lia].
  rewrite E2 in Es. cbn [app] in Es. injection Es as _ Ecs.
  destruct cs as [|c cs]; [discriminate|]. rewrite encode_chunks_cons in Ecs.
  apply Forall_cons in Hok as [Hc _]. unfold expand in Hx. cbn [for_each] in Hx. apply bind_Some in Hx as (out' & Ec & _).
  assert (∀ len off, lz [] len off = None) as Hlz.
  { intros len off. unfold lz, zlength. cbn [length]. destruct (Z.ltb_spec 0 off); [|done].
    destruct (Z.leb_spec off (Z.of_nat 0)); [lia|done]. }
  destruct c as [[|n] bs|len off|len off|len off]; simpl in Ec; rewrite ?Hlz in Ec; try discriminate;
    cbn [chunk_head app] in Ecs; injection Ecs as Ecs _; simpl in Hc; lia.
Qed.

(** What a sender writes: the block of any chunks that stand for the data. *)
Lemma encode_block_ok cs out : Forall chunk_ok cs → expand [] cs = Some out → zlength out < 2 ^ 32 →
  is_block (encode_block cs out) out.
Proof.
  intros Hok Hx Hl. exists (encode_uvarint (zlength out)), cs. split; [done|].
  split; [apply Uvarint_encode; unfold uint, zlength in *; lia|]. split; [|done].
  intros E. pose proof (encode_uvarint_pos (zlength out)) as H. rewrite E in H. by unfold zlength in H.
Qed.

(** The simplest of them, everything in one literal. *)
Definition stored_block (out : byte_list) : byte_list := encode_block [CLiteral 4 out] out.
Lemma stored_block_ok out : 1 <= zlength out < 2 ^ 32 → is_block (stored_block out) out.
Proof. intros H. apply encode_block_ok; [|done|lia]. constructor; [|constructor]. simpl. lia. Qed.

(** * At a concrete input

    A block whose second chunk repeats the three bytes of the first. *)
Definition demo_chunks : list chunk := [CLiteral 0 [1; 2; 3]; CCopy1 5 3; CLiteral 1 [9]].
Lemma snappy_Decode_exact_witness :
  ∃ r, snappy_Decode [7; 7; 7; 7; 7; 7; 7; 7; 7; 7; 7] (encode_block demo_chunks [1; 2; 3; 1; 2; 3; 1; 2; 9]) 100 = Some r ∧
    r = Ok [1; 2; 3; 1; 2; 3; 1; 2; 9].
Proof.
  destruct (snappy_Decode_exact [7; 7; 7; 7; 7; 7; 7; 7; 7; 7; 7] (encode_block demo_chunks [1; 2; 3; 1; 2; 3; 1; 2; 9]) 100)
    as (r & E & Hr).
  - apply (bool_decide_unpack (Forall (uint 8) (encode_block demo_chunks [1; 2; 3; 1; 2; 3; 1; 2; 9]))). vm_compute. exact I.
  - exists r. split; [exact E|]. apply Hr. split; [|intros _; vm_compute; discriminate].
    apply encode_block_ok; [|reflexivity|reflexivity]. repeat constructor; unfold zlength; simpl; lia.
Defined.
