(* ===== verification/XXHash.v ===== *)
(** * XXHash: the 64-bit xxHash

    Models vendor/github.com/cespare/xxhash/v2 (xxhash.go and the portable
    xxhash_other.go): the streaming [Digest] and the one-shot [Sum64], and shows
    that they agree, which is what the fingerprints rely on.  Bytes are
    integers below 256. *)
From Stdlib Require Import Ascii String.
From S2P Require Import Prelude Types CompressedList ProtoReader.
Local Open Scope Z_scope.

Definition prime1 : Z := 11400714785074694791.
Definition prime2 : Z := 14029467366897019727.
Definition prime3 : Z := 1609587929392839161.
Definition prime4 : Z := 9650029242287828579.
Definition prime5 : Z := 2870177450012600261.

(** [bits.RotateLeft64]; [rol1], [rol7] and so on are [rol 1], [rol 7]. *)
Definition rol (k x : Z) : Z := (x <<[64] k) .| (x >> (64 - k)).

Definition round (acc input : Z) : Z :=
  let acc := acc +[64] (input *[64] prime2) in
  let acc := rol 31 acc in
  acc *[64] prime1.

Definition mergeRound (acc val : Z) : Z :=
  let val := round 0 val in
  let acc := Z.lxor acc val in
  (acc *[64] prime1) +[64] prime4.

(** [u64(b[i:i+8])] and [u32(b[i:i+4])]. *)
Definition u64 (i : nat) (b : byte_list) : Z := LittleEndian (take 8 (drop i b)).
Definition u32 (i : nat) (b : byte_list) : Z := LittleEndian (take 4 (drop i b)).

(** The four accumulators. *)
Definition lanes : Type := Z * Z * Z * Z.
Definition init_lanes (seed : Z) : lanes :=
  ((seed +[64] prime1) +[64] prime2, seed +[64] prime2, seed, seed -[64] prime1).

(** One 32-byte block, and the loop over all full blocks: the lanes and the
    bytes left. *)
Definition stripe (v : lanes) (b : byte_list) : lanes :=
  let '(v1, v2, v3, v4) := v in
  (round v1 (u64 0 b), round v2 (u64 8 b), round v3 (u64 16 b), round v4 (u64 24 b)).
Fixpoint blocks_loop (fuel : nat) (v : lanes) (b : byte_list) : lanes * byte_list :=
  match fuel with
  | O => (v, b)
  | S fuel => if (32 <=? length b)%nat then blocks_loop fuel (stripe v b) (drop 32 b) else (v, b)
  end.
Definition blocks (v : lanes) (b : byte_list) : lanes * byte_list := blocks_loop (length b) v b.

Definition merge_lanes (v : lanes) : Z :=
  let '(v1, v2, v3, v4) := v in
  let h := ((rol 1 v1 +[64] rol 7 v2) +[64] rol 12 v3) +[64] rol 18 v4 in
  mergeRound (mergeRound (mergeRound (mergeRound h v1) v2) v3) v4.

(** The end of both functions: the bytes after the last block, eight, four and
    one at a time, and the final mixing. *)
Fixpoint tail8 (fuel : nat) (h : Z) (b : byte_list) : Z * byte_list :=
  match fuel with
  | O => (h, b)
  | S fuel =>
      if (8 <=? length b)%nat then
        let h := Z.lxor h (round 0 (u64 0 b)) in
        tail8 fuel ((rol 27 h *[64] prime1) +[64] prime4) (drop 8 b)
      else (h, b)
  end.
Definition tail4 (h : Z) (b : byte_list) : Z * byte_list :=
  if (4 <=? length b)%nat then
    let h := Z.lxor h (u32 0 b *[64] prime1) in
    ((rol 23 h *[64] prime2) +[64] prime3, drop 4 b)
  else (h, b).
Definition tail1 (h : Z) (b : byte_list) : Z :=
  foldl (λ h x, rol 11 (Z.lxor h (x *[64] prime5)) *[64] prime1) h b.
Definition avalanche (h : Z) : Z :=
  let h := Z.lxor h (h >> 33) in
  let h := h *[64] prime2 in
  let h := Z.lxor h (h >> 29) in
  let h := h *[64] prime3 in
  Z.lxor h (h >> 32).
Definition finalize (h : Z) (b : byte_list) : Z :=
  let '(h, b) := tail8 (length b) h b in
  let '(h, b) := tail4 h b in
  avalanche (tail1 h b).

(** [Sum64]. *)
Definition Sum64 (b : byte_list) : Z :=
  let n := length b in
  let '(h, b) :=
    if (32 <=? n)%nat then
      let '(v, b) := blocks ((prime1 +[64] prime2), prime2, 0, wrap 64 (- prime1)) b in
      (merge_lanes v, b)
    else (prime5, b) in
  finalize (h +[64] wrap 64 (Z.of_nat n)) b.

(** [Digest]. *)
Record Digest := mkDigest {
  d_v : lanes;
  d_total : Z;
  d_mem : byte_list;
  d_n : Z
}.

Definition ResetWithSeed (d : Digest) (seed : Z) : Digest := mkDigest (init_lanes seed) 0 (d_mem d) 0.
Definition Digest_Reset (d : Digest) : Digest := ResetWithSeed d 0.
Definition NewWithSeed (seed : Z) : Digest := ResetWithSeed (mkDigest (0, 0, 0, 0) 0 (replicate 32 0) 0) seed.
Definition New : Digest := NewWithSeed 0.

Definition Digest_Write (d : Digest) (b : byte_list) : Digest :=
  let n := Z.of_nat (length b) in
  let total := d_total d +[64] n in
  let k := Z.to_nat (d_n d .& 31) in
  if d_n d + n <? 32 then mkDigest (d_v d) total (copy_at k (d_mem d) b).1 (d_n d + n)
  else
    let '(v, mem, b) :=
      if 0 <? d_n d then
        let '(mem, c) := copy_at k (d_mem d) b in (stripe (d_v d) mem, mem, drop c b)
      else (d_v d, d_mem d, b) in
    let '(v, b) := if (32 <=? length b)%nat then blocks v b else (v, b) in
    mkDigest v total (copy_at 0 mem b).1 (Z.of_nat (length b)).

Definition Digest_Sum64 (d : Digest) : Z :=
  let h :=
    if 32 <=? d_total d then merge_lanes (d_v d)
    else let '(_, _, v3, _) := d_v d in v3 +[64] prime5 in
  finalize (h +[64] d_total d) (take (Z.to_nat (d_n d .& 31)) (d_mem d)).

(** The digest pools of estimator.go and write_request.go: [Get] yields a new
    digest or one that was put back. *)
Definition getDigest (pooled : option Digest) : Digest := match pooled with None => New | Some d => d end.
Definition putDigest (d : Digest) : Digest := Digest_Reset d.

(** The bytes of a Go string. *)
Definition bytes_of_string (s : string) : byte_list :=
  map (λ a, Z.of_N (Ascii.N_of_ascii a)) (String.list_ascii_of_string s).

(** ** The loop over the blocks *)
Lemma blocks_loop_fuel f1 : ∀ f2 v b, (length b <= f1)%nat → (length b <= f2)%nat →
  blocks_loop f1 v b = blocks_loop f2 v b.
Proof.
  induction f1 as [|f1 IH]; intros f2 v b H1 H2.
  { destruct f2; [done|]. cbn [blocks_loop]. destruct (Nat.leb_spec 32 (length b)); [lia|done]. }
  destruct f2 as [|f2]; cbn [blocks_loop]; destruct (Nat.leb_spec 32 (length b)); try lia; try done.
  apply IH; rewrite length_drop; lia.
Qed.

Lemma blocks_short v b : (length b < 32)%nat → blocks v b = (v, b).
Proof.
  intros H. unfold blocks. destruct (length b) as [|n] eqn:E; [done|]. cbn [blocks_loop].
  rewrite E. by rewrite (proj2 (Nat.leb_gt _ _)).
Qed.

Lemma blocks_step v b : (32 <= length b)%nat → blocks v b = blocks (stripe v b) (drop 32 b).
Proof.
  intros H. unfold blocks at 1. destruct (length b) as [|n] eqn:E; [lia|]. cbn [blocks_loop].
  rewrite E, (proj2 (Nat.leb_le _ _)) by lia. apply blocks_loop_fuel; rewrite length_drop; lia.
Qed.

Lemma u64_app i a b : (i + 8 <= length a)%nat → u64 i (a ++ b) = u64 i a.
Proof. intros H. unfold u64. rewrite drop_app_le by lia. by rewrite take_app_le by (rewrite length_drop; lia). Qed.

Lemma stripe_app v a b : (32 <= length a)%nat → stripe v (a ++ b) = stripe v a.
Proof. intros H. destruct v as [[[v1 v2] v3] v4]. unfold stripe. by rewrite !u64_app by lia. Qed.

Lemma blocks_app n : ∀ a v b, (length a <= n)%nat →
  blocks v (a ++ b) = let '(v', r) := blocks v a in blocks v' (r ++ b).
Proof.
  induction n as [|n IH]; intros a v b Hn; [by rewrite (blocks_short v a) by lia|].
  destruct (Nat.lt_ge_cases (length a) 32) as [H|H]; [by rewrite (blocks_short v a)|].
  rewrite (blocks_step v (a ++ b)), (blocks_step v a) by (rewrite ?length_app; lia).
  rewrite stripe_app, drop_app_le by lia. apply IH. rewrite length_drop. lia.
Qed.

Lemma blocks_rest n : ∀ v b, (length b <= n)%nat →
  (length (blocks v b).2 < 32)%nat ∧ Z.of_nat (length (blocks v b).2) = Z.of_nat (length b) mod 32.
Proof.
  induction n as [|n IH]; intros v b Hn;
    (destruct (Nat.lt_ge_cases (length b) 32) as [H|H];
     [rewrite blocks_short by done; cbn [snd]; split; [done|]; symmetry; apply Z.mod_small; lia|]); [lia|].
  rewrite blocks_step by done. destruct (IH (stripe v b) (drop 32 b)) as [H1 H2]; [rewrite length_drop; lia|].
  split; [done|]. rewrite H2, length_drop. replace (Z.of_nat (length b)) with (Z.of_nat (length b - 32) + 1 * 32) by lia.
  by rewrite Z.mod_add by lia.
Qed.

(** ** The digest and what was written to it *)
Record digest_repr (data : byte_list) (d : Digest) : Prop := {
  dr_mem : length (d_mem d) = 32%nat;
  dr_total : d_total d = wrap 64 (zlength data);
  dr_n : d_n d = zlength (blocks (init_lanes 0) data).2;
  dr_blocks : blocks (init_lanes 0) data = (d_v d, take (Z.to_nat (d_n d)) (d_mem d))
}.

Lemma New_repr : digest_repr [] New.
Proof. by split. Qed.
Lemma Digest_Reset_repr d : length (d_mem d) = 32%nat → digest_repr [] (Digest_Reset d).
Proof. by split. Qed.

Lemma copy_at_spec k mem b : length mem = 32%nat → (k <= 32)%nat →
  length (copy_at k mem b).1 = 32%nat ∧
  (∀ m, (k <= m <= k + length b)%nat → (m <= 32)%nat → take m (copy_at k mem b).1 = take k mem ++ take (m - k) b).
Proof.
  intros Hm Hk. unfold copy_at. cbn [fst]. rewrite Hm. split.
  - rewrite !length_app, !length_take, length_drop. lia.
  - intros m H1 H2. rewrite take_app, take_take, length_take, Nat.min_r by lia. f_equal.
    replace (m - Nat.min k (length mem))%nat with (m - k)%nat by lia.
    rewrite take_app_le by (rewrite length_take; lia). rewrite take_take. f_equal. lia.
Qed.

Lemma land_31 n : 0 <= n < 32 → n .& 31 = n.
Proof. intros H. change 31 with (2 ^ 5 - 1). rewrite land_low by lia. by apply Z.mod_small. Qed.

(** The blocks of [r ++ b] when the partial block [r] is filled from [b]. *)
Lemma blocks_fill v r b : (length r + length b >= 32)%nat → (length r < 32)%nat →
  blocks v (r ++ b) = blocks (stripe v (r ++ take (32 - length r) b)) (drop (32 - length r) b).
Proof.
  intros H Hr. rewrite blocks_step by (rewrite length_app; lia). f_equal.
  - rewrite <- (take_drop (32 - length r) b) at 1. rewrite app_assoc. apply stripe_app.
    rewrite length_app, length_take. lia.
  - rewrite drop_app, drop_ge by lia. done.
Qed.

Lemma Write_repr data d b : digest_repr data d → digest_repr (data ++ b) (Digest_Write d b).
Proof.
  intros [Hm Ht Hn Hb]. destruct (blocks_rest _ (init_lanes 0) data (Nat.le_refl _)) as [Hlt _].
  rewrite Hb in Hn, Hlt. cbn [snd] in *. set (k := Z.to_nat (d_n d)) in *. set (r := take k (d_mem d)) in *.
  assert (length r = Nat.min k 32) as Hr by (unfold r; by rewrite length_take, Hm).
  rewrite Nat.min_l in Hr by lia.
  assert (0 <= d_n d < 32) as Hk by (unfold zlength in Hn; lia).
  assert (Z.of_nat k = d_n d) as Ek0 by (unfold k; lia).
  assert (blocks (init_lanes 0) (data ++ b) = blocks (d_v d) (r ++ b)) as Happ.
  { rewrite (blocks_app _ data _ b (Nat.le_refl _)). by rewrite Hb. }
  assert (d_total d +[64] Z.of_nat (length b) = wrap 64 (zlength (data ++ b))) as Htot.
  { rewrite Ht, wrap_add_l by lia. f_equal. unfold zlength. rewrite length_app. lia. }
  unfold Digest_Write. cbv zeta. rewrite land_31 by done. fold k.
  destruct (Z.ltb_spec (d_n d + Z.of_nat (length b)) 32) as [Hs|Hs].
  - destruct (copy_at_spec k (d_mem d) b Hm ltac:(lia)) as [Hl Htk].
    assert (Z.to_nat (d_n d + Z.of_nat (length b)) = (k + length b)%nat) as Ek by (unfold k; lia).
    rewrite (blocks_short (d_v d) (r ++ b)) in Happ by (rewrite length_app; lia).
    split; cbn [d_mem d_total d_n d_v]; [done|done| |].
    + rewrite Happ. cbn [snd]. rewrite zlength_app. unfold zlength. lia.
    + rewrite Happ, Ek, Htk by lia. f_equal. unfold r. f_equal. by rewrite take_ge by lia.
  - set (st := if 0 <? d_n d then _ else _).
    assert (∃ v mem b', st = (v, mem, b') ∧ length mem = 32%nat ∧ blocks (init_lanes 0) (data ++ b) = blocks v b') as
      (v & mem & b' & -> & Hmem & Hbl).
    { rewrite Happ. subst st. destruct (Z.ltb_spec 0 (d_n d)) as [H0|H0].
      - destruct (copy_at k (d_mem d) b) as [mem c] eqn:Ec. do 3 eexists. split; [done|].
        destruct (copy_at_spec k (d_mem d) b Hm ltac:(lia)) as [Hl Htk]. rewrite Ec in Hl, Htk. cbn [fst] in *.
        split; [done|]. rewrite blocks_fill by lia. specialize (Htk 32%nat ltac:(lia) ltac:(lia)).
        rewrite take_ge in Htk by lia. rewrite Htk, Hr. fold r. f_equal.
        unfold copy_at in Ec. injection Ec as _ <-. rewrite Hm. f_equal. lia.
      - do 3 eexists. split; [done|]. split; [done|]. f_equal. destruct r; [done|simpl in Hr; lia]. }
    assert ((if (32 <=? length b')%nat then blocks v b' else (v, b')) = blocks v b') as ->.
    { destruct (Nat.leb_spec 32 (length b')); [done|]. by rewrite blocks_short. }
    destruct (blocks v b') as [v'' r''] eqn:Er.
    destruct (blocks_rest _ (init_lanes 0) (data ++ b) (Nat.le_refl _)) as [Hlt' _].
    rewrite Hbl in Hlt'. cbn [snd] in Hlt'.
    destruct (copy_at_spec 0 mem r'' Hmem ltac:(lia)) as [Hl Htk].
    split; cbn [d_mem d_total d_n d_v]; [done|done|by rewrite Hbl|].
    rewrite Hbl, Nat2Z.id, Htk by lia. rewrite take_0, Nat.sub_0_r, take_ge by lia. done.
Qed.

Lemma Writes_repr chunks : ∀ data d, digest_repr data d →
  digest_repr (data ++ mjoin chunks) (foldl Digest_Write d chunks).
Proof.
  induction chunks as [|b chunks IH]; intros data d H; [by rewrite app_nil_r|].
  simpl. rewrite app_assoc. by apply IH, Write_repr.
Qed.

Lemma Digest_Sum64_repr data d : digest_repr data d → zlength data < 2 ^ 64 → Digest_Sum64 d = Sum64 data.
Proof.
  intros [Hm Ht Hn Hb] Hlen. destruct (blocks_rest _ (init_lanes 0) data (Nat.le_refl _)) as [Hlt _].
  rewrite Hb in Hn, Hlt. cbn [snd] in *.
  assert (0 <= d_n d < 32) as Hk by (unfold zlength in Hn; lia).
  rewrite wrap_small in Ht by (unfold uint, zlength in *; lia).
  unfold Digest_Sum64, Sum64. rewrite land_31, Ht by done.
  change (prime1 +[64] prime2, prime2, 0, wrap 64 (- prime1)) with (init_lanes 0).
  destruct (Z.leb_spec 32 (zlength data)) as [H|H].
  - rewrite (proj2 (Nat.leb_le _ _)) by (unfold zlength in H; lia). rewrite Hb. f_equal. f_equal. f_equal.
    symmetry. apply wrap_small. unfold uint, zlength in *. lia.
  - rewrite (proj2 (Nat.leb_gt _ _)) by (unfold zlength in H; lia).
    rewrite blocks_short in Hb by (unfold zlength in H; lia). injection Hb as Hv Hmem.
    rewrite <- Hv, <- Hmem. change (init_lanes 0) with (prime1 +[64] prime2, prime2, 0, wrap 64 (- prime1)).
    cbv beta iota. rewrite Z.add_0_l, (wrap_small 64 prime5) by (vm_compute; split; congruence). f_equal. f_equal. f_equal.
    symmetry. apply wrap_small. unfold uint, zlength in *. lia.
Qed.

(** ** The hash of the program

    [Sum64] discharges the interface the other components use. *)
Lemma lxor_uint w a b : 0 <= w → uint w a → uint w b → uint w (Z.lxor a b).
Proof.
  intros Hw Ha Hb. assert (Z.lxor a b = wrap w (Z.lxor a b)) as ->; [|by apply wrap_uint].
  apply Z.bits_inj'. intros i Hi. rewrite wrap_testbit by done. destruct (Z.ltb_spec i w) as [H|H]; [done|].
  rewrite Z.lxor_spec, <- (wrap_small w a Ha), <- (wrap_small w b Hb), !wrap_testbit by done.
  by rewrite (proj2 (Z.ltb_ge i w)) by done.
Qed.

Lemma finalize_uint h b : uint 64 (finalize h b).
Proof.
  unfold finalize. destruct (tail8 _ h b) as [h1 b1]. destruct (tail4 h1 b1) as [h2 b2].
  unfold avalanche. set (y := _ *[64] prime3). assert (uint 64 y) as Hy by by apply wrap_uint.
  apply lxor_uint; [done|done|]. rewrite shr_div by done. unfold uint in *.
  split; [apply Z.div_pos; lia|]. apply Z.div_lt_upper_bound; lia.
Qed.

#[export] Instance xxhash64 : Xxhash := {| xxhash_Sum64 s := Sum64 (bytes_of_string s) |}.
#[export] Instance xxhash64_ok : XxhashOk xxhash64.
Proof. split. intros s. cbn [xxhash_Sum64 xxhash64]. unfold Sum64. destruct (_ : Z * byte_list). apply finalize_uint. Qed.

(** The hashes of the reference implementation. *)
Example Sum64_vectors :
  Sum64 [] = 0xef46db3751d8e999 ∧ Sum64 (bytes_of_string "a") = 0xd24ec4f1a98c6e5b ∧
  Sum64 (bytes_of_string "abc") = 0x44bc2cf5ad770999 ∧
  Sum64 (bytes_of_string "Call me Ishmael. Some years ago--never mind how long precisely-") = 0x02a2e85470d6fd96.
Proof. vm_compute. repeat split; reflexivity. Qed.

(** What a pool may hold: reset digests, whose memory is an array of 32 bytes. *)
Definition pool_item (pooled : option Digest) : Prop :=
  ∀ d, pooled = Some d → ∃ d0, d = putDigest d0 ∧ length (d_mem d0) = 32%nat.

(** C33: streaming is hashing at once.  Whatever the pieces in which fewer than
    2^64 bytes are written to a digest from the pool, new or used before, its
    sum is the one-shot hash of their concatenation, and put back it is fit for
    the pool again; so the fingerprint of a series is the hash of its label
    messages, however the fields split them and whoever used the digest
    before. *)
Theorem digest_streaming pooled chunks : pool_item pooled → zlength (mjoin chunks) < 2 ^ 64 →
  let d := foldl Digest_Write (getDigest pooled) chunks in
  Digest_Sum64 d = Sum64 (mjoin chunks) ∧ pool_item (Some (putDigest d)).
Proof.
  intros Hp H d. assert (digest_repr [] (getDigest pooled)) as H0.
  { destruct pooled as [d'|]; [|apply New_repr]. destruct (Hp d' eq_refl) as (d0 & -> & Hm). by apply Digest_Reset_repr. }
  pose proof (Writes_repr chunks [] _ H0) as Hr. split; [by apply Digest_Sum64_repr|].
  intros d1 [= <-]. exists d. split; [done|]. apply (dr_mem _ _ Hr).
Qed.

Lemma digest_streaming_witness :
  let used := putDigest (Digest_Write New (bytes_of_string "instance")) in
  Digest_Sum64 (foldl Digest_Write used [bytes_of_string "job"; replicate 40 7; [1; 2]; replicate 100 9]) =
    Sum64 (bytes_of_string "job" ++ replicate 40 7 ++ [1; 2] ++ replicate 100 9).
Proof.
  apply (digest_streaming (Some (putDigest (Digest_Write New (bytes_of_string "instance"))))
    [bytes_of_string "job"; replicate 40 7; [1; 2]; replicate 100 9]).
  - intros d [= <-]. eexists. split; [reflexivity|]. reflexivity.
  - vm_compute. reflexivity.
Defined.
