(* ===== verification/GoQuote.v ===== *)
(** * GoQuote: Go's quoted strings

    [strconv.AppendQuote] and the [unicode/utf8] functions it calls, on byte
    lists, and the reading of a quoted string; the text output writes every
    label value with it.  Which runes above 0xff are printable is a table of
    the standard library and a parameter. *)
From Stdlib Require Import Ascii String.
From S2P Require Import Prelude CompressedList.
Local Open Scope Z_scope.

Class UnicodeTables := { isPrint_table : Z → bool }.

(** [unicode.IsPrint] as [strconv.IsPrint] computes it. *)
Definition IsPrint `{UnicodeTables} (r : Z) : bool :=
  if r <=? 0xff then ((0x20 <=? r) && (r <? 0x7f)) || ((0xa1 <=? r) && negb (r =? 0xad))
  else isPrint_table r.

(** ** UTF-8 *)
Definition RuneError : Z := 0xfffd.
Definition in_range (lo hi b : Z) : bool := (lo <=? b) && (b <=? hi).

(** The range of the second byte after a first byte, and the length. *)
Definition first_byte (b : Z) : option (nat * Z * Z) :=
  if in_range 0xc2 0xdf b then Some (2%nat, 0x80, 0xbf)
  else if b =? 0xe0 then Some (3%nat, 0xa0, 0xbf)
  else if b =? 0xed then Some (3%nat, 0x80, 0x9f)
  else if in_range 0xe1 0xef b then Some (3%nat, 0x80, 0xbf)
  else if b =? 0xf0 then Some (4%nat, 0x90, 0xbf)
  else if b =? 0xf4 then Some (4%nat, 0x80, 0x8f)
  else if in_range 0xf1 0xf3 b then Some (4%nat, 0x80, 0xbf)
  else None.

(** [utf8.DecodeRuneInString] of a string that starts with [b0]. *)
Definition DecodeRune (b0 : Z) (s : byte_list) : Z * nat :=
  if b0 <? 0x80 then (b0, 1%nat)
  else
    match first_byte b0, s with
    | Some (2%nat, lo, hi), b1 :: _ =>
        if in_range lo hi b1 then ((b0 .& 0x1f) * 64 + (b1 .& 0x3f), 2%nat) else (RuneError, 1%nat)
    | Some (3%nat, lo, hi), b1 :: b2 :: _ =>
        if in_range lo hi b1 && in_range 0x80 0xbf b2
        then ((b0 .& 0x0f) * 4096 + (b1 .& 0x3f) * 64 + (b2 .& 0x3f), 3%nat) else (RuneError, 1%nat)
    | Some (4%nat, lo, hi), b1 :: b2 :: b3 :: _ =>
        if in_range lo hi b1 && in_range 0x80 0xbf b2 && in_range 0x80 0xbf b3
        then ((b0 .& 0x07) * 262144 + (b1 .& 0x3f) * 4096 + (b2 .& 0x3f) * 64 + (b3 .& 0x3f), 4%nat)
        else (RuneError, 1%nat)
    | _, _ => (RuneError, 1%nat)
    end.

(** [utf8.AppendRune] of a valid rune. *)
Definition AppendRune (r : Z) : byte_list :=
  if r <? 0x80 then [r]
  else if r <? 0x800 then [0xc0 + r / 64; 0x80 + r mod 64]
  else if r <? 0x10000 then [0xe0 + r / 4096; 0x80 + r / 64 mod 64; 0x80 + r mod 64]
  else [0xf0 + r / 262144; 0x80 + r / 4096 mod 64; 0x80 + r / 64 mod 64; 0x80 + r mod 64].

(** ** Quoting *)
Definition lowerhex (d : Z) : Z := if d <? 10 then 48 + d else 87 + d.
Fixpoint hex_digits (n : nat) (v : Z) : byte_list :=
  match n with O => [] | S n => hex_digits n (v / 16) ++ [lowerhex (v mod 16)] end.

(** The letters after the backslash in [\a] to [\v]. *)
Definition letter_escape (r : Z) : option Z :=
  if r =? 7 then Some 97 else if r =? 8 then Some 98 else if r =? 12 then Some 102
  else if r =? 10 then Some 110 else if r =? 13 then Some 114 else if r =? 9 then Some 116
  else if r =? 11 then Some 118 else None.

Definition appendEscapedRune `{UnicodeTables} (r : Z) : byte_list :=
  if (r =? 34) || (r =? 92) then [92; r]
  else if IsPrint r then AppendRune r
  else
    match letter_escape r with
    | Some c => [92; c]
    | None =>
        if (r <? 32) || (r =? 0x7f) then 92 :: 120 :: hex_digits 2 r
        else if r <? 0x10000 then 92 :: 117 :: hex_digits 4 r
        else 92 :: 85 :: hex_digits 8 r
    end.

Fixpoint quote_loop `{UnicodeTables} (fuel : nat) (s : byte_list) : byte_list :=
  match fuel, s with
  | S fuel, b0 :: s' =>
      let '(r, width) := DecodeRune b0 s' in
      (if (width =? 1)%nat && (r =? RuneError) then 92 :: 120 :: hex_digits 2 b0 else appendEscapedRune r) ++
      quote_loop fuel (drop (width - 1) s')
  | _, _ => []
  end.
Definition quote_bytes `{UnicodeTables} (s : byte_list) : byte_list := [34] ++ quote_loop (length s) s ++ [34].

(** ** Reading a quoted string *)
Definition hex_value (c : Z) : option Z :=
  if in_range 48 57 c then Some (c - 48) else if in_range 97 102 c then Some (c - 87) else None.
Fixpoint read_hex (n : nat) (acc : Z) (s : byte_list) : option (Z * byte_list) :=
  match n, s with
  | O, _ => Some (acc, s)
  | S n, c :: s => d ← hex_value c; read_hex n (acc * 16 + d) s
  | S _, [] => None
  end.
Definition letter_value (c : Z) : option Z :=
  if c =? 97 then Some 7 else if c =? 98 then Some 8 else if c =? 102 then Some 12
  else if c =? 110 then Some 10 else if c =? 114 then Some 13 else if c =? 116 then Some 9
  else if c =? 118 then Some 11 else if (c =? 34) || (c =? 92) then Some c else None.

Definition read_escape (c : Z) (s : byte_list) : option (byte_list * byte_list) :=
  if c =? 120 then '(v, s) ← read_hex 2 0 s; Some ([v], s)
  else if c =? 117 then '(v, s) ← read_hex 4 0 s; Some (AppendRune v, s)
  else if c =? 85 then '(v, s) ← read_hex 8 0 s; Some (AppendRune v, s)
  else v ← letter_value c; Some ([v], s).

(** The contents and what follows the closing quote. *)
Fixpoint unquote_loop (fuel : nat) (s : byte_list) : option (byte_list * byte_list) :=
  match fuel, s with
  | S fuel, c :: s =>
      if c =? 34 then Some ([], s)
      else if c =? 92 then
        match s with
        | [] => None
        | e :: s =>
            '(v, s) ← read_escape e s;
            '(l, s) ← unquote_loop fuel s;
            Some (v ++ l, s)
        end
      else '(l, s) ← unquote_loop fuel s; Some (c :: l, s)
  | _, _ => None
  end.
Definition unquote (s : byte_list) : option (byte_list * byte_list) :=
  match s with
  | c :: s => if c =? 34 then unquote_loop (length s) s else None
  | [] => None
  end.

(** ** UTF-8 is canonical *)
Definition bytes_ok (s : byte_list) : Prop := Forall (uint 8) s.

Lemma in_range_spec lo hi b : in_range lo hi b = true ↔ lo <= b <= hi.
Proof. unfold in_range. rewrite andb_true_iff, !Z.leb_le. done. Qed.

Lemma first_byte_spec b n lo hi : first_byte b = Some (n, lo, hi) →
  (n = 2%nat ∧ 0xc2 <= b <= 0xdf ∧ lo = 0x80 ∧ hi = 0xbf) ∨
  (n = 3%nat ∧ 0xe0 <= b <= 0xef ∧ 0x80 <= lo ∧ hi <= 0xbf ∧ (b = 0xe0 → 0xa0 <= lo) ∧ (b = 0xed → hi <= 0x9f)) ∨
  (n = 4%nat ∧ 0xf0 <= b <= 0xf4 ∧ 0x80 <= lo ∧ hi <= 0xbf ∧ (b = 0xf0 → 0x90 <= lo) ∧ (b = 0xf4 → hi <= 0x8f)).
Proof.
  unfold first_byte.
  repeat match goal with
  | |- context [in_range ?lo ?hi ?x] => let E := fresh in destruct (in_range lo hi x) eqn:E; [apply in_range_spec in E|]
  | |- context [?x =? ?y] => destruct (Z.eqb_spec x y)
  end; intros [= <- <- <-]; lia.
Qed.

Lemma mask_3f b : b .& 0x3f = b mod 64.
Proof. exact (land_low b 6 ltac:(lia)). Qed.
Lemma mask_1f b : b .& 0x1f = b mod 32.
Proof. exact (land_low b 5 ltac:(lia)). Qed.
Lemma mask_0f b : b .& 0x0f = b mod 16.
Proof. exact (land_low b 4 ltac:(lia)). Qed.
Lemma mask_07 b : b .& 0x07 = b mod 8.
Proof. exact (land_low b 3 ltac:(lia)). Qed.

(** A rune decoded from more than one byte encodes to those bytes. *)
Lemma DecodeRune_encode b0 s r w : DecodeRune b0 s = (r, w) → uint 8 b0 →
  (w = 1%nat ∧ ((b0 < 0x80 ∧ r = b0) ∨ (0x80 <= b0 ∧ r = RuneError))) ∨
  ((1 < w)%nat ∧ 0x80 <= r <= 0x10ffff ∧ ∃ t, s = take (w - 1) s ++ t ∧ drop (w - 1) s = t ∧
     AppendRune r = b0 :: take (w - 1) s ∧ Forall (λ b, 0x80 <= b) (AppendRune r)).
Proof.
  intros E Hb. unfold DecodeRune in E. destruct (Z.ltb_spec b0 0x80) as [H|H]; [injection E as <- <-; auto|].
  assert (∀ r' w', (RuneError, 1%nat) = (r', w') → (w' = 1%nat ∧ ((b0 < 0x80 ∧ r' = b0) ∨ (0x80 <= b0 ∧ r' = RuneError)))) as Herr
    by (intros r' w' [= <- <-]; auto).
  destruct (first_byte b0) as [[[n lo] hi]|] eqn:Ef; [|by left; apply Herr].
  apply first_byte_spec in Ef as [(-> & Hr & -> & ->)|[(-> & Hr & Hlo & Hhi & He0 & Hed)|(-> & Hr & Hlo & Hhi & Hf0 & Hf4)]].
  - destruct s as [|b1 s]; [by left; apply Herr|]. destruct (in_range 0x80 0xbf b1) eqn:E1; [|by left; apply Herr].
    apply in_range_spec in E1. rewrite mask_1f, mask_3f in E. injection E as <- <-. right.
    assert (b0 mod 32 = b0 - 192 ∧ b1 mod 64 = b1 - 128) as [-> ->] by (split; Z.to_euclidean_division_equations; lia).
    set (r := _ + _). assert (r / 64 = b0 - 192 ∧ r mod 64 = b1 - 128) as [Ed Em] by (subst r; split; Z.to_euclidean_division_equations; lia).
    split; [lia|]. split; [lia|]. exists s. split; [done|]. split; [done|].
    assert (AppendRune r = [b0; b1]) as ->; [|split; [done|repeat constructor; lia]].
    unfold AppendRune. rewrite (proj2 (Z.ltb_ge _ _)), (proj2 (Z.ltb_lt _ _)), Ed, Em by lia. repeat f_equal; lia.
  - destruct s as [|b1 [|b2 s]]; [by left; apply Herr|by left; apply Herr|].
    destruct (in_range lo hi b1) eqn:E1; [|by left; apply Herr]. destruct (in_range 0x80 0xbf b2) eqn:E2; [|by left; apply Herr].
    apply in_range_spec in E1, E2. rewrite mask_0f, !mask_3f in E. injection E as <- <-. right.
    assert (b0 mod 16 = b0 - 224 ∧ b1 mod 64 = b1 - 128 ∧ b2 mod 64 = b2 - 128) as (-> & -> & ->)
      by (split_and!; Z.to_euclidean_division_equations; lia).
    set (r := _ + _). assert (r / 4096 = b0 - 224 ∧ r / 64 mod 64 = b1 - 128 ∧ r mod 64 = b2 - 128) as (Ed & Em & El)
      by (subst r; split_and!; Z.to_euclidean_division_equations; lia).
    split; [lia|]. split; [lia|]. exists s. split; [done|]. split; [done|].
    assert (AppendRune r = [b0; b1; b2]) as ->; [|split; [done|repeat constructor; lia]].
    unfold AppendRune. rewrite (proj2 (Z.ltb_ge r 0x80)), (proj2 (Z.ltb_ge r 0x800)), (proj2 (Z.ltb_lt _ _)), Ed, Em, El by lia.
    repeat f_equal; lia.
  - destruct s as [|b1 [|b2 [|b3 s]]]; [by left; apply Herr|by left; apply Herr|by left; apply Herr|].
    destruct (in_range lo hi b1) eqn:E1; [|by left; apply Herr]. destruct (in_range 0x80 0xbf b2) eqn:E2; [|by left; apply Herr].
    destruct (in_range 0x80 0xbf b3) eqn:E3; [|by left; apply Herr].
    apply in_range_spec in E1, E2, E3. rewrite mask_07, !mask_3f in E. injection E as <- <-. right.
    assert (b0 mod 8 = b0 - 240 ∧ b1 mod 64 = b1 - 128 ∧ b2 mod 64 = b2 - 128 ∧ b3 mod 64 = b3 - 128) as (-> & -> & -> & ->)
      by (split_and!; Z.to_euclidean_division_equations; lia).
    set (r := _ + _).
    assert (r / 262144 = b0 - 240 ∧ r / 4096 mod 64 = b1 - 128 ∧ r / 64 mod 64 = b2 - 128 ∧ r mod 64 = b3 - 128) as (Ed & Em & El & Ek)
      by (subst r; split_and!; Z.to_euclidean_division_equations; lia).
    split; [lia|]. split; [lia|]. exists s. split; [done|]. split; [done|].
    assert (AppendRune r = [b0; b1; b2; b3]) as ->; [|split; [done|repeat constructor; lia]].
    unfold AppendRune. rewrite (proj2 (Z.ltb_ge r 0x80)), (proj2 (Z.ltb_ge r 0x800)), (proj2 (Z.ltb_ge r 0x10000)), Ed, Em, El, Ek by lia.
    repeat f_equal; lia.
Qed.

(** ** Reading back what was quoted *)
Lemma hex_value_lowerhex d : 0 <= d < 16 → hex_value (lowerhex d) = Some d.
Proof.
  intros H. unfold hex_value, lowerhex, in_range. destruct (Z.ltb_spec d 10).
  - rewrite (proj2 (Z.leb_le 48 _)), (proj2 (Z.leb_le _ 57)) by lia. simpl. f_equal. lia.
  - rewrite (proj2 (Z.leb_gt (87 + d) 57)) by lia. rewrite andb_false_r.
    rewrite (proj2 (Z.leb_le 97 _)), (proj2 (Z.leb_le _ 102)) by lia. simpl. f_equal. lia.
Qed.

Lemma read_hex_digits n : ∀ m acc v rest, 0 <= v < 16 ^ Z.of_nat n →
  read_hex (n + m) acc (hex_digits n v ++ rest) = read_hex m (acc * 16 ^ Z.of_nat n + v) rest.
Proof.
  induction n as [|n IH]; intros m acc v rest Hv.
  { simpl. f_equal. change (16 ^ Z.of_nat 0) with 1 in *. lia. }
  rewrite Nat2Z.inj_succ, Z.pow_succ_r in * by lia. cbn [hex_digits]. rewrite <- app_assoc.
  replace (S n + m)%nat with (n + S m)%nat by lia. rewrite IH.
  - cbn [app read_hex]. rewrite hex_value_lowerhex by (apply Z.mod_pos_bound; lia). cbn [mbind option_bind].
    f_equal. pose proof (Z.div_mod v 16). lia.
  - split; [apply Z.div_pos; lia|apply Z.div_lt_upper_bound; lia].
Qed.

Lemma read_hex_all n v rest : 0 <= v < 16 ^ Z.of_nat n → read_hex n 0 (hex_digits n v ++ rest) = Some (v, rest).
Proof. intros H. pose proof (read_hex_digits n 0 0 v rest H) as E. rewrite Nat.add_0_r in E. by rewrite E. Qed.

Lemma unquote_loop_more k : ∀ s x fuel, unquote_loop fuel s = Some x → unquote_loop (fuel + k) s = Some x.
Proof.
  intros s x fuel. revert s x. induction fuel as [|fuel IH]; intros s x E; [done|].
  destruct s as [|c s]; [done|]. cbn [Nat.add unquote_loop] in *. destruct (c =? 34); [done|].
  destruct (c =? 92).
  - destruct s as [|e s]; [done|]. destruct (read_escape e s) as [[v s']|]; [|done]. cbn [mbind option_bind] in *.
    destruct (unquote_loop fuel s') as [y|] eqn:E'; [|done]. by rewrite (IH _ _ E').
  - destruct (unquote_loop fuel s) as [y|] eqn:E'; [|done]. by rewrite (IH _ _ E').
Qed.

(** [out] stands for the bytes [piece] of the contents. *)
Definition stands_for (out piece : byte_list) : Prop :=
  ∀ fuel tail l rest, unquote_loop fuel tail = Some (l, rest) →
    unquote_loop (length out + fuel) (out ++ tail) = Some (piece ++ l, rest).

Lemma stands_for_raw l : Forall (λ c, c ≠ 34 ∧ c ≠ 92) l → stands_for l l.
Proof.
  intros H fuel tail l' rest E. induction H as [|c l [H1 H2] _ IH]; [done|]. simpl.
  rewrite (proj2 (Z.eqb_neq c 34)), (proj2 (Z.eqb_neq c 92)) by done. by rewrite IH.
Qed.

Lemma unquote_escape fuel e s : unquote_loop (S fuel) (92 :: e :: s) =
  '(v, s) ← read_escape e s; '(l, s) ← unquote_loop fuel s; Some (v ++ l, s).
Proof. reflexivity. Qed.

Lemma stands_for_escape e digits piece :
  (∀ tail, read_escape e (digits ++ tail) = Some (piece, tail)) → stands_for (92 :: e :: digits) piece.
Proof.
  intros H fuel tail l rest E. cbn [length app].
  replace (S (S (length digits)) + fuel)%nat with (S (fuel + S (length digits))) by lia.
  rewrite unquote_escape, H. cbn [mbind option_bind].
  by rewrite (unquote_loop_more _ _ _ _ E).
Qed.

Lemma stands_for_x v : uint 8 v → stands_for (92 :: 120 :: hex_digits 2 v) [v].
Proof.
  intros Hv. apply stands_for_escape. intros tail. unfold read_escape. change (120 =? 120) with true. cbv iota.
  by rewrite read_hex_all by (unfold uint in Hv; simpl; lia).
Qed.

Lemma letter_value_escape r c : letter_escape r = Some c →
  letter_value c = Some r ∧ c ≠ 120 ∧ c ≠ 117 ∧ c ≠ 85.
Proof.
  unfold letter_escape. repeat match goal with |- context [?x =? ?y] => destruct (Z.eqb_spec x y) as [->|] end;
    intros [= <-]; vm_compute; split_and!; congruence.
Qed.

Lemma stands_for_rune `{UnicodeTables} r : 0 <= r <= 0x10ffff → 0x80 <= r ∨ r < 0x80 →
  (0x80 <= r → Forall (λ b, 0x80 <= b) (AppendRune r)) → stands_for (appendEscapedRune r) (AppendRune r).
Proof.
  intros Hr _ Hhigh. unfold appendEscapedRune.
  assert (r < 0x80 → AppendRune r = [r]) as Hlow by (intros; unfold AppendRune; by rewrite (proj2 (Z.ltb_lt _ _))).
  destruct ((r =? 34) || (r =? 92)) eqn:Eq.
  { assert (r = 34 ∨ r = 92) as H' by (apply orb_true_iff in Eq; rewrite !Z.eqb_eq in Eq; done).
    rewrite Hlow by lia. apply stands_for_escape. intros tail. by destruct H' as [->| ->]. }
  apply orb_false_iff in Eq as [E1 E2]. apply Z.eqb_neq in E1, E2.
  destruct (IsPrint r) eqn:Ep.
  { apply stands_for_raw. destruct (Z.lt_ge_cases r 0x80) as [H'|H'].
    - rewrite Hlow by done. by constructor.
    - eapply Forall_impl; [by apply Hhigh|]. cbv beta. intros; lia. }
  destruct (letter_escape r) as [c|] eqn:El.
  { destruct (letter_value_escape r c El) as (Ev & Hx & Hu & HU).
    assert (AppendRune r = [r]) as ->.
    { apply Hlow. unfold letter_escape in El.
      repeat match type of El with context [?x =? ?y] => destruct (Z.eqb_spec x y) as [->|] end; (lia || done). }
    apply (stands_for_escape c []). intros tail. unfold read_escape.
    rewrite (proj2 (Z.eqb_neq _ _) Hx), (proj2 (Z.eqb_neq _ _) Hu), (proj2 (Z.eqb_neq _ _) HU). simpl. by rewrite Ev. }
  destruct ((r <? 32) || (r =? 0x7f)) eqn:Ec.
  { assert (r < 0x80) as Hs by (apply orb_true_iff in Ec; rewrite Z.ltb_lt, Z.eqb_eq in Ec; lia).
    rewrite Hlow by done. apply stands_for_x. unfold uint. lia. }
  destruct (Z.ltb_spec r 0x10000); apply stands_for_escape; intros tail; unfold read_escape; cbn [Z.eqb Pos.eqb];
    rewrite read_hex_all by (simpl; lia); done.
Qed.

Lemma quote_loop_stands `{UnicodeTables} fuel : ∀ s, bytes_ok s → (length s <= fuel)%nat → stands_for (quote_loop fuel s) s.
Proof.
  induction fuel as [|fuel IH]; intros s Hs Hf; [destruct s; [by intros ??|simpl in Hf; lia]|].
  destruct s as [|b0 s]; [by intros ??|]. apply Forall_cons in Hs as [Hb Hs]. cbn [quote_loop].
  destruct (DecodeRune b0 s) as [r w] eqn:E.
  assert (stands_for (if (w =? 1)%nat && (r =? RuneError) then 92 :: 120 :: hex_digits 2 b0 else appendEscapedRune r)
    (b0 :: take (w - 1) s)) as H1.
  { destruct (DecodeRune_encode b0 s r w E Hb) as [(-> & [[Hlt ->]|[Hge ->]])|(Hw & Hr & t & Es & Ed & Ea & Hh)].
    - rewrite (proj2 (Z.eqb_neq b0 RuneError)) by (unfold RuneError; lia). simpl. rewrite take_0.
      assert (AppendRune b0 = [b0]) as <- by (unfold AppendRune; by rewrite (proj2 (Z.ltb_lt _ _))).
      apply stands_for_rune; [unfold uint in Hb; lia|lia|lia].
    - simpl. rewrite take_0. by apply stands_for_x.
    - rewrite (proj2 (Nat.eqb_neq w 1)) by lia. simpl. rewrite <- Ea. apply stands_for_rune; [lia|lia|done]. }
  assert (stands_for (quote_loop fuel (drop (w - 1) s)) (drop (w - 1) s)) as H2.
  { apply IH; [by apply Forall_drop|]. rewrite length_drop. simpl in Hf. lia. }
  intros fuel' tail l rest El. rewrite length_app, <- app_assoc.
  rewrite <- (take_drop (w - 1) s) at 3. rewrite app_comm_cons, <- app_assoc, <- Nat.add_assoc. by apply H1, H2.
Qed.

(** Quoting loses nothing, and the end of a quoted string is found whatever
    follows it. *)
Lemma unquote_quote `{UnicodeTables} s rest : bytes_ok s → unquote (quote_bytes s ++ rest) = Some (s, rest).
Proof.
  intros Hs. unfold quote_bytes, unquote. rewrite <- !app_assoc. cbn [app]. change (34 =? 34) with true. cbv iota.
  pose proof (quote_loop_stands (length s) s Hs (Nat.le_refl _) 1%nat (34 :: rest) [] rest eq_refl) as E.
  rewrite app_nil_r in E. rewrite length_app. simpl length.
  replace (length (quote_loop (length s) s) + S (length rest))%nat
    with (length (quote_loop (length s) s) + 1 + length rest)%nat by lia.
  by apply unquote_loop_more.
Qed.
