(* ===== verification/Metrics.v ===== *)
(** * Metrics: the text exposition

    Models the Prometheus text output of app/vmestimator/snapshot.go
    ([writeMetrics] and the append functions), of churn.go and of estimator.go.
    Buffers are byte lists; the writer is the in-memory buffer the program
    passes, so a write cannot fail. *)
From Stdlib Require Import Ascii String Floats.SpecFloat.
From S2P Require Import Prelude GoFloat GoText Types CompressedList ProtoReader XXHash GoQuote Config.
From S2P Require Import SketchSpec GroupSize Snapshot Estimator EstimatorInsert EstimatorWindow EstimatorLife.
From S2P Require Import EstimatorSnapshot EstimatorTyped Churn.
Local Open Scope Z_scope.

Section Append.
Context `{Tab : UnicodeTables}.

(** String literals and keys appended to a buffer. *)
Definition append_string (buf : byte_list) (s : string) : byte_list := buf ++ bytes_of_string s.
(** [strconv.AppendQuote], [AppendUint] and [AppendInt] in base 10. *)
Definition AppendQuote (buf : byte_list) (s : string) : byte_list := buf ++ quote_bytes (bytes_of_string s).
Definition AppendInt (buf : byte_list) (n : Z) : byte_list := append_string buf (dec n).

(** The keys or values separated by commas. *)
Fixpoint join_comma (l : list string) : byte_list :=
  match l with
  | [] => []
  | [s] => bytes_of_string s
  | s :: l => bytes_of_string s ++ 44 :: join_comma l
  end.
Definition AppendQuoteBytes (buf bs : byte_list) : byte_list := buf ++ quote_bytes bs.

Definition appendGroupByKeysLabel (buf : byte_list) (labelName : string) (keys : list string) : byte_list :=
  let buf := append_string buf labelName in
  let buf := buf ++ [61] in
  AppendQuoteBytes buf (join_comma keys).

(** [,name="value"] for each static label in the order of the names. *)
Definition append_labels (buf : byte_list) (labels : gmap string string) : byte_list :=
  foldl (λ buf k, AppendQuote (append_string (buf ++ [44]) k ++ [61]) (default EmptyString (labels !! k)))
    buf (sorted_keys labels).

Definition append_prefix (metric : string) (buf : byte_list) (labels : gmap string string) (interval : Z)
    (filter : string) : byte_list :=
  let buf := append_string buf metric in
  let buf := AppendQuote buf (Duration_String interval) in
  let buf := append_string buf ",filter=" in
  let buf := AppendQuote buf filter in
  append_labels buf labels.
Definition appendCardinalityEstimateMetricPrefix : byte_list → gmap string string → Z → string → byte_list :=
  append_prefix "cardinality_estimate{interval=".
Definition appendChurnMetricPrefix : byte_list → gmap string string → Z → string → byte_list :=
  append_prefix "cardinality_churn_ratio{interval=".

(** Go raw strings with quotes in them are written as byte lists here. *)
Definition quoted (s : string) : byte_list := [34] ++ bytes_of_string s ++ [34].

Definition appendCardinalityEstimateGlobalMetric (buf metricPrefix : byte_list) : byte_list :=
  let buf := buf ++ metricPrefix in
  append_string buf ",group_by_keys=" ++ quoted "__global__" ++ bytes_of_string "} ".

Definition appendCardinalityEstimateGroupSizeMetric (buf metricPrefix : byte_list) (keys : list string) : byte_list :=
  let buf := buf ++ metricPrefix in
  let buf := append_string buf ",group_by_keys=" ++ quoted "__group__" ++ [44] in
  let buf := appendGroupByKeysLabel buf "group_by_values" keys in
  append_string buf "} ".

(** [buf = buf[:0]] first. *)
Definition appendGroupLimitMetric (buf : byte_list) (keys : list string) (interval : Z) (filter : string) : byte_list :=
  let buf := append_string [] "vmestimator_estimator_group_limit{interval=" in
  let buf := AppendQuote buf (Duration_String interval) in
  let buf := append_string buf ",filter=" in
  let buf := AppendQuote buf filter in
  let buf := append_string buf ",group_by_keys=" ++ quoted "__group__" ++ [44] in
  let buf := appendGroupByKeysLabel buf "group_by_values" keys in
  append_string buf "} ".

(** The name of the label of one group-by key. *)
Definition by_key (key : string) : string :=
  if decide (key = "__name__"%string) then "by__name__"%string
  else if decide (key = labelKeyword) then "by__label__"%string
  else ("by_" +:+ key)%string.

Definition append_value (keys values : list string) (buf : byte_list) (i : nat) : option byte_list :=
  v ← values !! i;
  k ← keys !! i;
  Some (AppendQuote (append_string (buf ++ [44]) (by_key k) ++ [61]) v).

Definition appendCardinalityEstimateGroupMetrics (buf metricPrefix groupByKeysLabel : byte_list)
    (keys values : list string) : option byte_list :=
  let buf := buf ++ metricPrefix in
  let buf := buf ++ [44] in
  let buf := buf ++ groupByKeysLabel in
  let buf := buf ++ [44] in
  let buf := append_string buf "group_by_values=" in
  let buf := AppendQuoteBytes buf (join_comma values) in
  buf ← for_each (append_value keys values) (seq 0 (length values)) buf;
  Some (append_string buf "} ").
End Append.

Section Write.
Context `{Tab : UnicodeTables} `{Ops : SketchOps} `{Ord : IterOrder}.

Definition newline : byte_list := [10].

(** [ssk.Sketch.Estimate()], which may rearrange the sketch. *)
Definition estimate_group (s : snapshot) (key : Z) : option (snapshot * list string * Z) :=
  ssk ← s_Sketches s !! key;
  '(sk, n) ← sk_Estimate (ss_Sketch ssk);
  Some (set_Sketches s (<[key := mkSSK (ss_Values ssk) sk]> (s_Sketches s)), ss_Values ssk, n).

Definition threshold (minCardinalityFlag : Z) (s : snapshot) : Z :=
  if 0 <? s_MinCardinality s then wrap 64 (s_MinCardinality s)
  else if s_MinCardinality s <? 0 then 0
  else minCardinalityFlag.

(** The body of the loop over the groups. *)
Definition write_group (thr : Z) (metricPrefix groupByKeysLabel : byte_list)
    (st : snapshot * byte_list * Z) (key : Z) : option (snapshot * byte_list * Z) :=
  let '(s, w, dropped) := st in
  '(s, values, estimate) ← estimate_group s key;
  if estimate <? thr then Some (s, w, dropped +[64] 1)
  else
    tmpBuf ← appendCardinalityEstimateGroupMetrics [] metricPrefix groupByKeysLabel (s_GroupBy s) values;
    Some (s, w ++ AppendInt tmpBuf estimate ++ newline, dropped).

Definition writeCardinalityEstimates (minCardinalityFlag : Z) (s : snapshot) (w : byte_list)
    : option (snapshot * byte_list * Z) :=
  let metricPrefix := appendCardinalityEstimateMetricPrefix [] (s_Labels s) (s_Interval s) (s_Filter s) in
  match s_GroupBy s with
  | [] =>
      '(s, _, estimate) ← estimate_group s 0;
      Some (s, w ++ AppendInt (appendCardinalityEstimateGlobalMetric [] metricPrefix) estimate ++ newline, 0)
  | _ =>
      let groupByKeysLabel := appendGroupByKeysLabel [] "group_by_keys" (s_GroupBy s) in
      for_each (write_group (threshold minCardinalityFlag s) metricPrefix groupByKeysLabel)
        (iter_keys (dom (s_Sketches s))) (s, w, 0)
  end.

Definition writeGroupSizeAndLimit (s : snapshot) (w : byte_list) (groupSize : Z) : byte_list :=
  let metricPrefix := appendCardinalityEstimateMetricPrefix [] (s_Labels s) (s_Interval s) (s_Filter s) in
  let w := w ++ AppendInt (appendCardinalityEstimateGroupSizeMetric [] metricPrefix (s_GroupBy s)) groupSize ++ newline in
  w ++ AppendInt (appendGroupLimitMetric [] (s_GroupBy s) (s_Interval s) (s_Filter s)) (s_GroupLimit s) ++ newline.

(** A panic for a global snapshot. *)
Definition writeDroppedMetric (s : snapshot) (w : byte_list) (dropped : Z) : option byte_list :=
  match s_GroupBy s with
  | [] => None
  | _ =>
      let tmpBuf := append_string [] "vmestimator_cardinality_estimates_dropped{interval=" in
      let tmpBuf := AppendQuote tmpBuf (Duration_String (s_Interval s)) in
      let tmpBuf := append_string tmpBuf ",filter=" in
      let tmpBuf := AppendQuote tmpBuf (s_Filter s) in
      let tmpBuf := append_string tmpBuf "," in
      let tmpBuf := appendGroupByKeysLabel tmpBuf "group_by_keys" (s_GroupBy s) in
      let tmpBuf := append_string tmpBuf "} " in
      Some (w ++ AppendInt tmpBuf dropped ++ newline)
  end.

Definition snapshot_writeMetrics (minCardinalityFlag : Z) (s : snapshot) (w : byte_list)
    : option (snapshot * byte_list) :=
  '(s, w, dropped) ← writeCardinalityEstimates minCardinalityFlag s w;
  match s_GroupBy s with
  | [] => Some (s, w)
  | _ =>
      w ← (if 0 <? dropped then writeDroppedMetric s w dropped else Some w);
      Some (s, writeGroupSizeAndLimit s w
                 (wrapS 64 (Z.of_nat (size (s_Sketches s)) + s_GroupRejectSize s)))
  end.

(** [snapshots.writeMetrics]; [order] is the order in which the ids are visited. *)
Definition snapshots_writeMetrics (minCardinalityFlag : Z) (order : list string) (ss : gmap string snapshot)
    (w : byte_list) : option (gmap string snapshot * byte_list) :=
  for_each (λ '(ss, w) id,
    s ← ss !! id; '(s, w) ← snapshot_writeMetrics minCardinalityFlag s w; Some (<[id := s]> ss, w)) order (ss, w).

(** [estimator.writeMetrics]: the callback of [toSnapshot] adds up the dropped
    groups. *)
Definition estimate_callback (minCardinalityFlag : Z) (st : byte_list * Z) (s : snapshot)
    : option (byte_list * Z * bool) :=
  let '(w, dropped) := st in
  '(_, w, d) ← writeCardinalityEstimates minCardinalityFlag s w;
  Some (w, dropped +[64] d, true).

Definition estimator_writeMetrics `{Ql : MetricsQL} (minCardinalityFlag : Z) (e : estimator) (w : byte_list)
    : option (estimator * byte_list) :=
  '(st, _, e) ← toSnapshot (estimate_callback minCardinalityFlag) e (w, 0);
  let '(w, dropped) := st in
  match e_groupBy e with
  | [] => Some (e, w)
  | _ =>
      eb0 ← e_buckets e !! 0%nat;
      let s := mkSnapshot EmptyString (eb_interval eb0) false (labels_of (eb_labels eb0)) (eb_filter eb0) (eb_groupBy eb0)
                 (gs_limit (e_groupSize e)) 0 (e_minCardinality e) ∅ in
      w ← (if 0 <? dropped then writeDroppedMetric s w dropped else Some w);
      '(gs, total) ← totalSize (e_groupSize e);
      Some (set_buckets e (e_buckets e) gs, writeGroupSizeAndLimit s w total)
  end.

(** [strconv.AppendFloat(buf, f, 'f', 4, 64)] of a finite float: the exact
    value rounded half to even at the fourth decimal. *)
Definition round_half_even (num den : Z) : Z :=
  let q := num / den in
  let r := num mod den in
  if (2 * r <? den) || ((2 * r =? den) && Z.even q) then q else q + 1.
Definition decimals4 (n : Z) : string :=
  (dec (n / 10000) +:+ "." +:+
   String (digit (n / 1000 mod 10)) (String (digit (n / 100 mod 10))
     (String (digit (n / 10 mod 10)) (String (digit (n mod 10)) EmptyString))))%string.
Definition AppendFloat4 (buf : byte_list) (f : float64) : byte_list :=
  append_string buf
    match f with
    | S754_zero s => (if (s : bool) then "-0.0000" else "0.0000")%string
    | S754_infinity s => (if (s : bool) then "-Inf" else "+Inf")%string
    | S754_nan => "NaN"%string
    | S754_finite s m e =>
        let scaled := Z.pos m * 10000 in
        let n := if 0 <=? e then scaled * 2 ^ e else round_half_even scaled (2 ^ - e) in
        ((if (s : bool) then "-" else "") +:+ decimals4 n)%string
    end.

(** [churnSnapshots.writeMetrics]; [order] is the order of the entries. *)
Definition write_churn_entry (st : gmap churnKey churnEntry * byte_list) (k : churnKey)
    : option (gmap churnKey churnEntry * byte_list) :=
  let '(entries, w) := st in
  e ← entries !! k;
  let metricPrefix := appendChurnMetricPrefix [] (default ∅ (ce_labels e)) (ce_interval e) (ce_filter e) in
  '(e, rate) ← churnRatio e;
  buf ← match ce_groupBy e with
        | [] => Some (metricPrefix ++ bytes_of_string ",group_by_keys=" ++ quoted "__global__" ++ bytes_of_string "} ")
        | _ =>
            let groupByKeysLabel := appendGroupByKeysLabel [] "group_by_keys" (ce_groupBy e) in
            appendCardinalityEstimateGroupMetrics [] metricPrefix groupByKeysLabel (ce_groupBy e) (ce_values e)
        end;
  Some (<[k := e]> entries, w ++ AppendFloat4 buf rate ++ newline).
Definition churn_writeMetrics (order : list churnKey) (entries : gmap churnKey churnEntry) (w : byte_list)
    : option (gmap churnKey churnEntry * byte_list) :=
  for_each write_churn_entry order (entries, w).
End Write.

(** ** The line of a group *)
Section Lines.
Context `{Tab : UnicodeTables}.

Lemma bytes_of_string_ok s : bytes_ok (bytes_of_string s).
Proof.
  unfold bytes_of_string. apply Forall_map, Forall_true. intros a. unfold uint.
  pose proof (Ascii.N_ascii_bounded a). lia.
Qed.

Lemma string_of_bytes s : ToUnsafeString (bytes_of_string s) = s.
Proof.
  unfold ToUnsafeString, bytes_of_string. rewrite map_map.
  rewrite (map_ext _ id), map_id; [apply String.string_of_list_ascii_of_string|].
  intros a. rewrite N2Z.id. apply Ascii.ascii_N_embedding.
Qed.
Lemma bytes_of_string_inj s t : bytes_of_string s = bytes_of_string t → s = t.
Proof. intros E. by rewrite <- (string_of_bytes s), E, string_of_bytes. Qed.

Lemma join_comma_ok l : bytes_ok (join_comma l).
Proof.
  induction l as [|s [|t l] IH]; [constructor|apply bytes_of_string_ok|]. cbn [join_comma].
  apply Forall_app. split; [apply bytes_of_string_ok|]. constructor; [done|exact IH].
Qed.

Lemma quote_bytes_inj s t r1 r2 : bytes_ok s → bytes_ok t →
  quote_bytes s ++ r1 = quote_bytes t ++ r2 → s = t ∧ r1 = r2.
Proof.
  intros Hs Ht E. pose proof (unquote_quote s r1 Hs) as E1. rewrite E, (unquote_quote t r2 Ht) in E1.
  by injection E1 as -> ->.
Qed.

(** One [,by_key="value"]. *)
Definition value_label (k v : string) : byte_list :=
  44 :: bytes_of_string (by_key k) ++ 61 :: quote_bytes (bytes_of_string v).
Fixpoint value_labels (keys values : list string) : byte_list :=
  match keys, values with
  | k :: keys, v :: values => value_label k v ++ value_labels keys values
  | _, _ => []
  end.

Lemma append_values keys values : ∀ n buf, length values = length keys → (n <= length values)%nat →
  for_each (append_value keys values) (seq (length values - n) n) buf =
    Some (buf ++ value_labels (drop (length values - n) keys) (drop (length values - n) values)).
Proof.
  induction n as [|n IH]; intros buf Hl Hn.
  { rewrite Nat.sub_0_r, (drop_ge keys), (drop_ge values) by lia. simpl. by rewrite app_nil_r. }
  destruct (lookup_lt_is_Some_2 values (length values - S n)) as [v Ev]; [lia|].
  destruct (lookup_lt_is_Some_2 keys (length values - S n)) as [k Ek]; [lia|].
  cbn [seq for_each].
  assert (append_value keys values buf (length values - S n) = Some (buf ++ value_label k v)) as ->.
  { unfold append_value. rewrite Ev, Ek. cbn [mbind option_bind]. unfold AppendQuote, append_string, value_label.
    by rewrite <- !app_assoc. }
  cbn [mbind option_bind].
  replace (S (length values - S n)) with (length values - n)%nat by lia. rewrite IH by lia. f_equal.
  rewrite (drop_S keys k _ Ek), (drop_S values v _ Ev). cbn [value_labels].
  replace (S (length values - S n)) with (length values - n)%nat by lia.
  by rewrite <- app_assoc.
Qed.

(** The whole line, up to the value. *)
Lemma group_line buf p kl keys values : length values = length keys →
  appendCardinalityEstimateGroupMetrics buf p kl keys values =
    Some (buf ++ p ++ [44] ++ kl ++ [44] ++ bytes_of_string "group_by_values=" ++
          quote_bytes (join_comma values) ++ value_labels keys values ++ bytes_of_string "} ").
Proof.
  intros Hl. unfold appendCardinalityEstimateGroupMetrics. cbv zeta.
  pose proof (append_values keys values (length values)) as E. rewrite Nat.sub_diag in E.
  rewrite E by done. cbn [mbind option_bind]. rewrite !drop_0. unfold append_string, AppendQuoteBytes.
  by rewrite <- !app_assoc.
Qed.

Lemma cons_tail {A} (x : A) l1 l2 : x :: l1 = x :: l2 → l1 = l2.
Proof. by intros [= ->]. Qed.

Lemma value_labels_inj keys : ∀ v1 v2 r1 r2, length v1 = length keys → length v2 = length keys →
  value_labels keys v1 ++ r1 = value_labels keys v2 ++ r2 → v1 = v2.
Proof.
  induction keys as [|k keys IH]; intros v1 v2 r1 r2 H1 H2 E;
    [by destruct v1, v2|]. destruct v1 as [|a v1], v2 as [|b v2]; try done. cbn [value_labels] in E.
  unfold value_label in E. cbn [app] in E. apply cons_tail in E. rewrite <- ?app_assoc in E. cbn [app] in E.
  apply app_inv_head in E. apply cons_tail in E.
  apply quote_bytes_inj in E as [->%bytes_of_string_inj E]; [|apply bytes_of_string_ok..].
  f_equal. apply (IH v1 v2 r1 r2); [by injection H1|by injection H2|done].
Qed.

(** C19: a metric line determines its group's values.  Whatever characters the
    label values hold (quotes, backslashes, commas, newlines, invalid UTF-8),
    two lines of one snapshot that start alike, whatever follows them in the
    output, are those of groups with the same values: no value runs into the
    next, and groups whose values differ never share a metric.  (Two groups can
    have the same values, see [GroupKey.missing_and_empty].) *)
Theorem group_line_injective p kl keys v1 v2 l1 l2 r1 r2 :
  length v1 = length keys → length v2 = length keys →
  appendCardinalityEstimateGroupMetrics [] p kl keys v1 = Some l1 →
  appendCardinalityEstimateGroupMetrics [] p kl keys v2 = Some l2 →
  l1 ++ r1 = l2 ++ r2 → v1 = v2.
Proof.
  intros H1 H2 E1 E2 E. rewrite group_line in E1, E2 by done. apply (inj Some) in E1, E2. subst l1 l2.
  rewrite !app_nil_l, <- !app_assoc in E. do 5 apply app_inv_head in E.
  apply quote_bytes_inj in E as [_ E]; [|apply join_comma_ok..]. rewrite <- ?app_assoc in E.
  by apply value_labels_inj in E.
Qed.
End Lines.

(** ** The groups of a snapshot *)
Section Writing.
Context `{Tab : UnicodeTables} `{Spec : SketchSpec} `{Ord : IterOrder, !IterOrderOk Ord}.

(** The estimate of a group. *)
Definition group_estimate (m : gmap Z SnapshotSketch) (key : Z) : Z :=
  match m !! key with
  | Some ssk => match sk_Estimate (ss_Sketch ssk) with Some (_, n) => n | None => 0 end
  | None => 0
  end.
Definition group_values_of (m : gmap Z SnapshotSketch) (key : Z) : list string :=
  match m !! key with Some ssk => ss_Values ssk | None => [] end.

(** Estimating rearranges sketches but changes nothing they stand for. *)
Definition same_sketch (a b : option SnapshotSketch) : Prop :=
  match a, b with
  | Some a, Some b => ss_Values a = ss_Values b ∧ ∀ p X, represents p X (ss_Sketch a) → represents p X (ss_Sketch b)
  | None, None => True
  | _, _ => False
  end.
Definition same_groups (s s' : snapshot) : Prop :=
  s' = set_Sketches s (s_Sketches s') ∧ ∀ k, same_sketch (s_Sketches s !! k) (s_Sketches s' !! k).

#[export] Instance same_groups_preorder : PreOrder same_groups.
Proof.
  split.
  - intros s. split; [by destruct s|]. intros k. by destruct (s_Sketches s !! k).
  - intros s1 s2 s3 [E1 H1] [E2 H2]. split; [rewrite E2, E1; by destruct s1|]. intros k.
    specialize (H1 k). specialize (H2 k). unfold same_sketch in *.
    destruct (s_Sketches s1 !! k), (s_Sketches s2 !! k), (s_Sketches s3 !! k); try done.
    destruct H1 as [-> H1], H2 as [-> H2]. auto.
Qed.

Lemma same_groups_sound s s' : same_groups s s' → groups_sound (s_Sketches s) → groups_sound (s_Sketches s').
Proof.
  intros [_ H] Hs k ssk' E'. specialize (H k). rewrite E' in H. unfold same_sketch in H.
  destruct (s_Sketches s !! k) as [ssk|] eqn:E; [|done]. destruct (Hs k ssk E) as (p & X & Hr), H as [_ H]. exists p, X. auto.
Qed.

Lemma same_groups_repr p X s s' : same_groups s s' → groups_repr p X (s_Sketches s) → groups_repr p X (s_Sketches s').
Proof.
  intros [_ H] Hs k. specialize (H k). specialize (Hs k). unfold same_sketch in H.
  destruct (s_Sketches s !! k), (s_Sketches s' !! k), (X !! k); try done. destruct H. auto.
Qed.

Lemma same_groups_values s s' : same_groups s s' → values_ok s → values_ok s'.
Proof.
  intros [E H] Hv k ssk' E'. specialize (H k). rewrite E' in H. rewrite E. unfold same_sketch in H. cbn [s_GroupBy set_Sketches].
  destruct (s_Sketches s !! k) as [ssk|] eqn:Ek; [|done]. destruct H as [<- _]. by apply (Hv k ssk).
Qed.

Lemma same_groups_dom s s' : same_groups s s' → dom (s_Sketches s') = dom (s_Sketches s).
Proof.
  intros [_ Hv]. apply set_eq. intros k. rewrite !elem_of_dom. specialize (Hv k). unfold same_sketch in Hv.
  destruct (s_Sketches s' !! k), (s_Sketches s !! k); split; intros []; done.
Qed.

Lemma estimate_group_ok s s0 key ssk : same_groups s0 s → groups_sound (s_Sketches s0) →
  s_Sketches s !! key = Some ssk → s_Sketches s0 !! key = Some ssk →
  ∃ s', estimate_group s key = Some (s', ss_Values ssk, group_estimate (s_Sketches s0) key) ∧
    same_groups s0 s' ∧ (∀ k, k ≠ key → s_Sketches s' !! k = s_Sketches s !! k).
Proof.
  intros Hs HR E E0. destruct (HR key ssk E0) as (p & X & Hk).
  destruct (Estimate_ok p X _ Hk) as (sk' & n & En & _ & _).
  unfold estimate_group, group_estimate. rewrite E, E0. cbn [mbind option_bind]. rewrite En.
  eexists. split; [reflexivity|]. split; [|intros k Hne; simpl; by rewrite lookup_insert_ne by congruence].
  etrans; [exact Hs|]. split; [by destruct s|]. intros k. simpl. destruct (decide (key = k)) as [<-|Hne].
  - rewrite lookup_insert_eq, E. split; [done|]. intros p1 X1 H1.
    destruct (Estimate_ok p1 X1 _ H1) as (? & ? & E1 & ? & _). cbn [ss_Sketch]. congruence.
  - rewrite lookup_insert_ne by done. by destruct (s_Sketches s !! k).
Qed.

(** The line a group is written as. *)
Definition estimate_line (s : snapshot) (key : Z) : byte_list :=
  let metricPrefix := appendCardinalityEstimateMetricPrefix [] (s_Labels s) (s_Interval s) (s_Filter s) in
  let groupByKeysLabel := appendGroupByKeysLabel [] "group_by_keys" (s_GroupBy s) in
  AppendInt (default [] (appendCardinalityEstimateGroupMetrics [] metricPrefix groupByKeysLabel
    (s_GroupBy s) (group_values_of (s_Sketches s) key))) (group_estimate (s_Sketches s) key) ++ newline.

Definition exposed (thr : Z) (s : snapshot) (key : Z) : Prop := thr <= group_estimate (s_Sketches s) key.
#[export] Instance exposed_dec thr s key : Decision (exposed thr s key).
Proof. unfold exposed. apply _. Defined.

Lemma write_groups_ok s w thr keys :
  groups_sound (s_Sketches s) → values_ok s → NoDup keys → (∀ k, k ∈ keys → k ∈ dom (s_Sketches s)) →
  let metricPrefix := appendCardinalityEstimateMetricPrefix [] (s_Labels s) (s_Interval s) (s_Filter s) in
  let groupByKeysLabel := appendGroupByKeysLabel [] "group_by_keys" (s_GroupBy s) in
  ∃ s', for_each (write_group thr metricPrefix groupByKeysLabel) keys (s, w, 0) =
      Some (s', w ++ mjoin (map (estimate_line s) (filter (exposed thr s) keys)),
            wrap 64 (Z.of_nat (length (filter (λ k, ¬ exposed thr s k) keys)))) ∧
    same_groups s s'.
Proof.
  intros HR Hv Hnd Hdom mp gl.
  destruct (for_each_inv_NoDup (write_group thr mp gl) (λ dn '(s', w', d), same_groups s s' ∧
    (∀ k, k ∉ dn → s_Sketches s' !! k = s_Sketches s !! k) ∧
    w' = w ++ mjoin (map (estimate_line s) (filter (exposed thr s) dn)) ∧
    d = wrap 64 (Z.of_nat (length (filter (λ k, ¬ exposed thr s k) dn)))) keys (s, w, 0) Hnd)
    as ([[s' w'] d'] & E & Hs & _ & -> & ->).
  - split; [done|]. split; [done|]. simpl. by rewrite app_nil_r.
  - intros dn key [[s1 w1] d1] (Hs & Hun & -> & ->) Hin Hnin.
    assert (∃ ssk, s_Sketches s !! key = Some ssk) as [ssk E0] by (apply elem_of_dom, Hdom, Hin).
    assert (s_Sketches s1 !! key = Some ssk) as E1 by (by rewrite Hun).
    destruct (estimate_group_ok s1 s key ssk Hs HR E1 E0) as (s2 & E & Hs2 & Hun2).
    assert (write_group thr mp gl (s1, w ++ mjoin (map (estimate_line s) (filter (exposed thr s) dn)),
        wrap 64 (Z.of_nat (length (filter (λ k, ¬ exposed thr s k) dn)))) key =
      Some (s2, w ++ mjoin (map (estimate_line s) (filter (exposed thr s) (dn ++ [key]))),
        wrap 64 (Z.of_nat (length (filter (λ k, ¬ exposed thr s k) (dn ++ [key])))))) as Ew.
    { unfold write_group. rewrite E. cbn [mbind option_bind]. rewrite !filter_app, !filter_cons, !filter_nil.
      destruct (Z.ltb_spec (group_estimate (s_Sketches s) key) thr) as [Hlt|Hge].
      - rewrite decide_False by (unfold exposed; lia). rewrite decide_True by (unfold exposed; lia).
        rewrite app_nil_r. do 2 f_equal. rewrite length_app. simpl. rewrite wrap_add_l by lia. f_equal. lia.
      - rewrite decide_True by (unfold exposed; lia). rewrite decide_False by (unfold exposed; tauto).
        destruct Hs2 as [Hm2 _]. rewrite Hm2. cbn [s_GroupBy set_Sketches].
        rewrite app_nil_r, map_app, (join_app (map (estimate_line s) (filter (exposed thr s) dn))).
        cbn [map mjoin list_join]. unfold estimate_line at 3. unfold group_values_of. rewrite E0. fold mp gl.
        rewrite (group_line [] mp gl (s_GroupBy s) (ss_Values ssk) (Hv key ssk E0)). cbn [mbind option_bind default].
        by rewrite app_nil_r, <- app_assoc. }
    eexists. split; [exact Ew|]. split; [done|]. split; [|done].
    intros k [Hk Hne%not_elem_of_cons]%not_elem_of_app. rewrite Hun2 by tauto. by apply Hun.
  - exists s'. rewrite E. done.
Qed.

(** ** The text of a snapshot *)
Definition global_line (s : snapshot) : byte_list :=
  AppendInt (appendCardinalityEstimateGlobalMetric []
      (appendCardinalityEstimateMetricPrefix [] (s_Labels s) (s_Interval s) (s_Filter s)))
    (group_estimate (s_Sketches s) 0) ++ newline.
Definition size_line (s : snapshot) (n : Z) : byte_list :=
  AppendInt (appendCardinalityEstimateGroupSizeMetric []
      (appendCardinalityEstimateMetricPrefix [] (s_Labels s) (s_Interval s) (s_Filter s)) (s_GroupBy s)) n ++ newline.
Definition limit_line (s : snapshot) : byte_list :=
  AppendInt (appendGroupLimitMetric [] (s_GroupBy s) (s_Interval s) (s_Filter s)) (s_GroupLimit s) ++ newline.
Definition dropped_line (s : snapshot) (n : Z) : byte_list := default [] (writeDroppedMetric s [] n).

(** The groups below the threshold. *)
Definition dropped_groups (flag : Z) (s : snapshot) : list Z :=
  filter (λ k, ¬ exposed (threshold flag s) s k) (iter_keys (dom (s_Sketches s))).
Definition exposed_groups (flag : Z) (s : snapshot) : list Z :=
  filter (exposed (threshold flag s) s) (iter_keys (dom (s_Sketches s))).

Definition snapshot_text (flag : Z) (s : snapshot) : byte_list :=
  match s_GroupBy s with
  | [] => global_line s
  | _ =>
      let dropped := wrap 64 (Z.of_nat (length (dropped_groups flag s))) in
      mjoin (map (estimate_line s) (exposed_groups flag s)) ++
      (if 0 <? dropped then dropped_line s dropped else []) ++
      size_line s (wrapS 64 (Z.of_nat (size (s_Sketches s)) + s_GroupRejectSize s)) ++ limit_line s
  end.

(** A snapshot that can be written: its sketches stand for sets, every group
    has a value for each key, and a global one has its group. *)
Record snapshot_ok (s : snapshot) : Prop := {
  so_sound : groups_sound (s_Sketches s);
  so_values : values_ok s;
  so_global : s_GroupBy s = [] → 0 ∈ dom (s_Sketches s)
}.

Lemma same_groups_size s s' : same_groups s s' → size (s_Sketches s') = size (s_Sketches s).
Proof. intros H. by rewrite <- !size_dom, (same_groups_dom s s' H). Qed.

Lemma same_groups_ok s s' : same_groups s s' → snapshot_ok s → snapshot_ok s'.
Proof.
  intros H [H1 H2 H3]. split; [by apply (same_groups_sound s)|by apply (same_groups_values s)|].
  rewrite (same_groups_dom s s' H). destruct H as [-> _]. done.
Qed.

Lemma writeGroupSizeAndLimit_lines s w n : writeGroupSizeAndLimit s w n = w ++ size_line s n ++ limit_line s.
Proof. unfold writeGroupSizeAndLimit, size_line, limit_line. by rewrite <- !app_assoc. Qed.
Lemma writeDroppedMetric_line s w n : s_GroupBy s ≠ [] → writeDroppedMetric s w n = Some (w ++ dropped_line s n).
Proof. intros Hg. unfold dropped_line, writeDroppedMetric. by destruct (s_GroupBy s). Qed.

Lemma writeCardinalityEstimates_ok flag s w : snapshot_ok s →
  ∃ s', writeCardinalityEstimates flag s w =
      Some (s', w ++ (if decide (s_GroupBy s = []) then global_line s
                      else mjoin (map (estimate_line s) (exposed_groups flag s))),
            if decide (s_GroupBy s = []) then 0
            else wrap 64 (Z.of_nat (length (dropped_groups flag s)))) ∧
    same_groups s s'.
Proof.
  intros [HR Hv H0]. unfold writeCardinalityEstimates.
  destruct (s_GroupBy s) as [|g gs] eqn:Eg.
  - destruct (proj1 (elem_of_dom _ _) (H0 eq_refl)) as [ssk E0].
    destruct (estimate_group_ok s s 0 ssk (reflexivity s) HR E0 E0) as (s' & E & Hs & _).
    exists s'. rewrite E. cbn [mbind option_bind]. by rewrite decide_True.
  - rewrite decide_False, decide_False by done. rewrite <- Eg.
    destruct (write_groups_ok s w (threshold flag s) (iter_keys (dom (s_Sketches s)))) as (s' & E & Hs); [done..| | |].
    + apply iter_keys_NoDup.
    + intros k. by rewrite iter_keys_elem.
    + exists s'. split; [exact E|done].
Qed.

Lemma snapshot_writeMetrics_run flag s w : snapshot_ok s →
  ∃ s', snapshot_writeMetrics flag s w = Some (s', w ++ snapshot_text flag s) ∧ same_groups s s'.
Proof.
  intros Hok. destruct (writeCardinalityEstimates_ok flag s w Hok) as (s' & E & Hs).
  exists s'. split; [|done]. unfold snapshot_writeMetrics. rewrite E. cbn [mbind option_bind].
  pose proof (same_groups_size s s' Hs) as Hsz. destruct Hs as [Hm _]. rewrite Hsz, Hm. unfold snapshot_text.
  cbn [s_GroupBy set_Sketches s_GroupRejectSize]. destruct (s_GroupBy s) as [|g gs] eqn:Eg; [done|].
  rewrite !decide_False by done. set (d := wrap 64 _).
  assert (∀ w', writeDroppedMetric (set_Sketches s (s_Sketches s')) w' d = Some (w' ++ dropped_line s d)) as Hd.
  { intros w'. rewrite writeDroppedMetric_line by (cbn; by rewrite Eg). done. }
  destruct (0 <? d); rewrite ?Hd; cbn [mbind option_bind]; rewrite writeGroupSizeAndLimit_lines, ?app_nil_l, <- ?app_assoc;
    done.
Qed.

(** C18: what a snapshot is written as.  Writing never panics and changes no
    sketch's meaning.  A global snapshot is one line.  A group snapshot is,
    in the order of the groups, one line for each group whose estimate reaches
    the threshold, no group twice; then, only if groups were dropped, their
    number; then the number of groups and the limit.  Exposed and dropped
    groups together are all groups. *)
Theorem snapshot_writeMetrics_spec flag s w : snapshot_ok s →
  (∃ s', snapshot_writeMetrics flag s w = Some (s', w ++ snapshot_text flag s) ∧ same_groups s s') ∧
  NoDup (exposed_groups flag s) ∧
  (∀ k, k ∈ exposed_groups flag s ↔
     k ∈ dom (s_Sketches s) ∧ threshold flag s <= group_estimate (s_Sketches s) k) ∧
  (length (exposed_groups flag s) + length (dropped_groups flag s) = size (s_Sketches s))%nat.
Proof.
  intros Hok. split; [by apply snapshot_writeMetrics_run|]. split; [apply NoDup_filter, iter_keys_NoDup|]. split.
  - intros k. unfold exposed_groups. rewrite list_elem_of_filter, iter_keys_elem. unfold exposed. tauto.
  - unfold exposed_groups, dropped_groups. rewrite <- (size_dom (s_Sketches s)), <- (iter_keys_length (dom (s_Sketches s))).
    generalize (iter_keys (dom (s_Sketches s))) as l. induction l as [|k l IH]; [done|]. rewrite !filter_cons.
    destruct (decide (exposed (threshold flag s) s k)) as [Hk|Hk].
    + rewrite decide_False by tauto. simpl. lia.
    + rewrite decide_True by done. simpl. lia.
Qed.

(** ** The text of an estimator *)
Definition estimates_text (flag : Z) (s : snapshot) : byte_list :=
  if decide (s_GroupBy s = []) then global_line s else mjoin (map (estimate_line s) (exposed_groups flag s)).
Definition dropped_count (flag : Z) (s : snapshot) : Z :=
  if decide (s_GroupBy s = []) then 0 else Z.of_nat (length (dropped_groups flag s)).

Lemma estimate_callback_ok flag s w d : snapshot_ok s → uint 64 d →
  cb_next (estimate_callback flag) (w, d) s = Some (w ++ estimates_text flag s, wrap 64 (d + dropped_count flag s)).
Proof.
  intros Hs Hd. unfold cb_next, estimate_callback, estimates_text, dropped_count.
  destruct (writeCardinalityEstimates_ok flag s w Hs) as (s' & -> & _). cbn [mbind option_bind].
  destruct (decide _); [done|]. by rewrite wrap_add_r.
Qed.

Lemma estimate_callbacks flag out : ∀ w d, Forall snapshot_ok out → uint 64 d →
  for_each (cb_next (estimate_callback flag)) out (w, d) =
    Some (w ++ mjoin (map (estimates_text flag) out), wrap 64 (d + zsum (map (dropped_count flag) out))).
Proof.
  induction out as [|s out IH]; intros w d Hok Hd.
  { simpl. by rewrite app_nil_r, Z.add_0_r, wrap_small. }
  apply Forall_cons in Hok as [Hs Hok]. cbn [for_each]. rewrite estimate_callback_ok by done. cbn [mbind option_bind].
  rewrite IH by (done || by apply wrap_uint). rewrite wrap_add_l by lia. unfold zsum.
  cbn [map mjoin list_join foldr]. by rewrite Z.add_assoc, <- app_assoc.
Qed.

End Writing.

Section Estimators.
Context `{Tab : UnicodeTables} `{Spec : SketchSpec} `{Ord : IterOrder, !IterOrderOk Ord} `{Xx : Xxhash, !XxhashOk Xx}
  `{Ql : MetricsQL}.

Lemma snapshot_typed_ok e s : snapshot_typed e s → groups_sound (s_Sketches s) → snapshot_ok s.
Proof. intros H Hs. split; [done|apply H|apply H]. Qed.

Lemma emitted_ok e Xs p out : Forall (snapshot_typed e) out →
  Forall2 (λ X s, groups_repr p X (s_Sketches s)) Xs out → Forall snapshot_ok out.
Proof.
  intros Ht HX. induction HX as [|X s Xs out HX _ IH]; [constructor|]. apply Forall_cons in Ht as [Hs Ht].
  constructor; [|by apply IH]. apply (snapshot_typed_ok e); [done|]. by eapply groups_repr_sound.
Qed.

(** What follows the estimates of a group estimator: the lines of the dropped
    groups, of the groups held and rejected, and of the limit. *)
Definition totals_text (e : estimator) (dropped total : Z) : byte_list :=
  match e_groupBy e with
  | [] => []
  | _ =>
      let s := mkSnapshot EmptyString (Interval (e_cfg e)) false (labels_of (ec_Labels (e_cfg e)))
        (Filter (e_cfg e)) (GroupBy (e_cfg e)) (gs_limit (e_groupSize e)) 0 (MinCardinality (e_cfg e)) ∅ in
      (if 0 <? dropped then dropped_line s dropped else []) ++ size_line s total ++ limit_line s
  end.

Lemma totalSize_ok gs : gs_ok gs →
  ∃ gs' n, totalSize gs = Some (gs', n) ∧ gs_ok gs' ∧ gs_limit gs' = gs_limit gs ∧
    gs_bucketSizes gs' = gs_bucketSizes gs.
Proof.
  intros Hgs. unfold totalSize. destruct (_ <=? _); [|by exists gs, (gs_size gs)].
  destruct (totalRejected_ok gs Hgs) as (gs' & n & -> & ? & ? & ?). cbn [mbind option_bind].
  do 2 eexists. by split_and!.
Qed.

Lemma est_repr_gs p e A gs : est_repr p e A → gs_ok gs → gs_bucketSizes gs = gs_bucketSizes (e_groupSize e) →
  est_repr p (set_buckets e (e_buckets e) gs) A.
Proof. intros [? ? ? ? ? ? ? ?] ? Hs. split; simpl; rewrite ?Hs; done. Qed.

(** Writing an estimator. *)
Lemma estimator_writeMetrics_ok flag p e A w : est_repr p e A → est_typed e →
  ∃ e' out total, estimator_writeMetrics flag e w =
      Some (e', w ++ mjoin (map (estimates_text flag) out) ++
                totals_text e (wrap 64 (zsum (map (dropped_count flag) out))) total) ∧
    est_repr p e' A ∧ est_typed e' ∧ same_static e e' ∧ e_buckets e' = e_buckets e ∧
    Forall (snapshot_typed e) out ∧ ∃ Xs, Forall2 (λ X s, groups_repr p X (s_Sketches s)) Xs out ∧ union_all Xs = window A.
Proof.
  intros H He. destruct (toSnapshot_emits p e A H He) as (out & e1 & E & H1 & Hs1 & Hb1 & He1 & Ho & Xs & HX & HU).
  pose proof (emitted_ok e Xs p out Ho HX) as Hok.
  pose proof (toSnapshot_fold (estimate_callback flag) e out e1 (w, 0) _ E
    (estimate_callbacks flag out w 0 Hok ltac:(unfold uint; lia))) as E1.
  unfold estimator_writeMetrics. rewrite E1. cbn [mbind option_bind]. rewrite Z.add_0_l.
  set (d := wrap 64 _). pose proof Hs1 as (_ & Hc & Hg & _ & _ & Hmin & _ & Hlim).
  destruct (decide (e_groupBy e = [])) as [Eg|Eg].
  { exists e1, out, 0. unfold totals_text. rewrite Hg, Eg, app_nil_r. split_and!; try done. eauto. }
  destruct (totalSize_ok (e_groupSize e1) (er_gs p e1 A H1)) as (gs & n & Et & Hgs & Hl & Hbs).
  destruct (er_lookup p e1 A 0 H1 (er_nonempty p e1 A H1)) as (eb0 & CP0 & Eb0 & _ & _).
  pose proof (Forall_lookup_1 _ _ _ _ (et_buckets e1 He1) Eb0) as [Hbg Hbi Hbc Hbf Hbl _ _].
  exists (set_buckets e1 (e_buckets e1) gs), out, n.
  assert (e_groupBy e1 ≠ []) as Hne by congruence. destruct (e_groupBy e1) as [|g0 g] eqn:Eg1; [done|].
  rewrite Eb0. cbn [mbind option_bind]. rewrite Hbg, Hbi, Hbf, Hbl, Hc, Hlim.
  rewrite (et_minCardinality e1 He1), Hc. unfold totals_text.
  set (s := mkSnapshot _ _ _ _ _ _ _ _ _ _).
  assert (∀ w', (if 0 <? d then writeDroppedMetric s w' d else Some w') =
    Some (w' ++ if 0 <? d then dropped_line s d else [])) as Hd.
  { intros w'. destruct (0 <? d); [|by rewrite app_nil_r]. apply writeDroppedMetric_line. unfold s. cbn [s_GroupBy].
    rewrite <- Hc, <- (et_groupBy e1 He1). congruence. }
  rewrite Hd. cbn [mbind option_bind]. rewrite Et. cbn [mbind option_bind]. rewrite writeGroupSizeAndLimit_lines.
  split.
  { destruct (e_groupBy e) eqn:Ege; [done|]. by rewrite <- !app_assoc. }
  split; [by apply est_repr_gs|]. split; [destruct He1; by split|]. split; [|split; [done|split; [done|eauto]]].
  unfold same_static in *. simpl. rewrite Hl. tauto.
Qed.

(** A global snapshot without its group is a nil dereference. *)
Lemma global_without_group flag s w : s_GroupBy s = [] → s_Sketches s !! 0 = None → writeCardinalityEstimates flag s w = None.
Proof. intros Eg E0. unfold writeCardinalityEstimates, estimate_group. by rewrite Eg, E0. Qed.

(** ** Several snapshots, and the churn ratios *)
Lemma snapshots_writeMetrics_ok flag ss order w : map_Forall (λ _, snapshot_ok) ss → NoDup order →
  (∀ id, id ∈ order → id ∈ dom ss) →
  ∃ ss', snapshots_writeMetrics flag order ss w =
      Some (ss', w ++ mjoin (map (λ id, default [] (snapshot_text flag <$> ss !! id)) order)) ∧
    map_Forall (λ _, snapshot_ok) ss'.
Proof.
  intros Hss Hnd Hdom.
  destruct (for_each_inv_NoDup (λ '(ss, w) id, s ← ss !! id;
      '(s, w) ← snapshot_writeMetrics flag s w; Some (<[id := s]> ss, w))
    (λ dn '(ss', w'), map_Forall (λ _, snapshot_ok) ss' ∧ (∀ id, id ∉ dn → ss' !! id = ss !! id) ∧
      w' = w ++ mjoin (map (λ id, default [] (snapshot_text flag <$> ss !! id)) dn)) order (ss, w) Hnd)
    as ([ss' w'] & E & Hss' & _ & ->).
  - split; [done|]. split; [done|]. simpl. by rewrite app_nil_r.
  - intros dn id [ss1 w1] (Hss1 & Hun & ->) Hin Hnin.
    destruct (proj1 (elem_of_dom _ _) (Hdom id Hin)) as [s Es].
    rewrite (Hun id Hnin), Es. cbn [mbind option_bind].
    destruct (snapshot_writeMetrics_run flag s (w ++ mjoin (map (λ id, default [] (snapshot_text flag <$> ss !! id)) dn)))
      as (s' & E & Hs'); [by apply (Hss id)|].
    eexists. rewrite E. cbn [mbind option_bind]. split; [reflexivity|]. split.
    + apply map_Forall_insert_2; [|done]. apply (same_groups_ok s); [done|]. by apply (Hss id).
    + split.
      * intros id' [Hd Hne%not_elem_of_cons]%not_elem_of_app. rewrite lookup_insert_ne by (intros ->; tauto). by apply Hun.
      * rewrite map_app, join_app, <- app_assoc. cbn [map mjoin list_join]. rewrite Es. by rewrite app_nil_r.
  - exists ss'. split; [exact E|done].
Qed.

(** The line of an entry. *)
Definition churn_line (e : churnEntry) : byte_list :=
  let metricPrefix := appendChurnMetricPrefix [] (default ∅ (ce_labels e)) (ce_interval e) (ce_filter e) in
  AppendFloat4
    match ce_groupBy e with
    | [] => metricPrefix ++ bytes_of_string ",group_by_keys=" ++ quoted "__global__" ++ bytes_of_string "} "
    | _ => default [] (appendCardinalityEstimateGroupMetrics [] metricPrefix
             (appendGroupByKeysLabel [] "group_by_keys" (ce_groupBy e)) (ce_groupBy e) (ce_values e))
    end
    (default S754_nan (snd <$> churnRatio e)) ++ newline.

(** When the baseline and the current sketch of an entry were taken. *)
Definition entry_times (e : churnEntry) : option Z * option Z := (cs_addedAt <$> ce_prev e, cs_addedAt <$> ce_curr e).

Lemma churnRatio_static e e' r : churnRatio e = Some (e', r) →
  ce_groupBy e' = ce_groupBy e ∧ ce_values e' = ce_values e ∧ entry_times e' = entry_times e.
Proof.
  unfold entry_times.
  unfold churnRatio. intros E. run_inv. destruct (cs_sketch _) as [psk|]; run_inv; [|done].
  destruct (negb _); run_inv; [done|]. destruct (_ =? 0); run_inv; [done|]. simplify_option_eq.
  by repeat match goal with H : _ = Some _ |- _ => rewrite H end.
Qed.

Lemma write_churn_entry_ok m w k e : m !! k = Some e → entry_sound e →
  ∃ e', write_churn_entry (m, w) k = Some (<[k := e']> m, w ++ churn_line e) ∧ entry_sound e' ∧
    entry_times e' = entry_times e.
Proof.
  intros E He. unfold write_churn_entry. rewrite E. cbn [mbind option_bind].
  destruct (churnRatio_sound e He) as (e' & r & Er & He' & _). rewrite Er. cbn [mbind option_bind].
  destruct (churnRatio_static e e' r Er) as (Hg & Hv & Ht). rewrite Hg, Hv. exists e'. split; [|done].
  unfold churn_line. rewrite Er. destruct (ce_groupBy e) as [|g0 g] eqn:Eg; [done|].
  rewrite (group_line [] _ _ (g0 :: g) (ce_values e)); [done|]. rewrite <- Eg. apply He.
Qed.

Lemma churn_writeMetrics_ok m order w : entries_sound m → NoDup order → (∀ k, k ∈ order → k ∈ dom m) →
  ∃ m', churn_writeMetrics order m w =
      Some (m', w ++ mjoin (map (λ k, default [] (churn_line <$> m !! k)) order)) ∧ entries_sound m' ∧
    ∀ k, entry_times <$> m' !! k = entry_times <$> m !! k.
Proof.
  intros Hm Hnd Hdom. unfold churn_writeMetrics.
  destruct (for_each_inv_NoDup write_churn_entry
    (λ dn '(m', w'), (entries_sound m' ∧ ∀ k, entry_times <$> m' !! k = entry_times <$> m !! k) ∧
      (∀ k, k ∉ dn → m' !! k = m !! k) ∧
      w' = w ++ mjoin (map (λ k, default [] (churn_line <$> m !! k)) dn)) order (m, w) Hnd)
    as ([m' w'] & E & Hm' & _ & ->).
  - split; [done|]. split; [done|]. simpl. by rewrite app_nil_r.
  - intros dn k [m1 w1] ([Hm1 Ht1] & Hun & ->) Hin Hnin. destruct (proj1 (elem_of_dom _ _) (Hdom k Hin)) as [e Ee].
    destruct (write_churn_entry_ok m1 (w ++ mjoin (map (λ k, default [] (churn_line <$> m !! k)) dn)) k e)
      as (e' & E & He' & Ht').
    { by rewrite Hun. }
    { by apply (Hm k). }
    eexists. split; [exact E|]. split; [split; [by apply entries_sound_insert|]|split].
    + intros k'. destruct (decide (k = k')) as [<-|]; [by rewrite lookup_insert_eq, Ee; simpl; f_equal|by rewrite lookup_insert_ne].
    + intros k' [Hd Hne%not_elem_of_cons]%not_elem_of_app. rewrite lookup_insert_ne by (intros ->; tauto). by apply Hun.
    + rewrite map_app, join_app, <- app_assoc. cbn [map mjoin list_join]. rewrite Ee. by rewrite app_nil_r.
  - exists m'. split; [exact E|done].
Qed.
End Estimators.

(** ** Concrete runs *)
Definition demo_tables : UnicodeTables := {| isPrint_table _ := true |}.

(** The expected texts of the repository's own tests. *)
Definition lbl (name value : string) : byte_list := bytes_of_string name ++ 61 :: quoted value.
Definition comma_sep (l : list byte_list) : byte_list :=
  match l with [] => [] | x :: l => x ++ mjoin (map (λ y, 44 :: y) l) end.
Definition metric (name : string) (labels : list byte_list) (value : string) : byte_list :=
  bytes_of_string name ++ 123 :: comma_sep labels ++ [125; 32] ++ bytes_of_string value ++ newline.

Definition text_snapshot : @snapshot set_sketch_ops :=
  @mkSnapshot set_sketch_ops "id" 3600000000000 false ∅ EmptyString ["foo"%string] 12345 0 0
    {[ 5 := @mkSSK set_sketch_ops ["0"%string] (14, {[7]}) ]}.

Lemma text_snapshot_ok : snapshot_ok (Spec := set_sketch_spec) text_snapshot.
Proof.
  split; [| |done]; intros k ssk E; simpl in E; apply lookup_singleton_Some in E as [<- <-]; [|done].
  by exists 14, {[7]}.
Qed.

Example etimator_test_group :
  snd <$> snapshot_writeMetrics (Tab := demo_tables) 0 text_snapshot [] = Some (
    metric "cardinality_estimate" [lbl "interval" "1h0m0s"; lbl "filter" ""; lbl "group_by_keys" "foo";
      lbl "group_by_values" "0"; lbl "by_foo" "0"] "1" ++
    metric "cardinality_estimate" [lbl "interval" "1h0m0s"; lbl "filter" ""; lbl "group_by_keys" "__group__";
      lbl "group_by_values" "foo"] "1" ++
    metric "vmestimator_estimator_group_limit" [lbl "interval" "1h0m0s"; lbl "filter" "";
      lbl "group_by_keys" "__group__"; lbl "group_by_values" "foo"] "12345").
Proof. vm_compute. reflexivity. Qed.

Example etimator_test_dropped :
  snd <$> snapshot_writeMetrics (Tab := demo_tables) 2 text_snapshot [] = Some (
    metric "vmestimator_cardinality_estimates_dropped" [lbl "interval" "1h0m0s"; lbl "filter" "";
      lbl "group_by_keys" "foo"] "1" ++
    metric "cardinality_estimate" [lbl "interval" "1h0m0s"; lbl "filter" ""; lbl "group_by_keys" "__group__";
      lbl "group_by_values" "foo"] "1" ++
    metric "vmestimator_estimator_group_limit" [lbl "interval" "1h0m0s"; lbl "filter" "";
      lbl "group_by_keys" "__group__"; lbl "group_by_values" "foo"] "12345").
Proof. vm_compute. reflexivity. Qed.

Example churn_test_half :
  let e := @mkChurnEntry set_sketch_ops 60000000000 EmptyString None ["job"%string] ["api"%string]
    (Some (@mkChurnSketch set_sketch_ops 900 (Some (14, {[5; 6; 7]}))))
    (Some (@mkChurnSketch set_sketch_ops 1000 (Some (14, {[6; 7; 8]})))) in
  churn_line (Tab := demo_tables) e =
    metric "cardinality_churn_ratio" [lbl "interval" "1m0s"; lbl "filter" ""; lbl "group_by_keys" "job";
      lbl "group_by_values" "api"; lbl "by_job" "api"] "0.5000".
Proof. vm_compute. reflexivity. Qed.

Lemma snapshot_writeMetrics_spec_witness :
  ∃ s', snapshot_writeMetrics (Tab := demo_tables) 0 text_snapshot [1] =
      Some (s', [1] ++ snapshot_text (Tab := demo_tables) 0 text_snapshot) ∧
    (length (exposed_groups 0 text_snapshot) + length (dropped_groups 0 text_snapshot) = 1)%nat.
Proof.
  destruct (snapshot_writeMetrics_spec (Tab := demo_tables) (Spec := set_sketch_spec) 0 text_snapshot [1] text_snapshot_ok)
    as ((s' & E & _) & _ & _ & Hl).
  exists s'. exact (conj E Hl).
Defined.

(** Values that look alike without quotes. *)
Lemma group_line_injective_witness :
  ∃ l1 l2, @appendCardinalityEstimateGroupMetrics demo_tables [] [65] [66] ["a"; "b"]%string ["x,y"; "z"]%string = Some l1 ∧
    @appendCardinalityEstimateGroupMetrics demo_tables [] [65] [66] ["a"; "b"]%string ["x"; "y,z"]%string = Some l2 ∧
    l1 ≠ l2.
Proof.
  eexists _, _. split; [reflexivity|]. split; [reflexivity|]. intros E.
  assert (["x,y"; "z"]%string = ["x"; "y,z"]%string) as H.
  { apply (@group_line_injective demo_tables [65] [66] ["a"; "b"]%string ["x,y"; "z"]%string ["x"; "y,z"]%string
      _ _ [] [] eq_refl eq_refl eq_refl eq_refl). by rewrite E. }
  discriminate H.
Defined.

(** The limit line has no static labels, so two streams that differ only in
    those write the same metric twice. *)
Lemma limit_line_without_labels `{UnicodeTables} `{SketchOps} id i c labels f g l r m sks id' c' labels' r' m' sks' :
  limit_line (mkSnapshot id i c labels f g l r m sks) = limit_line (mkSnapshot id' i c' labels' f g l r' m' sks').
Proof. done. Qed.
