(* ===== verification/Reload.v ===== *)
(** * Reload: applying a configuration to the running estimators

    Models [readConfig], [loadConfig] and the loop of [startConfigReloader] of
    app/vmestimator/config.go, [invalidateCardinalityCache] of
    cardinality_metrics.go and the [/reset] handler of main.go over one record
    of the program's global state. *)
From Stdlib Require Import Ascii String.
From S2P Require Import Prelude GoText Types Config SketchSpec GroupSize Snapshot Estimator EstimatorInsert.
From S2P Require Import EstimatorWindow EstimatorLife EstimatorExamples Bloom Dedup Churn.
Local Open Scope Z_scope.

(** The file system, the YAML decoder and the hash of the file's contents. *)
Class ConfigSource := {
  os_ReadFile : string → result string;
  yaml_UnmarshalStrict : string → result (list EstimatorConfig)
}.

Section Defs.
Context `{Ops : SketchOps} `{Ord : IterOrder} `{Xx : Xxhash} `{Ql : MetricsQL} `{Src : ConfigSource}.

(** The stop channels: how many [make] has returned, numbered from 0, and those
    closed so far.  Closing a closed channel panics. *)
Record chans := mkChans { ch_made : nat; ch_closed : list nat }.
Definition no_chans : chans := mkChans 0 [].
Definition make_chan (s : chans) : nat * chans := (ch_made s, mkChans (S (ch_made s)) (ch_closed s)).
Definition close_chan (s : chans) (ch : nat) : option chans :=
  if decide (ch ∈ ch_closed s) then None else Some (mkChans (ch_made s) (ch_closed s ++ [ch])).

(** The package-level variables; [w_cacheAt] is [None] for the zero time.  The
    rotation goroutine of an estimator runs until its channel in [w_chans] is
    closed. *)
Record world := mkWorld {
  w_estimators : list estimator;
  w_fingerprintLabels : bool;
  w_dedup : option deduplicator;
  w_churn : gmap churnKey churnEntry;
  w_cacheAt : option Z;
  w_chans : chans
}.

Record Config := mkStreams { c_hash : Z; c_Streams : list EstimatorConfig }.

Definition readConfig (cpus : Z) (path : string) (storageNodes : list string) : result Config :=
  if decide (path = EmptyString) then
    match storageNodes with
    | [] => Error "either -config or -storageNode must be specified"
    | _ => Ok (mkStreams 0 [])
    end
  else
    match os_ReadFile path with
    | Error e => Error e
    | Ok data =>
        match yaml_UnmarshalStrict data with
        | Error e => Error e
        | Ok streams =>
            match prepare cpus streams with
            | Error e => Error e
            | Ok streams => Ok (mkStreams (xxhash_Sum64 data) streams)
            end
        end
    end.

Definition estimators_by_id (es : list estimator) : gmap string estimator :=
  foldl (λ m e, <[e_id e := e]> m) ∅ es.

(** The active estimator a stream can keep. *)
Definition reusable (removed : gmap string estimator) (ec : EstimatorConfig) : option estimator :=
  e ← removed !! config_id ec; if decide (e_cfg e = ec) then Some e else None.

(** The loop of [loadConfig]: the estimators of the streams so far, the created
    ones among them, the active ones not matched yet and the channels; or the
    early return with the ones created so far. *)
Inductive match_result :=
| MFail (msg : string) (created : list estimator) (s : chans)
| MDone (es created : list estimator) (removed : gmap string estimator) (s : chans).

Fixpoint match_streams (cpus : Z) (streams : list EstimatorConfig) (es created : list estimator)
    (removed : gmap string estimator) (s : chans) : option match_result :=
  match streams with
  | [] => Some (MDone es created removed s)
  | ec :: rest =>
      match reusable removed ec with
      | Some e => match_streams cpus rest (es ++ [e]) created (delete (config_id ec) removed) s
      | None =>
          let '(ch, s') := make_chan s in
          r ← newEstimator cpus ch ec;
          match r with
          | Error msg => Some (MFail msg created s)
          | Ok e => match_streams cpus rest (es ++ [e]) (created ++ [e]) removed s'
          end
      end
  end.

(** The churn entries of removed estimators go, and the cache expires. *)
Definition invalidateCardinalityCache (removed : gmap string estimator)
    (churn : gmap churnKey churnEntry) : gmap churnKey churnEntry :=
  filter (λ ke, removed !! ke.1.1 = None) churn.

(** [e.stop()], which closes the channel of the rotation goroutine. *)
Definition estimator_stop (w : world) (e : estimator) : option world :=
  s ← close_chan (w_chans w) (e_stopCh e);
  Some (mkWorld (w_estimators w) (w_fingerprintLabels w) (w_dedup w) (w_churn w) (w_cacheAt w) s).
Definition stop_estimators (w : world) (es : list estimator) : option world := for_each estimator_stop es w.
(** [protoparser.SetFingerprintLabels]. *)
Definition SetFingerprintLabels (w : world) (b : bool) : world :=
  mkWorld (w_estimators w) b (w_dedup w) (w_churn w) (w_cacheAt w) (w_chans w).

Definition set_chans (w : world) (s : chans) : world :=
  mkWorld (w_estimators w) (w_fingerprintLabels w) (w_dedup w) (w_churn w) (w_cacheAt w) s.

Definition loadConfig (cpus : Z) (cfg : Config) (w : world) : option (world * result bool) :=
  m ← match_streams cpus (c_Streams cfg) [] [] (estimators_by_id (w_estimators w)) (w_chans w);
  match m with
  | MFail msg created s =>
      w ← stop_estimators (set_chans w s) created;
      Some (w, Error msg)
  | MDone es created removed s =>
      if decide (created = [] ∧ removed = ∅) then Some (w, Ok false)
      else
        let w := mkWorld es
          (w_fingerprintLabels (if existsb e_hasLabelKeyword created then SetFingerprintLabels w true else w))
          (match created with [] => w_dedup w | _ => deduplicator_Reset <$> w_dedup w end)
          (w_churn w) (w_cacheAt w) s in
        w ← stop_estimators w (map snd (map_to_list removed));
        Some (mkWorld (w_estimators w) (w_fingerprintLabels w) (w_dedup w)
          (invalidateCardinalityCache removed (w_churn w)) None (w_chans w), Ok true)
  end.

(** One round of the reloader: the active config, and the metrics
    [configReloads], [configReloadErrors] and [configSuccess]. *)
Record reloader := mkReloader {
  r_cfg : Config; r_world : world; r_reloads : Z; r_reloadErrors : Z; r_success : bool
}.

Definition reload_step (cpus : Z) (path : string) (storageNodes : list string) (r : reloader) : option reloader :=
  match readConfig cpus path storageNodes with
  | Error _ => Some (mkReloader (r_cfg r) (r_world r) (r_reloads r) (r_reloadErrors r + 1) false)
  | Ok newCfg =>
      if c_hash newCfg =? c_hash (r_cfg r) then
        Some (mkReloader (r_cfg r) (r_world r) (r_reloads r) (r_reloadErrors r) true)
      else
        '(w, res) ← loadConfig cpus newCfg (r_world r);
        match res with
        | Error _ => Some (mkReloader (r_cfg r) w (r_reloads r) (r_reloadErrors r + 1) false)
        | Ok changed =>
            Some (mkReloader newCfg w (r_reloads r + Z.b2z changed) (r_reloadErrors r) true)
        end
  end.

(** The [/reset] request. *)
Definition reset_request (w : world) : option world :=
  es ← for_each (λ es e, e ← estimator_reset e; Some (es ++ [e])) (w_estimators w) [];
  Some (mkWorld es (w_fingerprintLabels w) (w_dedup w) newChurnSnapshots None (w_chans w)).

Definition set_estimators (w : world) (es : list estimator) : world :=
  mkWorld es (w_fingerprintLabels w) (w_dedup w) (w_churn w) (w_cacheAt w) (w_chans w).

(** A tick of the rotation goroutine of estimator [i], whose turn is bucket
    [b]; a tick of the deduplicator's, which read the clock at [now]. *)
Definition rotation_tick (w : world) (i b : nat) : option world :=
  e ← w_estimators w !! i;
  e' ← estimator_rotate_bucket e b;
  Some (set_estimators w (<[i := e']> (w_estimators w))).
Definition dedup_tick (w : world) (now : Z) : option world :=
  d ← w_dedup w;
  d' ← deduplicator_rotate d now;
  Some (mkWorld (w_estimators w) (w_fingerprintLabels w) (Some d') (w_churn w) (w_cacheAt w) (w_chans w)).
End Defs.

Section Proofs.
Context `{Spec : SketchSpec} `{Ord : IterOrder, !IterOrderOk Ord} `{Xx : Xxhash, !XxhashOk Xx} `{Ql : MetricsQL}.

(** Active estimators: each runs its stream under its id. *)
Record active_ok (es : list estimator) : Prop := {
  active_ids : NoDup (map e_id es);
  active_cfg : ∀ e, e ∈ es → e_id e = config_id (e_cfg e) ∧ config_wf (e_cfg e)
}.

(** A prepared list of streams. *)
Record streams_ok (ss : list EstimatorConfig) : Prop := {
  streams_ids : NoDup (map config_id ss);
  streams_wf : Forall config_wf ss
}.

Lemma estimators_by_id_lookup es id e : NoDup (map e_id es) →
  estimators_by_id es !! id = Some e ↔ e ∈ es ∧ e_id e = id.
Proof.
  unfold estimators_by_id. revert id e. induction es as [|e0 es IH] using rev_ind; intros id e Hn.
  { simpl. rewrite lookup_empty, elem_of_nil. split; [done|tauto]. }
  rewrite map_app in Hn. apply NoDup_app in Hn as (Hn & Hne & _). rewrite foldl_app. simpl.
  rewrite elem_of_app, list_elem_of_singleton. destruct (decide (e_id e0 = id)) as [<-|Hid].
  - rewrite lookup_insert_eq. split; [intros [= <-]; auto|]. intros [[Hin| ->] Hid]; [|done].
    exfalso. apply (Hne (e_id e)); [apply list_elem_of_fmap; eauto|]. rewrite Hid. left.
  - rewrite lookup_insert_ne, IH by done. split; [tauto|]. intros [[Hin| ->] ?]; [done|by subst].
Qed.

(** A stream keeps its active estimator or gets a new one. *)
Definition fresh_for (cpus : Z) (active : list estimator) (ec : EstimatorConfig) (e : estimator) : Prop :=
  (∀ e0, e0 ∈ active → e_cfg e0 ≠ ec) ∧ ∃ ch, newEstimator cpus ch ec = Some (Ok e).
Definition serves (cpus : Z) (active : list estimator) (ec : EstimatorConfig) (e : estimator) : Prop :=
  (e ∈ active ∧ e_cfg e = ec) ∨ fresh_for cpus active ec e.

(** The active estimators no stream of [ss] describes. *)
Definition removed_by (active : list estimator) (ss : list EstimatorConfig) (removed : gmap string estimator) : Prop :=
  ∀ id e, removed !! id = Some e ↔ e ∈ active ∧ e_id e = id ∧ e_cfg e ∉ ss.

Lemma active_id_inj es e1 e2 : active_ok es → e1 ∈ es → e2 ∈ es → e_id e1 = e_id e2 → e1 = e2.
Proof.
  intros [Hn _] [i Ei]%list_elem_of_lookup [j Ej]%list_elem_of_lookup Hid.
  assert (i = j) as ->; [|congruence].
  apply (NoDup_lookup (map e_id es) i j (e_id e1) Hn (map_lookup_Some e_id es i e1 Ei)).
  rewrite Hid. by apply map_lookup_Some.
Qed.

Lemma reusable_spec es pre removed ec e : active_ok es → removed_by es pre removed → ec ∉ pre →
  reusable removed ec = Some e ↔ e ∈ es ∧ e_cfg e = ec.
Proof.
  intros Hact Hrem Hec. unfold reusable. split.
  - destruct (removed !! config_id ec) as [e0|] eqn:E; [|done]. simpl.
    destruct (decide (e_cfg e0 = ec)); [|done]. intros [= <-]. by apply Hrem in E as (? & _).
  - intros [Hin <-]. destruct (active_cfg es Hact e Hin) as [Hid _].
    assert (removed !! config_id (e_cfg e) = Some e) as E by by apply Hrem.
    rewrite E. simpl. by rewrite decide_True.
Qed.

Lemma removed_by_kept es pre removed e : active_ok es → removed_by es pre removed → e ∈ es →
  removed_by es (pre ++ [e_cfg e]) (delete (config_id (e_cfg e)) removed).
Proof.
  intros Hact Hrem Hin id e'. destruct (active_cfg es Hact e Hin) as [Hid _]. rewrite <- Hid.
  rewrite lookup_delete_Some, (Hrem id e'), not_elem_of_app, list_elem_of_singleton. split.
  - intros (Hne & Hin' & <- & Hn). split_and!; try done. intros Hc. apply Hne.
    destruct (active_cfg es Hact e' Hin') as [-> _]. by rewrite Hid, Hc.
  - intros (Hin' & <- & Hn & Hc). split_and!; try done. intros Hne. apply Hc.
    by rewrite (active_id_inj es e e' Hact Hin Hin' Hne).
Qed.

Lemma removed_by_fresh es pre removed ec : removed_by es pre removed →
  (∀ e0, e0 ∈ es → e_cfg e0 ≠ ec) → removed_by es (pre ++ [ec]) removed.
Proof.
  intros Hrem Hf id e. rewrite (Hrem id e), not_elem_of_app, list_elem_of_singleton.
  split; [|tauto]. intros (? & ? & ?). split_and!; auto.
Qed.

Lemma match_streams_spec cpus es : active_ok es → ∀ ss pre es0 created removed s,
  NoDup (map config_id (pre ++ ss)) → Forall config_wf ss → removed_by es pre removed →
  ∃ m, match_streams cpus ss es0 created removed s = Some m ∧
    match m with
    | MFail msg _ _ => ∃ ec ch, ec ∈ ss ∧ newEstimator cpus ch ec = Some (Error msg)
    | MDone es' created' removed' _ =>
        ∃ new fresh, es' = es0 ++ new ∧ created' = created ++ fresh ∧
          Forall2 (serves cpus es) ss new ∧ removed_by es (pre ++ ss) removed' ∧
          (∀ e, e ∈ new → e ∈ es ∨ e ∈ fresh) ∧
          (fresh = [] ↔ ∀ ec, ec ∈ ss → ∃ e, e ∈ es ∧ e_cfg e = ec)
    end.
Proof.
  intros Hact. induction ss as [|ec ss IH]; intros pre es0 created removed s Hn Hwf Hrem.
  { eexists. split; [done|]. exists [], []. rewrite !app_nil_r.
    split_and!; try done; [by intros e He%elem_of_nil|].
    split; [|done]. intros _ ec Hec. by apply not_elem_of_nil in Hec. }
  apply Forall_cons in Hwf as [Hec Hwf]. cbn [match_streams].
  assert (ec ∉ pre) as Hnpre.
  { rewrite map_app in Hn. apply NoDup_app in Hn as (_ & Hd & _). intros Hin.
    apply (Hd (config_id ec)); [apply list_elem_of_fmap; eauto|left]. }
  assert (pre ++ ec :: ss = (pre ++ [ec]) ++ ss) as Eapp by by rewrite <- app_assoc.
  rewrite Eapp in Hn. destruct (reusable removed ec) as [e|] eqn:Er.
  - apply (reusable_spec es pre removed ec e Hact Hrem Hnpre) in Er as [Hin <-].
    destruct (IH (pre ++ [e_cfg e]) (es0 ++ [e]) created (delete (config_id (e_cfg e)) removed) s Hn Hwf
      (removed_by_kept es pre removed e Hact Hrem Hin)) as (m & -> & Hm).
    eexists. split; [done|]. destruct m as [msg c s'|es' created' removed' s'].
    + destruct Hm as (ec & ch & ? & ?). exists ec, ch. split; [by right|done].
    + destruct Hm as (new & fresh & -> & -> & Hs & Hr & Hf & Hall). exists (e :: new), fresh.
      split_and!; [by rewrite <- app_assoc|done|constructor; [by left|done]|by rewrite Eapp| |].
      * intros e' [->|?]%elem_of_cons; auto.
      * rewrite Hall. setoid_rewrite elem_of_cons. split; [|by auto].
        intros H ec [->|Hin']; [by exists e|auto].
  - assert (∀ e0, e0 ∈ es → e_cfg e0 ≠ ec) as Hfr.
    { intros e0 Hin Heq. assert (reusable removed ec = Some e0) as E
        by (by apply (reusable_spec es pre removed ec e0 Hact Hrem Hnpre)). congruence. }
    cbn [make_chan]. destruct (newEstimator_run cpus (ch_made s) ec Hec) as (r & Enew & Hr). rewrite Enew. cbn [mbind option_bind].
    destruct r as [e|msg].
    + destruct (IH (pre ++ [ec]) (es0 ++ [e]) (created ++ [e]) removed (mkChans (S (ch_made s)) (ch_closed s)) Hn Hwf
        (removed_by_fresh es pre removed ec Hrem Hfr)) as (m & -> & Hm).
      eexists. split; [done|]. destruct m as [msg c s'|es' created' removed' s'].
      * destruct Hm as (ec' & ch & ? & ?). exists ec', ch. split; [by right|done].
      * destruct Hm as (new & fresh & -> & -> & Hs & Hr' & Hf & Hall). exists (e :: new), (e :: fresh).
        split_and!; [by rewrite <- app_assoc|by rewrite <- app_assoc|constructor; [by right; split; [|exists (ch_made s)]|done]|by rewrite Eapp| |].
        -- intros e' [->|?%Hf]%elem_of_cons; rewrite elem_of_cons; tauto.
        -- split; [done|]. intros H. destruct (H ec) as (e0 & Hin & Heq); [left|]. by destruct (Hfr e0 Hin).
    + eexists. split; [done|]. exists ec, (ch_made s). split; [left|done].
Qed.

Lemma estimators_by_id_removed es : active_ok es → removed_by es [] (estimators_by_id es).
Proof.
  intros [Hn _] id e. rewrite estimators_by_id_lookup by done. split; [|tauto].
  intros [? ?]. split_and!; [done|done|apply not_elem_of_nil].
Qed.

Lemma serves_cfg cpus es ec e : active_ok es → config_wf ec → serves cpus es ec e →
  e_cfg e = ec ∧ e_id e = config_id ec.
Proof.
  intros Hact Hwf [[Hin <-]|(_ & ch & Hnew)]; [by destruct (active_cfg es Hact e Hin)|].
  destruct (newEstimator_run cpus ch ec Hwf) as (r & E & Hr). rewrite Hnew in E. injection E as <-. tauto.
Qed.

Lemma serves_active_ok cpus es ss new : active_ok es → streams_ok ss →
  Forall2 (serves cpus es) ss new → active_ok new.
Proof.
  intros Hact [Hn Hwf] H.
  assert (Forall2 (λ ec e, e_cfg e = ec ∧ e_id e = config_id ec ∧ config_wf ec) ss new) as H'.
  { clear Hn. induction H as [|ec e ss new Hs _ IH]; [constructor|]. apply Forall_cons in Hwf as [Hec Hwf].
    constructor; [|by apply IH]. destruct (serves_cfg cpus es ec e Hact Hec Hs). done. }
  clear H. split.
  - replace (map e_id new) with (map config_id ss); [done|]. clear Hn Hwf Hact.
    induction H' as [|ec e ss new (_ & Hid & _) _ IH]; simpl; [done|]. by rewrite Hid, IH.
  - intros e [i Ei]%list_elem_of_lookup. destruct (Forall2_lookup_r _ _ _ _ _ H' Ei) as (ec & _ & <- & -> & ?). done.
Qed.

(** ** The stop channels *)
Definition match_chans (m : match_result) : chans := match m with MFail _ _ s => s | MDone _ _ _ s => s end.
Definition created_of (m : match_result) : list estimator :=
  match m with MFail _ created _ => created | MDone _ created _ _ => created end.

(** Every channel made is that of one active estimator, or closed. *)
Definition channels_ok (w : world) : Prop :=
  ch_closed (w_chans w) ++ map e_stopCh (w_estimators w) ≡ₚ seq 0 (ch_made (w_chans w)).

Lemma newEstimator_chan cpus ch cfg e : newEstimator cpus ch cfg = Some (Ok e) → e_stopCh e = ch.
Proof.
  unfold newEstimator. cbv zeta. destruct (_ <? _)%nat; [done|]. destruct (existsb _ _); [done|].
  destruct (compileFilters _); [|done]. destruct (existsb _ _); [done|]. intros E. by run_inv.
Qed.

Lemma estimators_by_id_perm es : NoDup (map e_id es) → map snd (map_to_list (estimators_by_id es)) ≡ₚ es.
Proof.
  induction es as [|e es IH] using rev_ind; intros Hn; [done|].
  rewrite map_app in Hn. apply NoDup_app in Hn as (Hn & Hne & _).
  unfold estimators_by_id. rewrite foldl_app. cbn [foldl]. change (foldl _ ∅ es) with (estimators_by_id es).
  assert (estimators_by_id es !! e_id e = None) as E.
  { apply eq_None_not_Some. intros [e' (Hin & Hid)%estimators_by_id_lookup]; [|done].
    apply (Hne (e_id e)); [|left]. apply list_elem_of_fmap. by exists e'. }
  change (map snd ?l) with (snd <$> l). rewrite map_to_list_insert by done. cbn [fmap list_fmap snd].
  change (snd <$> ?l) with (map snd l). rewrite IH by done. apply Permutation_cons_append.
Qed.

(** Each created estimator gets the next channel. *)
Lemma match_streams_chans cpus ss : ∀ es0 created0 removed0 s m,
  match_streams cpus ss es0 created0 removed0 s = Some m →
  ∃ fresh, created_of m = created0 ++ fresh ∧ map e_stopCh fresh = seq (ch_made s) (length fresh) ∧
    match_chans m = mkChans (ch_made s + length fresh) (ch_closed s) ∧
    match m with
    | MFail _ _ _ => True
    | MDone es created removed _ =>
        es ++ map snd (map_to_list removed) ≡ₚ es0 ++ map snd (map_to_list removed0) ++ fresh
    end.
Proof.
  induction ss as [|ec ss IH]; intros es0 created0 removed0 s m E; cbn [match_streams] in E.
  { injection E as <-. exists []. simpl. rewrite !app_nil_r, Nat.add_0_r. by destruct s. }
  destruct (reusable removed0 ec) as [e|] eqn:Er.
  - apply IH in E as (fresh & Ec & Es & Em & HP). exists fresh. split_and!; [done..|].
    destruct m as [|es created removed s']; [done|]. rewrite HP. unfold reusable in Er.
    destruct (removed0 !! config_id ec) as [e0|] eqn:E0; [|done]. simpl in Er. destruct (decide _); [|done].
    injection Er as ->. rewrite <- (map_to_list_delete removed0 _ e E0). cbn [map snd]. by rewrite <- app_assoc.
  - cbn [make_chan] in E. apply bind_Some in E as ([e|msg] & En & E).
    2: { injection E as <-. exists []. simpl. rewrite !app_nil_r, Nat.add_0_r. by destruct s. }
    apply newEstimator_chan in En.
    apply IH in E as (fresh & Ec & Es & Em & HP). cbn [ch_made ch_closed] in *. exists (e :: fresh).
    split_and!; [by rewrite <- app_assoc in Ec|cbn; by rewrite En, Es|rewrite Em; simpl; f_equal; lia|].
    destruct m as [|es created removed s']; [done|]. rewrite HP, <- app_assoc. apply Permutation_app_head.
    cbn [app]. by rewrite Permutation_middle.
Qed.

(** Stopping estimators whose channels are distinct and open. *)
Lemma stop_estimators_run es : ∀ w, NoDup (ch_closed (w_chans w) ++ map e_stopCh es) →
  stop_estimators w es =
    Some (set_chans w (mkChans (ch_made (w_chans w)) (ch_closed (w_chans w) ++ map e_stopCh es))).
Proof.
  unfold stop_estimators. induction es as [|e es IH]; intros w Hn; cbn [for_each map] in *.
  { rewrite app_nil_r. by destruct w as [? ? ? ? ? []]. }
  assert (estimator_stop w e = Some (set_chans w (mkChans (ch_made (w_chans w)) (ch_closed (w_chans w) ++ [e_stopCh e])))) as ->.
  { unfold estimator_stop, close_chan. rewrite decide_False; [done|].
    apply NoDup_app in Hn as (_ & Hn & _). intros Hin. apply (Hn _ Hin). left. }
  cbn [mbind option_bind]. rewrite IH; [|cbn [set_chans w_chans ch_closed]; by rewrite <- app_assoc].
  unfold set_chans. cbn. by rewrite <- app_assoc.
Qed.

Lemma stop_estimators_inv es : ∀ w w', stop_estimators w es = Some w' → ∃ s, w' = set_chans w s.
Proof.
  unfold stop_estimators. induction es as [|e es IH]; intros w w' E; cbn [for_each] in E.
  { injection E as <-. exists (w_chans w). by destruct w. }
  apply bind_Some in E as (w1 & E1 & E). unfold estimator_stop in E1. run_inv.
  apply IH in E as [s' ->]. by exists s'.
Qed.

Lemma fingerprints_set w b : w_fingerprintLabels (if b : bool then SetFingerprintLabels w true else w) = w_fingerprintLabels w || b.
Proof. destruct b; simpl; [by rewrite orb_true_r|by rewrite orb_false_r]. Qed.

(** After the loop the channels are those closed, those of the old estimators
    and those of the created ones. *)
Lemma match_channels cpus ss w m : channels_ok w → NoDup (map e_id (w_estimators w)) →
  match_streams cpus ss [] [] (estimators_by_id (w_estimators w)) (w_chans w) = Some m →
  ch_closed (match_chans m) = ch_closed (w_chans w) ∧
  (ch_closed (w_chans w) ++ map e_stopCh (created_of m)) ++ map e_stopCh (w_estimators w) ≡ₚ seq 0 (ch_made (match_chans m)) ∧
  match m with
  | MFail _ _ _ => True
  | MDone es _ removed _ => (ch_closed (w_chans w) ++ map e_stopCh (map snd (map_to_list removed))) ++ map e_stopCh es
      ≡ₚ seq 0 (ch_made (match_chans m))
  end.
Proof.
  unfold channels_ok. intros Hch Hn Em. apply match_streams_chans in Em as (fresh & Ec & Es & Em & HP).
  cbn [app] in Ec. rewrite Em. cbn [ch_closed ch_made].
  assert ((ch_closed (w_chans w) ++ map e_stopCh fresh) ++ map e_stopCh (w_estimators w) ≡ₚ
    seq 0 (ch_made (w_chans w) + length fresh)) as HL.
  { rewrite seq_app, <- Hch, Es, <- !app_assoc. apply Permutation_app_head, Permutation_app_comm. }
  split; [done|]. split; [by rewrite Ec|]. destruct m as [|es created removed s']; [done|].
  rewrite <- HL, <- !app_assoc. apply Permutation_app_head. rewrite <- !map_app. cbn [app] in HP.
  rewrite (estimators_by_id_perm _ Hn) in HP. apply fmap_Permutation.
  by rewrite (Permutation_app_comm (map snd _)), HP, Permutation_app_comm.
Qed.

Lemma channels_nodup (l1 l2 : list nat) n : l1 ++ l2 ≡ₚ seq 0 n → NoDup l1.
Proof. intros HP. eapply (NoDup_app l1 l2). rewrite HP. apply NoDup_seq. Qed.

(** What is stopped and dropped for the estimators left in [removed]. *)
Lemma removed_stopped (active : list estimator) (ss : list EstimatorConfig) (removed : gmap string estimator) (churn : gmap churnKey churnEntry) :
  removed_by active ss removed → let stopped := map snd (map_to_list removed) in
  NoDup (map e_id stopped) ∧ (∀ e, e ∈ stopped ↔ e ∈ active ∧ e_cfg e ∉ ss) ∧
  ∀ k, invalidateCardinalityCache removed churn !! k = if decide (k.1 ∈ map e_id stopped) then None else churn !! k.
Proof.
  intros Hrem stopped.
  assert (∀ e, e ∈ stopped ↔ removed !! e_id e = Some e) as Hst.
  { intros e. unfold stopped. rewrite list_elem_of_fmap. split.
    - intros ([id e'] & -> & Hin%elem_of_map_to_list). cbn [snd]. pose proof Hin as (_ & Hid & _)%Hrem. by rewrite Hid.
    - intros He. exists (e_id e, e). by rewrite elem_of_map_to_list. }
  assert (map e_id stopped = map fst (map_to_list removed)) as Eids.
  { unfold stopped. rewrite map_map. apply map_ext_in. intros [id e] Hin%list_elem_of_In%elem_of_map_to_list.
    by apply Hrem in Hin as (_ & ? & _). }
  split; [rewrite Eids; apply NoDup_fst_map_to_list|]. split.
  { intros e. rewrite Hst, (Hrem (e_id e) e). tauto. }
  intros k. unfold invalidateCardinalityCache. rewrite map_lookup_filter.
  assert (k.1 ∈ map e_id stopped ↔ is_Some (removed !! k.1)) as Hk.
  { rewrite Eids, list_elem_of_fmap. split.
    - intros ([id e] & -> & Hin%elem_of_map_to_list). by exists e.
    - intros [e He]. exists (k.1, e). by rewrite elem_of_map_to_list. }
  destruct (churn !! k) as [c|]; simpl; [|by destruct (decide _)].
  destruct (removed !! k.1) as [e|] eqn:E.
  - rewrite option_guard_False by congruence. rewrite decide_True; [done|]. by rewrite Hk.
  - rewrite option_guard_True by done. rewrite decide_False; [done|]. rewrite Hk. by intros [].
Qed.

Lemma loadConfig_run cpus cfg w :
  active_ok (w_estimators w) → channels_ok w → streams_ok (c_Streams cfg) →
  let active := w_estimators w in
  let all_active := ∀ ec, ec ∈ c_Streams cfg → ∃ e, e ∈ active ∧ e_cfg e = ec in
  let none_left := ∀ e, e ∈ active → e_cfg e ∈ c_Streams cfg in
  ∃ w' res, loadConfig cpus cfg w = Some (w', res) ∧ active_ok (w_estimators w') ∧ channels_ok w' ∧
    match res with
    | Error msg =>
        (∃ ec ch, ec ∈ c_Streams cfg ∧ newEstimator cpus ch ec = Some (Error msg)) ∧
        w_estimators w' = active ∧ w_dedup w' = w_dedup w ∧ w_churn w' = w_churn w ∧
        w_cacheAt w' = w_cacheAt w
    | Ok false => w' = w ∧ all_active ∧ none_left
    | Ok true =>
        ¬ (all_active ∧ none_left) ∧
        Forall2 (serves cpus active) (c_Streams cfg) (w_estimators w') ∧
        (∃ stopped, ch_closed (w_chans w') = ch_closed (w_chans w) ++ map e_stopCh stopped ∧
           NoDup (map e_id stopped) ∧ (∀ e, e ∈ stopped ↔ e ∈ active ∧ e_cfg e ∉ c_Streams cfg) ∧
           ∀ k, w_churn w' !! k = if decide (k.1 ∈ map e_id stopped) then None else w_churn w !! k) ∧
        (all_active → w_dedup w' = w_dedup w) ∧
        (¬ all_active → w_dedup w' = deduplicator_Reset <$> w_dedup w) ∧ w_cacheAt w' = None
    end ∧
    (w_fingerprintLabels w = true → w_fingerprintLabels w' = true) ∧
    (∀ e, e ∈ w_estimators w' → e_hasLabelKeyword e = true →
       e ∈ active ∨ w_fingerprintLabels w' = true).
Proof.
  intros Hact Hch Hss active all_active none_left. unfold loadConfig. fold active.
  destruct (match_streams_spec cpus active Hact (c_Streams cfg) [] [] [] (estimators_by_id active) (w_chans w)
    (streams_ids _ Hss) (streams_wf _ Hss) (estimators_by_id_removed active Hact)) as (m & Em & Hm).
  rewrite Em. cbn [mbind option_bind].
  destruct (match_channels cpus _ w m Hch (active_ids _ Hact) Em) as (Ecl & Hfail & Hdone).
  destruct m as [msg created s|es created removed s]; cbn [match_chans created_of] in *.
  { rewrite stop_estimators_run; cbn [set_chans w_chans]; rewrite Ecl; [|by eapply channels_nodup].
    cbn [mbind option_bind]. do 2 eexists. split; [done|]. split; [done|]. split; [exact Hfail|].
    split; [by split_and!|]. split; [done|]. by left. }
  destruct Hm as (new & fresh & -> & -> & Hs & Hrem & Hf & Hall). cbn [app] in *.
  assert (removed = ∅ ↔ none_left) as Hnone.
  { split.
    - intros -> e Hin. apply dec_stable. intros Hn.
      assert ((∅ : gmap string estimator) !! e_id e = Some e) as E by by apply Hrem. by rewrite lookup_empty in E.
    - intros Hnl. apply map_eq. intros id. rewrite lookup_empty. apply eq_None_not_Some.
      intros [e (Hin & _ & Hn)%Hrem]. by apply Hn, Hnl. }
  destruct (decide (fresh = [] ∧ removed = ∅)) as [[Hf0 Hr0]|Hchg].
  { do 2 eexists. split; [done|]. split; [exact Hact|]. split; [exact Hch|].
    split; [|split; [done|by left]]. split; [done|]. split; [exact (proj1 Hall Hf0)|exact (proj1 Hnone Hr0)]. }
  rewrite fingerprints_set, stop_estimators_run; cbn [w_chans]; rewrite Ecl; [|by eapply channels_nodup].
  cbn [mbind option_bind]. do 2 eexists. split; [done|].
  split; [by apply (serves_active_ok cpus active (c_Streams cfg))|]. split; [exact Hdone|]. simpl.
  split; [|split; [by intros ->|]].
  2: { intros e [?|Hin]%Hf Hk; [by left|right]. apply orb_true_iff. right. apply existsb_exists.
       exists e. by rewrite <- list_elem_of_In. }
  split; [rewrite <- Hnone; unfold all_active; rewrite <- Hall; tauto|]. split; [done|]. split.
  { eexists. split; [done|]. exact (removed_stopped active _ removed (w_churn w) Hrem). }
  assert (all_active ↔ fresh = []) as Ha by (symmetry; exact Hall).
  rewrite Ha. destruct fresh; by split_and!.
Qed.

(** C28: applying a configuration.  For prepared streams [loadConfig] does not
    panic.  If a stream cannot be started it reports that error and leaves the
    active estimators, the deduplicator and the caches as they were.  It
    reports no change exactly when nothing had to be created or removed, and
    then changes nothing.  Otherwise each stream, in order, is served by the
    active estimator with the very same config, its state included, or else by
    a new one; exactly the estimators no stream describes are stopped, each
    once, and exactly their churn entries dropped; the deduplicator is reset if
    and only if an estimator was created.  In every case the channels still
    open are those of the estimators active afterwards: no goroutine is left
    behind, also by a load that fails half way.  Label fingerprints are never
    turned off, and are on as soon as a new estimator needs them. *)
Theorem loadConfig_spec cpus cfg w :
  active_ok (w_estimators w) → channels_ok w → streams_ok (c_Streams cfg) →
  let active := w_estimators w in
  let all_active := ∀ ec, ec ∈ c_Streams cfg → ∃ e, e ∈ active ∧ e_cfg e = ec in
  let none_left := ∀ e, e ∈ active → e_cfg e ∈ c_Streams cfg in
  ∃ w' res, loadConfig cpus cfg w = Some (w', res) ∧ active_ok (w_estimators w') ∧ channels_ok w' ∧
    match res with
    | Error msg =>
        (∃ ec ch, ec ∈ c_Streams cfg ∧ newEstimator cpus ch ec = Some (Error msg)) ∧
        w_estimators w' = active ∧ w_dedup w' = w_dedup w ∧ w_churn w' = w_churn w ∧
        w_cacheAt w' = w_cacheAt w
    | Ok false => w' = w ∧ all_active ∧ none_left
    | Ok true =>
        ¬ (all_active ∧ none_left) ∧
        Forall2 (serves cpus active) (c_Streams cfg) (w_estimators w') ∧
        (∃ stopped, ch_closed (w_chans w') = ch_closed (w_chans w) ++ map e_stopCh stopped ∧
           NoDup (map e_id stopped) ∧ (∀ e, e ∈ stopped ↔ e ∈ active ∧ e_cfg e ∉ c_Streams cfg) ∧
           ∀ k, w_churn w' !! k = if decide (k.1 ∈ map e_id stopped) then None else w_churn w !! k) ∧
        (all_active → w_dedup w' = w_dedup w) ∧
        (¬ all_active → w_dedup w' = deduplicator_Reset <$> w_dedup w) ∧ w_cacheAt w' = None
    end ∧
    (w_fingerprintLabels w = true → w_fingerprintLabels w' = true) ∧
    (∀ e, e ∈ w_estimators w' → e_hasLabelKeyword e = true →
       e ∈ active ∨ w_fingerprintLabels w' = true).
Proof. exact (loadConfig_run cpus cfg w). Qed.

(** The reloader's invariant: the active estimators are the streams of the
    active config, label fingerprints are computed when one needs them, and the
    open channels are those of the active estimators. *)
Record in_sync (cfg : Config) (w : world) : Prop := {
  sync_active : active_ok (w_estimators w);
  sync_streams : ∀ ec, ec ∈ c_Streams cfg ↔ ∃ e, e ∈ w_estimators w ∧ e_cfg e = ec;
  sync_fingerprints : ∀ e, e ∈ w_estimators w → e_hasLabelKeyword e = true → w_fingerprintLabels w = true;
  sync_channels : channels_ok w
}.

(** The YAML decoder fills [HLLPrecision], a uint8. *)
Definition yaml_typed (Src : ConfigSource) : Prop :=
  ∀ data ss, yaml_UnmarshalStrict data = Ok ss → Forall (λ ec, 0 <= HLLPrecision ec) ss.

Lemma readConfig_streams_ok (Src : ConfigSource) cpus path nodes cfg : yaml_typed Src →
  readConfig cpus path nodes = Ok cfg → streams_ok (c_Streams cfg).
Proof.
  intros Hy. unfold readConfig. destruct (decide _).
  { destruct nodes; [done|]. intros [= <-]. split; constructor. }
  destruct (os_ReadFile path) as [data|]; [|done].
  destruct (yaml_UnmarshalStrict data) as [ss|] eqn:Ey; [|done].
  destruct (prepare cpus ss) as [ss'|] eqn:E; [|done]. intros [= <-].
  apply Hy in Ey. by destruct (prepare_ok cpus ss ss' Ey E) as (_ & ? & _ & ? & _).
Qed.

Lemma serves_in cpus es ec e : active_ok es → config_wf ec → serves cpus es ec e → e_cfg e = ec.
Proof. intros Ha Hw Hs. by apply (serves_cfg cpus es ec e Ha Hw Hs). Qed.

Lemma loadConfig_sync cpus cfg cfg' w : in_sync cfg w → streams_ok (c_Streams cfg') →
  ∃ w' res, loadConfig cpus cfg' w = Some (w', res) ∧
    in_sync (match res with Ok _ => cfg' | Error _ => cfg end) w' ∧
    match res with Ok _ => True | Error _ => w_estimators w' = w_estimators w ∧ w_dedup w' = w_dedup w ∧ w_churn w' = w_churn w end.
Proof.
  intros [Hact Hs Hfp Hch] Hss. destruct (loadConfig_run cpus cfg' w Hact Hch Hss) as (w' & res & E & Hact' & Hch' & Hres & Hf1 & Hf2).
  exists w', res. split; [done|]. rename Hfp into Hfp0.
  assert (∀ e, e ∈ w_estimators w' → e_hasLabelKeyword e = true → w_fingerprintLabels w' = true) as Hfp.
  { intros e Hin Hk. destruct (Hf2 e Hin Hk) as [Ho|]; [|done]. by apply Hf1, (Hfp0 e). }
  destruct res as [[]|msg].
  - destruct Hres as (_ & HF & _). split; [|done]. split; [done| |done|done]. intros ec. split.
    + intros [i Hi]%list_elem_of_lookup. destruct (Forall2_lookup_l _ _ _ _ _ HF Hi) as (e & He & Hse).
      exists e. split; [by apply list_elem_of_lookup_2 in He|]. apply (serves_in cpus (w_estimators w) ec e Hact); [|done].
      apply (proj1 (Forall_forall _ _) (streams_wf _ Hss)). by apply list_elem_of_lookup_2 in Hi.
    + intros (e & [i He]%list_elem_of_lookup & <-). destruct (Forall2_lookup_r _ _ _ _ _ HF He) as (ec & Hi & Hse).
      apply list_elem_of_lookup_2 in Hi.
      rewrite (serves_in cpus (w_estimators w) ec e Hact); [done| |done].
      by apply (proj1 (Forall_forall _ _) (streams_wf _ Hss)).
  - destruct Hres as (-> & Hall & Hnone). split; [|done]. split; [done| |done|done].
    intros ec. split; [apply Hall|]. by intros (e & ? & <-); apply Hnone.
  - destruct Hres as (_ & He & Hd & Hc & _). split; [|done]. split; [done| |done|done]. intros ec. rewrite He. apply Hs.
Qed.

(** The reloader.  While the active estimators are the streams of the
    active config, a round never panics and keeps them so, whatever the file
    holds.  A round that fails keeps the config, the estimators with their
    state, the deduplicator and the churn state, counts one error and clears
    the success metric; a round whose file has the same hash changes nothing
    else; any other makes the file's config the active one. *)
Theorem reload_step_spec (Src : ConfigSource) cpus path nodes r :
  yaml_typed Src → in_sync (r_cfg r) (r_world r) →
  ∃ r', reload_step cpus path nodes r = Some r' ∧ in_sync (r_cfg r') (r_world r') ∧
    r_reloadErrors r' = r_reloadErrors r + Z.b2z (negb (r_success r')) ∧
    (r_success r' = false → r_cfg r' = r_cfg r ∧ w_estimators (r_world r') = w_estimators (r_world r) ∧
       w_dedup (r_world r') = w_dedup (r_world r) ∧ w_churn (r_world r') = w_churn (r_world r)) ∧
    (r_success r' = true → ∃ cfg, readConfig cpus path nodes = Ok cfg ∧
       (c_hash cfg = c_hash (r_cfg r) ∧ r_cfg r' = r_cfg r ∧ r_world r' = r_world r ∨
        c_hash cfg ≠ c_hash (r_cfg r) ∧ r_cfg r' = cfg)).
Proof.
  intros Hy Hsync. unfold reload_step. destruct (readConfig cpus path nodes) as [cfg|msg] eqn:Er.
  2: { eexists. split; [done|]. split; [exact Hsync|]. simpl. by split_and!; [|intros _; split_and!|]. }
  destruct (Z.eqb_spec (c_hash cfg) (c_hash (r_cfg r))) as [Eh|Eh].
  { eexists. split; [done|]. split; [exact Hsync|]. simpl. split; [lia|]. split; [done|]. intros _. exists cfg. auto. }
  destruct (loadConfig_sync cpus (r_cfg r) cfg (r_world r) Hsync (readConfig_streams_ok Src cpus path nodes cfg Hy Er))
    as (w' & res & -> & Hs & Hres). cbn [mbind option_bind].
  destruct res as [changed|msg]; eexists; (split; [done|]; split; [exact Hs|]); simpl.
  - split; [lia|]. split; [done|]. intros _. exists cfg. auto.
  - by destruct Hres as (? & ? & ?).
Qed.
End Proofs.

(** * At concrete inputs *)
Definition demo_world : @world set_sketch_ops demo_ql := mkWorld [] false None ∅ (Some 5) no_chans.

Lemma demo_world_ok : active_ok (w_estimators demo_world).
Proof. split; [constructor|]. intros e He. by apply elem_of_nil in He. Qed.

Lemma demo_streams_ok : streams_ok [demo_stream ["job"%string; labelKeyword]].
Proof.
  split; [apply NoDup_singleton|]. constructor; [|constructor]. apply (demo_stream_wf _ _ demo_job_prepared).
Qed.

Lemma demo_serves es : Forall2 (serves (Ops := set_sketch_ops) (Ql := demo_ql) 1 []) [demo_stream ["job"%string; labelKeyword]] es →
  length es = 1%nat.
Proof. intros H. by apply Forall2_length in H. Qed.

Lemma loadConfig_spec_witness :
  ∃ w', @loadConfig set_sketch_ops demo_ql 1 (mkStreams 7 [demo_stream ["job"%string; labelKeyword]]) demo_world = Some (w', Ok true) ∧
    length (w_estimators w') = 1%nat ∧ w_cacheAt w' = None.
Proof.
  destruct (loadConfig_spec (Spec := set_sketch_spec) (Ql := demo_ql) 1 (mkStreams 7 [demo_stream ["job"%string; labelKeyword]])
    demo_world demo_world_ok (Permutation_refl _) demo_streams_ok) as (w' & res & E & _ & _ & Hres & _).
  destruct res as [[]|msg].
  - exists w'. destruct Hres as (_ & HF & _ & _ & _ & Hc). exact (conj E (conj (demo_serves _ HF) Hc)).
  - destruct Hres as (_ & Hall & _). destruct (Hall (demo_stream ["job"%string; labelKeyword])) as (e & He & _); [left|].
    by apply elem_of_nil in He.
  - destruct Hres as ((ec & ch & Hec & Hnew) & _). apply list_elem_of_singleton in Hec. subst ec.
    destruct (newEstimator_run (Spec := set_sketch_spec) (Ql := demo_ql) 1 ch (demo_stream ["job"%string; labelKeyword])) as (r & E1 & Hr);
      [apply (demo_stream_wf _ _ demo_job_prepared)|]. rewrite Hnew in E1. injection E1 as <-.
    destruct Hr as [Hr|[Hr|[m Hr]]]; [simpl in Hr; lia|discriminate Hr|discriminate Hr].
Defined.

Definition demo_src : ConfigSource := {|
  os_ReadFile path := Ok "streams:"%string;
  yaml_UnmarshalStrict data := Ok [set_GroupBy empty_config ["__label__"%string; "job"%string]]
|}.

Lemma demo_src_typed : yaml_typed demo_src.
Proof. intros data ss [= <-]. constructor; [simpl; lia|constructor]. Qed.

Definition demo_reloader : @reloader set_sketch_ops demo_ql := mkReloader (mkStreams 0 []) demo_world 0 0 true.

Lemma demo_in_sync : in_sync (r_cfg demo_reloader) (r_world demo_reloader).
Proof.
  split; [exact demo_world_ok| | |exact (Permutation_refl _)]; simpl.
  - intros ec. rewrite elem_of_nil. split; [done|]. intros (e & He & _). by apply elem_of_nil in He.
  - intros e He. by apply elem_of_nil in He.
Qed.

Lemma reload_step_spec_witness :
  ∃ r', @reload_step set_sketch_ops demo_hash demo_ql demo_src 1 "streams.yaml" [] demo_reloader = Some r' ∧
    in_sync (r_cfg r') (r_world r').
Proof.
  destruct (reload_step_spec (Spec := set_sketch_spec) (Xx := demo_hash) (Ql := demo_ql)
    demo_src 1 "streams.yaml" [] demo_reloader demo_src_typed demo_in_sync) as (r' & E & Hs & _).
  exists r'. exact (conj E Hs).
Defined.
