(* ===== verification/Scrape.v ===== *)
(** * Scrape: the cardinality metrics of a node and its peers

    Models app/vmestimator/cardinality_metrics.go: [writeCardinalityMetrics]
    with its cache, the local estimators, the snapshots fetched from the
    storage nodes and the churn state, and [fetchAndMergeSnapshots].  The HTTP
    client and the gob decoder are parameters; so is the order in which the
    concurrent fetches deliver their snapshots. *)
From Stdlib Require Import Ascii String.
From S2P Require Import Prelude GoText Types Config SketchSpec GroupSize Snapshot Estimator EstimatorInsert.
From S2P Require Import EstimatorWindow EstimatorLife EstimatorSnapshot EstimatorTyped EstimatorExamples.
From S2P Require Import Bloom Dedup Churn CompressedList ProtoReader XXHash GoQuote Metrics Reload.
Local Open Scope Z_scope.

(** [http.Get] at a time: the status and the body, a stream of gob messages
    that ends. *)
Class Peers `{Ops : SketchOps} := {
  body : Type;
  http_Get : Z → string → result (Z * body);
  gob_Decode : body → snapshot → result (option (body * snapshot));
  body_size : body → nat
}.
Class PeersOk `(P : Peers) : Prop := {
  gob_Decode_shrinks r s r' s' : gob_Decode r s = Ok (Some (r', s')) → (body_size r' < body_size r)%nat
}.

(** The order of a map with keys of type [K], and the interleaving of the
    goroutines that fetch. *)
Class KeyOrder (K : Type) `{Countable K} := { key_order : gset K → list K }.
Class KeyOrderOk `(O : KeyOrder K) : Prop := { key_order_perm X : key_order X ≡ₚ elements X }.
Class Interleaving := { interleave {A} : list (list A) → list A }.
Class InterleavingOk (I : Interleaving) : Prop := { interleave_perm {A} (ls : list (list A)) : interleave ls ≡ₚ mjoin ls }.

Section Defs.
Context `{Tab : UnicodeTables} `{Ops : SketchOps} `{Ord : IterOrder} `{Xx : Xxhash} `{Ql : MetricsQL}
  `{Prs : !Peers} `{OrdS : !KeyOrder string} `{OrdC : !KeyOrder churnKey} `{Int : Interleaving}.

(** [cb] is called for every snapshot received before an error or the end. *)
Definition fetchAndMergeSnapshots {St} (now : Z) (storageNodeURL : string) (cb : St → snapshot → option St) (st : St)
    : option (St * result unit) :=
  let url := (storageNodeURL +:+ "/clusternative/snapshot")%string in
  match http_Get now url with
  | Error e => Some (st, Error ("http get " +:+ url +:+ ": " +:+ e)%string)
  | Ok (status, resp) =>
      if negb (status =? 200) then Some (st, Error ("unexpected status code " +:+ dec status +:+ " from " +:+ url)%string)
      else decodeSnapshots gob_Decode cb (S (body_size resp)) resp newSnapshot st
  end.

(** What one goroutine delivers, in order, and whether it failed. *)
Definition fetched (now : Z) (url : string) : option (list snapshot * result unit) :=
  fetchAndMergeSnapshots now url (λ l s, Some (l ++ [s])) [].
Definition is_error {A} (r : result A) : bool := match r with Error _ => true | Ok _ => false end.

(** The goroutines under [wg]: each [ss.add] is atomic, their order is the
    interleaving's. *)
Definition fetch_all (now : Z) (storageNodeURLs : list string) : option (gmap string snapshot * bool) :=
  deliveries ← for_each (λ ds url, d ← fetched now url; Some (ds ++ [d])) storageNodeURLs [];
  ss ← for_each snapshots_add (interleave (map fst deliveries)) newSnapshots;
  Some (ss, existsb (λ d, is_error d.2) deliveries).

Definition churn_callback (now : Z) (entries : gmap churnKey churnEntry) (s : snapshot)
    : option (gmap churnKey churnEntry * bool) :=
  entries ← churn_update entries s now; Some (entries, true).

Definition write_estimators (minCardinality : Z) (es : list estimator) (plain : byte_list)
    : option (list estimator * byte_list) :=
  for_each (λ '(es, plain) e,
    '(e, plain) ← estimator_writeMetrics minCardinality e plain; Some (es ++ [e], plain)) es ([], plain).

Definition churn_estimators (now : Z) (es : list estimator) (entries : gmap churnKey churnEntry)
    : option (list estimator * gmap churnKey churnEntry) :=
  for_each (λ '(es, entries) e,
    eb0 ← e_buckets e !! 0%nat;
    if eb_calculateChurn eb0 then
      '(entries, _, e) ← toSnapshot (churn_callback now) e entries; Some (es ++ [e], entries)
    else Some (es ++ [e], entries)) es ([], entries).

Definition churn_cluster (now : Z) (ss : gmap string snapshot) (entries : gmap churnKey churnEntry)
    : option (gmap churnKey churnEntry) :=
  for_each (λ entries id,
    s ← ss !! id; if s_CalculateChurn s then churn_update entries s now else Some entries)
    (key_order (dom ss)) entries.

Definition write_cluster (minCardinality now : Z) (storageNodeURLs : list string)
    (entries : gmap churnKey churnEntry) (plain : byte_list) : option (gmap churnKey churnEntry * byte_list) :=
  match storageNodeURLs with
  | [] => Some (entries, plain)
  | _ =>
      '(ss, fetchFailed) ← fetch_all now storageNodeURLs;
      entries ← (if negb fetchFailed then churn_cluster now ss entries else Some entries);
      '(_, plain) ← snapshots_writeMetrics minCardinality (key_order (dom ss)) ss plain;
      Some (entries, plain)
  end.

(** The metrics written anew at [now]. *)
Definition refresh (minCardinality now : Z) (storageNodeURLs : list string) (w : world) : option (world * byte_list) :=
  '(es, plain) ← write_estimators minCardinality (w_estimators w) [];
  '(es, entries) ← churn_estimators now es (w_churn w);
  '(entries, plain) ← write_cluster minCardinality now storageNodeURLs entries plain;
  entries ← churn_cleanup entries now;
  '(entries, plain) ← churn_writeMetrics (key_order (dom entries)) entries plain;
  Some (mkWorld es (w_fingerprintLabels w) (w_dedup w) entries (w_cacheAt w) (w_chans w), plain).

(** The program's state, the cached text and the metrics of the exposition. *)
Record server := mkServer {
  sv_world : world;
  sv_cache : byte_list;
  sv_writes : Z;
  sv_writeBytes : Z
}.

(** [time.Since(t) >= ttl]; the time since the zero time is the largest
    duration. *)
Definition expired (ttl : Z) (cacheAt : option Z) (t : Z) : bool :=
  match cacheAt with None => true | Some at_ => ttl <=? t - at_ end.

(** The three readings of the clock: at the check, as [now], and at the end. *)
Definition writeCardinalityMetrics (ttl minCardinality : Z) (storageNodeURLs : list string) (t0 now t1 : Z)
    (sv : server) : option (server * byte_list) :=
  sv ← (if expired ttl (w_cacheAt (sv_world sv)) t0 || (ttl =? 0) then
          '(w, plain) ← refresh minCardinality now storageNodeURLs (sv_world sv);
          Some (mkServer (mkWorld (w_estimators w) (w_fingerprintLabels w) (w_dedup w) (w_churn w) (Some t1) (w_chans w))
                  plain (sv_writes sv) (sv_writeBytes sv))
        else Some sv);
  Some (mkServer (sv_world sv) (sv_cache sv) (sv_writes sv + 1) (sv_writeBytes sv + zlength (sv_cache sv)), sv_cache sv).
End Defs.

(** ** Fetching *)
Section Fetching.
Context `{Spec : SketchSpec} `{Ord : IterOrder, !IterOrderOk Ord} `{Prs : !Peers} `{PrsOk : !PeersOk Prs}
  `{Int : Interleaving, !InterleavingOk Int}.

(** What peers send: every sketch is one, every group has its values, a global
    snapshot its group, an interval, and the group-by keys [G] that belong to
    the snapshot's id. *)
Record peer_snapshot (G : string → list string) (s : snapshot) : Prop := {
  ps_ok : snapshot_ok s;
  ps_groupBy : s_GroupBy s = G (snapshot_id s);
  ps_interval : s_Interval s ≠ 0
}.
Definition peers_honest (G : string → list string) (urls : list string) : Prop :=
  ∀ now url out res, url ∈ urls → fetched now url = Some (out, res) → Forall (peer_snapshot G) out.

(** It is enough that everything decoded is such a snapshot. *)
Lemma decoded_honest G urls : (∀ r r' s, gob_Decode r newSnapshot = Ok (Some (r', s)) → peer_snapshot G s) →
  peers_honest G urls.
Proof.
  intros Hd now url out res _. unfold fetched, fetchAndMergeSnapshots. cbv zeta.
  destruct (http_Get _ _) as [[status resp]|]; [|intros [= <- _]; constructor]. destruct (negb _); [intros [= <- _]; constructor|].
  enough (∀ fuel r s l, Forall (peer_snapshot G) l → decodeSnapshots gob_Decode (λ l s, Some (l ++ [s])) fuel r s l = Some (out, res) →
    Forall (peer_snapshot G) out) as H by (apply H; constructor).
  induction fuel as [|fuel IH]; intros r s l Hl; [done|]. cbn [decodeSnapshots]. cbv zeta. change (snapshot_reset s) with newSnapshot.
  destruct (gob_Decode r newSnapshot) as [[[r' s']|]|msg] eqn:E; [|by intros [= <- _]..].
  cbn [mbind option_bind]. apply IH. apply Forall_app. split; [done|]. constructor; [by apply (Hd r r')|constructor].
Qed.

(** The loop ends: every message read shortens the body. *)
Lemma decode_collects fuel : ∀ r s l, (body_size r < fuel)%nat →
  ∃ new res, decodeSnapshots gob_Decode (λ l s, Some (l ++ [s])) fuel r s l = Some (l ++ new, res) ∧
    ∀ (St : Type) (cb : St → snapshot → option St) st st', for_each cb new st = Some st' →
      decodeSnapshots gob_Decode cb fuel r s st = Some (st', res).
Proof.
  induction fuel as [|fuel IH]; intros r s l Hl; [lia|]. cbn [decodeSnapshots]. cbv zeta.
  change (snapshot_reset s) with newSnapshot. destruct (gob_Decode r newSnapshot) as [[[r' s']|]|msg] eqn:E.
  - destruct (IH r' s' (l ++ [s'])) as (new & res & E' & Hcb).
    { apply gob_Decode_shrinks in E. lia. }
    cbn [mbind option_bind]. exists (s' :: new), res. split; [by rewrite E', <- app_assoc|].
    intros St cb st st' Ef. cbn [for_each] in Ef. destruct (cb st s') as [st1|]; [|done]. by apply Hcb.
  - exists [], (Ok tt). rewrite app_nil_r. split; [done|]. intros St cb st st' [= ->]. done.
  - exists [], (Error msg). rewrite app_nil_r. split; [done|]. intros St cb st st' [= ->]. done.
Qed.

(** A fetch ends, and any callback sees what [fetched] collects. *)
Lemma fetch_ok now url :
  ∃ new res, fetched now url = Some (new, res) ∧
    ∀ (St : Type) (cb : St → snapshot → option St) st st', for_each cb new st = Some st' →
      fetchAndMergeSnapshots now url cb st = Some (st', res).
Proof.
  unfold fetched, fetchAndMergeSnapshots. cbv zeta. destruct (http_Get _ _) as [[status resp]|msg].
  2: { eexists [], _. split; [done|]. by intros St cb st st' [= ->]. }
  destruct (negb _).
  { eexists [], _. split; [done|]. by intros St cb st st' [= ->]. }
  destruct (decode_collects (S (body_size resp)) resp newSnapshot [] ltac:(lia)) as (new & res & E & H).
  by exists new, res.
Qed.

(** ** Adding them up *)
Record cluster_ok (G : string → list string) (ss : gmap string snapshot) : Prop := {
  co_ok : map_Forall (λ _, snapshot_ok) ss;
  co_id : map_Forall (λ id s, s_ID s = id ∧ s_GroupBy s = G id ∧ s_Interval s ≠ 0) ss
}.

Lemma merge_groups_sound g m other : groups_sound m → groups_sound other →
  sketches_typed g m → sketches_typed g other →
  ∃ m', for_each (merge_group other) (iter_keys (dom other)) m = Some m' ∧ groups_sound m' ∧ sketches_typed g m' ∧
    dom m ∪ dom other ⊆ dom m'.
Proof.
  intros Hm Ho Tm To.
  destruct (for_each_inv (merge_group other) (λ dn m', groups_sound m' ∧ sketches_typed g m' ∧
      dom m ⊆ dom m' ∧ ∀ k, k ∈ dn → k ∈ dom m') (iter_keys (dom other)) m) as (m' & E & H1 & H2 & H3 & H4).
  - split_and!; [done|done|done|by intros k Hk%elem_of_nil].
  - intros dn k m1 (H1 & H2 & H3 & H4) Hk. rewrite iter_keys_elem in Hk. apply elem_of_dom in Hk as [ossk Eo].
    assert (∃ ssk, merge_group other m1 k = Some (<[k := ssk]> m1) ∧ sketch_sound (ss_Sketch ssk) ∧
      length (ss_Values ssk) = length g) as (ssk & -> & Hs & Hv).
    { unfold merge_group. rewrite Eo. cbn [mbind option_bind]. destruct (m1 !! k) as [ssk|] eqn:E1.
      - destruct (Merge_sound (ss_Sketch ssk) (ss_Sketch ossk)) as (sk & ok & -> & Hsk); [by apply (H1 k)|by apply (Ho k)|].
        cbn [mbind option_bind]. eexists. split; [done|]. split; [done|]. simpl. by apply (H2 k ssk).
      - eexists. split; [done|]. split; [by apply Clone_sound, (Ho k)|]. simpl. by apply (To k ossk). }
    eexists. split; [done|]. split_and!; [by apply map_Forall_insert_2|by apply map_Forall_insert_2|set_solver|].
    intros k' [?| ->%list_elem_of_singleton]%elem_of_app; [|set_solver]. rewrite dom_insert_L. set_solver.
  - exists m'. split_and!; try done. intros k [Hk|Hk]%elem_of_union; [auto|]. apply H4. by rewrite iter_keys_elem.
Qed.

Lemma snapshots_add_sound G ss s : cluster_ok G ss → peer_snapshot G s →
  ∃ ss', snapshots_add ss s = Some ss' ∧ cluster_ok G ss' ∧ dom ss' = {[snapshot_id s]} ∪ dom ss.
Proof.
  intros [Hss Hids] [[Hs Hv H0] Hg Hi]. unfold snapshots_add. cbv zeta. cbn [s_ID set_ID]. set (id := snapshot_id s) in *.
  assert (∀ s0, groups_sound (s_Sketches s0) → sketches_typed (G id) (s_Sketches s0) → s_ID s0 = EmptyString ∨ s_ID s0 = id →
    ∃ s', snapshot_merge s0 (set_ID s id) = Some s' ∧ s_ID s' = id ∧ snapshot_ok s' ∧ s_GroupBy s' = G id ∧ s_Interval s' ≠ 0)
    as Hmerge.
  { intros s0 Hs0 Hv0 Hid0. unfold snapshot_merge. rewrite bool_decide_false by (simpl; tauto).
    destruct (merge_groups_sound (G id) (s_Sketches s0) (s_Sketches s)) as (m & Em & Hm & Tm & Hd); try done.
    { rewrite <- Hg. exact Hv. }
    cbn [s_Sketches set_ID] in *. rewrite Em. cbn [mbind option_bind]. eexists. split; [done|]. split; [done|].
    split; [|done]. split; simpl; [done| |intros Eg; set_solver]. unfold values_ok. simpl. by rewrite Hg. }
  assert (∀ s', s_ID s' = id → snapshot_ok s' → s_GroupBy s' = G id → s_Interval s' ≠ 0 →
    cluster_ok G (<[id := s']> ss) ∧ dom (<[id := s']> ss) = {[id]} ∪ dom ss) as Hins.
  { intros s' ? ? ? ?. split; [|apply dom_insert_L]. split; by apply map_Forall_insert_2. }
  destruct (ss !! id) as [s0|] eqn:E.
  - destruct (Hids id s0 E) as (E1 & E2 & _). destruct (Hss id s0 E) as [Hs0 Hv0 _].
    destruct (Hmerge s0 Hs0) as (s' & -> & ? & ? & ? & ?); [by rewrite <- E2|by right|].
    cbn [mbind option_bind]. eexists. split; [done|]. by apply Hins.
  - destruct (Hmerge newSnapshot) as (s' & -> & E' & ? & ? & ?); [apply map_Forall_empty..|by left|].
    cbn [mbind option_bind]. rewrite E'. eexists. split; [done|]. by apply Hins.
Qed.

Lemma fetch_all_ok G now urls : peers_honest G urls →
  ∃ deliveries ss, Forall2 (λ url d, fetched now url = Some d) urls deliveries ∧
    fetch_all now urls = Some (ss, existsb (λ d, is_error d.2) deliveries) ∧ cluster_ok G ss.
Proof.
  intros HG.
  assert (∃ deliveries, for_each (λ ds url, d ← fetched now url; Some (ds ++ [d])) urls [] = Some deliveries ∧
    Forall2 (λ url d, fetched now url = Some d) urls deliveries ∧ Forall (λ d, Forall (peer_snapshot G) d.1) deliveries)
    as (ds & E & Hds & Hok).
  { destruct (for_each_inv (λ ds url, d ← fetched now url; Some (ds ++ [d])) (λ dn ds,
      Forall2 (λ url d, fetched now url = Some d) dn ds ∧ Forall (λ d, Forall (peer_snapshot G) d.1) ds) urls [])
      as (ds & E & H); [done| |by exists ds].
    intros dn url ds [H1 H2] Hin. destruct (fetch_ok now url) as (new & res & E & _). rewrite E. cbn [mbind option_bind].
    eexists. split; [done|]. split; [apply Forall2_app; [done|by constructor]|].
    apply Forall_app. split; [done|]. constructor; [by apply (HG now url new res)|constructor]. }
  destruct (for_each_inv snapshots_add (λ _ ss, cluster_ok G ss) (interleave (map fst ds)) newSnapshots) as (ss & Ess & Hss).
  - split; apply map_Forall_empty.
  - intros dn s ss Hss Hin. rewrite interleave_perm in Hin.
    apply list_elem_of_join in Hin as (l & Hin & (d & -> & Hd)%list_elem_of_fmap).
    rewrite Forall_forall in Hok. pose proof (Hok d Hd) as Hl. rewrite Forall_forall in Hl.
    destruct (snapshots_add_sound G ss s Hss (Hl s Hin)) as (ss' & ? & ? & _). eauto.
  - exists ds, ss. split; [done|]. split; [|done]. unfold fetch_all. rewrite E. cbn [mbind option_bind]. by rewrite Ess.
Qed.
End Fetching.

(** ** The local estimators *)
Section Local.
Context `{Tab : UnicodeTables} `{Spec : SketchSpec} `{Ord : IterOrder, !IterOrderOk Ord} `{Xx : Xxhash, !XxhashOk Xx}
  `{Ql : MetricsQL}.

(** The text an estimator is written as: the lines of snapshots that stand,
    together, for its window, and its totals. *)
Definition reports (flag : Z) (e : estimator) (text : byte_list) : Prop :=
  ∃ p A out Xs total, est_repr p e A ∧
    text = mjoin (map (estimates_text flag) out) ++ totals_text e (wrap 64 (zsum (map (dropped_count flag) out))) total ∧
    Forall (snapshot_typed e) out ∧ Forall2 (λ X s, groups_repr p X (s_Sketches s)) Xs out ∧ union_all Xs = window A.

Lemma write_estimator_ok flag e w : est_ok e →
  ∃ e' text, estimator_writeMetrics flag e w = Some (e', w ++ text) ∧ reports flag e text ∧
    est_ok e' ∧ same_static e e' ∧ e_buckets e' = e_buckets e.
Proof.
  intros Hok. pose proof Hok as [[Hf (p & A & H)] Ht _ _].
  destruct (estimator_writeMetrics_ok flag p e A w H Ht) as (e' & out & total & E & H' & Ht' & Hs & Hb & Ho & Xs & HX & HU).
  exists e', (mjoin (map (estimates_text flag) out) ++ totals_text e (wrap 64 (zsum (map (dropped_count flag) out))) total).
  split; [exact E|]. split; [by exists p, A, out, Xs, total|]. split; [|done].
  apply (est_ok_same e e' p A); try done. by rewrite Hb.
Qed.

(** A loop that rebuilds the list of estimators. *)
Lemma rebuild_ok {S} (f : S → estimator → option (estimator * S)) (I : list estimator → S → Prop) es s :
  Forall est_ok es → I [] s →
  (∀ dn s e, I dn s → e ∈ es → est_ok e → ∃ e' s', f s e = Some (e', s') ∧ I (dn ++ [e]) s' ∧ est_ok e' ∧
     same_static e e' ∧ e_buckets e' = e_buckets e) →
  ∃ es' s', for_each (λ '(es, s) e, '(e, s) ← f s e; Some (es ++ [e], s)) es ([], s) = Some (es', s') ∧
    I es s' ∧ Forall est_ok es' ∧ Forall2 (λ e e', same_static e e' ∧ e_buckets e' = e_buckets e) es es'.
Proof.
  intros Hes HI Hf.
  destruct (for_each_inv (λ '(es, s) e, '(e, s) ← f s e; Some (es ++ [e], s)) (λ dn '(es', s'), I dn s' ∧
     Forall est_ok es' ∧ Forall2 (λ e e', same_static e e' ∧ e_buckets e' = e_buckets e) dn es') es ([], s))
    as ([es' s'] & E & H); [done| |by exists es', s'].
  intros dn e [es1 s1] (HI1 & Hok1 & H1) Hin.
  destruct (Hf dn s1 e HI1 Hin) as (e' & s' & E & HI' & Hok' & Hs' & Hb'); [by apply (proj1 (Forall_forall _ _) Hes)|].
  rewrite E. cbn [mbind option_bind]. eexists. split; [done|]. split; [done|]. split.
  - apply Forall_app. split; [done|by constructor].
  - apply Forall2_app; [done|]. by constructor.
Qed.

Lemma write_estimators_ok flag es : Forall est_ok es →
  ∃ es' texts, write_estimators flag es [] = Some (es', mjoin texts) ∧ Forall2 (reports flag) es texts ∧
    Forall est_ok es' ∧ Forall2 (λ e e', same_static e e' ∧ e_buckets e' = e_buckets e) es es'.
Proof.
  intros Hes. unfold write_estimators.
  destruct (rebuild_ok (λ plain e, estimator_writeMetrics flag e plain)
    (λ dn plain, ∃ texts, plain = mjoin texts ∧ Forall2 (reports flag) dn texts) es [] Hes)
    as (es' & plain & E & (texts & -> & Ht) & Hok & HF); [by exists []| |by exists es', texts].
  intros dn plain e (texts & -> & Ht) Hin He.
  destruct (write_estimator_ok flag e (mjoin texts) He) as (e' & text & E & Hr & He' & Hs & Hb).
  exists e', (mjoin texts ++ text). split; [exact E|]. split; [|done]. exists (texts ++ [text]). split.
  - rewrite join_app. simpl. by rewrite app_nil_r.
  - apply Forall2_app; [done|by constructor].
Qed.

(** ** The churn of the local estimators *)
Definition touched_only (ids : list string) (m m' : gmap churnKey churnEntry) : Prop :=
  ∀ k, k.1 ∉ ids → m' !! k = m !! k.

Lemma churn_update_touches m s now m' : churn_update m s now = Some m' → touched_only [s_ID s] m m'.
Proof.
  unfold churn_update. destruct (negb _); [done|]. destruct (_ =? 0); [done|]. intros E [id key] Hk. simpl in Hk.
  apply (for_each_keeps _ (λ m1 : gmap churnKey churnEntry, m1 !! (id, key) = m !! (id, key)) _ _ _) in E; [done| |done].
  intros g m1 m2 _ E2 H1. unfold update_group in E2. run_inv. rewrite lookup_insert_ne; [done|].
  intros [= <- _]. apply Hk. by left.
Qed.

Lemma touched_only_trans ids1 ids2 m1 m2 m3 : touched_only ids1 m1 m2 → touched_only ids2 m2 m3 →
  touched_only (ids1 ++ ids2) m1 m3.
Proof. intros H1 H2 k [Hk1 Hk2]%not_elem_of_app. rewrite H2, H1; done. Qed.

Lemma touched_only_mono ids1 ids2 m m' : ids1 ⊆ ids2 → touched_only ids1 m m' → touched_only ids2 m m'.
Proof. intros Hsub H k Hk. apply H. intros Hin. by apply Hk, Hsub. Qed.

Lemma churn_snapshots_ok e now out : ∀ m, Forall (snapshot_typed e) out → Forall snapshot_ok out →
  CalculateChurn (e_cfg e) = true → Interval (e_cfg e) ≠ 0 → entries_sound m →
  ∃ m', for_each (cb_next (churn_callback now)) out m = Some m' ∧ entries_sound m' ∧ touched_only [e_id e] m m'.
Proof.
  induction out as [|s out IH]; intros m Ht Hok Hc Hi Hm; [by exists m|].
  apply Forall_cons in Ht as [Hs Ht]. apply Forall_cons in Hok as [Hso Hok]. cbn [for_each].
  destruct (churn_update_sound m s now Hm (so_sound s Hso) (so_values s Hso)) as (m1 & E1 & Hm1).
  { by rewrite (st_churn e s Hs). }
  { by rewrite (st_interval e s Hs). }
  pose proof (churn_update_touches m s now m1 E1) as Htm. rewrite (st_id e s Hs) in Htm.
  destruct (IH m1 Ht Hok Hc Hi Hm1) as (m' & E' & Hm' & Ht'). exists m'.
  unfold cb_next, churn_callback in *. rewrite E1. cbn [mbind option_bind]. split; [exact E'|]. split; [done|].
  eapply touched_only_mono; [|by eapply touched_only_trans]. by intros id [H|H]%elem_of_app.
Qed.

Lemma churn_estimators_ok now es m : Forall est_ok es → entries_sound m →
  ∃ es' m', churn_estimators now es m = Some (es', m') ∧ entries_sound m' ∧ touched_only (map e_id es) m m' ∧
    Forall est_ok es' ∧ Forall2 (λ e e', same_static e e' ∧ e_buckets e' = e_buckets e) es es'.
Proof.
  intros Hes Hm. unfold churn_estimators.
  set (f := λ (entries : gmap churnKey churnEntry) e, eb0 ← e_buckets e !! 0%nat;
    if eb_calculateChurn eb0 then
      '(entries, _, e) ← toSnapshot (churn_callback now) e entries; Some (e, entries)
    else Some (e, entries)).
  destruct (rebuild_ok f (λ dn m', entries_sound m' ∧ touched_only (map e_id dn) m m') es m Hes)
    as (es' & m' & E & [Hm' Ht] & Hok & HF).
  - done.
  - intros dn m1 e [Hm1 Ht1] Hin He. pose proof He as [[Hf (p & A & H)] Hty Hc _].
    destruct (er_lookup p e A 0 H (er_nonempty p e A H)) as (eb0 & CP0 & Eb0 & _ & _). unfold f. rewrite Eb0.
    cbn [mbind option_bind]. pose proof (Forall_lookup_1 _ _ _ _ (et_buckets e Hty) Eb0) as Hb. rewrite (bt_churn _ _ Hb).
    destruct (CalculateChurn (e_cfg e)) eqn:Ec.
    + destruct (toSnapshot_emits p e A H Hty) as (out & e' & E & H' & Hs & Hbs & Hty' & Ho & Xs & HX & HU).
      destruct (churn_snapshots_ok e now out m1 Ho (emitted_ok e Xs p out Ho HX) Ec (wf_interval _ Hc) Hm1) as (m2 & E2 & Hm2 & Ht2).
      rewrite (toSnapshot_fold _ e out e' m1 m2 E E2). cbn [mbind option_bind]. exists e', m2. split; [done|]. split.
      * split; [done|]. rewrite map_app. by eapply touched_only_trans.
      * split; [|done]. apply (est_ok_same e e' p A); try done. by rewrite Hbs.
    + exists e, m1. split; [done|]. split; [|by split; [|split; [apply same_static_refl|]]]. split; [done|].
      rewrite map_app. intros k [Hk _]%not_elem_of_app. by apply Ht1.
  - exists es', m'. split; [|done]. rewrite <- E. apply for_each_ext_in. intros [es1 m1] e _. unfold f.
    destruct (e_buckets e !! 0%nat) as [eb0|]; [|done]. cbn [mbind option_bind].
    destruct (eb_calculateChurn eb0); [|done]. by destruct (toSnapshot _ e m1) as [[[? ?] ?]|].
Qed.
End Local.

(** ** The whole scrape *)
Section Scrape.
Context `{Tab : UnicodeTables} `{Spec : SketchSpec} `{Ord : IterOrder, !IterOrderOk Ord} `{Xx : Xxhash, !XxhashOk Xx}
  `{Ql : MetricsQL} `{Prs : !Peers} `{PrsOk : !PeersOk Prs} `{Int : Interleaving, !InterleavingOk Int}
  `{OrdS : !KeyOrder string} `{OrdSOk : !KeyOrderOk OrdS} `{OrdC : !KeyOrder churnKey} `{OrdCOk : !KeyOrderOk OrdC}.

Lemma key_order_NoDup `{O : KeyOrder K, !KeyOrderOk O} X : NoDup (key_order X).
Proof. rewrite key_order_perm. apply NoDup_elements. Qed.
Lemma key_order_elem `{O : KeyOrder K, !KeyOrderOk O} X k : k ∈ key_order X ↔ k ∈ X.
Proof. rewrite key_order_perm. apply elem_of_elements. Qed.

Lemma churn_cluster_ok G now ss m : cluster_ok G ss → entries_sound m →
  ∃ m', churn_cluster now ss m = Some m' ∧ entries_sound m' ∧ touched_only (key_order (dom ss)) m m'.
Proof.
  intros [Hok Hid] Hm. unfold churn_cluster.
  destruct (for_each_inv (λ entries id, s ← ss !! id; if s_CalculateChurn s then churn_update entries s now else Some entries)
    (λ dn m', entries_sound m' ∧ touched_only dn m m') (key_order (dom ss)) m) as (m' & E & H); [done| |by exists m'].
  intros dn id m1 [Hm1 Ht1] Hin. rewrite key_order_elem in Hin. apply elem_of_dom in Hin as [s Es]. rewrite Es.
  cbn [mbind option_bind]. destruct (Hid id s Es) as (<- & _ & Hi). pose proof (Hok _ s Es) as [Hs Hv _].
  destruct (s_CalculateChurn s) eqn:Ec.
  - destruct (churn_update_sound m1 s now Hm1 Hs Hv Ec Hi) as (m2 & E2 & Hm2). exists m2. split; [done|]. split; [done|].
    eapply touched_only_trans; [done|]. by apply churn_update_touches in E2.
  - exists m1. split; [done|]. split; [done|]. intros k [Hk _]%not_elem_of_app. by apply Ht1.
Qed.

(** What the peers contribute: the text of their merged snapshots, whether a
    fetch failed, and the ids received. *)
Definition cluster_reports (G : string → list string) (flag now : Z) (urls : list string) (text : byte_list)
    (failed : bool) (ids : list string) : Prop :=
  match urls with
  | [] => text = [] ∧ failed = false ∧ ids = []
  | _ => ∃ ss deliveries, fetch_all now urls = Some (ss, failed) ∧ cluster_ok G ss ∧ ids = key_order (dom ss) ∧
      Forall2 (λ url d, fetched now url = Some d) urls deliveries ∧ failed = existsb (λ d, is_error d.2) deliveries ∧
      text = mjoin (map (λ id, default [] (snapshot_text flag <$> ss !! id)) ids)
  end.

Lemma write_cluster_ok G flag now urls m plain : peers_honest G urls → entries_sound m →
  ∃ m' text failed ids, write_cluster flag now urls m plain = Some (m', plain ++ text) ∧ entries_sound m' ∧
    cluster_reports G flag now urls text failed ids ∧ touched_only (if (failed : bool) then [] else ids) m m'.
Proof.
  intros HG Hm. unfold write_cluster. destruct urls as [|url urls].
  { exists m, [], false, []. by rewrite app_nil_r. }
  destruct (fetch_all_ok G now (url :: urls) HG) as (ds & ss & Hds & E & Hss). rewrite E. cbn [mbind option_bind].
  set (failed := existsb _ ds) in *.
  assert (∃ m', (if negb failed then churn_cluster now ss m else Some m) = Some m' ∧ entries_sound m' ∧
    touched_only (if failed then [] else key_order (dom ss)) m m') as (m' & -> & Hm' & Ht).
  { destruct failed; [by exists m|]. by apply (churn_cluster_ok G). }
  cbn [mbind option_bind].
  destruct (snapshots_writeMetrics_ok flag ss (key_order (dom ss)) plain (co_ok G ss Hss) (key_order_NoDup _))
    as (ss' & Ew & _); [by intros id; rewrite key_order_elem|]. rewrite Ew. cbn [mbind option_bind].
  do 4 eexists. split; [done|]. split; [done|]. split; [|exact Ht]. exists ss, ds. by split_and!.
Qed.

Definition churn_text (m : gmap churnKey churnEntry) : byte_list :=
  mjoin (map (λ k, default [] (churn_line <$> m !! k)) (key_order (dom m))).

(** What a scrape leaves alone. *)
Definition only_scraped (w w' : world) : Prop :=
  w_fingerprintLabels w' = w_fingerprintLabels w ∧ w_dedup w' = w_dedup w ∧ w_chans w' = w_chans w ∧
  Forall2 (λ e e', same_static e e' ∧ e_buckets e' = e_buckets e) (w_estimators w) (w_estimators w').

Lemma only_scraped_trans es1 es2 es3 :
  Forall2 (λ e e', same_static e e' ∧ e_buckets e' = e_buckets e) es1 es2 →
  Forall2 (λ e e', same_static e e' ∧ e_buckets e' = e_buckets e) es2 es3 →
  Forall2 (λ e e', same_static e e' ∧ e_buckets e' = e_buckets e) es1 es3.
Proof.
  intros H1. revert es3. induction H1 as [|e1 e2 es1 es2 [Hs Hb] _ IH]; intros es3 H2; inversion H2 as [|? e3 ? ? [Hs2 Hb2]]; subst.
  - constructor.
  - constructor; [|by apply IH]. split; [by eapply same_static_trans|congruence].
Qed.

Lemma refresh_ok G flag now urls w : peers_honest G urls → Forall est_ok (w_estimators w) → entries_sound (w_churn w) →
  ∃ w' locals cluster failed ids m,
    refresh flag now urls w = Some (w', mjoin locals ++ cluster ++ churn_text m) ∧
    Forall2 (reports flag) (w_estimators w) locals ∧ cluster_reports G flag now urls cluster failed ids ∧
    only_scraped w w' ∧ Forall est_ok (w_estimators w') ∧ entries_sound (w_churn w') ∧ w_cacheAt w' = w_cacheAt w ∧
    (∀ k, entry_times <$> w_churn w' !! k = entry_times <$> m !! k) ∧
    ∀ k e, m !! k = Some e → k.1 ∉ map e_id (w_estimators w) → k.1 ∉ (if failed then [] else ids) →
      w_churn w !! k = Some e.
Proof.
  intros HG Hes Hm. unfold refresh.
  destruct (write_estimators_ok flag _ Hes) as (es1 & locals & -> & Hl & Hes1 & HF1). cbn [mbind option_bind].
  destruct (churn_estimators_ok now es1 _ Hes1 Hm) as (es2 & m1 & -> & Hm1 & Ht1 & Hes2 & HF2). cbn [mbind option_bind].
  destruct (write_cluster_ok G flag now urls m1 (mjoin locals) HG Hm1) as (m2 & cluster & failed & ids & -> & Hm2 & Hcl & Ht2).
  cbn [mbind option_bind].
  destruct (churn_cleanup_sound m2 now Hm2) as (m3 & -> & Hm3 & Hsub). cbn [mbind option_bind].
  destruct (churn_writeMetrics_ok m3 (key_order (dom m3)) (mjoin locals ++ cluster) Hm3 (key_order_NoDup _))
    as (m4 & E4 & Hm4 & Htimes); [by intros k; rewrite key_order_elem|]. rewrite E4. cbn [mbind option_bind].
  do 2 eexists. exists cluster, failed, ids, m3. split; [by rewrite <- app_assoc|]. split; [done|]. split; [done|].
  split. { split_and!; [done|done|done|]. by eapply only_scraped_trans. }
  split_and!; [done|done|done|done|]. intros k e E Hk1 Hk2.
  rewrite <- Ht1, <- Ht2; [by apply (lookup_weaken m3)|done|].
  assert (map e_id es1 = map e_id (w_estimators w)) as ->; [|done].
  clear -HF1. induction HF1 as [|a b l1 l2 [(Hid & _) _] _ IH]; [done|]. simpl. by rewrite Hid, IH.
Qed.

Definition server_ok (sv : server) : Prop :=
  Forall est_ok (w_estimators (sv_world sv)) ∧ entries_sound (w_churn (sv_world sv)).


(** C29: a failed fetch leaves the peers' churn baselines alone.  If one of the
    storage nodes cannot be read to the end, no churn entry of a stream other
    than the local ones is added or moved in time by the scrape: it stays with
    the times it had, or is dropped as stale.  So a partial union is never
    compared with a full one. *)
Theorem failed_fetch_keeps_churn G ttl flag urls t0 now t1 sv : peers_honest G urls → server_ok sv →
  (∃ url msg l, url ∈ urls ∧ fetched now url = Some (l, Error msg)) →
  ∃ sv' text, writeCardinalityMetrics ttl flag urls t0 now t1 sv = Some (sv', text) ∧
    ∀ k e', w_churn (sv_world sv') !! k = Some e' → k.1 ∉ map e_id (w_estimators (sv_world sv)) →
      ∃ e, w_churn (sv_world sv) !! k = Some e ∧ entry_times e' = entry_times e.
Proof.
  intros HG [Hes Hm] (url & msg & l & Hin & Ef). unfold writeCardinalityMetrics. destruct (_ || _).
  - destruct (refresh_ok G flag now urls _ HG Hes Hm)
      as (w' & locals & cluster & failed & ids & m & -> & _ & Hcl & _ & _ & _ & _ & Ht & Hold).
    cbn [mbind option_bind]. do 2 eexists. split; [done|]. cbn [sv_world w_churn]. intros k e' E' Hk.
    assert (failed = true) as ->.
    { unfold cluster_reports in Hcl. destruct urls as [|u0 urls]; [by apply elem_of_nil in Hin|].
      destruct Hcl as (ss & ds & _ & _ & _ & Hds & -> & _). apply existsb_exists.
      apply list_elem_of_lookup in Hin as [i Hi]. destruct (Forall2_lookup_l _ _ _ _ _ Hds Hi) as (d & Hd & E).
      exists d. split; [apply list_elem_of_In; by eapply list_elem_of_lookup_2|]. rewrite Ef in E. by injection E as <-. }
    specialize (Ht k). rewrite E' in Ht. destruct (m !! k) as [e|] eqn:E; [|done]. injection Ht as Ht Ht2.
    exists e. split; [|unfold entry_times; congruence]. apply (Hold k e E Hk). apply not_elem_of_nil.
  - cbn [mbind option_bind]. do 2 eexists. split; [done|]. cbn [sv_world w_churn]. eauto.
Qed.

(** C15: scraping a cluster.  If every storage node answers with the snapshots
    of its estimator of one stream (same id and precision), the fetches
    succeed and the merged snapshot of that id stands, group by group, for the
    union of the nodes' windows, whatever the order of arrival; it can be
    written, so the scrape's text has the lines of that union. *)
Theorem scraped_cluster p id G flag now urls nodes entries plain :
  peers_honest G urls → id ≠ EmptyString → urls ≠ [] →
  Forall2 (λ url node, node_ok p id node ∧
    ∃ out e', toSnapshot collect node.1 [] = Some (out, true, e') ∧ fetched now url = Some (out, Ok tt)) urls nodes →
  entries_sound entries →
  ∃ ss s entries' l1 l2, fetch_all now urls = Some (ss, false) ∧ ss !! id = Some s ∧
    groups_repr p (union_all (map (λ node, window node.2) nodes)) (s_Sketches s) ∧
    write_cluster flag now urls entries plain = Some (entries', plain ++ l1 ++ snapshot_text flag s ++ l2).
Proof.
  intros HG Hid Hne HF Hm.
  destruct (fetch_all_ok G now urls HG) as (ds & ss & Hds & E & Hss).
  assert (nodes ≠ []) as Hnodes by (intros ->; by apply Forall2_nil_inv_r in HF).
  destruct (cluster_run p id nodes Hid Hnodes) as (outs & Houts & Hagg).
  { eapply Forall2_Forall_r; [exact HF|]. apply Forall_true. by intros ? ? []. }
  assert (map fst ds = outs ∧ existsb (λ d : list snapshot * result unit, is_error d.2) ds = false) as [Edel Efail].
  { clear -HF Hds Houts. revert ds outs Hds Houts. induction HF as [|url node urls nodes (_ & out & e' & Eo & Ef) _ IH];
      intros ds outs Hds Houts; inversion Hds as [|? d ? ds' Ed Hds']; subst; inversion Houts as [|? o ? outs' (e2 & Eo2) Houts']; subst;
      [done|]. destruct (IH ds' outs' Hds' Houts') as [<- Hf]. assert (d = (out, Ok tt)) as -> by congruence.
    cbn [map fst existsb snd is_error]. split; [congruence|done]. }
  assert (∃ s, ss !! id = Some s ∧ groups_repr p (union_all (map (λ node, window node.2) nodes)) (s_Sketches s)) as (s & Es & Hs).
  { destruct (Hagg (interleave (map fst ds))) as (ss' & s & E' & Es & Hs); [by rewrite interleave_perm, Edel|].
    assert (ss' = ss) as ->; [|by exists s]. unfold fetch_all, newSnapshots in E.
    destruct (for_each _ urls []) as [ds'|] eqn:E1; [|done]. cbn [mbind option_bind] in E.
    assert (ds' = ds) as ->; [|rewrite E' in E; cbn [mbind option_bind] in E; congruence].
    clear -E1 Hds. enough (∀ acc, for_each (λ ds url, d ← fetched now url; Some (ds ++ [d])) urls acc = Some (acc ++ ds)) as H.
    { rewrite H in E1. by injection E1. }
    clear E1. induction Hds as [|url d urls ds Ed _ IH]; intros acc; [simpl; by rewrite app_nil_r|].
    cbn [for_each]. rewrite Ed. cbn [mbind option_bind]. rewrite IH. by rewrite <- app_assoc. }
  rewrite Efail in E. unfold write_cluster. destruct urls as [|url urls]; [done|]. rewrite E. cbn [mbind option_bind negb].
  destruct (churn_cluster_ok G now ss entries Hss Hm) as (m' & -> & _ & _). cbn [mbind option_bind].
  destruct (snapshots_writeMetrics_ok flag ss (key_order (dom ss)) plain (co_ok G ss Hss) (key_order_NoDup _))
    as (ss' & Ew & _); [by intros id'; rewrite key_order_elem|]. rewrite Ew. cbn [mbind option_bind].
  assert (id ∈ key_order (dom ss)) as Hin by (rewrite key_order_elem; apply elem_of_dom; eauto).
  apply list_elem_of_split in Hin as (i1 & i2 & ->).
  rewrite map_app, join_app. cbn [map mjoin list_join]. rewrite Es.
  do 3 eexists. exists (mjoin (map (λ id, default [] (snapshot_text flag <$> ss !! id)) i1)), (mjoin (map (λ id, default [] (snapshot_text flag <$> ss !! id)) i2)).
  by split_and!.
Qed.
End Scrape.

(** ** Concrete runs *)

(** One node that answers a message and one that cannot be reached. *)
Definition demo_peers : @Peers set_sketch_ops := {|
  body := nat;
  http_Get now url :=
    if decide (url = "http://a/clusternative/snapshot"%string) then Ok (200, 1%nat) else Error "no such host"%string;
  gob_Decode r s := match r with O => Ok None | S r => Ok (Some (r, text_snapshot)) end;
  body_size r := r
|}.
Lemma demo_peers_ok : PeersOk demo_peers.
Proof. split. intros [|r] s r' s'; intros [= <- <-]. simpl. lia. Qed.

Definition demo_interleaving : Interleaving := {| interleave A ls := mjoin ls |}.
Lemma demo_interleaving_ok : InterleavingOk demo_interleaving.
Proof. split. done. Qed.
Definition demo_order (K : Type) `{Countable K} : KeyOrder K := {| key_order X := elements X |}.
Lemma demo_order_ok (K : Type) `{Countable K} : KeyOrderOk (demo_order K).
Proof. split. done. Qed.

Lemma demo_honest urls : peers_honest (Spec := set_sketch_spec) (Prs := demo_peers) (λ _, ["foo"%string]) urls.
Proof.
  apply decoded_honest. intros [|r] r' s; intros [= <- <-]. split; [apply text_snapshot_ok|reflexivity|discriminate].
Qed.

Lemma demo_server :
  ∃ e, @newEstimator set_sketch_ops demo_ql 1 0 (demo_stream ["job"%string; labelKeyword]) = Some (Ok e) ∧
    server_ok (Spec := set_sketch_spec) (mkServer (mkWorld [e] true None ∅ None no_chans) [] 0 0).
Proof.
  destruct demo_group as (e & He & _). exists e. split; [exact He|]. split; [|apply map_Forall_empty].
  constructor; [|constructor]. apply (newEstimator_est_ok 1 0 (demo_stream ["job"%string; labelKeyword])); [|exact He].
  apply (demo_stream_wf _ _ demo_job_prepared).
Qed.


Lemma failed_fetch_keeps_churn_witness :
  ∃ e sv' text, @newEstimator set_sketch_ops demo_ql 1 0 (demo_stream ["job"%string; labelKeyword]) = Some (Ok e) ∧
    writeCardinalityMetrics (Tab := demo_tables) (Prs := demo_peers) (Int := demo_interleaving)
      (OrdS := demo_order string) (OrdC := demo_order churnKey) 30 0 ["http://a"; "http://b"]%string 5 6 7
      (mkServer (mkWorld [e] true None ∅ None no_chans) [] 0 0) = Some (sv', text).
Proof.
  destruct demo_server as (e & He & Hsv).
  destruct (failed_fetch_keeps_churn (Tab := demo_tables) (Prs := demo_peers) (PrsOk := demo_peers_ok)
    (Int := demo_interleaving) (InterleavingOk0 := demo_interleaving_ok) (OrdS := demo_order string)
    (OrdSOk := demo_order_ok string) (OrdC := demo_order churnKey) (OrdCOk := demo_order_ok churnKey)
    (λ _, ["foo"%string]) 30 0 ["http://a"; "http://b"]%string 5 6 7 _ (demo_honest _) Hsv)
    as (sv' & text & E & _).
  - exists "http://b"%string. eexists _, []. split; [right; left|reflexivity].
  - exists e, sv', text. exact (conj He E).
Defined.

(** A node that answers with the snapshots [out]. *)
Definition node_peers (out : list (@snapshot set_sketch_ops)) : @Peers set_sketch_ops := {|
  body := nat;
  http_Get now url := Ok (200, length out);
  gob_Decode r s :=
    match r with
    | O => Ok None
    | S r' => match out !! (length out - r)%nat with Some s => Ok (Some (r', s)) | None => Error "EOF"%string end
    end;
  body_size r := r
|}.
Lemma node_peers_ok out : PeersOk (node_peers out).
Proof.
  split. intros [|r] s r' s'; [done|]. simpl. destruct (out !! _); [|done]. intros [= <- _]. lia.
Qed.

Lemma node_peers_fetched out now url : @fetched set_sketch_ops (node_peers out) now url = Some (out, Ok tt).
Proof.
  unfold fetched, fetchAndMergeSnapshots. cbv zeta. simpl http_Get. cbv iota beta. simpl (negb _). cbv iota.
  enough (∀ n fuel s, (n < fuel)%nat → (n <= length out)%nat →
    decodeSnapshots (gob_Decode (Peers := node_peers out)) (λ l s, Some (l ++ [s])) fuel n s (take (length out - n) out) =
      Some (out, Ok tt)) as H.
  { rewrite <- (H (length out) (S (length out)) newSnapshot); [|lia|lia]. by rewrite Nat.sub_diag. }
  induction n as [|n IH]; intros [|fuel] s Hf Hn; try lia; cbn [decodeSnapshots gob_Decode node_peers]; cbv zeta.
  - by rewrite Nat.sub_0_r, firstn_all.
  - destruct (lookup_lt_is_Some_2 out (length out - S n)) as [x Ex]; [lia|]. rewrite Ex. cbn [mbind option_bind].
    rewrite <- (take_S_r out (length out - S n) x Ex). replace (S (length out - S n)) with (length out - n)%nat by lia.
    apply IH; lia.
Qed.

Lemma node_peers_honest G urls out : Forall (peer_snapshot (Spec := set_sketch_spec) G) out →
  peers_honest (Spec := set_sketch_spec) (Prs := node_peers out) G urls.
Proof. intros Ho now url l res _. rewrite node_peers_fetched. by intros [= <- _]. Qed.

Lemma scraped_cluster_witness :
  ∃ e out e', @newEstimator set_sketch_ops demo_ql 1 0 (demo_stream ["job"%string; labelKeyword]) = Some (Ok e) ∧
    toSnapshot collect e [] = Some (out, true, e') ∧
    ∃ ss s, @fetch_all set_sketch_ops elements_order (node_peers out) demo_interleaving 5 ["http://a"; "http://b"]%string = Some (ss, false) ∧
      ss !! e_id e = Some s.
Proof.
  destruct demo_group as (e & He & Hid & Hf & Hg & _ & _ & _ & H).
  pose proof (demo_stream_wf ["job"%string; labelKeyword] _ demo_job_prepared) as Hwf.
  pose proof (newEstimator_est_ok (Spec := set_sketch_spec) 1 0 _ e Hwf He) as [_ Ht Hc _].
  destruct (toSnapshot_emits 14 e _ H Ht)
    as (out & e' & E & _ & _ & _ & _ & Ho & Xs & HX & _).
  exists e, out, e'. split; [exact He|]. split; [exact E|].
  destruct (scraped_cluster (Tab := demo_tables) (Prs := node_peers out)
    (PrsOk := node_peers_ok out) (Int := demo_interleaving) (InterleavingOk0 := demo_interleaving_ok)
    (OrdS := demo_order string) (OrdSOk := demo_order_ok string)
    14 (e_id e) (λ _, GroupBy (e_cfg e)) 0 5 ["http://a"; "http://b"]%string
    [(e, replicate 4 (init_state (is_global e))); (e, replicate 4 (init_state (is_global e)))] ∅ [])
    as (ss & s & _ & _ & _ & E1 & E2 & _).
  - apply node_peers_honest. pose proof (emitted_ok e Xs 14 out Ho HX) as Hok. clear -Ho Hok Hc.
    induction Ho as [|s out Hs _ IH]; [constructor|]. apply Forall_cons in Hok as [Hsok Hok]. constructor; [|apply IH, Hok].
    split; [exact Hsok|apply Hs|]. rewrite (st_interval e s Hs). apply Hc.
  - rewrite Hid. discriminate.
  - discriminate.
  - assert (∀ url, node_ok 14 (e_id e) (e, replicate 4 (init_state (is_global e))) ∧ ∃ out0 e1,
      toSnapshot collect e [] = Some (out0, true, e1) ∧ @fetched set_sketch_ops (node_peers out) 5 url = Some (out0, Ok tt)) as Hn.
    { intros url. split; [split; [exact H|reflexivity]|]. exists out, e'. split; [exact E|apply node_peers_fetched]. }
    constructor; [apply Hn|]. constructor; [apply Hn|constructor].
  - apply map_Forall_empty.
  - exists ss, s. exact (conj E1 E2).
Defined.
