(* ===== verification/ScrapeRace.v ===== *)
(** * ScrapeRace: a scrape that waits while the configuration is applied

    The handlers read the list of estimators and pass it to
    [writeCardinalityMetrics] (main.go, cardinality_metrics.go), which then
    waits for [cardinalityCacheMu].  A reload that stores another list and
    resets the cache in between does not reach the list the scrape holds.  So
    the list is an argument here, as it is in the code; Scrape and Server have
    the case that nothing comes in between. *)
From Stdlib Require Import String.
From S2P Require Import Prelude GoFloat GoText HllCodec Types Config SketchSpec GroupSize Snapshot Estimator EstimatorInsert.
From S2P Require Import EstimatorWindow EstimatorLife EstimatorSnapshot EstimatorTyped EstimatorExamples.
From S2P Require Import Bloom Dedup Churn CompressedList ProtoReader XXHash GoQuote Metrics Reload Scrape.
Local Open Scope Z_scope.

Section Defs.
Context `{Tab : UnicodeTables} `{Ops : SketchOps} `{Ord : IterOrder} `{Xx : Xxhash} `{Ql : MetricsQL}
  `{Prs : !Peers} `{OrdS : !KeyOrder string} `{OrdC : !KeyOrder churnKey} `{Int : Interleaving}.

Definition with_estimators (sv : server) (es : list estimator) : server :=
  mkServer (set_estimators (sv_world sv) es) (sv_cache sv) (sv_writes sv) (sv_writeBytes sv).

(** [writeCardinalityMetrics(w, es, urls)], and what it makes of [es]; the
    current list stays as it is. *)
Definition scrape_with (ttl minCardinality : Z) (storageNodeURLs : list string) (t0 now t1 : Z)
    (es : list estimator) (sv : server) : option (server * list estimator * byte_list) :=
  '(sv', text) ← writeCardinalityMetrics ttl minCardinality storageNodeURLs t0 now t1 (with_estimators sv es);
  Some (with_estimators sv' (w_estimators (sv_world sv)), w_estimators (sv_world sv'), text).
End Defs.

Section Proofs.
Context `{Tab : UnicodeTables} `{Spec : SketchSpec} `{Ord : IterOrder, !IterOrderOk Ord} `{Xx : Xxhash, !XxhashOk Xx}
  `{Ql : MetricsQL} `{Prs : !Peers} `{PrsOk : !PeersOk Prs} `{Int : Interleaving, !InterleavingOk Int}
  `{OrdS : !KeyOrder string} `{OrdSOk : !KeyOrderOk OrdS} `{OrdC : !KeyOrder churnKey} `{OrdCOk : !KeyOrderOk OrdC}.

Lemma with_estimators_same sv : with_estimators sv (w_estimators (sv_world sv)) = sv.
Proof. by destruct sv as [[] ? ? ?]. Qed.

(** With the list that is current, it is the scrape of Scrape. *)
Lemma scrape_with_current ttl flag urls t0 now t1 sv sv' text :
  writeCardinalityMetrics ttl flag urls t0 now t1 sv = Some (sv', text) →
  scrape_with ttl flag urls t0 now t1 (w_estimators (sv_world sv)) sv =
    Some (with_estimators sv' (w_estimators (sv_world sv)), w_estimators (sv_world sv'), text).
Proof. intros E. unfold scrape_with. by rewrite with_estimators_same, E. Qed.

(** A scrape that finds the cache expired fills it from the list it holds, and
    later scrapes, whatever their lists, repeat that text until it expires. *)
Lemma late_scrape G ttl flag urls t0 now t1 es sv : peers_honest G urls → Forall est_ok es → entries_sound (w_churn (sv_world sv)) →
  expired ttl (w_cacheAt (sv_world sv)) t0 || (ttl =? 0) = true →
  ∃ sv' es' locals rest, scrape_with ttl flag urls t0 now t1 es sv = Some (sv', es', mjoin locals ++ rest) ∧
    Forall2 (reports flag) es locals ∧ w_estimators (sv_world sv') = w_estimators (sv_world sv) ∧
    entries_sound (w_churn (sv_world sv')) ∧
    ∀ es2 t0' now' t1', t0' - t1 < ttl → ttl ≠ 0 →
      ∃ sv2, scrape_with ttl flag urls t0' now' t1' es2 sv' = Some (sv2, es2, mjoin locals ++ rest).
Proof.
  intros HG Hes Hm He. unfold scrape_with, writeCardinalityMetrics. cbn [with_estimators sv_world set_estimators w_cacheAt].
  rewrite He.
  destruct (refresh_ok G flag now urls (set_estimators (sv_world sv) es) HG Hes Hm)
    as (w' & locals & cluster & failed & ids & m & -> & Hl & _ & _ & _ & Hm' & _).
  cbn [mbind option_bind]. do 2 eexists. exists locals, (cluster ++ churn_text m). split; [done|]. split; [done|].
  split; [done|]. split; [done|]. intros es2 t0' now' t1' Ht Hz. cbn.
  rewrite (proj2 (Z.leb_gt _ _)) by lia. rewrite (proj2 (Z.eqb_neq _ _)) by done. cbn. by eexists.
Qed.
End Proofs.

(** * At a concrete input *)
(** A stream with churn that the new configuration does not have. *)
Definition demo_churn_stream : EstimatorConfig :=
  applyDefaults 1 (mkConfig EmptyString [] 0 None 0 true 0 0 None 0).
(** The scrape has read the list before the reload and gets the lock after it:
    the removed stream is in the text that is served from then on, and has churn
    entries again. *)
Definition demo_late_scrape : option (list string * list churnKey * bool * bool) :=
  r ← @newEstimator set_sketch_ops demo_ql 1 0 demo_churn_stream;
  match r with
  | Error _ => None
  | Ok e =>
      e ← insertMany (Xx := demo_hash) e demo_tss 1;
      '(w, _) ← loadConfig 1 (mkStreams 0 [demo_stream ["job"%string; labelKeyword]]) (mkWorld [e] true None ∅ None no_chans);
      '(sv, _, text) ← scrape_with (Tab := demo_tables) (Prs := demo_peers) (Int := demo_interleaving)
        (OrdS := demo_order string) (OrdC := demo_order churnKey) 30 0 [] 5 6 7 [e] (mkServer w [] 0 0);
      '(sv', text') ← writeCardinalityMetrics (Tab := demo_tables) (Prs := demo_peers) (Int := demo_interleaving)
        (OrdS := demo_order string) (OrdC := demo_order churnKey) 30 0 [] 20 21 22 sv;
      Some (map e_id (w_estimators (sv_world sv')), elements (dom (w_churn (sv_world sv'))),
        bool_decide (text' = text), (0 <? length text)%nat)
  end.

Lemma removed_stream_served : demo_late_scrape =
  Some ([config_id (demo_stream ["job"%string; labelKeyword])], [(config_id demo_churn_stream, 0)], true, true).
Proof. vm_compute. reflexivity. Qed.
