(* ===== verification/Proto.v ===== *)
(** * Proto: decoding a remote write request

    Models [UnmarshalProtobuf] of
    app/vmestimator/protoparser/write_request.go over ProtoReader, and
    [parseRequestBody] of streamparser.go over Snappy, with the buffer and the
    unmarshaler it takes from pools.  The digests are xxhash digests: the
    fingerprint is the hash of all bytes written to the digest. *)
From Stdlib Require Import Ascii String.
From S2P Require Import Prelude Types CompressedList ProtoReader XXHash Snappy.
Local Open Scope Z_scope.

(** The zstd decompressor, third-party code in C. *)
Class Codecs := { DecompressZSTDLimited : byte_list → Z → result byte_list }.

Section Defs.
Context `{Xx : Xxhash}.

(** [d.Reset(); d.Write(bs); d.Sum64()]. *)
Definition digest (bs : byte_list) : Z := xxhash_Sum64 (ToUnsafeString bs).
Definition digestLabel (fpLabels : bool) (value : byte_list) : Z :=
  if fpLabels then digest value else 0.

(** The loop over the fields of one label; [fuel] exceeds the bytes left.
    [None] is a panic, or no fuel left; neither ever happens. *)
Fixpoint read_label (fuel : nat) (lfc : FieldContext) (ldata nameBytes valueBytes : byte_list)
    : option (result (FieldContext * byte_list * byte_list)) :=
  match fuel with
  | O => None
  | S fuel =>
      match ldata with
      | [] => Some (Ok (lfc, nameBytes, valueBytes))
      | _ =>
          r ← NextField lfc ldata;
          match r with
          | Error e => Some (Error ("cannot read label field: " +:+ e))
          | Ok (lfc, ldata) =>
              if fc_FieldNum lfc =? 1 then
                match fc_Bytes lfc with
                | None => Some (Error "cannot read label name")
                | Some bs => read_label fuel lfc ldata bs valueBytes
                end
              else if fc_FieldNum lfc =? 2 then
                match fc_Bytes lfc with
                | None => Some (Error "cannot read label value")
                | Some bs => read_label fuel lfc ldata nameBytes bs
                end
              else read_label fuel lfc ldata nameBytes valueBytes
          end
      end
  end.

(** The loop over the fields of one series: the pool of labels, and the bytes
    written to the digest of the series or the error. *)
Fixpoint read_serie (fuel : nat) (fpLabels : bool) (fc lfc : FieldContext) (src : byte_list)
    (labelsPool : list Label) (tsD : byte_list) : option (list Label * result byte_list) :=
  match fuel with
  | O => None
  | S fuel =>
      match src with
      | [] => Some (labelsPool, Ok tsD)
      | _ =>
          r ← NextField fc src;
          match r with
          | Error e => Some (labelsPool, Error ("cannot read the next field: " +:+ e))
          | Ok (fc, src) =>
              if fc_FieldNum fc =? 1 then
                match fc_MessageData fc with
                | None => Some (labelsPool, Error "cannot read label data")
                | Some data =>
                    r ← read_label (S (length data)) lfc data [] [];
                    match r with
                    | Error e => Some (labelsPool, Error e)
                    | Ok (lfc, nameBytes, valueBytes) =>
                        read_serie fuel fpLabels fc lfc src
                          (labelsPool ++ [mkLabel (ToUnsafeString nameBytes) (ToUnsafeString valueBytes)
                                            (digestLabel fpLabels valueBytes)])
                          (tsD ++ data)
                    end
                end
              else read_serie fuel fpLabels fc lfc src labelsPool tsD
          end
      end
  end.

Definition TimeSerie_unmarshalProtobuf (src : byte_list) (labelsPool : list Label) (fpLabels : bool)
    : option (list Label * result TimeSerie) :=
  '(pool, r) ← read_serie (S (length src)) fpLabels zero_FieldContext zero_FieldContext src labelsPool [];
  match r with
  | Error e => Some (pool, Error e)
  | Ok tsD =>
      labels ← slice_from (Z.of_nat (length labelsPool)) pool;
      Some (pool, Ok (mkTimeSerie labels (digest tsD)))
  end.

(** The loop over the fields of the request. *)
Fixpoint read_request (fuel : nat) (fpLabels : bool) (fc : FieldContext) (src : byte_list)
    (tss : list TimeSerie) (labelsPool : list Label) : option (result (list TimeSerie * list Label)) :=
  match fuel with
  | O => None
  | S fuel =>
      match src with
      | [] => Some (Ok (tss, labelsPool))
      | _ =>
          r ← NextField fc src;
          match r with
          | Error e => Some (Error ("cannot read the next field: " +:+ e))
          | Ok (fc, src) =>
              if fc_FieldNum fc =? 1 then
                match fc_MessageData fc with
                | None => Some (Error "cannot read timeseries data")
                | Some data =>
                    '(pool, r) ← TimeSerie_unmarshalProtobuf data labelsPool fpLabels;
                    match r with
                    | Error e => Some (Error ("cannot unmarshal timeseries: " +:+ e))
                    | Ok ts => read_request fuel fpLabels fc src (tss ++ [ts]) pool
                    end
                end
              else read_request fuel fpLabels fc src tss labelsPool
          end
      end
  end.

Record WriteRequest := mkWR { Timeseries : list TimeSerie }.
Record writeRequestUnmarshaler := mkWru {
  wru_wr : WriteRequest;
  wru_labelsPool : list Label
}.
(** Slices are cut to length 0; their contents are cleared. *)
Definition ResetTimeSeries (tss : list TimeSerie) : list TimeSerie := [].
Definition WriteRequest_Reset (wr : WriteRequest) : WriteRequest := mkWR (ResetTimeSeries (Timeseries wr)).
Definition wru_Reset (wru : writeRequestUnmarshaler) : writeRequestUnmarshaler :=
  mkWru (WriteRequest_Reset (wru_wr wru)) [].

(** [wruPool.Get()] yields nil or an unmarshaler; what is put back. *)
Definition getWriteRequestUnmarshaler (v : option writeRequestUnmarshaler) : writeRequestUnmarshaler :=
  match v with None => mkWru (mkWR []) [] | Some wru => wru end.
Definition putWriteRequestUnmarshaler (wru : writeRequestUnmarshaler) : writeRequestUnmarshaler := wru_Reset wru.

Definition UnmarshalProtobuf (fpLabels : bool) (wru : writeRequestUnmarshaler) (src : byte_list)
    : option (writeRequestUnmarshaler * result (list TimeSerie)) :=
  let wru := wru_Reset wru in
  r ← read_request (S (length src)) fpLabels zero_FieldContext src (Timeseries (wru_wr wru)) (wru_labelsPool wru);
  Some (match r with
        | Error e => (wru, Error e)
        | Ok (tss, pool) => (mkWru (mkWR tss) pool, Ok tss)
        end).

(** What the pools give a request: of [bodyBufferPool], a buffer up to its
    capacity with whatever it holds; of [wruPool], an unmarshaler. *)
Record pools := mkPools {
  pl_body : option byte_list;
  pl_wru : option writeRequestUnmarshaler
}.
Definition bodyBuffer (pl : pools) : byte_list := match pl_body pl with None => [] | Some b => b end.

Definition decompress `{Cod : Codecs} (maxInsertRequestSize : Z) (buf data : byte_list) : option (result byte_list) :=
  if encoding_IsZstd data then
    Some (match DecompressZSTDLimited data maxInsertRequestSize with
          | Error e => Error ("cannot decompress zstd-encoded request: " +:+ e)
          | Ok b => Ok b
          end)
  else
    r ← snappy_Decode buf data maxInsertRequestSize;
    Some (match r with
          | Error e => Error ("cannot decompress snappy-encoded request: " +:+ e)
          | Ok b => Ok b
          end).

(** [parseRequestBody], and the metrics [rowsRead] and [unmarshalErrors]. *)
Record parser_stats := mkStats { rowsRead : Z; unmarshalErrors : Z }.

Definition parseRequestBody `{Cod : Codecs} {St} (maxInsertRequestSize : Z) (fpLabels : bool)
    (pl : pools) (cb : St → list TimeSerie → option St) (data : byte_list)
    (m : parser_stats) (st : St) : option (St * parser_stats * result unit) :=
  body ← decompress maxInsertRequestSize (bodyBuffer pl) data;
  match body with
  | Error e => Some (st, m, Error e)
  | Ok body =>
      if maxInsertRequestSize <? zlength body then Some (st, m, Error "too big unpacked request")
      else
        '(_, r) ← UnmarshalProtobuf fpLabels (getWriteRequestUnmarshaler (pl_wru pl)) body;
        match r with
        | Error e =>
            Some (st, mkStats (rowsRead m) (unmarshalErrors m + 1),
              Error ("cannot unmarshal prompb.WriteRequest: " +:+ e))
        | Ok tss =>
            if (0 <? length tss)%nat then
              st ← cb st tss;
              Some (st, mkStats (rowsRead m + Z.of_nat (length tss)) (unmarshalErrors m), Ok tt)
            else Some (st, m, Ok tt)
        end
  end.
End Defs.

(** ** The messages a sender encodes

    Fields can come in any order and number, with unknown fields between them;
    of several names or values of a label the last one counts. *)
Inductive label_field :=
| LName (bs : byte_list)
| LValue (bs : byte_list)
| LOther (num : Z) (pl : payload).
Inductive serie_field :=
| SLabel (l : list label_field)
| SOther (num : Z) (pl : payload).
Inductive request_field :=
| RSerie (s : list serie_field)
| ROther (num : Z) (pl : payload).

Definition encode_label_field (f : label_field) : byte_list :=
  match f with
  | LName bs => encode_field 1 (PLen bs)
  | LValue bs => encode_field 2 (PLen bs)
  | LOther num pl => encode_field num pl
  end.
Definition encode_label (l : list label_field) : byte_list := mjoin (map encode_label_field l).
Definition encode_serie_field (f : serie_field) : byte_list :=
  match f with
  | SLabel l => encode_field 1 (PLen (encode_label l))
  | SOther num pl => encode_field num pl
  end.
Definition encode_serie (s : list serie_field) : byte_list := mjoin (map encode_serie_field s).
Definition encode_request_field (f : request_field) : byte_list :=
  match f with
  | RSerie s => encode_field 1 (PLen (encode_serie s))
  | ROther num pl => encode_field num pl
  end.
Definition encode_request (r : list request_field) : byte_list := mjoin (map encode_request_field r).

Definition other_ok (used : list Z) (num : Z) (pl : payload) : Prop :=
  num ∉ used ∧ 0 <= num < 2 ^ 32 ∧ payload_ok pl.
Definition label_field_ok (f : label_field) : Prop :=
  match f with LOther num pl => other_ok [1; 2] num pl | _ => True end.
Definition serie_field_ok (f : serie_field) : Prop :=
  match f with SLabel l => Forall label_field_ok l | SOther num pl => other_ok [1] num pl end.
Definition request_field_ok (f : request_field) : Prop :=
  match f with RSerie s => Forall serie_field_ok s | ROther num pl => other_ok [1] num pl end.

(** What the messages mean. *)
Definition label_name (name : byte_list) (l : list label_field) : byte_list :=
  foldl (λ acc f, match f with LName bs => bs | _ => acc end) name l.
Definition label_bytes (value : byte_list) (l : list label_field) : byte_list :=
  foldl (λ acc f, match f with LValue bs => bs | _ => acc end) value l.
Definition serie_labels (s : list serie_field) : list (list label_field) :=
  omap (λ f, match f with SLabel l => Some l | SOther _ _ => None end) s.
Definition request_series (r : list request_field) : list (list serie_field) :=
  omap (λ f, match f with RSerie s => Some s | ROther _ _ => None end) r.

Section Proofs.
Context `{Xx : Xxhash}.

Definition label_of (fpLabels : bool) (l : list label_field) : Label :=
  mkLabel (ToUnsafeString (label_name [] l)) (ToUnsafeString (label_bytes [] l))
    (digestLabel fpLabels (label_bytes [] l)).
Definition serie_of (fpLabels : bool) (s : list serie_field) : TimeSerie :=
  mkTimeSerie (map (label_of fpLabels) (serie_labels s))
    (digest (mjoin (map encode_label (serie_labels s)))).

(** A message small enough and made of bytes. *)
Definition message_ok (bs : byte_list) : Prop := Forall (uint 8) bs ∧ zlength bs < 2 ^ 64.

Lemma message_ok_app a b : message_ok (a ++ b) → message_ok a ∧ message_ok b.
Proof.
  intros [[Ha Hb]%Forall_app Hl]. rewrite zlength_app in Hl.
  assert (∀ l, 0 <= zlength l) as Hz by (unfold zlength; lia). pose proof (Hz a). pose proof (Hz b).
  split; split; (done || lia).
Qed.

Lemma message_ok_inner num data rest : message_ok (encode_field num (PLen data) ++ rest) →
  message_ok data ∧ message_ok rest ∧ payload_ok (PLen data).
Proof.
  intros [Hf Hr]%message_ok_app. unfold encode_field in Hf. cbn [encode_payload] in Hf.
  apply message_ok_app in Hf as [_ [_ Hd]%message_ok_app]. split; [done|]. split; [done|].
  destruct Hd as [_ Hd]. simpl. unfold uint, zlength in *. lia.
Qed.

Lemma encode_field_pos num pl : (0 < length (encode_field num pl))%nat.
Proof. unfold encode_field. pose proof (encode_uvarint_pos (num * 8 + wire_type pl)) as H. unfold zlength in H. rewrite length_app. lia. Qed.

Lemma mjoin_length {A} (enc : A → byte_list) l : (∀ f, (0 < length (enc f))%nat) →
  (length l <= length (mjoin (map enc l)))%nat.
Proof. intros H. induction l as [|f l IH]; [done|]. simpl. rewrite length_app. pose proof (H f). lia. Qed.

Lemma match_nonempty {A B} (l : list A) (x y : B) : (0 < length l)%nat →
  match l with [] => x | _ :: _ => y end = y.
Proof. destruct l; [simpl; lia|done]. Qed.

(** One field read off the front. *)
Lemma NextField_front fc num pl rest : 0 <= num < 2 ^ 32 → payload_ok pl →
  message_ok (encode_field num pl ++ rest) →
  (0 < length (encode_field num pl ++ rest))%nat ∧ message_ok rest ∧
  ∃ fc', NextField fc (encode_field num pl ++ rest) = Some (Ok (fc', rest)) ∧ fc_FieldNum fc' = num ∧
    match pl with PLen data => fc_Bytes fc' = Some data | _ => True end.
Proof.
  intros Hn Hp Hm. split; [rewrite length_app; pose proof (encode_field_pos num pl); lia|].
  split; [by apply message_ok_app in Hm as [_ ?]|].
  destruct (NextField_encode fc num pl rest Hn Hp (proj1 Hm)) as (fc' & E & H1 & H2 & H3).
  exists fc'. split; [done|]. split; [done|]. destruct pl; [done|done| |done]. unfold fc_Bytes.
  rewrite H2. by rewrite <- H3.
Qed.

Lemma read_label_encode l : ∀ fuel lfc name value,
  Forall label_field_ok l → message_ok (encode_label l) → (length l < fuel)%nat →
  ∃ lfc', read_label fuel lfc (encode_label l) name value = Some (Ok (lfc', label_name name l, label_bytes value l)).
Proof.
  induction l as [|f l IH]; intros fuel lfc name value Hok Hm Hf; (destruct fuel as [|fuel]; [simpl in Hf; lia|]).
  { eexists. reflexivity. }
  apply Forall_cons in Hok as [Hof Hok]. simpl in Hf.
  change (encode_label (f :: l)) with (encode_label_field f ++ encode_label l) in *. cbn [read_label].
  destruct f as [bs|bs|num pl]; cbn [encode_label_field] in *.
  - destruct (message_ok_inner _ _ _ Hm) as (_ & _ & Hp).
    destruct (NextField_front lfc 1 _ _ ltac:(lia) Hp Hm) as (Hne & Hr & fc' & E & En & Eb).
    rewrite match_nonempty, E by done. cbn [mbind option_bind]. rewrite En. cbn [Z.eqb Pos.eqb]. rewrite Eb. apply IH; [done|done|lia].
  - destruct (message_ok_inner _ _ _ Hm) as (_ & _ & Hp).
    destruct (NextField_front lfc 2 _ _ ltac:(lia) Hp Hm) as (Hne & Hr & fc' & E & En & Eb).
    rewrite match_nonempty, E by done. cbn [mbind option_bind]. rewrite En. cbn [Z.eqb Pos.eqb]. rewrite Eb. apply IH; [done|done|lia].
  - destruct Hof as (Hnum & Hn & Hp).
    destruct (NextField_front lfc num pl _ Hn Hp Hm) as (Hne & Hr & fc' & E & En & _).
    rewrite match_nonempty, E by done. cbn [mbind option_bind]. rewrite En. rewrite !not_elem_of_cons in Hnum.
    rewrite (proj2 (Z.eqb_neq num 1)), (proj2 (Z.eqb_neq num 2)) by tauto. apply IH; [done|done|lia].
Qed.

Lemma encode_label_length l : (length l <= length (encode_label l))%nat.
Proof. apply mjoin_length. intros []; apply encode_field_pos. Qed.
Lemma encode_serie_length s : (length s <= length (encode_serie s))%nat.
Proof. apply mjoin_length. intros []; apply encode_field_pos. Qed.
Lemma encode_request_length r : (length r <= length (encode_request r))%nat.
Proof. apply mjoin_length. intros []; apply encode_field_pos. Qed.

Lemma read_serie_encode fp s : ∀ fuel fc lfc pool tsD,
  Forall serie_field_ok s → message_ok (encode_serie s) → (length s < fuel)%nat →
  read_serie fuel fp fc lfc (encode_serie s) pool tsD =
    Some (pool ++ map (label_of fp) (serie_labels s), Ok (tsD ++ mjoin (map encode_label (serie_labels s)))).
Proof.
  induction s as [|f s IH]; intros fuel fc lfc pool tsD Hok Hm Hf; (destruct fuel as [|fuel]; [simpl in Hf; lia|]).
  { simpl. by rewrite !app_nil_r. }
  apply Forall_cons in Hok as [Hof Hok]. simpl in Hf.
  change (encode_serie (f :: s)) with (encode_serie_field f ++ encode_serie s) in *. cbn [read_serie].
  destruct f as [l|num pl]; cbn [encode_serie_field] in *.
  - destruct (message_ok_inner _ _ _ Hm) as (Hd & _ & Hp).
    destruct (NextField_front fc 1 _ _ ltac:(lia) Hp Hm) as (Hne & Hr & fc' & E & En & Eb).
    rewrite match_nonempty, E by done. cbn [mbind option_bind]. rewrite En. cbn [Z.eqb Pos.eqb]. unfold fc_MessageData. rewrite Eb.
    destruct (read_label_encode l (S (length (encode_label l))) lfc [] [] Hof Hd) as (lfc' & ->).
    { pose proof (encode_label_length l). lia. }
    cbn [mbind option_bind]. rewrite IH by (done || lia). cbn [serie_labels omap list_omap map].
    rewrite <- !app_assoc. done.
  - destruct Hof as (Hnum & Hn & Hp).
    destruct (NextField_front fc num pl _ Hn Hp Hm) as (Hne & Hr & fc' & E & En & _).
    rewrite match_nonempty, E by done. cbn [mbind option_bind]. rewrite En. rewrite list_elem_of_singleton in Hnum.
    rewrite (proj2 (Z.eqb_neq num 1)) by done. apply IH; [done|done|lia].
Qed.

Lemma unmarshal_serie_encode fp s pool : Forall serie_field_ok s → message_ok (encode_serie s) →
  TimeSerie_unmarshalProtobuf (encode_serie s) pool fp =
    Some (pool ++ map (label_of fp) (serie_labels s), Ok (serie_of fp s)).
Proof.
  intros Hok Hm. unfold TimeSerie_unmarshalProtobuf. pose proof (encode_serie_length s).
  rewrite read_serie_encode by (done || lia). cbn [mbind option_bind]. by rewrite slice_from_app.
Qed.

Lemma read_request_encode fp r : ∀ fuel fc tss pool,
  Forall request_field_ok r → message_ok (encode_request r) → (length r < fuel)%nat →
  read_request fuel fp fc (encode_request r) tss pool =
    Some (Ok (tss ++ map (serie_of fp) (request_series r),
              pool ++ mjoin (map Labels (map (serie_of fp) (request_series r))))).
Proof.
  induction r as [|f r IH]; intros fuel fc tss pool Hok Hm Hf; (destruct fuel as [|fuel]; [simpl in Hf; lia|]).
  { simpl. by rewrite !app_nil_r. }
  apply Forall_cons in Hok as [Hof Hok]. simpl in Hf.
  change (encode_request (f :: r)) with (encode_request_field f ++ encode_request r) in *. cbn [read_request].
  destruct f as [s|num pl]; cbn [encode_request_field] in *.
  - destruct (message_ok_inner _ _ _ Hm) as (Hd & _ & Hp).
    destruct (NextField_front fc 1 _ _ ltac:(lia) Hp Hm) as (Hne & Hr & fc' & E & En & Eb).
    rewrite match_nonempty, E by done. cbn [mbind option_bind]. rewrite En. cbn [Z.eqb Pos.eqb]. unfold fc_MessageData. rewrite Eb.
    rewrite unmarshal_serie_encode by done. cbn [mbind option_bind]. rewrite IH by (done || lia).
    cbn [request_series omap list_omap map mjoin list_join]. rewrite <- !app_assoc. done.
  - destruct Hof as (Hnum & Hn & Hp).
    destruct (NextField_front fc num pl _ Hn Hp Hm) as (Hne & Hr & fc' & E & En & _).
    rewrite match_nonempty, E by done. cbn [mbind option_bind]. rewrite En. rewrite list_elem_of_singleton in Hnum.
    rewrite (proj2 (Z.eqb_neq num 1)) by done. apply IH; [done|done|lia].
Qed.

Lemma UnmarshalProtobuf_encode fp wru r : Forall request_field_ok r → message_ok (encode_request r) →
  let tss := map (serie_of fp) (request_series r) in
  UnmarshalProtobuf fp wru (encode_request r) = Some (mkWru (mkWR tss) (mjoin (map Labels tss)), Ok tss).
Proof.
  intros Hok Hm tss. unfold UnmarshalProtobuf. cbv zeta. pose proof (encode_request_length r).
  rewrite read_request_encode by (done || lia). done.
Qed.

(** A request is decoded to what its sender encoded.  For every write
    request in protobuf form, with the fields of the request, the series and
    the labels in any order and unknown fields of any type between them
    (samples, metadata), [UnmarshalProtobuf] succeeds with the series in order,
    each with its labels in order (of repeated names or values the last one)
    and, as its fingerprint, the hash of its label messages alone, whatever the
    samples are and whatever the reused unmarshaler held. *)
Theorem UnmarshalProtobuf_roundtrip fp wru r :
  Forall request_field_ok r → message_ok (encode_request r) →
  ∃ wru', UnmarshalProtobuf fp wru (encode_request r) = Some (wru', Ok (map (serie_of fp) (request_series r))).
Proof. intros Hok Hm. eexists. by apply UnmarshalProtobuf_encode. Qed.

(** ** Any bytes at all *)
Lemma read_label_total fuel : ∀ lfc ldata name value, (length ldata < fuel)%nat →
  is_Some (read_label fuel lfc ldata name value).
Proof.
  induction fuel as [|fuel IH]; intros lfc ldata name value Hf; [lia|]. cbn [read_label].
  destruct ldata as [|b ldata]; [eauto|]. destruct (NextField_run lfc (b :: ldata)) as ([[lfc' rest]|] & -> & E); cbn [mbind option_bind]; [|eauto].
  assert (length rest < fuel)%nat.
  { unfold field_size, zlength in E. case_match; lia. }
  repeat case_match; eauto.
Qed.

Lemma read_serie_total fp fuel : ∀ fc lfc src pool tsD, (length src < fuel)%nat →
  ∃ new r, read_serie fuel fp fc lfc src pool tsD = Some (pool ++ new, r) ∧
    2 * Z.of_nat (length new) <= zlength src.
Proof.
  induction fuel as [|fuel IH]; intros fc lfc src pool tsD Hf; [lia|]. cbn [read_serie].
  assert (∀ r : result byte_list, ∃ new r', Some (pool, r) = Some (pool ++ new, r') ∧
    2 * Z.of_nat (length new) <= zlength src) as Hstop.
  { intros r. exists [], r. rewrite app_nil_r. split; [done|]. unfold zlength. simpl. lia. }
  destruct src as [|b src]; [apply Hstop|]. set (src0 := b :: src) in *.
  destruct (NextField_run fc src0) as ([[fc' rest]|] & -> & E); cbn [mbind option_bind]; [|apply Hstop].
  unfold field_size in E.
  assert (length rest < fuel)%nat by (unfold zlength in E; case_match; lia).
  assert (zlength rest + 1 <= zlength src0) by (unfold zlength in *; case_match; lia).
  destruct (fc_FieldNum fc' =? 1).
  - unfold fc_MessageData, fc_Bytes. destruct (fc_wireType fc' =? wireTypeLen); [|apply Hstop].
    destruct (read_label_total (S (length (fc_data fc'))) lfc (fc_data fc') [] []) as [r ->]; [lia|].
    cbn [mbind option_bind]. destruct r as [[[lfc' name] value]|]; [|apply Hstop].
    set (l := mkLabel _ _ _). destruct (IH fc' lfc' rest (pool ++ [l]) (tsD ++ fc_data fc')) as (new & r & -> & Hn); [done|].
    exists (l :: new), r. rewrite <- app_assoc. split; [done|]. simpl length.
    unfold zlength in *. lia.
  - destruct (IH fc' lfc rest pool tsD) as (new & r & -> & Hn); [done|]. exists new, r. split; [done|]. lia.
Qed.

Lemma read_request_total fp fuel : ∀ fc src tss, (length src < fuel)%nat →
  ∃ r, read_request fuel fp fc src tss (mjoin (map Labels tss)) = Some r ∧
    match r with
    | Error _ => True
    | Ok (tss', pool') => pool' = mjoin (map Labels tss') ∧
        2 * Z.of_nat (length tss' + length pool') <=
          2 * Z.of_nat (length tss + length (mjoin (map Labels tss))) + zlength src
    end.
Proof.
  induction fuel as [|fuel IH]; intros fc src tss Hf; [lia|]. cbn [read_request].
  destruct src as [|b src]; [eexists; split; [done|]; simpl; split; [done|unfold zlength; simpl; lia]|].
  set (src0 := b :: src) in *. destruct (NextField_run fc src0) as ([[fc' rest]|] & -> & E); cbn [mbind option_bind]; [|by eexists].
  unfold field_size in E.
  assert (length rest < fuel)%nat as Hrest by (unfold zlength in E; case_match; lia).
  destruct (fc_FieldNum fc' =? 1).
  - unfold fc_MessageData, fc_Bytes. destruct (fc_wireType fc' =? wireTypeLen); [|by eexists].
    unfold TimeSerie_unmarshalProtobuf.
    destruct (read_serie_total fp (S (length (fc_data fc'))) zero_FieldContext zero_FieldContext (fc_data fc')
      (mjoin (map Labels tss)) []) as (new & r & -> & Hn); [lia|].
    cbn [mbind option_bind]. destruct r as [tsD|]; cbn [mbind option_bind]; [|by eexists]. rewrite slice_from_app. cbn [mbind option_bind].
    set (ts := mkTimeSerie new _).
    assert (mjoin (map Labels tss) ++ new = mjoin (map Labels (tss ++ [ts]))) as ->.
    { rewrite map_app, join_app. simpl. by rewrite app_nil_r. }
    destruct (IH fc' rest (tss ++ [ts]) Hrest) as (r & -> & Hr). exists r. split; [done|].
    destruct r as [[tss' pool']|]; [|done]. destruct Hr as [-> Hr]. split; [done|].
    rewrite map_app, join_app in Hr. simpl in Hr. rewrite app_nil_r, !length_app in Hr. simpl in Hr. lia.
  - destruct (IH fc' rest tss Hrest) as (r & -> & Hr). exists r. split; [done|].
    destruct r as [[tss' pool']|]; [|done]. destruct Hr as [-> Hr]. split; [done|].
    unfold zlength in *. case_match; lia.
Qed.

Lemma UnmarshalProtobuf_run fp wru src : ∃ wru' r, UnmarshalProtobuf fp wru src = Some (wru', r) ∧
  match r with
  | Ok tss => wru' = mkWru (mkWR tss) (mjoin (map Labels tss)) ∧
      2 * Z.of_nat (length tss + length (mjoin (map Labels tss))) <= zlength src
  | Error _ => wru' = mkWru (mkWR []) []
  end.
Proof.
  unfold UnmarshalProtobuf. cbv zeta.
  destruct (read_request_total fp (S (length src)) zero_FieldContext src [] ltac:(lia)) as (r & E & Hr).
  change (read_request _ fp _ _ (Timeseries _) _) with (read_request (S (length src)) fp zero_FieldContext src [] []).
  cbn [map mjoin list_join] in E, Hr. change (mjoin (map Labels [])) with (@nil Label) in E. rewrite E.
  cbn [mbind option_bind]. destruct r as [[tss pool]|]; do 2 eexists; (split; [done|]); [|done]. destruct Hr as [-> Hr]. simpl. split; [done|]. simpl in Hr. lia.
Qed.

(** C34: decoding terminates on any bytes, without a panic or an access out of
    range.  What it accepts holds at most one series or label for every two
    bytes of the body, so memory is bounded by the request, and the label lists
    of the series are consecutive parts of the shared pool; after an error the
    unmarshaler is empty. *)
Theorem UnmarshalProtobuf_total fp wru src : ∃ wru' r, UnmarshalProtobuf fp wru src = Some (wru', r) ∧
  match r with
  | Ok tss => wru' = mkWru (mkWR tss) (mjoin (map Labels tss)) ∧
      2 * Z.of_nat (length tss + length (mjoin (map Labels tss))) <= zlength src
  | Error _ => wru' = mkWru (mkWR []) []
  end.
Proof. apply UnmarshalProtobuf_run. Qed.
End Proofs.

(** ** Compressed requests *)
Section Compressed.
Context `{Xx : Xxhash} `{Cod : Codecs}.

Lemma decompress_total max buf data : is_Some (decompress max buf data).
Proof.
  unfold decompress. destruct (encoding_IsZstd data); [eauto|].
  destruct (snappy_Decode_total buf data max) as [r ->]. cbn [mbind option_bind]. eauto.
Qed.

Lemma decompress_block max buf data out : Forall (uint 8) data → is_block data out → zlength out <= max →
  decompress max buf data = Some (Ok out).
Proof.
  intros Hb Hblk Hmax. unfold decompress. rewrite (block_not_zstd data out) by done.
  by rewrite (snappy_Decode_block buf data max out Hb Hblk ltac:(done)).
Qed.

Lemma parseRequestBody_encoded {St} max fpLabels pl (cb : St → list TimeSerie → option St) data r m st :
  Forall (uint 8) data → is_block data (encode_request r) → Forall request_field_ok r →
  Forall (uint 8) (encode_request r) → zlength (encode_request r) <= max →
  let tss := map (serie_of fpLabels) (request_series r) in
  parseRequestBody max fpLabels pl cb data m st =
    if decide (tss = []) then Some (st, m, Ok tt)
    else st' ← cb st tss; Some (st', mkStats (rowsRead m + Z.of_nat (length tss)) (unmarshalErrors m), Ok tt).
Proof.
  intros Hb Hblk Hok Hbytes Hmax tss. unfold parseRequestBody. rewrite (decompress_block _ _ _ (encode_request r)) by done.
  cbn [mbind option_bind]. rewrite (proj2 (Z.ltb_ge _ _)) by done.
  rewrite UnmarshalProtobuf_encode; [|done|split; [done|]].
  2: { destruct Hblk as (h & cs & _ & _ & _ & Hl & _). lia. }
  cbn [mbind option_bind]. fold tss. destruct tss as [|ts tss']; [done|]. done.
Qed.

(** C24: what a sender compressed is what the callback gets.  For every write
    request in protobuf form, compressed to any snappy block that stands for
    it (and whatever the compressor chose as literals and back references),
    [parseRequestBody] calls its callback once with the series the request
    encodes, in order, or not at all when there are none; whatever buffer and
    unmarshaler the pools give it, and without taking the block for zstd. *)
Theorem parseRequestBody_roundtrip {St} max fpLabels pl (cb : St → list TimeSerie → option St) data r m st :
  Forall (uint 8) data → is_block data (encode_request r) → Forall request_field_ok r →
  Forall (uint 8) (encode_request r) → zlength (encode_request r) <= max →
  let tss := map (serie_of fpLabels) (request_series r) in
  parseRequestBody max fpLabels pl cb data m st =
    if decide (tss = []) then Some (st, m, Ok tt)
    else st' ← cb st tss; Some (st', mkStats (rowsRead m + Z.of_nat (length tss)) (unmarshalErrors m), Ok tt).
Proof. apply parseRequestBody_encoded. Qed.
End Compressed.

(** ** The fingerprints are 64-bit *)
Section Fingerprints.
Context `{Xx : Xxhash, !XxhashOk Xx}.

Definition label_fp_ok (l : Label) : Prop := uint 64 (LabelFingerprint l).

Lemma digestLabel_uint fp value : uint 64 (digestLabel fp value).
Proof. unfold digestLabel. destruct fp; [apply xxhash_uint|done]. Qed.

Lemma read_serie_fps fp fuel : ∀ fc lfc src pool tsD pool' r,
  read_serie fuel fp fc lfc src pool tsD = Some (pool', r) →
  Forall label_fp_ok pool → Forall label_fp_ok pool'.
Proof.
  induction fuel as [|fuel IH]; intros fc lfc src pool tsD pool' r E Hp; [done|]. cbn [read_serie] in E.
  destruct src as [|b src]; [by injection E as <- <-|].
  destruct (NextField fc (b :: src)) as [[[fc' rest]|]|]; cbn [mbind option_bind] in E; [|by injection E as <- <-|done].
  destruct (fc_FieldNum fc' =? 1); [|by apply (IH _ _ _ _ _ _ _ E)].
  destruct (fc_MessageData fc') as [data|]; [|by injection E as <- <-].
  destruct (read_label _ lfc data [] []) as [[[[lfc' name] value]|]|]; [|by injection E as <- <-|done].
  cbn [mbind option_bind] in E. apply (IH _ _ _ _ _ _ _ E). apply Forall_app. split; [done|].
  constructor; [|constructor]. apply digestLabel_uint.
Qed.

Definition serie_fps_ok (ts : TimeSerie) : Prop :=
  uint 64 (Fingerprint ts) ∧ Forall label_fp_ok (Labels ts).

Lemma read_request_fps fp fuel : ∀ fc src tss pool tss' pool',
  read_request fuel fp fc src tss pool = Some (Ok (tss', pool')) →
  Forall label_fp_ok pool → Forall serie_fps_ok tss → Forall serie_fps_ok tss'.
Proof.
  induction fuel as [|fuel IH]; intros fc src tss pool tss' pool' E Hp Ht; [done|]. cbn [read_request] in E.
  destruct src as [|b src]; [by injection E as <- <-|].
  destruct (NextField fc (b :: src)) as [[[fc' rest]|]|]; cbn [mbind option_bind] in E; [|done|done].
  destruct (fc_FieldNum fc' =? 1); [|by apply (IH _ _ _ _ _ _ E)].
  destruct (fc_MessageData fc') as [data|]; [|done].
  unfold TimeSerie_unmarshalProtobuf in E.
  destruct (read_serie _ fp _ _ data pool []) as [[pool1 [tsD|]]|] eqn:Es; [|done|done].
  cbn [mbind option_bind] in E. pose proof (read_serie_fps _ _ _ _ _ _ _ _ _ Es Hp) as Hp1.
  destruct (slice_from _ pool1) as [labels|] eqn:Esl; [|done]. cbn [mbind option_bind] in E.
  apply (IH _ _ _ _ _ _ E); [done|]. apply Forall_app. split; [done|]. constructor; [|constructor].
  split; [apply xxhash_uint|]. simpl. unfold slice_from in Esl. case_match; [|done]. injection Esl as <-. by apply Forall_drop.
Qed.

Lemma UnmarshalProtobuf_fps fp wru src wru' tss :
  UnmarshalProtobuf fp wru src = Some (wru', Ok tss) → Forall serie_fps_ok tss.
Proof.
  unfold UnmarshalProtobuf. cbv zeta. destruct (read_request _ _ _ _ _ _) as [[[tss' pool']|]|] eqn:E; [|done|done].
  cbn [mbind option_bind]. intros [= <- <-]. by apply (read_request_fps _ _ _ _ _ _ _ _ E).
Qed.
End Fingerprints.

(** * At a concrete input *)
Definition demo_digest : Xxhash := {| xxhash_Sum64 s := Z.of_nat (String.length s) |}.

Definition demo_request : list request_field :=
  [ROther 3 (PLen [1; 2]);
   RSerie [SLabel [LName [106; 111; 98]; LValue [97]]; SOther 2 (PI64 5); SLabel [LValue [98]; LOther 7 (PVarint 300); LName [101]]]].

Definition demo_codecs : Codecs := {|
  DecompressZSTDLimited data max := Error "no zstd"%string
|}.
(** A buffer that holds the data of an earlier request, and no unmarshaler. *)
Definition demo_pools : pools := mkPools (Some (replicate 200 7)) None.
Lemma demo_request_ok : Forall request_field_ok demo_request ∧ Forall (uint 8) (encode_request demo_request).
Proof.
  split.
  - repeat constructor; try (unfold uint, zlength; simpl; lia);
      rewrite ?not_elem_of_cons; split_and?; try done; apply not_elem_of_nil.
  - apply (bool_decide_unpack (Forall (uint 8) (encode_request demo_request))). vm_compute. exact I.
Qed.

Lemma UnmarshalProtobuf_roundtrip_witness :
  ∃ wru', @UnmarshalProtobuf demo_digest true (mkWru (mkWR []) []) (encode_request demo_request) =
    Some (wru', Ok [mkTimeSerie [mkLabel "job" "a" 1; mkLabel "e" "b" 1] 17]).
Proof.
  destruct demo_request_ok as [Hok Hb].
  apply (UnmarshalProtobuf_roundtrip (Xx := demo_digest) true (mkWru (mkWR []) []) demo_request Hok).
  split; [exact Hb|vm_compute; reflexivity].
Defined.

Lemma parseRequestBody_roundtrip_witness :
  parseRequestBody (Xx := demo_digest) (Cod := demo_codecs) 1000 true demo_pools (λ got tss, Some (got ++ tss))
      (stored_block (encode_request demo_request)) (mkStats 0 0) [] =
    Some ([mkTimeSerie [mkLabel "job" "a" 1; mkLabel "e" "b" 1] 17], mkStats 1 0, Ok tt).
Proof.
  destruct demo_request_ok as [Hok Hb].
  apply (parseRequestBody_roundtrip (Xx := demo_digest) (Cod := demo_codecs) 1000 true demo_pools (λ got tss, Some (got ++ tss))
    (stored_block (encode_request demo_request)) demo_request (mkStats 0 0) []).
  - apply (bool_decide_unpack (Forall (uint 8) (stored_block (encode_request demo_request)))). vm_compute. exact I.
  - apply stored_block_ok. vm_compute. split; [discriminate|reflexivity].
  - exact Hok.
  - exact Hb.
  - vm_compute. discriminate.
Defined.

(** The request of TestParseRequestBody in streamparser_test.go, with the
    fingerprints the test expects of the real hash function. *)
Definition test_label (name value : string) : serie_field :=
  SLabel [LName (bytes_of_string name); LValue (bytes_of_string value)].
Definition test_sample : serie_field := SOther 2 (PLen [9; 0; 0; 0; 0; 0; 0; 240; 63; 16; 232; 7]).
Definition test_request : list request_field :=
  [RSerie [test_label "__name__" "requests_total"; test_label "job" "api"; test_label "foo" "fooVal"; test_sample];
   RSerie [test_label "__name__" "up"; test_label "job" "api"; test_label "bar" "barVal"; test_sample]].

Example TestParseRequestBody :
  snd <$> UnmarshalProtobuf true (mkWru (mkWR []) []) (encode_request test_request) = Some (Ok
    [mkTimeSerie [mkLabel "__name__" "requests_total" 17112259355248401197; mkLabel "job" "api" 5617089093593724463;
                  mkLabel "foo" "fooVal" 18265805195628551540] 11009355061427964546;
     mkTimeSerie [mkLabel "__name__" "up" 2571373012096355983; mkLabel "job" "api" 5617089093593724463;
                  mkLabel "bar" "barVal" 3223421134637281647] 14808323381317661148]).
Proof. vm_compute. reflexivity. Qed.
