(* ===== verification/WriteHandler.v ===== *)
(** * WriteHandler: the [/api/v1/write] request

    Models the request handler of app/vmestimator/main.go that feeds the parsed
    series through the deduplicator to every estimator. *)
From Stdlib Require Import String.
From S2P Require Import Prelude Types Config SketchSpec GroupSize Estimator EstimatorInsert EstimatorWindow.
From S2P Require Import EstimatorLife EstimatorTyped EstimatorExamples Bloom Dedup Reload CompressedList ProtoReader Snappy Proto.
Local Open Scope Z_scope.

(** [fastrand.Uint32n(n)], below [n]; the first argument numbers the calls. *)
Class FastRand := { Uint32n : nat → Z → Z }.
Class FastRandOk (R : FastRand) : Prop := { Uint32n_range : ∀ k n, 0 <= n → 0 <= Uint32n k n < Z.max 1 n }.

Section Defs.
Context `{Ops : SketchOps} `{Ord : IterOrder} `{Xx : Xxhash} `{Ql : MetricsQL} `{Rnd : FastRand} `{Cod : Codecs}.

(** The estimator visited in round [j]. *)
Definition estimator_index (esStart esLen j : Z) : Z := (esStart +[32] j) mod esLen.

Definition insert_estimator (tss : list TimeSerie) (esStart esLen : Z) (es : list estimator) (j : Z)
    : option (list estimator) :=
  let idx := Z.to_nat (estimator_index esStart esLen j) in
  e ← es !! idx;
  e' ← insertMany e tss (Uint32n (S (Z.to_nat j)) (Z.of_nat (length tss)));
  Some (<[idx := e']> es).

Definition insert_estimators (es : list estimator) (tss : list TimeSerie) : option (list estimator) :=
  let esLen := wrap 32 (Z.of_nat (length es)) in
  let esStart := Uint32n 0 esLen in
  for_each (insert_estimator tss esStart esLen) (seqZ 0 esLen) es.

(** The callback [main] passes to [Parse]. *)
Definition write_callback (w : world) (tss : list TimeSerie) : option world :=
  match w_dedup w with
  | Some dd =>
      '(dd, tss) ← deduplicator_filter_inplace dd tss;
      let w := mkWorld (w_estimators w) (w_fingerprintLabels w) (Some dd) (w_churn w) (w_cacheAt w) (w_chans w) in
      if (length tss =? 0)%nat then Some w
      else
        es ← insert_estimators (w_estimators w) tss;
        Some (mkWorld es (w_fingerprintLabels w) (w_dedup w) (w_churn w) (w_cacheAt w) (w_chans w))
  | None =>
      es ← insert_estimators (w_estimators w) tss;
      Some (mkWorld es (w_fingerprintLabels w) (w_dedup w) (w_churn w) (w_cacheAt w) (w_chans w))
  end.

Definition write_request (maxInsertRequestSize : Z) (pl : pools) (body : byte_list)
    (m : parser_stats) (w : world) : option (world * parser_stats * result unit) :=
  parseRequestBody maxInsertRequestSize (w_fingerprintLabels w) pl write_callback body m w.
End Defs.

Section Proofs.
Context `{Spec : SketchSpec} `{Ord : IterOrder, !IterOrderOk Ord} `{Xx : Xxhash, !XxhashOk Xx} `{Ql : MetricsQL}
  `{Rnd : FastRand, !FastRandOk Rnd} `{Cod : Codecs}.

(** What a batch does to one estimator, at whatever random start. *)
Definition fed (tss : list TimeSerie) (e e' : estimator) : Prop :=
  ∃ start, start_ok tss start ∧ insertMany e tss start = Some e'.

Lemma insertMany_sound e tss start : est_sound e → batch_ok tss → start_ok tss start →
  ∃ e', insertMany e tss start = Some e' ∧ est_sound e'.
Proof.
  intros (Hf & p & A & H) Hb Hs. destruct (insertMany_run p e A tss start H Hf Hb Hs) as (e' & E & Hst & H' & _).
  exists e'. split; [done|]. split; [by apply (same_static_filter e)|]. eauto.
Qed.

Lemma estimator_index_perm esStart n : 0 <= esStart < n → n < 2 ^ 31 →
  map (λ j, Z.to_nat (estimator_index esStart n j)) (seqZ 0 n) =
    seq (Z.to_nat esStart) (Z.to_nat (n - esStart)) ++ seq 0 (Z.to_nat esStart).
Proof.
  intros Hs Hn. apply list_eq. intros i. rewrite list_lookup_fmap.
  destruct (Z.lt_ge_cases (Z.of_nat i) n) as [Hi|Hi].
  - rewrite (lookup_seqZ_lt 0 n i) by lia. cbn [fmap option_fmap option_map].
    unfold estimator_index. rewrite Z.add_0_l, wrap_small by (unfold uint; lia).
    destruct (Z.lt_ge_cases (esStart + Z.of_nat i) n) as [H|H].
    + rewrite Z.mod_small by lia. rewrite lookup_app_l, lookup_seq_lt by (rewrite ?length_seq; lia). f_equal. lia.
    + rewrite <- (Z.mod_unique (esStart + Z.of_nat i) n 1 (esStart + Z.of_nat i - n)) by lia.
      rewrite lookup_app_r, length_seq by (rewrite length_seq; lia).
      rewrite lookup_seq_lt by lia. f_equal. lia.
  - rewrite (lookup_seqZ_ge 0 n i) by lia. simpl. symmetry. apply lookup_ge_None.
    rewrite length_app, !length_seq. lia.
Qed.

Lemma NoDup_map_inj {A B} (f : A → B) l a b : NoDup (map f l) → a ∈ l → b ∈ l → f a = f b → a = b.
Proof.
  intros Hnd [i Hi]%list_elem_of_lookup [j Hj]%list_elem_of_lookup E.
  assert (i = j) as ->; [|congruence].
  apply (NoDup_lookup (map f l) i j (f a) Hnd); [by apply map_lookup_Some|rewrite E; by apply map_lookup_Some].
Qed.

(** A loop that updates the elements at distinct indices. *)
Lemma for_each_update {A B} (f : B → A → option A) (P : A → Prop) (Q : A → A → Prop) (idx : B → nat) l (es : list A) :
  Forall P es → NoDup (map idx l) → (∀ b, b ∈ l → (idx b < length es)%nat) →
  (∀ b a, P a → ∃ a', f b a = Some a' ∧ Q a a') →
  ∃ es', for_each (λ es b, a ← es !! idx b; a' ← f b a; Some (<[idx b := a']> es)) l es = Some es' ∧
    length es' = length es ∧
    ∀ i a, es !! i = Some a → ∃ a', es' !! i = Some a' ∧ if decide (i ∈ map idx l) then Q a a' else a' = a.
Proof.
  intros HP Hnd Hlt Hf. edestruct (for_each_inv_NoDup (λ es b, a ← es !! idx b; a' ← f b a; Some (<[idx b := a']> es)) (λ dn es', (length es' = length es ∧ ∀ c, c ∈ dn → c ∈ l) ∧
    ∀ i a, es !! i = Some a → ∃ a', es' !! i = Some a' ∧ if decide (i ∈ map idx dn) then Q a a' else a' = a)
    l es) as (es' & E & [Hl _] & H).
  - by apply NoDup_fmap_1 in Hnd.
  - split; [split; [done|]; by intros c Hc%elem_of_nil|]. intros i a Ha. exists a. by rewrite decide_False by apply not_elem_of_nil.
  - intros dn b es1 [[Hl Hin] Hdn] Hb Hnb.
    destruct (lookup_lt_is_Some_2 es (idx b) (Hlt b Hb)) as [a Ha].
    destruct (Hdn (idx b) a Ha) as (a1 & Ea1 & Hq).
    assert (idx b ∉ map idx dn) as Hfresh; [|].
    { intros (c & Ec & Hc)%list_elem_of_fmap. apply Hnb. by rewrite (NoDup_map_inj idx l b c Hnd Hb (Hin c Hc) Ec). }
    rewrite decide_False in Hq by done. subst a1. rewrite Ea1. cbn [mbind option_bind].
    destruct (Hf b a) as (a' & Ea' & HQ); [by apply (Forall_lookup_1 P es (idx b))|]. rewrite Ea'.
    cbn [mbind option_bind]. eexists. split; [done|]. split.
    { split; [by rewrite length_insert|]. intros c [?| ->%list_elem_of_singleton]%elem_of_app; auto. }
    intros i x Hx. rewrite map_app. destruct (decide (i = idx b)) as [->|Hi].
    + exists a'. rewrite list_lookup_insert_eq by (rewrite Hl; by apply lookup_lt_Some in Ha). split; [done|].
      rewrite decide_True; [by simplify_eq|]. apply elem_of_app. right. left.
    + destruct (Hdn i x Hx) as (x' & Ex' & Hq'). exists x'. rewrite list_lookup_insert_ne by done. split; [done|].
      destruct (decide (i ∈ map idx dn)) as [Hin'|Hin'].
      * rewrite decide_True; [done|]. apply elem_of_app. by left.
      * rewrite decide_False; [done|]. rewrite elem_of_app. simpl. rewrite list_elem_of_singleton. tauto.
  - by exists es'.
Qed.

(** Every estimator is fed exactly once. *)
Lemma insert_estimators_ok es tss : Forall est_sound es → Z.of_nat (length es) < 2 ^ 31 → batch_ok tss →
  ∃ es', insert_estimators es tss = Some es' ∧ Forall est_sound es' ∧ Forall2 (fed tss) es es'.
Proof.
  intros Hes Hl Hb. unfold insert_estimators. cbv zeta. rewrite (wrap_small 32) by (unfold uint; lia).
  set (n := Z.of_nat (length es)). set (start := Uint32n 0 n).
  pose proof (Uint32n_range 0 n ltac:(lia)) as Hstart. fold start in Hstart.
  set (idx := λ j, Z.to_nat (estimator_index start n j)).
  set (f := λ (j : Z) e, insertMany e tss (Uint32n (S (Z.to_nat j)) (Z.of_nat (length tss)))).
  destruct (decide (n = 0)) as [Hn|Hn].
  { assert (es = []) as -> by (destruct es; simpl in *; [done|lia]). rewrite Hn. exists []. split_and!; constructor. }
  pose proof (estimator_index_perm start n ltac:(lia) Hl) as Hperm. fold idx in Hperm.
  destruct (for_each_update f est_sound (λ e e', est_sound e' ∧ fed tss e e') idx (seqZ 0 n) es Hes)
    as (es' & E & Hl' & Hall).
  - rewrite Hperm. apply NoDup_app. split; [apply NoDup_seq|]. split; [|apply NoDup_seq].
    intros i. rewrite !elem_of_seq. lia.
  - intros j Hj%elem_of_seqZ. unfold idx, estimator_index.
    pose proof (Z.mod_pos_bound (start +[32] j) n ltac:(lia)). lia.
  - intros j e He. unfold f. pose proof (Uint32n_range (S (Z.to_nat j)) (Z.of_nat (length tss)) ltac:(lia)) as Hs.
    destruct (insertMany_sound e tss _ He Hb Hs) as (e' & E & H'). exists e'. split; [done|]. split; [done|].
    eexists. by split.
  - exists es'. split; [exact E|].
    assert (Forall2 (λ e e', est_sound e' ∧ fed tss e e') es es') as HF.
    { apply Forall2_same_length_lookup. split; [done|]. intros i e e' Ee Ee'.
      destruct (Hall i e Ee) as (e1 & E1 & HQ). rewrite E1 in Ee'. injection Ee' as ->.
      rewrite decide_True in HQ; [done|]. rewrite Hperm, elem_of_app, !elem_of_seq.
      apply lookup_lt_Some in Ee. lia. }
    split; [eapply Forall2_Forall_r; [exact HF|]; apply Forall_true; by intros ?? [? _]|].
    eapply Forall2_impl; [exact HF|]. by intros ?? [_ ?].
Qed.

Record world_sound (w : world) : Prop := {
  ws_estimators : Forall est_sound (w_estimators w);
  ws_length : Z.of_nat (length (w_estimators w)) < 2 ^ 31;
  ws_dedup : ∀ d, w_dedup w = Some d → dd_ok d
}.

(** The series a batch is reduced to, and the deduplicator afterwards. *)
Definition forwarded (w w' : world) (tss fwd : list TimeSerie) : Prop :=
  match w_dedup w with
  | None => fwd = tss ∧ w_dedup w' = None
  | Some d => ∃ d', deduplicator_filter d tss [] = Some (d', fwd) ∧ w_dedup w' = Some d' ∧ fwd `sublist_of` tss
  end.
Definition batch_applied (w w' : world) (tss : list TimeSerie) : Prop :=
  ∃ fwd, forwarded w w' tss fwd ∧
    if decide (fwd = []) then w_estimators w' = w_estimators w
    else Forall2 (fed fwd) (w_estimators w) (w_estimators w').

Lemma batch_ok_sublist tss fwd : fwd `sublist_of` tss → batch_ok tss → batch_ok fwd.
Proof.
  intros Hs [Hl Hf]. split; [apply sublist_length in Hs; lia|].
  rewrite Forall_forall in *. intros ts Hin. apply Hf. by apply (elem_of_sublist fwd).
Qed.

Lemma write_callback_ok w tss : world_sound w → batch_ok tss → tss ≠ [] →
  ∃ w', write_callback w tss = Some w' ∧ world_sound w' ∧ batch_applied w w' tss.
Proof.
  intros [Hes Hl Hd] Hb Hne. unfold write_callback, batch_applied, forwarded. destruct (w_dedup w) as [d|].
  - assert (Forall (λ ts, uint 64 (Fingerprint ts)) tss) as Hfp.
    { destruct Hb as [_ Hb]. eapply Forall_impl; [exact Hb|]. by intros ? []. }
    destruct (filter_inplace_run d tss (Hd d eq_refl) Hfp) as (d' & fwd & E1 & -> & Hinv).
    cbn [mbind option_bind]. pose proof (dd_le_ok _ _ (fi_le _ _ _ _ Hinv)) as Hd'.
    destruct fwd as [|ts fwd]; cbn [length Nat.eqb].
    + eexists. split; [done|]. split; [split; [done|done|by intros ? [= <-]]|].
      exists []. split; [|by rewrite decide_True]. exists d'. split; [done|]. split; [done|apply (fi_sub _ _ _ _ Hinv)].
    + cbn [w_estimators]. destruct (insert_estimators_ok (w_estimators w) (ts :: fwd) Hes Hl) as (es' & -> & Hes' & HF).
      { apply (batch_ok_sublist tss); [apply (fi_sub _ _ _ _ Hinv)|done]. }
      cbn [mbind option_bind]. eexists. split; [done|]. split.
      { split; [done|simpl; by rewrite <- (Forall2_length _ _ _ HF)|by intros ? [= <-]]. }
      exists (ts :: fwd). split; [exists d'; split; [done|]; split; [done|apply (fi_sub _ _ _ _ Hinv)]|].
      by rewrite decide_False.
  - destruct (insert_estimators_ok (w_estimators w) tss Hes Hl Hb) as (es' & -> & Hes' & HF).
    cbn [mbind option_bind]. eexists. split; [done|]. split.
    { split; [done|simpl; by rewrite <- (Forall2_length _ _ _ HF)|done]. }
    exists tss. split; [done|]. by rewrite decide_False.
Qed.

(** C10: a write request, end to end.  Whatever the body and the random starts,
    a request smaller than 4 GiB does not panic and keeps the program's state
    sound.  An error (decompression, size, protobuf) changes nothing but the
    error count.  Otherwise the decoded series, reduced to those the
    deduplicator has not seen, are inserted exactly once into every estimator,
    at any of the random starts, and into none when nothing is left. *)
Theorem write_request_spec max pl body m w : max < 2 ^ 32 → world_sound w →
  ∃ w' m' r, write_request max pl body m w = Some (w', m', r) ∧ world_sound w' ∧
    match r with
    | Error _ => w' = w ∧ rowsRead m' = rowsRead m
    | Ok _ => ∃ data wru' tss, decompress max (bodyBuffer pl) body = Some (Ok data) ∧
        UnmarshalProtobuf (w_fingerprintLabels w) (getWriteRequestUnmarshaler (pl_wru pl)) data = Some (wru', Ok tss) ∧
        rowsRead m' = rowsRead m + Z.of_nat (length tss) ∧
        if decide (tss = []) then w' = w else batch_applied w w' tss
    end.
Proof.
  intros Hmax Hw. unfold write_request, parseRequestBody.
  destruct (decompress_total max (bodyBuffer pl) body) as [[data|e] ->]; cbn [mbind option_bind]; [|do 3 eexists; split; [done|]; by split_and!].
  destruct (Z.ltb_spec max (zlength data)) as [|Hlen]; [do 3 eexists; split; [done|]; by split_and!|].
  destruct (UnmarshalProtobuf_run (w_fingerprintLabels w) (getWriteRequestUnmarshaler (pl_wru pl)) data) as (wru' & r & E & Hr). rewrite E.
  cbn [mbind option_bind]. destruct r as [tss|e]; [|do 3 eexists; split; [done|]; by split_and!].
  destruct Hr as [_ Hsmall]. pose proof (UnmarshalProtobuf_fps _ _ _ _ _ E) as Hfps.
  destruct tss as [|ts tss]; cbn [length Nat.ltb Nat.leb].
  { do 3 eexists. split; [done|]. split; [done|]. exists data, wru', []. simpl. split_and!; [done|done|lia|done]. }
  destruct (write_callback_ok w (ts :: tss) Hw) as (w' & -> & Hw' & Happ); [|done|].
  { split; [lia|]. exact Hfps. }
  cbn [mbind option_bind]. do 3 eexists. split; [done|]. split; [done|].
  exists data, wru', (ts :: tss). by split_and!.
Qed.
End Proofs.

(** * At a concrete input *)
Definition demo_rand : FastRand := {| Uint32n k n := Z.max 0 (n - 1) |}.
Lemma demo_rand_ok : FastRandOk demo_rand.
Proof. split. intros k n Hn. simpl. lia. Qed.

Lemma write_request_spec_witness :
  ∃ e w' m' r, @newEstimator set_sketch_ops demo_ql 1 0 (demo_stream ["job"%string; labelKeyword]) = Some (Ok e) ∧
    write_request (Ops := set_sketch_ops) (Xx := demo_hash) (Ql := demo_ql) (Rnd := demo_rand) (Cod := demo_codecs)
      1000 demo_pools (stored_block (encode_request demo_request)) (mkStats 0 0) (mkWorld [e] true None ∅ None no_chans) = Some (w', m', r) ∧
    world_sound (Spec := set_sketch_spec) w'.
Proof.
  destruct demo_group as (e & He & _ & Hf & _ & _ & _ & _ & H).
  assert (world_sound (Spec := set_sketch_spec) (mkWorld [e] true None ∅ None no_chans)) as Hw.
  { split; [|simpl; lia|done]. constructor; [|constructor]. split; [exact Hf|]. eexists _, _. exact H. }
  destruct (write_request_spec (Spec := set_sketch_spec) (Xx := demo_hash) (XxhashOk0 := demo_hash_ok) (Ql := demo_ql)
    (Rnd := demo_rand) (FastRandOk0 := demo_rand_ok) (Cod := demo_codecs)
    1000 demo_pools (stored_block (encode_request demo_request)) (mkStats 0 0) _ ltac:(lia) Hw) as (w' & m' & r & E & Hw' & _).
  exists e, w', m', r. exact (conj He (conj E Hw')).
Defined.
