(* ===== verification/DedupWindow.v ===== *)
(** * DedupWindow: the deduplicator in front of the estimators

    With a deduplicator, a series reaches the estimators only now and then: it
    is held back while the deduplicator remembers it.  Whether the estimators
    still report it depends on the clocks of two kinds of goroutines, the
    rotation of the estimator's buckets (estimator.go) and that of the
    deduplicator's filters (deduplicator.go), and on the requests' callback in
    main.go.  Here the three run together, on events with times. *)
From Stdlib Require Import String.
From S2P Require Import Prelude GoText Types Config SketchSpec GroupSize Snapshot Estimator EstimatorInsert EstimatorWindow.
From S2P Require Import EstimatorLife EstimatorTyped EstimatorExamples Bloom Dedup Churn Reload Rotation CompressedList ProtoReader Snappy Proto.
From S2P Require Import WriteHandler.
Local Open Scope Z_scope.

Section Defs.
Context `{Ops : SketchOps} `{Ord : IterOrder} `{Xx : Xxhash} `{Ql : MetricsQL} `{Rnd : FastRand}.

(** The callback of a request; turn [k] of the loop of estimator [i]; a turn of
    the loop of the deduplicator, which read the clock at [now]. *)
Inductive world_event :=
| Receive (tss : list TimeSerie)
| RotateTick (i k : nat)
| FilterTick (now : Z).

Definition world_do (w : world) (ev : world_event) : option world :=
  match ev with
  | Receive tss => write_callback w tss
  | RotateTick i k => e ← w_estimators w !! i; rotation_tick w i (k mod length (e_buckets e))
  | FilterTick now => dedup_tick w now
  end.

(** The fingerprints forwarded since their filter was last cleared. *)
Definition clears (d : deduplicator) (h : Z) (ev : world_event) : bool :=
  match ev with FilterTick now => h mod 10 =? rotation_idx d (rotation_boundary d now) | _ => false end.
Definition passed_do (w : world) (R : gset Z) (ev : world_event) : gset Z :=
  match w_dedup w with
  | None => R
  | Some d =>
      match ev with
      | Receive tss =>
          match deduplicator_filter d tss [] with Some (_, out) => R ∪ list_to_set (map Fingerprint out) | None => R end
      | _ => filter (λ h, clears d h ev = false) R
      end
  end.
Definition tracked_do (s : world * gset Z) (ev : Z * world_event) : option (world * gset Z) :=
  w ← world_do s.1 ev.2; Some (w, passed_do s.1 s.2 ev.2).
Definition world_run (w : world) (evs : list (Z * world_event)) : option (world * gset Z) := for_each tracked_do evs (w, ∅).

Definition received (evs : list (Z * world_event)) (ts : TimeSerie) : Prop :=
  ∃ t tss, (t, Receive tss) ∈ evs ∧ ts ∈ tss.

(** At no time a filter holds a received series it was not given. *)
Definition no_false_positives (w : world) (evs : list (Z * world_event)) : Prop :=
  ∀ m s d ts, world_run w (take m evs) = Some s → w_dedup s.1 = Some d → received evs ts →
    seen d (Fingerprint ts) → Fingerprint ts ∈ s.2.

(** The clocks.  Events are in the order of their times, none after [T].  The
    loop of estimator [j] turns once for each point of the grid from [g] on,
    with distance [period], and the deduplicator's once for each point of the
    grid from [b0] on; a turn is at most [lag] late; of the deduplicator's,
    none is missing. *)
Record timeline (w : world) (d : deduplicator) (j : nat) (period g b0 lag T : Z) (evs : list (Z * world_event)) : Prop := {
  tl_sorted : ∀ p q x y, (p <= q)%nat → evs !! p = Some x → evs !! q = Some y → x.1 <= y.1;
  tl_end : ∀ x, x ∈ evs → x.1 <= T;
  tl_batches : ∀ t tss, (t, Receive tss) ∈ evs → batch_ok tss ∧ tss ≠ [] ∧ b0 - bucketDur d <= t;
  tl_estimators : ∀ t i k, (t, RotateTick i k) ∈ evs → (i < length (w_estimators w))%nat;
  tl_grid : ∀ t k, (t, RotateTick j k) ∈ evs → g + Z.of_nat k * period <= t <= g + Z.of_nat k * period + lag;
  tl_once : ∀ p q t t' k, evs !! p = Some (t, RotateTick j k) → evs !! q = Some (t', RotateTick j k) → p = q;
  tl_clock : ∀ t now, (t, FilterTick now) ∈ evs → 0 <= now;
  tl_start : 0 <= b0;
  tl_cleared : ∀ k : nat, b0 + Z.of_nat k * bucketDur d + lag <= T → ∃ t now, (t, FilterTick now) ∈ evs ∧
    rotation_boundary d now = b0 + Z.of_nat k * bucketDur d ∧
    b0 + Z.of_nat k * bucketDur d <= t <= b0 + Z.of_nat k * bucketDur d + lag
}.
End Defs.

Section Proofs.
Context `{Spec : SketchSpec} `{Ord : IterOrder, !IterOrderOk Ord} `{Xx : Xxhash, !XxhashOk Xx} `{Ql : MetricsQL}
  `{Rnd : FastRand, !FastRandOk Rnd}.

(** ** What a bucket holds of an insert *)
Definition held (c : nat) (A : list bucket_state) (o : insert_op) : Prop :=
  ∃ CP : bucket_state, A !! bucket_index A (op_h o) = Some CP ∧
    match c with
    | 0%nat => op_fp o ∈ hashes CP.1 (op_key o)
    | 1%nat => op_fp o ∈ hashes CP.1 (op_key o) ∨ op_fp o ∈ hashes CP.2 (op_key o)
    | _ => True
    end.

Lemma bucket_index_length {A B} (l : list A) (l' : list B) h : length l = length l' → bucket_index l h = bucket_index l' h.
Proof. unfold bucket_index. by intros ->. Qed.

Lemma held_insert c A o ops : held c A o → held c (abs_inserts None A ops) o.
Proof.
  intros (CP & E & H). destruct (abs_inserts_keep None ops _ (op_key o) A CP E) as (CP' & E' & Hsub & E2).
  exists CP'. rewrite (bucket_index_length _ A) by apply abs_inserts_length. split; [done|]. rewrite E2.
  destruct c as [|[|c]]; [by apply Hsub| |done]. destruct H; [left; by apply Hsub|by right].
Qed.

Lemma held_new A o ops : (0 < length A)%nat → o ∈ ops → held 0 (abs_inserts None A ops) o.
Proof.
  intros Hl (l1 & l2 & ->)%list_elem_of_split. unfold abs_inserts. rewrite foldl_app. cbn [foldl].
  set (A1 := foldl _ A l1). assert (length A1 = length A) as Hl1 by apply abs_inserts_length.
  apply (held_insert 0). destruct (lookup_lt_is_Some_2 A1 (bucket_index A1 (op_h o))) as [CP E]; [apply bucket_index_lt; lia|].
  exists (add_hash CP.1 (op_key o) (op_fp o), CP.2).
  rewrite (bucket_index_length _ A1) by apply abs_insert_length. unfold abs_insert. rewrite E, decide_True by done.
  split; [apply list_lookup_insert_eq; by eapply lookup_lt_Some|]. cbn [fst].
  unfold hashes, add_hash. rewrite lookup_insert_eq. cbn [default]. set_solver.
Qed.

Lemma held_rotate c A o b global : held c A o →
  held (c + if decide (b = bucket_index A (op_h o)) then 1 else 0) (alter (age global) b A) o.
Proof.
  intros (CP & E & H). unfold held. rewrite (bucket_index_length _ A) by apply length_alter.
  destruct (decide _) as [->|Hb].
  - exists (age global CP). rewrite list_lookup_alter_eq, E. split; [done|].
    destruct c as [|c]; [|by rewrite Nat.add_1_r]. right. by apply (hashes_age global CP).
  - exists CP. rewrite list_lookup_alter_ne by done. by rewrite Nat.add_0_r.
Qed.

Lemma held_window c A o : (c <= 1)%nat → held c A o → op_fp o ∈ hashes (window A) (op_key o).
Proof.
  intros Hc (CP & E & H). apply elem_of_window. exists (bucket_index A (op_h o)), CP. split; [done|].
  destruct c as [|[|c]]; [by left|done|lia].
Qed.

(** ** What happens to one estimator *)
Lemma dom_ops_family ops key : key ∈ dom (ops_family ops) → ∃ o, o ∈ ops ∧ op_key o = key.
Proof.
  unfold ops_family. induction ops as [|o ops IH]; cbn [map union_all foldr]; [rewrite dom_empty; set_solver|].
  rewrite dom_groups_union, elem_of_union. intros [H|H].
  - unfold op_family in H. rewrite dom_singleton, elem_of_singleton in H. exists o. by split; [left|].
  - destruct (IH H) as (o' & ? & ?). exists o'. by split; [right|].
Qed.

Lemma all_keys_inserts A ops : (0 < length A)%nat → all_keys (abs_inserts None A ops) = dom (ops_family ops) ∪ all_keys A.
Proof.
  intros Hl. rewrite <- !dom_window. unfold window. destruct (abs_inserts_unlimited ops A Hl) as [-> ->].
  rewrite !dom_groups_union. set_solver.
Qed.

Lemma all_keys_rotate A b : all_keys (alter (age false) b A) ⊆ all_keys A.
Proof.
  intros key (i & CP & E & H)%elem_of_all_keys. apply elem_of_all_keys.
  destruct (decide (b = i)) as [<-|Hb]; [|rewrite list_lookup_alter_ne in E by done; eauto].
  rewrite list_lookup_alter_eq in E. destruct (A !! b) as [CP0|] eqn:E0; [|done]. injection E as <-.
  exists b, CP0. split; [done|]. unfold known_keys, age in *. cbn in H. rewrite dom_empty in H. set_solver.
Qed.

(** The groups of the series received, and those there are, are within the
    limit. *)
Definition keys_in (e : estimator) (K : gset Z) (ts : TimeSerie) : Prop := ∀ ov, ov ∈ matched_ops e ts → op_key ov.1 ∈ K.
Record tracks (p : Z) (e : estimator) (K : gset Z) (e1 : estimator) (A1 : list bucket_state) : Prop := {
  tr_static : same_static e e1;
  tr_filter : filter_total e1;
  tr_repr : est_repr p e1 A1;
  tr_len : length A1 = length (e_buckets e);
  tr_keys : is_global e = false → all_keys A1 ⊆ K
}.

Lemma elem_of_batch_ops e tss ov : ov ∈ batch_ops e tss ↔ ∃ ts, ts ∈ tss ∧ ov ∈ matched_ops e ts.
Proof.
  unfold batch_ops. rewrite list_elem_of_join. setoid_rewrite list_elem_of_fmap. naive_solver.
Qed.

Lemma tracks_insert p e K e1 A1 fwd start : tracks p e K e1 A1 → batch_ok fwd → start_ok fwd start →
  (is_global e = false → Z.of_nat (size K) <= gs_limit (e_groupSize e) ∧ Forall (keys_in e K) fwd) →
  ∃ e2 A2, insertMany e1 fwd start = Some e2 ∧ tracks p e K e2 A2 ∧
    (∀ c o, held c A1 o → held c A2 o) ∧ ∀ ts ov, ts ∈ fwd → ov ∈ matched_ops e ts → held 0 A2 ov.1.
Proof.
  intros [Hs Hf H Hl HK] Hb Hst Hlim.
  assert (batch_ops e1 (rotated fwd start) ≡ₚ batch_ops e fwd) as Hperm.
  { rewrite (same_static_batch_ops e e1) by done. apply batch_ops_perm. unfold rotated.
    by rewrite (Permutation_app_comm (drop _ _)), take_drop. }
  destruct (est_do_refines p e1 A1 (EvInsert fwd start) H Hf (conj Hb Hst)) as (e2 & E2 & Hs2 & H2).
  cbn [est_do abs_do] in E2, H2. set (ovs := batch_ops e1 (rotated fwd start)) in *.
  assert (is_global e = false → dom (ops_family (map fst ovs)) ⊆ K) as Hfam.
  { intros Hg key (o & (ov & -> & Hin)%list_elem_of_fmap & <-)%dom_ops_family. rewrite Hperm in Hin.
    apply elem_of_batch_ops in Hin as (ts & Hts & Hov). destruct (Hlim Hg) as [_ HF]. rewrite Forall_forall in HF.
    by apply (HF ts Hts). }
  rewrite (inserts_below_limit p) in H2; [|done|by apply batch_ops_ok, batch_ok_rotated|].
  2: { rewrite (same_static_global e e1) by done. intros Hg. pose proof Hs as (_ & _ & _ & _ & _ & _ & _ & ->).
       destruct (Hlim Hg) as [Hsz _]. etrans; [|exact Hsz]. apply inj_le, subseteq_size.
       rewrite dom_groups_union, dom_window. fold ovs. specialize (Hfam Hg). specialize (HK Hg). set_solver. }
  exists e2, (abs_inserts None A1 (map fst ovs)). split; [done|]. split; [|split].
  - split; [by eapply same_static_trans|by eapply same_static_filter|done|by rewrite abs_inserts_length|].
    intros Hg. rewrite all_keys_inserts by apply H. specialize (Hfam Hg). specialize (HK Hg). set_solver.
  - intros c o. apply held_insert.
  - intros ts ov Hts Hov. apply held_new; [apply H|]. apply list_elem_of_fmap. exists ov. split; [done|].
    rewrite Hperm. apply elem_of_batch_ops. eauto.
Qed.

Lemma tracks_rotate p e K e1 A1 b : tracks p e K e1 A1 → (b < length (e_buckets e))%nat →
  ∃ e2 A2, estimator_rotate_bucket e1 b = Some e2 ∧ tracks p e K e2 A2 ∧
    ∀ c o, held c A1 o → held (c + if decide (b = bucket_index (e_buckets e) (op_h o)) then 1 else 0) A2 o.
Proof.
  intros [Hs Hf H Hl HK] Hb.
  destruct (est_do_refines p e1 A1 (EvRotate b) H Hf) as (e2 & E2 & Hs2 & H2); [simpl; lia|]. cbn [est_do abs_do] in E2, H2.
  exists e2, (alter (age (is_global e1)) b A1). split; [done|]. split.
  - split; [by eapply same_static_trans|by eapply same_static_filter|done|by rewrite length_alter|].
    intros Hg. rewrite (same_static_global e e1), Hg by done. etrans; [apply all_keys_rotate|auto].
  - intros c o Hh. rewrite (bucket_index_length _ A1) by done. by apply held_rotate.
Qed.

(** ** One event *)
Definition turns_of (j n b : nat) (ev : world_event) : nat :=
  match ev with RotateTick i k => if decide (i = j ∧ k mod n = b)%nat then 1 else 0 | _ => 0 end.

Record going (d : deduplicator) (j m : nat) (p : Z) (e : estimator) (K : gset Z) (w : world) (A : list bucket_state) : Prop := {
  go_sound : world_sound w;
  go_len : length (w_estimators w) = m;
  go_dedup : ∃ d1, w_dedup w = Some d1 ∧ dd_interval d1 = dd_interval d;
  go_est : ∃ e1, w_estimators w !! j = Some e1 ∧ tracks p e K e1 A
}.

Lemma clears_interval d d1 h ev : dd_interval d1 = dd_interval d → clears d1 h ev = clears d h ev.
Proof. intros E. unfold clears, rotation_idx, rotation_boundary. by rewrite E. Qed.

Lemma going_receive d j m p e K w A tss : going d j m p e K w A → batch_ok tss → tss ≠ [] →
  (is_global e = false → Z.of_nat (size K) <= gs_limit (e_groupSize e) ∧ Forall (keys_in e K) tss) →
  ∃ w' A' d1 d2 fwd, write_callback w tss = Some w' ∧ going d j m p e K w' A' ∧ (∀ c o, held c A o → held c A' o) ∧
    w_dedup w = Some d1 ∧ deduplicator_filter d1 tss [] = Some (d2, fwd) ∧ w_dedup w' = Some d2 ∧ fwd `sublist_of` tss ∧
    (∀ ts, ts ∈ tss → Fingerprint ts ∈ map Fingerprint fwd ∨ seen d2 (Fingerprint ts)) ∧
    ∀ ts ov, ts ∈ fwd → ov ∈ matched_ops e ts → held 0 A' ov.1.
Proof.
  intros [Hs Hl (d1 & Ed & Hd) (e1 & Ee & Ht)] Hb Hne Hlim.
  destruct (write_callback_ok w tss Hs Hb Hne) as (w' & E & Hs' & fwd & Hfwd & Hw').
  unfold forwarded in Hfwd. rewrite Ed in Hfwd. destruct Hfwd as (d2 & Ef & Ed2 & Hsub).
  assert (∀ ts, ts ∈ tss → Fingerprint ts ∈ map Fingerprint fwd ∨ seen d2 (Fingerprint ts)) as Hall.
  { destruct (filter_run d1 tss []) as (d2' & out & Ef' & Hinv); [by apply (ws_dedup w Hs)| |].
    - destruct Hb as [_ Hb]. eapply Forall_impl; [exact Hb|]. by intros ? [].
    - rewrite Ef in Ef'. injection Ef' as <- ->. apply Hinv. }
  assert (dd_interval d2 = dd_interval d) as Hd2 by (rewrite <- Hd; by eapply filter_interval).
  destruct (decide (fwd = [])) as [->|Hne'].
  - exists w', A, d1, d2, []. split; [done|]. split; [split; [done|by rewrite Hw'|by exists d2|rewrite Hw'; by exists e1]|].
    do 5 (split; [done|]). split; [done|]. intros ts ov H. by apply elem_of_nil in H.
  - destruct (Forall2_lookup_l _ _ _ _ _ Hw' Ee) as (e2 & Ee2 & start & Hst & Ei).
    destruct (tracks_insert p e K e1 A fwd start Ht) as (e2' & A2 & Ei' & Ht2 & Hheld & Hnew);
      [by apply (batch_ok_sublist tss)|done| |].
    { intros Hg. destruct (Hlim Hg) as [? HF]. split; [done|]. rewrite Forall_forall in *. intros ts Hin.
      apply HF. by apply (elem_of_sublist fwd). }
    rewrite Ei in Ei'. injection Ei' as <-. exists w', A2, d1, d2, fwd. split; [done|].
    split; [split; [done|by rewrite <- (Forall2_length _ _ _ Hw')|by exists d2|by exists e2]|]. by do 6 (split; [done|]).
Qed.

Lemma going_rotate d j m p e K w A i k : going d j m p e K w A → (i < m)%nat →
  ∃ w' A', world_do w (RotateTick i k) = Some w' ∧ going d j m p e K w' A' ∧
    ∀ c o, held c A o →
      held (c + turns_of j (length (e_buckets e)) (bucket_index (e_buckets e) (op_h o)) (RotateTick i k)) A' o.
Proof.
  intros [[He Hn Hdd] Hl Hd (e1 & Ee & Ht)] Hi. cbn [world_do]. rewrite <- Hl in Hi.
  apply lookup_lt_is_Some_2 in Hi as [ei Ei]. rewrite Ei. cbn [mbind option_bind].
  pose proof (Forall_lookup_1 _ _ _ _ He Ei) as (Hf & p' & B & Hr). set (b := (k mod length (e_buckets ei))%nat).
  assert (b < length B)%nat as Hb.
  { unfold b. rewrite (er_len p' ei B Hr). apply Nat.mod_upper_bound. pose proof (er_nonempty p' ei B Hr). lia. }
  destruct (est_do_refines p' ei B (EvRotate b) Hr Hf Hb) as (ei' & E & Hst & Hr'). cbn [est_do] in E.
  unfold rotation_tick. rewrite Ei. cbn [mbind option_bind]. rewrite E. cbn [mbind option_bind].
  assert (est_sound ei') as Hsound by (split; [by eapply same_static_filter|by eexists _, _]).
  assert (world_sound (set_estimators w (<[i := ei']> (w_estimators w)))) as Hw.
  { split; [by apply Forall_insert|cbn; by rewrite length_insert|done]. }
  destruct (decide (i = j)) as [->|Hij].
  - rewrite Ee in Ei. injection Ei as <-. assert (length (e_buckets e1) = length (e_buckets e)) as Hlen.
    { rewrite <- (tr_len p e K e1 A Ht). apply (er_len p e1 A), Ht. }
    destruct (tracks_rotate p e K e1 A b Ht) as (e2 & A2 & E2 & Ht2 & Hheld).
    { rewrite <- Hlen, (er_len p' e1 B Hr). done. }
    rewrite E in E2. injection E2 as <-. eexists _, A2. split; [done|].
    split; [split; [done|cbn; by rewrite length_insert|done|]|].
    + exists ei'. split; [|done]. cbn. apply list_lookup_insert_eq. by eapply lookup_lt_Some.
    + intros c o Hh. apply Hheld in Hh. cbn [turns_of]. unfold b in Hh. rewrite Hlen in Hh.
      destruct (decide (_ = bucket_index _ _)) as [Hb'|Hb'];
        [rewrite decide_True by done; exact Hh|rewrite decide_False by tauto; exact Hh].
  - eexists _, A. split; [done|]. split; [split; [done|cbn; by rewrite length_insert|done|]|].
    + exists e1. split; [|done]. cbn. by rewrite list_lookup_insert_ne.
    + intros c o Hh. cbn [turns_of]. rewrite decide_False by tauto. by rewrite Nat.add_0_r.
Qed.

Lemma going_filter d j m p e K w A now : going d j m p e K w A → 0 < bucketDur d → 0 <= now →
  ∃ w', world_do w (FilterTick now) = Some w' ∧ going d j m p e K w' A.
Proof.
  intros [[He Hn Hdd] Hl (d1 & Ed & Hd) Hest] Hu Hnow. cbn [world_do]. unfold dedup_tick. rewrite Ed. cbn [mbind option_bind].
  pose proof (Hdd d1 Ed) as Hok. assert (0 < bucketDur d1) as Hu1 by (unfold bucketDur in *; by rewrite Hd).
  pose proof (rotate_eq d1 now Hok Hu1 Hnow) as E. cbv zeta in E. destruct (rotate_ok d1 now _ Hok Hu1 Hnow E) as (Hok' & Hi & _).
  rewrite E. cbn [mbind option_bind]. eexists. split; [done|]. split; [split|done| |done]; cbn; [done|done|by intros ? [= <-]|].
  eexists. split; [done|]. by rewrite <- Hd.
Qed.

(** ** The clocks *)
Definition ticks (j n b : nat) (l : list (Z * world_event)) : nat := sum_list_with (λ x, turns_of j n b x.2) l.

Lemma ticks_app j n b l1 l2 : ticks j n b (l1 ++ l2) = (ticks j n b l1 + ticks j n b l2)%nat.
Proof. apply sum_list_with_app. Qed.

Lemma ticks_pos j n b l : (1 <= ticks j n b l)%nat →
  ∃ l1 t k l2, l = l1 ++ (t, RotateTick j k) :: l2 ∧ (k mod n = b)%nat ∧ ticks j n b l = S (ticks j n b l2).
Proof.
  induction l as [|[t ev] l IH]; [simpl; lia|]. change (ticks j n b ((t, ev) :: l)) with (turns_of j n b ev + ticks j n b l)%nat.
  destruct ev as [tss|i k|now]; cbn [turns_of]; [|destruct (decide _) as [[-> Hk]|_]; [intros _; by exists [], t, k, l|]|];
    intros H; destruct (IH H) as (l1 & t' & k' & l2 & -> & ? & ?); [exists ((t, Receive tss) :: l1)
    |exists ((t, RotateTick i k) :: l1)|exists ((t, FilterTick now) :: l1)]; by exists t', k', l2.
Qed.

Section Clocks.
Context (w : world) (d : deduplicator) (j : nat) (period g b0 lag T : Z) (evs : list (Z * world_event))
  (Hu : 0 < bucketDur d) (Hp : 0 < period) (Hlag : 0 <= lag) (HT : timeline w d j period g b0 lag T evs).

Lemma sorted_split l1 x l2 y : evs = l1 ++ x :: l2 → y ∈ l2 → x.1 <= y.1.
Proof.
  intros E [i Hi]%list_elem_of_lookup. apply (tl_sorted _ _ _ _ _ _ _ _ _ HT (length l1) (S (length l1 + i)) x y); [lia|..].
  - by rewrite E, list_lookup_middle.
  - rewrite E, lookup_app_r by lia. by replace (_ - _)%nat with (S i) by lia.
Qed.
Lemma sorted_before l1 x l2 y : evs = l1 ++ x :: l2 → y ∈ l1 → y.1 <= x.1.
Proof.
  intros E [i Hi]%list_elem_of_lookup. pose proof (lookup_lt_Some _ _ _ Hi).
  apply (tl_sorted _ _ _ _ _ _ _ _ _ HT i (length l1) y x); [lia|..].
  - by rewrite E, lookup_app_l.
  - by rewrite E, list_lookup_middle.
Qed.

(** A bucket is rotated twice only if [n] periods have passed. *)
Lemma rotated_twice n b l1 x l2 : (0 < n)%nat → evs = l1 ++ x :: l2 → T - x.1 < Z.of_nat n * period - lag →
  (ticks j n b l2 <= 1)%nat.
Proof.
  intros Hn E Ht. destruct (Nat.le_gt_cases (ticks j n b l2) 1) as [|H]; [done|exfalso].
  destruct (ticks_pos j n b l2) as (m1 & t1 & k1 & m2 & E1 & Hk1 & Es); [lia|].
  destruct (ticks_pos j n b m2) as (m3 & t2 & k2 & m4 & E2 & Hk2 & _); [lia|].
  set (p := (length l1 + S (length m1))%nat). set (q := (p + S (length m3))%nat).
  assert (evs !! p = Some (t1, RotateTick j k1)) as Ep.
  { replace p with (length (l1 ++ x :: m1)) by (rewrite length_app; unfold p; simpl; lia).
    rewrite E, E1, app_comm_cons, app_assoc. by rewrite list_lookup_middle. }
  assert (evs !! q = Some (t2, RotateTick j k2)) as Eq.
  { replace q with (length ((l1 ++ x :: m1) ++ (t1, RotateTick j k1) :: m3)) by (rewrite !length_app; unfold q, p; simpl; lia).
    rewrite E, E1, E2, app_comm_cons, app_assoc, app_comm_cons, app_assoc. by rewrite list_lookup_middle. }
  assert (k1 ≠ k2) as Hne by (intros <-; pose proof (tl_once _ _ _ _ _ _ _ _ _ HT p q t1 t2 k1 Ep Eq); lia).
  assert (x.1 <= t1) as H0 by (apply (sorted_split l1 x l2 (t1, RotateTick j k1) E); rewrite E1, elem_of_app; right; left).
  pose proof (tl_sorted _ _ _ _ _ _ _ _ _ HT p q _ _ ltac:(lia) Ep Eq) as H12. cbn [fst] in H12.
  pose proof (list_elem_of_lookup_2 _ _ _ Ep) as I1. pose proof (list_elem_of_lookup_2 _ _ _ Eq) as I2.
  pose proof (tl_end _ _ _ _ _ _ _ _ _ HT _ I2) as HT2. cbn [fst] in HT2.
  apply (tl_grid _ _ _ _ _ _ _ _ _ HT) in I1, I2.
  assert (k1 + n <= k2 ∨ k2 + n <= k1)%nat as Hkk.
  { pose proof (Nat.div_mod k1 n ltac:(lia)) as D1. pose proof (Nat.div_mod k2 n ltac:(lia)) as D2.
    rewrite Hk1 in D1. rewrite Hk2 in D2. destruct (Nat.lt_trichotomy (k1 / n) (k2 / n)) as [?|[Heq|?]].
    - left. nia.
    - rewrite Heq in D1. lia.
    - right. nia. }
  destruct Hkk; nia.
Qed.

(** A filter is cleared within ten tenths of the interval. *)
Lemma not_cleared h l1 t0 ev0 l2 dn t ev rest : evs = dn ++ (t, ev) :: rest → dn ++ [(t, ev)] = l1 ++ (t0, ev0) :: l2 →
  b0 - bucketDur d <= t0 → Forall (λ x, clears d h x.2 = false) l2 → t - t0 <= 10 * bucketDur d + lag.
Proof.
  intros E Edn Ht0 Hcl. destruct (Z.le_gt_cases (t - t0) (10 * bucketDur d + lag)) as [|H]; [done|exfalso].
  set (u := bucketDur d) in *. pose proof (tl_start _ _ _ _ _ _ _ _ _ HT) as Hb0.
  set (k0 := (t0 - b0) / u + 1). set (k := k0 + (h - b0 / u - k0) mod 10).
  pose proof (Z.mod_pos_bound (h - b0 / u - k0) 10 ltac:(lia)) as Hm.
  pose proof (Z.div_mod (t0 - b0) u ltac:(lia)) as Hdm. pose proof (Z.mod_pos_bound (t0 - b0) u Hu) as Hmb.
  assert (0 <= k0) as Hk0 by (unfold k0; assert (-1 <= (t0 - b0) / u) by (apply Z.div_le_lower_bound; lia); lia).
  assert (t0 < b0 + k * u) as Hlo by (unfold k, k0 in *; nia).
  assert (b0 + k * u <= t0 + 10 * u) as Hhi by (unfold k, k0 in *; nia).
  assert ((t, ev) ∈ evs) as Hin by (rewrite E, elem_of_app; right; left).
  pose proof (tl_end _ _ _ _ _ _ _ _ _ HT _ Hin) as HtT. cbn [fst] in HtT.
  destruct (tl_cleared _ _ _ _ _ _ _ _ _ HT (Z.to_nat k)) as (c & now & Hc & Hbd & Hcb); fold u; rewrite Z2Nat.id in * by lia; [lia|].
  assert (evs = l1 ++ (t0, ev0) :: l2 ++ rest) as E'.
  { change (evs = l1 ++ ((t0, ev0) :: l2) ++ rest). rewrite app_assoc, <- Edn, <- app_assoc. exact E. }
  assert ((c, FilterTick now) ∈ l2) as Hl2.
  { pose proof Hc as Hc'. rewrite E' in Hc'. apply elem_of_app in Hc' as [Hc1|Hc1].
    { pose proof (sorted_before _ _ _ _ E' Hc1) as Hx. cbn in Hx. lia. }
    apply elem_of_cons in Hc1 as [[= -> _]|Hc1]; [lia|]. apply elem_of_app in Hc1 as [|Hc1]; [done|].
    pose proof (sorted_split _ _ _ _ E Hc1) as Hx. cbn in Hx. lia. }
  rewrite Forall_forall in Hcl. specialize (Hcl _ Hl2). cbn in Hcl. apply Z.eqb_neq in Hcl. apply Hcl.
  rewrite Hbd. rewrite rotation_idx_eq by (fold u; nia). fold u. rewrite Z.div_add by lia.
  unfold k. rewrite Z.add_assoc, Z.add_mod_idemp_r by lia. f_equal. lia.
Qed.
End Clocks.

(** ** The run *)
Section Run.
Context (p : Z) (w : world) (d : deduplicator) (j : nat) (e : estimator) (K : gset Z) (period g b0 lag T : Z)
  (evs : list (Z * world_event)).
Context (Hu : 0 < bucketDur d) (HT : timeline w d j period g b0 lag T evs) (Hnfp : no_false_positives w evs)
  (Hinj : ∀ ts1 ts2, received evs ts1 → received evs ts2 → Fingerprint ts1 = Fingerprint ts2 → ts1 = ts2)
  (HK : is_global e = false → Z.of_nat (size K) <= gs_limit (e_groupSize e) ∧ ∀ ts, received evs ts → keys_in e K ts).

(** The inserts of [ts] were made at [t0], and what the turns since, those in
    [l2], have left of them. *)
Definition noted (dn : list (Z * world_event)) (A1 : list bucket_state) (ts : TimeSerie) (t0 : Z)
    (l2 : list (Z * world_event)) : Prop :=
  ∃ l1 ev0, dn = l1 ++ (t0, ev0) :: l2 ∧ ∀ ov, ov ∈ matched_ops e ts →
    held (ticks j (length (e_buckets e)) (bucket_index (e_buckets e) (op_h ov.1)) l2) A1 ov.1.

Lemma noted_step dn A1 ts t0 l2 x A2 : noted dn A1 ts t0 l2 →
  (∀ c o, held c A1 o → held (c + turns_of j (length (e_buckets e)) (bucket_index (e_buckets e) (op_h o)) x.2) A2 o) →
  noted (dn ++ [x]) A2 ts t0 (l2 ++ [x]).
Proof.
  intros (l1 & ev0 & -> & H) Hstep. exists l1, ev0. split; [by rewrite <- app_assoc|]. intros ov Hov.
  rewrite ticks_app. unfold ticks at 2. cbn [sum_list_with]. rewrite Nat.add_0_r. by apply Hstep, H.
Qed.

(** What is remembered as passed was passed, and not cleared since; and every
    series received was passed not long before. *)
Record run_inv (dn : list (Z * world_event)) (s : world * gset Z) (A1 : list bucket_state) : Prop := {
  ri_run : world_run w dn = Some s;
  ri_going : going d j (length (w_estimators w)) p e K s.1 A1;
  ri_passed : ∀ h, h ∈ s.2 → ∃ ts t0 l2, Fingerprint ts = h ∧ received evs ts ∧ b0 - bucketDur d <= t0 ∧
    Forall (λ x, clears d h x.2 = false) l2 ∧ noted dn A1 ts t0 l2;
  ri_received : ∀ t tss ts, (t, Receive tss) ∈ dn → ts ∈ tss →
    ∃ t0 l2, t - (10 * bucketDur d + lag) <= t0 ∧ noted dn A1 ts t0 l2
}.

Lemma run_snoc dn s x w' : world_run w dn = Some s → world_do s.1 x.2 = Some w' →
  world_run w (dn ++ [x]) = Some (w', passed_do s.1 s.2 x.2).
Proof.
  unfold world_run. intros E E'. rewrite for_each_app, E. cbn [mbind option_bind for_each]. unfold tracked_do. by rewrite E'.
Qed.

Lemma run_tick dn x s A1 w' A2 : run_inv dn s A1 → (∀ tss, x.2 ≠ Receive tss) → world_do s.1 x.2 = Some w' →
  going d j (length (w_estimators w)) p e K w' A2 →
  (∀ c o, held c A1 o → held (c + turns_of j (length (e_buckets e)) (bucket_index (e_buckets e) (op_h o)) x.2) A2 o) →
  run_inv (dn ++ [x]) (w', passed_do s.1 s.2 x.2) A2.
Proof.
  intros [Hrun Hg Hpass Hrec] Hx E Hg' Hheld. split; [by apply run_snoc|done|..]; cbn [fst snd].
  - intros h Hh. pose proof (go_dedup _ _ _ _ _ _ _ _ Hg) as (d1 & Ed & Hd1).
    assert (h ∈ s.2 ∧ clears d h x.2 = false) as [Hin Hcl].
    { unfold passed_do in Hh. rewrite Ed in Hh. destruct x as [t [tss|i k|now]]; [by destruct (Hx tss)|..];
        apply elem_of_filter in Hh as [Hc ?]; by rewrite (clears_interval d d1) in Hc. }
    destruct (Hpass h Hin) as (ts & t0 & l2 & ? & ? & ? & ? & Hn). exists ts, t0, (l2 ++ [x]). do 3 (split; [done|]).
    split; [|by apply (noted_step dn A1)]. apply Forall_app. split; [done|]. by apply Forall_singleton.
  - intros t tss ts [Hin|Hin%list_elem_of_singleton]%elem_of_app Hts; [|by destruct (Hx tss); rewrite <- Hin].
    destruct (Hrec t tss ts Hin Hts) as (t0 & l2 & ? & Hn). exists t0, (l2 ++ [x]). split; [done|]. by apply (noted_step dn A1).
Qed.

Lemma run_receive dn t tss rest s A1 : evs = dn ++ (t, Receive tss) :: rest → run_inv dn s A1 →
  ∃ s' A2, tracked_do s (t, Receive tss) = Some s' ∧ run_inv (dn ++ [(t, Receive tss)]) s' A2.
Proof.
  intros E [Hrun Hg Hpass Hrec]. assert ((t, Receive tss) ∈ evs) as Hin by (rewrite E, elem_of_app; right; left).
  destruct (tl_batches _ _ _ _ _ _ _ _ _ HT t tss Hin) as (Hb & Hne & Htb).
  assert (∀ ts, ts ∈ tss → received evs ts) as Hreceived by (intros ts Hts; by exists t, tss).
  destruct (going_receive _ _ _ _ _ _ _ _ tss Hg Hb Hne)
    as (w' & A2 & d1 & d2 & fwd & Ew & Hg' & Hheld & Ed & Ef & Ed2 & Hsub & Hall & Hnew).
  { intros Hgl. destruct (HK Hgl) as [? Hkeys]. split; [done|]. apply Forall_forall. auto. }
  set (x := (t, Receive tss)) in *. set (R' := s.2 ∪ list_to_set (map Fingerprint fwd)).
  assert (passed_do s.1 s.2 x.2 = R') as ER by (unfold passed_do; rewrite Ed; cbn [x snd]; by rewrite Ef).
  pose proof (run_snoc dn s x w' Hrun Ew) as Hrun'. rewrite ER in Hrun'.
  assert (∀ h, h ∈ R' → ∃ ts t0 l2, Fingerprint ts = h ∧ received evs ts ∧ b0 - bucketDur d <= t0 ∧
    Forall (λ x, clears d h x.2 = false) l2 ∧ noted (dn ++ [x]) A2 ts t0 l2) as Hpass'.
  { intros h [Hh|Hh]%elem_of_union.
    - destruct (Hpass h Hh) as (ts & t0 & l2 & ? & ? & ? & ? & Hn). exists ts, t0, (l2 ++ [x]). do 3 (split; [done|]).
      split; [apply Forall_app; split; [done|by apply Forall_singleton]|]. apply (noted_step dn A1); [done|].
      intros c o. cbn [x snd turns_of]. rewrite Nat.add_0_r. apply Hheld.
    - apply elem_of_list_to_set, list_elem_of_fmap in Hh as (ts & -> & Hts). exists ts, t, []. split; [done|].
      split; [apply Hreceived; by apply (elem_of_sublist fwd)|]. split; [done|]. split; [done|]. exists dn, (Receive tss).
      split; [done|]. intros ov Hov. by apply (Hnew ts). }
  exists (w', R'), A2. split; [unfold tracked_do; cbn [x snd world_do]; rewrite Ew; cbn [mbind option_bind]; by rewrite <- ER|].
  split; [done|done|done|]. cbn [fst snd]. intros t1 tss1 ts [Hin1|Hin1%list_elem_of_singleton]%elem_of_app Hts.
  { destruct (Hrec t1 tss1 ts Hin1 Hts) as (t0 & l2 & ? & Hn). exists t0, (l2 ++ [x]). split; [done|].
    apply (noted_step dn A1); [done|]. intros c o. cbn [x snd turns_of]. rewrite Nat.add_0_r. apply Hheld. }
  injection Hin1 as -> ->.
  assert (Fingerprint ts ∈ R') as HR.
  { destruct (Hall ts Hts) as [Hf|Hs]; [apply elem_of_union_r; by apply elem_of_list_to_set|].
    apply (Hnfp (S (length dn)) (w', R') d2 ts); [|done|auto|done].
    rewrite E. change (dn ++ x :: rest) with (dn ++ [x] ++ rest). rewrite app_assoc.
    rewrite take_app_length' by (rewrite length_app; simpl; lia). exact Hrun'. }
  destruct (Hpass' _ HR) as (ts' & t0 & l2 & Efp & Hrec' & Ht0 & Hcl & Hn). assert (ts' = ts) as -> by (apply Hinj; auto).
  exists t0, l2. split; [|done]. destruct Hn as (l1 & ev0 & Edn & _).
  pose proof (not_cleared w d j period g b0 lag T evs Hu HT (Fingerprint ts) l1 t0 ev0 l2 dn t (Receive tss) rest E Edn Ht0 Hcl). lia.
Qed.

Lemma run_goes A : going d j (length (w_estimators w)) p e K w A →
  ∃ s A', run_inv evs s A'.
Proof.
  intros Hg. enough (∀ rest dn s A1, evs = dn ++ rest → run_inv dn s A1 → ∃ s' A', run_inv evs s' A') as H.
  { apply (H evs [] (w, ∅) A eq_refl). split; [done|done|..].
    - intros h Hh. by apply elem_of_empty in Hh.
    - intros t tss ts Hin. by apply elem_of_nil in Hin. }
  intros rest. induction rest as [|[t ev] rest IH]; intros dn s A1 E HI; [rewrite app_nil_r in E; rewrite E; eauto|].
  assert ((t, ev) ∈ evs) as Hin by (rewrite E, elem_of_app; right; left).
  assert (evs = (dn ++ [(t, ev)]) ++ rest) as E' by by rewrite <- app_assoc.
  pose proof (ri_going _ _ _ HI) as Hg1. destruct ev as [tss|i k|now].
  - destruct (run_receive dn t tss rest s A1 E HI) as (s' & A2 & _ & HI'). by apply (IH _ s' A2 E').
  - destruct (going_rotate _ _ _ _ _ _ _ _ i k Hg1) as (w' & A2 & Ew & Hg2 & Hheld); [by apply (tl_estimators _ _ _ _ _ _ _ _ _ HT t i k)|].
    apply (IH _ (w', passed_do s.1 s.2 (RotateTick i k)) A2 E'). by apply (run_tick dn (t, RotateTick i k) s A1).
  - destruct (going_filter _ _ _ _ _ _ _ _ now Hg1 Hu) as (w' & Ew & Hg2); [by apply (tl_clock _ _ _ _ _ _ _ _ _ HT t now)|].
    apply (IH _ (w', passed_do s.1 s.2 (FilterTick now)) A1 E'). apply (run_tick dn (t, FilterTick now) s A1); try done.
    intros c o. by rewrite Nat.add_0_r.
Qed.
End Run.

(** C4: a deduplicator does not make the estimators forget.  Let requests,
    turns of an estimator's rotation and turns of the deduplicator's follow
    each other in any order, the turns at most [lag] late, the group limit not
    reached and no bloom filter giving a false positive.  Nothing panics, and
    at the end, at [T], the estimator still reports every series received
    since half its interval less the interval of the deduplicator, twice the
    lag and a nanosecond per bucket, although most of them were held back.  So
    a deduplication interval of a third of the shortest interval, as the
    documentation advises, is safe, and one below half of it. *)
Theorem held_back_reported p w d j e A K period g b0 lag T evs :
  world_sound w → w_dedup w = Some d → 0 < bucketDur d → w_estimators w !! j = Some e → est_repr p e A →
  let n := Z.of_nat (length (e_buckets e)) in let interval := Interval (e_cfg e) in
  2 * n <= interval → bucketInterval interval (length (e_buckets e)) = Some period → 0 <= lag →
  timeline w d j period g b0 lag T evs → no_false_positives w evs →
  (∀ ts1 ts2, received evs ts1 → received evs ts2 → Fingerprint ts1 = Fingerprint ts2 → ts1 = ts2) →
  (is_global e = false → all_keys A ⊆ K ∧ Z.of_nat (size K) <= gs_limit (e_groupSize e) ∧ ∀ ts, received evs ts → keys_in e K ts) →
  ∃ s e' A', world_run w evs = Some s ∧ w_estimators s.1 !! j = Some e' ∧ est_repr p e' A' ∧
    ∀ t tss ts ov, (t, Receive tss) ∈ evs → ts ∈ tss → ov ∈ matched_ops e ts →
      2 * (T - t + dd_interval d + 2 * lag + n) < interval → op_fp ov.1 ∈ hashes (window A') (op_key ov.1).
Proof.
  intros Hw Ed Hu Ee H n interval Hi Ep Hlag HT Hnfp Hinj HK. pose proof (er_len p e A H) as Hlen.
  pose proof (er_nonempty p e A H) as Hpos.
  destruct (bucketInterval_bounds interval (length (e_buckets e))) as (period' & Ep' & Hp & Hper); [lia|done|].
  rewrite Ep in Ep'. injection Ep' as <-.
  assert (going d j (length (w_estimators w)) p e K w A) as Hg.
  { split; [done|done|by exists d|]. exists e. split; [done|]. split; [apply same_static_refl| |done|done|by intros [? _]%HK].
    by apply (Forall_lookup_1 _ _ _ _ (ws_estimators w Hw) Ee). }
  destruct (run_goes p w d j e K period g b0 lag T evs Hu HT Hnfp Hinj) with (A := A) as (s & A' & HI); [|done|].
  { intros Hgl. destruct (HK Hgl) as (_ & ? & ?). by split. }
  destruct (go_est _ _ _ _ _ _ _ _ (ri_going _ _ _ _ _ _ _ _ _ _ _ _ HI)) as (e' & Ee' & Ht).
  exists s, e', A'. split; [apply HI|]. split; [done|]. split; [apply Ht|]. intros t tss ts ov Hin Hts Hov Hrecent.
  destruct (ri_received _ _ _ _ _ _ _ _ _ _ _ _ HI t tss ts Hin Hts) as (t0 & l2 & Ht0 & l1 & ev0 & E & Hheld).
  specialize (Hheld ov Hov). rewrite (bucket_index_length _ A') in Hheld by (symmetry; apply Ht).
  revert Hheld. apply held_window.
  apply (rotated_twice w d j period g b0 lag T evs Hp HT _ _ l1 (t0, ev0) l2); [lia|done|]. cbn [fst].
  assert (10 * bucketDur d <= dd_interval d) as Hd.
  { unfold bucketDur in *. destruct (Z.le_gt_cases 0 (dd_interval d)); [|].
    - rewrite Z.quot_div_nonneg in * by lia. apply Z.mul_div_le. lia.
    - pose proof (Z.quot_opp_l (- dd_interval d) 10 ltac:(lia)) as Eq. rewrite Z.opp_involutive, (Z.quot_div_nonneg (- dd_interval d)) in Eq by lia.
      pose proof (Z.div_pos (- dd_interval d) 10 ltac:(lia) ltac:(lia)). lia. }
  unfold n, interval in *. lia.
Qed.

(** The [/reset] request empties the estimators but not the deduplicator: what
    it remembers is held back from the emptied estimators. *)
Lemma reset_holds_back w w1 d tss : reset_request w = Some w1 → world_sound w1 → w_dedup w = Some d → batch_ok tss →
  tss ≠ [] → (∀ ts, ts ∈ tss → seen d (Fingerprint ts)) →
  ∃ w2, write_callback w1 tss = Some w2 ∧ w_estimators w2 = w_estimators w1.
Proof.
  intros E Hs Ed Hb Hne Hseen. unfold reset_request in E. apply bind_Some in E as (es & _ & [= <-]).
  destruct (write_callback_ok _ tss Hs Hb Hne) as (w2 & E2 & _ & fwd & Hfwd & Hw2). exists w2. split; [done|].
  unfold forwarded in Hfwd. cbn [w_dedup] in Hfwd. rewrite Ed in Hfwd. destruct Hfwd as (d2 & Ef & _ & Hsub).
  destruct (filter_run d tss []) as (d3 & out & Ef' & Hinv).
  - by apply (ws_dedup _ Hs).
  - destruct Hb as [_ Hb]. eapply Forall_impl; [exact Hb|]. by intros ? [].
  - rewrite Ef in Ef'. injection Ef' as _ ->. destruct out as [|ts out]; [by rewrite decide_True in Hw2|].
    destruct (fi_fresh _ _ _ _ Hinv ts); [left|]. apply Hseen, (elem_of_sublist (ts :: out)); [left|apply Hinv].
Qed.
End Proofs.

(** * At a concrete input *)
Definition demo_evs : list (Z * world_event) :=
  [(595 * second, Receive demo_tss); (600 * second, FilterTick (597 * second)); (601 * second, RotateTick 0 0);
   (602 * second, Receive demo_tss)].
Definition demo_dedup_world {Ops : SketchOps} {Ql : MetricsQL} (e : estimator) : world := mkWorld [e] true (Some demo_dd) ∅ None no_chans.

Lemma demo_evs_lookup q x : demo_evs !! q = Some x →
  (q = 0%nat ∧ x = (595 * second, Receive demo_tss)) ∨ (q = 1%nat ∧ x = (600 * second, FilterTick (597 * second))) ∨
  (q = 2%nat ∧ x = (601 * second, RotateTick 0 0)) ∨ (q = 3%nat ∧ x = (602 * second, Receive demo_tss)).
Proof. destruct q as [|[|[|[|q]]]]; intros [= <-]; auto 6. Qed.

Lemma demo_timeline (e : @estimator set_sketch_ops demo_ql) :
  timeline (demo_dedup_world e) demo_dd 0 (37500 * 1000000) (600 * second) (600 * second) second (603 * second) demo_evs.
Proof.
  split.
  - intros p q x y Hpq Ex Ey. apply demo_evs_lookup in Ex, Ey. unfold second.
    destruct Ex as [[-> ->]|[[-> ->]|[[-> ->]|[-> ->]]]], Ey as [[-> ->]|[[-> ->]|[[-> ->]|[-> ->]]]]; cbn [fst]; unfold second; lia.
  - intros x [q Ex]%list_elem_of_lookup. apply demo_evs_lookup in Ex. unfold second.
    destruct Ex as [[_ ->]|[[_ ->]|[[_ ->]|[_ ->]]]]; cbn [fst]; unfold second; lia.
  - intros t tss [q Ex]%list_elem_of_lookup. apply demo_evs_lookup in Ex. change (bucketDur demo_dd) with (6 * second). unfold second.
    destruct Ex as [[_ [= -> ->]]|[[_ [=]]|[[_ [=]]|[_ [= -> ->]]]]]; (split; [apply demo_tss_ok|]; split; [done|unfold second; lia]).
  - intros t i k [q Ex]%list_elem_of_lookup. apply demo_evs_lookup in Ex.
    destruct Ex as [[_ [=]]|[[_ [=]]|[[_ [= -> -> ->]]|[_ [=]]]]]. cbn. lia.
  - intros t k [q Ex]%list_elem_of_lookup. apply demo_evs_lookup in Ex. unfold second.
    destruct Ex as [[_ [=]]|[[_ [=]]|[[_ [= -> ->]]|[_ [=]]]]]. unfold second. lia.
  - intros p q t t' k Ex Ey. apply demo_evs_lookup in Ex, Ey.
    destruct Ex as [[_ [=]]|[[_ [=]]|[[-> _]|[_ [=]]]]], Ey as [[_ [=]]|[[_ [=]]|[[-> _]|[_ [=]]]]]. done.
  - intros t now [q Ex]%list_elem_of_lookup. apply demo_evs_lookup in Ex. unfold second.
    destruct Ex as [[_ [=]]|[[_ [= -> ->]]|[[_ [=]]|[_ [=]]]]]. unfold second. lia.
  - done.
  - change (bucketDur demo_dd) with (6 * second). unfold second. intros k Hk. replace k with 0%nat by lia.
    exists (600 * second), (597 * second). split; [right; left|]. split; [reflexivity|]. unfold second. lia.
Qed.

Lemma demo_series ts : received demo_evs ts → ts ∈ demo_tss.
Proof.
  intros (t & tss & [q Ex]%list_elem_of_lookup & Hts). apply demo_evs_lookup in Ex.
  by destruct Ex as [[_ [= -> ->]]|[[_ [=]]|[[_ [=]]|[_ [= -> ->]]]]].
Qed.

(** No false positives, by running the events. *)
Definition demo_checked (w : @world set_sketch_ops demo_ql) (m : nat) : bool :=
  match world_run (Xx := demo_hash) (Rnd := demo_rand) w (take m demo_evs) with
  | Some s =>
      match w_dedup s.1 with
      | Some d => forallb (λ ts, negb (bool_decide (seen d (Fingerprint ts))) || bool_decide (Fingerprint ts ∈ s.2)) demo_tss
      | None => false
      end
  | None => false
  end.
Lemma demo_all_checked :
  match @newEstimator set_sketch_ops demo_ql 1 0 (demo_stream []) with
  | Some (Ok e) => forallb (demo_checked (demo_dedup_world e)) (seq 0 5)
  | _ => false
  end = true.
Proof. vm_compute. reflexivity. Qed.

Lemma demo_no_false_positives e : @newEstimator set_sketch_ops demo_ql 1 0 (demo_stream []) = Some (Ok e) →
  no_false_positives (Xx := demo_hash) (Rnd := demo_rand) (demo_dedup_world e) demo_evs.
Proof.
  intros He m s d ts E Ed Hts%demo_series Hs. pose proof demo_all_checked as H. rewrite He in H.
  assert (demo_checked (demo_dedup_world e) (Nat.min m 4) = true) as Hm.
  { rewrite forallb_forall in H. apply H. apply in_seq. lia. }
  unfold demo_checked in Hm.
  assert (take (Nat.min m 4) demo_evs = take m demo_evs) as Em.
  { destruct (Nat.le_gt_cases m 4); [by rewrite Nat.min_l by lia|]. rewrite Nat.min_r by lia. symmetry. apply take_ge. simpl. lia. }
  rewrite Em, E, Ed, forallb_forall in Hm. specialize (Hm ts (proj1 (list_elem_of_In _ _) Hts)).
  rewrite bool_decide_true in Hm by exact Hs. by apply bool_decide_eq_true in Hm.
Qed.

Lemma held_back_reported_witness :
  ∃ e s e' A', @newEstimator set_sketch_ops demo_ql 1 0 (demo_stream []) = Some (Ok e) ∧
    world_run (Xx := demo_hash) (Rnd := demo_rand) (demo_dedup_world e) demo_evs = Some s ∧
    w_estimators s.1 !! 0%nat = Some e' ∧ est_repr (Spec := set_sketch_spec) 14 e' A' ∧ 101 ∈ hashes (window A') 0.
Proof.
  destruct demo_global as (e & He & _ & Hf & Hg & _ & Hl & Hcf & H).
  assert (e_cfg e = demo_stream []) as Hc.
  { destruct (newEstimator_run (Spec := set_sketch_spec) (Ql := demo_ql) 1 0 (demo_stream []) (demo_stream_wf [] [] demo_global_prepared))
      as (r & Er & Hr). rewrite He in Er. injection Er as <-. apply Hr. }
  destruct (held_back_reported (Spec := set_sketch_spec) (Xx := demo_hash) (XxhashOk0 := demo_hash_ok) (Ql := demo_ql)
    (Rnd := demo_rand) (FastRandOk0 := demo_rand_ok) 14 (demo_dedup_world e) demo_dd 0 e (replicate 4 (init_state (is_global e))) ∅ (37500 * 1000000) (600 * second)
    (600 * second) second (603 * second) demo_evs)
    as (s & e' & A' & E & Ee & HA & Hin).
  - split; [|simpl; lia|]; cbn [w_estimators w_dedup demo_dedup_world].
    + constructor; [|constructor]. split; [exact Hf|]. eexists _, _. exact H.
    + intros d [= <-]. apply demo_dd_ok.
  - reflexivity.
  - apply demo_dd_ok.
  - reflexivity.
  - exact H.
  - rewrite Hl, Hc. vm_compute. congruence.
  - rewrite Hl, Hc. reflexivity.
  - vm_compute. congruence.
  - apply demo_timeline.
  - by apply demo_no_false_positives.
  - intros ts1 ts2 H1%demo_series H2%demo_series. unfold demo_tss in H1, H2.
    apply elem_of_cons in H1 as [->|H1%list_elem_of_singleton]; apply elem_of_cons in H2 as [->|H2%list_elem_of_singleton]; subst; done.
  - intros Hgl. unfold is_global in Hgl. rewrite Hg in Hgl. discriminate Hgl.
  - exists e, s, e', A'. do 4 (split; [assumption|]).
    apply (Hin (602 * second) demo_tss (mkTimeSerie [mkLabel "job" "a" 11; mkLabel "env" "prod" 12] 101) (mkOp 101 101 0, [])).
    + right. right. right. left.
    + left.
    + unfold matched_ops. rewrite Hcf, Hg. left.
    + rewrite Hl, Hc. vm_compute. reflexivity.
Defined.
