(* ===== verification/ReloadRace.v ===== *)
(** * ReloadRace: requests that run while the configuration is applied

    The callback of a write request (main.go) filters its series through the
    deduplicator, then loads the list of estimators, then inserts.  Meanwhile
    [loadConfig] (config.go) stores another list and resets the deduplicator,
    one filter after the other, and the goroutines of the deduplicator and of
    the estimators rotate.  Each of these steps is atomic in the code (an
    [atomic.Pointer] or [atomic.Value], or an operation under locks); here any
    of them may come next.  The order of the steps decides whether an estimator
    created by the reload can miss series: a series the deduplicator remembers
    is held back from then on, so whoever made it remember has to bring it to
    the new estimators. *)
From Stdlib Require Import String.
From S2P Require Import Prelude GoText Types Config SketchSpec GroupSize Snapshot Estimator EstimatorInsert EstimatorWindow.
From S2P Require Import EstimatorLife EstimatorTyped EstimatorExamples Bloom Dedup Churn Reload CompressedList ProtoReader Snappy Proto.
From S2P Require Import WriteHandler.
Local Open Scope Z_scope.

Section Defs.
Context `{Ops : SketchOps} `{Ord : IterOrder} `{Xx : Xxhash} `{Ql : MetricsQL} `{Rnd : FastRand}.

(** What happened, for the statements: callback [t] added a series to filter
    [r], or inserted a batch into estimator [o] from [start]; a bucket of
    estimator [o] was rotated. *)
Inductive happening :=
| Added (t r : nat) (ts : TimeSerie)
| Inserted (t o : nat) (fwd : list TimeSerie) (start : Z)
| Rotated (o b : nat).

(** Where [loadConfig] is: before the list of estimators is stored or after
    the end, or before filter [i] is reset. *)
Inductive loader := Idle | Resetting (i : nat).

(** The memory the goroutines share: all estimators and all filters ever made,
    by reference; the list [estimators] and the ten pointers [bfs] refer to
    them. *)
Record memory := mkMem {
  m_objs : list estimator;
  m_active : list nat;
  m_filters : list deduplicatorBloomFilter;
  m_bfs : list nat;
  m_loader : loader;
  m_history : list happening
}.

(** A callback: the series still to filter, those to forward, and where it is.
    [GotFilter], [NotSeen] and [HasRoom] are in the loop of [filter], for the
    first series to do, after [bfs[h%10].Load()], after [contains] and after
    [size.Load()]; [Delivering] is before round [j] of the loop over the
    estimators it has loaded. *)
Inductive place :=
| AtSeries
| GotFilter (r : nat)
| NotSeen (r : nat)
| HasRoom (r : nat)
| Delivering (es : list nat) (j : Z)
| Returned.
Record callback := mkCallback { cb_todo : list TimeSerie; cb_fwd : list TimeSerie; cb_place : place }.
Definition start_callback (tss : list TimeSerie) : callback := mkCallback tss [] AtSeries.

Definition set_place (c : callback) (p : place) : callback := mkCallback (cb_todo c) (cb_fwd c) p.
(** The next series; [pass] if this one is forwarded. *)
Definition next_series (c : callback) (ts : TimeSerie) (pass : bool) : callback :=
  mkCallback (tail (cb_todo c)) (if pass then cb_fwd c ++ [ts] else cb_fwd c) AtSeries.

Definition set_filter (m : memory) (r : nat) (f : deduplicatorBloomFilter) (h : happening) : memory :=
  mkMem (m_objs m) (m_active m) (<[r := f]> (m_filters m)) (m_bfs m) (m_loader m) (m_history m ++ [h]).
Definition set_obj (m : memory) (o : nat) (e : estimator) (h : happening) : memory :=
  mkMem (<[o := e]> (m_objs m)) (m_active m) (m_filters m) (m_bfs m) (m_loader m) (m_history m ++ [h]).
(** [d.bfs[i].Store(newDeduplicatorBloomFilter(d.bucketMaxSize))]. *)
Definition store_filter (bucketMaxSize : Z) (m : memory) (i : nat) (l : loader) : memory :=
  mkMem (m_objs m) (m_active m) (m_filters m ++ [newDeduplicatorBloomFilter bucketMaxSize])
    (<[i := length (m_filters m)]> (m_bfs m)) l (m_history m).

(** The series at hand and the filter [r]. *)
Definition at_hand (m : memory) (c : callback) (r : nat) : option (TimeSerie * deduplicatorBloomFilter) :=
  ts ← head (cb_todo c); bf ← m_filters m !! r; Some (ts, bf).

(** The next step of callback [t]. *)
Definition cb_step (bucketMaxSize : Z) (t : nat) (m : memory) (c : callback) : option (memory * callback) :=
  match cb_place c with
  | AtSeries =>
      match cb_todo c with
      | [] => Some (m, set_place c (if (length (cb_fwd c) =? 0)%nat then Returned else Delivering (m_active m) 0))
      | ts :: _ => r ← m_bfs m !! Z.to_nat (Fingerprint ts mod 10); Some (m, set_place c (GotFilter r))
      end
  | GotFilter r =>
      '(ts, bf) ← at_hand m c r;
      contained ← bloom_contains bf (Fingerprint ts);
      Some (m, if (contained : bool) then next_series c ts false else set_place c (NotSeen r))
  | NotSeen r =>
      '(ts, bf) ← at_hand m c r;
      Some (m, if bf_size bf <? bucketMaxSize then set_place c (HasRoom r) else next_series c ts true)
  | HasRoom r =>
      '(ts, bf) ← at_hand m c r;
      bf ← fst <$> bloom_add bf (Fingerprint ts);
      Some (set_filter m r bf (Added t r ts), next_series c ts true)
  | Delivering es j =>
      let esLen := wrap 32 (Z.of_nat (length es)) in
      if j <? esLen then
        o ← es !! Z.to_nat (estimator_index (Uint32n 0 esLen) esLen j);
        e ← m_objs m !! o;
        let start := Uint32n (S (Z.to_nat j)) (Z.of_nat (length (cb_fwd c))) in
        e ← insertMany e (cb_fwd c) start;
        Some (set_obj m o e (Inserted t o (cb_fwd c) start), set_place c (Delivering es (j + 1)))
      else Some (m, set_place c Returned)
  | Returned => None
  end.

(** ** [loadConfig] *)
Definition refs_by_id (objs : list estimator) (active : list nat) : gmap string nat :=
  foldl (λ m o, match objs !! o with Some e => <[e_id e := o]> m | None => m end) ∅ active.

Inductive match_refs_result :=
| RFail (msg : string)
| RDone (es : list nat) (created : list estimator) (removed : gmap string nat).

(** The loop over the streams; the estimators it creates come after [objs],
    each with a channel of its own. *)
Fixpoint match_refs (cpus : Z) (objs : list estimator) (streams : list EstimatorConfig) (es : list nat)
    (created : list estimator) (removed : gmap string nat) : option match_refs_result :=
  match streams with
  | [] => Some (RDone es created removed)
  | ec :: rest =>
      match o ← removed !! config_id ec; e ← objs !! o; if decide (e_cfg e = ec) then Some o else None with
      | Some o => match_refs cpus objs rest (es ++ [o]) created (delete (config_id ec) removed)
      | None =>
          r ← newEstimator cpus (length objs + length created) ec;
          match r with
          | Error msg => Some (RFail msg)
          | Ok e => match_refs cpus objs rest (es ++ [length objs + length created]%nat) (created ++ [e]) removed
          end
      end
  end.

Definition load_step (cpus bucketMaxSize : Z) (streams : list EstimatorConfig) (m : memory) : option memory :=
  match m_loader m with
  | Idle =>
      r ← match_refs cpus (m_objs m) streams [] [] (refs_by_id (m_objs m) (m_active m));
      Some (match r with
            | RFail _ => m
            | RDone es created removed =>
                if decide (created = [] ∧ removed = ∅) then m
                else mkMem (m_objs m ++ created) es (m_filters m) (m_bfs m)
                       (match created with [] => Idle | _ => Resetting 0 end) (m_history m)
            end)
  | Resetting i =>
      Some (if (i <? length (m_bfs m))%nat then store_filter bucketMaxSize m i (Resetting (S i))
            else mkMem (m_objs m) (m_active m) (m_filters m) (m_bfs m) Idle (m_history m))
  end.

(** ** Everything at once *)
Inductive race_step (cpus bucketMaxSize : Z) : memory * list callback → memory * list callback → Prop :=
| race_callback m pool t c m' c' : pool !! t = Some c → cb_step bucketMaxSize t m c = Some (m', c') →
    race_step cpus bucketMaxSize (m, pool) (m', <[t := c']> pool)
| race_load m pool streams m' : Forall config_wf streams → Z.of_nat (length streams) < 2 ^ 31 →
    load_step cpus bucketMaxSize streams m = Some m' → race_step cpus bucketMaxSize (m, pool) (m', pool)
| race_clear m pool i : (i < length (m_bfs m))%nat →
    race_step cpus bucketMaxSize (m, pool) (store_filter bucketMaxSize m i (m_loader m), pool)
| race_rotate m pool o e b e' : m_objs m !! o = Some e → (b < length (e_buckets e))%nat →
    estimator_rotate_bucket e b = Some e' →
    race_step cpus bucketMaxSize (m, pool) (set_obj m o e' (Rotated o b), pool).

(** The same, run along a schedule. *)
Inductive turn_of := Request (t : nat) | Load (streams : list EstimatorConfig) | Clear (i : nat) | Rotate (o b : nat).
Definition race_turn (cpus bucketMaxSize : Z) (s : memory * list callback) (x : turn_of)
    : option (memory * list callback) :=
  let '(m, pool) := s in
  match x with
  | Request t => c ← pool !! t; '(m, c) ← cb_step bucketMaxSize t m c; Some (m, <[t := c]> pool)
  | Load streams => m ← load_step cpus bucketMaxSize streams m; Some (m, pool)
  | Clear i => if (i <? length (m_bfs m))%nat then Some (store_filter bucketMaxSize m i (m_loader m), pool) else None
  | Rotate o b =>
      e ← m_objs m !! o;
      if (b <? length (e_buckets e))%nat then e ← estimator_rotate_bucket e b; Some (set_obj m o e (Rotated o b), pool)
      else None
  end.
Definition race_run (cpus bucketMaxSize : Z) (xs : list turn_of) (s : memory * list callback) :=
  for_each (race_turn cpus bucketMaxSize) xs s.
End Defs.

Section Proofs.
Context `{Spec : SketchSpec} `{Ord : IterOrder, !IterOrderOk Ord} `{Xx : Xxhash, !XxhashOk Xx} `{Ql : MetricsQL}
  `{Rnd : FastRand, !FastRandOk Rnd}.

(** ** Who brings a series to an estimator *)
Definition estimator_at (es : list nat) (j : Z) : option nat :=
  let esLen := wrap 32 (Z.of_nat (length es)) in es !! Z.to_nat (estimator_index (Uint32n 0 esLen) esLen j).
Definition will_deliver (c : callback) (o : nat) : Prop :=
  match cb_place c with
  | Delivering es j => ∃ j', j <= j' < Z.of_nat (length es) ∧ estimator_at es j' = Some o
  | Returned => False
  | _ => True
  end.
(** It was inserted, or the callback will insert it. *)
Definition delivered (hs : list happening) (t o : nat) (ts : TimeSerie) : Prop :=
  ∃ fwd start, Inserted t o fwd start ∈ hs ∧ ts ∈ fwd.
Definition settled (hs : list happening) (pool : list callback) (t o : nat) (ts : TimeSerie) : Prop :=
  delivered hs t o ts ∨ ∃ c, pool !! t = Some c ∧ ts ∈ cb_fwd c ∧ will_deliver c o.

Lemma estimator_at_total es o : Z.of_nat (length es) < 2 ^ 31 → o ∈ es →
  ∃ j, 0 <= j < Z.of_nat (length es) ∧ estimator_at es j = Some o.
Proof.
  intros Hl [i Hi]%list_elem_of_lookup. pose proof (lookup_lt_Some _ _ _ Hi). set (n := Z.of_nat (length es)) in *.
  assert (Z.of_nat i < n) as Hin by (unfold n; lia).
  pose proof (Uint32n_range 0 n ltac:(lia)) as Hs. rewrite Z.max_r in Hs by lia.
  set (start := Uint32n 0 n) in *. pose proof (estimator_index_perm start n ltac:(lia) Hl) as Hp.
  assert (i ∈ map (λ j, Z.to_nat (estimator_index start n j)) (seqZ 0 n)) as (j & Ej & Hj%elem_of_seqZ)%list_elem_of_fmap.
  { rewrite Hp, elem_of_app, !elem_of_seq. lia. }
  exists j. split; [lia|]. unfold estimator_at. fold n. rewrite (wrap_small 32) by (unfold uint; lia). fold start. by rewrite <- Ej.
Qed.

Lemma estimator_at_some es j : Z.of_nat (length es) < 2 ^ 31 → 0 <= j < Z.of_nat (length es) → is_Some (estimator_at es j).
Proof.
  intros Hl Hj. unfold estimator_at. set (n := Z.of_nat (length es)) in *. rewrite (wrap_small 32) by (unfold uint; lia).
  apply lookup_lt_is_Some_2. unfold estimator_index. set (start := Uint32n 0 n).
  pose proof (Z.mod_pos_bound (start +[32] j) n ltac:(lia)). lia.
Qed.

Lemma delivered_app hs hs' t o ts : delivered hs t o ts → delivered (hs ++ hs') t o ts.
Proof. intros (fwd & start & H & Hts). exists fwd, start. split; [apply elem_of_app; by left|done]. Qed.

Lemma settled_app hs h pool t o ts : settled hs pool t o ts → settled (hs ++ h) pool t o ts.
Proof. intros [H|H]; [left; by apply delivered_app|by right]. Qed.

Lemma settled_pool hs pool t0 c c' t o ts : pool !! t0 = Some c →
  (ts ∈ cb_fwd c → will_deliver c o → delivered hs t0 o ts ∨ (ts ∈ cb_fwd c' ∧ will_deliver c' o)) →
  settled hs pool t o ts → settled hs (<[t0 := c']> pool) t o ts.
Proof.
  intros E0 Hc [H|(c1 & E & Hts & Hw)]; [by left|]. destruct (decide (t0 = t)) as [->|Ht].
  - rewrite E0 in E. injection E as <-. destruct (Hc Hts Hw) as [H|[H1 H2]]; [by left|right]. exists c'.
    split; [|by split]. apply list_lookup_insert_eq. by eapply lookup_lt_Some.
  - right. exists c1. by rewrite list_lookup_insert_ne.
Qed.

(** ** The invariant *)
Definition events_of (o : nat) (hs : list happening) : list est_event :=
  omap (λ h, match h with
             | Inserted _ o' fwd start => if decide (o' = o) then Some (EvInsert fwd start) else None
             | Rotated o' b => if decide (o' = o) then Some (EvRotate b) else None
             | Added _ _ _ => None
             end) hs.

Definition callback_ok (m : memory) (c : callback) : Prop :=
  batch_ok (cb_fwd c ++ cb_todo c) ∧
  match cb_place c with
  | GotFilter r | NotSeen r | HasRoom r => (r < length (m_filters m))%nat ∧ cb_todo c ≠ []
  | Delivering es j => Forall (λ o, (o < length (m_objs m))%nat) es ∧ Z.of_nat (length es) < 2 ^ 31 ∧ 0 <= j
  | _ => True
  end.

Definition is_reset (l : loader) (k : nat) : Prop := match l with Idle => True | Resetting i => (k < i)%nat end.

(** The objects and references are in order. *)
Record memory_ok (m : memory) : Prop := {
  mo_objs : Forall est_sound (m_objs m);
  mo_active : Forall (λ o, (o < length (m_objs m))%nat) (m_active m);
  mo_length : Z.of_nat (length (m_active m)) < 2 ^ 31;
  mo_filters : Forall bloom_ok (m_filters m);
  mo_ten : length (m_bfs m) = 10%nat;
  mo_bfs : Forall (λ r, (r < length (m_filters m))%nat) (m_bfs m)
}.
(** The filters made since the last list with a new estimator was stored are
    those from [fresh] on. *)
Record race_ok (fresh : nat) (m : memory) (pool : list callback) : Prop := {
  ro_memory : memory_ok m;
  ro_pool : Forall (callback_ok m) pool;
  ro_fresh : (fresh <= length (m_filters m))%nat;
  ro_reset : ∀ k r, m_bfs m !! k = Some r → is_reset (m_loader m) k → (fresh <= r)%nat;
  ro_added : ∀ t r ts, Added t r ts ∈ m_history m → (r < length (m_filters m))%nat ∧
    ((fresh <= r)%nat → ∀ o, o ∈ m_active m → settled (m_history m) pool t o ts)
}.

Lemma callback_ok_mono m m' c : (length (m_filters m) <= length (m_filters m'))%nat →
  (length (m_objs m) <= length (m_objs m'))%nat → callback_ok m c → callback_ok m' c.
Proof.
  intros Hf Ho [Hb H]. split; [done|]. destruct (cb_place c); try done; [split; [lia|tauto]..|].
  destruct H as (H & ? & ?). split; [|done]. eapply Forall_impl; [exact H|]. intros o ?. simpl in *. lia.
Qed.

(** ** Every step keeps it *)
Lemma race_local fresh m pool t c c' : race_ok fresh m pool → pool !! t = Some c → callback_ok m c' →
  (∀ o ts, o ∈ m_active m → ts ∈ cb_fwd c → will_deliver c o →
     delivered (m_history m) t o ts ∨ (ts ∈ cb_fwd c' ∧ will_deliver c' o)) →
  race_ok fresh m (<[t := c']> pool).
Proof.
  intros [Hm Hp Hf Hr Ha] E Hc Hw. split; [done|by apply Forall_insert|done|done|].
  intros t1 r ts Hin. destruct (Ha t1 r ts Hin) as [Hl Hs]. split; [done|]. intros Hfr o Ho.
  apply (settled_pool _ pool t c c'); [done| |by apply Hs]. intros. by apply Hw.
Qed.

Lemma race_set_obj fresh m pool o e h : race_ok fresh m pool → est_sound e → (o < length (m_objs m))%nat →
  (∀ t r ts, h ≠ Added t r ts) → race_ok fresh (set_obj m o e h) pool.
Proof.
  intros [[Ho Hac Hl Hfi Ht Hb] Hp Hf Hr Ha] He Hlt Hh. split; [split|..]; cbn; try done.
  - by apply Forall_insert.
  - by rewrite length_insert.
  - eapply Forall_impl; [exact Hp|]. intros c. apply callback_ok_mono; cbn; [done|by rewrite length_insert].
  - intros t r ts [Hin|Hin%list_elem_of_singleton]%elem_of_app; [|by destruct (Hh t r ts)].
    destruct (Ha t r ts Hin) as [? Hs]. split; [done|]. intros. by apply settled_app, Hs.
Qed.

Lemma race_set_filter fresh m pool r f t ts : race_ok fresh m pool → bloom_ok f → (r < length (m_filters m))%nat →
  (∀ o, o ∈ m_active m → settled (m_history m) pool t o ts) → race_ok fresh (set_filter m r f (Added t r ts)) pool.
Proof.
  intros [[Ho Hac Hl Hfi Ht Hb] Hp Hf Hr Ha] He Hlt Hh. split; [split|..]; cbn; rewrite ?length_insert; try done.
  - by apply Forall_insert.
  - eapply Forall_impl; [exact Hp|]. intros c. apply callback_ok_mono; cbn; [by rewrite length_insert|done].
  - intros t1 r1 ts1 [Hin|[= -> -> ->]%list_elem_of_singleton]%elem_of_app.
    + destruct (Ha t1 r1 ts1 Hin) as [? Hs]. split; [done|]. intros. by apply settled_app, Hs.
    + split; [done|]. intros _ o Ho1. by apply settled_app, Hh.
Qed.

Lemma race_store_filter fresh m pool M i l : race_ok fresh m pool → 0 < M < 2 ^ 50 → (i < length (m_bfs m))%nat →
  (∀ k, is_reset l k → is_reset (m_loader m) k ∨ k = i) → race_ok fresh (store_filter M m i l) pool.
Proof.
  intros [[Ho Hac Hl Hfi Ht Hb] Hp Hf Hr Ha] HM Hi Hres. pose proof (new_bucket_ok M HM) as [Hnew _ _ _].
  split; [split|..]; cbn; rewrite ?length_app; cbn [length]; try done.
  - apply Forall_app. split; [done|]. by apply Forall_singleton.
  - by rewrite length_insert.
  - apply Forall_insert; [|lia]. eapply Forall_impl; [exact Hb|]. simpl. lia.
  - eapply Forall_impl; [exact Hp|]. intros c. apply callback_ok_mono; cbn; [rewrite length_app; lia|done].
  - lia.
  - intros k r Ek Hk. apply list_lookup_insert_Some in Ek as [(-> & <- & _)|[Hne Ek]]; [done|].
    destruct (Hres k Hk) as [Hk'| ->]; [by apply (Hr k)|done].
  - intros t r ts Hin. destruct (Ha t r ts Hin) as [? Hs]. split; [lia|done].
Qed.

Lemma match_refs_ok cpus objs (active : list nat) streams : ∀ es created removed, Forall config_wf streams →
  Forall est_sound created → (∀ id o, removed !! id = Some o → (o < length objs)%nat ∧ o ∈ active) →
  ∃ r, match_refs cpus objs streams es created removed = Some r ∧
    match r with
    | RFail _ => True
    | RDone es' created' removed' => ∃ new made, es' = es ++ new ∧ created' = created ++ made ∧
        length new = length streams ∧ Forall (λ o, (o < length objs + length created')%nat) new ∧
        Forall est_sound created' ∧ (made = [] → Forall (λ o, o ∈ active) new) ∧
        Forall (λ e, ∃ cpus ch ec, newEstimator cpus ch ec = Some (Ok e)) made
    end.
Proof.
  induction streams as [|ec streams IH]; intros es created removed Hwf Hc Hrem; cbn [match_refs].
  { eexists. split; [done|]. exists [], []. rewrite !app_nil_r. by split_and!. }
  apply Forall_cons in Hwf as [Hec Hwf]. destruct (o ← removed !! config_id ec; _) as [o|] eqn:Eo.
  - apply bind_Some in Eo as (o' & Er & Eo). apply bind_Some in Eo as (e & _ & Eo).
    destruct (decide _); [|done]. injection Eo as ->. destruct (Hrem _ _ Er) as [Hlo Hino].
    destruct (IH (es ++ [o]) created (delete (config_id ec) removed) Hwf Hc) as (r & -> & Hr).
    { intros id o' [_ H]%lookup_delete_Some. by apply (Hrem id). }
    eexists. split; [done|]. destruct r as [|es' created' removed']; [done|].
    destruct Hr as (new & made & -> & -> & Hln & Hnew & Hs & Hact & Hmade). exists (o :: new), made. rewrite <- app_assoc.
    split_and!; [done|done|simpl; lia|constructor; [lia|done]|done| |done]. intros Hm. constructor; [done|by apply Hact].
  - destruct (newEstimator_run cpus (length objs + length created) ec Hec) as (r & En & Hr). rewrite En. cbn [mbind option_bind]. destruct r as [e|msg]; [|by eexists].
    destruct Hr as (_ & _ & _ & Hf & _ & H).
    destruct (IH (es ++ [length objs + length created]%nat) (created ++ [e]) removed Hwf) as (r & -> & Hr); [|done|].
    { apply Forall_app. split; [done|]. apply Forall_singleton. split; [done|by eexists _, _]. }
    eexists. split; [done|]. destruct r as [|es' created' removed']; [done|].
    destruct Hr as (new & made & -> & -> & Hln & Hnew & Hs & _ & Hmade).
    exists ((length objs + length created)%nat :: new), (e :: made). rewrite <- !app_assoc in *.
    split_and!; [done|done|simpl; lia| |done|done|constructor; [by eexists _, _, _|done]].
    constructor; [|done]. rewrite length_app. simpl. lia.
Qed.

Lemma refs_by_id_active objs (active : list nat) id o : refs_by_id objs active !! id = Some o → (o < length objs)%nat ∧ o ∈ active.
Proof.
  unfold refs_by_id. induction active as [|o' active IH] using rev_ind; [cbn [foldl]; by rewrite lookup_empty|].
  rewrite foldl_app. cbn [foldl]. destruct (objs !! o') as [e|] eqn:E.
  - intros [[<- <-]|[_ H]]%lookup_insert_Some; [split; [by eapply lookup_lt_Some|apply elem_of_app; right; left]|].
    destruct (IH H). split; [done|apply elem_of_app; by left].
  - intros H. destruct (IH H). split; [done|apply elem_of_app; by left].
Qed.

Lemma race_load_ok fresh cpus M streams m pool : race_ok fresh m pool → 0 < M < 2 ^ 50 →
  Forall config_wf streams → Z.of_nat (length streams) < 2 ^ 31 →
  ∃ m' fresh', load_step cpus M streams m = Some m' ∧ race_ok fresh' m' pool.
Proof.
  intros H HM Hwf Hlen. pose proof H as [[Ho Hac Hl Hfi Ht Hb] Hp Hf Hr Ha]. unfold load_step.
  destruct (m_loader m) as [|i] eqn:El.
  - destruct (match_refs_ok cpus (m_objs m) (m_active m) streams [] [] (refs_by_id (m_objs m) (m_active m)) Hwf)
      as (r & -> & Hres); [constructor|by intros ? ?; apply refs_by_id_active|]. cbn [mbind option_bind].
    destruct r as [msg|es created removed]; [by exists m, fresh|].
    destruct (decide _) as [|_]; [by exists m, fresh|]. destruct Hres as (new & made & -> & -> & Hln & Hnew & Hs & Hact & _).
    cbn [app] in *. destruct made as [|e made].
    + eexists _, fresh. split; [done|]. rewrite app_nil_r. specialize (Hact eq_refl).
      cbn [length] in Hnew. split; [split|..]; cbn; try done; [by rewrite Nat.add_0_r in Hnew|lia|].
      intros t r ts Hin. destruct (Ha t r ts Hin) as [? Hset]. split; [done|]. intros Hfr o Ho'.
      apply Hset; [done|]. rewrite Forall_forall in Hact. by apply Hact.
    + eexists _, (length (m_filters m)). split; [done|]. split; [split|..]; cbn; rewrite ?length_app; cbn [length]; try done.
      * apply Forall_app. by split.
      * lia.
      * eapply Forall_impl; [exact Hp|]. intros c. apply callback_ok_mono; cbn; [done|rewrite length_app; lia].
      * intros k r _ Hk. lia.
      * intros t r ts Hin. destruct (Ha t r ts Hin) as [? _]. split; [done|]. intros. lia.
  - eexists _, fresh. split; [done|]. destruct (Nat.ltb_spec i (length (m_bfs m))) as [Hi|Hi].
    + apply race_store_filter; [done|done|done|]. rewrite El. simpl. intros k. lia.
    + split; [done| |done| |done]; [done|]. cbn. intros k r Ek _. apply (Hr k); [done|]. cbn.
      apply lookup_lt_Some in Ek. lia.
Qed.

Lemma at_hand_ok m c r : memory_ok m → callback_ok m c → (r < length (m_filters m))%nat → cb_todo c ≠ [] →
  ∃ ts rest bf, cb_todo c = ts :: rest ∧ at_hand m c r = Some (ts, bf) ∧ bloom_ok bf ∧ uint 64 (Fingerprint ts).
Proof.
  intros Hm [Hb _] Hr Hne. destruct (cb_todo c) as [|ts rest] eqn:Et; [done|].
  destruct (lookup_lt_is_Some_2 (m_filters m) r Hr) as [bf Ebf]. exists ts, rest, bf. split; [done|].
  unfold at_hand. rewrite Et. cbn [head mbind option_bind]. rewrite Ebf. split; [done|].
  split; [by eapply Forall_lookup_1; [apply mo_filters|]|].
  destruct Hb as [_ Hb]. rewrite Forall_app, Forall_cons in Hb. tauto.
Qed.

Lemma next_series_ok m c ts rest pass : callback_ok m c → cb_todo c = ts :: rest → callback_ok m (next_series c ts pass).
Proof.
  intros [Hb _] Et. split; [|done]. unfold next_series. cbn. rewrite Et in *. cbn [tail].
  apply (batch_ok_sublist (cb_fwd c ++ ts :: rest)); [|done]. destruct pass.
  - by rewrite <- app_assoc.
  - apply sublist_app; [done|]. by apply sublist_cons.
Qed.

Lemma next_series_fwd c ts pass ts' : ts' ∈ cb_fwd c → ts' ∈ cb_fwd (next_series c ts pass).
Proof. intros H. unfold next_series. cbn. destruct pass; [apply elem_of_app; by left|done]. Qed.

(** In the loop of [filter]. *)
Lemma race_filtering fresh m pool t c c' : race_ok fresh m pool → pool !! t = Some c → callback_ok m c' →
  (∀ ts, ts ∈ cb_fwd c → ts ∈ cb_fwd c') → (∀ o, will_deliver c' o) → race_ok fresh m (<[t := c']> pool).
Proof. intros H E Hc Hf Hw. eapply race_local; [done..|]. intros o ts _ Hts _. right. auto. Qed.

Lemma deliver_ok fresh M m pool t c es j : race_ok fresh m pool → pool !! t = Some c → cb_place c = Delivering es j →
  ∃ m' c', cb_step M t m c = Some (m', c') ∧ race_ok fresh m' (<[t := c']> pool).
Proof.
  intros H E Ep. pose proof (Forall_lookup_1 _ _ _ _ (ro_pool _ _ _ H) E) as [Hb Hc]. rewrite Ep in Hc.
  destruct Hc as (Hes & Hl & Hj). unfold cb_step. rewrite Ep. cbv zeta. rewrite (wrap_small 32) by (unfold uint; lia).
  destruct (Z.ltb_spec j (Z.of_nat (length es))) as [Hlt|Hge].
  - destruct (estimator_at_some es j Hl ltac:(lia)) as [o Eo]. pose proof Eo as Eo'. unfold estimator_at in Eo'.
    cbv zeta in Eo'. rewrite (wrap_small 32) in Eo' by (unfold uint; lia). rewrite Eo'. cbn [mbind option_bind].
    assert (o < length (m_objs m))%nat as Ho.
    { rewrite Forall_forall in Hes. by apply Hes, (list_elem_of_lookup_2 _ _ _ Eo'). }
    destruct (lookup_lt_is_Some_2 (m_objs m) o Ho) as [e Ee]. rewrite Ee. cbn [mbind option_bind].
    set (start := Uint32n (S (Z.to_nat j)) (Z.of_nat (length (cb_fwd c)))).
    destruct (insertMany_sound e (cb_fwd c) start) as (e' & -> & He').
    { pose proof (mo_objs _ (ro_memory _ _ _ H)) as Ho1. by eapply Forall_lookup_1. }
    { apply (batch_ok_sublist (cb_fwd c ++ cb_todo c)); [apply sublist_inserts_r; reflexivity|done]. }
    { apply Uint32n_range. lia. }
    cbn [mbind option_bind]. eexists _, _. split; [done|]. eapply race_local; [by apply race_set_obj|done| |].
    + split; [done|]. cbn. rewrite length_insert. split; [done|]. split; [done|lia].
    + cbn. unfold will_deliver. rewrite Ep. cbn. intros o' ts _ Hts (j' & Hj' & Ej'). destruct (decide (j' = j)) as [->|].
      * left. eexists _, _. rewrite Eo in Ej'. injection Ej' as ->. split; [apply elem_of_app; right; left|done].
      * right. split; [done|]. exists j'. split; [lia|done].
  - eexists _, _. split; [done|]. eapply race_local; [done..| |]; [by split|].
    unfold will_deliver. rewrite Ep. intros o ts _ _ (j' & Hj' & _). lia.
Qed.

Lemma cb_step_ok fresh M m pool t c : race_ok fresh m pool → pool !! t = Some c → cb_place c ≠ Returned →
  ∃ m' c', cb_step M t m c = Some (m', c') ∧ race_ok fresh m' (<[t := c']> pool).
Proof.
  intros H E Hne. pose proof (Forall_lookup_1 _ _ _ _ (ro_pool _ _ _ H) E) as Hc. pose proof (ro_memory _ _ _ H) as Hm.
  destruct (cb_place c) as [|r|r|r|es j|] eqn:Ep; [| | | |by eapply deliver_ok|done].
  all: pose proof Hc as [Hb Hp]; rewrite Ep in Hp.
  2-4: destruct Hp as [Hr Htd]; destruct (at_hand_ok m c r Hm Hc Hr Htd) as (ts & rest & bf & Et & Eh & Hbf & Hts);
    unfold cb_step; rewrite Ep, Eh; cbn [mbind option_bind].
  - unfold cb_step. rewrite Ep. destruct (cb_todo c) as [|ts rest] eqn:Et.
    + eexists _, _. split; [done|]. destruct (Nat.eqb_spec (length (cb_fwd c)) 0) as [H0|H0].
      * eapply race_local; [done..| |]; [split; cbn; [by rewrite Et|done]|].
        intros o ts _ Hts. apply length_zero_iff_nil in H0. rewrite H0 in Hts. by apply not_elem_of_nil in Hts.
      * eapply race_local; [done..| |].
        { split; cbn; [by rewrite Et|]. split; [apply Hm|]. split; [apply Hm|done]. }
        intros o ts Ho Hts _. right. split; [done|]. apply estimator_at_total; [apply Hm|done].
    + destruct Hb as [_ Hb]. rewrite Forall_app, Forall_cons in Hb. destruct Hb as (_ & [Hfp _] & _).
      destruct (lookup_lt_is_Some_2 (m_bfs m) (Z.to_nat (Fingerprint ts mod 10))) as [r Er].
      { rewrite (mo_ten _ Hm). pose proof (Z.mod_pos_bound (Fingerprint ts) 10). lia. }
      rewrite Er. cbn [mbind option_bind]. eexists _, _. split; [done|]. apply (race_filtering _ _ _ _ c); try done.
      pose proof (Forall_lookup_1 _ _ _ _ (mo_bfs _ Hm) Er) as Hr.
      split; [apply Hc|]. cbn. by rewrite Et.
  - rewrite (bloom_contains_spec bf) by done. cbn [mbind option_bind]. eexists _, _. split; [done|].
    destruct (bool_decide _).
    + apply (race_filtering _ _ _ _ c); try done. by eapply next_series_ok.
    + by apply (race_filtering _ _ _ _ c).
  - eexists _, _. split; [done|]. destruct (bf_size bf <? M).
    + by apply (race_filtering _ _ _ _ c).
    + apply (race_filtering _ _ _ _ c); try done; [by eapply next_series_ok|]. intros ts'. apply next_series_fwd.
  - destruct (bloom_add_positions bf _ Hbf Hts) as (f' & isNew & -> & Hf' & _). cbn [fmap option_fmap option_map fst mbind option_bind].
    eexists _, _. split; [done|]. apply race_set_filter; [|done|done|].
    + apply (race_filtering _ _ _ _ c); try done; [by eapply next_series_ok|]. intros ts'. apply next_series_fwd.
    + intros o _. right. eexists. split; [apply list_lookup_insert_eq; by eapply lookup_lt_Some|].
      split; [apply elem_of_app; right; left|done].
Qed.

Lemma race_rotate_ok fresh m pool o e b e' : race_ok fresh m pool → m_objs m !! o = Some e →
  (b < length (e_buckets e))%nat → estimator_rotate_bucket e b = Some e' → race_ok fresh (set_obj m o e' (Rotated o b)) pool.
Proof.
  intros H Eo Hb E. apply race_set_obj; [done| |by eapply lookup_lt_Some|done].
  destruct (Forall_lookup_1 _ _ _ _ (mo_objs _ (ro_memory _ _ _ H)) Eo) as (Hf & p & A & HA).
  destruct (est_do_refines p e A (EvRotate b) HA Hf) as (e1 & E1 & Hs & H1).
  { pose proof (er_len p e A HA). cbn. lia. }
  cbn in E1. assert (e1 = e') as -> by congruence. split; [by eapply same_static_filter|by eexists _, _].
Qed.

Lemma race_step_ok cpus M s s' : 0 < M < 2 ^ 50 → race_step cpus M s s' →
  ∀ fresh, race_ok fresh s.1 s.2 → ∃ fresh', race_ok fresh' s'.1 s'.2.
Proof.
  intros HM Hs fresh H. destruct Hs as [m pool t c m' c' E Ec|m pool streams m' Hwf Hl El|m pool i Hi|m pool o e b e' Eo Hb Er]; cbn in *.
  - exists fresh. assert (cb_place c ≠ Returned) as Hr by (intros Hr; unfold cb_step in Ec; by rewrite Hr in Ec).
    destruct (cb_step_ok fresh M m pool t c H E Hr) as (m1 & c1 & E1 & H1).
    by assert (m1 = m' ∧ c1 = c') as [-> ->] by (split; congruence).
  - destruct (race_load_ok fresh cpus M streams m pool H HM Hwf Hl) as (m1 & fresh' & E1 & H1). exists fresh'.
    by assert (m1 = m') as -> by congruence.
  - exists fresh. apply race_store_filter; [done..|]. auto.
  - exists fresh. by eapply race_rotate_ok.
Qed.

(** ** What the history says of the memory *)
Definition origin (objs0 : list estimator) (o : nat) (e0 : estimator) : Prop :=
  objs0 !! o = Some e0 ∨ ∃ cpus ch ec, newEstimator cpus ch ec = Some (Ok e0).
(** The bits set in filter [r] of [n] words by the series added to it. *)
Definition added_bits (n r : nat) (hs : list happening) : gset Z :=
  ⋃ omap (λ h, match h with
               | Added _ r' ts => if decide (r' = r) then Some (positions n (Fingerprint ts) loop_indices) else None
               | _ => None
               end) hs.
Definition first_bits (filters0 : list deduplicatorBloomFilter) (r : nat) : gset Z :=
  match filters0 !! r with Some f => ones (bf_bits f) | None => ∅ end.

(** Each estimator is what its inserts and rotations make of the first or a
    created one; each filter has the bits of what was added to it. *)
Record history_ok (m0 m : memory) : Prop := {
  ho_objs : ∀ o e, m_objs m !! o = Some e →
    ∃ e0, origin (m_objs m0) o e0 ∧ est_run e0 (events_of o (m_history m)) = Some e;
  ho_events : ∀ o, (length (m_objs m) <= o)%nat → events_of o (m_history m) = [];
  ho_bits : ∀ r f, m_filters m !! r = Some f →
    ones (bf_bits f) = added_bits (length (bf_bits f)) r (m_history m) ∪ first_bits (m_filters m0) r;
  ho_added : ∀ n r, (length (m_filters m) <= r)%nat → added_bits n r (m_history m) = ∅;
  ho_filters : (length (m_filters m0) <= length (m_filters m))%nat
}.

Lemma events_of_app o hs h : events_of o (hs ++ [h]) = events_of o hs ++ events_of o [h].
Proof. apply omap_app. Qed.

Lemma added_bits_app n r hs h : added_bits n r (hs ++ [h]) = added_bits n r hs ∪ added_bits n r [h].
Proof. unfold added_bits. by rewrite omap_app, union_list_app_L. Qed.

Lemma history_set_obj m0 m o e e' h ev : history_ok m0 m → m_objs m !! o = Some e → est_do e ev = Some e' →
  (∀ o', events_of o' [h] = if decide (o = o') then [ev] else []) → (∀ n r, added_bits n r [h] = ∅) →
  history_ok m0 (set_obj m o e' h).
Proof.
  intros [Ho He Hb Ha Hf] Eo Ed Hh Hn. pose proof (lookup_lt_Some _ _ _ Eo) as Hlt.
  split; cbn [set_obj set_filter store_filter m_objs m_active m_filters m_bfs m_loader m_history]; rewrite ?length_insert; try done.
  - intros o1 e1. rewrite events_of_app, Hh. intros [(-> & -> & _)|[Hne E1]]%list_lookup_insert_Some.
    + destruct (Ho o1 e Eo) as (e0 & H0 & Hr). exists e0. split; [done|]. rewrite decide_True by done. unfold est_run in *.
      rewrite for_each_app, Hr. cbn [mbind option_bind for_each]. by rewrite Ed.
    + rewrite decide_False by done. rewrite app_nil_r. by apply Ho.
  - intros o1 Ho1. rewrite events_of_app, Hh, (He o1) by done. rewrite decide_False by lia. done.
  - intros r f Ef. rewrite added_bits_app, Hn, (right_id_L ∅ (∪)). by apply Hb.
  - intros n r Hr. rewrite added_bits_app, Hn, (right_id_L ∅ (∪)). by apply Ha.
Qed.

Lemma history_set_filter m0 m r f f' b t ts : history_ok m0 m → m_filters m !! r = Some f → bloom_ok f →
  uint 64 (Fingerprint ts) → bloom_add f (Fingerprint ts) = Some (f', b) → history_ok m0 (set_filter m r f' (Added t r ts)).
Proof.
  intros [Ho He Hb Ha Hf] Er Hok Hts E. pose proof (lookup_lt_Some _ _ _ Er) as Hlt.
  destruct (bloom_add_positions f _ Hok Hts) as (f1 & b1 & E1 & _ & Hlen & Hones & _).
  rewrite E in E1. injection E1 as <- <-.
  split; cbn [set_obj set_filter store_filter m_objs m_active m_filters m_bfs m_loader m_history]; rewrite ?length_insert; try done.
  - intros o e. rewrite events_of_app, app_nil_r. apply Ho.
  - intros o. rewrite events_of_app, app_nil_r. apply He.
  - intros r1 f1 [(-> & -> & _)|[Hne E1]]%list_lookup_insert_Some; rewrite added_bits_app; unfold added_bits at 2; cbn.
    + rewrite decide_True by done. cbn. rewrite Hones, Hlen, (Hb r1 f Er). set_solver.
    + rewrite decide_False by done. cbn. rewrite (right_id_L ∅ (∪)). by apply Hb.
  - intros n r1 Hr1. rewrite added_bits_app, (Ha n r1 Hr1). unfold added_bits. cbn. rewrite decide_False by lia. set_solver.
Qed.

Lemma new_filter_bits M : 0 < M < 2 ^ 50 → ones (bf_bits (newDeduplicatorBloomFilter M)) = ∅.
Proof. intros HM. unfold newDeduplicatorBloomFilter, newBits. apply ones_replicate. Qed.

Lemma history_store_filter m0 m M i l : history_ok m0 m → 0 < M < 2 ^ 50 → history_ok m0 (store_filter M m i l).
Proof.
  intros [Ho He Hb Ha Hf] HM. split; cbn [set_obj set_filter store_filter m_objs m_active m_filters m_bfs m_loader m_history]; rewrite ?length_app; cbn [length]; try done; [| |lia].
  - intros r f [Er|[Hr Er]]%lookup_app_Some; [by apply Hb|].
    assert (r = length (m_filters m)) as -> by (apply lookup_lt_Some in Er; cbn in Er; lia).
    rewrite Nat.sub_diag in Er. injection Er as <-. rewrite Ha by done. unfold first_bits.
    rewrite lookup_ge_None_2 by lia. rewrite new_filter_bits by done. set_solver.
  - intros n r Hr. apply Ha. lia.
Qed.

Lemma history_load cpus M streams m0 m m' : history_ok m0 m → 0 < M < 2 ^ 50 → Forall config_wf streams →
  load_step cpus M streams m = Some m' → history_ok m0 m'.
Proof.
  intros H HM Hwf. pose proof H as [Ho He Hb Ha Hf]. unfold load_step. destruct (m_loader m) as [|i].
  - destruct (match_refs_ok cpus (m_objs m) (m_active m) streams [] [] (refs_by_id (m_objs m) (m_active m)) Hwf)
      as (r & -> & Hres); [constructor|by intros ? ?; apply refs_by_id_active|]. cbn [mbind option_bind].
    destruct r as [msg|es created removed]; [by intros [= <-]|]. destruct (decide _); [by intros [= <-]|]. intros [= <-].
    destruct Hres as (new & made & -> & -> & _ & _ & _ & _ & Hmade). rewrite app_nil_l.
    split; cbn [set_obj set_filter store_filter m_objs m_active m_filters m_bfs m_loader m_history]; rewrite ?length_app; try done; [|intros; apply He; lia].
    intros o e [Eo|[Hge Eo]]%lookup_app_Some; [by apply Ho|]. exists e. rewrite (He o Hge). split; [|done].
    right. rewrite Forall_forall in Hmade. by apply Hmade, (list_elem_of_lookup_2 _ _ _ Eo).
  - intros [= <-]. destruct (_ <? _)%nat; [by apply history_store_filter|]. by split.
Qed.

Lemma history_callback M t m c m' c' m0 : history_ok m0 m → memory_ok m → callback_ok m c →
  cb_step M t m c = Some (m', c') → history_ok m0 m'.
Proof.
  intros H Hm Hc. pose proof Hc as [Hb Hp]. unfold cb_step. destruct (cb_place c) as [|r|r|r|es j|].
  - destruct (cb_todo c); [by intros [= <- <-]|]. intros (r & _ & [= <- <-])%bind_Some. done.
  - intros ([ts bf] & _ & (b & _ & [= <- <-])%bind_Some)%bind_Some. done.
  - intros ([ts bf] & _ & [= <- <-])%bind_Some. done.
  - destruct Hp as [Hr Htd]. destruct (at_hand_ok m c r Hm Hc Hr Htd) as (ts & rest & bf & _ & Eh & Hbf & Hts).
    rewrite Eh. cbn [mbind option_bind]. intros (f & Ef & [= <- <-])%bind_Some.
    destruct (bloom_add bf _) as [[f' b]|] eqn:Eb; [|done]. injection Ef as <-.
    unfold at_hand in Eh. apply bind_Some in Eh as (ts' & _ & Eh). apply bind_Some in Eh as (bf' & Er & [= -> ->]).
    by eapply history_set_filter.
  - cbv zeta. destruct (j <? _); [|by intros [= <- <-]].
    intros (o & _ & (e & Eo & (e' & Ee & [= <- <-])%bind_Some)%bind_Some)%bind_Some.
    eapply history_set_obj; [done|done|by instantiate (1 := EvInsert _ _)| |done].
    intros o'. cbn. by destruct (decide (o = o')).
  - done.
Qed.

Lemma race_step_history cpus M m0 s s' fresh : 0 < M < 2 ^ 50 → race_step cpus M s s' → race_ok fresh s.1 s.2 →
  history_ok m0 s.1 → history_ok m0 s'.1.
Proof.
  intros HM Hs H Hh. destruct Hs as [m pool t c m' c' E Ec|m pool streams m' Hwf Hl El|m pool i Hi|m pool o e b e' Eo Hb Er]; cbn in *.
  - eapply history_callback; [done|apply H| |done]. by apply (Forall_lookup_1 _ _ _ _ (ro_pool _ _ _ H) E).
  - by eapply history_load.
  - by apply history_store_filter.
  - eapply history_set_obj; [done|done|by instantiate (1 := EvRotate _)| |done]. intros o'. cbn. by destruct (decide (o = o')).
Qed.

(** The start: no callback has begun, nothing is being loaded. *)
Record race_start (m : memory) (pool : list callback) : Prop := {
  rs_memory : memory_ok m;
  rs_loader : m_loader m = Idle;
  rs_history : m_history m = [];
  rs_pool : ∃ batches, pool = map start_callback batches ∧ Forall batch_ok batches
}.

Lemma race_start_ok m pool : race_start m pool → race_ok 0 m pool ∧ history_ok m m.
Proof.
  intros [Hm Hl Hh (batches & -> & Hb)]. split; split; rewrite ?Hh; try done; try lia.
  - apply Forall_map. eapply Forall_impl; [exact Hb|]. intros tss H. by split.
  - intros t r ts Hin. by apply not_elem_of_nil in Hin.
  - intros o e Eo. exists e. split; [by left|done].
  - intros r f Ef. unfold first_bits. rewrite Ef. unfold added_bits. cbn. set_solver.
Qed.

(** An invariant along a run, besides [race_ok]. *)
Lemma race_run_inv cpus M (I : memory * list callback → Prop) : 0 < M < 2 ^ 50 →
  (∀ fresh s s', race_step cpus M s s' → race_ok fresh s.1 s.2 → I s → I s') →
  ∀ s s', rtc (race_step cpus M) s s' → ∀ fresh, race_ok fresh s.1 s.2 → I s → ∃ fresh', race_ok fresh' s'.1 s'.2 ∧ I s'.
Proof.
  intros HM HI s s' Hr. induction Hr as [s|s s1 s2 H1 _ IH]; intros fresh H Hs; [by exists fresh|].
  destruct (race_step_ok cpus M s s1 HM H1 fresh H) as [fresh1 H2]. apply (IH fresh1); [done|]. by eapply HI.
Qed.

Lemma race_reachable cpus M m0 pool0 m pool : 0 < M < 2 ^ 50 → race_start m0 pool0 →
  rtc (race_step cpus M) (m0, pool0) (m, pool) → ∃ fresh, race_ok fresh m pool ∧ history_ok m0 m.
Proof.
  intros HM [H Hh]%race_start_ok Hr. apply (race_run_inv cpus M (λ s, history_ok m0 s.1) HM) with (2 := Hr) (3 := H); [|done].
  intros fresh s s' Hs. by apply (race_step_history cpus M m0 s s' fresh).
Qed.

(** ** The callbacks end *)
Definition work (m : memory) (c : callback) : nat :=
  let base := (4 * length (cb_todo c) + length (m_active m) + 2)%nat in
  match cb_place c with
  | AtSeries => base
  | GotFilter _ => base - 1
  | NotSeen _ => base - 2
  | HasRoom _ => base - 3
  | Delivering es j => S (Z.to_nat (Z.of_nat (length es) - j))
  | Returned => 0
  end.

Lemma cb_step_work M t m c m' c' : callback_ok m c → Z.of_nat (length (m_active m)) < 2 ^ 31 →
  cb_step M t m c = Some (m', c') → (work m' c' < work m c)%nat ∧ m_active m' = m_active m.
Proof.
  intros [_ Hc] Hl. unfold cb_step, work. destruct (cb_place c) as [|r|r|r|es j|] eqn:Ep.
  - destruct (cb_todo c) as [|ts rest] eqn:Et.
    + intros [= <- <-]. unfold set_place. cbn. destruct (_ =? _)%nat; cbn; rewrite ?Et; cbn; split; (lia || done).
    + intros (r & _ & [= <- <-])%bind_Some. cbn. rewrite Et. cbn. split; [lia|done].
  - intros ([ts bf] & _ & (b & _ & [= <- <-])%bind_Some)%bind_Some.
    destruct (cb_todo c) eqn:Et, b; cbn; rewrite ?Et; cbn; split; try done; try lia; tauto.
  - intros ([ts bf] & _ & [= <- <-])%bind_Some.
    destruct (cb_todo c) eqn:Et, (_ <? _); cbn; rewrite ?Et; cbn; split; try done; try lia; tauto.
  - intros ([ts bf] & _ & (f & _ & [= <- <-])%bind_Some)%bind_Some.
    destruct (cb_todo c) eqn:Et; cbn; rewrite ?Et; cbn; split; try done; try lia; tauto.
  - cbv zeta. rewrite (wrap_small 32) by (unfold uint; lia). destruct (Z.ltb_spec j (Z.of_nat (length es))).
    + intros (o & _ & (e & _ & (e' & _ & [= <- <-])%bind_Some)%bind_Some)%bind_Some. cbn. split; [lia|done].
    + intros [= <- <-]. cbn. split; [lia|done].
  - done.
Qed.

(** One callback, alone, returns. *)
Lemma callback_returns cpus M t : 0 < M < 2 ^ 50 → ∀ n fresh m pool c, (work m c <= n)%nat → race_ok fresh m pool →
  pool !! t = Some c → ∃ m' c', rtc (race_step cpus M) (m, pool) (m', <[t := c']> pool) ∧
    cb_place c' = Returned ∧ race_ok fresh m' (<[t := c']> pool) ∧ m_active m' = m_active m.
Proof.
  intros HM n. induction n as [|n IH]; intros fresh m pool c Hn H E.
  { assert (cb_place c = Returned) as Er.
    { unfold work in Hn. pose proof (Forall_lookup_1 _ _ _ _ (ro_pool _ _ _ H) E) as [_ Hc].
      destruct (cb_place c), (cb_todo c); cbn in *; (lia || tauto). }
    exists m, c. rewrite list_insert_id by done. by split_and!. }
  assert (cb_place c = Returned ∨ cb_place c ≠ Returned) as [Er|Er] by (destruct (cb_place c); auto; by right).
  { exists m, c. rewrite list_insert_id by done. by split_and!. }
  destruct (cb_step_ok fresh M m pool t c H E Er) as (m1 & c1 & E1 & H1).
  destruct (cb_step_work M t m c m1 c1) as [Hw Hact]; [by apply (Forall_lookup_1 _ _ _ _ (ro_pool _ _ _ H) E)|apply H|done|].
  destruct (IH fresh m1 (<[t := c1]> pool) c1) as (m' & c' & Hr & Hret & H' & Hact'); [lia|done| |].
  { apply list_lookup_insert_eq. by eapply lookup_lt_Some. }
  rewrite list_insert_insert_eq in Hr, H'. exists m', c'. split_and!; [|done|done|congruence].
  eapply rtc_l; [by eapply race_callback|done].
Qed.

Lemma callbacks_return cpus M m pool fresh : 0 < M < 2 ^ 50 → race_ok fresh m pool → ∀ n, (n <= length pool)%nat →
  ∃ m' pool', rtc (race_step cpus M) (m, pool) (m', pool') ∧ length pool' = length pool ∧ m_active m' = m_active m ∧
    race_ok fresh m' pool' ∧ ∀ t c, (t < n)%nat → pool' !! t = Some c → cb_place c = Returned.
Proof.
  intros HM H n. induction n as [|n IH]; intros Hn; [exists m, pool; split_and!; [done..|lia]|].
  destruct IH as (m1 & pool1 & Hr & Hlen & Hact & H1 & Hret); [lia|].
  destruct (lookup_lt_is_Some_2 pool1 n) as [c Ec]; [lia|].
  destruct (callback_returns cpus M n HM (work m1 c) fresh m1 pool1 c) as (m2 & c2 & Hr2 & Hret2 & H2 & Hact2); [done..|].
  exists m2, (<[n := c2]> pool1). rewrite length_insert. split_and!; [by etrans|done|congruence|done|].
  intros t c' Ht [(_ & <- & _)|[Hne E]]%list_lookup_insert_Some; [done|]. apply (Hret t); [lia|done].
Qed.

(** ** A schedule is a run *)
Definition turn_ok (x : turn_of) : Prop :=
  match x with Load streams => Forall config_wf streams ∧ Z.of_nat (length streams) < 2 ^ 31 | _ => True end.

Lemma race_turn_step cpus M s x s' : turn_ok x → race_turn cpus M s x = Some s' → race_step cpus M s s'.
Proof.
  destruct s as [m pool]. unfold race_turn. destruct x as [t|streams|i|o b]; intros Hx.
  - intros (c & E & ([m' c'] & Ec & [= <-])%bind_Some)%bind_Some. by eapply race_callback.
  - intros (m' & E & [= <-])%bind_Some. destruct Hx. by eapply race_load.
  - destruct (Nat.ltb_spec i (length (m_bfs m))); [|done]. intros [= <-]. by apply race_clear.
  - intros (e & Ee & E)%bind_Some. destruct (Nat.ltb_spec b (length (e_buckets e))); [|done].
    apply bind_Some in E as (e' & E & [= <-]). by eapply race_rotate.
Qed.

Lemma race_run_steps cpus M xs : ∀ s s', Forall turn_ok xs → race_run cpus M xs s = Some s' → rtc (race_step cpus M) s s'.
Proof.
  unfold race_run. induction xs as [|x xs IH]; cbn [for_each]; intros s s' Hxs E; [by injection E as ->|].
  apply Forall_cons in Hxs as [Hx Hxs]. apply bind_Some in E as (s1 & E1 & E).
  eapply rtc_l; [by apply (race_turn_step _ _ _ x)|by apply IH].
Qed.

(** ** The order of the steps loses nothing *)
(** Estimator [o] has been given the series. *)
Definition inserted (m0 m : memory) (o : nat) (ts : TimeSerie) : Prop :=
  ∃ e e0 evs fwd start, m_objs m !! o = Some e ∧ origin (m_objs m0) o e0 ∧ est_run e0 evs = Some e ∧
    EvInsert fwd start ∈ evs ∧ ts ∈ fwd.

Lemma delivered_inserted m0 m t o ts : memory_ok m → history_ok m0 m → o ∈ m_active m → delivered (m_history m) t o ts →
  inserted m0 m o ts.
Proof.
  intros Hm Hh Ho (fwd & start & Hin & Hts). pose proof (mo_active _ Hm) as Ha. rewrite Forall_forall in Ha.
  destruct (lookup_lt_is_Some_2 (m_objs m) o (Ha o Ho)) as [e Ee]. destruct (ho_objs _ _ Hh o e Ee) as (e0 & H0 & Hr).
  exists e, e0, (events_of o (m_history m)), fwd, start. split_and!; try done. unfold events_of.
  apply list_elem_of_omap. eexists. split; [exact Hin|]. cbn. by rewrite decide_True.
Qed.

Lemma remembered_settled fresh m0 m pool k r t ts o : race_ok fresh m pool → history_ok m0 m →
  m_bfs m !! k = Some r → is_reset (m_loader m) k → Added t r ts ∈ m_history m → o ∈ m_active m →
  inserted m0 m o ts ∨ ∃ c, pool !! t = Some c ∧ ts ∈ cb_fwd c ∧ will_deliver c o.
Proof.
  intros H Hh Ek Hk Hin Ho. destruct (ro_added _ _ _ H t r ts Hin) as [_ Hs].
  destruct (Hs (ro_reset _ _ _ H k r Ek Hk) o Ho) as [Hd|Hd]; [left|by right].
  by eapply delivered_inserted; [apply H|..].
Qed.



(** ** What the reset does not make good *)
(** A request decoded before the reload switched label fingerprints on adds
    nothing to an estimator of labels, though the deduplicator remembers it. *)
Lemma unfingerprinted_no_ops e ts : e_groupBy e ≠ [] → e_hasLabelKeyword e = true →
  Forall (λ l, LabelFingerprint l = 0) (Labels ts) → matched_ops e ts = [].
Proof.
  intros Hg Hk Hz. unfold matched_ops, serie_ops. destruct (filter_match _ _) as [[|]|]; [|done..].
  rewrite Hk. destruct (e_groupBy e) as [|k ks]; [done|]. cbv zeta. destruct (group_values _ _ _ _) as [[d values] names].
  destruct (negb names); [done|]. cbn [negb]. replace (base.filter _ _) with (@nil Label); [done|]. symmetry.
  induction Hz as [|l ls Hl _ IH]; [done|]. rewrite filter_cons_False by (by rewrite Hl; intros H). done.
Qed.
End Proofs.

(** * At a concrete input *)
Definition demo_memory {Ops : SketchOps} {Ql : MetricsQL} (M : Z) (e : estimator) : memory :=
  mkMem [e] [0%nat] (replicate 10 (newDeduplicatorBloomFilter M)) (seq 0 10) Idle [].
(** One series is filtered, then a stream of labels is added, then the other is
    filtered and both are delivered. *)
Definition demo_schedule : list turn_of :=
  replicate 4 (Request 0) ++ replicate 12 (Load [demo_stream []; demo_stream ["job"%string; labelKeyword]]) ++
  [Rotate 0 2] ++ replicate 8 (Request 0).

Lemma demo_race_run :
  match @newEstimator set_sketch_ops demo_ql 1 0 (demo_stream []) with
  | Some (Ok e) =>
      match race_run (Xx := demo_hash) (Ql := demo_ql) (Rnd := demo_rand) 1 1000 demo_schedule (demo_memory 1000 e, [start_callback demo_tss]) with
      | Some (m, [c]) =>
          m_active m = [0%nat; 1%nat] ∧ m_loader m = Idle ∧ m_bfs m !! 2%nat = Some 12%nat ∧
          m_history m !! 2%nat = Some (Added 0 12 (mkTimeSerie [mkLabel "job" "b" 13] 102)) ∧ cb_place c = Returned
      | _ => False
      end
  | _ => False
  end.
Proof. vm_compute. repeat split. Qed.

Lemma demo_race_start (e : @estimator set_sketch_ops demo_ql) M batches : filter_total e →
  est_repr (Spec := set_sketch_spec) 14 e (replicate 4 (init_state (is_global e))) → 0 < M < 2 ^ 50 → Forall batch_ok batches →
  race_start (Spec := set_sketch_spec) (demo_memory M e) (map start_callback batches).
Proof.
  intros Hf H HM Hb. split; [split|done|done|by exists batches]; cbn [demo_memory m_objs m_active m_filters m_bfs].
  - constructor; [|constructor]. split; [done|by eexists _, _].
  - by repeat constructor.
  - done.
  - by apply Forall_replicate, (bucket_bloom M), new_bucket_ok.
  - done.
  - rewrite length_replicate. apply Forall_forall. intros r [_ Hr]%elem_of_seq. lia.
Qed.

Lemma demo_schedule_ok : Forall turn_ok demo_schedule.
Proof.
  unfold demo_schedule. rewrite !Forall_app. split_and!; [| |by repeat constructor|]; apply Forall_replicate; [done| |done].
  split; [|done]. constructor; [apply (demo_stream_wf [] []), demo_global_prepared|].
  constructor; [|constructor]. eapply demo_stream_wf, demo_job_prepared.
Qed.



(** ** A stream of labels added while a request is under way *)
(** The series of [demo_tss] as decoded before label fingerprints are on. *)
Definition demo_early : list TimeSerie := [mkTimeSerie [mkLabel "job" "b" 0] 102].
(** The reload is over before the first callback filters its series; the second
    request has the series with the fingerprints of its labels. *)
Definition demo_late_schedule : list turn_of :=
  replicate 12 (Load [demo_stream []; demo_stream ["job"%string; labelKeyword]]) ++ replicate 8 (Request 0) ++ replicate 3 (Request 1).

(** The new estimator gets nothing from the first, and the second is held back. *)
Lemma label_series_held_back :
  match @newEstimator set_sketch_ops demo_ql 1 0 (demo_stream []) with
  | Some (Ok e) =>
      match race_run (Xx := demo_hash) (Ql := demo_ql) (Rnd := demo_rand) 1 1000 demo_late_schedule
              (demo_memory 1000 e, [start_callback demo_early; start_callback (drop 1 demo_tss)]) with
      | Some (m, [c1; c2]) => m_active m = [0%nat; 1%nat] ∧ e_insertTotal <$> m_objs m = [1; 0] ∧
          cb_place c1 = Returned ∧ cb_fwd c2 = [] ∧ cb_place c2 = Returned
      | _ => False
      end
  | _ => False
  end.
Proof. vm_compute. repeat split. Qed.
