(* ===== verification/ReloadSerial.v ===== *)
(** * ReloadSerial: the steps of ReloadRace, uninterrupted

    The atomic steps into which ReloadRace takes a write request's callback
    apart, run one after the other, are what WriteHandler's [write_callback]
    does in one go: the two translations of the callback agree.  The memory of
    references of ReloadRace stands for the world of Reload ([sees]). *)
From Stdlib Require Import String.
From S2P Require Import Prelude GoText Types Config SketchSpec GroupSize Snapshot Estimator EstimatorInsert EstimatorWindow.
From S2P Require Import EstimatorLife EstimatorTyped EstimatorExamples Bloom Dedup Churn Reload CompressedList ProtoReader Snappy Proto.
From S2P Require Import WriteHandler ReloadRace.
Local Open Scope Z_scope.

(** ** Lists of references *)
Definition refer {A} (store : list A) (refs : list nat) (xs : list A) : Prop := Forall2 (λ r x, store !! r = Some x) refs xs.

Lemma refer_lookup {A} (store : list A) refs xs k x : refer store refs xs → xs !! k = Some x →
  ∃ r, refs !! k = Some r ∧ store !! r = Some x.
Proof. intros H E. destruct (Forall2_lookup_r _ _ _ _ _ H E) as (r & ? & ?). eauto. Qed.

Lemma refer_insert {A} (store : list A) refs xs k r y : refer store refs xs → NoDup refs → refs !! k = Some r →
  refer (<[r := y]> store) refs (<[k := y]> xs).
Proof.
  intros H Hnd Ek. apply Forall2_same_length_lookup. pose proof (Forall2_length _ _ _ H) as Hl.
  split; [by rewrite length_insert|]. intros i r1 x1 Ei Ex.
  destruct (Forall2_lookup_l _ _ _ _ _ H Ek) as (x & _ & Er).
  apply list_lookup_insert_Some in Ex as [(-> & -> & _)|[Hne Ex]].
  - assert (r1 = r) as -> by congruence. apply list_lookup_insert_eq. by eapply lookup_lt_Some.
  - rewrite list_lookup_insert_ne; [by apply (Forall2_lookup_lr _ _ _ _ _ _ H Ei Ex)|].
    intros <-. apply Hne. by apply (NoDup_lookup refs k i r).
Qed.

Section Proofs.
Context `{Spec : SketchSpec} `{Ord : IterOrder, !IterOrderOk Ord} `{Xx : Xxhash, !XxhashOk Xx} `{Ql : MetricsQL}
  `{Rnd : FastRand, !FastRandOk Rnd}.

(** The memory stands for estimators and a deduplicator. *)
Record sees (M : Z) (m : memory) (d : deduplicator) (es : list estimator) : Prop := {
  se_max : dd_bucketMaxSize d = M;
  se_es : refer (m_objs m) (m_active m) es;
  se_bfs : refer (m_filters m) (m_bfs m) (dd_bfs d);
  se_active : NoDup (m_active m);
  se_filters : NoDup (m_bfs m)
}.

(** ** The callback *)
Definition alone (M : Z) (t : nat) (s s' : memory * callback) : Prop := cb_step M t s.1 s.2 = Some s'.

Lemma alone_filter_one M t m d es fwd ts rest d' pass : sees M m d es → filter_one d ts = Some (d', pass) →
  ∃ m', rtc (alone M t) (m, mkCallback (ts :: rest) fwd AtSeries)
          (m', mkCallback rest (if pass then fwd ++ [ts] else fwd) AtSeries) ∧ sees M m' d' es.
Proof.
  intros [HM He Hb Hn Hnf]. unfold filter_one. cbv zeta. set (k := Z.to_nat (Fingerprint ts mod 10)).
  intros (bf & Ek & (b & Ec & E)%bind_Some)%bind_Some. destruct (refer_lookup _ _ _ _ _ Hb Ek) as (r & Er & Ef).
  assert (∀ p, at_hand m (mkCallback (ts :: rest) fwd p) r = Some (ts, bf)) as Eh by (intros p; unfold at_hand; cbn; by rewrite Ef).
  pose proof (Eh (GotFilter r)) as Eh1. pose proof (Eh (NotSeen r)) as Eh2. pose proof (Eh (HasRoom r)) as Eh3.
  assert (alone M t (m, mkCallback (ts :: rest) fwd AtSeries) (m, mkCallback (ts :: rest) fwd (GotFilter r))) as S1.
  { unfold alone, cb_step. cbn [fst snd cb_place cb_todo]. fold k. by rewrite Er. }
  destruct b.
  - injection E as <- <-. exists m. split; [|by split]. eapply rtc_l; [exact S1|]. apply rtc_once.
    unfold alone, cb_step. cbn [fst snd cb_place]. rewrite Eh1. cbn [mbind option_bind]. by rewrite Ec.
  - assert (alone M t (m, mkCallback (ts :: rest) fwd (GotFilter r)) (m, mkCallback (ts :: rest) fwd (NotSeen r))) as S2.
    { unfold alone, cb_step. cbn [fst snd cb_place]. rewrite Eh1. cbn [mbind option_bind]. by rewrite Ec. }
    apply bind_Some in E as (bf' & Eb & [= <- <-]). rewrite HM in Eb. destruct (bf_size bf <? M) eqn:Esz.
    + exists (set_filter m r bf' (Added t r ts)). split.
      * eapply rtc_l; [exact S1|]. eapply rtc_l; [exact S2|]. apply (rtc_l _ _ (m, mkCallback (ts :: rest) fwd (HasRoom r))).
        { unfold alone, cb_step. cbn [fst snd cb_place]. rewrite Eh2. cbn [mbind option_bind]. by rewrite Esz. }
        apply rtc_once. unfold alone, cb_step. cbn [fst snd cb_place]. rewrite Eh3. cbn [mbind option_bind]. by rewrite Eb.
      * split; cbn; try done. by apply refer_insert.
    + injection Eb as <-. exists m. split.
      * eapply rtc_l; [exact S1|]. eapply rtc_l; [exact S2|]. apply rtc_once.
        unfold alone, cb_step. cbn [fst snd cb_place]. rewrite Eh2. cbn [mbind option_bind]. by rewrite Esz.
      * split; cbn; try done. by rewrite list_insert_id.
Qed.

Lemma alone_filter M t es tss : ∀ m d fwd d' out, sees M m d es → deduplicator_filter d tss fwd = Some (d', out) →
  ∃ m', rtc (alone M t) (m, mkCallback tss fwd AtSeries) (m', mkCallback [] out AtSeries) ∧ sees M m' d' es.
Proof.
  unfold deduplicator_filter. induction tss as [|ts tss IH]; intros m d fwd d' out H; cbn [for_each].
  - intros [= <- <-]. by exists m.
  - intros ([d1 fwd1] & ([d2 pass] & E1 & [= <- <-])%bind_Some & E)%bind_Some.
    destruct (alone_filter_one M t m d es fwd ts tss d2 pass H E1) as (m1 & R1 & H1).
    destruct (IH m1 d2 _ d' out H1 E) as (m' & R & H'). exists m'. split; [by etrans|done].
Qed.

Lemma alone_deliver M t d fwd : ∀ n m es es' j, sees M m d es → Z.of_nat (length es) < 2 ^ 31 →
  let esLen := Z.of_nat (length es) in 0 <= j → Z.of_nat n = esLen - j →
  for_each (insert_estimator fwd (Uint32n 0 esLen) esLen) (seqZ j (Z.of_nat n)) es = Some es' →
  ∃ m', rtc (alone M t) (m, mkCallback [] fwd (Delivering (m_active m) j)) (m', mkCallback [] fwd Returned) ∧ sees M m' d es'.
Proof.
  induction n as [|n IH]; intros m es es' j H Hl esLen Hj Hn; pose proof (Forall2_length _ _ _ (se_es _ _ _ _ H)) as Hlen.
  - cbn. intros [= <-]. exists m. split; [|done]. apply rtc_once. unfold alone, cb_step. cbn [fst snd cb_place].
    cbv zeta. rewrite Hlen, (wrap_small 32) by (unfold uint; lia). fold esLen. by rewrite (proj2 (Z.ltb_ge _ _)) by lia.
  - rewrite seqZ_cons by lia. cbn [for_each]. intros (es1 & (e & Ee & (e' & Ei & [= <-])%bind_Some)%bind_Some & E)%bind_Some.
    set (k := Z.to_nat (estimator_index (Uint32n 0 esLen) esLen j)) in *.
    destruct (refer_lookup _ _ _ _ _ (se_es _ _ _ _ H) Ee) as (o & Eo & Em). replace (Z.pred (Z.of_nat (S n))) with (Z.of_nat n) in E by lia.
    set (m1 := set_obj m o e' (Inserted t o fwd (Uint32n (S (Z.to_nat j)) (Z.of_nat (length fwd))))).
    destruct (IH m1 (<[k := e']> es) es' (Z.succ j)) as (m' & R & H'); rewrite ?length_insert; try done; try lia.
    { destruct H. split; cbn; try done. by apply refer_insert. }
    exists m'. split; [|done]. eapply rtc_l; [|exact R]. unfold alone, cb_step. cbn [fst snd cb_place cb_fwd].
    cbv zeta. rewrite Hlen, (wrap_small 32) by (unfold uint; lia). fold esLen. rewrite (proj2 (Z.ltb_lt _ _)) by lia.
    fold k. rewrite Eo. cbn [mbind option_bind]. rewrite Em. cbn [mbind option_bind]. by rewrite Ei.
Qed.

(** A callback that runs without interruption does to the estimators and
    the deduplicator what [write_callback] does, and returns. *)
Lemma callback_alone M t m d w tss w' : w_dedup w = Some d → sees M m d (w_estimators w) → world_sound w → batch_ok tss →
  write_callback w tss = Some w' →
  ∃ m' d' fwd, rtc (alone M t) (m, start_callback tss) (m', mkCallback [] fwd Returned) ∧
    w_dedup w' = Some d' ∧ sees M m' d' (w_estimators w').
Proof.
  intros Ed H [Hes Hl Hd] Hb. unfold write_callback. rewrite Ed.
  assert (Forall (λ ts, uint 64 (Fingerprint ts)) tss) as Hfp.
  { destruct Hb as [_ Hb]. eapply Forall_impl; [exact Hb|]. by intros ? []. }
  destruct (filter_inplace_run d tss (Hd d Ed) Hfp) as (d' & fwd & E1 & -> & _). cbn [mbind option_bind].
  destruct (alone_filter M t _ tss m d [] d' fwd H E1) as (m1 & R1 & H1).
  pose proof (Forall2_length _ _ _ (se_es _ _ _ _ H1)) as Hlen.
  destruct (length fwd =? 0)%nat eqn:E0.
  - intros [= <-]. exists m1, d', fwd. split; [|done]. eapply rtc_r; [exact R1|].
    unfold alone, cb_step. cbn [fst snd cb_place cb_todo cb_fwd]. by rewrite E0.
  - intros (es' & E & [= <-])%bind_Some. unfold insert_estimators in E. cbn [w_estimators] in E. cbv zeta in E.
    rewrite (wrap_small 32) in E by (unfold uint; lia).
    destruct (alone_deliver M t d' fwd (length (w_estimators w)) m1 (w_estimators w) es' 0 H1 Hl) as (m' & R & H'); [lia|lia|done|].
    exists m', d', fwd. split; [|done]. etrans; [exact R1|]. eapply rtc_l; [|exact R].
    unfold alone, cb_step. cbn [fst snd cb_place cb_todo cb_fwd]. by rewrite E0.
Qed.

End Proofs.
