(* ===== verification/DedupOvershoot.v ===== *)
(** * DedupOvershoot: how far concurrent requests overfill a filter

    [filter] reads a filter's size before it adds to it, in two steps, so
    requests that run at once may all find room for one more (deduplicator.go).
    Along the runs of ReloadRace a filter holds at most one series more than its
    share for each further request, and its bits stay as sparse as that. *)
From S2P Require Import Prelude GoText Types Config SketchSpec GroupSize Snapshot Estimator EstimatorInsert EstimatorWindow.
From S2P Require Import EstimatorLife EstimatorTyped EstimatorExamples Bloom Dedup Churn Reload CompressedList ProtoReader Snappy Proto.
From S2P Require Import WriteHandler ReloadRace.
Local Open Scope Z_scope.

Section Proofs.
Context `{Spec : SketchSpec} `{Ord : IterOrder, !IterOrderOk Ord} `{Xx : Xxhash, !XxhashOk Xx} `{Ql : MetricsQL}
  `{Rnd : FastRand, !FastRandOk Rnd}.

(** The callbacks that have found room in filter [r] and are about to add. *)
Definition room (r : nat) (c : callback) : Z :=
  match cb_place c with HasRoom r' => if decide (r = r') then 1 else 0 | _ => 0 end.
Definition adding (r : nat) (pool : list callback) : Z := foldr (λ c n, room r c + n) 0 pool.

Lemma room_range r c : 0 <= room r c <= 1.
Proof. unfold room. destruct (cb_place c); try lia. case_decide; lia. Qed.

Lemma adding_range r pool : 0 <= adding r pool <= Z.of_nat (length pool).
Proof. induction pool as [|c pool IH]; [done|]. pose proof (room_range r c). unfold adding in *. cbn [foldr length]. lia. Qed.

Lemma adding_insert r pool t c c' : pool !! t = Some c →
  adding r (<[t := c']> pool) = adding r pool - room r c + room r c'.
Proof.
  unfold adding. revert t. induction pool as [|c1 pool IH]; intros [|t] E; [done..| |].
  - injection E as ->. cbn. lia.
  - cbn in E. change (<[S t := c']> (c1 :: pool)) with (c1 :: <[t := c']> pool). cbn [foldr]. rewrite (IH t E). lia.
Qed.

(** A callback not among them leaves a place. *)
Lemma adding_lt r pool t c : pool !! t = Some c → room r c = 0 → adding r pool < Z.of_nat (length pool).
Proof.
  intros E H0. pose proof (adding_insert r pool t c (set_place c (HasRoom r)) E) as Hp.
  pose proof (adding_range r (<[t := set_place c (HasRoom r)]> pool)) as Hr. rewrite length_insert in Hr.
  unfold room in Hp at 2. cbn in Hp. rewrite decide_True in Hp by done. lia.
Qed.

Definition requests (pool : list callback) : Z := Z.max 1 (Z.of_nat (length pool)).

Record filter_ok (M : Z) (pool : list callback) (r : nat) (f : deduplicatorBloomFilter) : Prop := {
  fo_size : 0 <= bf_size f;
  fo_room : bf_size f + adding r pool <= M - 1 + requests pool;
  fo_len : M * bitsPerItem <= Z.of_nat (length (bf_bits f)) * 64;
  fo_ones : Z.of_nat (size (ones (bf_bits f))) <= hashesCount * bf_size f
}.
Definition filters_ok (M : Z) (m : memory) (pool : list callback) : Prop :=
  ∀ r f, m_filters m !! r = Some f → filter_ok M pool r f.

Lemma filter_ok_pool M pool pool' r f : filter_ok M pool r f → length pool' = length pool →
  adding r pool' <= adding r pool → filter_ok M pool' r f.
Proof. intros [H1 H2 H3 H4] Hl Hp. split; try done. unfold requests in *. rewrite Hl. lia. Qed.

(** No filter gets another callback that is about to add. *)
Lemma filters_ok_leave M m pool t c c' : filters_ok M m pool → pool !! t = Some c → (∀ r, room r c' = 0) →
  filters_ok M m (<[t := c']> pool).
Proof.
  intros H E H0 r f Er. apply (filter_ok_pool M pool); [by apply H|by rewrite length_insert|].
  rewrite (adding_insert r pool t c c' E), H0. pose proof (room_range r c). lia.
Qed.

Lemma filters_ok_new M pool : 0 < M < 2 ^ 50 → ∀ r, filter_ok M pool r (newDeduplicatorBloomFilter M).
Proof.
  intros HM r. pose proof (new_bucket_ok M HM) as [_ Hl Hs Ho]. split; [lia| |done|done].
  pose proof (adding_range r pool). unfold requests. replace (bf_size _) with 0 by done. lia.
Qed.

Lemma filters_ok_add M m pool t c r f f' ts b : filters_ok M m pool → pool !! t = Some c → cb_place c = HasRoom r →
  m_filters m !! r = Some f → bloom_ok f → uint 64 (Fingerprint ts) → bloom_add f (Fingerprint ts) = Some (f', b) →
  filters_ok M (set_filter m r f' (Added t r ts)) (<[t := next_series c ts true]> pool).
Proof.
  intros H E Ep Er Hok Hts Ea r1 f1. cbn [set_filter m_filters].
  pose proof (adding_insert r1 pool t c (next_series c ts true) E) as Hp. unfold room in Hp at 1 2. rewrite Ep in Hp. cbn in Hp.
  intros [(<- & <- & _)|[Hne E1]]%list_lookup_insert_Some.
  - destruct (bloom_add_positions f _ Hok Hts) as (f2 & b2 & E2 & _ & Hlen & Hones & Hb & Hsz).
    rewrite Ea in E2. injection E2 as <- <-. destruct (H r f Er) as [H1 H2 H3 H4]. rewrite decide_True in Hp by done.
    split; [destruct b; cbn in Hsz; lia| |by rewrite Hlen|].
    + rewrite Hp. unfold requests in *. rewrite length_insert. destruct b; cbn in Hsz; lia.
    + rewrite Hones. subst b. destruct (bool_decide_reflect (positions (length (bf_bits f)) (Fingerprint ts) loop_indices ⊆ ones (bf_bits f))) as [Hs|Hs]; cbn in Hsz.
      * replace (positions _ _ _ ∪ ones (bf_bits f)) with (ones (bf_bits f)) by set_solver. lia.
      * pose proof (positions_size (length (bf_bits f)) (Fingerprint ts)).
        pose proof (size_union_le (positions (length (bf_bits f)) (Fingerprint ts) loop_indices) (ones (bf_bits f))). lia.
  - apply (filter_ok_pool M pool); [by apply H|by rewrite length_insert|]. rewrite Hp. case_decide; lia.
Qed.

Lemma filters_ok_callback fresh M m pool t c m' c' : 0 < M < 2 ^ 50 → race_ok fresh m pool → filters_ok M m pool → pool !! t = Some c →
  cb_step M t m c = Some (m', c') → filters_ok M m' (<[t := c']> pool).
Proof.
  intros HM Hr H E. pose proof (Forall_lookup_1 _ _ _ _ (ro_pool _ _ _ Hr) E) as Hc. pose proof Hc as [_ Hp].
  unfold cb_step. destruct (cb_place c) as [|r|r|r|es j|] eqn:Ep.
  - destruct (cb_todo c).
    + intros [= <- <-]. eapply filters_ok_leave; [done|done|]. intros r. unfold room. cbn. by destruct (_ =? _)%nat.
    + intros (r & _ & [= <- <-])%bind_Some. by eapply filters_ok_leave.
  - intros ([ts bf] & _ & (b & _ & [= <- <-])%bind_Some)%bind_Some. eapply filters_ok_leave; [done|done|]. by destruct b.
  - intros ([ts bf] & Eh & [= <- <-])%bind_Some. unfold at_hand in Eh. apply bind_Some in Eh as (ts' & _ & Eh).
    apply bind_Some in Eh as (bf' & Er & [= -> ->]). destruct (Z.ltb_spec (bf_size bf) M) as [Hlt|Hge]; [|by eapply filters_ok_leave].
    intros r1 f1 E1. pose proof (adding_insert r1 pool t c (set_place c (HasRoom r)) E) as Hpi.
    unfold room in Hpi at 1 2. rewrite Ep in Hpi. cbn in Hpi. destruct (decide (r1 = r)) as [->|Hne].
    + assert (f1 = bf) as -> by congruence. destruct (H r bf Er) as [H1 H2 H3 H4]. split; try done.
      pose proof (adding_lt r pool t c E ltac:(unfold room; by rewrite Ep)). rewrite Hpi. unfold requests. rewrite length_insert. lia.
    + apply (filter_ok_pool M pool); [by apply H|by rewrite length_insert|lia].
  - destruct Hp as [Hlt Htd]. destruct (at_hand_ok m c r (ro_memory _ _ _ Hr) Hc Hlt Htd) as (ts & rest & bf & _ & Eh & Hbf & Hts).
    rewrite Eh. cbn [mbind option_bind]. intros (f & Ef & [= <- <-])%bind_Some.
    destruct (bloom_add bf _) as [[f' b]|] eqn:Eb; [|done]. injection Ef as <-.
    unfold at_hand in Eh. apply bind_Some in Eh as (ts' & _ & Eh). apply bind_Some in Eh as (bf' & Er & [= -> ->]).
    by eapply filters_ok_add.
  - cbv zeta. destruct (j <? _).
    + intros (o & _ & (e & _ & (e' & _ & [= <- <-])%bind_Some)%bind_Some)%bind_Some. by eapply (filters_ok_leave M m).
    + intros [= <- <-]. by eapply filters_ok_leave.
  - done.
Qed.

Lemma filters_ok_store M m pool i l : 0 < M < 2 ^ 50 → filters_ok M m pool → filters_ok M (store_filter M m i l) pool.
Proof.
  intros HM H r f. cbn [store_filter m_filters]. intros [E|[_ E]]%lookup_app_Some; [by apply H|].
  apply list_lookup_singleton_Some in E as [_ <-]. by apply filters_ok_new.
Qed.

Lemma filters_ok_step cpus M s s' fresh : 0 < M < 2 ^ 50 → race_step cpus M s s' → race_ok fresh s.1 s.2 →
  filters_ok M s.1 s.2 → filters_ok M s'.1 s'.2 ∧ length s'.2 = length s.2.
Proof.
  intros HM Hs Hr H. destruct Hs as [m pool t c m' c' E Ec|m pool streams m' Hwf Hl El|m pool i Hi|m pool o e b e' Eo Hb Er]; cbn in *.
  - split; [by eapply filters_ok_callback|by rewrite length_insert].
  - split; [|done]. unfold load_step in El. destruct (m_loader m) as [|i].
    + apply bind_Some in El as ([msg|es created removed] & _ & [= <-]); [done|]. by case_decide.
    + injection El as <-. destruct (_ <? _)%nat; [by apply filters_ok_store|done].
  - split; [by apply filters_ok_store|done].
  - by split.
Qed.

(** C23: However requests and a reload interleave, a filter records at most one
    series more than its share for each request beyond the first, and sets at
    most four bits for each of those. *)
Theorem filter_overshoot cpus M m0 pool0 m pool r f : 0 < M < 2 ^ 50 → race_start m0 pool0 → Forall (bucket_ok M) (m_filters m0) →
  rtc (race_step cpus M) (m0, pool0) (m, pool) → m_filters m !! r = Some f →
  bf_size f <= M - 1 + requests pool0 ∧
  4 * Z.of_nat (size (ones (bf_bits f))) <= Z.of_nat (length (bf_bits f)) * 64 + 16 * (requests pool0 - 1).
Proof.
  intros HM Hs Hb Hr Ef. destruct (race_start_ok m0 pool0 Hs) as [Hok _].
  assert (filters_ok M m0 pool0) as H0.
  { intros r1 f1 E1. destruct (Forall_lookup_1 _ _ _ _ Hb E1) as [_ Hl Hsz Ho]. split; [lia| |done|done].
    destruct Hs as [_ _ _ (batches & -> & _)]. assert (adding r1 (map start_callback batches) = 0) as ->.
    { clear. induction batches as [|b bs IH]; [done|]. exact IH. }
    unfold requests. lia. }
  destruct (race_run_inv cpus M (λ s, filters_ok M s.1 s.2 ∧ length s.2 = length pool0) HM) with (2 := Hr) (3 := Hok)
    as (fresh & _ & H & Hlen).
  { intros fresh s s' Hstep Hrace [Hf <-]. by eapply filters_ok_step. }
  { done. }
  cbn in *. destruct (H r f Ef) as [H1 H2 H3 H4].
  pose proof (adding_range r pool). unfold requests, hashesCount, bitsPerItem in *. rewrite Hlen in H2. lia.
Qed.
End Proofs.

(** * At a concrete input *)
(** Two requests find the one place of a filter free. *)
Definition demo_crowd : list (list TimeSerie) := [[mkTimeSerie [mkLabel "job" "a" 11] 101]; [mkTimeSerie [mkLabel "job" "b" 12] 111]].
Definition demo_crowd_schedule : list turn_of :=
  replicate 3 (Request 0) ++ replicate 3 (Request 1) ++ [Request 0; Request 1].

Lemma demo_crowd_run :
  match @newEstimator set_sketch_ops demo_ql 1 0 (demo_stream []) with
  | Some (Ok e) =>
      match race_run (Xx := demo_hash) (Ql := demo_ql) (Rnd := demo_rand) 1 1 demo_crowd_schedule (demo_memory 1 e, map start_callback demo_crowd) with
      | Some (m, pool) => bf_size <$> m_filters m !! 1%nat = Some 2
      | _ => False
      end
  | _ => False
  end.
Proof. vm_compute. done. Qed.

Lemma filter_overshoot_witness :
  ∃ e m pool f, @newEstimator set_sketch_ops demo_ql 1 0 (demo_stream []) = Some (Ok e) ∧
    rtc (race_step (Xx := demo_hash) (Ql := demo_ql) (Rnd := demo_rand) 1 1) (demo_memory 1 e, map start_callback demo_crowd) (m, pool) ∧
    m_filters m !! 1%nat = Some f ∧ bf_size f = 2 ∧ bf_size f <= 1 - 1 + requests (map start_callback demo_crowd).
Proof.
  destruct demo_global as (e & He & _ & Hf & _ & _ & _ & _ & H). pose proof demo_crowd_run as Hrun. rewrite He in Hrun.
  match type of Hrun with match ?x with _ => _ end => destruct x as [[m pool]|] eqn:Er; try contradiction end.
  apply fmap_Some in Hrun as (f & Ef & Hsz).
  assert (rtc (race_step (Xx := demo_hash) (Ql := demo_ql) (Rnd := demo_rand) 1 1) (demo_memory 1 e, map start_callback demo_crowd) (m, pool)) as Hr.
  { apply (race_run_steps 1 1 demo_crowd_schedule); [|exact Er]. by repeat constructor. }
  exists e, m, pool, f. split; [exact He|]. split; [exact Hr|]. split; [exact Ef|]. split; [done|].
  apply (filter_overshoot (Spec := set_sketch_spec) (Xx := demo_hash) (XxhashOk0 := demo_hash_ok) (Ql := demo_ql)
    (Rnd := demo_rand) (FastRandOk0 := demo_rand_ok) 1 1 (demo_memory 1 e) (map start_callback demo_crowd) m pool 1 f).
  - lia.
  - apply demo_race_start; [done|done|lia|]. repeat constructor; vm_compute; congruence.
  - apply Forall_replicate, new_bucket_ok. lia.
  - exact Hr.
  - exact Ef.
Defined.
