(* ===== verification/Server.v ===== *)
(** * Server: the requests, the goroutines and the start of the program

    Models app/vmestimator/main.go: the start, the routing of requests to the
    handlers of the other files, and the program as a step relation over its
    whole state, with the steps of the estimators' and the deduplicator's
    rotation goroutines and of the config reloader.  The HTTP library and the
    gob encoder are parameters. *)
From Stdlib Require Import Ascii String.
From S2P Require Import Prelude GoText Types Config SketchSpec GroupSize Snapshot Estimator EstimatorInsert.
From S2P Require Import EstimatorWindow EstimatorLife EstimatorSnapshot EstimatorTyped EstimatorExamples.
From S2P Require Import Bloom Dedup Churn CompressedList ProtoReader XXHash GoQuote Metrics Reload Snappy Proto.
From S2P Require Import WriteHandler Scrape.
Local Open Scope Z_scope.

(** What a handler sends: a status and text, or a stream of snapshots. *)
Inductive reply `{Ops : SketchOps} :=
| Reply (status : Z) (text : byte_list)
| Snapshots (l : list snapshot).

Class HttpServer `{Ops : SketchOps} := {
  request : Type;
  rq_Path : request → string;
  (** reads and uncompresses the body, up to the size given *)
  ReadUncompressedData : Z → request → result byte_list;
  (** the reply to a request that is not authorised *)
  CheckAuthFlag : request → option reply;
  httpserver_Errorf : request → string → reply;
  (** does the encoder get the next snapshot out, after those sent? *)
  enc_Encode : request → list snapshot → snapshot → bool
}.

Record flags := mkFlags {
  httpListenAddrs : list string;
  configPath : string;
  storageNodes : list string;
  cardinalityMetricsExposeAt : string;
  cardinalityMetricsCacheTTL : Z;
  cardinalityMetricsMinCardinality : Z;
  maxInsertRequestSize : Z;
  configCheckInterval : Z;
  deduplicationInterval : Z;
  deduplicationMaxSizeBytes : Z;
  deduplicationMaxSize : Z;
  memoryAllowed : Z;
  availableCPUs : Z
}.

(** [strings.CutPrefix]. *)
Definition CutPrefix (s pre : string) : string :=
  if String.prefix pre s then substring (String.length pre) (String.length s - String.length pre) s else s.

Inductive route := RMetrics | RWrite | RSnapshot | RReset | RReload | RNone.

Definition route_of (exposeAt path : string) : route :=
  if decide (exposeAt ≠ "/metrics"%string ∧ exposeAt ≠ EmptyString ∧ path = exposeAt) then RMetrics
  else
    let path := CutPrefix path "/cardinality" in
    if decide (path = "/api/v1/write"%string) then RWrite
    else if decide (path = "/clusternative/query"%string ∨ path = "/clusternative/snapshot"%string) then RSnapshot
    else if decide (path = "/reset"%string) then RReset
    else if decide (path = "/-/reload"%string) then RReload
    else RNone.

Definition isAuthKeyProtectedPath (path : string) : bool :=
  let path := CutPrefix path "/cardinality" in bool_decide (path = "/-/reload"%string).

(** The counters of the parser. *)
Record read_stats := mkReadStats { readCalls : Z; readErrors : Z; rs_parser : parser_stats }.

Section Defs.
Context `{Tab : UnicodeTables} `{Ops : SketchOps} `{Ord : IterOrder} `{Xx : Xxhash} `{Ql : MetricsQL}
  `{Prs : !Peers} `{OrdS : !KeyOrder string} `{OrdC : !KeyOrder churnKey} `{Int : Interleaving}
  `{Rnd : FastRand} `{Cod : Codecs} `{Http : !HttpServer}.

(** The message leaves out how many seconds it took. *)
Definition Parse {St} (max : Z) (fpLabels : bool) (pl : pools)
    (callback : St → list TimeSerie → option St) (r : request) (m : read_stats) (st : St)
    : option (St * read_stats * result unit) :=
  let m := mkReadStats (readCalls m + 1) (readErrors m) (rs_parser m) in
  let failed e p := (mkReadStats (readCalls m) (readErrors m + 1) p,
    Error ("cannot read prometheus remote_write data from client: " +:+ e)%string) in
  match ReadUncompressedData max r with
  | Error e => Some (st, (failed e (rs_parser m)).1, (failed e (rs_parser m)).2)
  | Ok data =>
      '(st, p, res) ← parseRequestBody max fpLabels pl callback data (rs_parser m) st;
      match res with
      | Error e => Some (st, (failed e p).1, (failed e p).2)
      | Ok _ => Some (st, mkReadStats (readCalls m) (readErrors m) p, Ok tt)
      end
  end.

(** The whole state; [pg_sighup] is the buffered signal channel. *)
Record program := mkProgram {
  pg_server : server;
  pg_cfg : Config;
  pg_reloads : Z;
  pg_reloadErrors : Z;
  pg_success : bool;
  pg_configTimestamp : Z;
  pg_writeRequests : Z;
  pg_stats : read_stats;
  pg_sighup : bool
}.
Definition pg_world (pg : program) : world := sv_world (pg_server pg).
Definition set_server (pg : program) (sv : server) : program :=
  mkProgram sv (pg_cfg pg) (pg_reloads pg) (pg_reloadErrors pg) (pg_success pg) (pg_configTimestamp pg)
    (pg_writeRequests pg) (pg_stats pg) (pg_sighup pg).
Definition set_world (pg : program) (w : world) : program :=
  set_server pg (mkServer w (sv_cache (pg_server pg)) (sv_writes (pg_server pg)) (sv_writeBytes (pg_server pg))).
Definition set_stats (pg : program) (m : read_stats) : program :=
  mkProgram (pg_server pg) (pg_cfg pg) (pg_reloads pg) (pg_reloadErrors pg) (pg_success pg) (pg_configTimestamp pg)
    (pg_writeRequests pg + 1) m (pg_sighup pg).
Definition set_sighup (pg : program) (b : bool) : program :=
  mkProgram (pg_server pg) (pg_cfg pg) (pg_reloads pg) (pg_reloadErrors pg) (pg_success pg) (pg_configTimestamp pg)
    (pg_writeRequests pg) (pg_stats pg) b.

(** The callback of the snapshot handler: a snapshot that cannot be sent ends
    its estimator's snapshots. *)
Definition encode_callback (r : request) (sent : list snapshot) (s : snapshot) : option (list snapshot * bool) :=
  Some (if enc_Encode r sent s then (sent ++ [s], true) else (sent, false)).
Definition write_snapshots (r : request) (es : list estimator) : option (list estimator * list snapshot) :=
  for_each (λ '(es, sent) e,
    '(sent, _, e) ← toSnapshot (encode_callback r) e sent; Some (es ++ [e], sent)) es ([], []).

(** The three readings of the clock a scrape makes. *)
Record clock := mkClock { clk_check : Z; clk_now : Z; clk_end : Z }.
Definition scrape (fl : flags) (clk : clock) (sv : server) : option (server * byte_list) :=
  writeCardinalityMetrics (cardinalityMetricsCacheTTL fl) (cardinalityMetricsMinCardinality fl) (storageNodes fl)
    (clk_check clk) (clk_now clk) (clk_end clk) sv.

(** The request handler; [None] as the reply is the handler's [false]. *)
Definition handle (fl : flags) (clk : clock) (pl : pools) (r : request) (pg : program)
    : option (program * option reply) :=
  match route_of (cardinalityMetricsExposeAt fl) (rq_Path r) with
  | RMetrics =>
      '(sv, text) ← scrape fl clk (pg_server pg);
      Some (set_server pg sv, Some (Reply 200 text))
  | RWrite =>
      let w := pg_world pg in
      '(w, m, res) ← Parse (maxInsertRequestSize fl) (w_fingerprintLabels w) pl write_callback r (pg_stats pg) w;
      let pg := set_stats (set_world pg w) m in
      match res with
      | Error e => Some (pg, Some (httpserver_Errorf r ("error parsing remote write request: " +:+ e)%string))
      | Ok _ => Some (pg, Some (Reply 204 []))
      end
  | RSnapshot =>
      '(es, sent) ← write_snapshots r (w_estimators (pg_world pg));
      Some (set_world pg (set_estimators (pg_world pg) es), Some (Snapshots sent))
  | RReset =>
      w ← reset_request (pg_world pg);
      Some (set_world pg w, Some (Reply 200 []))
  | RReload =>
      match CheckAuthFlag r with
      | Some denied => Some (pg, Some denied)
      | None => Some (set_sighup pg true, Some (Reply 200 []))
      end
  | RNone => Some (pg, None)
  end.

(** What happens: a SIGHUP from outside; a request; a scrape of [/metrics], where the cardinality
    metrics are registered by default; a round of the loop of [runRotation] of
    estimator [i], which read the clock at [now] and whose turn is bucket [b]; a
    tick of the deduplicator; the reloader woken up by the signal or by its own
    ticker, with the file system as it is then. *)
Inductive event :=
| PgSighup
| PgRequest (clk : clock) (pl : pools) (r : request)
| PgMetrics (clk : clock)
| PgRotate (i b : nat) (now : Z)
| PgDedupRotate (now : Z)
| PgWake (src : ConfigSource) (sig : bool) (now : Z).

Definition reload (fl : flags) (src : ConfigSource) (now : Z) (pg : program) : option program :=
  r ← reload_step (Src := src) (availableCPUs fl) (configPath fl) (storageNodes fl)
        (mkReloader (pg_cfg pg) (pg_world pg) (pg_reloads pg) (pg_reloadErrors pg) (pg_success pg));
  let pg' := set_world pg (r_world r) in
  Some (mkProgram (pg_server pg') (r_cfg r) (r_reloads r) (r_reloadErrors r) (r_success r)
    (if r_reloads r =? pg_reloads pg then pg_configTimestamp pg else now)
    (pg_writeRequests pg) (pg_stats pg) (pg_sighup pg)).

(** A round of the rotation goroutine of estimator [i]: the wait for the next
    point of the grid, then the turn of bucket [b]. *)
Definition rotation_round (w : world) (i b : nat) (now : Z) : option world :=
  e ← w_estimators w !! i;
  period ← bucketInterval (Interval (e_cfg e)) (length (e_buckets e));
  _ ← rotation_wait period now;
  rotation_tick w i b.

Definition program_do (fl : flags) (pg : program) (ev : event) : option program :=
  match ev with
  | PgSighup => Some (set_sighup pg true)
  | PgRequest clk pl r => fst <$> handle fl clk pl r pg
  | PgMetrics clk => '(sv, _) ← scrape fl clk (pg_server pg); Some (set_server pg sv)
  | PgRotate i b now => w ← rotation_round (pg_world pg) i b now; Some (set_world pg w)
  | PgDedupRotate now => w ← dedup_tick (pg_world pg) now; Some (set_world pg w)
  | PgWake src sig now => reload fl src now (if (sig : bool) then set_sighup pg false else pg)
  end.

(** The size of the deduplicator, from its flags and [memory.Allowed()]. *)
Definition dedup_max_size (fl : flags) : Z :=
  resolveDeduplicatorMaxSize (deduplicationMaxSizeBytes fl) (deduplicationMaxSize fl) (memoryAllowed fl).

(** The start: [Error] is a [logger.Fatalf]. *)
Definition main_start (fl : flags) (src : ConfigSource) (now : Z) : option (result program) :=
  r ← startDeduplicator (dedup_max_size fl) (deduplicationInterval fl);
  match r with
  | Error e => Some (Error e)
  | Ok dedup =>
      match readConfig (Src := src) (availableCPUs fl) (configPath fl) (storageNodes fl) with
      | Error e => Some (Error ("cannot load config: " +:+ e)%string)
      | Ok cfg =>
          '(w, res) ← loadConfig (availableCPUs fl) cfg (mkWorld [] false dedup newChurnSnapshots None no_chans);
          match res with
          | Error e => Some (Error ("cannot load config: " +:+ e)%string)
          | Ok _ => Some (Ok (mkProgram (mkServer w [] 0 0) cfg 0 0 true now 0 (mkReadStats 0 0 (mkStats 0 0)) false))
          end
      end
  end.

(** The shutdown, once the HTTP server and the reloader have stopped. *)
Definition main_stop (pg : program) : option program :=
  w ← stop_estimators (pg_world pg) (w_estimators (pg_world pg)); Some (set_world pg w).

Definition listenAddrs (fl : flags) : list string :=
  match httpListenAddrs fl with [] => [":8490"%string] | l => l end.
End Defs.

Section Proofs.
Context `{Tab : UnicodeTables} `{Spec : SketchSpec} `{Ord : IterOrder, !IterOrderOk Ord} `{Xx : Xxhash, !XxhashOk Xx}
  `{Ql : MetricsQL} `{Prs : !Peers} `{PrsOk : !PeersOk Prs} `{Int : Interleaving, !InterleavingOk Int}
  `{OrdS : !KeyOrder string} `{OrdSOk : !KeyOrderOk OrdS} `{OrdC : !KeyOrder churnKey} `{OrdCOk : !KeyOrderOk OrdC}
  `{Rnd : FastRand, !FastRandOk Rnd} `{Cod : Codecs} `{Http : !HttpServer}.

(** The turns of the buckets do not take zero nanoseconds. *)
Definition turns_last (ec : EstimatorConfig) : Prop := Z.quot (Z.quot (Interval ec) 2) (Buckets ec) ≠ 0.

(** A sound state of the program: sound and well-shaped estimators that are
    the streams of the active config, a deduplicator within its bounds, sound
    churn entries, and turns that last. *)
Record program_ok (pg : program) : Prop := {
  po_estimators : Forall est_ok (w_estimators (pg_world pg));
  po_length : Z.of_nat (length (w_estimators (pg_world pg))) < 2 ^ 31;
  po_dedup : ∀ d, w_dedup (pg_world pg) = Some d → dd_ok d ∧ 0 < bucketDur d;
  po_churn : entries_sound (w_churn (pg_world pg));
  po_sync : in_sync (pg_cfg pg) (pg_world pg);
  po_turns : Forall turns_last (c_Streams (pg_cfg pg))
}.

(** ** Estimators changed in place *)
Lemma in_sync_same cfg (w w' : world) : in_sync cfg w →
  w_fingerprintLabels w' = w_fingerprintLabels w → w_chans w' = w_chans w →
  Forall2 same_static (w_estimators w) (w_estimators w') → in_sync cfg w'.
Proof.
  intros [[Hn Hc] Hs Hfp Hch] Ef Ech HF.
  assert (map e_id (w_estimators w') = map e_id (w_estimators w)) as Eid.
  { clear -HF. induction HF as [|e e' es es' (Hid & _) _ IH]; [done|]. simpl. by rewrite Hid, IH. }
  assert (∀ e', e' ∈ w_estimators w' → ∃ e, e ∈ w_estimators w ∧ same_static e e') as Hback.
  { intros e' [i Hi]%list_elem_of_lookup. destruct (Forall2_lookup_r _ _ _ _ _ HF Hi) as (e & He & Hse).
    exists e. split; [by eapply list_elem_of_lookup_2|done]. }
  split; [split|..].
  - by rewrite Eid.
  - intros e' (e & He & (-> & -> & _))%Hback. by apply Hc.
  - intros ec. rewrite Hs. split.
    + intros (e & [i Hi]%list_elem_of_lookup & <-). destruct (Forall2_lookup_l _ _ _ _ _ HF Hi) as (e' & He' & (_ & <- & _)).
      exists e'. split; [by eapply list_elem_of_lookup_2|done].
    + intros (e' & (e & He & (_ & -> & _))%Hback & <-). by exists e.
  - intros e' (e & He & (_ & _ & _ & _ & -> & _))%Hback Hk. rewrite Ef. by apply (Hfp e).
  - unfold channels_ok. rewrite Ech. rewrite <- Hch. apply Permutation_app_head.
    enough (map e_stopCh (w_estimators w') = map e_stopCh (w_estimators w)) as -> by done.
    clear -HF. induction HF as [|e e' es es' (_ & _ & _ & _ & _ & _ & Ec & _) _ IH]; [done|]. simpl. by rewrite Ec, IH.
Qed.

Lemma program_ok_world (pg : program) (w' : world) : program_ok pg →
  w_fingerprintLabels w' = w_fingerprintLabels (pg_world pg) → w_chans w' = w_chans (pg_world pg) →
  Forall2 same_static (w_estimators (pg_world pg)) (w_estimators w') → Forall est_ok (w_estimators w') →
  (∀ d, w_dedup w' = Some d → dd_ok d ∧ 0 < bucketDur d) → entries_sound (w_churn w') →
  program_ok (set_world pg w').
Proof.
  intros [He Hl Hd Hc Hs Ht] Ef Ech HF He' Hd' Hc'. split; cbn [pg_world pg_server set_world set_server sv_world pg_cfg]; try done.
  - by rewrite <- (Forall2_length _ _ _ HF).
  - by apply (in_sync_same (pg_cfg pg) (pg_world pg)).
Qed.

Lemma same_static_refl_all es : Forall2 same_static es es.
Proof. induction es; constructor; [apply same_static_refl|done]. Qed.

(** ** The handlers *)
Lemma scrape_ok G fl clk pg : peers_honest G (storageNodes fl) → program_ok pg →
  ∃ sv text, scrape fl clk (pg_server pg) = Some (sv, text) ∧ program_ok (set_server pg sv).
Proof.
  intros HG [He Hl Hd Hc Hs Ht]. unfold scrape, writeCardinalityMetrics.
  destruct (_ || _).
  - destruct (refresh_ok G (cardinalityMetricsMinCardinality fl) (clk_now clk) (storageNodes fl) (sv_world (pg_server pg)) HG He Hc)
      as (w' & locals & cluster & failed & ids & m & -> & _ & _ & (Ef & Ed & Est & HF) & He' & Hc' & _).
    cbn [mbind option_bind]. do 2 eexists. split; [done|].
    assert (Forall2 same_static (w_estimators (pg_world pg)) (w_estimators w')) as HF'.
    { eapply Forall2_impl; [exact HF|]. by intros ? ? [? _]. }
    split; cbn [pg_world pg_server set_server sv_world w_estimators w_dedup w_churn pg_cfg]; try done.
    + by rewrite <- (Forall2_length _ _ _ HF').
    + intros d. rewrite Ed. apply Hd.
    + by apply (in_sync_same (pg_cfg pg) (pg_world pg)).
  - cbn [mbind option_bind]. do 2 eexists. split; [done|]. by split.
Qed.

Lemma fed_ok tss e e' : est_ok e → batch_ok tss → fed tss e e' → est_ok e' ∧ same_static e e'.
Proof.
  intros He Hb (start & Hst & E). pose proof He as [[Hf (p & A & H)] Ht Hc _].
  by apply (est_ok_do e A p (EvInsert tss start) e' H He).
Qed.

Lemma feds_ok tss es es' : Forall est_ok es → batch_ok tss → Forall2 (fed tss) es es' →
  Forall est_ok es' ∧ Forall2 same_static es es'.
Proof.
  intros He Hb HF. induction HF as [|e e' es es' Hfe _ IH]; [by split|]. apply Forall_cons in He as [He1 He].
  destruct (fed_ok tss e e' He1 Hb Hfe) as [? ?]. destruct (IH He). split; by constructor.
Qed.

(** Feeding a batch keeps the state sound. *)
Lemma write_callback_program pg tss : program_ok pg → batch_ok tss → tss ≠ [] →
  ∃ w', write_callback (pg_world pg) tss = Some w' ∧ program_ok (set_world pg w').
Proof.
  intros Hpg Hb Hne. pose proof Hpg as [He Hl Hd Hc Hs _].
  assert (world_sound (pg_world pg)) as Hw.
  { split; [eapply Forall_impl; [exact He|]; by intros e []|done|]. intros d E. by apply Hd. }
  destruct (write_callback_ok (pg_world pg) tss Hw Hb Hne) as (w' & E & Hw' & fwd & Hfwd & Hes).
  exists w'. split; [exact E|].
  assert (w_churn w' = w_churn (pg_world pg) ∧ w_fingerprintLabels w' = w_fingerprintLabels (pg_world pg) ∧
    w_chans w' = w_chans (pg_world pg)) as (Ec & Ef & Est).
  { clear -E. unfold write_callback in E. destruct (w_dedup (pg_world pg)); run_inv; [|done]. destruct (_ =? 0)%nat; by run_inv. }
  assert (batch_ok fwd) as Hbf.
  { unfold forwarded in Hfwd. destruct (w_dedup (pg_world pg)).
    - destruct Hfwd as (d' & _ & _ & Hsub). by apply (batch_ok_sublist tss).
    - by destruct Hfwd as [-> _]. }
  assert (Forall est_ok (w_estimators w') ∧ Forall2 same_static (w_estimators (pg_world pg)) (w_estimators w')) as [He' HF].
  { destruct (decide (fwd = [])); [rewrite Hes; split; [done|apply same_static_refl_all]|by apply (feds_ok fwd)]. }
  apply program_ok_world; try done; [|by rewrite Ec].
  intros d' Ed'. split; [by apply (ws_dedup w' Hw')|]. unfold forwarded in Hfwd.
  destruct (w_dedup (pg_world pg)) as [d|]; [|destruct Hfwd; congruence].
  destruct Hfwd as (d1 & Efl & Ed1 & _). assert (d1 = d') as -> by congruence.
  apply filter_interval in Efl. unfold bucketDur. rewrite Efl. by apply Hd.
Qed.

(** Reading a request, with whatever body. *)
Lemma Parse_ok fl pl r pg : maxInsertRequestSize fl < 2 ^ 32 → program_ok pg →
  ∃ w' m' res, Parse (maxInsertRequestSize fl) (w_fingerprintLabels (pg_world pg)) pl write_callback r (pg_stats pg)
      (pg_world pg) = Some (w', m', res) ∧ program_ok (set_world pg w').
Proof.
  intros Hmax Hpg. unfold Parse. cbv zeta. cbn [rs_parser].
  assert (program_ok (set_world pg (pg_world pg))) as Hsame by (by destruct Hpg).
  destruct (ReadUncompressedData _ r) as [data|msg]; [|by do 3 eexists].
  unfold parseRequestBody. destruct (decompress_total (maxInsertRequestSize fl) (bodyBuffer pl) data) as [[body|msg] ->];
    cbn [mbind option_bind]; [|by do 3 eexists].
  destruct (Z.ltb_spec (maxInsertRequestSize fl) (zlength body)) as [|Hlen]; [by do 3 eexists|].
  destruct (UnmarshalProtobuf_run (w_fingerprintLabels (pg_world pg)) (getWriteRequestUnmarshaler (pl_wru pl)) body) as (wru' & rr & E & Hr).
  rewrite E. cbn [mbind option_bind]. destruct rr as [tss|msg]; [|by do 3 eexists].
  destruct Hr as [_ Hsmall]. pose proof (UnmarshalProtobuf_fps _ _ _ _ _ E) as Hfps.
  destruct tss as [|ts tss]; cbn [length Nat.ltb Nat.leb]; [by do 3 eexists|].
  destruct (write_callback_program pg (ts :: tss) Hpg) as (w' & -> & Hw'); [split; [lia|exact Hfps]|done|].
  cbn [mbind option_bind]. by do 3 eexists.
Qed.

Lemma write_snapshots_ok r es : Forall est_ok es →
  ∃ es' sent, write_snapshots r es = Some (es', sent) ∧ Forall est_ok es' ∧ Forall2 same_static es es'.
Proof.
  intros Hes. unfold write_snapshots.
  destruct (rebuild_ok (λ sent e, '(sent, _, e) ← toSnapshot (encode_callback r) e sent; Some (e, sent)) (λ _ _, True) es [] Hes)
    as (es' & sent & E & _ & Hok & HF); [done| |].
  - intros dn sent e _ _ He. pose proof He as [[Hf (p & A & H)] Ht _ _].
    destruct (toSnapshot_emits p e A H Ht) as (out & e1 & E & H1 & Hs1 & Hb1 & Ht1 & _).
    destruct (toSnapshot_any (encode_callback r) e out e1 sent) as (sent' & ok & e' & E' & He'); [|exact E|].
    { intros st s. unfold encode_callback. eauto. }
    rewrite E'. cbn [mbind option_bind]. exists e', sent'. split; [done|]. split; [done|]. destruct He' as [->| ->].
    + by split; [|split; [apply same_static_refl|]].
    + split; [|done]. apply (est_ok_same e e1 p A); try done. by rewrite Hb1.
  - exists es', sent. split; [|split; [done|eapply Forall2_impl; [exact HF|]; by intros ? ? []]].
    rewrite <- E. apply for_each_ext_in. intros [es1 s1] e _. by destruct (toSnapshot (encode_callback r) e s1) as [[[? ?] ?]|].
Qed.

(** A reset needs every bucket of a global estimator to have rotated. *)
Definition reset_safe (pg : program) : Prop :=
  ∀ e, e ∈ w_estimators (pg_world pg) → is_global e = true → Forall (λ eb, is_Some (eb_prevSketch eb)) (e_buckets e).

Lemma rotated_buckets p e A : est_repr p e A → is_global e = true →
  Forall (λ eb, is_Some (eb_prevSketch eb)) (e_buckets e) → rotated_once A.
Proof.
  intros H Hg Hb. apply Forall_lookup. intros i CP EA.
  destruct (er_lookup p e A i H) as (eb & CP' & Eb & EA' & Hbr); [by eapply lookup_lt_Some|].
  assert (CP' = CP) as -> by congruence. apply bool_decide_eq_true in Hg. destruct Hbr as [_ _ _ Hst]. rewrite Hg in Hst.
  destruct Hst as [_ HP]. destruct (Forall_lookup_1 _ _ _ _ Hb Eb) as [pv Ep]. rewrite Ep in HP.
  destruct HP as (Y & _ & ->). apply map_non_empty_singleton.
Qed.

Lemma reset_request_ok pg : program_ok pg → reset_safe pg →
  ∃ w', reset_request (pg_world pg) = Some w' ∧ program_ok (set_world pg w').
Proof.
  intros Hpg Hsafe. pose proof Hpg as [He Hl Hd Hc Hs _]. unfold reset_request.
  destruct (for_each_inv (λ es e, e ← estimator_reset e; Some (es ++ [e]))
    (λ dn es', Forall est_ok es' ∧ Forall2 same_static dn es') (w_estimators (pg_world pg)) []) as (es' & E & He' & HF).
  - by split.
  - intros dn e es1 [Hes1 HF1] Hin. pose proof (proj1 (Forall_forall _ _) He e Hin) as Hok.
    pose proof Hok as [[Hf (p & A & H)] Ht Hcf _].
    assert (event_ok A (is_global e) EvReset) as Hev.
    { intros Hg. apply (rotated_buckets p e A H Hg). by apply Hsafe. }
    destruct (est_do_refines p e A EvReset H Hf Hev) as (e' & E & _ & _).
    destruct (est_ok_do e A p EvReset e' H Hok Hev E) as [Hok' Hst]. cbn [est_do] in E. rewrite E. cbn [mbind option_bind].
    eexists. split; [done|]. split; [apply Forall_app; split; [done|by constructor]|apply Forall2_app; [done|by constructor]].
  - rewrite E. cbn [mbind option_bind]. eexists. split; [done|]. by apply program_ok_world.
Qed.

(** ** Reloading *)

(** A config file of fewer than 2^31 streams, decoded into the types of the
    config, whose intervals give each bucket a turn of a nanosecond at least. *)
Definition source_ok (src : ConfigSource) : Prop :=
  yaml_typed src ∧ ∀ cpus path nodes cfg, readConfig (Src := src) cpus path nodes = Ok cfg →
    Z.of_nat (length (c_Streams cfg)) < 2 ^ 31 ∧ Forall turns_last (c_Streams cfg).

Definition dedup_sound (dd : option deduplicator) : Prop := ∀ d, dd = Some d → dd_ok d ∧ 0 < bucketDur d.

Lemma dedup_reset_sound dd : dedup_sound dd → dedup_sound (deduplicator_Reset <$> dd).
Proof.
  intros H d' E. destruct dd as [d|]; [|done]. injection E as <-. destruct (H d eq_refl) as [Hd Hu].
  split; [by apply reset_ok|exact Hu].
Qed.

Lemma loadConfig_dedup cpus cfg (w w' : world) res : loadConfig cpus cfg w = Some (w', res) →
  w_dedup w' = w_dedup w ∨ w_dedup w' = deduplicator_Reset <$> w_dedup w.
Proof.
  unfold loadConfig. intros E. apply bind_Some in E as ([msg created s|es created removed s] & _ & E).
  - apply bind_Some in E as (w1 & [s1 ->]%stop_estimators_inv & [= <- _]). by left.
  - destruct (decide _); [run_inv; by left|]. apply bind_Some in E as (w1 & [s1 ->]%stop_estimators_inv & [= <- _]).
    cbn. destruct created; auto.
Qed.

(** Applying a config to sound estimators. *)
Lemma loadConfig_ok cpus cfg0 cfg (w : world) : in_sync cfg0 w → streams_ok (c_Streams cfg) →
  Z.of_nat (length (c_Streams cfg)) < 2 ^ 31 → Z.of_nat (length (w_estimators w)) < 2 ^ 31 →
  Forall est_ok (w_estimators w) → dedup_sound (w_dedup w) → entries_sound (w_churn w) →
  ∃ w' res, loadConfig cpus cfg w = Some (w', res) ∧
    in_sync (match res with Ok _ => cfg | Error _ => cfg0 end) w' ∧
    Forall est_ok (w_estimators w') ∧ Z.of_nat (length (w_estimators w')) < 2 ^ 31 ∧
    dedup_sound (w_dedup w') ∧ entries_sound (w_churn w').
Proof.
  intros Hs Hss Hlen Hl He Hd Hc.
  destruct (loadConfig_sync cpus cfg0 cfg w Hs Hss) as (w1 & res1 & E1 & Hs1 & _).
  destruct (loadConfig_run cpus cfg w (sync_active _ _ Hs) (sync_channels _ _ Hs) Hss) as (w' & res & E & _ & _ & Hres & _).
  assert (w1 = w' ∧ res1 = res) as [-> ->] by (split; congruence).
  exists w', res. split; [exact E|]. split; [exact Hs1|]. destruct res as [[]|msg].
  - destruct Hres as (_ & HF & (stopped & _ & _ & _ & Hch) & Hd1 & Hd2 & _). split_and!.
    + clear -HF He Hss. destruct Hss as [_ Hwf]. induction HF as [|ec e ss es Hse _ IH]; [constructor|].
      apply Forall_cons in Hwf as [Hec Hwf]. constructor; [|by apply IH].
      destruct Hse as [[Hin _]|(_ & ch & Hnew)]; [by apply (proj1 (Forall_forall _ _) He)|by eapply newEstimator_est_ok].
    + by rewrite <- (Forall2_length _ _ _ HF).
    + destruct (loadConfig_dedup _ _ _ _ _ E) as [-> | ->]; [done|by apply dedup_reset_sound].
    + intros k en Ek. rewrite Hch in Ek. destruct (decide _); [done|]. by apply (Hc k).
  - destruct Hres as (-> & _). by split_and!.
  - destruct Hres as (_ & -> & -> & -> & _). by split_and!.
Qed.

Lemma reload_ok fl src now pg : source_ok src → program_ok pg →
  ∃ pg', reload fl src now pg = Some pg' ∧ program_ok pg'.
Proof.
  intros [Hy Hsmall] Hpg. pose proof Hpg as [He Hl Hd Hc Hs Ht]. unfold reload, reload_step. cbn [r_cfg r_world].
  destruct (readConfig _ _ _) as [cfg|msg] eqn:Er.
  2: { cbn [mbind option_bind]. eexists. split; [done|]. by split. }
  destruct (_ =? _).
  { cbn [mbind option_bind]. eexists. split; [done|]. by split. }
  destruct (loadConfig_ok (availableCPUs fl) (pg_cfg pg) cfg (pg_world pg) Hs) as (w' & res & E & Hs' & He' & Hl' & Hd' & Hc');
    try done; [by eapply readConfig_streams_ok|by eapply Hsmall|].
  rewrite E. cbn [mbind option_bind]. destruct (Hsmall _ _ _ _ Er) as [_ Ht'].
  destruct res as [changed|msg]; cbn [mbind option_bind]; (eexists; split; [done|]); by split.
Qed.

(** ** Every step *)
Definition event_possible (fl : flags) (pg : program) (ev : event) : Prop :=
  match ev with
  | PgSighup => True
  | PgRequest clk pl r => route_of (cardinalityMetricsExposeAt fl) (rq_Path r) = RReset → reset_safe pg
  | PgMetrics clk => cardinalityMetricsExposeAt fl = "/metrics"%string
  | PgRotate i b now => ∃ e, w_estimators (pg_world pg) !! i = Some e ∧ (b < length (e_buckets e))%nat
  | PgDedupRotate now => w_dedup (pg_world pg) ≠ None ∧ 0 <= now
  | PgWake src sig now => configPath fl ≠ EmptyString ∧ source_ok src ∧
      (if sig then pg_sighup pg = true else 0 < configCheckInterval fl)
  end.

(** One tick of an estimator's rotation. *)
Lemma rotate_tick_ok pg i b e : program_ok pg → w_estimators (pg_world pg) !! i = Some e →
  (b < length (e_buckets e))%nat →
  ∃ e', estimator_rotate_bucket e b = Some e' ∧
    program_ok (set_world pg (set_estimators (pg_world pg) (<[i := e']> (w_estimators (pg_world pg))))).
Proof.
  intros Hpg Ee Hb. pose proof Hpg as [He Hl Hd Hc Hs _].
  pose proof (Forall_lookup_1 _ _ _ _ He Ee) as Hok. pose proof Hok as [[Hf (p & A & H)] Ht Hcf _].
  assert (event_ok A (is_global e) (EvRotate b)) as Hev by (simpl; by rewrite <- (er_len p e A H)).
  destruct (est_do_refines p e A (EvRotate b) H Hf Hev) as (e' & E & _ & _).
  destruct (est_ok_do e A p (EvRotate b) e' H Hok Hev E) as [Hok' Hst]. cbn [est_do] in E.
  exists e'. split; [exact E|].
  assert (Forall2 same_static (w_estimators (pg_world pg)) (<[i := e']> (w_estimators (pg_world pg)))) as HF.
  { apply Forall2_same_length_lookup. split; [by rewrite length_insert|].
    intros j x y Ex [(-> & <- & _)|[_ Ey]]%list_lookup_insert_Some; [by simplify_eq|].
    simplify_eq. apply same_static_refl. }
  apply program_ok_world; try done. by apply Forall_insert.
Qed.

(** The wait before a turn does not divide by zero. *)
Lemma rotation_round_tick pg i b now e : program_ok pg → w_estimators (pg_world pg) !! i = Some e →
  rotation_round (pg_world pg) i b now = rotation_tick (pg_world pg) i b.
Proof.
  intros [He _ _ _ Hs Ht] Ee. unfold rotation_round. rewrite Ee. cbn [mbind option_bind].
  pose proof (Forall_lookup_1 _ _ _ _ He Ee) as [_ _ Hc Hl]. pose proof (wf_buckets _ Hc) as Hb.
  assert (turns_last (e_cfg e)) as Hz.
  { rewrite Forall_forall in Ht. apply Ht, (sync_streams _ _ Hs). exists e. split; [by eapply list_elem_of_lookup_2|done]. }
  unfold bucketInterval. destruct (Nat.eqb_spec (length (e_buckets e)) 0); [lia|]. rewrite Hl. cbn [mbind option_bind].
  unfold rotation_wait. by rewrite (proj2 (Z.eqb_neq _ _) Hz).
Qed.

Lemma program_do_ok G fl pg ev : peers_honest G (storageNodes fl) → maxInsertRequestSize fl < 2 ^ 32 → program_ok pg →
  event_possible fl pg ev → ∃ pg', program_do fl pg ev = Some pg' ∧ program_ok pg'.
Proof.
  intros HG Hmax Hpg Hev. pose proof Hpg as [He Hl Hd Hc Hs Ht].
  destruct ev as [|clk pl r|clk|i b now|now|src sig now]; simpl in Hev |- *.
  - eexists. split; [done|]. by split.
  - unfold handle. destruct (route_of _ _).
    + destruct (scrape_ok G fl clk pg HG Hpg) as (sv & text & -> & H).
      cbn [mbind option_bind fmap option_fmap option_map fst]. eauto.
    + destruct (Parse_ok fl pl r pg Hmax Hpg) as (w' & m' & res & -> & H). cbn [mbind option_bind].
      destruct H. destruct res; cbn [fmap option_fmap option_map fst]; (eexists; split; [done|]); by split.
    + destruct (write_snapshots_ok r _ He) as (es' & sent & -> & He' & HF).
      cbn [mbind option_bind fmap option_fmap option_map fst]. eexists. split; [done|]. by apply program_ok_world.
    + destruct (reset_request_ok pg Hpg (Hev eq_refl)) as (w' & -> & H).
      cbn [mbind option_bind fmap option_fmap option_map fst]. eauto.
    + destruct (CheckAuthFlag r); cbn [fmap option_fmap option_map fst]; (eexists; split; [done|]); by split.
    + cbn [fmap option_fmap option_map fst]. by eexists.
  - destruct (scrape_ok G fl clk pg HG Hpg) as (sv & text & -> & H). cbn [mbind option_bind]. eauto.
  - destruct Hev as (e & Ee & Hb). rewrite (rotation_round_tick pg i b now e Hpg Ee).
    unfold rotation_tick. rewrite Ee. cbn [mbind option_bind].
    destruct (rotate_tick_ok pg i b e Hpg Ee Hb) as (e' & -> & H). cbn [mbind option_bind]. eauto.
  - destruct Hev as [Hne Hn]. unfold dedup_tick. destruct (w_dedup (pg_world pg)) as [d|] eqn:Ed; [|done]. cbn [mbind option_bind].
    destruct (Hd d eq_refl) as [Hdok Hu]. pose proof (rotate_eq d now Hdok Hu Hn) as E. cbv zeta in E. rewrite E.
    cbn [mbind option_bind]. eexists. split; [done|].
    apply program_ok_world; try done.
    + apply same_static_refl_all.
    + cbn [w_dedup]. intros d' [= <-]. destruct (rotate_ok d now _ Hdok Hu Hn E) as (H1 & H2 & _).
      split; [exact H1|]. exact Hu.
  - destruct Hev as (_ & Hsrc & _). destruct sig; [|by apply (reload_ok fl src)].
    apply (reload_ok fl src now (set_sighup pg false)); [done|by split].
Qed.

Inductive program_step (fl : flags) : program → program → Prop :=
| program_step_do pg ev pg' : event_possible fl pg ev → program_do fl pg ev = Some pg' → program_step fl pg pg'.

(** Starting the program. *)
Lemma main_start_ok fl src now : source_ok src → dedup_max_size fl < 2 ^ 53 →
  deduplicationInterval fl ≠ deduplicationMinInterval →
  ∃ r, main_start fl src now = Some r ∧
    match r with Ok pg => program_ok pg | Error _ => True end.
Proof.
  intros [Hy Hsmall] Hmax Hint. unfold main_start.
  assert (∃ r, startDeduplicator (dedup_max_size fl) (deduplicationInterval fl) = Some r ∧
    match r with Ok dd => dedup_sound dd | Error _ => True end) as (r & -> & Hr).
  { unfold startDeduplicator. destruct (0 <? _); [|by eexists].
    destruct (Z.leb_spec (dedup_max_size fl) deduplicationMinMaxSize) as [|Hm]; [by eexists|].
    destruct (Z.ltb_spec (deduplicationInterval fl) deduplicationMinInterval); [by eexists|].
    destruct (newDeduplicator _ _) as [d|] eqn:En.
    - eexists. split; [done|]. intros d' [= <-]. by destruct (newDeduplicator_ok _ _ _ Hmax En) as (? & ? & _).
    - exfalso. unfold newDeduplicator in En. rewrite (proj2 (Z.leb_gt _ _) Hm) in En.
      destruct (Z.leb_spec (deduplicationInterval fl) deduplicationMinInterval); [lia|done]. }
  cbn [mbind option_bind]. destruct r as [dd|msg]; [|by eexists].
  destruct (readConfig _ _ _) as [cfg|msg] eqn:Er; [|by eexists].
  set (w0 := mkWorld [] false dd newChurnSnapshots None no_chans).
  assert (in_sync (mkStreams 0 []) w0) as Hs0.
  { split; [split; [constructor|by intros e He%elem_of_nil]|..]; simpl.
    - intros ec. split; [by intros He%elem_of_nil|by intros (e & He%elem_of_nil & _)].
    - by intros e He%elem_of_nil.
    - exact (Permutation_refl _). }
  destruct (loadConfig_ok (availableCPUs fl) (mkStreams 0 []) cfg w0 Hs0) as (w' & res & E & Hs' & He' & Hl' & Hd' & Hc');
    [by eapply readConfig_streams_ok|by eapply Hsmall|done|constructor|exact Hr|apply map_Forall_empty|].
  rewrite E. cbn [mbind option_bind]. destruct (Hsmall _ _ _ _ Er) as [_ Ht].
  destruct res as [changed|]; (eexists; split; [done|]); [|done]. by split.
Qed.

Lemma program_steps_ok G fl pg0 pg : peers_honest G (storageNodes fl) → maxInsertRequestSize fl < 2 ^ 32 →
  rtc (program_step fl) pg0 pg → program_ok pg0 → program_ok pg.
Proof.
  intros HG Hmax. induction 1 as [pg|pg0 pg1 pg [pg' ev pg1' Hev Ed] _ IH]; [done|]. intros Hok. apply IH.
  destruct (program_do_ok G fl pg' ev HG Hmax Hok Hev) as (pg2 & E2 & H2). congruence.
Qed.

(** C13: the program never panics.  Started with a config that loads, in every
    state it reaches by requests of any kind with any body, scrapes, rounds of
    the estimators' rotation goroutines, rotations of the deduplicator, and
    reloads of whatever config the file then holds, the state is sound, the
    active estimators are the streams of the active config, and each next step
    succeeds.  Left out, since the program does panic there, are: a /reset before
    every bucket of the global estimators has rotated ([event_possible]), a
    deduplication interval of exactly 30 seconds, a stream interval so small
    that a bucket's turn rounds to zero ([source_ok]), and peers that send
    malformed snapshots ([peers_honest]). *)
Theorem program_never_panics G fl src now :
  peers_honest G (storageNodes fl) → maxInsertRequestSize fl < 2 ^ 32 → source_ok src → dedup_max_size fl < 2 ^ 53 →
  deduplicationInterval fl ≠ deduplicationMinInterval →
  ∃ r, main_start fl src now = Some r ∧
    ∀ pg0 pg, r = Ok pg0 → rtc (program_step fl) pg0 pg →
      program_ok pg ∧
      ∀ ev, event_possible fl pg ev → ∃ pg', program_do fl pg ev = Some pg' ∧ program_step fl pg pg'.
Proof.
  intros HG Hmax Hsrc Hd Hi. destruct (main_start_ok fl src now Hsrc Hd Hi) as (r & E & Hr).
  exists r. split; [exact E|]. intros pg0 pg -> Hrun.
  pose proof (program_steps_ok G fl pg0 pg HG Hmax Hrun Hr) as Hpg.
  split; [exact Hpg|]. intros ev Hev. destruct (program_do_ok G fl pg ev HG Hmax Hpg Hev) as (pg' & E' & _).
  exists pg'. split; [exact E'|]. by apply (program_step_do fl pg ev).
Qed.

(** C30: every rotation goroutine is stopped once.  Each estimator that is
    created, at the start or by a reload, has a stop channel of its own.  In
    every state the program reaches, the channels still open are exactly those
    of the active estimators, which are distinct; every other channel ever made
    has been closed, so neither a reload that fails half way nor a stream that
    is removed or whose settings change leaves a goroutine behind.  The
    shutdown then does not panic: no channel is closed twice, and after it every
    channel ever made has been closed. *)
Theorem program_stops_once G fl src now pg0 pg :
  peers_honest G (storageNodes fl) → maxInsertRequestSize fl < 2 ^ 32 → source_ok src → dedup_max_size fl < 2 ^ 53 →
  deduplicationInterval fl ≠ deduplicationMinInterval →
  main_start fl src now = Some (Ok pg0) → rtc (program_step fl) pg0 pg →
  let w := pg_world pg in let made := ch_made (w_chans w) in
  NoDup (map e_stopCh (w_estimators w)) ∧
  (∀ ch, (ch < made)%nat ∧ ch ∉ ch_closed (w_chans w) ↔ ch ∈ map e_stopCh (w_estimators w)) ∧
  ∃ pg', main_stop pg = Some pg' ∧ ch_made (w_chans (pg_world pg')) = made ∧
    NoDup (ch_closed (w_chans (pg_world pg'))) ∧
    ∀ ch, ch ∈ ch_closed (w_chans (pg_world pg')) ↔ (ch < made)%nat.
Proof.
  intros HG Hmax Hsrc Hd Hi E Hrun. destruct (main_start_ok fl src now Hsrc Hd Hi) as (r & E' & Hr).
  rewrite E in E'. injection E' as <-. intros w made.
  pose proof (sync_channels _ _ (po_sync _ (program_steps_ok G fl pg0 pg HG Hmax Hrun Hr))) as HP.
  unfold channels_ok in HP. fold w in HP. fold made in HP.
  assert (NoDup (ch_closed (w_chans w) ++ map e_stopCh (w_estimators w))) as Hn by (rewrite HP; apply NoDup_seq).
  assert (∀ ch, ch ∈ ch_closed (w_chans w) ++ map e_stopCh (w_estimators w) ↔ (ch < made)%nat) as Hin.
  { intros ch. rewrite HP, elem_of_seq. lia. }
  pose proof Hn as (_ & Hdis & Hn2)%NoDup_app. split; [exact Hn2|]. split.
  { intros ch. rewrite <- (Hin ch), elem_of_app. split; [tauto|]. intros H. split; [tauto|]. intros H1. by apply (Hdis ch). }
  unfold main_stop. fold w. rewrite (stop_estimators_run _ w Hn). cbn [mbind option_bind].
  eexists. split; [done|]. cbn. split; [done|]. by split.
Qed.

(** Only an authorised request makes the reloader run.  Whatever the
    request and the state, handling it raises the signal only on a path that
    the HTTP server leaves to the handler's own key check, and only if that
    check lets the request through. *)
Theorem reload_needs_auth G fl clk pl r pg :
  peers_honest G (storageNodes fl) → maxInsertRequestSize fl < 2 ^ 32 → program_ok pg →
  event_possible fl pg (PgRequest clk pl r) →
  ∃ pg' rp, handle fl clk pl r pg = Some (pg', rp) ∧
    (pg_sighup pg' = true → pg_sighup pg = true ∨ isAuthKeyProtectedPath (rq_Path r) = true ∧ CheckAuthFlag r = None) ∧
    (∀ denied, CheckAuthFlag r = Some denied → pg_sighup pg' = pg_sighup pg).
Proof.
  intros HG Hmax Hpg Hev. destruct (program_do_ok G fl pg _ HG Hmax Hpg Hev) as (pg' & E & _). simpl in E.
  destruct (handle fl clk pl r pg) as [[pg1 rp]|] eqn:Eh; [|done]. exists pg1, rp. split; [done|]. clear E pg' Hev.
  unfold handle in Eh. destruct (route_of _ _) eqn:Er.
  5: { assert (isAuthKeyProtectedPath (rq_Path r) = true) as Hp.
       { unfold isAuthKeyProtectedPath, route_of in *. cbv zeta in *. repeat (destruct (decide _); [done|]).
         destruct (decide _); [|done]. by apply bool_decide_eq_true. }
       destruct (CheckAuthFlag r) as [denied|]; simplify_eq; [by split; [left|]|]. split; [by right|done]. }
  all: run_inv; try (split; [by left|done]).
  destruct (_ : result unit); simplify_eq; split; try done; by left.
Qed.

Lemma snapshot_request_run fl clk pl r pg : program_ok pg →
  route_of (cardinalityMetricsExposeAt fl) (rq_Path r) = RSnapshot → (∀ sent s, enc_Encode r sent s = true) →
  ∃ pg' outs, handle fl clk pl r pg = Some (pg', Some (Snapshots (mjoin outs))) ∧
    Forall2 (λ e out, ∃ e1, toSnapshot collect e [] = Some (out, true, e1)) (w_estimators (pg_world pg)) outs ∧
    Forall2 (λ e e', same_static e e' ∧ e_buckets e' = e_buckets e)
      (w_estimators (pg_world pg)) (w_estimators (pg_world pg')).
Proof.
  intros [He _ _ _ _ _] Hr Henc. unfold handle. rewrite Hr.
  assert (∀ (out sent : list snapshot), for_each (cb_next (encode_callback r)) out sent = Some (sent ++ out)) as Hsend.
  { assert (∀ sent s, cb_next (encode_callback r) sent s = Some (sent ++ [s])) as H1.
    { intros sent s. unfold cb_next, encode_callback. by rewrite Henc. }
    induction out as [|s out IH]; intros sent; [simpl; by rewrite app_nil_r|]. cbn [for_each]. rewrite H1.
    cbn [mbind option_bind]. by rewrite IH, <- app_assoc. }
  destruct (rebuild_ok (λ sent e, '(sent, _, e) ← toSnapshot (encode_callback r) e sent; Some (e, sent))
    (λ dn sent, ∃ outs, sent = mjoin outs ∧ Forall2 (λ e out, ∃ e1, toSnapshot collect e [] = Some (out, true, e1)) dn outs)
    (w_estimators (pg_world pg)) [] He) as (es' & sent & E & (outs & -> & Hout) & _ & HF); [by exists []| |].
  - intros dn sent e (outs & -> & Hout) _ Hok. pose proof Hok as [[Hf (p & A & H)] Ht Hc _].
    destruct (toSnapshot_emits p e A H Ht) as (out & e1 & E & H1 & Hs1 & Hb1 & Ht1 & Ho & Xs & HX & HU).
    rewrite (toSnapshot_fold (encode_callback r) e out e1 (mjoin outs) _ E (Hsend out (mjoin outs))). cbn [mbind option_bind].
    exists e1, (mjoin outs ++ out). split; [done|]. split.
    + exists (outs ++ [out]). split; [rewrite join_app; simpl; by rewrite app_nil_r|].
      apply Forall2_app; [done|]. constructor; [|constructor]. by exists e1.
    + split; [|done]. apply (est_ok_same e e1 p A); try done. by rewrite Hb1.
  - assert (write_snapshots r (w_estimators (pg_world pg)) = Some (es', mjoin outs)) as ->.
    { unfold write_snapshots. rewrite <- E. apply for_each_ext_in. intros [es1 s1] e _. by destruct (toSnapshot (encode_callback r) e s1) as [[[? ?] ?]|]. }
    cbn [mbind option_bind]. do 2 eexists. split; [done|]. by split.
Qed.

(** Asking for the snapshots.  As long as the encoder gets everything out,
    the reply to a snapshot request has, for each estimator, snapshots with
    its id that together stand for exactly its window, so an aggregator that
    merges the replies sees every group; no estimator's bucket changes. *)
Theorem snapshot_request_spec fl clk pl r pg : program_ok pg →
  route_of (cardinalityMetricsExposeAt fl) (rq_Path r) = RSnapshot → (∀ sent s, enc_Encode r sent s = true) →
  ∃ pg' outs, handle fl clk pl r pg = Some (pg', Some (Snapshots (mjoin outs))) ∧
    Forall2 (λ e out, Forall (snapshot_typed e) out ∧ ∃ p A Xs, est_repr p e A ∧
      Forall2 (λ X s, groups_repr p X (s_Sketches s)) Xs out ∧ union_all Xs = window A)
      (w_estimators (pg_world pg)) outs ∧
    Forall2 (λ e e', same_static e e' ∧ e_buckets e' = e_buckets e)
      (w_estimators (pg_world pg)) (w_estimators (pg_world pg')).
Proof.
  intros Hpg Hr Henc. destruct (snapshot_request_run fl clk pl r pg Hpg Hr Henc) as (pg' & outs & E & Hout & Hb).
  exists pg', outs. split; [exact E|]. split; [|exact Hb]. destruct Hpg as [He _ _ _ _ _]. clear -He Hout Spec IterOrderOk0 XxhashOk0.
  induction Hout as [|e out es outs [e1 E] _ IH]; [constructor|]. apply Forall_cons in He as [Hok He]. constructor; [|by apply IH].
  pose proof Hok as [[Hf (p & A & H)] Ht Hc _].
  destruct (toSnapshot_emits p e A H Ht) as (out' & e1' & E' & _ & _ & _ & _ & Ho & Xs & HX & HU).
  rewrite E in E'. injection E' as <- _. split; [exact Ho|]. by exists p, A, Xs.
Qed.
End Proofs.

(** The metrics path takes precedence: a metrics path equal to the reload path
    is served without any key, although the HTTP server leaves it alone. *)
Lemma metrics_path_unprotected : isAuthKeyProtectedPath "/-/reload" = true ∧ route_of "/-/reload" "/-/reload" = RMetrics.
Proof. split; reflexivity. Qed.

(** An interval of less than two nanoseconds per bucket makes the first round of
    the rotation goroutine divide by zero. *)
Lemma tiny_interval_panics `{Ops : SketchOps} `{Ql : MetricsQL} (w : world) i b now e : w_estimators w !! i = Some e →
  0 <= Interval (e_cfg e) < 2 * Z.of_nat (length (e_buckets e)) → rotation_round w i b now = None.
Proof.
  intros Ee Hi. unfold rotation_round, bucketInterval. rewrite Ee. cbn [mbind option_bind].
  destruct (Nat.eqb_spec (length (e_buckets e)) 0); [done|]. cbn [mbind option_bind]. unfold rotation_wait.
  rewrite (Z.quot_div_nonneg (Interval _)) by lia.
  rewrite Z.quot_small; [done|]. split; [apply Z.div_pos; lia|apply Z.div_lt_upper_bound; lia].
Qed.

(** ** Concrete runs *)
Definition demo_http : @HttpServer set_sketch_ops := {|
  request := string;
  rq_Path r := r;
  ReadUncompressedData max r := Ok (stored_block (encode_request demo_request));
  CheckAuthFlag r := None;
  httpserver_Errorf r msg := Reply 400 (bytes_of_string msg);
  enc_Encode r sent s := true
|}.

Definition demo_flags : flags := {|
  httpListenAddrs := [];
  configPath := "streams.yaml"%string;
  storageNodes := ["http://a"%string; "http://b"%string];
  cardinalityMetricsExposeAt := "/metrics"%string;
  cardinalityMetricsCacheTTL := 30;
  cardinalityMetricsMinCardinality := 0;
  maxInsertRequestSize := 32 * 1024 * 1024;
  configCheckInterval := 0;
  deduplicationInterval := 0;
  deduplicationMaxSizeBytes := 0;
  deduplicationMaxSize := 10000;
  memoryAllowed := 4294967296;
  availableCPUs := 1
|}.

(** The file after its stream has got another minimum cardinality. *)
Definition demo_src2 : ConfigSource := {|
  os_ReadFile path := Ok "streams: []"%string;
  yaml_UnmarshalStrict data := Ok [mkConfig EmptyString ["__label__"%string; "job"%string] 0 None 0 false 0 0 None 5]
|}.

Lemma demo_streams_source `{X : Xxhash} data ec : Interval ec = 0 → Buckets ec = 0 → HLLPrecision ec = 0 →
  source_ok (Xx := X) {| os_ReadFile path := Ok data; yaml_UnmarshalStrict data := Ok [ec] |}.
Proof.
  intros Hi Hb Hp. split; [intros d ss [= <-]; constructor; [lia|constructor]|].
  intros cpus path nodes cfg E. unfold readConfig in E.
  destruct (decide _); [destruct nodes; [done|]; injection E as <-; by split|]. cbn [os_ReadFile yaml_UnmarshalStrict] in E.
  destruct (prepare cpus _) as [ss|] eqn:Ep; [|done]. injection E as <-. cbn [c_Streams]. unfold prepare, prepare_streams, prepare_stream in Ep.
  destruct (negb _ && _); [done|]. destruct (prepare_groupBy _) as [g|]; [|done].
  destruct (prepare_ids _ _); [|done]. injection Ep as <-. split; [done|]. constructor; [|constructor].
  unfold turns_last, applyDefaults. cbn [Interval Buckets set_GroupBy]. rewrite Hi, Hb.
  change (if 0 <=? 0 then Z.max 4 (Z.min 64 (2 * cpus)) else 0) with (Z.max 4 (Z.min 64 (2 * cpus))).
  change (Z.quot (if 0 =? 0 then 5 * minute else 0) 2) with 150000000000. intros H%Z.quot_small_iff; lia.
Qed.

Lemma demo_source_ok `{X : Xxhash} : source_ok (Xx := X) demo_src.
Proof. by apply demo_streams_source. Qed.
Lemma demo_source_ok2 `{X : Xxhash} : source_ok (Xx := X) demo_src2.
Proof. by apply demo_streams_source. Qed.

Lemma demo_started :
  match @main_start set_sketch_ops demo_hash demo_ql demo_flags demo_src 5 with
  | Some (Ok pg) => length (w_estimators (pg_world pg)) = 1%nat
  | _ => False
  end.
Proof. vm_compute. reflexivity. Qed.

Lemma program_never_panics_witness :
  ∃ pg0 pg', @main_start set_sketch_ops demo_hash demo_ql demo_flags demo_src 5 = Some (Ok pg0) ∧
    program_ok (Spec := set_sketch_spec) pg0 ∧
    program_do (Tab := demo_tables) (Xx := demo_hash) (Ql := demo_ql) (Prs := demo_peers) (OrdS := demo_order string) (OrdC := demo_order churnKey)
      (Int := demo_interleaving) (Rnd := demo_rand) (Cod := demo_codecs) (Http := demo_http) demo_flags pg0
      (PgRequest (Http := demo_http) (mkClock 5 6 7) demo_pools "/cardinality/api/v1/write") = Some pg'.
Proof.
  destruct (program_never_panics (Tab := demo_tables) (Spec := set_sketch_spec) (Xx := demo_hash) (Ql := demo_ql) (XxhashOk0 := demo_hash_ok)
    (Prs := demo_peers) (PrsOk := demo_peers_ok) (Int := demo_interleaving) (InterleavingOk0 := demo_interleaving_ok)
    (OrdS := demo_order string) (OrdSOk := demo_order_ok string) (OrdC := demo_order churnKey) (OrdCOk := demo_order_ok churnKey)
    (Rnd := demo_rand) (FastRandOk0 := demo_rand_ok) (Cod := demo_codecs) (Http := demo_http)
    (λ _, ["foo"%string]) demo_flags demo_src 5 (demo_honest _)) as (r & E & Hr).
  - reflexivity.
  - exact demo_source_ok.
  - reflexivity.
  - discriminate.
  - pose proof demo_started as Hs. rewrite E in Hs. destruct r as [pg0|]; [|destruct Hs].
    destruct (Hr pg0 pg0 eq_refl (rtc_refl _ pg0)) as [Hok Hdo].
    destruct (Hdo (PgRequest (Http := demo_http) (mkClock 5 6 7) demo_pools "/cardinality/api/v1/write"%string)) as (pg' & E' & _).
    + intros H. discriminate H.
    + exists pg0, pg'. exact (conj E (conj Hok E')).
Defined.

Lemma demo_program :
  ∃ pg0, @main_start set_sketch_ops demo_hash demo_ql demo_flags demo_src 5 = Some (Ok pg0) ∧
    program_ok (Spec := set_sketch_spec) pg0.
Proof.
  destruct (main_start_ok (Spec := set_sketch_spec) (Xx := demo_hash) (Ql := demo_ql) demo_flags demo_src 5 demo_source_ok) as (r & E & Hr);
    [reflexivity|discriminate|].
  pose proof demo_started as Hs. rewrite E in Hs. destruct r as [pg0|]; [|destruct Hs]. exists pg0. exact (conj E Hr).
Qed.

(** The reload replaces the estimator by one of the same id: the first channel
    is closed, the second is the new estimator's. *)
Lemma demo_reloaded :
  match @main_start set_sketch_ops demo_hash demo_ql demo_flags demo_src 5 with
  | Some (Ok pg0) =>
      match @reload set_sketch_ops demo_hash demo_ql demo_flags demo_src2 9 (set_sighup (set_sighup pg0 true) false) with
      | Some pg => map e_id (w_estimators (pg_world pg)) = map e_id (w_estimators (pg_world pg0)) ∧
          map e_stopCh (w_estimators (pg_world pg)) = [1%nat] ∧ w_chans (pg_world pg) = mkChans 2 [0%nat]
      | None => False
      end
  | _ => False
  end.
Proof. vm_compute. repeat split. Qed.

Lemma program_stops_once_witness :
  ∃ pg0 pg pg', @main_start set_sketch_ops demo_hash demo_ql demo_flags demo_src 5 = Some (Ok pg0) ∧
    rtc (program_step (Tab := demo_tables) (Xx := demo_hash) (Ql := demo_ql) (Prs := demo_peers) (OrdS := demo_order string) (OrdC := demo_order churnKey)
      (Int := demo_interleaving) (Rnd := demo_rand) (Cod := demo_codecs) (Http := demo_http) demo_flags) pg0 pg ∧
    w_chans (pg_world pg) = mkChans 2 [0%nat] ∧ main_stop pg = Some pg'.
Proof.
  pose proof demo_reloaded as Hr.
  match type of Hr with match ?x with _ => _ end => destruct x as [[pg0|msg]|] eqn:E; [|destruct Hr|destruct Hr] end.
  match type of Hr with match ?x with _ => _ end => destruct x as [pg|] eqn:Er; [|destruct Hr] end.
  destruct Hr as (_ & _ & Hc).
  assert (rtc (program_step (Tab := demo_tables) (Xx := demo_hash) (Ql := demo_ql) (Prs := demo_peers) (OrdS := demo_order string) (OrdC := demo_order churnKey)
      (Int := demo_interleaving) (Rnd := demo_rand) (Cod := demo_codecs) (Http := demo_http) demo_flags) pg0 pg) as Hrun.
  { apply (rtc_l _ _ (set_sighup pg0 true)); [exact (program_step_do demo_flags pg0 PgSighup _ I eq_refl)|].
    apply rtc_once. apply (program_step_do demo_flags (set_sighup pg0 true) (PgWake demo_src2 true 9)); [|exact Er].
    split; [discriminate|]. split; [exact demo_source_ok2|reflexivity]. }
  destruct (program_stops_once (Tab := demo_tables) (Spec := set_sketch_spec) (Xx := demo_hash) (Ql := demo_ql) (XxhashOk0 := demo_hash_ok)
    (Prs := demo_peers) (PrsOk := demo_peers_ok) (Int := demo_interleaving) (InterleavingOk0 := demo_interleaving_ok)
    (OrdS := demo_order string) (OrdSOk := demo_order_ok string) (OrdC := demo_order churnKey) (OrdCOk := demo_order_ok churnKey)
    (Rnd := demo_rand) (FastRandOk0 := demo_rand_ok) (Cod := demo_codecs) (Http := demo_http)
    (λ _, ["foo"%string]) demo_flags demo_src 5 pg0 pg (demo_honest _)) as (_ & _ & pg' & Es & _).
  - reflexivity.
  - exact demo_source_ok.
  - reflexivity.
  - discriminate.
  - exact E.
  - exact Hrun.
  - exists pg0, pg, pg'. exact (conj eq_refl (conj Hrun (conj Hc Es))).
Defined.

Lemma reload_needs_auth_witness :
  ∃ pg0 pg' rp, @main_start set_sketch_ops demo_hash demo_ql demo_flags demo_src 5 = Some (Ok pg0) ∧
    handle (Tab := demo_tables) (Xx := demo_hash) (Ql := demo_ql) (Prs := demo_peers) (OrdS := demo_order string) (OrdC := demo_order churnKey)
      (Int := demo_interleaving) (Rnd := demo_rand) (Cod := demo_codecs) (Http := demo_http) demo_flags (mkClock 5 6 7) demo_pools
      "/cardinality/-/reload"%string pg0 = Some (pg', rp).
Proof.
  destruct demo_program as (pg0 & E & Hok).
  destruct (reload_needs_auth (Tab := demo_tables) (Spec := set_sketch_spec) (Xx := demo_hash) (Ql := demo_ql) (XxhashOk0 := demo_hash_ok)
    (Prs := demo_peers) (PrsOk := demo_peers_ok) (Int := demo_interleaving) (InterleavingOk0 := demo_interleaving_ok)
    (OrdS := demo_order string) (OrdSOk := demo_order_ok string) (OrdC := demo_order churnKey) (OrdCOk := demo_order_ok churnKey)
    (Rnd := demo_rand) (FastRandOk0 := demo_rand_ok) (Cod := demo_codecs) (Http := demo_http)
    (λ _, ["foo"%string]) demo_flags (mkClock 5 6 7) demo_pools "/cardinality/-/reload"%string pg0 (demo_honest _))
    as (pg' & rp & E' & _).
  - reflexivity.
  - exact Hok.
  - intros H. discriminate H.
  - exists pg0, pg', rp. exact (conj E E').
Defined.

Lemma snapshot_request_spec_witness :
  ∃ pg0 pg' outs, @main_start set_sketch_ops demo_hash demo_ql demo_flags demo_src 5 = Some (Ok pg0) ∧
    handle (Tab := demo_tables) (Xx := demo_hash) (Ql := demo_ql) (Prs := demo_peers) (OrdS := demo_order string) (OrdC := demo_order churnKey)
      (Int := demo_interleaving) (Rnd := demo_rand) (Cod := demo_codecs) (Http := demo_http) demo_flags (mkClock 5 6 7) demo_pools
      "/clusternative/snapshot"%string pg0 = Some (pg', Some (Snapshots (mjoin outs))).
Proof.
  destruct demo_program as (pg0 & E & Hok).
  destruct (snapshot_request_spec (Tab := demo_tables) (Spec := set_sketch_spec) (Xx := demo_hash) (Ql := demo_ql)
    (Prs := demo_peers) (Int := demo_interleaving)
    (OrdS := demo_order string) (OrdC := demo_order churnKey)
    (Rnd := demo_rand) (Cod := demo_codecs) (Http := demo_http)
    demo_flags (mkClock 5 6 7) demo_pools "/clusternative/snapshot"%string pg0 Hok) as (pg' & outs & E' & _).
  - reflexivity.
  - reflexivity.
  - exists pg0, pg', outs. exact (conj E E').
Defined.
