(* ===== verification/EndToEnd.v ===== *)
(** * EndToEnd: from the bytes of write requests to the snapshots

    Puts the components together along the path of the data: requests with
    compressed and encoded series go through the handler of main.go into the
    estimators, and a request for the snapshots gives back what was sent. *)
From Stdlib Require Import Ascii String.
From S2P Require Import Prelude GoText Types Config SketchSpec GroupSize Snapshot Estimator EstimatorInsert.
From S2P Require Import EstimatorWindow EstimatorLife EstimatorSnapshot EstimatorTyped EstimatorExamples.
From S2P Require Import Bloom Dedup Churn CompressedList ProtoReader XXHash GoQuote Metrics Reload Snappy Proto.
From S2P Require Import WriteHandler Scrape Server.
Local Open Scope Z_scope.

Section EndToEnd.
Context `{Tab : UnicodeTables} `{Spec : SketchSpec} `{Ord : IterOrder, !IterOrderOk Ord} `{Xx : Xxhash, !XxhashOk Xx}
  `{Ql : MetricsQL} `{Prs : !Peers} `{PrsOk : !PeersOk Prs} `{Int : Interleaving, !InterleavingOk Int}
  `{OrdS : !KeyOrder string} `{OrdSOk : !KeyOrderOk OrdS} `{OrdC : !KeyOrder churnKey} `{OrdCOk : !KeyOrderOk OrdC}
  `{Rnd : FastRand, !FastRandOk Rnd} `{Cod : Codecs} `{Http : !HttpServer}.

(** A write request whose body is a snappy block of the encoded series. *)
Record write_sent (fl : flags) (r : request) (body : list request_field) : Prop := {
  ws_route : route_of (cardinalityMetricsExposeAt fl) (rq_Path r) = RWrite;
  ws_data : ∃ data, ReadUncompressedData (maxInsertRequestSize fl) r = Ok data ∧ Forall (uint 8) data ∧
    is_block data (encode_request body);
  ws_fields : Forall request_field_ok body;
  ws_bytes : Forall (uint 8) (encode_request body);
  ws_size : zlength (encode_request body) <= maxInsertRequestSize fl
}.
Definition series_of (fp : bool) (body : list request_field) : list TimeSerie := map (serie_of fp) (request_series body).

(** One request after the other, with the replies. *)
Definition serve (fl : flags) (s : program * list (option reply)) (x : clock * pools * request)
    : option (program * list (option reply)) :=
  let '(clk, pl, r) := x in
  '(pg, rp) ← handle fl clk pl r s.1; Some (pg, s.2 ++ [rp]).

(** ** What an estimator takes in *)
Definition below_limit (e : estimator) (A : list bucket_state) (tss : list TimeSerie) : Prop :=
  is_global e = false →
  Z.of_nat (size (dom (groups_union (window A) (ops_family (map fst (batch_ops e tss)))))) <= gs_limit (e_groupSize e).
Definition absorbed (tss : list TimeSerie) (e e' : estimator) : Prop :=
  same_static e e' ∧ ∀ p A, est_repr p e A → below_limit e A tss →
    ∃ A', est_repr p e' A' ∧ window A' = groups_union (ops_family (map fst (batch_ops e tss))) (window A).

Lemma absorbed_refl e : absorbed [] e e.
Proof.
  split; [apply same_static_refl|]. intros p A H _. exists A. split; [done|].
  symmetry. apply groups_union_empty.
Qed.

Lemma batch_ops_app e t1 t2 : batch_ops e (t1 ++ t2) = batch_ops e t1 ++ batch_ops e t2.
Proof. unfold batch_ops. by rewrite map_app, join_app. Qed.
Lemma ops_family_app o1 o2 : ops_family (o1 ++ o2) = groups_union (ops_family o1) (ops_family o2).
Proof. unfold ops_family. by rewrite map_app, union_all_app. Qed.

Lemma absorbed_trans t1 t2 e1 e2 e3 : absorbed t1 e1 e2 → absorbed t2 e2 e3 → absorbed (t1 ++ t2) e1 e3.
Proof.
  intros [Hs1 H1] [Hs2 H2]. split; [by eapply same_static_trans|]. intros p A H Hlim.
  unfold below_limit in Hlim. rewrite batch_ops_app, map_app, ops_family_app in Hlim |- *.
  set (F1 := ops_family (map fst (batch_ops e1 t1))) in *. set (F2 := ops_family (map fst (batch_ops e1 t2))) in *.
  destruct (H1 p A H) as (A2 & HA2 & W2).
  { intros Hg. etrans; [|exact (Hlim Hg)]. apply inj_le, subseteq_size. fold F1. rewrite !dom_groups_union. set_solver. }
  destruct (H2 p A2 HA2) as (A3 & HA3 & W3).
  { intros Hg. rewrite (same_static_global e1 e2) in Hg by done. rewrite (same_static_batch_ops e1 e2) by done.
    pose proof Hs1 as (_ & _ & _ & _ & _ & _ & _ & ->). etrans; [|exact (Hlim Hg)]. apply inj_le, subseteq_size.
    fold F2. rewrite W2, !dom_groups_union. fold F1. set_solver. }
  exists A3. split; [done|]. rewrite W3, W2, (same_static_batch_ops e1 e2) by done. fold F1 F2.
  by rewrite !groups_union_assoc, (groups_union_comm F2).
Qed.

Lemma fed_absorbed tss e e' : est_ok e → batch_ok tss → fed tss e e' → absorbed tss e e'.
Proof.
  intros He Hb Hfed. destruct (fed_ok tss e e' He Hb Hfed) as [_ Hst]. split; [done|]. intros p A H Hlim.
  destruct Hfed as (start & Hs & E). pose proof He as [[Hf _] _ _ _].
  destruct (insertMany_below_limit p e A tss start H Hf Hb Hs Hlim) as (e1 & A' & E' & H' & _ & Hc & Hp).
  rewrite E in E'. injection E' as <-. exists A'. split; [done|]. unfold window. by rewrite Hc, Hp, groups_union_assoc.
Qed.

(** ** One write request *)
Lemma encoded_batch_ok fp body : Forall request_field_ok body → Forall (uint 8) (encode_request body) →
  zlength (encode_request body) < 2 ^ 32 → batch_ok (series_of fp body).
Proof.
  intros Hok Hb Hl. assert (message_ok (encode_request body)) as Hm by (split; [done|lia]).
  pose proof (UnmarshalProtobuf_encode fp (mkWru (mkWR []) []) body Hok Hm) as E. fold (series_of fp body) in E. cbv zeta in E.
  destruct (UnmarshalProtobuf_run fp (mkWru (mkWR []) []) (encode_request body)) as (wru & r & E' & Hr).
  rewrite E in E'. injection E' as <- <-. destruct Hr as [_ Hr]. split; [lia|].
  by apply (UnmarshalProtobuf_fps _ _ _ _ _ E).
Qed.

Lemma write_one fl clk pl r pg body : program_ok pg → w_dedup (pg_world pg) = None → maxInsertRequestSize fl < 2 ^ 32 →
  write_sent fl r body →
  ∃ pg', handle fl clk pl r pg = Some (pg', Some (Reply 204 [])) ∧ program_ok pg' ∧ w_dedup (pg_world pg') = None ∧
    w_fingerprintLabels (pg_world pg') = w_fingerprintLabels (pg_world pg) ∧
    Forall2 (absorbed (series_of (w_fingerprintLabels (pg_world pg)) body)) (w_estimators (pg_world pg)) (w_estimators (pg_world pg')).
Proof.
  intros Hpg Hd Hmax [Hroute (data & Eread & Hdata & Hblk) Hf Hb Hsz]. set (fp := w_fingerprintLabels (pg_world pg)).
  set (tss := series_of fp body). assert (batch_ok tss) as Hbatch by (apply encoded_batch_ok; [done|done|lia]).
  assert (∃ w' m, Parse (maxInsertRequestSize fl) fp pl write_callback r (pg_stats pg) (pg_world pg) = Some (w', m, Ok tt) ∧
    if decide (tss = []) then w' = pg_world pg else write_callback (pg_world pg) tss = Some w') as (w' & m & Ep & Hw).
  { unfold Parse. cbv zeta. rewrite Eread.
    rewrite (parseRequestBody_encoded _ fp pl write_callback data body _ (pg_world pg) Hdata Hblk Hf Hb Hsz). fold (series_of fp body) tss.
    destruct (decide (tss = [])); cbn [mbind option_bind]; [by do 2 eexists|].
    destruct (write_callback_program pg tss Hpg Hbatch) as (w' & -> & _); [done|]. cbn [mbind option_bind]. by do 2 eexists. }
  exists (set_stats (set_world pg w') m). split; [unfold handle; rewrite Hroute; cbv zeta; fold fp; by rewrite Ep|].
  destruct (decide (tss = [])) as [Et|Et].
  - subst w'. rewrite Et. destruct Hpg as [He Hl Hdd Hc Hs Ht]. split; [by split|]. split; [done|]. split; [done|].
    apply Forall2_same_length_lookup. split; [done|]. cbn. intros i e e' E E'. replace e' with e by congruence. apply absorbed_refl.
  - destruct (write_callback_program pg tss Hpg Hbatch Et) as (w1 & E1 & [He1 Hl1 Hd1 Hc1 Hs1 Ht1]). rewrite Hw in E1. injection E1 as <-.
    pose proof Hpg as [He Hl Hdd Hc Hs Ht].
    assert (world_sound (pg_world pg)) as Hsound.
    { split; [eapply Forall_impl; [exact He|]; by intros e []|done|]. intros d E. by apply Hdd. }
    destruct (write_callback_ok (pg_world pg) tss Hsound Hbatch Et) as (w1 & E1 & _ & fwd & Hfwd & Hes).
    rewrite Hw in E1. injection E1 as <-. unfold forwarded in Hfwd. rewrite Hd in Hfwd. destruct Hfwd as [-> Hd'].
    rewrite decide_False in Hes by done.
    assert (w_fingerprintLabels w' = fp) as Hfp.
    { clear -Hw Hd. unfold write_callback in Hw. rewrite Hd in Hw. by run_inv. }
    split; [by split|]. split; [exact Hd'|]. split; [exact Hfp|].
    change (w_estimators (pg_world (set_stats (set_world pg w') m))) with (w_estimators w').
    clear -He Hes Hbatch Spec IterOrderOk0 XxhashOk0.
    induction Hes as [|e e' es es' Hfe _ IH]; [constructor|]. apply Forall_cons in He as [Hok He].
    constructor; [by apply fed_absorbed|by apply IH].
Qed.

(** ** Any number of them *)
Lemma Forall2_compose {V} (P Q R : V → V → Prop) l1 l2 l3 : (∀ a b c, P a b → Q b c → R a c) →
  Forall2 P l1 l2 → Forall2 Q l2 l3 → Forall2 R l1 l3.
Proof.
  intros H HP. revert l3. induction HP as [|a b l1 l2 Hab _ IH]; intros l3 HQ; inversion HQ; subst; constructor; eauto.
Qed.

Lemma write_many fl reqs bodies : Forall2 (λ x body, write_sent fl x.2 body) reqs bodies → ∀ pg rps,
  program_ok pg → w_dedup (pg_world pg) = None → maxInsertRequestSize fl < 2 ^ 32 →
  ∃ pg', for_each (serve fl) reqs (pg, rps) = Some (pg', rps ++ replicate (length reqs) (Some (Reply 204 []))) ∧ program_ok pg' ∧
    Forall2 (absorbed (mjoin (map (series_of (w_fingerprintLabels (pg_world pg))) bodies)))
      (w_estimators (pg_world pg)) (w_estimators (pg_world pg')).
Proof.
  induction 1 as [|[[clk pl] r] body reqs bodies Hw _ IH]; intros pg rps Hpg Hd Hmax.
  { exists pg. split; [by rewrite app_nil_r|]. split; [done|]. apply Forall2_same_length_lookup. split; [done|].
    intros i e e' E E'. replace e' with e by congruence. apply absorbed_refl. }
  destruct (write_one fl clk pl r pg body Hpg Hd Hmax Hw) as (pg1 & E1 & Hpg1 & Hd1 & Hfp & HF1).
  cbn [for_each serve fst snd]. rewrite E1. cbn [mbind option_bind].
  destruct (IH pg1 (rps ++ [Some (Reply 204 [])]) Hpg1 Hd1 Hmax) as (pg2 & E2 & Hpg2 & HF2).
  exists pg2. split; [rewrite E2, <- app_assoc; done|]. split; [done|]. rewrite Hfp in HF2.
  eapply Forall2_compose; [|exact HF1|exact HF2]. intros e e1 e2 H1 H2. cbn [map mjoin list_join].
  by apply (absorbed_trans _ _ e e1 e2).
Qed.

(** C3: the program counts what it is sent.  From any state the program reaches
    without a deduplicator, a sequence of write requests, each with series in
    protobuf form compressed with snappy, is answered with 204 throughout,
    whatever is in the pools; and the reply to a request for the snapshots
    after them has, for every estimator whose group limit the groups do not
    exceed, snapshots that together stand for exactly the hashes it reported
    before and those of all the series sent that match its filter, group by
    group. *)
Theorem sent_series_reported fl reqs bodies pg clk pl r :
  program_ok pg → w_dedup (pg_world pg) = None → maxInsertRequestSize fl < 2 ^ 32 →
  Forall2 (λ x body, write_sent fl x.2 body) reqs bodies →
  route_of (cardinalityMetricsExposeAt fl) (rq_Path r) = RSnapshot → (∀ sent s, enc_Encode r sent s = true) →
  let tss := mjoin (map (series_of (w_fingerprintLabels (pg_world pg))) bodies) in
  ∃ pg1 pg2 outs, for_each (serve fl) reqs (pg, []) = Some (pg1, replicate (length reqs) (Some (Reply 204 []))) ∧
    handle fl clk pl r pg1 = Some (pg2, Some (Snapshots (mjoin outs))) ∧
    Forall2 (λ e out, ∀ p A, est_repr p e A → below_limit e A tss →
      Forall (λ s, s_ID s = e_id e) out ∧ ∃ Xs, Forall2 (λ X s, groups_repr p X (s_Sketches s)) Xs out ∧
        union_all Xs = groups_union (ops_family (map fst (batch_ops e tss))) (window A))
      (w_estimators (pg_world pg)) outs.
Proof.
  intros Hpg Hd Hmax Hw Hroute Henc tss.
  destruct (write_many fl reqs bodies Hw pg [] Hpg Hd Hmax) as (pg1 & E1 & Hpg1 & HF). fold tss in HF.
  destruct (snapshot_request_run fl clk pl r pg1 Hpg1 Hroute Henc) as (pg2 & outs & E2 & Hout & _).
  exists pg1, pg2, outs. split; [exact E1|]. split; [exact E2|].
  apply Forall2_same_length_lookup. split; [by rewrite (Forall2_length _ _ _ HF), (Forall2_length _ _ _ Hout)|].
  intros i e out Ee Eo. destruct (Forall2_lookup_l _ _ _ _ _ HF Ee) as (e1 & Ee1 & [(Hid & _) Habs]).
  destruct (Forall2_lookup_lr _ _ _ _ _ _ Hout Ee1 Eo) as [e2 Es]. intros p A H Hlim.
  destruct (Habs p A H Hlim) as (A1 & H1 & HW).
  destruct (toSnapshot_run p e1 A1 H1) as (o & fin & e2' & Es' & _ & _ & (Xs & HXs & HU) & Hids & _).
  rewrite Es in Es'. injection Es' as -> _. split; [by rewrite <- Hid|]. exists Xs. split; [done|]. by rewrite HU.
Qed.
End EndToEnd.

(** * At a concrete input *)
Lemma demo_sent : write_sent (Http := demo_http) demo_flags "/cardinality/api/v1/write"%string demo_request.
Proof.
  destruct demo_request_ok as [Hok Hb]. split; [reflexivity| |exact Hok|exact Hb|vm_compute; discriminate].
  exists (stored_block (encode_request demo_request)). split; [reflexivity|]. split.
  - apply (bool_decide_unpack (Forall (uint 8) (stored_block (encode_request demo_request)))). vm_compute. exact I.
  - apply stored_block_ok. vm_compute. split; [discriminate|reflexivity].
Qed.

Definition demo_write : clock * pools * string := (mkClock 5 6 7, demo_pools, "/cardinality/api/v1/write"%string).

Lemma demo_no_dedup :
  match @main_start set_sketch_ops demo_hash demo_ql demo_flags demo_src 5 with
  | Some (Ok pg) => match w_dedup (pg_world pg) with None => true | Some _ => false end = true
  | _ => False
  end.
Proof. vm_compute. reflexivity. Qed.

Lemma sent_series_reported_witness :
  ∃ pg0 pg1 pg2 outs, @main_start set_sketch_ops demo_hash demo_ql demo_flags demo_src 5 = Some (Ok pg0) ∧
    for_each (serve (Tab := demo_tables) (Xx := demo_hash) (Ql := demo_ql) (Prs := demo_peers) (OrdS := demo_order string) (OrdC := demo_order churnKey)
      (Int := demo_interleaving) (Rnd := demo_rand) (Cod := demo_codecs) (Http := demo_http) demo_flags) [demo_write; demo_write] (pg0, []) =
      Some (pg1, [Some (Reply 204 []); Some (Reply 204 [])]) ∧
    handle (Tab := demo_tables) (Xx := demo_hash) (Ql := demo_ql) (Prs := demo_peers) (OrdS := demo_order string) (OrdC := demo_order churnKey)
      (Int := demo_interleaving) (Rnd := demo_rand) (Cod := demo_codecs) (Http := demo_http) demo_flags (mkClock 5 6 7) demo_pools
      "/clusternative/snapshot"%string pg1 = Some (pg2, Some (Snapshots (mjoin outs))).
Proof.
  destruct demo_program as (pg0 & E & Hok).
  destruct (sent_series_reported (Tab := demo_tables) (Spec := set_sketch_spec) (Xx := demo_hash) (XxhashOk0 := demo_hash_ok) (Ql := demo_ql)
    (Prs := demo_peers) (PrsOk := demo_peers_ok) (Int := demo_interleaving) (InterleavingOk0 := demo_interleaving_ok)
    (OrdS := demo_order string) (OrdSOk := demo_order_ok string) (OrdC := demo_order churnKey) (OrdCOk := demo_order_ok churnKey)
    (Rnd := demo_rand) (FastRandOk0 := demo_rand_ok) (Cod := demo_codecs) (Http := demo_http)
    demo_flags [demo_write; demo_write] [demo_request; demo_request] pg0 (mkClock 5 6 7) demo_pools "/clusternative/snapshot"%string Hok)
    as (pg1 & pg2 & outs & E1 & E2 & _).
  - pose proof demo_no_dedup as Hd. rewrite E in Hd. by destruct (w_dedup (pg_world pg0)).
  - reflexivity.
  - constructor; [exact demo_sent|]. constructor; [exact demo_sent|constructor].
  - reflexivity.
  - reflexivity.
  - exists pg0, pg1, pg2, outs. exact (conj E (conj E1 E2)).
Defined.
